(* ===== verification/_CoqProject ===== *)
-Q . S2P
Prelude.v
Types.v
Stailq.v
Slist.v
Dlist.v
DlistProg.v
WitemCache.v
Places.v
Manager.v
ManagerMem.v
Dispatch.v
ManagerLoop.v
Overcommit.v
Pool.v
PoolSeq.v
PoolInv.v
PoolWake.v
PoolLate.v
PoolLive.v
PoolMem.v
System.v
SysLife.v
Api.v
Lifecycle.v
OvercommitMem.v
WinTls.v
WinAttr.v
WinThread.v
WinCancel.v
WinSync.v
WinMutex.v
WinCond.v
WinTime.v
WinSrw.v
Platform.v
LoadAvg.v
Priority.v
Signals.v
WinManager.v
WinQueueLock.v
WinVista.v
Kern.v
