(* ===== verification/Prelude.v ===== *)
(** * libpwq: a verification development

    libpwq implements pthread_workqueue(3): clients create prioritised work queues and
    submit work items; a pool of worker threads, sized by a manager thread, executes
    them.  This library translates its C sources into Rocq and proves that they do so.

    ** The program and the files that model it

    - src/windows/queue.h: Stailq.v (the STAILQ macros over an explicit memory of heads
      and links [qmem]; [stailq] relates a head to a list), Slist.v (the SLIST macros, by a
      simulation with them), Dlist.v (the LIST and TAILQ macros, whose back pointers are
      addresses of cells) and DlistProg.v (swaps, concatenations, programs of macros,
      traversals).
    - src/witem_cache.c: WitemCache.v, one Module per compile-time variant ([NoCache],
      [UmemCache], [TsdCache]), over a heap of work items.  The class [WitemAllocator]
      and its laws are the contract between the cache and its clients; each variant is
      an instance.
    - src/private.h, include/pthread_workqueue.h: Types.v (structures, constants).
    - src/posix/manager.c: Manager.v (the static variables as the record [manager], every
      function as one definition, run without interference), Dispatch.v (what taking an
      item, stopping a worker, suspending and peeking do), ManagerLoop.v (the loop of
      manager_main, in which every read of a shared counter may answer anything),
      Overcommit.v (overcommit_worker_main as a step relation over Manager.v),
      Pool.v (worker_main, wqlist_scan, wqlist_scan_spin, wqlist_scan_wait, worker_start,
      worker_stop and the ordinary branches of manager_workqueue_additem and
      manager_workqueue_create, cut at every access to shared memory), PoolSeq.v (the steps
      of Pool.v run alone are the functions of Manager.v), PoolInv.v and PoolWake.v (the
      invariants of the pool), PoolLive.v (it finishes its work), PoolLate.v (scripted
      runs, and a wakeup that is lost), System.v (manager_main cut at its reads, composed
      with the running pool), SysLife.v (a pool without workers), ManagerMem.v (the
      operations that touch items, written with the STAILQ macros on the memory of
      Stailq.v), Signals.v (sigmask_init and the signal masks of the threads).
    - src/api.c: Api.v, over Manager.v and any instance of [WitemAllocator].
    - Submission, queues in memory, workers and allocator together: Lifecycle.v (call by
      call), PoolMem.v (the interleaved threads of Pool.v on memory) and OvercommitMem.v
      (those of Overcommit.v), over the account of items in Places.v.
    - src/linux, src/solaris, src/posix, src/windows, load.c and thread_info.c of each:
      Platform.v (Modules [Linux], [Solaris], [Posix], [Windows]), with the C library's
      string functions they use; LoadAvg.v, the readers of /proc/loadavg; thread_rt.c of
      each and the part of worker_main that follows the priority of a queue: Priority.v.
    - src/windows: WinTls.v (pthread_tls.h), WinAttr.v (attributes and cancellation flags
      of pthread_create.h, mutex attributes of pthread_mutex.h), WinThread.v (creation,
      exit, joining and detaching of threads in pthread_create.h), WinCancel.v (its cleanup
      handlers and cancellation), WinSync.v (its spin lock and pthread_once, and the
      reader/writer lock of Windows XP in pthread_rw_lock.h), WinSrw.v (the reader/writer
      lock of Vista), WinMutex.v (the mutex functions of pthread_mutex.h and the condition
      variable of Vista, over a class that states what a critical section of the system
      promises), WinCond.v (the condition variable of Windows XP in
      pthread_cond_variables.h), WinTime.v (times.h, the timed lock of pthread_mutex.h,
      posix_semaphore.h, the timed wait of the condition variable of Vista), WinManager.v
      (manager.c for Windows XP, with each operation on a queue as one step),
      WinQueueLock.v (the same with the spin locks of the queues and the accesses they
      protect) and WinVista.v (manager.c for Vista; platform.c).
    - kern/pthread_workqueue.c: Kern.v.

    Prelude.v (this file) has the machine integers, the outcome type ([Ok], [Aborts] for
    abort(3), [Faults] for an invalid access, [Blocks] for a loop that does not end), the
    sums over maps and lists that count threads and items, the tactics and the hint
    databases.

    ** What the theorems show

    - Data structures: programs of STAILQ, SLIST, LIST and TAILQ macros refine list
      operations and leave every other queue alone; each of the three cache variants hands out initialised
      items that alias no live one; the per-thread free list is a stack, and thread exit frees
      it.
    - Manager, sequentially: initialisation, whatever the static variables held, resets
      the counters and establishes the invariant [mgr_ok] (slots,
      indices, priorities and the mask agree); creating a queue and submitting an item
      preserve it and refine the abstract queues ([pending]); a scan takes the oldest item
      of the highest priority, and emptying the queues yields all items in that order.  The
      same operations on the memory of the queues refine those on lists.
    - Pool, under every interleaving: a lock that is taken has exactly one holder; the mask is exact; the scoreboard
      is exact; every item is executed at most once and none is lost; no deadlock; no
      wakeup is lost unless a queue is created before all others while a worker is being
      told to exit, and then one can be.  Without the busy loop every schedule comes to
      rest, with every item executed when a worker is left.  A thread that runs alone
      computes what Manager.v computes.
    - Memory, under every interleaving and for every allocator: the pool and the overcommit
      workers on linked queues and allocated items refine those on lists; no item is used
      after it was freed, freed twice or linked twice; when nothing is queued or held the
      allocator has every item back and the calls made are those submitted.
    - Overcommit workers, under every interleaving with timeouts and spurious wakeups:
      exact accounting, exactly-once execution, and completion of all submitted work by
      a decreasing measure as long as pthread_create succeeds.
    - Manager thread: when the pool grows, when it shrinks, that an idle pool whose stopped
      workers leave within a tick ([settled]) ramps down to its threshold; the bounds of the process limit.  The loop cut at
      its reads computes the same turn, and, run against the live pool, it keeps the
      number of workers within the largest of worker_min, the idle threshold and the
      process limit, plus one for each blocked thread that was replaced.  A pool that has
      lost its last worker never gets one again, and the manager can bring it there.
    - Public interface: status codes on every branch, the attribute round trip, and the
      round trip from pthread_workqueue_additem_np to the worker that takes the item.
    - Platforms: the parsers of /proc return what the kernel printed; the run queue
      average of Solaris survives counter wrap-around; a worker runs at the priority of
      the queue of its item.
    - Windows: thread-specific data, once, mutexes and reader/writer locks keep their
      contracts;
      the structure of a thread is freed once and not used afterwards when it is joined
      or detached in time; a thread returns from a condition wait only after a signal that
      was given since it registered, and
      a broadcast releases every waiter; a cancellation is seen at the next test as long as
      handlers that run because of one reach no cancellation point and no canceller is
      interrupted inside of pthread_cancel; times
      convert to deadlines without overflow within their range; both pools execute every
      item, the one of Windows XP as long as the second initialisation of a queue's lock
      finds it free.
    - Behaviour that is not what the code means to do is stated as a theorem too: a failed
      pthread_create that keeps the pool from growing, a threshold of zero for three CPUs,
      workers that are told to exit and still counted as idle, a load average that is never
      used,
      a worker in the busy loop that passes over an item, an overcommit submission that
      strands when its thread can not be created, the off-by-one of pthread_setspecific on
      Windows, the extra entry that threads_runnable counts, the signals a condition
      variable of Windows XP loses, the item that its pool loses when a lock is initialised
      under a scan, cancellations that are missed without the care above, threads that use or leak their structure, priorities
      that the Vista pool inverts, semaphore functions that use the address of the handle.

    ** Conventions, bounds and fuel

    unsigned int is [Z] modulo 2^32 with the wrap-around written out; pointers are [Z],
    NULL is 0.  System calls and library functions are arguments: what they answered.
    Loops over linked structures take the number of allocated elements as fuel, which
    the theorems show to be enough (they conclude [Ok]); the loops that retry an atomic
    operation get one retry and are shown to need none; [drain] and the cleanup of
    thread-specific data take the number of items and of keys; a turn of the manager takes
    [turn_fuel], twelve steps and one for each worker it may stop.  The two
    pools assume fewer than 2^32 - 1 threads at a time, which keeps the 32-bit counters
    from wrapping; for the reader/writer lock this follows from the distinct thread ids;
    the int counters of the condition variable and of cancellation are kept at 32 bits,
    and their theorems assume fewer than 2^31 signals and cancellations.  A thread waits on
    a condition variable of Vista only with the mutex locked once, as the system asks.
    Memory is sequentially consistent.

    ** What is not modelled

    Debug output and the headers of types, limits and includes (stdint.h is a copy of
    another project's), the words of a contended SRW lock and the contents of a critical
    section (the system's), how the system redirects a thread's context (a redirected
    thread continues in _pthread_invoke_cancel), the tracing of queue.h under QUEUE_MACRO_DEBUG, and
    the tests.  The steps inside a critical section are cut at the accesses that other
    threads can see: the STAILQ macros under a queue's spin lock are one step each
    (two, a read and a write, in WinQueueLock.v). *)

From stdpp Require Import base gmap list strings.
From Stdlib Require Import ZArith Lia.

#[global] Open Scope Z_scope.

(** ** Machine integers

    [unsigned int] is a [Z] reduced modulo [2^32]; [int] is its two's complement
    reading.  The operations below write the wrap-around of the C operators out. *)

Declare Scope pwq_scope.
Delimit Scope pwq_scope with pwq.

Definition u32 (z : Z) : Z := z mod 2 ^ 32.
Definition u64 (z : Z) : Z := z mod 2 ^ 64.
Definition s32 (z : Z) : Z := let w := u32 z in if w <? 2 ^ 31 then w else w - 2 ^ 32.
Definition is_u32 (z : Z) : Prop := 0 <= z < 2 ^ 32.

Notation "x +u y" := (u32 (x + y)) (at level 50, left associativity) : pwq_scope.
Notation "x -u y" := (u32 (x - y)) (at level 50, left associativity) : pwq_scope.
#[global] Open Scope pwq_scope.

(** [0x1 << i] and the bitwise complement on 32 bits. *)
Definition bit (i : Z) : Z := Z.shiftl 1 i.
Definition lnot32 (z : Z) : Z := u32 (Z.lnot z).

(** [ffs(3)]: one plus the index of the least significant set bit, 0 for 0.  The
    lowest set bit of a negative [int] is that of its magnitude. *)
Fixpoint ctz (p : positive) : Z :=
  match p with
  | xO q => 1 + ctz q
  | _ => 0
  end.

Definition ffs (z : Z) : Z :=
  match z with
  | Z0 => 0
  | Zpos p | Zneg p => 1 + ctz p
  end.

(** ** Outcomes: a call returns, the process aborts, it touches memory it does not
    own, or it is still waiting in a loop for an answer of the system. *)
Inductive outcome (A : Type) : Type :=
| Ok (a : A)
| Aborts
| Faults
| Blocks.
Arguments Ok {A} _.
Arguments Aborts {A}.
Arguments Faults {A}.
Arguments Blocks {A}.

Definition obind {A B} (m : outcome A) (k : A -> outcome B) : outcome B :=
  match m with Ok a => k a | Aborts => Aborts | Faults => Faults | Blocks => Blocks end.

(** A dereference: a missing cell is a fault. *)
Definition deref {A} (o : option A) : outcome A :=
  match o with Some a => Ok a | None => Faults end.

Notation "'let*' x ':=' m 'in' k" := (obind m (fun x => k))
  (at level 10, x pattern, k at level 200) : pwq_scope.

(** ** Sums over the values of a finite map: how many threads are in a state, how
    many copies of an item they hold. *)
Definition msum {K A} `{Countable K} (f : A -> Z) (m : gmap K A) : Z :=
  map_fold (fun _ x acc => f x + acc) 0 m.

(** ** Sums over lists *)
Definition lsum {A} (f : A -> Z) (l : list A) : Z :=
  foldr (fun x acc => f x + acc) 0 l.

(** How many times a value occurs in a list. *)
Definition occ {A} `{EqDecision A} (x : A) (l : list A) : Z :=
  lsum (fun y => if decide (x = y) then 1 else 0) l.

(** ** Tactics *)

(** Splits every [match] of the goal and of the context, keeping the equations. *)
Ltac split_matches :=
  repeat (first [progress simplify_eq/= | case_match]).

(** Case analysis on boolean comparisons of integers, then [lia]. *)
Ltac zcase :=
  repeat match goal with
  | |- context [?a <? ?b] => destruct (Z.ltb_spec a b)
  | |- context [?a <=? ?b] => destruct (Z.leb_spec a b)
  | |- context [?a =? ?b] => destruct (Z.eqb_spec a b)
  | H : context [?a <? ?b] |- _ => destruct (Z.ltb_spec a b)
  | H : context [?a <=? ?b] |- _ => destruct (Z.leb_spec a b)
  | H : context [?a =? ?b] |- _ => destruct (Z.eqb_spec a b)
  end.

(** Closed comparisons of integers, by evaluation. *)
Ltac zcheck := vm_compute; repeat split; first [discriminate | reflexivity].

Create HintDb pwq discriminated.
Create Rewrite HintDb pwq_sum.

(** ** Lemmas: machine integers *)

Lemma u32_range z : is_u32 (u32 z).
Proof. unfold is_u32, u32. apply Z.mod_pos_bound. lia. Qed.

Lemma u32_small z : 0 <= z < 2 ^ 32 -> u32 z = z.
Proof. intros. by apply Z.mod_small. Qed.

Lemma s32_small z : 0 <= z < 2 ^ 31 -> s32 z = z.
Proof. intros. unfold s32. rewrite u32_small by lia. zcase; lia. Qed.

Lemma u32_idem z : u32 (u32 z) = u32 z.
Proof. apply u32_small, u32_range. Qed.

Lemma u32_add_sub z : is_u32 z -> u32 (u32 (z + 1) - 1) = z.
Proof.
  intros Hz. unfold u32, is_u32 in *.
  rewrite Zminus_mod_idemp_l. replace (z + 1 - 1) with z by lia. by apply Z.mod_small.
Qed.

Lemma u32_of_s32 z : u32 (s32 z) = u32 z.
Proof.
  unfold s32. zcase; [apply u32_idem|].
  unfold u32 in *. rewrite Zminus_mod, Z.mod_mod, Z_mod_same_full, Z.sub_0_r by lia.
  by rewrite Z.mod_mod.
Qed.

Lemma obind_ok {A B} (o : outcome A) (k : A -> outcome B) b :
  obind o k = Ok b -> exists a, o = Ok a /\ k a = Ok b.
Proof. destruct o; simpl; try done. eauto. Qed.

#[export] Hint Resolve u32_range : pwq.

(** ** Lemmas: bits and [ffs] *)

Lemma bit_spec i j : 0 <= i -> Z.testbit (bit i) j = bool_decide (i = j).
Proof.
  intros Hi. unfold bit. destruct (decide (0 <= j)) as [Hj|Hj].
  - rewrite Z.shiftl_spec by done. destruct (decide (i = j)) as [->|Hne].
    + rewrite Z.sub_diag. by rewrite bool_decide_eq_true_2.
    + rewrite bool_decide_eq_false_2 by done.
      destruct (decide (j < i)); [by rewrite Z.testbit_neg_r by lia|].
      change 1 with (2 ^ 0). by rewrite Z.pow2_bits_false by lia.
  - rewrite Z.testbit_neg_r by lia. rewrite bool_decide_eq_false_2 by lia. done.
Qed.

Lemma bit_range i : 0 <= i < 32 -> is_u32 (bit i) /\ bit i <> 0.
Proof.
  intros Hi. unfold bit, is_u32. rewrite Z.shiftl_1_l.
  pose proof (Z.pow_pos_nonneg 2 i). pose proof (Z.pow_lt_mono_r 2 i 32). lia.
Qed.

Lemma testbit_u32 z j : 0 <= j < 32 -> Z.testbit (u32 z) j = Z.testbit z j.
Proof. intros Hj. unfold u32. by rewrite Z.mod_pow2_bits_low by lia. Qed.

Lemma testbit_u32_high z j : is_u32 z -> 32 <= j -> Z.testbit z j = false.
Proof.
  intros Hz Hj. unfold is_u32 in Hz. destruct (decide (z = 0)) as [->|]; [apply Z.bits_0|].
  apply Z.bits_above_log2; [lia|].
  assert (Z.log2 z < 32) by (apply Z.log2_lt_pow2; lia). lia.
Qed.

Lemma is_u32_by_bits z : 0 <= z -> (forall j, 32 <= j -> Z.testbit z j = false) -> is_u32 z.
Proof.
  intros Hz Hb. split; [done|]. destruct (decide (z = 0)) as [->|]; [lia|].
  destruct (decide (Z.log2 z < 32)) as [Hl|Hl]; [by apply Z.log2_lt_pow2; lia|].
  specialize (Hb (Z.log2 z)). rewrite Z.bit_log2 in Hb by lia.
  discriminate Hb; lia.
Qed.

Lemma lor_u32 a b : is_u32 a -> is_u32 b -> is_u32 (Z.lor a b).
Proof.
  intros Ha Hb. apply is_u32_by_bits.
  - apply Z.lor_nonneg. unfold is_u32 in *. lia.
  - intros j Hj. by rewrite Z.lor_spec, !testbit_u32_high by done.
Qed.

Lemma land_u32 a b : is_u32 a -> is_u32 b -> is_u32 (Z.land a b).
Proof.
  intros Ha Hb. apply is_u32_by_bits.
  - apply Z.land_nonneg. unfold is_u32 in *. lia.
  - intros j Hj. by rewrite Z.land_spec, !testbit_u32_high by done.
Qed.

Lemma testbit_set m i j :
  0 <= i -> Z.testbit (Z.lor m (bit i)) j = Z.testbit m j || bool_decide (i = j).
Proof. intros. by rewrite Z.lor_spec, bit_spec. Qed.

Lemma testbit_clear m i j :
  is_u32 m -> 0 <= i < 32 ->
  Z.testbit (Z.land m (lnot32 (bit i))) j = Z.testbit m j && negb (bool_decide (i = j)).
Proof.
  intros Hm Hi. rewrite Z.land_spec. unfold lnot32.
  destruct (decide (j < 0)); [by rewrite !Z.testbit_neg_r by lia|].
  destruct (decide (32 <= j)).
  - by rewrite (testbit_u32_high m) by done.
  - rewrite testbit_u32, Z.lnot_spec, bit_spec by lia. done.
Qed.

Lemma ctz_nonneg p : 0 <= ctz p.
Proof. induction p; simpl; lia. Qed.

Lemma ctz_set p : Z.testbit (Zpos p) (ctz p) = true.
Proof.
  induction p as [p IH|p IH|]; [done| |done].
  pose proof (ctz_nonneg p). change (ctz p~0) with (1 + ctz p).
  rewrite Pos2Z.inj_xO, Z.double_bits by lia. by replace (Z.pred (1 + ctz p)) with (ctz p) by lia.
Qed.

Lemma ctz_least p j : 0 <= j < ctz p -> Z.testbit (Zpos p) j = false.
Proof.
  revert j. induction p as [p IH|p IH|]; simpl; intros j Hj; [lia| |lia].
  rewrite Pos2Z.inj_xO, Z.double_bits by lia.
  destruct (decide (j = 0)) as [->|]; [done|]. apply IH. lia.
Qed.

Lemma ffs_zero z : ffs z = 0 <-> z = 0.
Proof. destruct z as [|p|p]; simpl; [done| |]; pose proof (ctz_nonneg p); split; intros; lia. Qed.

(** [ffs] finds the least set bit. *)
Lemma ffs_least z :
  0 < z ->
  0 < ffs z /\ Z.testbit z (ffs z - 1) = true /\
  (forall j, 0 <= j < ffs z - 1 -> Z.testbit z j = false).
Proof.
  destruct z as [|p|p]; [lia| |lia]. intros _. simpl. pose proof (ctz_nonneg p).
  replace (1 + ctz p - 1) with (ctz p) by lia. split_and!; [lia|apply ctz_set|apply ctz_least].
Qed.

Lemma ffs_unique z i :
  0 <= i -> 0 < z -> Z.testbit z i = true -> (forall j, 0 <= j < i -> Z.testbit z j = false) ->
  ffs z = i + 1.
Proof.
  intros Hi Hz Hb Hl. destruct (ffs_least z Hz) as (H1 & H2 & H3).
  destruct (Z.lt_trichotomy (ffs z - 1) i) as [H|[H|H]]; [|lia|].
  - rewrite Hl in H2 by lia. done.
  - rewrite H3 in Hb by lia. done.
Qed.

(** ** Lemmas: sums *)

Section MapSum.
Context {K A : Type} `{Countable K}.
Implicit Types (m : gmap K A) (f : A -> Z).

Lemma msum_empty f : msum f (∅ : gmap K A) = 0.
Proof. unfold msum. by rewrite map_fold_empty. Qed.

Lemma msum_insert_new f m k x : m !! k = None -> msum f (<[k:=x]> m) = f x + msum f m.
Proof.
  intros Hk. unfold msum. rewrite map_fold_insert_L; [done| |done].
  intros. lia.
Qed.

Lemma msum_delete f m k x : m !! k = Some x -> msum f m = f x + msum f (delete k m).
Proof.
  intros Hk. rewrite <- (insert_delete_id m k x) at 1 by done.
  apply msum_insert_new. by rewrite lookup_delete_eq.
Qed.

Lemma msum_insert f m k x y :
  m !! k = Some x -> msum f (<[k:=y]> m) = msum f m - f x + f y.
Proof.
  intros Hk. rewrite (msum_delete f (<[k:=y]> m) k y) by apply lookup_insert_eq.
  rewrite delete_insert_eq, (msum_delete f m k x Hk). lia.
Qed.

Lemma msum_nonneg f m : (forall x, 0 <= f x) -> 0 <= msum f m.
Proof.
  intros Hf. induction m as [|k x m Hk IH] using map_ind; [by rewrite msum_empty|].
  rewrite msum_insert_new by done. specialize (Hf x). lia.
Qed.

Lemma msum_ge f m k x :
  (forall x, 0 <= f x) -> m !! k = Some x -> f x <= msum f m.
Proof.
  intros Hf Hk. rewrite (msum_delete f m k x Hk).
  pose proof (msum_nonneg f (delete k m) Hf). lia.
Qed.

Lemma msum_ext f g m : (forall k x, m !! k = Some x -> f x = g x) -> msum f m = msum g m.
Proof.
  induction m as [|k x m Hk IH] using map_ind; intros Hfg; [by rewrite !msum_empty|].
  rewrite !msum_insert_new by done. rewrite (Hfg k x) by apply lookup_insert_eq.
  rewrite IH; [done|]. intros k' x' Hk'. apply (Hfg k'). rewrite lookup_insert_ne; [done|congruence].
Qed.

Lemma msum_le f g m : (forall k x, m !! k = Some x -> f x <= g x) -> msum f m <= msum g m.
Proof.
  induction m as [|k x m Hk IH] using map_ind; intros Hfg; [by rewrite !msum_empty|].
  rewrite !msum_insert_new by done.
  pose proof (Hfg k x ltac:(apply lookup_insert_eq)).
  assert (msum f m <= msum g m); [|lia].
  apply IH. intros k' x' Hk'. apply (Hfg k'). rewrite lookup_insert_ne; [done|congruence].
Qed.

Lemma msum_zero f m k x :
  (forall x, 0 <= f x) -> msum f m = 0 -> m !! k = Some x -> f x = 0.
Proof. intros Hf Hz Hk. pose proof (msum_ge f m k x Hf Hk). specialize (Hf x). lia. Qed.

Lemma msum_const0 f m : (forall k x, m !! k = Some x -> f x = 0) -> msum f m = 0.
Proof.
  intros Hf. rewrite (msum_ext f (fun _ => 0) m) by done.
  induction m as [|k x m Hk IH] using map_ind; [by rewrite msum_empty|].
  rewrite msum_insert_new by done. apply IH. intros k' x' Hk'. apply (Hf k').
  rewrite lookup_insert_ne; [done|congruence].
Qed.

Lemma msum_pos f m :
  (forall x, 0 <= f x) -> 0 < msum f m -> exists k x, m !! k = Some x /\ 0 < f x.
Proof.
  intros Hf. induction m as [|k x m Hk IH] using map_ind; [rewrite msum_empty; lia|].
  rewrite msum_insert_new by done. intros Hpos.
  destruct (decide (0 < f x)).
  - exists k, x. by rewrite lookup_insert_eq.
  - specialize (Hf x). destruct IH as (k' & x' & Hk' & Hx'); [lia|].
    exists k', x'. rewrite lookup_insert_ne; [done|congruence].
Qed.
End MapSum.

Section ListSum.
Context {A : Type}.
Implicit Types (l : list A) (f : A -> Z).

Lemma lsum_app f l1 l2 : lsum f (l1 ++ l2) = lsum f l1 + lsum f l2.
Proof. induction l1 as [|x l1 IH]; simpl; [done|]. unfold lsum in *. simpl. lia. Qed.

Lemma lsum_nonneg f l : (forall x, 0 <= f x) -> 0 <= lsum f l.
Proof. intros Hf. induction l as [|x l IH]; [done|]. unfold lsum in *. simpl. specialize (Hf x). lia. Qed.

Lemma lsum_insert f l i x y :
  l !! i = Some x -> lsum f (<[i:=y]> l) = lsum f l - f x + f y.
Proof.
  revert i. induction l as [|z l IH]; intros [|i] Hi; simplify_eq/=; [unfold lsum; simpl; lia|].
  specialize (IH i Hi). unfold lsum in *. simpl. lia.
Qed.

Lemma lsum_perm f l1 l2 : l1 ≡ₚ l2 -> lsum f l1 = lsum f l2.
Proof. unfold lsum. induction 1; simpl; lia. Qed.

Lemma lsum_ge f l x : (forall y, 0 <= f y) -> x ∈ l -> f x <= lsum f l.
Proof.
  intros Hf. induction 1 as [y l|y z l _ IH]; unfold lsum in *; simpl.
  - pose proof (lsum_nonneg f l Hf). unfold lsum in *. lia.
  - specialize (Hf z). lia.
Qed.

Lemma lsum_const0 f l : (forall x, x ∈ l -> f x = 0) -> lsum f l = 0.
Proof.
  induction l as [|a l IH]; [done|]. intros H. unfold lsum in *. simpl.
  rewrite (H a), IH by (by left || intros; apply H; by right). done.
Qed.
End ListSum.

Section Occ.
Context {A : Type} `{EqDecision A}.
Implicit Types (l : list A) (x : A).

Lemma occ_app x l1 l2 : occ x (l1 ++ l2) = occ x l1 + occ x l2.
Proof. apply lsum_app. Qed.

Lemma occ_cons x y l : occ x (y :: l) = (if decide (x = y) then 1 else 0) + occ x l.
Proof. done. Qed.

Lemma occ_snoc x y l : occ x (l ++ [y]) = occ x l + (if decide (x = y) then 1 else 0).
Proof. rewrite occ_app, occ_cons. change (occ x []) with 0. lia. Qed.

Lemma occ_nonneg x l : 0 <= occ x l.
Proof. apply lsum_nonneg. intros. case_decide; lia. Qed.

Lemma occ_perm x l1 l2 : l1 ≡ₚ l2 -> occ x l1 = occ x l2.
Proof. induction 1; rewrite ?occ_cons; lia. Qed.

Lemma occ_zero l : (forall x, occ x l = 0) -> l = [].
Proof.
  destruct l as [|y l]; [done|]. intros H. specialize (H y). rewrite occ_cons, decide_True in H by done.
  pose proof (occ_nonneg y l). lia.
Qed.

Lemma occ_in x l : x ∈ l -> 0 < occ x l.
Proof.
  induction 1 as [|y l Hin IH]; rewrite occ_cons.
  - rewrite decide_True by done. pose proof (occ_nonneg x l). lia.
  - case_decide; lia.
Qed.

Lemma occ_elem x l : 0 < occ x l -> x ∈ l.
Proof.
  induction l as [|y l IH]; [by change (occ x []) with 0|]. rewrite occ_cons.
  case_decide as He; [subst; by left|]. intros. right. apply IH. lia.
Qed.

(** Two lists that agree on how often each value occurs have the same members. *)
Lemma occ_same l1 l2 : (forall x, occ x l1 = occ x l2) -> l1 ≡ₚ l2.
Proof.
  revert l2. induction l1 as [|y l1 IH]; intros l2 H.
  - by rewrite (occ_zero l2) by (intros x; by rewrite <- (H x)).
  - assert (Hy : y ∈ l2) by (apply occ_elem; rewrite <- H; apply occ_in; by left).
    apply list_elem_of_split in Hy as (a & b & ->). rewrite <- Permutation_middle. f_equiv. apply IH.
    intros x. specialize (H x). rewrite occ_app, !occ_cons in H. rewrite occ_app. lia.
Qed.
End Occ.

#[export] Hint Rewrite @occ_snoc @occ_app @occ_cons : pwq_sum.
