(* ===== verification/Types.v ===== *)
(** * The structures and constants of src/private.h and include/pthread_workqueue.h

    Pointers are [Z], [NULL] is 0.  A [struct work] is a record of its fields; a
    work queue's [item_listhead] is the list of the items linked from it (Stailq.v
    relates that list to the pointer structure the STAILQ macros maintain). *)

From stdpp Require Import base gmap list.
From Stdlib Require Import ZArith Lia.
From S2P Require Import Prelude.

(** ** Constants *)

Abbreviation ptr := Z (only parsing).
Definition NULL : ptr := 0.

(* errno values (asm-generic/errno-base.h, errno.h) *)
Definition EAGAIN : Z := 11.
Definition ENOMEM : Z := 12.
Definition EBUSY : Z := 16.
Definition EINVAL : Z := 22.
Definition ETIMEDOUT : Z := 110.

Definition PTHREAD_WORKQUEUE_MAX : nat := 31.
Definition WORKQ_NUM_PRIOQUEUE : Z := 6.
Definition PTHREAD_WORKQUEUE_SIG : Z := 0xBEBEBEBE.
Definition PTHREAD_WORKQUEUE_ATTR_SIG : Z := 0xBEBEBEBE.

Definition WORKQ_HIGH_PRIOQUEUE : Z := 0.
Definition WORKQ_DEFAULT_PRIOQUEUE : Z := 1.
Definition WORKQ_LOW_PRIOQUEUE : Z := 2.
Definition WORKQ_BG_PRIOQUEUE : Z := 3.
Definition WORKQ_BG_PRIOQUEUE_CONDITIONAL : Z := 4.
Definition WORKQ_HIGH_PRIOQUEUE_CONDITIONAL : Z := 5.

Definition CACHELINE_SIZE : Z := 64.

(** [(((x) + (CACHELINE_SIZE - 1)) & ~(CACHELINE_SIZE - 1))] at [size_t]: the [int]
    [~63] is converted to 64 bits. *)
Definition ROUND_UP_TO_CACHELINE_SIZE (x : Z) : Z :=
  Z.land (u64 (x + (CACHELINE_SIZE - 1))) (u64 (Z.lnot (CACHELINE_SIZE - 1))).

(** ** struct work *)
Record work := Work {
  stqe_next : ptr;   (* item_entry.stqe_next *)
  func : Z;          (* void ( *func)(void * ), NULL marks a thread exit event *)
  func_arg : Z;
  flags : Z;
  gencount : Z;
  wi_next : ptr      (* only with WITEM_CACHE_TYPE == 3 *)
}.

#[global] Instance work_eq_dec : EqDecision work.
Proof. solve_decision. Defined.

Definition set_stqe_next (p : ptr) (w : work) : work :=
  Work p (func w) (func_arg w) (flags w) (gencount w) (wi_next w).
Definition set_wi_next (p : ptr) (w : work) : work :=
  Work (stqe_next w) (func w) (func_arg w) (flags w) (gencount w) p.
Definition set_func (f : Z) (w : work) : work :=
  Work (stqe_next w) f (func_arg w) (flags w) (gencount w) (wi_next w).
Definition set_func_arg (a : Z) (w : work) : work :=
  Work (stqe_next w) (func w) a (flags w) (gencount w) (wi_next w).
Definition set_flags (x : Z) (w : work) : work :=
  Work (stqe_next w) (func w) (func_arg w) x (gencount w) (wi_next w).
Definition set_gencount (x : Z) (w : work) : work :=
  Work (stqe_next w) (func w) (func_arg w) (flags w) x (wi_next w).

(** What "a properly initialized witem" (src/private.h) means: every field the
    library reads before writing it has its initial value. *)
Definition initialized_witem (f a : Z) (w : work) : Prop :=
  func w = f /\ func_arg w = a /\ flags w = 0 /\ gencount w = 0 /\ stqe_next w = NULL.

(** ** struct _pthread_workqueue *)
Record workqueue := Workqueue {
  sig : Z;
  wq_flags : Z;
  queueprio : Z;
  overcommit : Z;
  wqlist_index : Z;
  item_listhead : list work
}.

Definition set_items (l : list work) (q : workqueue) : workqueue :=
  Workqueue (sig q) (wq_flags q) (queueprio q) (overcommit q) (wqlist_index q) l.
Definition set_wqlist_index (i : Z) (q : workqueue) : workqueue :=
  Workqueue (sig q) (wq_flags q) (queueprio q) (overcommit q) i (item_listhead q).

(** ** pthread_workqueue_attr_t *)
Record attr_t := Attr {
  attr_sig : Z;
  attr_queueprio : Z;
  attr_overcommit : Z;
  attr_pad : list Z   (* unsigned int pad[13], never read *)
}.

(** ** Lemmas *)

Lemma set_items_items l q : item_listhead (set_items l q) = l.
Proof. done. Qed.

Lemma set_items_same q : set_items (item_listhead q) q = q.
Proof. by destruct q. Qed.

Lemma lnot_63 x :
  0 <= x < 2 ^ 64 -> Z.land x (u64 (Z.lnot 63)) = 64 * (x / 64).
Proof.
  intros Hx.
  replace (u64 (Z.lnot 63)) with (Z.ldiff (Z.ones 64) (Z.ones 6)) by reflexivity.
  rewrite (Z.mul_comm 64).
  replace (x / 64) with (Z.shiftr x 6) by (rewrite Z.shiftr_div_pow2 by lia; done).
  replace (Z.shiftr x 6 * 64) with (Z.shiftl (Z.shiftr x 6) 6) by (rewrite Z.shiftl_mul_pow2; lia).
  apply Z.bits_inj_iff'. intros n Hn.
  rewrite Z.land_spec, Z.ldiff_spec, Z.shiftl_spec by lia.
  destruct (decide (n < 6)).
  - rewrite (Z.testbit_neg_r _ (n - 6)), (Z.ones_spec_low 6) by lia.
    by rewrite andb_false_r, andb_false_r.
  - rewrite Z.shiftr_spec by lia. replace (n - 6 + 6) with n by lia.
    rewrite (Z.ones_spec_high 6) by lia. simpl. rewrite andb_true_r.
    destruct (decide (n < 64)).
    + rewrite Z.ones_spec_low by lia. by rewrite andb_true_r.
    + rewrite Z.ones_spec_high, andb_false_r by lia. symmetry.
      destruct (decide (x = 0)) as [->|]; [apply Z.bits_0|].
      apply Z.bits_above_log2; [lia|]. assert (Z.log2 x < 64) by (apply Z.log2_lt_pow2; lia). lia.
Qed.

Lemma cacheline_round x :
  0 <= x < 2 ^ 64 - 63 ->
  x <= ROUND_UP_TO_CACHELINE_SIZE x < x + CACHELINE_SIZE /\
  ROUND_UP_TO_CACHELINE_SIZE x mod CACHELINE_SIZE = 0.
Proof.
  intros Hx. unfold ROUND_UP_TO_CACHELINE_SIZE, CACHELINE_SIZE in *.
  replace (64 - 1) with 63 by lia.
  assert (Hu : u64 (x + 63) = x + 63) by (unfold u64; apply Z.mod_small; lia).
  rewrite Hu, lnot_63 by lia. split.
  - pose proof (Z.div_mod (x + 63) 64). pose proof (Z.mod_pos_bound (x + 63) 64). lia.
  - rewrite Z.mul_comm. by apply Z.mod_mul.
Qed.
