(* ===== verification/Stailq.v ===== *)
(** * Singly-linked tail queues (the STAILQ macros of src/windows/queue.h)

    The macros are translated over an explicit memory: the [stqh_first] and
    [stqh_last] fields of every queue head and the [stqe_next] field of every
    element.  [stqh_last] is the address of a pointer cell, either a head's
    [stqh_first] or an element's [stqe_next].  The representation predicate
    [stailq] relates a head to the list of its elements, and every macro is shown to
    refine the corresponding operation on lists, with every other queue of the same
    memory left as it was. *)

From stdpp Require Import base gmap list.
From Stdlib Require Import ZArith Lia.
From S2P Require Import Prelude Types.

(** ** Memory *)

(** [struct type **]: the address of a cell that holds an element pointer. *)
Inductive cell :=
| CFirst (h : Z)      (* &(head)->stqh_first *)
| CNext (p : ptr).    (* &(elm)->field.stqe_next *)

#[global] Instance cell_eq_dec : EqDecision cell.
Proof. solve_decision. Defined.

Record qmem := QMem {
  q_first : gmap Z ptr;    (* stqh_first of each head *)
  q_last : gmap Z cell;    (* stqh_last of each head *)
  q_next : gmap Z ptr      (* item_entry.stqe_next of each element *)
}.

Definition set_first (h : Z) (p : ptr) (m : qmem) : outcome qmem :=
  let* _ := deref (q_first m !! h) in
  Ok (QMem (<[h:=p]> (q_first m)) (q_last m) (q_next m)).
Definition set_last (h : Z) (c : cell) (m : qmem) : outcome qmem :=
  let* _ := deref (q_last m !! h) in
  Ok (QMem (q_first m) (<[h:=c]> (q_last m)) (q_next m)).
Definition set_next (e p : ptr) (m : qmem) : outcome qmem :=
  let* _ := deref (q_next m !! e) in
  Ok (QMem (q_first m) (q_last m) (<[e:=p]> (q_next m))).
(** [*cell = p] *)
Definition store (c : cell) (p : ptr) (m : qmem) : outcome qmem :=
  match c with CFirst h => set_first h p m | CNext e => set_next e p m end.

(** ** The macros *)

Definition STAILQ_FIRST (h : Z) (m : qmem) : outcome ptr := deref (q_first m !! h).
Definition STAILQ_NEXT (e : ptr) (m : qmem) : outcome ptr := deref (q_next m !! e).
Definition STAILQ_EMPTY (h : Z) (m : qmem) : outcome bool :=
  let* f := STAILQ_FIRST h m in Ok (f =? NULL).

Definition STAILQ_INIT (h : Z) (m : qmem) : outcome qmem :=
  let* m := set_first h NULL m in set_last h (CFirst h) m.

Definition STAILQ_INSERT_AFTER (h : Z) (tqelm elm : ptr) (m : qmem) : outcome qmem :=
  let* n := STAILQ_NEXT tqelm m in
  let* m := set_next elm n m in
  let* m := (if n =? NULL then set_last h (CNext elm) m else Ok m) in
  set_next tqelm elm m.

Definition STAILQ_INSERT_HEAD (h : Z) (elm : ptr) (m : qmem) : outcome qmem :=
  let* n := STAILQ_FIRST h m in
  let* m := set_next elm n m in
  let* m := (if n =? NULL then set_last h (CNext elm) m else Ok m) in
  set_first h elm m.

Definition STAILQ_INSERT_TAIL (h : Z) (elm : ptr) (m : qmem) : outcome qmem :=
  let* m := set_next elm NULL m in
  let* c := deref (q_last m !! h) in
  let* m := store c elm m in
  set_last h (CNext elm) m.

Definition STAILQ_REMOVE_HEAD (h : Z) (m : qmem) : outcome qmem :=
  let* f := STAILQ_FIRST h m in
  let* n := STAILQ_NEXT f m in
  let* m := set_first h n m in
  if n =? NULL then set_last h (CFirst h) m else Ok m.

Definition STAILQ_REMOVE_AFTER (h : Z) (elm : ptr) (m : qmem) : outcome qmem :=
  let* n := STAILQ_NEXT elm m in
  let* nn := STAILQ_NEXT n m in
  let* m := set_next elm nn m in
  if nn =? NULL then set_last h (CNext elm) m else Ok m.

(** [while (STAILQ_NEXT(curelm) != (elm)) curelm = STAILQ_NEXT(curelm)]; every turn
    moves one element on, so the number of elements bounds the turns. *)
Fixpoint find_before (fuel : nat) (curelm elm : ptr) (m : qmem) : outcome ptr :=
  match fuel with
  | O => Faults
  | S fuel =>
      let* n := STAILQ_NEXT curelm m in
      if n =? elm then Ok curelm else find_before fuel n elm m
  end.

Definition STAILQ_REMOVE (h : Z) (elm : ptr) (m : qmem) : outcome qmem :=
  let* f := STAILQ_FIRST h m in
  if f =? elm then STAILQ_REMOVE_HEAD h m
  else
    let* cur := find_before (size (q_next m)) f elm m in
    STAILQ_REMOVE_AFTER h cur m.

Definition STAILQ_CONCAT (h1 h2 : Z) (m : qmem) : outcome qmem :=
  let* e := STAILQ_EMPTY h2 m in
  if e then Ok m
  else
    let* c1 := deref (q_last m !! h1) in
    let* f2 := STAILQ_FIRST h2 m in
    let* m := store c1 f2 m in
    let* c2 := deref (q_last m !! h2) in
    let* m := set_last h1 c2 m in
    STAILQ_INIT h2 m.

Definition STAILQ_SWAP (h1 h2 : Z) (m : qmem) : outcome qmem :=
  let* swap_first := STAILQ_FIRST h1 m in
  let* swap_last := deref (q_last m !! h1) in
  let* f2 := STAILQ_FIRST h2 m in
  let* m := set_first h1 f2 m in
  let* l2 := deref (q_last m !! h2) in
  let* m := set_last h1 l2 m in
  let* m := set_first h2 swap_first m in
  let* m := set_last h2 swap_last m in
  let* e1 := STAILQ_EMPTY h1 m in
  let* m := (if e1 : bool then set_last h1 (CFirst h1) m else Ok m) in
  let* e2 := STAILQ_EMPTY h2 m in
  if e2 : bool then set_last h2 (CFirst h2) m else Ok m.

(** [STAILQ_LAST]: the element whose [stqe_next] cell [stqh_last] points to; the
    pointer subtraction is only meaningful for an element's cell. *)
Definition STAILQ_LAST (h : Z) (m : qmem) : outcome ptr :=
  let* e := STAILQ_EMPTY h m in
  if e then Ok NULL
  else
    let* c := deref (q_last m !! h) in
    match c with CNext p => Ok p | CFirst _ => Faults end.

(** [STAILQ_FOREACH]: the elements the loop variable takes, in order. *)
Fixpoint foreach_from (fuel : nat) (var : ptr) (m : qmem) : outcome (list ptr) :=
  if var =? NULL then Ok []
  else
    match fuel with
    | O => Faults
    | S fuel =>
        let* n := STAILQ_NEXT var m in
        let* l := foreach_from fuel n m in
        Ok (var :: l)
    end.
Definition STAILQ_FOREACH (h : Z) (m : qmem) : outcome (list ptr) :=
  let* f := STAILQ_FIRST h m in foreach_from (size (q_next m)) f m.

(** [STAILQ_FOREACH_SAFE] around a body that may change the memory: the next element is read
    before the body runs. *)
Fixpoint foreach_safe (fuel : nat) (body : ptr -> qmem -> outcome qmem) (var : ptr) (m : qmem)
  : outcome (list ptr * qmem) :=
  if var =? NULL then Ok ([], m)
  else
    match fuel with
    | O => Faults
    | S fuel =>
        let* tvar := STAILQ_NEXT var m in
        let* m := body var m in
        let* r := foreach_safe fuel body tvar m in
        Ok (var :: fst r, snd r)
    end.
Definition STAILQ_FOREACH_SAFE (h : Z) (body : ptr -> qmem -> outcome qmem) (m : qmem) : outcome (list ptr * qmem) :=
  let* f := STAILQ_FIRST h m in foreach_safe (size (q_next m)) body f m.

(** ** Representation *)

(** The first element of a list of addresses, or what follows the list. *)
Definition hd_or (l : list ptr) (q : ptr) : ptr :=
  match l with [] => q | x :: _ => x end.

(** The elements [l] are linked in order and the last one points to [q]. *)
Fixpoint linked (nx : gmap Z ptr) (l : list ptr) (q : ptr) : Prop :=
  match l with
  | [] => True
  | x :: l' => x <> NULL /\ nx !! x = Some (hd_or l' q) /\ linked nx l' q
  end.

Definition last_cell (h : Z) (l : list ptr) : cell :=
  match last l with Some x => CNext x | None => CFirst h end.

Definition stailq (h : Z) (l : list ptr) (m : qmem) : Prop :=
  q_first m !! h = Some (hd_or l NULL) /\
  q_last m !! h = Some (last_cell h l) /\
  linked (q_next m) l NULL /\ NoDup l.

(** The abstract state: every queue head of the memory with its elements. *)
Definition queues_repr (Q : gmap Z (list ptr)) (m : qmem) : Prop :=
  (forall h l, Q !! h = Some l -> stailq h l m) /\
  (forall h1 h2 l1 l2 x, Q !! h1 = Some l1 -> Q !! h2 = Some l2 -> x ∈ l1 -> x ∈ l2 -> h1 = h2).

(** ** The operations on lists *)

Inductive stailq_op :=
| OpInsertHead (h : Z) (e : ptr)
| OpInsertTail (h : Z) (e : ptr)
| OpInsertAfter (h : Z) (t e : ptr)
| OpRemoveHead (h : Z)
| OpRemove (h : Z) (e : ptr)
| OpConcat (h1 h2 : Z)
| OpSwap (h1 h2 : Z).

(** An element that is allocated and on none of the queues may be inserted. *)
Definition insertable (Q : gmap Z (list ptr)) (alloc : gset ptr) (e : ptr) : Prop :=
  e <> NULL /\ e ∈ alloc /\ forall h l, Q !! h = Some l -> e ∉ l.

Inductive abs_step (alloc : gset ptr) : stailq_op -> gmap Z (list ptr) -> gmap Z (list ptr) -> Prop :=
| AInsertHead h e l Q :
    Q !! h = Some l -> insertable Q alloc e ->
    abs_step alloc (OpInsertHead h e) Q (<[h := e :: l]> Q)
| AInsertTail h e l Q :
    Q !! h = Some l -> insertable Q alloc e ->
    abs_step alloc (OpInsertTail h e) Q (<[h := l ++ [e]]> Q)
| AInsertAfter h t e l1 l2 Q :
    Q !! h = Some (l1 ++ t :: l2) -> insertable Q alloc e ->
    abs_step alloc (OpInsertAfter h t e) Q (<[h := l1 ++ t :: e :: l2]> Q)
| ARemoveHead h x l Q :
    Q !! h = Some (x :: l) ->
    abs_step alloc (OpRemoveHead h) Q (<[h := l]> Q)
| ARemove h e l1 l2 Q :
    Q !! h = Some (l1 ++ e :: l2) ->
    abs_step alloc (OpRemove h e) Q (<[h := l1 ++ l2]> Q)
| AConcat h1 h2 l1 l2 Q :
    h1 <> h2 -> Q !! h1 = Some l1 -> Q !! h2 = Some l2 ->
    abs_step alloc (OpConcat h1 h2) Q (<[h2 := []]> (<[h1 := l1 ++ l2]> Q))
| ASwap h1 h2 l1 l2 Q :
    h1 <> h2 -> Q !! h1 = Some l1 -> Q !! h2 = Some l2 ->
    abs_step alloc (OpSwap h1 h2) Q (<[h2 := l1]> (<[h1 := l2]> Q)).

Definition run_op (o : stailq_op) (m : qmem) : outcome qmem :=
  match o with
  | OpInsertHead h e => STAILQ_INSERT_HEAD h e m
  | OpInsertTail h e => STAILQ_INSERT_TAIL h e m
  | OpInsertAfter h t e => STAILQ_INSERT_AFTER h t e m
  | OpRemoveHead h => STAILQ_REMOVE_HEAD h m
  | OpRemove h e => STAILQ_REMOVE h e m
  | OpConcat h1 h2 => STAILQ_CONCAT h1 h2 m
  | OpSwap h1 h2 => STAILQ_SWAP h1 h2 m
  end.

(** ** Lemmas on linked segments *)

Lemma linked_app nx l1 l2 q :
  linked nx (l1 ++ l2) q <-> linked nx l1 (hd_or l2 q) /\ linked nx l2 q.
Proof.
  induction l1 as [|x l1 IH]; simpl; [tauto|].
  rewrite IH. destruct l1; simpl; tauto.
Qed.

Lemma linked_frame nx nx' l q :
  (forall x, x ∈ l -> nx' !! x = nx !! x) -> linked nx l q -> linked nx' l q.
Proof.
  induction l as [|x l IH]; simpl; [done|]. intros Hf (H1 & H2 & H3).
  split_and!; [done|rewrite Hf by set_solver; done|apply IH; set_solver].
Qed.

Lemma linked_lookup nx l q x : linked nx l q -> x ∈ l -> x <> NULL /\ is_Some (nx !! x).
Proof.
  induction l as [|y l IH]; simpl; [set_solver|]. intros (H1 & H2 & H3) Hx.
  apply elem_of_cons in Hx as [->|Hx]; eauto.
Qed.

Lemma hd_or_null nx l q : linked nx l q -> hd_or l NULL = NULL -> l = [].
Proof. destruct l; simpl; [done|]. intros (? & _) ?. done. Qed.

Lemma hd_or_eqb nx l : linked nx l NULL -> (hd_or l NULL =? NULL) = bool_decide (l = []).
Proof.
  intros Hl. destruct l as [|x l]; [done|]. destruct Hl as (Hx & _). by apply Z.eqb_neq.
Qed.

Lemma last_cell_snoc h l x : last_cell h (l ++ [x]) = CNext x.
Proof. unfold last_cell. by rewrite last_snoc. Qed.

Lemma last_cell_app h l1 x l2 : last_cell h (l1 ++ x :: l2) = last_cell h (x :: l2).
Proof. unfold last_cell. rewrite last_app_cons. by destruct (last (x :: l2)) eqn:E; [|apply last_None in E]. Qed.

Lemma last_cell_cons h x l : l <> [] -> last_cell h (x :: l) = last_cell h l.
Proof. intros. destruct l; [done|]. by unfold last_cell. Qed.

Lemma last_cell_head h h' l : l <> [] -> last_cell h l = last_cell h' l.
Proof. intros Hl. unfold last_cell. destruct (last l) eqn:E; [done|]. by apply last_None in E. Qed.

Lemma linked_size nx l q : linked nx l q -> NoDup l -> (length l <= size nx)%nat.
Proof.
  intros Hl Hnd. rewrite <- (size_list_to_set (C := gset Z) l Hnd), <- size_dom.
  apply subseteq_size. intros x Hx. apply elem_of_dom. apply elem_of_list_to_set in Hx.
  by eapply linked_lookup.
Qed.

(** What a macro leaves alone: the heads outside [H], the elements outside [N]. *)
Definition frame (H : list Z) (N : list ptr) (m m' : qmem) : Prop :=
  (forall h, h ∉ H -> q_first m' !! h = q_first m !! h /\ q_last m' !! h = q_last m !! h) /\
  (forall x, x ∉ N -> q_next m' !! x = q_next m !! x).

Lemma stailq_frame H N h l m m' :
  frame H N m m' -> h ∉ H -> (forall x, x ∈ l -> x ∉ N) -> stailq h l m -> stailq h l m'.
Proof.
  intros [Hh Hn] Hin Hl (H1 & H2 & H3 & H4). destruct (Hh h Hin) as [E1 E2].
  split_and!; [congruence|congruence| |done].
  eapply linked_frame; [|done]. intros x Hx. by apply Hn, Hl.
Qed.

(** Runs the loads and stores of a macro. *)
Ltac qrun :=
  unfold STAILQ_INSERT_TAIL, STAILQ_INSERT_HEAD, STAILQ_INSERT_AFTER, STAILQ_REMOVE_HEAD,
    STAILQ_REMOVE_AFTER, STAILQ_CONCAT, STAILQ_SWAP, STAILQ_INIT, STAILQ_EMPTY,
    STAILQ_FIRST, STAILQ_NEXT, store, set_first, set_last, set_next in *; simpl;
  repeat (simplify_map_eq; simpl).

Ltac qframe := split; simpl; [intros ? ?|intros ? ?]; simplify_map_eq by set_solver; try done;
  rewrite ?lookup_insert_ne by set_solver; done.

Lemma insert_tail_spec h l e m :
  stailq h l m -> e <> NULL -> is_Some (q_next m !! e) -> e ∉ l ->
  exists m', STAILQ_INSERT_TAIL h e m = Ok m' /\ stailq h (l ++ [e]) m' /\ frame [h] (e :: l) m m'.
Proof.
  intros (Hf & Hl & Hk & Hnd) He [n Hn] Hel.
  assert (Hnd' : NoDup (l ++ [e])).
  { apply NoDup_app. split_and!; [done|set_solver|apply NoDup_singleton]. }
  destruct l as [|x l0 _] using rev_ind.
  - unfold last_cell in Hl. simpl in *. qrun. eexists. split; [done|]. split.
    + split_and!; simpl; simplify_map_eq; done.
    + qframe.
  - rewrite last_cell_snoc in Hl. rewrite linked_app in Hk. destruct Hk as [Hk1 (Hx & Hxn & _)].
    assert (Hxe : x <> e) by set_solver.
    qrun. eexists. split; [done|]. split.
    + split_and!; simpl; simplify_map_eq; [by destruct l0|by rewrite last_cell_snoc| |done].
      rewrite <- app_assoc. apply linked_app. split.
      * eapply linked_frame; [|done]. intros y Hy.
        apply NoDup_app in Hnd as (_ & Hd & _). 
        rewrite !lookup_insert_ne; [done|set_solver|]. intros ->. eapply Hd; [done|]. set_solver.
      * simpl. simplify_map_eq. done.
    + qframe.
Qed.

Lemma insert_head_spec h l e m :
  stailq h l m -> e <> NULL -> is_Some (q_next m !! e) -> e ∉ l ->
  exists m', STAILQ_INSERT_HEAD h e m = Ok m' /\ stailq h (e :: l) m' /\ frame [h] (e :: l) m m'.
Proof.
  intros (Hf & Hl & Hk & Hnd) He [n Hn] Hel. qrun. rewrite (hd_or_eqb _ _ Hk).
  assert (Hk' : linked (<[e:=hd_or l NULL]> (q_next m)) l NULL).
  { eapply linked_frame; [|done]. intros. rewrite lookup_insert_ne; [done|set_solver]. }
  case_bool_decide as E; qrun; eexists; (split; [done|]); (split; [|qframe]);
    split_and!; simpl; simplify_map_eq; try done; try by constructor.
  by rewrite last_cell_cons.
Qed.

Lemma insert_after_spec h l1 t l2 e m :
  stailq h (l1 ++ t :: l2) m -> e <> NULL -> is_Some (q_next m !! e) -> e ∉ l1 ++ t :: l2 ->
  exists m', STAILQ_INSERT_AFTER h t e m = Ok m' /\ stailq h (l1 ++ t :: e :: l2) m' /\
             frame [h] (e :: l1 ++ t :: l2) m m'.
Proof.
  intros (Hf & Hl & Hk & Hnd) He [n Hn] Hel.
  apply linked_app in Hk as [Hk1 (Ht & Htn & Hk2)]. simpl in Hk1.
  assert (Hte : t <> e) by set_solver.
  pose proof Hnd as (Hnd1 & Hd & Hnd2)%NoDup_app. apply NoDup_cons in Hnd2 as [Htl2 Hnd2].
  assert (Hnd' : NoDup (l1 ++ t :: e :: l2)).
  { apply NoDup_app. split_and!; [done| |by repeat constructor; set_solver].
    intros x Hx. specialize (Hd x Hx). set_solver. }
  qrun. rewrite (hd_or_eqb _ _ Hk2).
  assert (HL : linked (<[t:=e]> (<[e:=hd_or l2 NULL]> (q_next m))) (l1 ++ t :: e :: l2) NULL).
  { apply linked_app. split; [|simpl; simplify_map_eq; split_and!; try done].
    - eapply linked_frame; [|done]. intros y Hy. specialize (Hd y Hy).
      rewrite !lookup_insert_ne; [done|set_solver|set_solver].
    - eapply linked_frame; [|done]. intros y Hy. rewrite !lookup_insert_ne; [done|set_solver|set_solver]. }
  case_bool_decide as E; qrun; eexists; (split; [done|]); (split; [|qframe]);
    split_and!; simpl; simplify_map_eq; try done; try by destruct l1.
  - by rewrite last_cell_app.
  - f_equal. rewrite !last_cell_app. by rewrite !last_cell_cons.
Qed.

Lemma remove_head_spec h x l m :
  stailq h (x :: l) m ->
  exists m', STAILQ_REMOVE_HEAD h m = Ok m' /\ stailq h l m' /\ frame [h] [] m m'.
Proof.
  intros (Hf & Hl & (Hx & Hxn & Hk) & [Hxl Hnd]%NoDup_cons). simpl in *.
  qrun. rewrite (hd_or_eqb _ _ Hk).
  case_bool_decide as E; qrun; eexists; (split; [done|]); (split; [|qframe]);
    split_and!; simpl; simplify_map_eq; try done.
  f_equal. by rewrite last_cell_cons.
Qed.

Lemma remove_after_spec h l1 t x l2 m :
  stailq h (l1 ++ t :: x :: l2) m ->
  exists m', STAILQ_REMOVE_AFTER h t m = Ok m' /\ stailq h (l1 ++ t :: l2) m' /\ frame [h] [t] m m'.
Proof.
  intros (Hf & Hl & Hk & Hnd).
  apply linked_app in Hk as [Hk1 (Ht & Htn & Hx & Hxn & Hk2)]. simpl in *.
  pose proof Hnd as (Hnd1 & Hd & Hnd2)%NoDup_app.
  apply NoDup_cons in Hnd2 as [Htl Hnd2]. apply NoDup_cons in Hnd2 as [Hxl Hnd2].
  assert (Hnd' : NoDup (l1 ++ t :: l2)).
  { apply NoDup_app. split_and!; [done| |constructor; [set_solver|done]].
    intros y Hy. specialize (Hd y Hy). set_solver. }
  qrun. rewrite (hd_or_eqb _ _ Hk2).
  assert (HL : linked (<[t:=hd_or l2 NULL]> (q_next m)) (l1 ++ t :: l2) NULL).
  { apply linked_app. split; [|simpl; simplify_map_eq; split_and!; try done].
    - eapply linked_frame; [|done]. intros y Hy. specialize (Hd y Hy).
      rewrite lookup_insert_ne; [done|set_solver].
    - eapply linked_frame; [|done]. intros y Hy. rewrite lookup_insert_ne; [done|set_solver]. }
  case_bool_decide as E; qrun; eexists; (split; [done|]); (split; [|qframe]);
    split_and!; simpl; simplify_map_eq; try done; try by destruct l1.
  - by rewrite last_cell_app.
  - f_equal. rewrite !last_cell_app. by rewrite !last_cell_cons.
Qed.

(** The search loop stops at the element before the one looked for. *)
Lemma find_before_spec m l1 x e l2 q fuel :
  linked (q_next m) (x :: l1 ++ e :: l2) q -> e ∉ l1 -> (length l1 < fuel)%nat ->
  exists l0 t, x :: l1 = l0 ++ [t] /\ find_before fuel x e m = Ok t.
Proof.
  revert x fuel. induction l1 as [|y l1 IH]; intros x [|fuel] Hk He Hf; simpl in Hf; try lia;
    simpl in *; unfold STAILQ_NEXT; destruct Hk as (_ & -> & Hk); simpl.
  - exists [], x. by rewrite Z.eqb_refl.
  - destruct (IH y fuel) as (l0 & t & E & Hfb); [done|set_solver|lia|].
    exists (x :: l0), t. rewrite E. split; [done|].
    rewrite (proj2 (Z.eqb_neq y e)) by set_solver. done.
Qed.

Lemma remove_spec h l1 e l2 m :
  stailq h (l1 ++ e :: l2) m ->
  exists m', STAILQ_REMOVE h e m = Ok m' /\ stailq h (l1 ++ l2) m' /\
             frame [h] (l1 ++ e :: l2) m m'.
Proof.
  intros Hq. pose proof Hq as (Hf & Hl & Hk & Hnd). unfold STAILQ_REMOVE, STAILQ_FIRST.
  rewrite Hf. simpl. destruct l1 as [|x l1]; simpl in *.
  - rewrite Z.eqb_refl. destruct (remove_head_spec h e l2 m Hq) as (m' & ? & ? & [Hh Hn]).
    exists m'. split_and!; [done..|]. split; [done|]. set_solver.
  - pose proof Hnd as [Hx Hnd']%NoDup_cons.
    rewrite (proj2 (Z.eqb_neq x e)) by set_solver.
    pose proof Hnd' as (_ & Hd & _)%NoDup_app.
    pose proof (linked_size _ (x :: l1 ++ e :: l2) NULL Hk Hnd) as Hs. rewrite length_cons, length_app, length_cons in Hs.
    destruct (find_before_spec m l1 x e l2 NULL (size (q_next m))) as (l0 & t & E & ->);
      [done|set_solver|lia|]. simpl.
    assert (Hrw : forall k, x :: l1 ++ k = l0 ++ t :: k).
    { intros k. change (x :: l1 ++ k) with ((x :: l1) ++ k). by rewrite E, <- app_assoc. }
    rewrite Hrw in Hq. destruct (remove_after_spec h l0 t e l2 m Hq) as (m' & ? & ? & [Hh Hn]).
    exists m'. rewrite !Hrw. split_and!; [done..|]. split; [done|]. set_solver.
Qed.

Lemma concat_spec h1 h2 l1 l2 m :
  h1 <> h2 -> stailq h1 l1 m -> stailq h2 l2 m -> (forall x, x ∈ l1 -> x ∉ l2) ->
  exists m', STAILQ_CONCAT h1 h2 m = Ok m' /\ stailq h1 (l1 ++ l2) m' /\ stailq h2 [] m' /\
             frame [h1; h2] l1 m m'.
Proof.
  intros Hne (Hf1 & Hl1 & Hk1 & Hnd1) (Hf2 & Hl2 & Hk2 & Hnd2) Hdis.
  qrun. rewrite (hd_or_eqb _ _ Hk2). case_bool_decide as E.
  { subst. rewrite app_nil_r. exists m. by split_and!. }
  assert (Hnd : NoDup (l1 ++ l2)) by (apply NoDup_app; done).
  destruct l1 as [|x l0 _] using rev_ind.
  - unfold last_cell in Hl1; simpl in *. qrun. eexists. split; [done|].
    split_and!; [| |qframe].
    + split_and!; simpl; simplify_map_eq; try done. f_equal. by apply last_cell_head.
    + split_and!; simpl; simplify_map_eq; try done; constructor.
  - rewrite last_cell_snoc in *. apply linked_app in Hk1 as [Hk0 (Hx & Hxn & _)].
    qrun. eexists. split; [done|]. split_and!; [| |qframe].
    + assert (Hc : last_cell h1 ((l0 ++ [x]) ++ l2) = last_cell h2 l2).
      { destruct l2; [done|]. rewrite last_cell_app. by apply last_cell_head. }
      rewrite <- Hc. split_and!; simpl; simplify_map_eq; try done; [by destruct l0|].
      rewrite <- app_assoc. apply linked_app. simpl. simplify_map_eq. split_and!; try done.
      * eapply linked_frame; [|done]. intros y Hy. rewrite lookup_insert_ne; [done|].
        apply NoDup_app in Hnd1 as (_ & Hd & _). specialize (Hd y Hy). set_solver.
      * eapply linked_frame; [|done]. intros y Hy. rewrite lookup_insert_ne; [done|].
        intros ->. eapply Hdis; [|done]. set_solver.
    + split_and!; simpl; simplify_map_eq; try done. constructor.
Qed.

Lemma swap_spec h1 h2 l1 l2 m :
  h1 <> h2 -> stailq h1 l1 m -> stailq h2 l2 m ->
  exists m', STAILQ_SWAP h1 h2 m = Ok m' /\ stailq h1 l2 m' /\ stailq h2 l1 m' /\
             frame [h1; h2] [] m m'.
Proof.
  intros Hne (Hf1 & Hl1 & Hk1 & Hnd1) (Hf2 & Hl2 & Hk2 & Hnd2).
  qrun. rewrite (hd_or_eqb _ _ Hk2).
  case_bool_decide as E2; qrun; rewrite (hd_or_eqb _ _ Hk1); case_bool_decide as E1; qrun;
    eexists; (split; [done|]); split_and!; try qframe;
    split_and!; simpl; simplify_map_eq; try done; f_equal; by apply last_cell_head.
Qed.

(** [STAILQ_INIT] makes any allocated head an empty queue. *)
Lemma init_spec h m f c :
  q_first m !! h = Some f -> q_last m !! h = Some c ->
  exists m', STAILQ_INIT h m = Ok m' /\ stailq h [] m' /\ frame [h] [] m m'.
Proof.
  intros Hf Hc. qrun. eexists. split; [done|]. split; [|qframe].
  split_and!; simpl; simplify_map_eq; try done. constructor.
Qed.

Lemma foreach_from_spec m l fuel :
  linked (q_next m) l NULL -> (length l <= fuel)%nat ->
  foreach_from fuel (hd_or l NULL) m = Ok l.
Proof.
  revert fuel. induction l as [|x l IH]; intros fuel Hk Hf; [by destruct fuel|].
  destruct fuel as [|fuel]; simpl in *; [lia|]. destruct Hk as (Hx & Hxn & Hk).
  rewrite (proj2 (Z.eqb_neq x NULL)) by done. unfold STAILQ_NEXT. rewrite Hxn. simpl.
  by rewrite IH by (done || lia).
Qed.

(** A loop that removes the head on every turn. *)
Lemma foreach_safe_drains h l m fuel :
  stailq h l m -> (length l <= fuel)%nat ->
  exists m', foreach_safe fuel (fun _ m => STAILQ_REMOVE_HEAD h m) (hd_or l NULL) m = Ok (l, m') /\ stailq h [] m'.
Proof.
  revert m fuel. induction l as [|x l IH]; intros m fuel Hq Hl; [exists m; by destruct fuel|].
  destruct fuel as [|fuel]; [simpl in Hl; lia|]. pose proof Hq as (_ & _ & (Hx & Hxn & _) & _).
  destruct (remove_head_spec h x l m Hq) as (m1 & E1 & Hq1 & _). simpl in *.
  rewrite (proj2 (Z.eqb_neq x NULL)) by done. unfold STAILQ_NEXT at 1. rewrite Hxn. simpl. rewrite E1. simpl.
  destruct (IH m1 fuel Hq1 ltac:(lia)) as (m' & E & Hm'). exists m'. rewrite E. by split.
Qed.

(** Putting one queue's new contents back into the abstract state. *)
Lemma queues_repr_update Q m m' h l l' N :
  queues_repr Q m -> Q !! h = Some l -> stailq h l' m' -> frame [h] N m m' ->
  (forall x, x ∈ N -> x ∈ l \/ (forall h0 l0, Q !! h0 = Some l0 -> x ∉ l0)) ->
  (forall x, x ∈ l' -> x ∈ l \/ (forall h0 l0, Q !! h0 = Some l0 -> x ∉ l0)) ->
  queues_repr (<[h := l']> Q) m'.
Proof.
  intros [Hq Hd] Hh Hl' Hfr HN Hin. split.
  - intros h0 l0. rewrite lookup_insert. case_decide as E; intros; simplify_eq; [done|].
    eapply stailq_frame; [done|set_solver| |by apply Hq].
    intros x Hx HxN. destruct (HN x HxN) as [Hxl|Hno]; [|by eapply Hno].
    by apply E; eapply Hd.
  - assert (Hone : forall h2 l2 x, x ∈ l' -> h <> h2 -> Q !! h2 = Some l2 -> x ∉ l2).
    { intros h2 l2 x Hx Hne H2 Hx2. destruct (Hin x Hx) as [Hxl|Hno]; [|by eapply Hno].
      by apply Hne; eapply Hd. }
    intros h1 h2 l1 l2 x. rewrite !lookup_insert.
    case_decide; case_decide; intros; simplify_eq; try done; [| |by eapply Hd];
      exfalso; by eapply Hone.
Qed.

(** The same for two queues at once. *)
Lemma queues_repr_update2 Q m m' h1 h2 l1 l2 l1' l2' N :
  queues_repr Q m -> h1 <> h2 -> Q !! h1 = Some l1 -> Q !! h2 = Some l2 ->
  stailq h1 l1' m' -> stailq h2 l2' m' -> frame [h1; h2] N m m' ->
  (forall x, x ∈ N -> x ∈ l1 \/ x ∈ l2) ->
  (forall x, x ∈ l1' \/ x ∈ l2' -> x ∈ l1 \/ x ∈ l2) -> (forall x, x ∈ l1' -> x ∉ l2') ->
  queues_repr (<[h2 := l2']> (<[h1 := l1']> Q)) m'.
Proof.
  intros [Hq Hd] Hne H1 H2 Hl1 Hl2 Hfr HN Hin Hdis.
  assert (Hother : forall h0 l0 x, h0 <> h1 -> h0 <> h2 -> Q !! h0 = Some l0 -> x ∈ l0 ->
            (x ∉ l1) /\ (x ∉ l2)).
  { intros h0 l0 x N1 N2 H0 Hx. split; intros Hx'; [apply N1|apply N2]; by eapply Hd. }
  split.
  - intros h0 l0. rewrite !lookup_insert. case_decide; [intros; by simplify_eq|].
    case_decide; intros; simplify_eq; [done|].
    eapply stailq_frame; [done|set_solver| |by apply Hq].
    intros x Hx HxN. destruct (Hother h0 l0 x) as [? ?]; [done..|]. by destruct (HN x HxN).
  - intros ha hb la lb x. rewrite !lookup_insert.
    repeat case_decide; intros; simplify_eq; try done; try (by eapply Hd);
      exfalso; try (by eapply Hdis);
      match goal with
      | E : Q !! ?h = Some ?l, E' : x ∈ ?l |- _ =>
          destruct (Hother h l x) as [? ?]; [done..|]; destruct (Hin x) as [?|?]; [tauto|done|done]
      end.
Qed.

(** Every STAILQ macro, run on a memory that represents the lists [Q], terminates
    without touching a cell outside the structure and leaves a memory that represents
    the result of the list operation, all other queues unchanged. *)
Lemma run_op_refines o Q Q' m :
  queues_repr Q m -> abs_step (dom (q_next m)) o Q Q' ->
  exists m', run_op o m = Ok m' /\ queues_repr Q' m'.
Proof.
  intros HR Hstep. pose proof HR as [Hq Hd].
  destruct Hstep as [h e l Q Hh (He & Hs%elem_of_dom & Hno)|h e l Q Hh (He & Hs%elem_of_dom & Hno)
    |h t e l1 l2 Q Hh (He & Hs%elem_of_dom & Hno)|h x l Q Hh|h e l1 l2 Q Hh|h1 h2 l1 l2 Q Hne H1 H2
    |h1 h2 l1 l2 Q Hne H1 H2]; simpl.
  - destruct (insert_head_spec h l e m) as (m' & ? & ? & ?); [by apply Hq|done|done|by eapply Hno|].
    exists m'. split; [done|]. eapply queues_repr_update; set_solver.
  - destruct (insert_tail_spec h l e m) as (m' & ? & ? & ?); [by apply Hq|done|done|by eapply Hno|].
    exists m'. split; [done|]. eapply queues_repr_update; set_solver.
  - destruct (insert_after_spec h l1 t l2 e m) as (m' & ? & ? & ?);
      [by apply Hq|done|done|by eapply Hno|].
    exists m'. split; [done|]. eapply queues_repr_update; set_solver.
  - destruct (remove_head_spec h x l m) as (m' & ? & ? & ?); [by apply Hq|].
    exists m'. split; [done|]. eapply queues_repr_update; set_solver.
  - destruct (remove_spec h l1 e l2 m) as (m' & ? & ? & ?); [by apply Hq|].
    exists m'. split; [done|]. eapply queues_repr_update; set_solver.
  - destruct (concat_spec h1 h2 l1 l2 m) as (m' & ? & ? & ? & ?);
      [done|by apply Hq|by apply Hq|intros x ? ?; by apply Hne; eapply Hd|].
    exists m'. split; [done|]. eapply queues_repr_update2; set_solver.
  - destruct (swap_spec h1 h2 l1 l2 m) as (m' & ? & ? & ? & ?); [done|by apply Hq|by apply Hq|].
    exists m'. split; [done|]. eapply queues_repr_update2; set_solver.
Qed.

(** No macro allocates or frees an element. *)
Lemma set_next_dom e p m m' : set_next e p m = Ok m' -> dom (q_next m') = dom (q_next m).
Proof.
  unfold set_next, deref. intros. destruct (q_next m !! e) eqn:E; simplify_eq/=.
  rewrite dom_insert_L. apply elem_of_dom_2 in E. set_solver.
Qed.

Lemma set_first_dom h p m m' : set_first h p m = Ok m' -> q_next m' = q_next m.
Proof. unfold set_first, deref. intros. by destruct (q_first m !! h); simplify_eq/=. Qed.

Lemma set_last_dom h c m m' : set_last h c m = Ok m' -> q_next m' = q_next m.
Proof. unfold set_last, deref. intros. by destruct (q_last m !! h); simplify_eq/=. Qed.

Lemma store_dom c p m m' : store c p m = Ok m' -> dom (q_next m') = dom (q_next m).
Proof. destruct c; simpl; intros Hs; [by apply set_first_dom in Hs as ->|by eapply set_next_dom]. Qed.

(** Follows the successful run of a macro, one access at a time. *)
Ltac qdom :=
  repeat match goal with
  | H : obind _ _ = Ok _ |- _ => apply obind_ok in H as (? & ? & ?)
  | H : (if ?b then _ else _) = Ok _ |- _ => destruct b
  | H : Ok _ = Ok _ |- _ => injection H as H; subst
  | H : set_next _ _ _ = Ok _ |- _ => apply set_next_dom in H
  | H : set_first _ _ _ = Ok _ |- _ => apply set_first_dom in H
  | H : set_last _ _ _ = Ok _ |- _ => apply set_last_dom in H
  | H : store _ _ _ = Ok _ |- _ => apply store_dom in H
  end; simplify_eq/=; congruence.

Lemma run_op_dom o m m' : run_op o m = Ok m' -> dom (q_next m') = dom (q_next m).
Proof.
  destruct o; simpl; unfold STAILQ_REMOVE; intros;
    unfold STAILQ_INSERT_TAIL, STAILQ_INSERT_HEAD, STAILQ_INSERT_AFTER, STAILQ_REMOVE_HEAD,
      STAILQ_REMOVE_AFTER, STAILQ_CONCAT, STAILQ_SWAP, STAILQ_INIT in *; qdom.
Qed.

(** ** Programs over the queues *)

(** A client's sequence of macro calls, on the memory and on the lists. *)
Fixpoint run_ops (os : list stailq_op) (m : qmem) : outcome qmem :=
  match os with
  | [] => Ok m
  | o :: os => let* m := run_op o m in run_ops os m
  end.

Inductive abs_steps (alloc : gset ptr) :
  list stailq_op -> gmap Z (list ptr) -> gmap Z (list ptr) -> Prop :=
| abs_nil Q : abs_steps alloc [] Q Q
| abs_cons o os Q1 Q2 Q3 :
    abs_step alloc o Q1 Q2 -> abs_steps alloc os Q2 Q3 -> abs_steps alloc (o :: os) Q1 Q3.

(** A program of macro calls refines the same program on lists. *)
Lemma run_ops_refines os Q Q' m :
  queues_repr Q m -> abs_steps (dom (q_next m)) os Q Q' ->
  exists m', run_ops os m = Ok m' /\ queues_repr Q' m'.
Proof.
  remember (dom (q_next m)) as alloc eqn:Ha. intros HR Hs. revert m Ha HR.
  induction Hs as [Q|o os Q1 Q2 Q3 H1 _ IH]; intros m Ha HR; [by exists m|].
  subst alloc. destruct (run_op_refines _ _ _ _ HR H1) as (m1 & E1 & HR1).
  simpl. rewrite E1. simpl. apply IH; [|done]. symmetry. by eapply run_op_dom.
Qed.

(** C15.  A program of STAILQ macro calls refines the same program on lists: on a memory
    whose heads represent the lists [Q], any sequence of insertions (head, tail, after),
    removals (head, arbitrary element), concatenations and swaps that the list model
    allows runs to completion without a fault and ends in a memory that represents the
    lists the model computes, for every head at once. *)
Theorem stailq_program_refines os Q Q' m :
  queues_repr Q m -> abs_steps (dom (q_next m)) os Q Q' ->
  exists m', run_ops os m = Ok m' /\ queues_repr Q' m'.
Proof. apply run_ops_refines. Qed.

(** A memory with one empty head 0 and three elements. *)
Definition ex_mem : qmem :=
  QMem {[0 := NULL]} {[0 := CFirst 0]} (<[10:=0]> (<[20:=0]> {[30:=0]})).

Lemma stailq_program_refines_witness :
  queues_repr {[0 := []]} ex_mem /\
  exists m', run_ops [OpInsertTail 0 10; OpInsertTail 0 20; OpRemoveHead 0] ex_mem = Ok m' /\
             queues_repr (<[0:=[20]]> (<[0:=[10; 20]]> (<[0:=[10]]> {[0:=[]]}))) m'.
Proof.
  assert (HR : queues_repr {[0 := []]} ex_mem).
  { split.
    - intros h l [<- <-]%lookup_singleton_Some. split_and!; try done. constructor.
    - intros h1 h2 l1 l2 x [<- <-]%lookup_singleton_Some. set_solver. }
  split; [done|].
  apply (stailq_program_refines _ {[0 := []]}); [done|].
  econstructor; [apply (AInsertTail _ 0 10 [])|econstructor; [apply (AInsertTail _ 0 20 [10])
    |econstructor; [apply (ARemoveHead _ 0 10 [20])|constructor]]];
    try (by simplify_map_eq); (split_and!; [done|by apply elem_of_dom|]);
    intros h l; rewrite ?lookup_insert; repeat case_decide; intros; simplify_map_eq; set_solver.
Defined.

(** The read-only macros observe the represented list: [STAILQ_FIRST] is its first
    element or NULL, [STAILQ_EMPTY] its emptiness, [STAILQ_LAST] its last element or
    NULL, and [STAILQ_FOREACH] terminates having visited exactly its elements in order; so
    does [STAILQ_FOREACH_SAFE] with a body that removes the element, which empties the
    queue. *)
Theorem stailq_observations h l m :
  stailq h l m ->
  STAILQ_FIRST h m = Ok (hd_or l NULL) /\
  STAILQ_EMPTY h m = Ok (bool_decide (l = [])) /\
  STAILQ_LAST h m = Ok (default NULL (last l)) /\
  STAILQ_FOREACH h m = Ok l /\
  exists m', STAILQ_FOREACH_SAFE h (fun _ m => STAILQ_REMOVE_HEAD h m) m = Ok (l, m') /\ stailq h [] m'.
Proof.
  intros Hq. pose proof Hq as (Hf & Hl & Hk & Hnd).
  unfold STAILQ_LAST, STAILQ_FOREACH, STAILQ_FOREACH_SAFE, STAILQ_EMPTY, STAILQ_FIRST.
  rewrite Hf. simpl. rewrite (hd_or_eqb _ _ Hk), Hl. split_and!; try done.
  - case_bool_decide as E; [by subst|]. simpl. unfold last_cell.
    destruct (last l) eqn:E'; [done|]. by apply last_None in E'.
  - apply foreach_from_spec; [done|]. by eapply linked_size.
  - simpl. apply foreach_safe_drains; [done|]. by eapply linked_size.
Qed.

(** A head with the elements 10 and 20. *)
Definition ex_mem2 : qmem := QMem {[0 := 10]} {[0 := CNext 20]} (<[10:=20]> {[20:=0]}).

Lemma stailq_observations_witness :
  stailq 0 [10; 20] ex_mem2 /\ STAILQ_FOREACH 0 ex_mem2 = Ok [10; 20].
Proof.
  assert (H : stailq 0 [10; 20] ex_mem2).
  { split_and!; try done. apply NoDup_cons. split; [set_solver|]. apply NoDup_singleton. }
  split; [exact H|]. apply (stailq_observations 0 [10; 20] ex_mem2 H).
Defined.
