(* ===== verification/Slist.v ===== *)
(** * Singly-linked lists (the SLIST macros of src/windows/queue.h)

    A SLIST is a STAILQ without the pointer to its last cell.  The macros are translated
    over a memory of [slh_first] and [sle_next] fields; [erase] forgets the [stqh_last]
    fields of a memory of Stailq.v, and each SLIST macro is shown to do on the erased
    memory what the STAILQ macro of the same name does on the full one.  The refinement of
    programs to lists carries over.  QUEUE_MACRO_DEBUG is off. *)

From stdpp Require Import base gmap list.
From Stdlib Require Import ZArith Lia.
From S2P Require Import Prelude Types Stailq.

(** ** Memory *)

Record smem := SMem {
  slh_first : gmap Z ptr;    (* of each head *)
  sle_next : gmap Z ptr      (* of each element *)
}.

Definition put_first (h : Z) (p : ptr) (m : smem) : outcome smem :=
  let* _ := deref (slh_first m !! h) in Ok (SMem (<[h:=p]> (slh_first m)) (sle_next m)).
Definition put_next (e p : ptr) (m : smem) : outcome smem :=
  let* _ := deref (sle_next m !! e) in Ok (SMem (slh_first m) (<[e:=p]> (sle_next m))).
(** [*varp] *)
Definition load (c : cell) (m : smem) : outcome ptr :=
  match c with CFirst h => deref (slh_first m !! h) | CNext e => deref (sle_next m !! e) end.

(** ** The macros *)

Definition SLIST_FIRST (h : Z) (m : smem) : outcome ptr := deref (slh_first m !! h).
Definition SLIST_NEXT (e : ptr) (m : smem) : outcome ptr := deref (sle_next m !! e).
Definition SLIST_EMPTY (h : Z) (m : smem) : outcome bool :=
  let* f := deref (slh_first m !! h) in Ok (f =? NULL).

Definition SLIST_INIT (h : Z) (m : smem) : outcome smem := put_first h NULL m.

Definition SLIST_INSERT_AFTER (slistelm elm : ptr) (m : smem) : outcome smem :=
  let* n := SLIST_NEXT slistelm m in
  let* m := put_next elm n m in
  put_next slistelm elm m.

Definition SLIST_INSERT_HEAD (h : Z) (elm : ptr) (m : smem) : outcome smem :=
  let* n := SLIST_FIRST h m in
  let* m := put_next elm n m in
  put_first h elm m.

Definition SLIST_REMOVE_AFTER (elm : ptr) (m : smem) : outcome smem :=
  let* n := SLIST_NEXT elm m in
  let* nn := SLIST_NEXT n m in
  put_next elm nn m.

Definition SLIST_REMOVE_HEAD (h : Z) (m : smem) : outcome smem :=
  let* f := SLIST_FIRST h m in
  let* n := SLIST_NEXT f m in
  put_first h n m.

(** [while (SLIST_NEXT(curelm) != (elm)) curelm = SLIST_NEXT(curelm)] *)
Fixpoint slist_before (fuel : nat) (curelm elm : ptr) (m : smem) : outcome ptr :=
  match fuel with
  | O => Faults
  | S fuel =>
      let* n := SLIST_NEXT curelm m in
      if n =? elm then Ok curelm else slist_before fuel n elm m
  end.

Definition SLIST_REMOVE (h : Z) (elm : ptr) (m : smem) : outcome smem :=
  let* f := SLIST_FIRST h m in
  if f =? elm then SLIST_REMOVE_HEAD h m
  else
    let* cur := slist_before (size (sle_next m)) f elm m in
    SLIST_REMOVE_AFTER cur m.

(** [SLIST_FOREACH]: the values of the loop variable. *)
Fixpoint slist_from (fuel : nat) (var : ptr) (m : smem) : outcome (list ptr) :=
  if var =? NULL then Ok []
  else
    match fuel with
    | O => Faults
    | S fuel => let* n := SLIST_NEXT var m in let* l := slist_from fuel n m in Ok (var :: l)
    end.
Definition SLIST_FOREACH (h : Z) (m : smem) : outcome (list ptr) :=
  let* f := SLIST_FIRST h m in slist_from (size (sle_next m)) f m.

(** [SLIST_FOREACH_SAFE] around a body that may change the memory and free [var]: the next
    element is read before the body runs. *)
Fixpoint slist_safe (fuel : nat) (body : ptr -> smem -> outcome smem) (var : ptr) (m : smem)
  : outcome (list ptr * smem) :=
  if var =? NULL then Ok ([], m)
  else
    match fuel with
    | O => Faults
    | S fuel =>
        let* tvar := SLIST_NEXT var m in
        let* m := body var m in
        let* r := slist_safe fuel body tvar m in
        Ok (var :: fst r, snd r)
    end.
Definition SLIST_FOREACH_SAFE (h : Z) (body : ptr -> smem -> outcome smem) (m : smem) : outcome (list ptr * smem) :=
  let* f := SLIST_FIRST h m in slist_safe (size (sle_next m)) body f m.

(** [SLIST_FOREACH_PREVPTR]: the addresses [varp] runs through with the elements there. *)
Fixpoint slist_prevptr (fuel : nat) (varp : cell) (m : smem) : outcome (list (cell * ptr)) :=
  let* var := load varp m in
  if var =? NULL then Ok []
  else
    match fuel with
    | O => Faults
    | S fuel => let* l := slist_prevptr fuel (CNext var) m in Ok ((varp, var) :: l)
    end.
Definition SLIST_FOREACH_PREVPTR (h : Z) (m : smem) : outcome (list (cell * ptr)) :=
  slist_prevptr (size (sle_next m)) (CFirst h) m.

(** ** Erasing the last pointers *)

Definition erase (m : qmem) : smem := SMem (q_first m) (q_next m).

Definition slist (h : Z) (l : list ptr) (m : smem) : Prop :=
  slh_first m !! h = Some (hd_or l NULL) /\ linked (sle_next m) l NULL /\ NoDup l.

Definition slists_repr (Q : gmap Z (list ptr)) (m : smem) : Prop :=
  (forall h l, Q !! h = Some l -> slist h l m) /\
  (forall h1 h2 l1 l2 x, Q !! h1 = Some l1 -> Q !! h2 = Some l2 -> x ∈ l1 -> x ∈ l2 -> h1 = h2).

(** The memory of Stailq.v over the same cells whose last pointers fit the lists. *)
Definition complete (Q : gmap Z (list ptr)) (m : smem) : qmem :=
  QMem (slh_first m) (map_imap (fun h l => Some (last_cell h l)) Q) (sle_next m).

Lemma erase_complete Q m : erase (complete Q m) = m.
Proof. by destruct m. Qed.

Lemma complete_repr Q m : slists_repr Q m -> queues_repr Q (complete Q m).
Proof.
  intros [Hq Hd]. split; [|done]. intros h l Hl. destruct (Hq h l Hl) as (H1 & H2 & H3).
  split_and!; try done. simpl. by rewrite map_lookup_imap, Hl.
Qed.

Lemma erase_repr Q m : queues_repr Q m -> slists_repr Q (erase m).
Proof. intros [Hq Hd]. split; [|done]. intros h l Hl. by destruct (Hq h l Hl) as (H1 & _ & H2 & H3). Qed.

(** ** The macros on the erased memory *)

Inductive slist_op :=
| SlInsertHead (h : Z) (e : ptr)
| SlInsertAfter (h : Z) (t e : ptr)
| SlRemoveHead (h : Z)
| SlRemove (h : Z) (e : ptr).

Definition run_slist (o : slist_op) (m : smem) : outcome smem :=
  match o with
  | SlInsertHead h e => SLIST_INSERT_HEAD h e m
  | SlInsertAfter _ t e => SLIST_INSERT_AFTER t e m
  | SlRemoveHead h => SLIST_REMOVE_HEAD h m
  | SlRemove h e => SLIST_REMOVE h e m
  end.

Definition as_stailq (o : slist_op) : stailq_op :=
  match o with
  | SlInsertHead h e => OpInsertHead h e
  | SlInsertAfter h t e => OpInsertAfter h t e
  | SlRemoveHead h => OpRemoveHead h
  | SlRemove h e => OpRemove h e
  end.

Lemma erase_set_next e p m m' : set_next e p m = Ok m' -> put_next e p (erase m) = Ok (erase m').
Proof. unfold set_next, put_next. simpl. destruct (q_next m !! e); simpl; [|done]. by intros [= <-]. Qed.
Lemma erase_set_first h p m m' : set_first h p m = Ok m' -> put_first h p (erase m) = Ok (erase m').
Proof. unfold set_first, put_first. simpl. destruct (q_first m !! h); simpl; [|done]. by intros [= <-]. Qed.
Lemma erase_set_last h c m m' : set_last h c m = Ok m' -> erase m' = erase m.
Proof. unfold set_last. simpl. destruct (q_last m !! h); simpl; [|done]. by intros [= <-]. Qed.

Lemma erase_set_last_if (b : bool) h c m m' : (if b then set_last h c m else Ok m) = Ok m' -> erase m' = erase m.
Proof. destruct b; [apply erase_set_last|by intros [= ->]]. Qed.

Lemma erase_before fuel cur e m : slist_before fuel cur e (erase m) = find_before fuel cur e m.
Proof.
  revert cur. induction fuel as [|fuel IH]; intros cur; [done|]. simpl.
  change (SLIST_NEXT cur (erase m)) with (STAILQ_NEXT cur m). destruct (STAILQ_NEXT cur m); simpl; [|done..].
  by destruct (_ =? _).
Qed.

(** Follows a run of a STAILQ macro and repeats its loads and stores without the last
    pointer. *)
Ltac erasing :=
  repeat match goal with
  | H : obind _ _ = Ok _ |- _ => apply obind_ok in H as (? & ? & H)
  | H : STAILQ_NEXT ?e ?m = Ok _ |- context [SLIST_NEXT ?e (erase ?m)] =>
      change (SLIST_NEXT e (erase m)) with (STAILQ_NEXT e m); rewrite H; simpl
  | H : STAILQ_FIRST ?h ?m = Ok _ |- context [SLIST_FIRST ?h (erase ?m)] =>
      change (SLIST_FIRST h (erase m)) with (STAILQ_FIRST h m); rewrite H; simpl
  | H : set_next ?e ?p ?m = Ok _ |- context [put_next ?e ?p (erase ?m)] =>
      rewrite (erase_set_next _ _ _ _ H); simpl
  | H : set_first ?e ?p ?m = Ok _ |- context [put_first ?e ?p (erase ?m)] =>
      rewrite (erase_set_first _ _ _ _ H); simpl
  | H : (if _ then set_last _ _ _ else Ok _) = Ok ?m |- context [erase ?m] => rewrite (erase_set_last_if _ _ _ _ _ H)
  | H : (if _ then set_last _ _ _ else Ok _) = Ok ?m |- _ => apply erase_set_last_if in H; rewrite <- H
  end.

Lemma erase_remove_head h m m' : STAILQ_REMOVE_HEAD h m = Ok m' -> SLIST_REMOVE_HEAD h (erase m) = Ok (erase m').
Proof. unfold STAILQ_REMOVE_HEAD, SLIST_REMOVE_HEAD. intros H. by erasing. Qed.

Lemma erase_remove_after h e m m' : STAILQ_REMOVE_AFTER h e m = Ok m' -> SLIST_REMOVE_AFTER e (erase m) = Ok (erase m').
Proof. unfold STAILQ_REMOVE_AFTER, SLIST_REMOVE_AFTER. intros H. by erasing. Qed.

Lemma run_slist_erases o m m' : run_op (as_stailq o) m = Ok m' -> run_slist o (erase m) = Ok (erase m').
Proof.
  destruct o; simpl; [| | |].
  - unfold STAILQ_INSERT_HEAD, SLIST_INSERT_HEAD. intros H. by erasing.
  - unfold STAILQ_INSERT_AFTER, SLIST_INSERT_AFTER. intros H. by erasing.
  - apply erase_remove_head.
  - unfold STAILQ_REMOVE, SLIST_REMOVE. intros H. erasing. change (sle_next (erase m)) with (q_next m).
    destruct (_ =? e); [by apply erase_remove_head|]. rewrite erase_before.
    apply obind_ok in H as (cur & -> & H). simpl. by eapply erase_remove_after.
Qed.

(** ** Programs *)

Fixpoint run_slists (os : list slist_op) (m : smem) : outcome smem :=
  match os with
  | [] => Ok m
  | o :: os => let* m := run_slist o m in run_slists os m
  end.

Lemma run_slists_erase os m m' :
  run_ops (map as_stailq os) m = Ok m' -> run_slists os (erase m) = Ok (erase m').
Proof.
  revert m. induction os as [|o os IH]; simpl; intros m; [by intros [= <-]|].
  intros (m1 & H1 & H2)%obind_ok. rewrite (run_slist_erases _ _ _ H1). simpl. by apply IH.
Qed.

(** A program of SLIST macro calls refines the same program on lists: on a memory whose
    heads represent the lists [Q], any sequence of insertions and removals that the list
    model allows ends without a fault in a memory that represents the lists the model
    computes. *)
Theorem slist_program_refines os Q Q' m :
  slists_repr Q m -> abs_steps (dom (sle_next m)) (map as_stailq os) Q Q' ->
  exists m', run_slists os m = Ok m' /\ slists_repr Q' m'.
Proof.
  intros HR Hs. destruct (run_ops_refines _ Q Q' (complete Q m) (complete_repr Q m HR) Hs) as (m' & Hrun & HR').
  exists (erase m'). split; [|by apply erase_repr].
  rewrite <- (erase_complete Q m) at 1. by apply run_slists_erase.
Qed.

(** ** Traversals *)

Lemma slist_from_spec m l fuel :
  linked (sle_next m) l NULL -> (length l <= fuel)%nat -> slist_from fuel (hd_or l NULL) m = Ok l.
Proof.
  revert fuel. induction l as [|x l IH]; intros fuel Hk Hf; [by destruct fuel|].
  destruct fuel as [|fuel]; simpl in *; [lia|]. destruct Hk as (Hx & Hxn & Hk).
  rewrite (proj2 (Z.eqb_neq x NULL)) by done. unfold SLIST_NEXT. rewrite Hxn. simpl.
  by rewrite IH by (done || lia).
Qed.

(** The cells a traversal comes from: the head, then the link of each element. *)
Fixpoint prev_cells (c : cell) (l : list ptr) : list (cell * ptr) :=
  match l with [] => [] | x :: l => (c, x) :: prev_cells (CNext x) l end.

Lemma slist_prevptr_spec m l c fuel :
  load c m = Ok (hd_or l NULL) -> linked (sle_next m) l NULL -> (length l <= fuel)%nat ->
  slist_prevptr fuel c m = Ok (prev_cells c l).
Proof.
  revert c fuel. induction l as [|x l IH]; intros c fuel Hc Hk Hf.
  - destruct fuel; simpl; by rewrite Hc.
  - destruct fuel as [|fuel]; [simpl in Hf; lia|]. simpl in *. destruct Hk as (Hx & Hxn & Hk).
    rewrite Hc. simpl. rewrite (proj2 (Z.eqb_neq x NULL)) by done.
    rewrite IH; [done| |done|lia]. simpl. by rewrite Hxn.
Qed.

(** A traversal that removes each element it visits, by [SLIST_REMOVE_HEAD]. *)
Lemma slist_safe_drains h l m fuel :
  slist h l m -> (length l <= fuel)%nat ->
  exists m', slist_safe fuel (fun _ m => SLIST_REMOVE_HEAD h m) (hd_or l NULL) m = Ok (l, m') /\ slist h [] m'.
Proof.
  revert m fuel. induction l as [|x l IH]; intros m fuel (Hf & Hk & Hnd) Hl.
  - exists m. destruct fuel; by split.
  - destruct fuel as [|fuel]; [simpl in Hl; lia|]. simpl in *. destruct Hk as (Hx & Hxn & Hk).
    rewrite (proj2 (Z.eqb_neq x NULL)) by done.
    assert (Hn : SLIST_NEXT x m = Ok (hd_or l NULL)) by (unfold SLIST_NEXT; by rewrite Hxn).
    assert (Hr : SLIST_REMOVE_HEAD h m = Ok (SMem (<[h:=hd_or l NULL]> (slh_first m)) (sle_next m))).
    { unfold SLIST_REMOVE_HEAD, SLIST_FIRST, put_first. rewrite Hf. simpl. rewrite Hn. done. }
    rewrite Hn. simpl. rewrite Hr. simpl.
    apply NoDup_cons in Hnd as [_ Hnd].
    destruct (IH (SMem (<[h:=hd_or l NULL]> (slh_first m)) (sle_next m)) fuel) as (m' & E & Hm'); [|lia|].
    + split_and!; simpl; [apply lookup_insert_eq|done|done].
    + exists m'. rewrite E. by split.
Qed.

(** The macros that read a list see exactly its elements: the first one or NULL,
    emptiness, all of them in order, the same with the address of the cell that points to
    each; and the safe traversal survives the removal of what it visits. *)
Theorem slist_observations h l m :
  slist h l m ->
  SLIST_FIRST h m = Ok (hd_or l NULL) /\
  SLIST_EMPTY h m = Ok (bool_decide (l = [])) /\
  SLIST_FOREACH h m = Ok l /\
  SLIST_FOREACH_PREVPTR h m = Ok (prev_cells (CFirst h) l) /\
  exists m', SLIST_FOREACH_SAFE h (fun _ m => SLIST_REMOVE_HEAD h m) m = Ok (l, m') /\ slist h [] m'.
Proof.
  intros Hs. pose proof Hs as (Hf & Hk & Hnd).
  assert (Hl : (length l <= size (sle_next m))%nat) by by eapply linked_size.
  unfold SLIST_EMPTY, SLIST_FOREACH, SLIST_FOREACH_PREVPTR, SLIST_FOREACH_SAFE, SLIST_FIRST.
  rewrite Hf. simpl. split_and!; [done|by rewrite (hd_or_eqb _ _ Hk)| | |].
  - by apply slist_from_spec.
  - apply slist_prevptr_spec; [simpl; by rewrite Hf|done|done].
  - by apply slist_safe_drains.
Qed.

(** [SLIST_INIT] makes any head an empty list. *)
Lemma slist_init_spec h f m : slh_first m !! h = Some f ->
  exists m', SLIST_INIT h m = Ok m' /\ slist h [] m'.
Proof.
  intros Hf. unfold SLIST_INIT, put_first. rewrite Hf. simpl. eexists. split; [done|].
  split_and!; simpl; [apply lookup_insert_eq|done|constructor].
Qed.

(** Head 0 with the elements 10 and 20. *)
Definition ex_smem : smem := SMem {[0 := 10]} (<[10:=20]> {[20:=0]}).

Lemma ex_smem_slist : slist 0 [10; 20] ex_smem.
Proof. split_and!; try done. apply NoDup_cons. split; [set_solver|]. apply NoDup_singleton. Qed.

Lemma slist_observations_witness :
  slist 0 [10; 20] ex_smem /\ SLIST_FOREACH_PREVPTR 0 ex_smem = Ok [(CFirst 0, 10); (CNext 10, 20)].
Proof.
  split; [exact ex_smem_slist|]. apply (slist_observations 0 [10; 20] ex_smem ex_smem_slist).
Defined.

Lemma slist_program_refines_witness :
  slists_repr {[0 := [10; 20]]} ex_smem /\
  exists m', run_slists [SlRemove 0 20] ex_smem = Ok m' /\ slists_repr (<[0:=[10]]> {[0 := [10; 20]]}) m'.
Proof.
  assert (HR : slists_repr {[0 := [10; 20]]} ex_smem).
  { split.
    - intros h l [<- <-]%lookup_singleton_Some. exact ex_smem_slist.
    - intros h1 h2 l1 l2 x [<- <-]%lookup_singleton_Some [<- <-]%lookup_singleton_Some. done. }
  split; [exact HR|]. apply (slist_program_refines _ {[0 := [10; 20]]}); [exact HR|].
  econstructor; [|constructor]. apply (ARemove _ 0 20 [10] []). reflexivity.
Defined.
