(* ===== verification/Dlist.v ===== *)
(** * Doubly-linked lists and tail queues (the LIST and TAILQ macros of src/windows/queue.h)

    The Windows XP manager keeps its work queues on LISTs.  Both families link an element
    backwards to the cell that points to it ([le_prev], [tqe_prev]), either a head's first
    pointer or the next pointer of the element before; a TAILQ head also has the address
    of its last cell.  The macros are translated over an explicit memory; every insertion
    is shown to be the same splice ([link_in]) and every removal its inverse
    ([link_out]), from which the refinement of programs of macros to programs on lists
    follows for both families.  QUEUE_MACRO_DEBUG and the kernel's INVARIANTS are off. *)

From stdpp Require Import base gmap list.
From Stdlib Require Import ZArith Lia.
From S2P Require Import Prelude Types Stailq.

#[global] Instance cell_countable : Countable cell.
Proof.
  refine (inj_countable' (fun c => match c with CFirst h => inl h | CNext p => inr p end)
            (fun s => match s with inl h => CFirst h | inr p => CNext p end) _).
  by intros [].
Defined.

(** ** Memory *)

Record dmem := DMem {
  d_cell : gmap cell ptr;   (* lh_first/tqh_first of a head, le_next/tqe_next of an element *)
  d_prev : gmap Z cell;     (* le_prev/tqe_prev of an element *)
  d_last : gmap Z cell      (* tqh_last of a head *)
}.

Definition load (c : cell) (m : dmem) : outcome ptr := deref (d_cell m !! c).
Definition write (c : cell) (p : ptr) (m : dmem) : outcome dmem :=
  let* _ := deref (d_cell m !! c) in Ok (DMem (<[c:=p]> (d_cell m)) (d_prev m) (d_last m)).
Definition prev_of (e : ptr) (m : dmem) : outcome cell := deref (d_prev m !! e).
Definition set_prev (e : ptr) (c : cell) (m : dmem) : outcome dmem :=
  let* _ := deref (d_prev m !! e) in Ok (DMem (d_cell m) (<[e:=c]> (d_prev m)) (d_last m)).
Definition last_of (h : Z) (m : dmem) : outcome cell := deref (d_last m !! h).
Definition set_tail (h : Z) (c : cell) (m : dmem) : outcome dmem :=
  let* _ := deref (d_last m !! h) in Ok (DMem (d_cell m) (d_prev m) (<[h:=c]> (d_last m))).

(** ** The LIST macros *)

Definition LIST_FIRST (h : Z) (m : dmem) : outcome ptr := load (CFirst h) m.
Definition LIST_NEXT (e : ptr) (m : dmem) : outcome ptr := load (CNext e) m.
Definition LIST_EMPTY (h : Z) (m : dmem) : outcome bool := let* f := load (CFirst h) m in Ok (f =? NULL).
Definition LIST_INIT (h : Z) (m : dmem) : outcome dmem := write (CFirst h) NULL m.

Definition LIST_INSERT_AFTER (listelm elm : ptr) (m : dmem) : outcome dmem :=
  let* n := LIST_NEXT listelm m in
  let* m := write (CNext elm) n m in
  let* m := (if negb (n =? NULL) then let* n := LIST_NEXT listelm m in set_prev n (CNext elm) m else Ok m) in
  let* m := write (CNext listelm) elm m in
  set_prev elm (CNext listelm) m.

Definition LIST_INSERT_BEFORE (listelm elm : ptr) (m : dmem) : outcome dmem :=
  let* c := prev_of listelm m in
  let* m := set_prev elm c m in
  let* m := write (CNext elm) listelm m in
  let* c := prev_of listelm m in
  let* m := write c elm m in
  set_prev listelm (CNext elm) m.

Definition LIST_INSERT_HEAD (h : Z) (elm : ptr) (m : dmem) : outcome dmem :=
  let* f := LIST_FIRST h m in
  let* m := write (CNext elm) f m in
  let* m := (if negb (f =? NULL) then let* f := LIST_FIRST h m in set_prev f (CNext elm) m else Ok m) in
  let* m := write (CFirst h) elm m in
  set_prev elm (CFirst h) m.

Definition LIST_REMOVE (elm : ptr) (m : dmem) : outcome dmem :=
  let* n := LIST_NEXT elm m in
  let* m := (if negb (n =? NULL) then let* c := prev_of elm m in set_prev n c m else Ok m) in
  let* c := prev_of elm m in
  let* n := LIST_NEXT elm m in
  write c n m.

Definition LIST_SWAP (h1 h2 : Z) (m : dmem) : outcome dmem :=
  let* swap_tmp := LIST_FIRST h1 m in
  let* f2 := LIST_FIRST h2 m in
  let* m := write (CFirst h1) f2 m in
  let* m := write (CFirst h2) swap_tmp m in
  let* s := LIST_FIRST h1 m in
  let* m := (if negb (s =? NULL) then set_prev s (CFirst h1) m else Ok m) in
  let* s := LIST_FIRST h2 m in
  if negb (s =? NULL) then set_prev s (CFirst h2) m else Ok m.

(** ** The TAILQ macros *)

Definition TAILQ_FIRST (h : Z) (m : dmem) : outcome ptr := load (CFirst h) m.
Definition TAILQ_NEXT (e : ptr) (m : dmem) : outcome ptr := load (CNext e) m.
Definition TAILQ_EMPTY (h : Z) (m : dmem) : outcome bool := let* f := TAILQ_FIRST h m in Ok (f =? NULL).
Definition TAILQ_INIT (h : Z) (m : dmem) : outcome dmem :=
  let* m := write (CFirst h) NULL m in set_tail h (CFirst h) m.

Definition TAILQ_CONCAT (h1 h2 : Z) (m : dmem) : outcome dmem :=
  let* e := TAILQ_EMPTY h2 m in
  if negb e then
    let* c := last_of h1 m in
    let* f := TAILQ_FIRST h2 m in
    let* m := write c f m in
    let* f := TAILQ_FIRST h2 m in
    let* c := last_of h1 m in
    let* m := set_prev f c m in
    let* c2 := last_of h2 m in
    let* m := set_tail h1 c2 m in
    TAILQ_INIT h2 m
  else Ok m.

Definition TAILQ_INSERT_AFTER (h : Z) (listelm elm : ptr) (m : dmem) : outcome dmem :=
  let* n := TAILQ_NEXT listelm m in
  let* m := write (CNext elm) n m in
  let* m := (if negb (n =? NULL) then let* n := TAILQ_NEXT elm m in set_prev n (CNext elm) m
             else set_tail h (CNext elm) m) in
  let* m := write (CNext listelm) elm m in
  set_prev elm (CNext listelm) m.

Definition TAILQ_INSERT_BEFORE (listelm elm : ptr) (m : dmem) : outcome dmem :=
  let* c := prev_of listelm m in
  let* m := set_prev elm c m in
  let* m := write (CNext elm) listelm m in
  let* c := prev_of listelm m in
  let* m := write c elm m in
  set_prev listelm (CNext elm) m.

Definition TAILQ_INSERT_HEAD (h : Z) (elm : ptr) (m : dmem) : outcome dmem :=
  let* f := TAILQ_FIRST h m in
  let* m := write (CNext elm) f m in
  let* m := (if negb (f =? NULL) then let* f := TAILQ_FIRST h m in set_prev f (CNext elm) m
             else set_tail h (CNext elm) m) in
  let* m := write (CFirst h) elm m in
  set_prev elm (CFirst h) m.

Definition TAILQ_INSERT_TAIL (h : Z) (elm : ptr) (m : dmem) : outcome dmem :=
  let* m := write (CNext elm) NULL m in
  let* c := last_of h m in
  let* m := set_prev elm c m in
  let* c := last_of h m in
  let* m := write c elm m in
  set_tail h (CNext elm) m.

Definition TAILQ_REMOVE (h : Z) (elm : ptr) (m : dmem) : outcome dmem :=
  let* n := TAILQ_NEXT elm m in
  let* c := prev_of elm m in
  let* m := (if negb (n =? NULL) then set_prev n c m else set_tail h c m) in
  let* c := prev_of elm m in
  let* n := TAILQ_NEXT elm m in
  write c n m.

Definition TAILQ_SWAP (h1 h2 : Z) (m : dmem) : outcome dmem :=
  let* swap_first := TAILQ_FIRST h1 m in
  let* swap_last := last_of h1 m in
  let* f2 := TAILQ_FIRST h2 m in
  let* m := write (CFirst h1) f2 m in
  let* l2 := last_of h2 m in
  let* m := set_tail h1 l2 m in
  let* m := write (CFirst h2) swap_first m in
  let* m := set_tail h2 swap_last m in
  let* s := TAILQ_FIRST h1 m in
  let* m := (if negb (s =? NULL) then set_prev s (CFirst h1) m else set_tail h1 (CFirst h1) m) in
  let* s := TAILQ_FIRST h2 m in
  if negb (s =? NULL) then set_prev s (CFirst h2) m else set_tail h2 (CFirst h2) m.

(** [((struct headname * )cell)->tqh_last]: a cell read as a head.  Both a head and an entry
    have a pointer first and the address of a cell second, so that the second field is
    [tqh_last] of a head and [tqe_prev] of an element. *)
Definition as_head_last (c : cell) (m : dmem) : outcome cell :=
  match c with CFirst h => last_of h m | CNext e => prev_of e m end.

Definition TAILQ_LAST (h : Z) (m : dmem) : outcome ptr :=
  let* c := last_of h m in let* c := as_head_last c m in load c m.
Definition TAILQ_PREV (e : ptr) (m : dmem) : outcome ptr :=
  let* c := prev_of e m in let* c := as_head_last c m in load c m.

(** ** Traversal *)

(** The elements a FOREACH visits from [var] on; [next] is NEXT or PREV.  Every turn visits
    another element, so that the number of elements in memory bounds the turns. *)
Fixpoint walk (next : ptr -> dmem -> outcome ptr) (fuel : nat) (var : ptr) (m : dmem) : outcome (list ptr) :=
  if var =? NULL then Ok []
  else
    match fuel with
    | O => Blocks
    | S fuel => let* n := next var m in let* l := walk next fuel n m in Ok (var :: l)
    end.

Definition LIST_FOREACH (h : Z) (m : dmem) : outcome (list ptr) :=
  let* f := LIST_FIRST h m in walk LIST_NEXT (size (d_prev m)) f m.
Definition TAILQ_FOREACH (h : Z) (m : dmem) : outcome (list ptr) :=
  let* f := TAILQ_FIRST h m in walk TAILQ_NEXT (size (d_prev m)) f m.
Definition TAILQ_FOREACH_REVERSE (h : Z) (m : dmem) : outcome (list ptr) :=
  let* f := TAILQ_LAST h m in walk TAILQ_PREV (size (d_prev m)) f m.

(** FOREACH_SAFE reads the next element before it runs the body. *)
Fixpoint walk_safe (next : ptr -> dmem -> outcome ptr) (body : ptr -> dmem -> outcome dmem) (fuel : nat)
    (var : ptr) (m : dmem) : outcome (list ptr * dmem) :=
  if var =? NULL then Ok ([], m)
  else
    match fuel with
    | O => Blocks
    | S fuel =>
        let* tvar := next var m in
        let* m := body var m in
        let* (l, m) := walk_safe next body fuel tvar m in
        Ok (var :: l, m)
    end.

Definition LIST_FOREACH_SAFE (body : ptr -> dmem -> outcome dmem) (h : Z) (m : dmem) : outcome (list ptr * dmem) :=
  let* f := LIST_FIRST h m in walk_safe LIST_NEXT body (size (d_prev m)) f m.
Definition TAILQ_FOREACH_SAFE (body : ptr -> dmem -> outcome dmem) (h : Z) (m : dmem) : outcome (list ptr * dmem) :=
  let* f := TAILQ_FIRST h m in walk_safe TAILQ_NEXT body (size (d_prev m)) f m.
Definition TAILQ_FOREACH_REVERSE_SAFE (body : ptr -> dmem -> outcome dmem) (h : Z) (m : dmem) : outcome (list ptr * dmem) :=
  let* f := TAILQ_LAST h m in walk_safe TAILQ_PREV body (size (d_prev m)) f m.

(** ** Representation *)

(** From the cell [c] on: the elements [l], each linked back to the cell that points to it,
    and [e] in the cell behind the last one. *)
Fixpoint dseg (m : dmem) (c : cell) (l : list ptr) (e : ptr) : Prop :=
  match l with
  | [] => d_cell m !! c = Some e
  | x :: l' => x <> NULL /\ d_cell m !! c = Some x /\ d_prev m !! x = Some c /\ dseg m (CNext x) l' e
  end.

Fixpoint end_cell (c : cell) (l : list ptr) : cell :=
  match l with [] => c | x :: l' => end_cell (CNext x) l' end.

(** The two families. *)
Inductive family := FList | FTailq.

(** Every head of [Q] represents its list, no element is on two lists. *)
Record drepr (k : family) (Q : gmap Z (list ptr)) (m : dmem) : Prop := {
  dr_seg h l : Q !! h = Some l -> dseg m (CFirst h) l NULL /\ NoDup l;
  dr_disj h1 h2 l1 l2 x : Q !! h1 = Some l1 -> Q !! h2 = Some l2 -> x ∈ l1 -> x ∈ l2 -> h1 = h2;
  dr_tail h l : k = FTailq -> Q !! h = Some l -> d_last m !! h = Some (end_cell (CFirst h) l)
}.

(** An element that is allocated and on none of the lists. *)
Definition free_elem (Q : gmap Z (list ptr)) (m : dmem) (e : ptr) : Prop :=
  e <> NULL /\ is_Some (d_cell m !! CNext e) /\ is_Some (d_prev m !! e) /\ forall h l, Q !! h = Some l -> e ∉ l.

(** ** Splices *)

(** [e] between the cell [c] and the element [n] it points to. *)
Definition link_in (c : cell) (e n : ptr) (m : dmem) : dmem :=
  DMem (<[c:=e]> (<[CNext e:=n]> (d_cell m)))
       (<[e:=c]> (if n =? NULL then d_prev m else <[n:=CNext e]> (d_prev m))) (d_last m).
(** The element behind [c] taken out, [n] is the one behind it. *)
Definition link_out (c : cell) (n : ptr) (m : dmem) : dmem :=
  DMem (<[c:=n]> (d_cell m)) (if n =? NULL then d_prev m else <[n:=c]> (d_prev m)) (d_last m).
Definition with_last (f : gmap Z cell -> gmap Z cell) (m : dmem) : dmem :=
  DMem (d_cell m) (d_prev m) (f (d_last m)).

(** ** Lemmas on segments *)

Definition cells (c : cell) (l : list ptr) : list cell := c :: map CNext l.

Lemma end_cell_app c l1 l2 : end_cell c (l1 ++ l2) = end_cell (end_cell c l1) l2.
Proof. induction l1 as [|x l1 IH] in c |- *; simpl; auto. Qed.

Lemma end_cell_in c l : end_cell c l ∈ cells c l.
Proof.
  induction l as [|x l IH] in c |- *; simpl; [by left|]. right. apply (IH (CNext x)).
Qed.

Lemma cells_next x c l : CNext x ∈ cells c l -> c = CNext x \/ x ∈ l.
Proof.
  intros [->|H]%elem_of_cons; [by left|]. right. apply list_elem_of_fmap in H as (y & [= <-] & Hy). done.
Qed.

Lemma dseg_head m c l e : dseg m c l e -> d_cell m !! c = Some (hd_or l e).
Proof. destruct l; simpl; tauto. Qed.

Lemma dseg_app m c l1 l2 e :
  dseg m c (l1 ++ l2) e <-> dseg m c l1 (hd_or l2 e) /\ dseg m (end_cell c l1) l2 e.
Proof.
  induction l1 as [|x l1 IH] in c |- *; simpl; [|rewrite IH; tauto].
  split; [|tauto]. intros H. split; [by apply dseg_head|done].
Qed.

Lemma dseg_frame m m' c l e :
  (forall c', c' ∈ cells c l -> d_cell m' !! c' = d_cell m !! c') ->
  (forall x, x ∈ l -> d_prev m' !! x = d_prev m !! x) -> dseg m c l e -> dseg m' c l e.
Proof.
  induction l as [|x l IH] in c |- *; simpl; intros Hc Hp; [by rewrite Hc by by left|].
  intros (H1 & H2 & H3 & H4). rewrite Hc, Hp by by left. split_and!; try done.
  apply IH; [intros; apply Hc; by right|intros; apply Hp; by right|done].
Qed.

(** The last cell of a segment is written. *)
Lemma dseg_retarget m m' c l n e :
  NoDup (cells c l) ->
  (forall c', c' ∈ cells c l -> c' <> end_cell c l -> d_cell m' !! c' = d_cell m !! c') ->
  d_cell m' !! end_cell c l = Some e ->
  (forall x, x ∈ l -> d_prev m' !! x = d_prev m !! x) -> dseg m c l n -> dseg m' c l e.
Proof.
  induction l as [|x l IH] in c |- *; simpl; intros Hn Hc He Hp; [done|].
  intros (H1 & H2 & H3 & H4). apply NoDup_cons in Hn as [Hc0 Hn].
  split_and!; [done| |by rewrite Hp by by left|].
  - rewrite Hc; [done|by left|]. intros ->. apply Hc0. apply (end_cell_in (CNext x)).
  - apply IH; try done; [intros; apply Hc; [by right|done]|intros; apply Hp; by right].
Qed.

(** A segment hangs from another cell. *)
Lemma dseg_rehead m m' c c' l e :
  d_cell m' !! c' = Some (hd_or l e) ->
  (forall x, x ∈ l -> d_cell m' !! CNext x = d_cell m !! CNext x) ->
  (forall x l', l = x :: l' -> d_prev m' !! x = Some c') ->
  (forall x, x ∈ tail l -> d_prev m' !! x = d_prev m !! x) -> dseg m c l e -> dseg m' c' l e.
Proof.
  destruct l as [|x l]; simpl; [done|]. intros H1 H2 H3 H4 (Hx & _ & _ & H). split_and!; [done|done|by eapply H3|].
  eapply dseg_frame; [|exact H4|exact H]. intros c0 Hc. 
  apply elem_of_cons in Hc as [->|(y & -> & Hy)%list_elem_of_fmap]; apply H2; [by left|by right].
Qed.

Lemma cells_nodup h l : NoDup l -> NoDup (cells (CFirst h) l).
Proof.
  intros Hl. apply NoDup_cons. split; [by intros (y & ? & _)%list_elem_of_fmap|].
  apply NoDup_fmap_2; [|done]. by intros ? ? [= ->].
Qed.

Lemma dseg_lookup m c l e x : dseg m c l e -> x ∈ l -> x <> NULL /\ is_Some (d_cell m !! CNext x) /\ is_Some (d_prev m !! x).
Proof.
  induction l as [|y l IH] in c |- *; simpl; [by intros _ ?%not_elem_of_nil|]. intros (H1 & H2 & H3 & H4).
  intros [->|Hx]%elem_of_cons; [|by eapply IH]. split_and!; [done|rewrite (dseg_head _ _ _ _ H4); by eexists|by eexists].
Qed.

Lemma end_cell_cases h l : end_cell (CFirst h) l = CFirst h \/ exists x, x ∈ l /\ end_cell (CFirst h) l = CNext x.
Proof.
  pose proof (end_cell_in (CFirst h) l) as H. apply elem_of_cons in H as [->|(x & -> & Hx)%list_elem_of_fmap]; eauto.
Qed.

(** ** The splices on segments *)

Lemma link_in_seg m h l1 l2 e :
  dseg m (CFirst h) (l1 ++ l2) NULL -> NoDup (l1 ++ l2) -> e <> NULL -> (e ∉ l1 ++ l2) ->
  dseg (link_in (end_cell (CFirst h) l1) e (hd_or l2 NULL) m) (CFirst h) (l1 ++ e :: l2) NULL.
Proof.
  intros [H1 H2]%dseg_app Hn He Hf. apply NoDup_app in Hn as (Hn1 & Hd & Hn2).
  assert (Hf1 : e ∉ l1) by set_solver. assert (Hf2 : e ∉ l2) by set_solver.
  set (c0 := end_cell (CFirst h) l1) in *.
  assert (Hc0 : c0 <> CNext e) by (unfold c0; destruct (end_cell_cases h l1) as [->|(x & Hx & ->)]; [done|congruence]).
  apply dseg_app. split.
  - eapply dseg_retarget; [by apply cells_nodup| | | |exact H1]; simpl.
    + intros c' Hc' Hne. rewrite lookup_insert_ne by done. rewrite lookup_insert_ne; [done|].
      intros <-. by apply cells_next in Hc' as [?|?].
    + by rewrite lookup_insert_eq.
    + intros x Hx. rewrite lookup_insert_ne by congruence. destruct l2 as [|n l2]; simpl; [done|].
      destruct (n =? NULL); [done|]. rewrite lookup_insert_ne; [done|]. intros ->. apply (Hd x Hx). by left.
  - simpl. rewrite !lookup_insert_eq. split_and!; try done.
    assert (Hl2 : forall x, x ∈ l2 -> c0 <> CNext x).
    { intros x Hx. destruct (end_cell_cases h l1) as [E|(y & Hy & E)]; unfold c0; rewrite E; [done|].
      intros [= ->]. by apply (Hd x Hy). }
    eapply dseg_rehead; [| | | |exact H2]; simpl.
    + by rewrite lookup_insert_ne, lookup_insert_eq by done.
    + intros x Hx. rewrite lookup_insert_ne by (by apply Hl2). by rewrite lookup_insert_ne by congruence.
    + intros x l' ->. simpl in H2. destruct H2 as (Hx & _). simpl.
      destruct (Z.eqb_spec x NULL); [done|]. rewrite lookup_insert_ne by set_solver. by rewrite lookup_insert_eq.
    + intros x Hx. destruct l2 as [|n l2]; [by apply not_elem_of_nil in Hx|]. simpl in *.
      rewrite lookup_insert_ne by set_solver. destruct (n =? NULL); [done|].
      rewrite lookup_insert_ne; [done|]. intros ->. by apply NoDup_cons in Hn2 as [? _].
Qed.

Lemma link_out_seg m h l1 e l2 :
  dseg m (CFirst h) (l1 ++ e :: l2) NULL -> NoDup (l1 ++ e :: l2) ->
  dseg (link_out (end_cell (CFirst h) l1) (hd_or l2 NULL) m) (CFirst h) (l1 ++ l2) NULL.
Proof.
  intros [H1 H2]%dseg_app Hn. apply NoDup_app in Hn as (Hn1 & Hd & Hn2). apply NoDup_cons in Hn2 as [He Hn2].
  simpl in H2. destruct H2 as (He0 & Hc & Hp & H2). set (c0 := end_cell (CFirst h) l1) in *.
  assert (Hl2 : forall x, x ∈ l2 -> c0 <> CNext x).
  { intros x Hx. destruct (end_cell_cases h l1) as [E|(y & Hy & E)]; unfold c0; rewrite E; [done|].
    intros [= ->]. apply (Hd x Hy). by right. }
  apply dseg_app. split.
  - eapply dseg_retarget; [by apply cells_nodup| | | |exact H1]; simpl.
    + intros c' _ Hne. by rewrite lookup_insert_ne by done.
    + by rewrite lookup_insert_eq.
    + intros x Hx. destruct l2 as [|n l2]; simpl; [done|]. destruct (n =? NULL); [done|].
      rewrite lookup_insert_ne; [done|]. intros ->. apply (Hd x Hx). right. by left.
  - eapply dseg_rehead; [| | | |exact H2]; simpl.
    + by rewrite lookup_insert_eq.
    + intros x Hx. by rewrite lookup_insert_ne by (by apply Hl2).
    + intros x l' ->. simpl in H2. destruct H2 as (Hx & _). simpl. destruct (Z.eqb_spec x NULL); [done|]. by rewrite lookup_insert_eq.
    + intros x Hx. destruct l2 as [|n l2]; [by apply not_elem_of_nil in Hx|]. simpl in *. destruct (n =? NULL); [done|].
      rewrite lookup_insert_ne; [done|]. intros ->. by apply NoDup_cons in Hn2 as [? _].
Qed.

(** ** The splices on all lists *)

(** The tail pointer follows when the change is at the end of a tail queue. *)
Definition tail_fix (k : family) (l2 : list ptr) (h : Z) (c : cell) (tl : gmap Z cell) : gmap Z cell :=
  match k, l2 with FTailq, [] => <[h:=c]> tl | _, _ => tl end.

Lemma with_last_seg f m c l e : dseg m c l e -> dseg (with_last f m) c l e.
Proof. apply dseg_frame; done. Qed.

(** One list is replaced; the cells and links of the others are left alone. *)
Lemma drepr_update k Q m m' h l l' :
  drepr k Q m -> Q !! h = Some l -> dseg m' (CFirst h) l' NULL -> NoDup l' ->
  (forall x, x ∈ l' -> x ∈ l \/ forall h' l0, Q !! h' = Some l0 -> x ∉ l0) ->
  (forall h' l0, h' <> h -> Q !! h' = Some l0 ->
     (forall c, c ∈ cells (CFirst h') l0 -> d_cell m' !! c = d_cell m !! c) /\
     (forall x, x ∈ l0 -> d_prev m' !! x = d_prev m !! x)) ->
  (k = FTailq -> d_last m' !! h = Some (end_cell (CFirst h) l') /\ forall h', h' <> h -> d_last m' !! h' = d_last m !! h') ->
  drepr k (<[h:=l']> Q) m'.
Proof.
  intros Hr Hl Hs Hn Hsub Hfr Ht. split.
  - intros h' l0 [[<- <-]|[Hne Hl0]]%lookup_insert_Some; [done|].
    destruct (dr_seg _ _ _ Hr _ _ Hl0). destruct (Hfr h' l0 (not_eq_sym Hne) Hl0). split; [by eapply dseg_frame|done].
  - intros h1 h2 l1 l2 x [[<- <-]|[Hne1 H1]]%lookup_insert_Some [[<- <-]|[Hne2 H2]]%lookup_insert_Some Hx1 Hx2; [done| | |].
    + destruct (Hsub x Hx1) as [Hx|Hx]; [by eapply (dr_disj _ _ _ Hr)|]. by destruct (Hx _ _ H2).
    + destruct (Hsub x Hx2) as [Hx|Hx]; [by eapply (dr_disj _ _ _ Hr)|]. by destruct (Hx _ _ H1).
    + by eapply (dr_disj _ _ _ Hr).
  - intros h' l0 Hk [[<- <-]|[Hne Hl0]]%lookup_insert_Some; [by apply Ht|].
    rewrite (proj2 (Ht Hk)) by done. by apply (dr_tail _ _ _ Hr).
Qed.

(** The cells of one list are not the cells of another. *)
Lemma end_cell_other k Q m h h' l1 l2 l0 :
  drepr k Q m -> Q !! h = Some (l1 ++ l2) -> h' <> h -> Q !! h' = Some l0 ->
  end_cell (CFirst h) l1 ∉ cells (CFirst h') l0.
Proof.
  intros Hr Hl Hne Hl0 Hc. destruct (end_cell_cases h l1) as [E|(x & Hx & E)]; rewrite E in Hc.
  - by apply elem_of_cons in Hc as [[= ->]|(y & ? & _)%list_elem_of_fmap].
  - apply cells_next in Hc as [?|Hc]; [done|]. apply Hne, (dr_disj _ _ _ Hr _ _ _ _ x Hl0 Hl Hc). by apply elem_of_app; left.
Qed.

Lemma link_in_repr k Q m h l1 l2 e :
  drepr k Q m -> Q !! h = Some (l1 ++ l2) -> free_elem Q m e ->
  drepr k (<[h := l1 ++ e :: l2]> Q)
    (with_last (tail_fix k l2 h (CNext e)) (link_in (end_cell (CFirst h) l1) e (hd_or l2 NULL) m)).
Proof.
  intros Hr Hl (He & _ & _ & Hfree). destruct (dr_seg _ _ _ Hr _ _ Hl) as [Hs Hn].
  eapply drepr_update; [done|exact Hl| | | | |].
  - apply with_last_seg, link_in_seg; try done. by eapply Hfree.
  - pose proof (Hfree _ _ Hl) as Hf. rewrite <- Permutation_middle. apply NoDup_cons. done.
  - intros x. rewrite !elem_of_app, elem_of_cons. intros [?|[->|?]]; [by left; left|by right|by left; right].
  - intros h' l0 Hne Hl0.
    assert (Hd : forall x, x ∈ l1 ++ l2 -> x ∉ l0) by (intros x Hx Hx'; by apply Hne, (dr_disj _ _ _ Hr _ _ _ _ x Hl0 Hl)).
    split; simpl.
    + intros c Hc. rewrite lookup_insert_ne; [rewrite lookup_insert_ne; [done|]|].
      * intros <-. apply cells_next in Hc as [?|Hc]; [done|]. by apply (Hfree _ _ Hl0).
      * intros <-. by eapply end_cell_other in Hc.
    + intros x Hx. rewrite lookup_insert_ne by (intros <-; by apply (Hfree _ _ Hl0)).
      destruct l2 as [|n l2]; simpl; [done|]. destruct (n =? NULL); [done|]. rewrite lookup_insert_ne; [done|].
      intros <-. apply (Hd n); [|done]. apply elem_of_app. right. by left.
  - intros ->. pose proof (dr_tail _ _ _ Hr _ _ eq_refl Hl) as Ht. simpl. destruct l2 as [|n l2]; simpl.
    + rewrite lookup_insert_eq, end_cell_app. split; [done|]. intros h' Hne. by rewrite lookup_insert_ne by done.
    + rewrite Ht, !end_cell_app. done.
Qed.

Lemma link_out_repr k Q m h l1 e l2 :
  drepr k Q m -> Q !! h = Some (l1 ++ e :: l2) ->
  drepr k (<[h := l1 ++ l2]> Q)
    (with_last (tail_fix k l2 h (end_cell (CFirst h) l1)) (link_out (end_cell (CFirst h) l1) (hd_or l2 NULL) m)).
Proof.
  intros Hr Hl. destruct (dr_seg _ _ _ Hr _ _ Hl) as [Hs Hn].
  eapply drepr_update; [done|exact Hl| | | | |].
  - apply with_last_seg. by eapply link_out_seg.
  - rewrite <- Permutation_middle in Hn. by apply NoDup_cons in Hn as [_ ?].
  - intros x. rewrite !elem_of_app, elem_of_cons. tauto.
  - intros h' l0 Hne Hl0.
    assert (Hd : forall x, x ∈ l1 ++ e :: l2 -> x ∉ l0) by (intros x Hx Hx'; by apply Hne, (dr_disj _ _ _ Hr _ _ _ _ x Hl0 Hl)).
    split; simpl.
    + intros c Hc. rewrite lookup_insert_ne; [done|]. intros <-. by eapply end_cell_other in Hc.
    + intros x Hx. destruct l2 as [|n l2]; simpl; [done|]. destruct (n =? NULL); [done|]. rewrite lookup_insert_ne; [done|].
      intros <-. apply (Hd n); [|done]. apply elem_of_app. right. right. by left.
  - intros ->. pose proof (dr_tail _ _ _ Hr _ _ eq_refl Hl) as Ht. simpl. destruct l2 as [|n l2]; simpl.
    + rewrite lookup_insert_eq, app_nil_r. split; [done|]. intros h' Hne. by rewrite lookup_insert_ne by done.
    + rewrite Ht, !end_cell_app. done.
Qed.

(** ** The macros are splices *)

(** Evaluates reads and writes of a memory whose lookups are known. *)
Ltac dmem_eval :=
  repeat first
    [ progress simpl
    | rewrite lookup_insert_eq
    | rewrite lookup_insert_ne by congruence
    | match goal with
      | H : ?x = Some _ |- context [?x] => rewrite H
      | H : is_Some ?x |- context [?x] => let v := fresh in let E := fresh in destruct H as [v E]; rewrite E
      | H : ?a <> ?b |- context [?a =? ?b] => rewrite (proj2 (Z.eqb_neq a b) H)
      | |- context [NULL =? NULL] => change (NULL =? NULL) with true
      end ].

Section Macros.
Context (m : dmem) (e : ptr).
Context (He : is_Some (d_cell m !! CNext e)) (Hpe : is_Some (d_prev m !! e)).

(** What the code does with the tail pointer: it follows when nothing is behind [e]. *)
Definition fix_if (n : ptr) (h : Z) (c : cell) (tl : gmap Z cell) : gmap Z cell :=
  if n =? NULL then <[h:=c]> tl else tl.

Ltac by_dmem := unfold LIST_INSERT_AFTER, LIST_INSERT_BEFORE, LIST_INSERT_HEAD, LIST_REMOVE, LIST_NEXT, LIST_FIRST,
    TAILQ_INSERT_AFTER, TAILQ_INSERT_BEFORE, TAILQ_INSERT_HEAD, TAILQ_INSERT_TAIL, TAILQ_REMOVE, TAILQ_NEXT, TAILQ_FIRST,
    load, write, set_prev, prev_of, set_tail, last_of, link_in, link_out, with_last, fix_if;
  match goal with
  | H : ?n <> NULL -> _ |- _ => destruct (Z.eqb_spec n NULL) as [->|?]; [|specialize (H ltac:(done))]
  | _ => idtac
  end; by dmem_eval.

Lemma insert_after_link h x n :
  d_cell m !! CNext x = Some n -> (n <> NULL -> is_Some (d_prev m !! n)) -> x <> e -> n <> e ->
  LIST_INSERT_AFTER x e m = Ok (link_in (CNext x) e n m) /\
  (is_Some (d_last m !! h) ->
   TAILQ_INSERT_AFTER h x e m = Ok (with_last (fix_if n h (CNext e)) (link_in (CNext x) e n m))).
Proof. intros Hx Hn Hxe Hne. split; [|intros Hl]; by_dmem. Qed.

Lemma insert_head_link h n :
  d_cell m !! CFirst h = Some n -> (n <> NULL -> is_Some (d_prev m !! n)) -> n <> e ->
  LIST_INSERT_HEAD h e m = Ok (link_in (CFirst h) e n m) /\
  (is_Some (d_last m !! h) ->
   TAILQ_INSERT_HEAD h e m = Ok (with_last (fix_if n h (CNext e)) (link_in (CFirst h) e n m))).
Proof. intros Hx Hn Hne. split; [|intros Hl]; by_dmem. Qed.

Lemma insert_before_link x c :
  d_prev m !! x = Some c -> d_cell m !! c = Some x -> x <> NULL -> x <> e -> c <> CNext e ->
  LIST_INSERT_BEFORE x e m = Ok (link_in c e x m) /\ TAILQ_INSERT_BEFORE x e m = Ok (link_in c e x m).
Proof.
  intros Hx Hc Hn Hne Hce. unfold link_in. rewrite (proj2 (Z.eqb_neq x NULL) Hn).
  rewrite (insert_insert_ne _ e x) by done.
  split; by_dmem.
Qed.

Lemma insert_tail_link h c :
  d_last m !! h = Some c -> d_cell m !! c = Some NULL -> c <> CNext e ->
  TAILQ_INSERT_TAIL h e m = Ok (with_last (fix_if NULL h (CNext e)) (link_in c e NULL m)).
Proof. intros Hl Hc Hce. by_dmem. Qed.

Lemma remove_link h c n :
  d_prev m !! e = Some c -> d_cell m !! CNext e = Some n -> is_Some (d_cell m !! c) ->
  (n <> NULL -> is_Some (d_prev m !! n)) -> n <> e ->
  LIST_REMOVE e m = Ok (link_out c n m) /\
  (is_Some (d_last m !! h) -> TAILQ_REMOVE h e m = Ok (with_last (fix_if n h c) (link_out c n m))).
Proof. intros Hp Hx Hc Hn Hne. split; [|intros Hl]; by_dmem. Qed.
End Macros.
