(* ===== verification/DlistProg.v ===== *)
(** * Programs of LIST and TAILQ macros

    Swaps and concatenations, which change two lists of Dlist.v at once; the refinement of
    programs of macros to programs on lists; what the traversal macros observe. *)

From stdpp Require Import base gmap list.
From Stdlib Require Import ZArith Lia.
From S2P Require Import Prelude Types Stailq Dlist.

(** ** Two lists at once *)

Lemma drepr_update2 k Q m m' h1 h2 l1 l2 l1' l2' :
  drepr k Q m -> h1 <> h2 -> Q !! h1 = Some l1 -> Q !! h2 = Some l2 -> l1' ++ l2' ≡ₚ l1 ++ l2 ->
  dseg m' (CFirst h1) l1' NULL -> dseg m' (CFirst h2) l2' NULL ->
  (forall c, c <> CFirst h1 -> c <> CFirst h2 -> (forall x, x ∈ l1 ++ l2 -> c <> CNext x) -> d_cell m' !! c = d_cell m !! c) ->
  (forall x, (x ∉ l1 ++ l2) -> d_prev m' !! x = d_prev m !! x) ->
  (k = FTailq -> d_last m' !! h1 = Some (end_cell (CFirst h1) l1') /\ d_last m' !! h2 = Some (end_cell (CFirst h2) l2') /\
     forall h, h <> h1 -> h <> h2 -> d_last m' !! h = d_last m !! h) ->
  drepr k (<[h2:=l2']> (<[h1:=l1']> Q)) m'.
Proof.
  intros Hr Hne H1 H2 Hp Hs1 Hs2 Hc Hpv Ht.
  assert (Hnd : NoDup (l1' ++ l2')).
  { rewrite Hp. apply NoDup_app. split_and!; [by eapply dr_seg|..|by eapply dr_seg].
    intros x Hx1 Hx2. by apply Hne, (dr_disj _ _ _ Hr _ _ _ _ x H1 H2). }
  apply NoDup_app in Hnd as (Hn1 & Hd & Hn2).
  assert (Hin : forall x, x ∈ l1' ++ l2' <-> x ∈ l1 ++ l2) by (intros x; by rewrite Hp).
  assert (Hoth : forall h l x, h <> h1 -> h <> h2 -> Q !! h = Some l -> x ∈ l -> x ∉ l1 ++ l2).
  { intros h l x Hh1 Hh2 Hl Hx [Hx'|Hx']%elem_of_app; [by apply Hh1, (dr_disj _ _ _ Hr _ _ _ _ x Hl H1)
      |by apply Hh2, (dr_disj _ _ _ Hr _ _ _ _ x Hl H2)]. }
  split.
  - intros h l [[<- <-]|[Hh2 [[<- <-]|[Hh1 Hl]]%lookup_insert_Some]]%lookup_insert_Some; [done|done|].
    destruct (dr_seg _ _ _ Hr _ _ Hl) as [Hs Hn]. split; [|done]. eapply dseg_frame; [| |exact Hs].
    + intros c Hcl. apply Hc.
      * intros ->. by apply elem_of_cons in Hcl as [[= ->]|(y & ? & _)%list_elem_of_fmap].
      * intros ->. by apply elem_of_cons in Hcl as [[= ->]|(y & ? & _)%list_elem_of_fmap].
      * intros x Hx ->. apply cells_next in Hcl as [?|Hcl]; [done|]. by apply (Hoth h l x).
    + intros x Hx. apply Hpv. by apply (Hoth h l x).
  - intros ha hb la lb x Ha Hb Hxa Hxb.
    assert (Hmix : forall h l, Q !! h = Some l -> h <> h1 -> h <> h2 -> x ∈ l -> x ∈ l1' \/ x ∈ l2' -> False).
    { intros h l Hl Hh1 Hh2 Hx Hx'. by apply (Hoth h l x Hh1 Hh2 Hl Hx), Hin, elem_of_app. }
    assert (Hcl : forall h l, <[h2:=l2']> (<[h1:=l1']> Q) !! h = Some l -> x ∈ l ->
      (h = h1 /\ x ∈ l1') \/ (h = h2 /\ x ∈ l2') \/ (h <> h1 /\ h <> h2 /\ Q !! h = Some l)).
    { intros h l [[<- <-]|[? [[<- <-]|[? ?]]%lookup_insert_Some]]%lookup_insert_Some ?; auto. }
    destruct (Hcl _ _ Ha Hxa) as [[-> Ea]|[[-> Ea]|(? & ? & Ea)]], (Hcl _ _ Hb Hxb) as [[-> Eb]|[[-> Eb]|(? & ? & Eb)]];
      try done; try (by destruct (Hd x)); try (by eapply (dr_disj _ _ _ Hr)); exfalso;
      try (apply (Hmix ha la); by auto); apply (Hmix hb lb); by auto.
  - intros h l Hk. destruct (Ht Hk) as (T1 & T2 & T3).
    intros [[<- <-]|[Hh2 [[<- <-]|[Hh1 Hl]]%lookup_insert_Some]]%lookup_insert_Some; [done|done|].
    rewrite T3 by done. by apply (dr_tail _ _ _ Hr).
Qed.

Definition relink (p : ptr) (c : cell) (pv : gmap Z cell) : gmap Z cell := if p =? NULL then pv else <[p:=c]> pv.

Definition swap_mem (h1 h2 : Z) (f1 f2 : ptr) (m : dmem) : dmem :=
  DMem (<[CFirst h2:=f1]> (<[CFirst h1:=f2]> (d_cell m)))
       (relink f1 (CFirst h2) (relink f2 (CFirst h1) (d_prev m))) (d_last m).

Lemma swap_macros h1 h2 f1 f2 m :
  h1 <> h2 -> d_cell m !! CFirst h1 = Some f1 -> d_cell m !! CFirst h2 = Some f2 ->
  (f1 <> NULL -> is_Some (d_prev m !! f1)) -> (f2 <> NULL -> is_Some (d_prev m !! f2)) ->
  LIST_SWAP h1 h2 m = Ok (swap_mem h1 h2 f1 f2 m) /\
  (forall c1 c2, d_last m !! h1 = Some c1 -> d_last m !! h2 = Some c2 ->
   TAILQ_SWAP h1 h2 m = Ok (with_last (fun tl => fix_if f1 h2 (CFirst h2) (fix_if f2 h1 (CFirst h1) (<[h2:=c1]> (<[h1:=c2]> tl))))
                              (swap_mem h1 h2 f1 f2 m))).
Proof.
  intros Hne H1 H2 Hp1 Hp2.
  assert (Hp1' : f1 <> NULL -> is_Some (relink f2 (CFirst h1) (d_prev m) !! f1)).
  { intros Hz. unfold relink. destruct (f2 =? NULL); [auto|]. apply lookup_insert_is_Some'. auto. }
  unfold swap_mem, relink, with_last, fix_if in *.
  unfold LIST_SWAP, TAILQ_SWAP, LIST_FIRST, TAILQ_FIRST, load, write, set_prev, last_of, set_tail.
  destruct (Z.eqb_spec f2 NULL) as [->|Hz2]; [|specialize (Hp2 Hz2)];
    (destruct (Z.eqb_spec f1 NULL) as [->|Hz1]; [|specialize (Hp1' Hz1)]);
    (split; [|intros c1 c2 Hl1 Hl2]); by dmem_eval.
Qed.

Lemma swap_seg h h' l c m f cellv :
  dseg m c l NULL -> NoDup l -> f = hd_or l NULL ->
  d_cell cellv !! CFirst h' = Some f -> (forall x, x ∈ l -> d_cell cellv !! CNext x = d_cell m !! CNext x) ->
  (f <> NULL -> d_prev cellv !! f = Some (CFirst h')) -> (forall x, x ∈ l -> x <> f -> d_prev cellv !! x = d_prev m !! x) ->
  c = CFirst h -> dseg cellv (CFirst h') l NULL.
Proof.
  intros Hs Hn -> Hc Hx Hp Hpx ->. eapply dseg_rehead; [done|done| | |exact Hs].
  - intros x l' ->. simpl in *. apply Hp, Hs.
  - intros x Hx'. destruct l as [|y l]; [by apply not_elem_of_nil in Hx'|]. simpl in *. apply Hpx; [by right|].
    intros ->. by apply NoDup_cons in Hn as [? _].
Qed.

Lemma end_cell_rehead c c' l : l <> [] -> end_cell c l = end_cell c' l.
Proof. by destruct l. Qed.

Lemma hd_or_in (l : list ptr) : hd_or l NULL <> NULL -> hd_or l NULL ∈ l.
Proof. destruct l; simpl; [done|]. intros. by left. Qed.

Lemma hd_or_nil m c l : dseg m c l NULL -> hd_or l NULL = NULL -> l = [].
Proof. destruct l; simpl; [done|]. by intros [? _] ->. Qed.

Lemma relink_ne f c pv x : (f <> NULL -> x <> f) -> relink f c pv !! x = pv !! x.
Proof. intros Hx. unfold relink. destruct (Z.eqb_spec f NULL); [done|]. rewrite lookup_insert_ne; [done|]. intros ->. by apply Hx. Qed.
Lemma relink_eq f c pv : f <> NULL -> relink f c pv !! f = Some c.
Proof. intros Hf. unfold relink. rewrite (proj2 (Z.eqb_neq f NULL) Hf). by rewrite lookup_insert_eq. Qed.

Lemma swap_repr k Q m h1 h2 l1 l2 f :
  drepr k Q m -> h1 <> h2 -> Q !! h1 = Some l1 -> Q !! h2 = Some l2 ->
  (k = FTailq -> f = fun tl => fix_if (hd_or l1 NULL) h2 (CFirst h2) (fix_if (hd_or l2 NULL) h1 (CFirst h1)
       (<[h2:=end_cell (CFirst h1) l1]> (<[h1:=end_cell (CFirst h2) l2]> tl)))) ->
  drepr k (<[h2:=l1]> (<[h1:=l2]> Q)) (with_last f (swap_mem h1 h2 (hd_or l1 NULL) (hd_or l2 NULL) m)).
Proof.
  intros Hr Hne H1 H2 Hf. destruct (dr_seg _ _ _ Hr _ _ H1) as [S1 N1]. destruct (dr_seg _ _ _ Hr _ _ H2) as [S2 N2].
  assert (Hd : forall x, x ∈ l1 -> x ∈ l2 -> False) by (intros x Hx1 Hx2; by apply Hne, (dr_disj _ _ _ Hr _ _ _ _ x H1 H2)).
  eapply drepr_update2; [done|done|exact H1|exact H2|by rewrite Permutation_app_comm| | | | |].
  - apply with_last_seg. eapply swap_seg; [exact S2|done|done| | | | |done]; simpl.
    + rewrite lookup_insert_ne by congruence. by rewrite lookup_insert_eq.
    + intros x _. by rewrite !lookup_insert_ne by done.
    + intros Hz. rewrite relink_ne, relink_eq; [done|done|]. intros Hz1 E.
      apply (Hd (hd_or l1 NULL)); [by apply hd_or_in|rewrite <- E; by apply hd_or_in].
    + intros x Hx Hxf. rewrite !relink_ne; [done|done|]. intros Hz ->. by apply (Hd (hd_or l1 NULL)); [apply hd_or_in|].
  - apply with_last_seg. eapply swap_seg; [exact S1|done|done| | | | |done]; simpl.
    + by rewrite lookup_insert_eq.
    + intros x _. by rewrite !lookup_insert_ne by done.
    + intros Hz. by rewrite relink_eq.
    + intros x Hx Hxf. rewrite !relink_ne; [done| |done]. intros Hz ->. by apply (Hd (hd_or l2 NULL)); [|apply hd_or_in].
  - intros c Hc1 Hc2 _. simpl. by rewrite !lookup_insert_ne by done.
  - intros x Hx. simpl. rewrite !relink_ne; [done| |]; intros Hz ->; apply Hx, elem_of_app;
      [right|left]; by apply hd_or_in.
  - intros Hk. rewrite (Hf Hk). simpl. unfold fix_if.
    destruct (Z.eqb_spec (hd_or l1 NULL) NULL) as [E1|E1], (Z.eqb_spec (hd_or l2 NULL) NULL) as [E2|E2];
      try (apply (hd_or_nil _ _ _ S1) in E1; subst l1); try (apply (hd_or_nil _ _ _ S2) in E2; subst l2);
      split_and!; repeat (rewrite lookup_insert_eq || rewrite lookup_insert_ne by done); try done;
      try (f_equal; apply end_cell_rehead; by intros ->);
      intros h Hh1 Hh2; by rewrite !lookup_insert_ne by done.
Qed.

Definition concat_mem (h1 h2 : Z) (c1 c2 : cell) (f2 : ptr) (m : dmem) : dmem :=
  DMem (<[CFirst h2:=NULL]> (<[c1:=f2]> (d_cell m))) (<[f2:=c1]> (d_prev m))
       (<[h2:=CFirst h2]> (<[h1:=c2]> (d_last m))).

Lemma concat_macro h1 h2 c1 c2 f2 m :
  h1 <> h2 -> d_last m !! h1 = Some c1 -> d_last m !! h2 = Some c2 -> is_Some (d_cell m !! c1) -> c1 <> CFirst h2 ->
  d_cell m !! CFirst h2 = Some f2 -> (f2 <> NULL -> is_Some (d_prev m !! f2)) ->
  TAILQ_CONCAT h1 h2 m = Ok (if f2 =? NULL then m else concat_mem h1 h2 c1 c2 f2 m).
Proof.
  intros Hne Hl1 Hl2 Hc1 Hc12 Hf Hp.
  unfold TAILQ_CONCAT, TAILQ_EMPTY, TAILQ_INIT, TAILQ_FIRST, load, write, set_prev, last_of, set_tail, concat_mem.
  destruct (Z.eqb_spec f2 NULL) as [->|Hz]; [by dmem_eval|]. specialize (Hp Hz). by dmem_eval.
Qed.

Lemma concat_repr Q m h1 h2 l1 l2 :
  drepr FTailq Q m -> h1 <> h2 -> Q !! h1 = Some l1 -> Q !! h2 = Some l2 -> l2 <> [] ->
  drepr FTailq (<[h2:=[]]> (<[h1:=l1 ++ l2]> Q))
    (concat_mem h1 h2 (end_cell (CFirst h1) l1) (end_cell (CFirst h2) l2) (hd_or l2 NULL) m).
Proof.
  intros Hr Hne H1 H2 Hl2. destruct (dr_seg _ _ _ Hr _ _ H1) as [S1 N1]. destruct (dr_seg _ _ _ Hr _ _ H2) as [S2 N2].
  assert (Hd : forall x, x ∈ l1 -> x ∈ l2 -> False) by (intros x Hx1 Hx2; by apply Hne, (dr_disj _ _ _ Hr _ _ _ _ x H1 H2)).
  assert (Hf : hd_or l2 NULL ∈ l2) by (apply hd_or_in; intros ?; by eapply Hl2, hd_or_nil).
  assert (Hc : forall h, h <> h1 -> end_cell (CFirst h1) l1 <> CFirst h).
  { intros h Hh. destruct (end_cell_cases h1 l1) as [->|(x & _ & ->)]; [congruence|done]. }
  assert (Hcn : forall x, x ∈ l2 -> end_cell (CFirst h1) l1 <> CNext x).
  { intros x Hx. destruct (end_cell_cases h1 l1) as [->|(y & Hy & ->)]; [done|]. intros [= ->]. by apply (Hd x). }
  eapply drepr_update2; [done|done|exact H1|exact H2|by rewrite app_nil_r| | | | |].
  - apply dseg_app. split.
    + eapply dseg_retarget; [by apply cells_nodup| | | |exact S1]; simpl.
      * intros c Hc1 Hce. rewrite !lookup_insert_ne; [done|done|]. intros <-.
        by apply elem_of_cons in Hc1 as [[= ?]|(y & ? & _)%list_elem_of_fmap].
      * rewrite lookup_insert_ne by (by apply not_eq_sym, Hc). by rewrite lookup_insert_eq.
      * intros x Hx. rewrite lookup_insert_ne; [done|]. intros <-. by apply (Hd (hd_or l2 NULL)).
    + eapply dseg_rehead; [| | | |exact S2]; simpl.
      * rewrite lookup_insert_ne by (by apply not_eq_sym, Hc). by rewrite lookup_insert_eq.
      * intros x Hx. rewrite !lookup_insert_ne; [done|by apply Hcn|done].
      * intros x l' ->. simpl. by rewrite lookup_insert_eq.
      * intros x Hx. destruct l2 as [|y l2]; [done|]. simpl in *. rewrite lookup_insert_ne; [done|].
        intros ->. by apply NoDup_cons in N2 as [? _].
  - simpl. by rewrite lookup_insert_eq.
  - intros c Hc1 Hc2 Hcx. simpl. rewrite !lookup_insert_ne; [done| |done].
    destruct (end_cell_cases h1 l1) as [->|(x & Hx & ->)]; [done|]. intros <-. apply (Hcx x); [|done]. apply elem_of_app. by left.
  - intros x Hx. simpl. rewrite lookup_insert_ne; [done|]. intros <-. apply Hx, elem_of_app. by right.
  - intros _. simpl. rewrite lookup_insert_eq, lookup_insert_ne, lookup_insert_eq, end_cell_app by done.
    split_and!; [f_equal; by apply end_cell_rehead|done|]. intros h Hh1 Hh2. by rewrite !lookup_insert_ne by done.
Qed.

(** ** Programs *)

Inductive dl_op :=
| DInit (h : Z)
| DInsertHead (h : Z) (e : ptr)
| DInsertTail (h : Z) (e : ptr)
| DInsertAfter (h : Z) (x e : ptr)
| DInsertBefore (h : Z) (x e : ptr)
| DRemove (h : Z) (e : ptr)
| DConcat (h1 h2 : Z)
| DSwap (h1 h2 : Z).

(** LIST has no tail insertion and no concatenation. *)
Definition provided (k : family) (o : dl_op) : bool :=
  match k, o with FList, (DInsertTail _ _ | DConcat _ _) => false | _, _ => true end.

Definition run_dl (k : family) (o : dl_op) (m : dmem) : outcome dmem :=
  match k, o with
  | FList, DInit h => LIST_INIT h m
  | FList, DInsertHead h e => LIST_INSERT_HEAD h e m
  | FList, DInsertAfter _ x e => LIST_INSERT_AFTER x e m
  | FList, DInsertBefore _ x e => LIST_INSERT_BEFORE x e m
  | FList, DRemove _ e => LIST_REMOVE e m
  | FList, DSwap h1 h2 => LIST_SWAP h1 h2 m
  | FList, _ => Faults
  | FTailq, DInit h => TAILQ_INIT h m
  | FTailq, DInsertHead h e => TAILQ_INSERT_HEAD h e m
  | FTailq, DInsertTail h e => TAILQ_INSERT_TAIL h e m
  | FTailq, DInsertAfter h x e => TAILQ_INSERT_AFTER h x e m
  | FTailq, DInsertBefore _ x e => TAILQ_INSERT_BEFORE x e m
  | FTailq, DRemove h e => TAILQ_REMOVE h e m
  | FTailq, DConcat h1 h2 => TAILQ_CONCAT h1 h2 m
  | FTailq, DSwap h1 h2 => TAILQ_SWAP h1 h2 m
  end.

(** The same on lists; [alloc] are the elements in memory. *)
Inductive dl_step (alloc : gset ptr) : dl_op -> gmap Z (list ptr) -> gmap Z (list ptr) -> Prop :=
| DSInit h l Q : Q !! h = Some l -> dl_step alloc (DInit h) Q (<[h := []]> Q)
| DSInsertHead h e l Q : Q !! h = Some l -> insertable Q alloc e ->
    dl_step alloc (DInsertHead h e) Q (<[h := e :: l]> Q)
| DSInsertTail h e l Q : Q !! h = Some l -> insertable Q alloc e ->
    dl_step alloc (DInsertTail h e) Q (<[h := l ++ [e]]> Q)
| DSInsertAfter h x e l1 l2 Q : Q !! h = Some (l1 ++ x :: l2) -> insertable Q alloc e ->
    dl_step alloc (DInsertAfter h x e) Q (<[h := l1 ++ x :: e :: l2]> Q)
| DSInsertBefore h x e l1 l2 Q : Q !! h = Some (l1 ++ x :: l2) -> insertable Q alloc e ->
    dl_step alloc (DInsertBefore h x e) Q (<[h := l1 ++ e :: x :: l2]> Q)
| DSRemove h e l1 l2 Q : Q !! h = Some (l1 ++ e :: l2) ->
    dl_step alloc (DRemove h e) Q (<[h := l1 ++ l2]> Q)
| DSConcat h1 h2 l1 l2 Q : h1 <> h2 -> Q !! h1 = Some l1 -> Q !! h2 = Some l2 ->
    dl_step alloc (DConcat h1 h2) Q (<[h2 := []]> (<[h1 := l1 ++ l2]> Q))
| DSSwap h1 h2 l1 l2 Q : h1 <> h2 -> Q !! h1 = Some l1 -> Q !! h2 = Some l2 ->
    dl_step alloc (DSwap h1 h2) Q (<[h2 := l1]> (<[h1 := l2]> Q)).

(** Every element has both links. *)
Definition elems_ok (m : dmem) : Prop := forall e, is_Some (d_prev m !! e) -> is_Some (d_cell m !! CNext e).

Lemma insertable_free Q m e : elems_ok m -> insertable Q (dom (d_prev m)) e -> free_elem Q m e.
Proof. intros Hm (He & Ha & Hf). apply elem_of_dom in Ha. split_and!; auto. Qed.

(** What the representation says about the place between [l1] and [l2]. *)
Lemma place_facts k Q m h l1 l2 :
  drepr k Q m -> Q !! h = Some (l1 ++ l2) ->
  d_cell m !! end_cell (CFirst h) l1 = Some (hd_or l2 NULL) /\
  (hd_or l2 NULL <> NULL -> is_Some (d_prev m !! hd_or l2 NULL)) /\
  (forall e, free_elem Q m e -> hd_or l2 NULL <> e /\ end_cell (CFirst h) l1 <> CNext e) /\
  (forall c tl, fix_if (hd_or l2 NULL) h c tl = tail_fix FTailq l2 h c tl).
Proof.
  intros Hr Hl. destruct (dr_seg _ _ _ Hr _ _ Hl) as [Hs _]. apply dseg_app in Hs as [H1 H2]. split_and!.
  - by apply dseg_head.
  - intros Hz. by eapply dseg_lookup, hd_or_in.
  - intros e (He & _ & _ & Hf). specialize (Hf _ _ Hl). split.
    + intros <-. apply Hf, elem_of_app. right. by apply hd_or_in.
    + destruct (end_cell_cases h l1) as [->|(x & Hx & ->)]; [done|]. intros [= ->]. apply Hf, elem_of_app. by left.
  - intros c tl. unfold fix_if. destruct l2 as [|n l2]; [done|]. simpl. destruct (Z.eqb_spec n NULL); [|done].
    simpl in H2. tauto.
Qed.

(** A splice that a macro was shown to be, on a list cut at [l1]. *)
Lemma insert_refines k Q m h l1 l2 e (r : outcome dmem) :
  drepr k Q m -> Q !! h = Some (l1 ++ l2) -> free_elem Q m e ->
  (k = FList -> r = Ok (link_in (end_cell (CFirst h) l1) e (hd_or l2 NULL) m)) ->
  (k = FTailq -> r = Ok (with_last (tail_fix FTailq l2 h (CNext e)) (link_in (end_cell (CFirst h) l1) e (hd_or l2 NULL) m))) ->
  exists m', r = Ok m' /\ drepr k (<[h := l1 ++ e :: l2]> Q) m'.
Proof.
  intros Hr Hl Hf E1 E2. pose proof (link_in_repr k Q m h l1 l2 e Hr Hl Hf) as H.
  destruct k; [rewrite E1 by done|rewrite E2 by done]; eexists; (split; [reflexivity|]); exact H.
Qed.

Lemma tail_known Q m h l : drepr FTailq Q m -> Q !! h = Some l -> is_Some (d_last m !! h).
Proof. intros Hr Hl. rewrite (dr_tail _ _ _ Hr _ _ eq_refl Hl). by eexists. Qed.

Lemma with_last_eq f g m : (forall tl, f tl = g tl) -> with_last f m = with_last g m.
Proof. intros H. unfold with_last. by rewrite H. Qed.

Lemma run_insert_refines k Q Q' m o :
  elems_ok m -> drepr k Q m -> provided k o = true -> dl_step (dom (d_prev m)) o Q Q' ->
  match o with DInit _ | DRemove _ _ | DConcat _ _ | DSwap _ _ => False | _ => True end ->
  exists m', run_dl k o m = Ok m' /\ drepr k Q' m'.
Proof.
  intros Hm Hr Hp Hs Ho.
  destruct Hs as [?|h e l Q Hl Hi|h e l Q Hl Hi|h x e l1 l2 Q Hl Hi|h x e l1 l2 Q Hl Hi|?|?|?]; try done;
    apply (insertable_free _ _ _ Hm) in Hi; pose proof Hi as (He & Hc & Hpv & Hf).
  - destruct (place_facts k Q m h [] l Hr Hl) as (P1 & P2 & P3 & P4). destruct (P3 e Hi) as [P5 _].
    destruct (insert_head_link m e Hc Hpv h _ P1 P2 P5) as [E1 E2].
    apply (insert_refines k Q m h [] l e); try done; intros ->; simpl; [exact E1|].
    rewrite E2 by (by eapply tail_known). f_equal. by apply with_last_eq.
  - destruct k; [done|]. rewrite <- (app_nil_r l) in Hl.
    destruct (place_facts FTailq Q m h l [] Hr Hl) as (P1 & P2 & P3 & P4). destruct (P3 e Hi) as [_ P5].
    apply (insert_refines FTailq Q m h l [] e); try done. intros _. simpl. 
    rewrite (insert_tail_link m e Hc Hpv h (end_cell (CFirst h) l)); [done| |done|done].
    rewrite app_nil_r in Hl. by apply (dr_tail _ _ _ Hr).
  - assert (Hl' : Q !! h = Some ((l1 ++ [x]) ++ l2)) by (by rewrite <- app_assoc).
    destruct (place_facts k Q m h (l1 ++ [x]) l2 Hr Hl') as (P1 & P2 & P3 & P4). destruct (P3 e Hi) as [P5 P6].
    rewrite end_cell_app in P1, P6. simpl in P1, P6.
    destruct (insert_after_link m e Hc Hpv h x _ P1 P2 ltac:(congruence) P5) as [E1 E2].
    replace (l1 ++ x :: e :: l2) with ((l1 ++ [x]) ++ e :: l2) by (by rewrite <- app_assoc).
    apply (insert_refines k Q m h (l1 ++ [x]) l2 e); try done; intros ->; rewrite end_cell_app; simpl; [exact E1|].
    rewrite E2 by (by eapply tail_known). f_equal. by apply with_last_eq.
  - destruct (place_facts k Q m h l1 (x :: l2) Hr Hl) as (P1 & P2 & P3 & P4). destruct (P3 e Hi) as [P5 P6]. simpl in *.
    destruct (dr_seg _ _ _ Hr _ _ Hl) as [Hs _]. apply dseg_app in Hs as [_ (Hx & Hcx & Hpx & _)].
    destruct (insert_before_link m e Hc Hpv x _ Hpx Hcx Hx P5 P6) as [E1 E2].
    apply (insert_refines k Q m h l1 (x :: l2) e); try done; by intros ->.
Qed.

Lemma init_refines k Q m h l :
  drepr k Q m -> Q !! h = Some l -> exists m', run_dl k (DInit h) m = Ok m' /\ drepr k (<[h:=[]]> Q) m'.
Proof.
  intros Hr Hl. destruct (place_facts k Q m h [] l Hr Hl) as (P1 & _). simpl in P1.
  assert (H : forall tl, (k = FTailq -> tl = <[h:=CFirst h]> (d_last m)) ->
            drepr k (<[h:=[]]> Q) (DMem (<[CFirst h:=NULL]> (d_cell m)) (d_prev m) tl)).
  { intros tl Ht. eapply drepr_update; [done|exact Hl|simpl; by rewrite lookup_insert_eq|apply NoDup_nil_2| | |].
    - intros x Hx. by apply not_elem_of_nil in Hx.
    - intros h' l0 Hne Hl0. split; [|done]. intros c Hc. simpl. rewrite lookup_insert_ne; [done|]. intros <-.
      by apply (end_cell_other k Q m h h' [] l l0) in Hc.
    - intros Hk. simpl. rewrite (Ht Hk), lookup_insert_eq. split; [done|]. intros. by rewrite lookup_insert_ne. }
  destruct k; simpl; unfold LIST_INIT, TAILQ_INIT, write, set_tail; rewrite P1; simpl.
  - eexists. split; [reflexivity|]. by apply H.
  - destruct (tail_known _ _ _ _ Hr Hl) as [c ->]. simpl. eexists. split; [reflexivity|]. by apply H.
Qed.

Lemma run_dl_refines k Q Q' m o :
  elems_ok m -> drepr k Q m -> provided k o = true -> dl_step (dom (d_prev m)) o Q Q' ->
  exists m', run_dl k o m = Ok m' /\ drepr k Q' m'.
Proof.
  intros Hm Hr Hp Hs.
  destruct o as [h| | | | |h e|h1 h2|h1 h2]; try (by eapply run_insert_refines).
  - inversion Hs as [? l ? Hl| | | | | | |]; subst. by eapply init_refines.
  - inversion Hs as [| | | | |? ? l1 l2 ? Hl| |]; subst. destruct (dr_seg _ _ _ Hr _ _ Hl) as [Hsg Hn].
    apply dseg_app in Hsg as [Hs1 (He & Hce & Hpe & Hs2)].
    assert (Hl' : Q !! h = Some ((l1 ++ [e]) ++ l2)) by (by rewrite <- app_assoc).
    destruct (place_facts k Q m h (l1 ++ [e]) l2 Hr Hl') as (P1 & P2 & _ & P4). rewrite end_cell_app in P1. simpl in P1.
    assert (Hne : hd_or l2 NULL <> e).
    { intros <-. apply NoDup_app in Hn as (_ & _ & Hn). apply NoDup_cons in Hn as [Hn _]. by apply Hn, hd_or_in. }
    destruct (remove_link m e h (end_cell (CFirst h) l1) (hd_or l2 NULL)) as [E1 E2]; try done.
    pose proof (link_out_repr k Q m h l1 e l2 Hr Hl) as H.
    destruct k; simpl; [rewrite E1|rewrite E2 by (by eapply tail_known)]; eexists; (split; [reflexivity|]); [exact H|].
    by rewrite (with_last_eq _ _ _ (P4 _)).
  - destruct k; [done|]. inversion Hs as [| | | | | |? ? l1 l2 ? Hne H1 H2|]; subst. simpl.
    destruct (place_facts FTailq Q m h2 [] l2 Hr H2) as (P1 & P2 & _ & _). simpl in P1.
    pose proof H1 as H1'. rewrite <- (app_nil_r l1) in H1'. destruct (place_facts FTailq Q m h1 l1 [] Hr H1') as (P3 & _).
    rewrite (concat_macro h1 h2 (end_cell (CFirst h1) l1) (end_cell (CFirst h2) l2) (hd_or l2 NULL));
      try done; try (by apply (dr_tail _ _ _ Hr)); [|].
    + destruct (Z.eqb_spec (hd_or l2 NULL) NULL) as [Hz|Hz]; eexists; (split; [reflexivity|]).
      * apply (hd_or_nil m (CFirst h2)) in Hz as ->; [|by eapply dr_seg]. by rewrite app_nil_r, (insert_id Q h1), (insert_id Q h2) by done.
      * apply concat_repr; try done. by intros ->.
    + destruct (end_cell_cases h1 l1) as [->|(x & _ & ->)]; [congruence|done].
  - inversion Hs as [| | | | | | |? ? l1 l2 ? Hne H1 H2]; subst.
    destruct (place_facts k Q m h1 [] l1 Hr H1) as (P1 & P2 & _). destruct (place_facts k Q m h2 [] l2 Hr H2) as (P3 & P4 & _).
    destruct (swap_macros h1 h2 _ _ m Hne P1 P3 P2 P4) as [E1 E2].
    destruct k; simpl.
    + rewrite E1. eexists. split; [reflexivity|]. by apply (swap_repr FList Q m h1 h2 l1 l2 id).
    + rewrite (E2 (end_cell (CFirst h1) l1) (end_cell (CFirst h2) l2)) by (by apply (dr_tail _ _ _ Hr)).
      eexists. split; [reflexivity|]. by apply swap_repr.
Qed.

(** No macro allocates or frees. *)
Definition same_dom (m m' : dmem) : Prop := dom (d_cell m') = dom (d_cell m) /\ dom (d_prev m') = dom (d_prev m).

Lemma write_dom c p m m' : write c p m = Ok m' -> same_dom m m'.
Proof.
  unfold write, deref, same_dom. destruct (d_cell m !! c) eqn:E; simpl; [|done]. intros [= <-]. simpl.
  split; [|done]. by rewrite dom_insert_lookup_L by by eexists.
Qed.
Lemma set_prev_dom e c m m' : set_prev e c m = Ok m' -> same_dom m m'.
Proof.
  unfold set_prev, deref, same_dom. destruct (d_prev m !! e) eqn:E; simpl; [|done]. intros [= <-]. simpl.
  split; [done|]. by rewrite dom_insert_lookup_L by by eexists.
Qed.
Lemma set_tail_dom h c m m' : set_tail h c m = Ok m' -> same_dom m m'.
Proof. unfold set_tail, deref, same_dom. destruct (d_last m !! h); simpl; [|done]. by intros [= <-]. Qed.

Lemma run_dl_dom k o m m' : run_dl k o m = Ok m' -> same_dom m m'.
Proof.
  assert (Ht : forall a b c, same_dom a b -> same_dom b c -> same_dom a c) by (unfold same_dom; intros; intuition congruence).
  assert (Hr : forall a, same_dom a a) by done.
  destruct k, o; simpl; unfold LIST_INIT, LIST_INSERT_AFTER, LIST_INSERT_BEFORE, LIST_INSERT_HEAD, LIST_REMOVE, LIST_SWAP,
    TAILQ_INSERT_AFTER, TAILQ_INSERT_BEFORE, TAILQ_INSERT_HEAD, TAILQ_INSERT_TAIL, TAILQ_REMOVE, TAILQ_SWAP, TAILQ_CONCAT,
    TAILQ_INIT; intros H; try done;
    repeat match goal with
    | H : obind _ _ = Ok _ |- _ => apply obind_ok in H as (? & ? & ?)
    | H : (if ?b then _ else _) = Ok _ |- _ => destruct b
    | H : Ok _ = Ok _ |- _ => injection H as H; subst
    | H : write _ _ _ = Ok _ |- _ => apply write_dom in H
    | H : set_prev _ _ _ = Ok _ |- _ => apply set_prev_dom in H
    | H : set_tail _ _ _ = Ok _ |- _ => apply set_tail_dom in H
    end; eauto 10.
Qed.

Lemma elems_ok_dom m m' : elems_ok m -> same_dom m m' -> elems_ok m'.
Proof.
  intros Hm [H1 H2] e. rewrite <- !elem_of_dom, H1, H2, !elem_of_dom. apply Hm.
Qed.

Fixpoint run_dls (k : family) (os : list dl_op) (m : dmem) : outcome dmem :=
  match os with [] => Ok m | o :: os => let* m := run_dl k o m in run_dls k os m end.

Inductive dl_steps (k : family) (alloc : gset ptr) : list dl_op -> gmap Z (list ptr) -> gmap Z (list ptr) -> Prop :=
| dls_nil Q : dl_steps k alloc [] Q Q
| dls_cons o os Q1 Q2 Q3 :
    provided k o = true -> dl_step alloc o Q1 Q2 -> dl_steps k alloc os Q2 Q3 -> dl_steps k alloc (o :: os) Q1 Q3.

(** C16.  A program of LIST macro calls, or of TAILQ macro calls, refines the same program on
    lists: on a memory whose heads represent the lists [Q], any sequence of insertions
    (head, tail, before, after), removals, concatenations and swaps that the list model
    allows runs to completion without a fault and ends in a memory that represents the
    lists the model computes, for every head at once; backward links and tail pointers
    included. *)
Theorem dlist_program_refines k os Q Q' m :
  elems_ok m -> drepr k Q m -> dl_steps k (dom (d_prev m)) os Q Q' ->
  exists m', run_dls k os m = Ok m' /\ drepr k Q' m' /\ elems_ok m'.
Proof.
  remember (dom (d_prev m)) as alloc eqn:Ha. intros Hm Hr Hs. revert m Ha Hm Hr.
  induction Hs as [Q|o os Q1 Q2 Q3 Hp H1 _ IH]; intros m Ha Hm Hr; [by exists m|]. subst alloc.
  destruct (run_dl_refines _ _ _ _ _ Hm Hr Hp H1) as (m1 & E1 & Hr1). simpl. rewrite E1. simpl.
  pose proof (run_dl_dom _ _ _ _ E1) as Hd. apply IH; [by destruct Hd as [_ ->]|by eapply elems_ok_dom|done].
Qed.

(** Two heads and three elements that are on no list. *)
Definition ex_dmem : dmem :=
  DMem (<[CFirst 0:=0]> (<[CFirst 1:=0]> (<[CNext 10:=0]> (<[CNext 20:=0]> {[CNext 30:=0]}))))
       (<[10:=CFirst 9]> (<[20:=CFirst 9]> {[30:=CFirst 9]})) (<[0:=CFirst 0]> {[1:=CFirst 1]}).
Definition ex_dls : list dl_op :=
  [DInsertTail 0 10; DInsertHead 0 20; DInsertAfter 0 20 30; DRemove 0 10; DSwap 0 1].

Lemma ex_dmem_repr : elems_ok ex_dmem /\ drepr FTailq (<[0:=[]]> {[1:=[]]}) ex_dmem.
Proof.
  split.
  - intros e He. unfold ex_dmem in He. simpl in He.
    rewrite !lookup_insert_is_Some', lookup_singleton_is_Some in He. by destruct He as [<-|[<-|<-]]; eexists.
  - split.
    + intros h l [[<- <-]|[_ [<- <-]%lookup_singleton_Some]]%lookup_insert_Some; (split; [done|apply NoDup_nil_2]).
    + intros h1 h2 l1 l2 x [[<- <-]|[_ [<- <-]%lookup_singleton_Some]]%lookup_insert_Some _ Hx; by apply not_elem_of_nil in Hx.
    + intros h l _ [[<- <-]|[_ [<- <-]%lookup_singleton_Some]]%lookup_insert_Some; done.
Qed.

Lemma dlist_program_refines_witness :
  exists m', run_dls FTailq ex_dls ex_dmem = Ok m' /\
    drepr FTailq (<[1:=[20; 30]]> (<[0:=[]]> (<[0:=[20; 30]]> (<[0:=[20; 30; 10]]> (<[0:=[20; 10]]> (<[0:=[10]]> (<[0:=[]]> {[1:=[]]}))))))) m' /\
    elems_ok m'.
Proof.
  destruct ex_dmem_repr as [He Hr]. apply (dlist_program_refines FTailq ex_dls _ _ ex_dmem He Hr).
  econstructor; [done|apply (DSInsertTail _ 0 10 [])|econstructor; [done|apply (DSInsertHead _ 0 20 [10])
   |econstructor; [done|apply (DSInsertAfter _ 0 20 30 [] [10])|econstructor; [done|apply (DSRemove _ 0 10 [20; 30] [])
   |econstructor; [done|apply (DSSwap _ 0 1 [20; 30] [])|constructor]]]]];
    try (by simplify_map_eq); (split_and!; [done|by apply elem_of_dom|]);
    intros h l; rewrite ?lookup_insert; repeat case_decide; intros; simplify_map_eq; set_solver.
Defined.

(** ** Observations *)

Lemma dseg_size m c l e : dseg m c l e -> NoDup l -> (length l <= size (d_prev m))%nat.
Proof.
  intros Hs Hn. rewrite <- (size_list_to_set (C := gset Z) l Hn), <- size_dom. apply subseteq_size.
  intros x Hx. apply elem_of_dom. apply elem_of_list_to_set in Hx. by eapply dseg_lookup.
Qed.

Lemma walk_next m c l fuel :
  dseg m c l NULL -> (length l <= fuel)%nat -> walk (fun e => load (CNext e)) fuel (hd_or l NULL) m = Ok l.
Proof.
  induction l as [|x l IH] in c, fuel |- *; simpl; [by destruct fuel|]. intros (Hx & _ & _ & Hs) Hf.
  destruct fuel as [|fuel]; [lia|]. simpl. rewrite (proj2 (Z.eqb_neq x NULL) Hx).
  unfold load at 1. rewrite (dseg_head _ _ _ _ Hs). simpl. rewrite (IH (CNext x) fuel Hs) by lia. done.
Qed.

Lemma last_snoc_default (l : list ptr) x : default NULL (last (l ++ [x])) = x.
Proof. by rewrite last_snoc. Qed.

(** The cell an end cell is read as a head for: the last element, or NULL. *)
Lemma as_head_last_load Q m h l1 l2 :
  drepr FTailq Q m -> Q !! h = Some (l1 ++ l2) ->
  (let* c := as_head_last (end_cell (CFirst h) l1) m in load c m) = Ok (default NULL (last l1)).
Proof.
  intros Hr Hl. destruct (dr_seg _ _ _ Hr _ _ Hl) as [Hs _]. apply dseg_app in Hs as [H1 _].
  destruct l1 as [|x l1] using rev_ind; simpl.
  - unfold last_of. rewrite (dr_tail _ _ _ Hr _ _ eq_refl Hl). simpl.
    pose proof Hl as Hl'. rewrite <- (app_nil_r l2) in Hl'. destruct (place_facts _ _ _ _ l2 [] Hr Hl') as (P & _).
    unfold load. by rewrite P.
  - rewrite end_cell_app, last_snoc_default. simpl. apply dseg_app in H1 as [H0 (_ & Hc & Hp & _)].
    unfold prev_of, load. rewrite Hp. simpl. by rewrite Hc.
Qed.

Lemma walk_prev Q m h l1 l2 fuel :
  drepr FTailq Q m -> Q !! h = Some (l1 ++ l2) -> (length l1 <= fuel)%nat ->
  walk TAILQ_PREV fuel (default NULL (last l1)) m = Ok (reverse l1).
Proof.
  intros Hr. revert l2 fuel. induction l1 as [|x l1 IH] using rev_ind; intros l2 fuel Hl Hf; [by destruct fuel|].
  rewrite last_snoc_default, reverse_snoc. rewrite length_app in Hf. simpl in Hf. destruct fuel as [|fuel]; [lia|].
  rewrite <- app_assoc in Hl. simpl in Hl. destruct (dr_seg _ _ _ Hr _ _ Hl) as [Hs _].
  apply dseg_app in Hs as [_ (Hx & _ & Hp & _)]. simpl. rewrite (proj2 (Z.eqb_neq x NULL) Hx).
  unfold TAILQ_PREV at 1, prev_of. rewrite Hp. simpl. rewrite (as_head_last_load Q m h l1 (x :: l2) Hr Hl). simpl.
  by rewrite (IH (x :: l2) fuel Hl) by lia.
Qed.

Lemma walk_safe_removes k Q m h l fuel :
  elems_ok m -> drepr k Q m -> Q !! h = Some l -> (length l <= fuel)%nat ->
  exists m', walk_safe (fun e => load (CNext e)) (fun e => run_dl k (DRemove h e)) fuel (hd_or l NULL) m = Ok (l, m') /\
    drepr k (<[h:=[]]> Q) m'.
Proof.
  induction l as [|x l IH] in Q, m, fuel |- *; intros Hm Hr Hl Hf; simpl.
  - exists m. rewrite insert_id by done. by destruct fuel.
  - simpl in Hf. destruct fuel as [|fuel]; [lia|]. destruct (dr_seg _ _ _ Hr _ _ Hl) as [(Hx & _ & _ & Hs) _]. simpl.
    rewrite (proj2 (Z.eqb_neq x NULL) Hx). unfold load at 1. rewrite (dseg_head _ _ _ _ Hs). simpl.
    assert (Hp : provided k (DRemove h x) = true) by by destruct k.
    destruct (run_dl_refines k Q _ m _ Hm Hr Hp (DSRemove _ h x [] l Q Hl)) as (m1 & E1 & Hr1).
    rewrite E1. simpl. destruct (IH (<[h:=l]> Q) m1 fuel) as (m' & E' & Hr'); [| |by rewrite lookup_insert_eq|lia|].
    + eapply elems_ok_dom; [done|]. by eapply run_dl_dom.
    + exact Hr1.
    + rewrite E'. exists m'. split; [done|]. by rewrite insert_insert_eq in Hr'.
Qed.

Lemma walk_safe_removes_rev Q m h l fuel :
  elems_ok m -> drepr FTailq Q m -> Q !! h = Some l -> (length l <= fuel)%nat ->
  exists m', walk_safe TAILQ_PREV (TAILQ_REMOVE h) fuel (default NULL (last l)) m = Ok (reverse l, m') /\
    drepr FTailq (<[h:=[]]> Q) m'.
Proof.
  revert Q m fuel. induction l as [|x l IH] using rev_ind; intros Q m fuel Hm Hr Hl Hf.
  - exists m. rewrite insert_id by done. by destruct fuel.
  - rewrite last_snoc_default, reverse_snoc. rewrite length_app in Hf. simpl in Hf. destruct fuel as [|fuel]; [lia|].
    destruct (dr_seg _ _ _ Hr _ _ Hl) as [Hs _]. apply dseg_app in Hs as [_ (Hx & _ & Hp & _)]. simpl.
    rewrite (proj2 (Z.eqb_neq x NULL) Hx). unfold TAILQ_PREV at 1, prev_of. rewrite Hp. simpl.
    rewrite (as_head_last_load Q m h l [x] Hr Hl). simpl.
    destruct (run_dl_refines FTailq Q _ m (DRemove h x) Hm Hr eq_refl (DSRemove _ h x l [] Q Hl)) as (m1 & E1 & Hr1).
    simpl in E1. rewrite E1. simpl. rewrite app_nil_r in Hr1.
    destruct (IH (<[h:=l]> Q) m1 fuel) as (m' & E' & Hr'); [|done|by rewrite lookup_insert_eq|lia|].
    + eapply elems_ok_dom; [done|]. by apply (run_dl_dom FTailq (DRemove h x)).
    + rewrite E'. exists m'. split; [done|]. by rewrite insert_insert_eq in Hr'.
Qed.

(** What the read-only macros observe, and that elements may be removed while a list is
    walked: FIRST, EMPTY and FOREACH see the list; on a tail queue LAST is its last element
    and PREV the one before (NULL at the ends), although both read a list cell as if it
    were a head, and the reverse walk sees the reversed list; FOREACH_SAFE with a body
    that removes the element visits every element once and leaves the list empty, and so
    does the reverse one. *)
Theorem dlist_observations k Q m h l :
  elems_ok m -> drepr k Q m -> Q !! h = Some l ->
  LIST_FIRST h m = Ok (hd_or l NULL) /\ LIST_EMPTY h m = Ok (bool_decide (l = [])) /\ LIST_FOREACH h m = Ok l /\
  (k = FTailq -> TAILQ_LAST h m = Ok (default NULL (last l)) /\ TAILQ_FOREACH_REVERSE h m = Ok (reverse l) /\
     forall l1 x l2, l = l1 ++ x :: l2 -> TAILQ_PREV x m = Ok (default NULL (last l1))) /\
  (exists m', match k with
              | FList => LIST_FOREACH_SAFE LIST_REMOVE h m
              | FTailq => TAILQ_FOREACH_SAFE (TAILQ_REMOVE h) h m
              end = Ok (l, m') /\ drepr k (<[h:=[]]> Q) m') /\
  (k = FTailq -> exists m', TAILQ_FOREACH_REVERSE_SAFE (TAILQ_REMOVE h) h m = Ok (reverse l, m') /\
     drepr k (<[h:=[]]> Q) m').
Proof.
  intros Hm Hr Hl. destruct (dr_seg _ _ _ Hr _ _ Hl) as [Hs Hn]. pose proof (dseg_size _ _ _ _ Hs Hn) as Hsz.
  pose proof (dseg_head _ _ _ _ Hs) as Hh.
  assert (Hf : LIST_FIRST h m = Ok (hd_or l NULL)) by (unfold LIST_FIRST, load; by rewrite Hh).
  assert (Hlast : k = FTailq -> TAILQ_LAST h m = Ok (default NULL (last l))).
  { intros ->. pose proof Hl as Hl'. rewrite <- (app_nil_r l) in Hl'. unfold TAILQ_LAST, last_of.
    rewrite (dr_tail _ _ _ Hr _ _ eq_refl Hl). simpl. eapply as_head_last_load; eassumption. }
  split_and!; [done| | | | |].
  - unfold LIST_EMPTY, load. rewrite Hh. simpl. f_equal. destruct l as [|x l]; [done|]. simpl in Hs. rewrite (bool_decide_eq_false_2 _ (not_eq_sym (@nil_cons _ x l))). apply Z.eqb_neq, Hs.
  - unfold LIST_FOREACH. rewrite Hf. simpl. by eapply walk_next.
  - intros ->. pose proof Hl as Hl'. rewrite <- (app_nil_r l) in Hl'.
    pose proof (Hlast eq_refl) as E. split_and!; [done| |].
    + unfold TAILQ_FOREACH_REVERSE. rewrite E. simpl. by eapply walk_prev.
    + intros l1 x l2 ->. apply dseg_app in Hs as [_ (_ & _ & Hp & _)]. unfold TAILQ_PREV, prev_of. rewrite Hp. simpl.
      eapply as_head_last_load; eassumption.
  - destruct (walk_safe_removes k Q m h l (size (d_prev m)) Hm Hr Hl Hsz) as (m' & E & Hr'). exists m'. split; [|done].
    destruct k; unfold LIST_FOREACH_SAFE, TAILQ_FOREACH_SAFE, TAILQ_FIRST; [rewrite Hf|unfold LIST_FIRST in Hf; rewrite Hf]; exact E.
  - intros ->. unfold TAILQ_FOREACH_REVERSE_SAFE. rewrite (Hlast eq_refl). by apply walk_safe_removes_rev.
Qed.
