(* ===== verification/WitemCache.v ===== *)
(** * The work item cache (src/witem_cache.c)

    The three compile-time variants of [witem_alloc]/[witem_free]: plain malloc
    (type 1), a libumem object cache (type 2) and a per-thread free list kept in
    thread-specific data (type 3).  The class [WitemAllocator] states what the rest of
    the library relies on, "witem_alloc returns a properly initialized witem" that
    aliases no other live item, and each variant is an instance. *)

From stdpp Require Import base gmap list.
From Stdlib Require Import ZArith Lia.
From S2P Require Import Prelude Types.

(** ** The heap of work items and the system allocator *)

Abbreviation wheap := (gmap Z work).

(** The answers of the successive [malloc] (or [umem_cache_alloc]) calls: [None] is a
    failure, [Some (p, w)] a block at [p] with indeterminate contents [w]. *)
Abbreviation answers := (list (option (ptr * work))).

(** [while (!(witem = malloc(...))) sleep(1);] *)
Fixpoint malloc_loop (ans : answers) : outcome (ptr * work) :=
  match ans with
  | [] => Blocks
  | Some pw :: _ => Ok pw
  | None :: ans => (* sleep(1) *) malloc_loop ans
  end.

(** [p->field = v], as a function on the structure. *)
Definition upd (p : ptr) (f : work -> work) (h : wheap) : outcome wheap :=
  let* w := deref (h !! p) in Ok (<[p := f w]> h).

Definition sys_free (p : ptr) (h : wheap) : outcome wheap :=
  let* _ := deref (h !! p) in Ok (delete p h).

(** The system returns a block that is not in use. *)
Definition answers_ok (ans : answers) (owned : gset ptr) : Prop :=
  exists p w, malloc_loop ans = Ok (p, w) /\ p <> NULL /\ p ∉ owned.

(** ** What the library relies on *)

Class WitemAllocator (S : Type) := {
  wa_init : S;
  wa_alloc : Z -> Z -> Z -> answers -> S -> outcome (ptr * S);  (* thread, func, func_arg *)
  wa_free : Z -> ptr -> S -> outcome S;                          (* thread, item *)
  wa_cleanup : Z -> S -> outcome S;                              (* a thread exits *)
  wa_heap : S -> wheap;
  wa_inv : S -> gset ptr -> Prop                                 (* the items handed out *)
}.

Class WitemAllocatorLaws (S : Type) `{WitemAllocator S} := {
  wa_init_ok : wa_inv wa_init ∅;
  wa_live s live p : wa_inv s live -> p ∈ live -> p <> NULL /\ is_Some (wa_heap s !! p);
  wa_alloc_ok t f a ans s live :
    wa_inv s live -> answers_ok ans (dom (wa_heap s)) ->
    exists p s' w, wa_alloc t f a ans s = Ok (p, s') /\ (p ∉ live) /\
      wa_heap s' !! p = Some w /\ initialized_witem f a w /\
      wa_inv s' ({[p]} ∪ live) /\
      (forall q, q ∈ live -> wa_heap s' !! q = wa_heap s !! q);
  wa_free_ok t p s live :
    wa_inv s live -> p ∈ live ->
    exists s', wa_free t p s = Ok s' /\ wa_inv s' (live ∖ {[p]}) /\
      (forall q, q ∈ live -> q <> p -> wa_heap s' !! q = wa_heap s !! q);
  wa_cleanup_ok t s live :
    wa_inv s live ->
    exists s', wa_cleanup t s = Ok s' /\ wa_inv s' live /\
      (forall q, q ∈ live -> wa_heap s' !! q = wa_heap s !! q)
}.

(** ** Type 1: no cache *)
Module NoCache.

Definition witem_cache_init (h : wheap) : wheap := h.

Definition witem_alloc (f a : Z) (ans : answers) (h : wheap) : outcome (ptr * wheap) :=
  let* (witem, junk) := malloc_loop ans in
  let h := <[witem := junk]> h in
  let* h := upd witem (set_gencount 0) h in
  let* h := upd witem (set_flags 0) h in
  let* h := upd witem (set_stqe_next 0) h in
  let* h := upd witem (set_func f) h in
  let* h := upd witem (set_func_arg a) h in
  Ok (witem, h).

Definition witem_free (wi : ptr) (h : wheap) : outcome wheap := sys_free wi h.

Definition witem_cache_cleanup (value : ptr) (h : wheap) : outcome wheap := Ok h.

End NoCache.

(** ** Type 2: libumem

    [umem_cache_alloc] and [umem_cache_free] are library functions: they answer like
    [malloc] and take the block back like [free]; [witem_cache] is the cache created
    by [witem_cache_init]. *)
Module UmemCache.

Record ustate := UState { witem_cache : option Z; u_heap : wheap }.

(** [umem_cache_create("witem_cache", ...)] answers with the cache's descriptor. *)
Definition witem_cache_init (descr : Z) (s : ustate) : ustate := UState (Some descr) (u_heap s).

Definition witem_alloc (f a : Z) (ans : answers) (s : ustate) : outcome (ptr * ustate) :=
  let* _ := deref (witem_cache s) in
  let* (witem, junk) := malloc_loop ans in
  let h := <[witem := junk]> (u_heap s) in
  let* h := upd witem (set_gencount 0) h in
  let* h := upd witem (set_flags 0) h in
  let* h := upd witem (set_stqe_next 0) h in
  let* h := upd witem (set_func f) h in
  let* h := upd witem (set_func_arg a) h in
  Ok (witem, UState (witem_cache s) h).

Definition witem_free (wi : ptr) (s : ustate) : outcome ustate :=
  let* _ := deref (witem_cache s) in
  let* h := sys_free wi (u_heap s) in
  Ok (UState (witem_cache s) h).

Definition witem_cache_cleanup (value : ptr) (s : ustate) : outcome ustate := Ok s.

End UmemCache.

(** ** Type 3: a free list per thread *)
Module TsdCache.

Record tstate := TState { t_heap : wheap; t_key : gmap Z ptr }.

Definition pthread_getspecific (t : Z) (s : tstate) : ptr := default NULL (t_key s !! t).
Definition pthread_setspecific (t : Z) (v : ptr) (s : tstate) : tstate :=
  TState (t_heap s) (<[t := v]> (t_key s)).
Definition with_heap (s : tstate) (h : wheap) : tstate := TState h (t_key s).

(** [pthread_key_create]: the value is NULL in every thread. *)
Definition witem_cache_init (s : tstate) : tstate := TState (t_heap s) ∅.

Definition witem_alloc_from_heap (ans : answers) (s : tstate) : outcome (ptr * tstate) :=
  let* (witem, junk) := malloc_loop ans in
  let h := <[witem := junk]> (t_heap s) in
  let* h := upd witem (set_gencount 0) h in
  let* h := upd witem (set_flags 0) h in
  let* h := upd witem (set_stqe_next 0) h in
  Ok (witem, with_heap s h).

Definition witem_alloc (t f a : Z) (ans : answers) (s : tstate) : outcome (ptr * tstate) :=
  let witem := pthread_getspecific t s in
  let* (witem, s) :=
    (if negb (witem =? NULL) then
       let* w := deref (t_heap s !! witem) in
       Ok (witem, pthread_setspecific t (wi_next w) s)
     else witem_alloc_from_heap ans s) in
  let* h := upd witem (set_func f) (t_heap s) in
  let* h := upd witem (set_func_arg a) h in
  Ok (witem, with_heap s h).

Definition witem_free (t : Z) (witem : ptr) (s : tstate) : outcome tstate :=
  let prev_wi := pthread_getspecific t s in
  let* h := upd witem (set_wi_next prev_wi) (t_heap s) in
  let* h := upd witem (set_gencount 0) h in
  let* h := upd witem (set_flags 0) h in
  let* h := upd witem (set_stqe_next 0) h in
  let* h := upd witem (set_func NULL) h in
  let* h := upd witem (set_func_arg NULL) h in
  Ok (pthread_setspecific t witem (with_heap s h)).

(** [while ((wi = next_wi)) { next_wi = wi->wi_next; free(wi); }]: every turn frees a
    block, so the number of blocks bounds the turns. *)
Fixpoint cleanup_loop (fuel : nat) (next_wi : ptr) (h : wheap) : outcome wheap :=
  if next_wi =? NULL then Ok h
  else
    match fuel with
    | O => Faults
    | S fuel =>
        let* w := deref (h !! next_wi) in
        let* h := sys_free next_wi h in
        cleanup_loop fuel (wi_next w) h
    end.

Definition witem_cache_cleanup (value : ptr) (h : wheap) : outcome wheap :=
  cleanup_loop (size h) value h.

(** A thread exits: its value is reset to NULL and the destructor is called with the
    old one (pthread_key_create(3)). *)
Definition thread_exit (t : Z) (s : tstate) : outcome tstate :=
  let v := pthread_getspecific t s in
  if v =? NULL then Ok s
  else
    let* h := witem_cache_cleanup v (t_heap s) in
    Ok (TState h (<[t := NULL]> (t_key s))).

End TsdCache.

(** ** Instances *)

Lemma upd_lookup p f h w : h !! p = Some w -> upd p f h = Ok (<[p := f w]> h).
Proof. intros E. unfold upd. by rewrite E. Qed.

(** Runs a chain of field writes to a block that is there. *)
Ltac upd_run := repeat (erewrite upd_lookup by (simplify_map_eq; reflexivity); simpl);
  rewrite ?insert_insert_eq.

(** The blocks handed out are the blocks of the heap. *)
Definition heap_inv (h : wheap) (live : gset ptr) : Prop := dom h = live /\ NULL ∉ live.

Lemma heap_inv_live h live p : heap_inv h live -> p ∈ live -> p <> NULL /\ is_Some (h !! p).
Proof. intros [<- Hn] Hp. split; [set_solver|by apply elem_of_dom]. Qed.

Lemma heap_inv_insert h live p w :
  heap_inv h live -> p <> NULL -> heap_inv (<[p := w]> h) ({[p]} ∪ live).
Proof. intros [<- Hn] Hp. split; [by rewrite dom_insert_L|set_solver]. Qed.

Lemma heap_inv_delete h live p : heap_inv h live -> heap_inv (delete p h) (live ∖ {[p]}).
Proof. intros [<- Hn]. split; [by rewrite dom_delete_L|set_solver]. Qed.

Lemma sys_free_ok p h live :
  heap_inv h live -> p ∈ live -> sys_free p h = Ok (delete p h).
Proof. intros Hi Hp. destruct (heap_inv_live _ _ _ Hi Hp) as [_ [w E]]. unfold sys_free. by rewrite E. Qed.

#[export] Instance NoCache_ops : WitemAllocator wheap := {
  wa_init := NoCache.witem_cache_init ∅;
  wa_alloc _ f a ans h := NoCache.witem_alloc f a ans h;
  wa_free _ p h := NoCache.witem_free p h;
  wa_cleanup _ h := NoCache.witem_cache_cleanup NULL h;
  wa_heap h := h;
  wa_inv := heap_inv
}.

#[export] Instance NoCache_laws : WitemAllocatorLaws wheap.
Proof.
  split; simpl.
  - split; set_solver.
  - apply heap_inv_live.
  - intros _ f a ans h live Hi (p & w & Hm & Hp & Hno).
    unfold NoCache.witem_alloc. rewrite Hm. simpl. upd_run.
    do 3 eexists. split; [done|]. split; [by destruct Hi as [<- _]|].
    split; [by simplify_map_eq|]. split; [done|]. split; [by apply heap_inv_insert|].
    intros q Hq. rewrite lookup_insert_ne; [done|]. intros ->. by destruct Hi as [<- _].
  - intros _ p h live Hi Hp. unfold NoCache.witem_free. rewrite (sys_free_ok p h live) by done.
    eexists. split; [done|]. split; [by apply heap_inv_delete|].
    intros q _ Hne. by rewrite lookup_delete_ne.
  - intros _ h live Hi. by exists h.
Qed.

Module UmemInstance.
Import UmemCache.

#[export] Instance UmemCache_ops : WitemAllocator ustate := {
  wa_init := witem_cache_init 1 (UState None ∅);
  wa_alloc _ f a ans s := witem_alloc f a ans s;
  wa_free _ p s := witem_free p s;
  wa_cleanup _ s := witem_cache_cleanup NULL s;
  wa_heap := u_heap;
  wa_inv s live := is_Some (witem_cache s) /\ heap_inv (u_heap s) live
}.

#[export] Instance UmemCache_laws : WitemAllocatorLaws ustate.
Proof.
  split; simpl.
  - split; [by eexists|]. split; set_solver.
  - intros s live p [_ Hi]. by apply heap_inv_live.
  - intros _ f a ans [d h] live [[c Hc] Hi] (p & w & Hm & Hp & Hno). simpl in *.
    unfold witem_alloc. simpl. rewrite Hc, Hm. simpl. upd_run.
    do 3 eexists. split; [done|]. split; [by destruct Hi as [<- _]|]. simpl.
    split; [by simplify_map_eq|]. split; [done|]. split; [split; [by eexists|by apply heap_inv_insert]|].
    intros q Hq. rewrite lookup_insert_ne; [done|]. intros ->. by destruct Hi as [<- _].
  - intros _ p [d h] live [[c Hc] Hi] Hp. unfold witem_free. simpl in *.
    rewrite Hc. simpl. rewrite (sys_free_ok p h live) by done.
    eexists. split; [done|]. split; [split; [by eexists|by apply heap_inv_delete]|].
    intros q _ Hne. simpl. by rewrite lookup_delete_ne.
  - intros _ s live Hi. by exists s.
Qed.
End UmemInstance.

(** ** The free lists of type 3 *)
Module TsdInstance.
Import TsdCache.

(** An item on a free list carries the initial values the next user relies on. *)
Definition clean (w : work) : Prop := flags w = 0 /\ gencount w = 0 /\ stqe_next w = 0.

Definition first (l : list ptr) : ptr := match l with [] => NULL | x :: _ => x end.

Fixpoint chain (h : wheap) (l : list ptr) : Prop :=
  match l with
  | [] => True
  | x :: l' =>
      x <> NULL /\ (exists w, h !! x = Some w /\ wi_next w = first l' /\ clean w) /\ chain h l'
  end.

(** [C t] is thread [t]'s free list. *)
Record tsd_inv_with (C : Z -> list ptr) (s : tstate) (live : gset ptr) : Prop := {
  ti_key t : pthread_getspecific t s = first (C t);
  ti_chain t : chain (t_heap s) (C t);
  ti_nodup t : NoDup (C t);
  ti_free t x : x ∈ C t -> x ∉ live;
  ti_disj t t' x : x ∈ C t -> x ∈ C t' -> t = t';
  ti_live : live ⊆ dom (t_heap s);
  ti_null : NULL ∉ live
}.

Definition tsd_inv (s : tstate) (live : gset ptr) : Prop := exists C, tsd_inv_with C s live.

Lemma chain_frame h h' l : (forall x, x ∈ l -> h' !! x = h !! x) -> chain h l -> chain h' l.
Proof.
  induction l as [|x l IH]; simpl; [done|]. intros Hf (H1 & (w & H2 & H3) & H4).
  split_and!; [done| |apply IH; set_solver]. exists w. rewrite Hf by set_solver. done.
Qed.

Lemma chain_dom h l x : chain h l -> x ∈ l -> x <> NULL /\ is_Some (h !! x).
Proof.
  induction l as [|y l IH]; simpl; [set_solver|]. intros (H1 & (w & H2 & _) & H4) Hx.
  apply elem_of_cons in Hx as [->|Hx]; eauto.
Qed.

(** Replacing one thread's free list. *)
Definition upd_list (C : Z -> list ptr) (t : Z) (l : list ptr) (t' : Z) : list ptr :=
  if decide (t' = t) then l else C t'.

Lemma getspecific_set t t' v s :
  pthread_getspecific t' (pthread_setspecific t v s) =
  if decide (t' = t) then v else pthread_getspecific t' s.
Proof.
  unfold pthread_getspecific, pthread_setspecific. simpl. rewrite lookup_insert.
  repeat case_decide; by subst.
Qed.

Lemma chain_upd C h h' t l :
  (forall t', t' <> t -> forall x, x ∈ C t' -> h' !! x = h !! x) -> chain h' l ->
  (forall t', chain h (C t')) -> forall t', chain h' (upd_list C t l t').
Proof.
  intros Hf Hl HC t'. unfold upd_list. case_decide; [done|]. eapply chain_frame; [|apply HC]. eauto.
Qed.

Lemma chain_size h l : chain h l -> NoDup l -> (length l <= size h)%nat.
Proof.
  intros Hl Hnd. rewrite <- (size_list_to_set (C := gset Z) l Hnd), <- size_dom.
  apply subseteq_size. intros x Hx. apply elem_of_dom. apply elem_of_list_to_set in Hx.
  by eapply chain_dom.
Qed.

Lemma first_eqb h l : chain h l -> (first l =? NULL) = bool_decide (l = []).
Proof. destruct l; simpl; [done|]. intros (H & _). by apply Z.eqb_neq. Qed.

(** The destructor frees the free list, and nothing else. *)
Lemma cleanup_loop_spec l h fuel :
  chain h l -> NoDup l -> (length l <= fuel)%nat ->
  exists h', cleanup_loop fuel (first l) h = Ok h' /\
    forall q, h' !! q = if decide (q ∈ l) then None else h !! q.
Proof.
  revert h fuel. induction l as [|x l IH]; intros h fuel Hc Hnd Hf.
  - exists h. split; [by destruct fuel|]. intros q. by rewrite decide_False by set_solver.
  - destruct fuel as [|fuel]; simpl in *; [lia|]. destruct Hc as (Hx & (w & Hw & Hn & _) & Hc).
    apply NoDup_cons in Hnd as [Hxl Hnd].
    rewrite (proj2 (Z.eqb_neq x NULL)) by done. unfold sys_free. rewrite Hw. simpl. rewrite Hn.
    destruct (IH (delete x h) fuel) as (h' & E & Hh'); [|done|lia|].
    + eapply chain_frame; [|done]. intros y Hy. rewrite lookup_delete_ne; set_solver.
    + exists h'. split; [done|]. intros q. rewrite Hh', lookup_delete.
      repeat case_decide; set_solver.
Qed.

Lemma tsd_alloc_cached C t f a ans s live x l :
  tsd_inv_with C s live -> C t = x :: l ->
  exists s' w, witem_alloc t f a ans s = Ok (x, s') /\ (x ∉ live) /\
    t_heap s' !! x = Some w /\ initialized_witem f a w /\
    tsd_inv_with (upd_list C t l) s' ({[x]} ∪ live) /\
    (forall q, q <> x -> t_heap s' !! q = t_heap s !! q).
Proof.
  intros Hi Ht. pose proof (ti_chain _ _ _ Hi t) as Hc. rewrite Ht in Hc.
  destruct Hc as (Hx & (w & Hw & Hn & Hcl) & Hc).
  pose proof (ti_nodup _ _ _ Hi t) as Hnd. rewrite Ht in Hnd. apply NoDup_cons in Hnd as [Hxl Hnd].
  assert (Hxt : x ∈ C t) by (rewrite Ht; set_solver).
  unfold witem_alloc. rewrite (ti_key _ _ _ Hi), Ht. simpl.
  rewrite (proj2 (Z.eqb_neq x NULL)) by done. simpl. rewrite Hw. simpl. upd_run.
  do 2 eexists. split; [done|]. simpl. split; [by eapply ti_free|].
  split; [by simplify_map_eq|]. destruct Hcl as (? & ? & ?). split; [done|].
  split; [|intros; by rewrite lookup_insert_ne]. 
  split; simpl.
  - intros t'. unfold with_heap. change (pthread_getspecific t' (pthread_setspecific t (wi_next w) s) = first (upd_list C t l t')).
    rewrite getspecific_set. unfold upd_list. case_decide; [done|]. apply Hi.
  - apply (chain_upd C (t_heap s)); [|eapply chain_frame; [|done]|apply Hi].
    + intros t' Hne y Hy. rewrite lookup_insert_ne; [done|]. intros ->. apply Hne. by eapply ti_disj.
    + intros y Hy. rewrite lookup_insert_ne; set_solver.
  - intros t'. unfold upd_list. case_decide; [done|apply Hi].
  - intros t' y Hy. unfold upd_list in Hy. case_decide as E.
    + subst t'. pose proof (ti_free _ _ _ Hi t y). rewrite Ht in *. set_solver.
    + pose proof (ti_free _ _ _ Hi t' y Hy).
      assert (y <> x) by (intros ->; apply E; by eapply ti_disj). set_solver.
  - intros t1 t2 y HA HB. assert (Hsub : forall t', y ∈ upd_list C t l t' -> y ∈ C t').
    { intros t'. unfold upd_list. case_decide; [subst; rewrite Ht; set_solver|done]. }
    eapply ti_disj; eauto.
  - pose proof (ti_live _ _ _ Hi). rewrite dom_insert_L. set_solver.
  - pose proof (ti_null _ _ _ Hi). set_solver.
Qed.

Lemma tsd_alloc_fresh C t f a ans s live p w :
  tsd_inv_with C s live -> C t = [] -> malloc_loop ans = Ok (p, w) -> p <> NULL ->
  p ∉ dom (t_heap s) ->
  exists s' w', witem_alloc t f a ans s = Ok (p, s') /\ (p ∉ live) /\
    t_heap s' !! p = Some w' /\ initialized_witem f a w' /\
    tsd_inv_with C s' ({[p]} ∪ live) /\
    (forall q, q <> p -> t_heap s' !! q = t_heap s !! q).
Proof.
  intros Hi Ht Hm Hp Hno. unfold witem_alloc. rewrite (ti_key _ _ _ Hi), Ht. simpl.
  unfold witem_alloc_from_heap. rewrite Hm. simpl. upd_run.
  assert (HpC : forall t', p ∉ C t').
  { intros t' Hin. destruct (chain_dom _ _ _ (ti_chain _ _ _ Hi t') Hin) as [_ Hs].
    by apply elem_of_dom in Hs. }
  do 2 eexists. split; [done|]. simpl. pose proof (ti_live _ _ _ Hi) as Hl.
  split; [set_solver|]. split; [by simplify_map_eq|]. split; [done|].
  split; [|intros; by rewrite lookup_insert_ne].
  split; simpl; try apply Hi.
  - intros t'. eapply chain_frame; [|apply Hi]. intros y Hy. rewrite lookup_insert_ne; [done|].
    intros ->. by eapply HpC.
  - intros t' y Hy. pose proof (ti_free _ _ _ Hi t' y Hy).
    assert (y <> p) by (intros ->; by eapply HpC). set_solver.
  - rewrite dom_insert_L. set_solver.
  - pose proof (ti_null _ _ _ Hi). set_solver.
Qed.

Lemma tsd_free C t p s live :
  tsd_inv_with C s live -> p ∈ live ->
  exists s', witem_free t p s = Ok s' /\
    tsd_inv_with (upd_list C t (p :: C t)) s' (live ∖ {[p]}) /\
    (forall q, q <> p -> t_heap s' !! q = t_heap s !! q).
Proof.
  intros Hi Hp. pose proof (ti_live _ _ _ Hi) as Hl. pose proof (ti_null _ _ _ Hi) as Hnull.
  assert (Hpn : p <> NULL) by set_solver.
  assert (Hs : p ∈ dom (t_heap s)) by set_solver. apply elem_of_dom in Hs as [w Hw].
  assert (HpC : forall t', p ∉ C t') by (intros t' Hin; by eapply ti_free).
  unfold witem_free. upd_run. eexists. split; [done|]. split; [|intros; simpl; by rewrite lookup_insert_ne].
  split; simpl.
  - intros t'. rewrite getspecific_set. unfold upd_list. case_decide; [done|]. apply Hi.
  - apply (chain_upd C (t_heap s)); [|simpl; simplify_map_eq; split_and!; [done| |]|apply Hi].
    + intros t' Hne y Hy. rewrite lookup_insert_ne; [done|]. intros ->. by eapply HpC.
    + eexists. split; [done|]. split; [|done]. simpl. apply Hi.
    + eapply chain_frame; [|apply Hi]. intros y Hy. rewrite lookup_insert_ne; [done|].
      intros ->. by eapply HpC.
  - intros t'. unfold upd_list. case_decide; [|apply Hi]. apply NoDup_cons. split; [apply HpC|apply Hi].
  - intros t' y Hy. unfold upd_list in Hy. pose proof (ti_free _ _ _ Hi t' y).
    case_decide; subst; set_solver.
  - intros t1 t2 y. unfold upd_list. pose proof (ti_disj _ _ _ Hi t1 t2 y) as Hd.
    pose proof (HpC t1). pose proof (HpC t2).
    repeat case_decide; subst; rewrite ?elem_of_cons; intros; destruct_or?; subst; try done; auto.
  - rewrite dom_insert_L. set_solver.
  - set_solver.
Qed.

Lemma tsd_exit C t s live :
  tsd_inv_with C s live ->
  exists s', thread_exit t s = Ok s' /\ tsd_inv_with (upd_list C t []) s' live /\
    dom (t_heap s') = dom (t_heap s) ∖ list_to_set (C t) /\
    (forall q, q ∉ C t -> t_heap s' !! q = t_heap s !! q).
Proof.
  intros Hi. unfold thread_exit. rewrite (ti_key _ _ _ Hi), (first_eqb (t_heap s)) by apply Hi.
  case_bool_decide as E.
  - exists s. split; [done|]. rewrite E. split; [|split; [set_solver|done]].
    assert (HC : forall t', upd_list C t [] t' = C t')
      by (intros t'; unfold upd_list; case_decide; by subst).
    split; intros; rewrite ?HC in *; try (by apply Hi); [by eapply ti_free|by eapply ti_disj].
  - unfold witem_cache_cleanup.
    destruct (cleanup_loop_spec (C t) (t_heap s) (size (t_heap s))) as (h' & -> & Hh');
      [apply Hi|apply Hi|by apply chain_size; apply Hi|].
    eexists. split; [done|]. simpl. split; [|split].
    + split; simpl.
      * intros t'. change (TState h' _) with (with_heap (pthread_setspecific t NULL s) h').
        unfold with_heap. change (pthread_getspecific t' (pthread_setspecific t NULL s) = first (upd_list C t [] t')).
        rewrite getspecific_set. unfold upd_list. case_decide; [done|]. apply Hi.
      * apply (chain_upd C (t_heap s)); [|done|apply Hi]. intros t' Hne y Hy.
        rewrite Hh', decide_False; [done|]. intros Hy'. apply Hne. by eapply ti_disj.
      * intros t'. unfold upd_list. case_decide; [constructor|apply Hi].
      * intros t' y. unfold upd_list. case_decide; [set_solver|apply Hi].
      * intros t1 t2 y. unfold upd_list. pose proof (ti_disj _ _ _ Hi t1 t2 y).
        repeat case_decide; set_solver.
      * intros y Hy. apply elem_of_dom. rewrite Hh', decide_False.
        -- apply elem_of_dom. by apply (ti_live _ _ _ Hi).
        -- intros Hin. by eapply ti_free.
      * apply Hi.
    + apply set_eq. intros q. rewrite elem_of_difference, elem_of_list_to_set, !elem_of_dom, Hh'.
      case_decide; [split; [by intros [??]|tauto]|tauto].
    + intros q Hq. by rewrite Hh', decide_False.
Qed.

#[export] Instance TsdCache_ops : WitemAllocator tstate := {
  wa_init := witem_cache_init (TState ∅ ∅);
  wa_alloc := witem_alloc;
  wa_free := witem_free;
  wa_cleanup := thread_exit;
  wa_heap := t_heap;
  wa_inv := tsd_inv
}.

#[export] Instance TsdCache_laws : WitemAllocatorLaws tstate.
Proof.
  split; simpl.
  - exists (fun _ => []). split; simpl; intros; first [done|apply NoDup_nil_2|set_solver].
  - intros s live p [C Hi] Hp. pose proof (ti_live _ _ _ Hi). pose proof (ti_null _ _ _ Hi).
    split; [set_solver|]. apply elem_of_dom. set_solver.
  - intros t f a ans s live [C Hi] (p & w & Hm & Hp & Hno).
    destruct (C t) as [|x l] eqn:Ht.
    + destruct (tsd_alloc_fresh C t f a ans s live p w) as (s' & w' & ? & Hpl & ? & ? & ? & Hfr); [done..|].
      exists p, s', w'. split_and!; try done; [by exists C|]. intros q Hq. apply Hfr. set_solver.
    + destruct (tsd_alloc_cached C t f a ans s live x l) as (s' & w' & ? & Hpl & ? & ? & ? & Hfr); [done..|].
      exists x, s', w'. split_and!; try done; [by eexists|]. intros q Hq. apply Hfr. set_solver.
  - intros t p s live [C Hi] Hp. destruct (tsd_free C t p s live) as (s' & ? & ? & ?); [done..|].
    exists s'. split_and!; try done; [by eexists|]. auto.
  - intros t s live [C Hi]. destruct (tsd_exit C t s live Hi) as (s' & ? & ? & _ & Hfr).
    exists s'. split_and!; try done; [by eexists|]. intros q Hq. apply Hfr. intros Hin.
    by apply (ti_free _ _ _ Hi t q).
Qed.
End TsdInstance.

(** ** Clients of the interface *)

Inductive wop :=
| WAlloc (t f a : Z) (ans : answers)
| WFree (t : Z) (k : nat)     (* give back the k-th item handed out *)
| WExit (t : Z).

Section Client.
Context {St : Type} `{WitemAllocatorLaws St}.

(** A client program: [live] are the items handed out and not given back, with the
    arguments they were requested with. *)
Fixpoint wa_run (ops : list wop) (s : St) (live : list (ptr * (Z * Z)))
  : outcome (St * list (ptr * (Z * Z))) :=
  match ops with
  | [] => Ok (s, live)
  | WAlloc t f a ans :: ops =>
      let* (p, s) := wa_alloc t f a ans s in wa_run ops s ((p, (f, a)) :: live)
  | WFree t k :: ops =>
      match live !! k with
      | None => wa_run ops s live
      | Some (p, _) => let* s := wa_free t p s in wa_run ops s (delete k live)
      end
  | WExit t :: ops => let* s := wa_cleanup t s in wa_run ops s live
  end.

(** The system allocator answers every request, eventually and with a fresh block. *)
Fixpoint answers_fit (ops : list wop) (s : St) (live : list (ptr * (Z * Z))) : Prop :=
  match ops with
  | [] => True
  | WAlloc t f a ans :: ops =>
      answers_ok ans (dom (wa_heap s)) /\
      forall p s', wa_alloc t f a ans s = Ok (p, s') -> answers_fit ops s' ((p, (f, a)) :: live)
  | WFree t k :: ops =>
      match live !! k with
      | None => answers_fit ops s live
      | Some (p, _) => forall s', wa_free t p s = Ok s' -> answers_fit ops s' (delete k live)
      end
  | WExit t :: ops => forall s', wa_cleanup t s = Ok s' -> answers_fit ops s' live
  end.

(** No two items handed out are the same block, and each still holds what its owner
    asked for. *)
Definition client_ok (s : St) (live : list (ptr * (Z * Z))) : Prop :=
  NoDup live.*1 /\ wa_inv s (list_to_set live.*1) /\
  forall p f a, (p, (f, a)) ∈ live -> exists w, wa_heap s !! p = Some w /\ initialized_witem f a w.

Lemma delete_fst_set (live : list (ptr * (Z * Z))) k p fa :
  NoDup live.*1 -> live !! k = Some (p, fa) ->
  NoDup (delete k live).*1 /\
  (list_to_set (delete k live).*1 : gset ptr) = list_to_set live.*1 ∖ {[p]} /\
  forall q ga, (q, ga) ∈ delete k live -> (q, ga) ∈ live /\ q <> p.
Proof.
  intros Hnd Hk.
  assert (exists l1 l2, live = l1 ++ (p, fa) :: l2 /\ k = length l1) as (l1 & l2 & -> & ->).
  { exists (take k live), (drop (S k) live). split; [by rewrite take_drop_middle|].
    rewrite length_take_le; [done|]. apply lookup_lt_Some in Hk. lia. }
  rewrite !delete_middle.
  rewrite fmap_app, fmap_cons in Hnd. simpl in Hnd.
  apply NoDup_app in Hnd as (N1 & Hd & [Hp N2]%NoDup_cons).
  assert (Hp1 : p ∉ l1.*1) by (intros Hin; apply (Hd p Hin); set_solver).
  rewrite !fmap_app, fmap_cons. simpl. split_and!.
  - apply NoDup_app. split_and!; [done| |done]. intros x Hx Hx'. apply (Hd x Hx). set_solver.
  - rewrite !list_to_set_app_L, list_to_set_cons. apply set_eq. intros x.
    rewrite !elem_of_difference, !elem_of_union, !elem_of_list_to_set, elem_of_singleton.
    set_solver.
  - intros q ga Hq. split; [set_solver|]. intros ->.
    apply elem_of_app in Hq as [Hq|Hq]; [apply Hp1|apply Hp];
      apply list_elem_of_fmap; by exists (p, ga).
Qed.

Lemma client_step_free t k p fa s live :
  client_ok s live -> live !! k = Some (p, fa) ->
  exists s', wa_free t p s = Ok s' /\ client_ok s' (delete k live).
Proof.
  intros (Hnd & Hi & Hw) Hk.
  assert (Hp : p ∈ (list_to_set live.*1 : gset ptr)).
  { apply elem_of_list_to_set, list_elem_of_fmap. exists (p, fa). split; [done|].
    by eapply list_elem_of_lookup_2. }
  destruct (wa_free_ok t p s _ Hi Hp) as (s' & E & Hi' & Hfr).
  destruct (delete_fst_set live k p fa Hnd Hk) as (Hnd' & Hset & Hin).
  exists s'. split; [done|]. split; [done|]. split; [by rewrite Hset|].
  intros q f a Hq. destruct (Hin _ _ Hq) as [Hq' Hne]. rewrite Hfr; [by apply Hw| |done].
  apply elem_of_list_to_set, list_elem_of_fmap. by exists (q, (f, a)).
Qed.

Lemma client_program_ok ops s live :
  client_ok s live -> answers_fit ops s live ->
  exists s' live', wa_run ops s live = Ok (s', live') /\ client_ok s' live'.
Proof.
  revert s live. induction ops as [|o ops IH]; intros s live Hc Hfit; [by exists s, live|].
  destruct o as [t f a ans|t k|t]; simpl in *.
  - destruct Hfit as [Hans Hfit]. pose proof Hc as (Hnd & Hi & Hw).
    destruct (wa_alloc_ok t f a ans s _ Hi Hans) as (p & s1 & w & E & Hp & Hpw & Hw1 & Hi1 & Hfr).
    rewrite E. simpl. apply IH; [|by apply Hfit]. split; [|split].
    + simpl. apply NoDup_cons. split; [by rewrite elem_of_list_to_set in Hp|done].
    + done.
    + intros q g b [Heq|Hq]%elem_of_cons; [simplify_eq; by exists w|].
      rewrite Hfr; [by apply Hw|]. apply elem_of_list_to_set, list_elem_of_fmap. by exists (q, (g, b)).
  - destruct (live !! k) as [[p fa]|] eqn:Hk; [|by apply IH].
    destruct (client_step_free t k p fa s live Hc Hk) as (s1 & E & Hc1).
    rewrite E. simpl. apply IH; [done|by apply Hfit].
  - pose proof Hc as (Hnd & Hi & Hw). destruct (wa_cleanup_ok t s _ Hi) as (s1 & E & Hi1 & Hfr).
    rewrite E. simpl. apply IH; [|by apply Hfit]. split; [done|]. split; [done|].
    intros q f a Hq. rewrite Hfr; [by apply Hw|].
    apply elem_of_list_to_set, list_elem_of_fmap. by exists (q, (f, a)).
Qed.

(** The program runs from the initialised cache to its end; no two items it still has are
    the same block, and each holds what was asked for. *)
Definition program_ok (ops : list wop) : Prop :=
  exists s' live', wa_run ops (wa_init : St) [] = Ok (s', live') /\ NoDup live'.*1 /\
    forall p f a, (p, (f, a)) ∈ live' -> exists w, wa_heap s' !! p = Some w /\ initialized_witem f a w.

Lemma program_runs ops : answers_fit ops (wa_init : St) [] -> program_ok ops.
Proof.
  intros Hfit. destruct (client_program_ok ops wa_init []) as (s' & live' & E & Hnd & _ & Hw); [|done|].
  - split; [constructor|]. split; [apply wa_init_ok|set_solver].
  - by exists s', live'.
Qed.
End Client.

(** C29.  In each of the three variants of the cache (malloc, libumem, free lists per
    thread), from its initialisation on: a program of [witem_alloc], [witem_free] and
    thread exits never faults (no double free, no access to a freed block) as long as the
    system allocator eventually answers with fresh blocks, no two work items handed out at
    the same time are the same block, and every item still holds the callback, argument
    and zeroed bookkeeping fields it was allocated with. *)
Theorem witem_program_safe ops :
  (answers_fit (H := NoCache_ops) ops (@wa_init _ NoCache_ops) [] -> program_ok (H := NoCache_ops) ops) /\
  (answers_fit (H := UmemInstance.UmemCache_ops) ops (@wa_init _ UmemInstance.UmemCache_ops) [] -> program_ok (H := UmemInstance.UmemCache_ops) ops) /\
  (answers_fit (H := TsdInstance.TsdCache_ops) ops (@wa_init _ TsdInstance.TsdCache_ops) [] -> program_ok (H := TsdInstance.TsdCache_ops) ops).
Proof.
  split_and!; [apply (program_runs (H0 := NoCache_laws))|apply (program_runs (H0 := UmemInstance.UmemCache_laws))|
               apply (program_runs (H0 := TsdInstance.TsdCache_laws))].
Qed.

Definition junk : work := Work 11 12 13 14 15 16.
Definition ex_ops : list wop :=
  [WAlloc 1 7 8 [None; Some (100, junk)]; WFree 2 0; WAlloc 2 9 10 [Some (200, junk)]; WExit 2].

(** Runs the program as far as the next answer of the system. *)
Ltac fit_step := let E := fresh in intros ? ? E; vm_compute in E; injection E as <- <-; simpl.
Ltac fit_state := let E := fresh in intros ? E; vm_compute in E; injection E as <-; simpl.
Ltac fit_answer p := exists p, junk; split_and!; [done|done|let H := fresh in intros H; apply elem_of_dom in H as [? ?]; done].

Lemma witem_program_safe_witness :
  program_ok (H := NoCache_ops) ex_ops /\ program_ok (H := UmemInstance.UmemCache_ops) ex_ops /\
  program_ok (H := TsdInstance.TsdCache_ops) ex_ops.
Proof.
  destruct (witem_program_safe ex_ops) as (H1 & H2 & H3).
  split; [apply H1|split; [apply H2|apply H3]];
    (split; [fit_answer 100|fit_step; fit_state; split; [fit_answer 200|fit_step; fit_state; done]]).
Defined.

(** The per-thread free list (type 3) is a stack: an item given back by a thread is
    the next one that thread gets, with the new callback and argument in it and without
    a call to malloc (no answer of the allocator is used), and the thread's free list is
    back to what it was before. *)
Theorem tsd_free_alloc_roundtrip t p f a s live :
  TsdInstance.tsd_inv s live -> p ∈ live ->
  exists s1 s2 w, TsdCache.witem_free t p s = Ok s1 /\ TsdCache.witem_alloc t f a [] s1 = Ok (p, s2) /\
    TsdCache.t_heap s2 !! p = Some w /\ initialized_witem f a w /\
    TsdCache.pthread_getspecific t s2 = TsdCache.pthread_getspecific t s /\
    (forall q, q <> p -> TsdCache.t_heap s2 !! q = TsdCache.t_heap s !! q).
Proof.
  intros [C Hi] Hp. destruct (TsdInstance.tsd_free C t p s live Hi Hp) as (s1 & E1 & Hi1 & Hf1).
  destruct (TsdInstance.tsd_alloc_cached _ t f a [] s1 (live ∖ {[p]}) p (C t) Hi1)
    as (s2 & w & E2 & _ & Hw & Hwi & Hi2 & Hf2).
  { unfold TsdInstance.upd_list. by rewrite decide_True. }
  exists s1, s2, w. split_and!; try done.
  - rewrite (TsdInstance.ti_key _ _ _ Hi2), (TsdInstance.ti_key _ _ _ Hi).
    unfold TsdInstance.upd_list. by rewrite decide_True.
  - intros q Hq. by rewrite Hf2, Hf1.
Qed.

Definition ex_tsd : TsdCache.tstate := TsdCache.TState {[100 := junk]} ∅.

Lemma tsd_free_alloc_roundtrip_witness :
  TsdInstance.tsd_inv ex_tsd {[100]} /\
  exists s1 s2 w, TsdCache.witem_free 3 100 ex_tsd = Ok s1 /\
    TsdCache.witem_alloc 3 5 6 [] s1 = Ok (100, s2) /\
    TsdCache.t_heap s2 !! 100 = Some w /\ initialized_witem 5 6 w /\
    TsdCache.pthread_getspecific 3 s2 = TsdCache.pthread_getspecific 3 ex_tsd /\
    (forall q, q <> 100 -> TsdCache.t_heap s2 !! q = TsdCache.t_heap ex_tsd !! q).
Proof.
  assert (H : TsdInstance.tsd_inv ex_tsd {[100]}).
  { exists (fun _ => []). split; simpl; intros; first [done|apply NoDup_nil_2|set_solver]. }
  split; [exact H|]. apply (tsd_free_alloc_roundtrip 3 100 5 6 ex_tsd {[100]} H). set_solver.
Defined.

(** When a thread exits, the destructor of type 3 terminates and frees exactly the
    items of that thread's free list: every item handed out and every other thread's
    free list survive. *)
Theorem tsd_exit_frees_own_list C t s live :
  TsdInstance.tsd_inv_with C s live ->
  exists s', TsdCache.thread_exit t s = Ok s' /\
    dom (TsdCache.t_heap s') = dom (TsdCache.t_heap s) ∖ list_to_set (C t) /\
    (forall q, q ∉ C t -> TsdCache.t_heap s' !! q = TsdCache.t_heap s !! q) /\
    TsdInstance.tsd_inv_with (TsdInstance.upd_list C t []) s' live.
Proof.
  intros Hi. destruct (TsdInstance.tsd_exit C t s live Hi) as (s' & ? & ? & ? & ?). by exists s'.
Qed.

(** Thread 3 has freed items 100 and 200, item 300 is in use. *)
Definition ex_tsd2 : TsdCache.tstate :=
  TsdCache.TState (<[100 := Work 0 0 0 0 0 200]> (<[200 := Work 0 0 0 0 0 0]> {[300 := junk]}))
    {[3 := 100]}.

Lemma tsd_exit_frees_own_list_witness :
  TsdInstance.tsd_inv_with (fun t => if decide (t = 3) then [100; 200] else []) ex_tsd2 {[300]} /\
  exists s', TsdCache.thread_exit 3 ex_tsd2 = Ok s' /\ TsdCache.t_heap s' !! 300 = Some junk.
Proof.
  assert (H : TsdInstance.tsd_inv_with (fun t => if decide (t = 3) then [100; 200] else []) ex_tsd2 {[300]}).
  { split; simpl.
    - intros t. case_decide; [by subst|]. unfold TsdCache.pthread_getspecific. simpl.
      by rewrite lookup_singleton_ne.
    - intros t. case_decide; [|done]. simpl.
      split_and!; try done; eexists; (split; [reflexivity|]); done.
    - intros t. case_decide; [|constructor]. repeat constructor; set_solver.
    - intros t x. case_decide; set_solver.
    - intros t t' x. repeat case_decide; set_solver.
    - set_solver.
    - set_solver. }
  split; [exact H|].
  destruct (tsd_exit_frees_own_list _ 3 ex_tsd2 {[300]} H) as (s' & E & _ & Hfr & _).
  exists s'. split; [exact E|]. rewrite Hfr; [done|]. simpl. set_solver.
Defined.
