(* ===== verification/Places.v ===== *)
(** * Where the work items are

    An item that the allocator has handed out is on one queue or in the hands of one
    thread.  Lifecycle.v (calls one after another) and PoolMem.v (interleaved steps) share
    this account and the frame of the queues' memory. *)

From stdpp Require Import base gmap list.
From Stdlib Require Import ZArith Lia.
From S2P Require Import Prelude Types Stailq.

(** ** Maps of threads *)

(** A new value, or none, for one key. *)
Definition set_thr {B} (t : nat) (o : option B) (m : gmap nat B) : gmap nat B := partial_alter (fun _ => o) t m.

Lemma set_thr_lookup {B} t (o : option B) m t' : set_thr t o m !! t' = if decide (t' = t) then o else m !! t'.
Proof.
  unfold set_thr. case_decide; [subst; apply lookup_partial_alter_eq|by apply lookup_partial_alter_ne].
Qed.

Lemma set_thr_same {B} t (o : option B) m : m !! t = o -> set_thr t o m = m.
Proof. intros Ht. apply map_eq. intros t'. rewrite set_thr_lookup. case_decide; [by subst|done]. Qed.

Lemma omap_set_thr {B C} (f : B -> option C) t o m : omap f (set_thr t o m) = set_thr t (o ≫= f) (omap f m).
Proof. apply map_eq. intros t'. rewrite lookup_omap, !set_thr_lookup, lookup_omap. by case_decide. Qed.

Lemma hold_lookup {B C} (f : B -> option C) (m : gmap nat B) t th : m !! t = Some th -> omap f m !! t = f th.
Proof. intros Ht. by rewrite lookup_omap, Ht. Qed.

Lemma threads_size {B} (m : gmap nat B) : msum (fun _ => 1) m = Z.of_nat (size m).
Proof.
  induction m as [|t x m Ht IH] using map_ind; [by rewrite msum_empty, map_size_empty|].
  rewrite msum_insert_new, map_size_insert_None, IH by done. lia.
Qed.

(** Fewer keys, fewer threads. *)
Lemma threads_le {B C} (m : gmap nat B) (m' : gmap nat C) :
  (forall t, is_Some (m !! t) -> is_Some (m' !! t)) -> msum (fun _ => 1) m <= msum (fun _ => 1) m'.
Proof.
  intros Hm. rewrite !threads_size, <- !size_dom. assert (dom m ⊆ dom m') as Hd%subseteq_size; [|lia].
  intros t Ht%elem_of_dom. by apply elem_of_dom, Hm.
Qed.

(** ** Queues, holders and live items *)

Record placed {K} `{Countable K} (Q : gmap Z (list ptr)) (hold : gmap K ptr) (live : gset ptr) : Prop := {
  pl_live e : e ∈ live <-> (exists p l, Q !! p = Some l /\ e ∈ l) \/ (exists t, hold !! t = Some e);
  pl_held t e p l : hold !! t = Some e -> Q !! p = Some l -> e ∉ l;
  pl_once t t' e : hold !! t = Some e -> hold !! t' = Some e -> t = t'
}.

Section Placed.
Context {K : Type} `{Countable K}.
Implicit Types (Q : gmap Z (list ptr)) (hold : gmap K ptr) (live : gset ptr).

Lemma placed_queued Q hold live p l e : placed Q hold live -> Q !! p = Some l -> e ∈ l -> e ∈ live.
Proof. intros Hpl Hp He. apply (pl_live _ _ _ Hpl). left. eauto. Qed.
Lemma placed_holding Q hold live t e : placed Q hold live -> hold !! t = Some e -> e ∈ live.
Proof. intros Hpl Ht. apply (pl_live _ _ _ Hpl). right. eauto. Qed.

(** A new item in the hands of a thread. *)
Lemma placed_add_hold Q hold live t e :
  placed Q hold live -> e ∉ live -> hold !! t = None -> placed Q (<[t := e]> hold) ({[e]} ∪ live).
Proof.
  intros Hpl Hn Ht. pose proof Hpl as [Hl Hh Ho]. split.
  - intros e'. rewrite elem_of_union, elem_of_singleton, Hl. split.
    + intros [->|[Hq|(t' & Ht')]]; [right; exists t; apply lookup_insert_eq|by left|].
      right. exists t'. rewrite lookup_insert_ne; [done|]. intros ->. congruence.
    + intros [Hq|(t' & [[<- <-]|[_ Ht']]%lookup_insert_Some)]; [by right; left|by left|right; right; eauto].
  - intros t' e' p l [[<- <-]|[_ Ht']]%lookup_insert_Some Hp; [|by eapply Hh].
    intros Hin. apply Hn. by eapply placed_queued.
  - intros t1 t2 e' [[<- <-]|[_ H1]]%lookup_insert_Some [[<- E]|[_ H2]]%lookup_insert_Some; [done| | |by eapply Ho].
    + exfalso. apply Hn. by eapply placed_holding.
    + subst e'. exfalso. apply Hn. by eapply placed_holding.
Qed.

(** A new item at the end of a queue. *)
Lemma placed_add_queue Q hold live p l e :
  placed Q hold live -> e ∉ live -> Q !! p = Some l -> placed (<[p := l ++ [e]]> Q) hold ({[e]} ∪ live).
Proof.
  intros Hpl Hn Hp. pose proof Hpl as [Hl Hh Ho]. split; [| |done].
  - intros e'. rewrite elem_of_union, elem_of_singleton, Hl. split.
    + intros [->|[(p' & l' & Hp' & He')|Ht]]; [left|left|by right].
      * exists p, (l ++ [e]). split; [apply lookup_insert_eq|]. set_solver.
      * destruct (decide (p' = p)) as [->|Hne]; [simplify_eq|exists p', l'; by rewrite lookup_insert_ne].
        exists p, (l ++ [e]). split; [apply lookup_insert_eq|]. set_solver.
    + intros [(p' & l' & [[<- <-]|[Hne Hp']]%lookup_insert_Some & He')|Ht]; [|right; left; eauto|eauto].
      apply elem_of_app in He' as [He'|He']; [right; left; eauto|left; set_solver].
  - intros t e' p' l' Ht [[<- <-]|[Hne Hp']]%lookup_insert_Some; [|by eapply Hh].
    rewrite elem_of_app, list_elem_of_singleton. intros [Hin | ->]; [by eapply (Hh t e' p l)|].
    apply Hn. by eapply placed_holding.
Qed.

(** The item in the hands of a thread is gone. *)
Lemma placed_drop_hold Q hold live t e :
  placed Q hold live -> hold !! t = Some e -> placed Q (delete t hold) (live ∖ {[e]}).
Proof.
  intros Hpl Ht. pose proof Hpl as [Hl Hh Ho]. split.
  - intros e'. rewrite elem_of_difference, Hl, elem_of_singleton. split.
    + intros [[Hin|(t' & Ht')] Hne]; [by left|right]. exists t'. rewrite lookup_delete_ne; [done|]. intros ->. congruence.
    + intros [(p & l & Hp & Hin)|(t' & [Hne Ht']%lookup_delete_Some)].
      * split; [left; eauto|]. intros ->. by eapply Hh.
      * split; [right; eauto|]. intros ->. apply Hne. by eapply Ho.
  - intros t' e' p l [_ Ht']%lookup_delete_Some. by eapply Hh.
  - intros t1 t2 e' [_ H1]%lookup_delete_Some [_ H2]%lookup_delete_Some. by eapply Ho.
Qed.

(** No item is on two queues, or twice on one. *)
Definition disjoint_queues Q : Prop :=
  (forall p l, Q !! p = Some l -> NoDup l) /\
  (forall p1 p2 l1 l2 x, Q !! p1 = Some l1 -> Q !! p2 = Some l2 -> x ∈ l1 -> x ∈ l2 -> p1 = p2).

Lemma repr_disjoint Q m : queues_repr Q m -> disjoint_queues Q.
Proof. intros [H1 H2]. split; [|done]. intros p l Hp. by destruct (H1 p l Hp) as (_ & _ & _ & ?). Qed.

(** The first item of a queue is gone. *)
Lemma placed_drop_queue Q hold live p e l :
  placed Q hold live -> disjoint_queues Q -> Q !! p = Some (e :: l) ->
  placed (<[p := l]> Q) hold (live ∖ {[e]}).
Proof.
  intros Hpl [Hnd Hdj] Hp. pose proof Hpl as [Hl Hh Ho]. pose proof (Hnd p _ Hp) as [Hel _]%NoDup_cons. split; [| |done].
  - intros e'. rewrite elem_of_difference, Hl, elem_of_singleton. split.
    + intros [[(p' & l' & Hp' & Hin)|Ht] Hne]; [left|by right].
      destruct (decide (p' = p)) as [->|Hnp]; [|exists p', l'; by rewrite lookup_insert_ne].
      simplify_eq. exists p, l. rewrite lookup_insert_eq. split; [done|]. set_solver.
    + intros [(p' & l' & [[<- <-]|[Hnp Hp']]%lookup_insert_Some & Hin)|(t & Ht)].
      * split; [left; exists p, (e :: l); split; [done|by right]|]. by intros ->.
      * split; [left; eauto|]. intros ->. apply Hnp. eapply (Hdj p p'); [done|done| |done]. set_solver.
      * split; [right; eauto|]. intros ->. eapply (Hh t e p); [done|done|set_solver].
  - intros t e' p' l' Ht [[<- <-]|[_ Hp']]%lookup_insert_Some; [|by eapply Hh].
    intros Hin. eapply (Hh t e' p); [done|done|by right].
Qed.

Lemma live_again live (e : ptr) : e ∈ live -> {[e]} ∪ live ∖ {[e]} = live.
Proof. intros He. apply set_eq. intros x. destruct (decide (x = e)); set_solver. Qed.

(** From the hands of a thread to the end of a queue. *)
Lemma placed_push Q hold live t p l e :
  placed Q hold live -> hold !! t = Some e -> Q !! p = Some l ->
  placed (<[p := l ++ [e]]> Q) (delete t hold) live.
Proof.
  intros Hpl Ht Hp. rewrite <- (live_again live e) by (by eapply placed_holding).
  apply placed_add_queue; [by apply placed_drop_hold|set_solver|done].
Qed.

(** From the front of a queue into the hands of a thread. *)
Lemma placed_pop Q hold live t p l e :
  placed Q hold live -> disjoint_queues Q -> Q !! p = Some (e :: l) -> hold !! t = None ->
  placed (<[p := l]> Q) (<[t := e]> hold) live.
Proof.
  intros Hpl Hd Hp Ht. rewrite <- (live_again live e) by (eapply placed_queued; [done|done|by left]).
  apply placed_add_hold; [by apply placed_drop_queue|set_solver|done].
Qed.

(** A new queue. *)
Lemma placed_add_head Q hold live p : placed Q hold live -> Q !! p = None -> placed (<[p := []]> Q) hold live.
Proof.
  intros Hpl Hp. pose proof Hpl as [Hl Hh Ho]. split; [| |done].
  - intros e. rewrite Hl. split.
    + intros [(p' & l & Hp' & He)|Ht]; [left|by right]. exists p', l. rewrite lookup_insert_ne; [done|]. intros ->. congruence.
    + intros [(p' & l & [[<- <-]|[_ Hp']]%lookup_insert_Some & He)|Ht]; [set_solver|left; eauto|by right].
  - intros t e p' l Ht [[<- <-]|[_ Hp']]%lookup_insert_Some; [set_solver|by eapply Hh].
Qed.

(** Nothing queued and nothing held: nothing is live. *)
Lemma placed_nothing Q hold live :
  placed Q hold live -> (forall p l, Q !! p = Some l -> l = []) -> hold = ∅ -> live = ∅.
Proof.
  intros Hpl Hq Hh. apply set_eq. intros e. rewrite (pl_live _ _ _ Hpl). split; [|set_solver].
  intros [(p & l & Hp & He)|(t & Ht)]; [rewrite (Hq p l Hp) in He; set_solver|by rewrite Hh in Ht].
Qed.
End Placed.

(** ** The links of the items *)

Definition set_links (f : gmap Z ptr -> gmap Z ptr) (q : qmem) : qmem :=
  QMem (q_first q) (q_last q) (f (q_next q)).

(** The queues do not see a change of other links. *)
Lemma queues_frame Q q links :
  queues_repr Q q ->
  (forall p l e, Q !! p = Some l -> e ∈ l -> links (q_next q) !! e = q_next q !! e) ->
  queues_repr Q (set_links links q).
Proof.
  intros [H2 H3] Hfr. split; [|done]. intros p l Hp. destruct (H2 p l Hp) as (Hf & Hl & Hk & Hnd).
  split_and!; try done. eapply linked_frame; [|done]. intros e He. by apply (Hfr p l e).
Qed.

(** What the observers of a queue answer. *)
Lemma queue_views Q m p es :
  queues_repr Q m -> Q !! p = Some es ->
  STAILQ_FIRST p m = Ok (hd_or es NULL) /\ STAILQ_EMPTY p m = Ok (bool_decide (es = [])) /\
  (hd_or es NULL =? NULL) = bool_decide (es = []).
Proof.
  intros [Hq _] Hp. destruct (Hq p es Hp) as (Hf & _ & Hk & _). unfold STAILQ_EMPTY, STAILQ_FIRST. rewrite Hf. simpl.
  by rewrite (hd_or_eqb _ _ Hk).
Qed.

(** Appending and taking, on memory and on the lists. *)
Lemma queue_push Q m p es e :
  queues_repr Q m -> Q !! p = Some es -> insertable Q (dom (q_next m)) e ->
  exists m', STAILQ_INSERT_TAIL p e m = Ok m' /\ queues_repr (<[p := es ++ [e]]> Q) m' /\
    dom (q_next m') = dom (q_next m).
Proof.
  intros HQ Hp Hins. destruct (run_op_refines (OpInsertTail p e) Q _ m HQ (AInsertTail _ p e es Q Hp Hins)) as (m' & E & H').
  exists m'. split; [done|]. split; [done|]. exact (run_op_dom (OpInsertTail p e) _ _ E).
Qed.

Lemma queue_pop Q m p e es :
  queues_repr Q m -> Q !! p = Some (e :: es) ->
  exists m', STAILQ_REMOVE_HEAD p m = Ok m' /\ queues_repr (<[p := es]> Q) m' /\
    dom (q_next m') = dom (q_next m).
Proof.
  intros HQ Hp. destruct (run_op_refines (OpRemoveHead p) Q _ m HQ (ARemoveHead _ p e es Q Hp)) as (m' & E & H').
  exists m'. split; [done|]. split; [done|]. exact (run_op_dom (OpRemoveHead p) _ _ E).
Qed.
