(* ===== verification/Manager.v ===== *)
(** * The POSIX manager: state and operations (src/posix/manager.c)

    The static variables of manager.c are the record [manager]; the work queue
    structures live in a heap indexed by their addresses, so that the two tables
    [wqlist] and [ocwq] hold pointers, as in the code.  Each operation is the whole C
    function run without interference; Pool.v and Overcommit.v split the operations
    that run concurrently into their atomic steps. *)

From stdpp Require Import base gmap list strings.
From Stdlib Require Import ZArith Lia.
From S2P Require Import Prelude Types.

(** ** State *)

Record scoreboard := Scoreboard {
  runqueue_length : Z;
  count : Z;
  about_to_wait : Z;
  idle : Z;
  sb_sem : Z;          (* the value of the semaphore *)
  sb_suspend : Z
}.

(** A table of work queues with the mask of its pending queues: [wqlist] with
    [wqlist_mask], or [ocwq] with [ocwq_mask]. *)
Record table := Table { slots : list ptr; mask : Z }.

Record manager := Manager {
  cpu_count : Z;
  worker_min : Z;
  worker_idle_threshold : Z;
  pending_thread_create : Z;
  ocwq : table;
  ocwq_idle_threads : Z;
  ocwq_signal_count : Z;
  wqlist : table;
  wqlist_has_manager : Z;
  sb : scoreboard;
  current_threads_spinning : Z;
  wqs : gmap Z workqueue      (* the struct _pthread_workqueue objects *)
}.

Definition with_wqlist (t : table) (m : manager) : manager :=
  Manager (cpu_count m) (worker_min m) (worker_idle_threshold m) (pending_thread_create m)
    (ocwq m) (ocwq_idle_threads m) (ocwq_signal_count m) t (wqlist_has_manager m) (sb m)
    (current_threads_spinning m) (wqs m).
Definition with_ocwq (t : table) (m : manager) : manager :=
  Manager (cpu_count m) (worker_min m) (worker_idle_threshold m) (pending_thread_create m)
    t (ocwq_idle_threads m) (ocwq_signal_count m) (wqlist m) (wqlist_has_manager m) (sb m)
    (current_threads_spinning m) (wqs m).
Definition with_oc_counts (i s : Z) (m : manager) : manager :=
  Manager (cpu_count m) (worker_min m) (worker_idle_threshold m) (pending_thread_create m)
    (ocwq m) i s (wqlist m) (wqlist_has_manager m) (sb m) (current_threads_spinning m) (wqs m).
Definition with_has_manager (h : Z) (m : manager) : manager :=
  Manager (cpu_count m) (worker_min m) (worker_idle_threshold m) (pending_thread_create m)
    (ocwq m) (ocwq_idle_threads m) (ocwq_signal_count m) (wqlist m) h (sb m)
    (current_threads_spinning m) (wqs m).
Definition with_pending (p : Z) (m : manager) : manager :=
  Manager (cpu_count m) (worker_min m) (worker_idle_threshold m) p
    (ocwq m) (ocwq_idle_threads m) (ocwq_signal_count m) (wqlist m) (wqlist_has_manager m) (sb m)
    (current_threads_spinning m) (wqs m).
Definition with_sb (s : scoreboard) (m : manager) : manager :=
  Manager (cpu_count m) (worker_min m) (worker_idle_threshold m) (pending_thread_create m)
    (ocwq m) (ocwq_idle_threads m) (ocwq_signal_count m) (wqlist m) (wqlist_has_manager m) s
    (current_threads_spinning m) (wqs m).
Definition with_spinning (n : Z) (m : manager) : manager :=
  Manager (cpu_count m) (worker_min m) (worker_idle_threshold m) (pending_thread_create m)
    (ocwq m) (ocwq_idle_threads m) (ocwq_signal_count m) (wqlist m) (wqlist_has_manager m) (sb m)
    n (wqs m).
Definition with_wqs (h : gmap Z workqueue) (m : manager) : manager :=
  Manager (cpu_count m) (worker_min m) (worker_idle_threshold m) (pending_thread_create m)
    (ocwq m) (ocwq_idle_threads m) (ocwq_signal_count m) (wqlist m) (wqlist_has_manager m) (sb m)
    (current_threads_spinning m) h.

Definition set_idle (x : Z) (s : scoreboard) : scoreboard :=
  Scoreboard (runqueue_length s) (count s) (about_to_wait s) x (sb_sem s) (sb_suspend s).
Definition set_count (x : Z) (s : scoreboard) : scoreboard :=
  Scoreboard (runqueue_length s) x (about_to_wait s) (idle s) (sb_sem s) (sb_suspend s).
Definition set_about_to_wait (x : Z) (s : scoreboard) : scoreboard :=
  Scoreboard (runqueue_length s) (count s) x (idle s) (sb_sem s) (sb_suspend s).
Definition set_sem (x : Z) (s : scoreboard) : scoreboard :=
  Scoreboard (runqueue_length s) (count s) (about_to_wait s) (idle s) x (sb_suspend s).
Definition set_suspend (x : Z) (s : scoreboard) : scoreboard :=
  Scoreboard (runqueue_length s) (count s) (about_to_wait s) (idle s) (sb_sem s) x.

(** The atomic builtins of src/posix/platform.h on the scoreboard's counters. *)
Definition atomic_inc_idle (m : manager) : manager := with_sb (set_idle (idle (sb m) +u 1) (sb m)) m.
Definition atomic_dec_idle (m : manager) : manager := with_sb (set_idle (idle (sb m) -u 1) (sb m)) m.
Definition atomic_inc_count (m : manager) : manager := with_sb (set_count (count (sb m) +u 1) (sb m)) m.
Definition atomic_dec_count (m : manager) : manager := with_sb (set_count (count (sb m) -u 1) (sb m)) m.
Definition atomic_inc_pending (m : manager) : manager := with_pending (pending_thread_create m +u 1) m.
Definition atomic_dec_pending (m : manager) : manager := with_pending (pending_thread_create m -u 1) m.

(** [sem_post(&scoreboard.sb_sem)] *)
Definition sem_post (m : manager) : manager := with_sb (set_sem (sb_sem (sb m) + 1) (sb m)) m.

(** ** Work queues *)

Definition items (p : ptr) (m : manager) : list work :=
  match wqs m !! p with Some q => item_listhead q | None => [] end.

(** [STAILQ_INSERT_TAIL(&workq->item_listhead, witem, item_entry)] and
    [STAILQ_REMOVE_HEAD], on the represented list (Stailq.v). *)
Definition on_items (f : list work -> list work) (p : ptr) (h : gmap Z workqueue)
  : gmap Z workqueue := alter (fun q => set_items (f (item_listhead q)) q) p h.
Definition insert_tail (p : ptr) (w : work) (m : manager) : manager :=
  with_wqs (on_items (fun l => l ++ [w]) p (wqs m)) m.
Definition remove_head (p : ptr) (m : manager) : manager :=
  with_wqs (on_items (@tail work) p (wqs m)) m.

(** ** Initialisation *)

(** [worker_idle_threshold_per_cpu] *)
Definition worker_idle_threshold_per_cpu (cpu_count : Z) : Z :=
  if (cpu_count =? 0) || (cpu_count =? 1) || (cpu_count =? 2) || (cpu_count =? 4) then 2
  else if cpu_count =? 6 then 4
  else if (cpu_count =? 8) || (cpu_count =? 12) then 6
  else if (cpu_count =? 16) || (cpu_count =? 24) then 8
  else if (cpu_count =? 32) || (cpu_count =? 64) then 12
  else cpu_count / 4.

(** What the environment answers during initialisation. *)
Record init_env := InitEnv {
  PWQ_ACTIVE_CPU : Z;            (* set by pthread_workqueue_init_np *)
  env_PWQ_WMIN : option Z;       (* atoi(getenv("PWQ_WMIN")) when it is set *)
  thread_entitled_cpus : Z;
  sem_init_rv : Z;
  pthread_atfork_rv : Z
}.

(** [_manager_init_common]: the status and the new state.  On a failing [sem_init] the
    scoreboard is left as it was. *)
Definition _manager_init_common (e : init_env) (m : manager) : Z * manager :=
  let cpus := if 0 <? PWQ_ACTIVE_CPU e then PWQ_ACTIVE_CPU e else thread_entitled_cpus e in
  let m := Manager cpus (worker_min m) (worker_idle_threshold m) 0
             (Table (slots (ocwq m)) 0) 0 0 (Table (slots (wqlist m)) 0) 0 (sb m)
             (current_threads_spinning m) (wqs m) in
  if negb (sem_init_rv e =? 0) then (-1, m)
  else
    let sb' := Scoreboard (runqueue_length (sb m)) 0 0 0 0 0 in
    let wmin := match env_PWQ_WMIN e with
                | Some v => u32 v
                | None => if 1 <? cpus then cpus else 2
                end in
    let thr := if 0 <? PWQ_ACTIVE_CPU e then PWQ_ACTIVE_CPU e
               else worker_idle_threshold_per_cpu cpus in
    (0, Manager cpus wmin thr 0 (ocwq m) 0 0 (wqlist m) 0 sb' (current_threads_spinning m) (wqs m)).

(** [manager_reinit]: the child's side of a fork. *)
Definition manager_reinit (e : init_env) (m : manager) : outcome manager :=
  let (status, m) := _manager_init_common e m in
  if status <? 0 then Aborts
  else
    let nulls := replicate PTHREAD_WORKQUEUE_MAX NULL in
    Ok (with_wqlist (Table nulls (mask (wqlist m))) (with_ocwq (Table nulls (mask (ocwq m))) m)).

Definition manager_init (e : init_env) (m : manager) : Z * manager :=
  let (status, m) := _manager_init_common e m in
  if negb (status =? 0) then (status, m)
  else if pthread_atfork_rv e <? 0 then (-1, m)
  else (0, m).

(** The zero-initialised statics. *)
Definition boot : manager :=
  let nulls := replicate PTHREAD_WORKQUEUE_MAX NULL in
  Manager 0 0 0 0 (Table nulls 0) 0 0 (Table nulls 0) 0 (Scoreboard 0 0 0 0 0 0) 0 ∅.

(** ** Creating work queues *)

(** What an operation asks of the thread library. *)
Inductive event :=
| SpawnManager       (* pthread_create(..., manager_main) succeeded *)
| SpawnWorker        (* pthread_create(..., worker_main) succeeded *)
| SpawnOvercommit    (* pthread_create(..., overcommit_worker_main) succeeded *)
| SpawnFailed        (* pthread_create failed *)
| SignalWqlist       (* pthread_cond_signal(&wqlist_has_work) *)
| SignalOcwq.        (* pthread_cond_signal(&ocwq_has_work) *)

#[global] Instance event_eq_dec : EqDecision event.
Proof. solve_decision. Defined.

(** [manager_start]: [rvs] are the results of the successive [pthread_create] calls. *)
Fixpoint manager_start (rvs : list Z) (m : manager) : outcome manager :=
  match rvs with
  | [] => Blocks
  | rv :: rvs =>
      if rv =? EAGAIN then (* sleep(1) *) manager_start rvs m
      else if negb (rv =? 0) then Aborts
      else Ok (with_has_manager 1 m)
  end.

(** [tbl[prio] = workq; workq->wqlist_index = prio], unless the slot is taken. *)
Definition install (p : ptr) (q : workqueue) (t : table) : outcome table :=
  if queueprio q <? 0 then Faults
  else
    let* cur := deref (slots t !! Z.to_nat (queueprio q)) in
    if cur =? NULL then Ok (Table (<[Z.to_nat (queueprio q) := p]> (slots t)) (mask t))
    else Aborts.

Definition manager_workqueue_create (rvs : list Z) (p : ptr) (m : manager) : outcome manager :=
  let* q := deref (wqs m !! p) in
  let* m := (if (overcommit q =? 0) && (wqlist_has_manager m =? 0) then manager_start rvs m else Ok m) in
  let m' := with_wqs (<[p := set_wqlist_index (queueprio q) q]> (wqs m)) m in
  if negb (overcommit q =? 0) then
    let* t := install p q (ocwq m) in Ok (with_ocwq t m')
  else
    let* t := install p q (wqlist m) in Ok (with_wqlist t m').

(** ** Adding and taking items *)

(** [new_mask = atomic_or(&mask, b); while (!(new_mask & b)) ...] *)
Fixpoint mask_set_loop (fuel : nat) (b : Z) (mk : Z) : outcome Z :=
  let new_mask := Z.lor mk b in
  if negb (Z.land new_mask b =? 0) then Ok new_mask
  else match fuel with O => Blocks | S fuel => mask_set_loop fuel b new_mask end.

(** [reset_queue_mask]: [new_mask = atomic_and(&mask, ~b); while (new_mask & b) ...] *)
Fixpoint mask_clear_loop (fuel : nat) (b : Z) (mk : Z) : outcome Z :=
  let new_mask := Z.land mk (lnot32 b) in
  if Z.land new_mask b =? 0 then Ok new_mask
  else match fuel with O => Blocks | S fuel => mask_clear_loop fuel b new_mask end.

Definition reset_queue_mask (index : Z) (m : manager) : outcome manager :=
  let* mk := mask_clear_loop 1 (bit index) (mask (wqlist m)) in
  Ok (with_wqlist (Table (slots (wqlist m)) mk) m).

Definition set_queue_mask (index : Z) (m : manager) : outcome manager :=
  let* mk := mask_set_loop 1 (bit index) (mask (wqlist m)) in
  Ok (with_wqlist (Table (slots (wqlist m)) mk) m).

(** [manager_workqueue_additem]; [rv] is the result of [pthread_create] should the call
    start an overcommit worker. *)
Definition manager_workqueue_additem (rv : Z) (p : ptr) (witem : work) (m : manager)
  : outcome (manager * list event) :=
  let* q := deref (wqs m !! p) in
  let index := wqlist_index q in
  if negb (overcommit q =? 0) then
    let m := insert_tail p witem m in
    let m := with_ocwq (Table (slots (ocwq m)) (Z.lor (mask (ocwq m)) (bit index))) m in
    if 0 <? ocwq_idle_threads m then
      Ok (with_oc_counts (ocwq_idle_threads m -u 1) (ocwq_signal_count m +u 1) m, [SignalOcwq])
    else Ok (m, [if rv =? 0 then SpawnOvercommit else SpawnFailed])
  else
    let* m := (if bool_decide (item_listhead q = []) then set_queue_mask index m else Ok m) in
    let m := insert_tail p witem m in
    Ok (m, if 0 <? idle (sb m) then [SignalWqlist] else []).

(** [wqlist_scan]: the item, if any, with the priority of its queue. *)
Definition wqlist_scan (skip_thread_exit_events : bool) (m : manager)
  : outcome (option (work * Z) * manager) :=
  let idx := ffs (mask (wqlist m)) in
  if idx =? 0 then Ok (None, m)
  else
    let* p := deref (slots (wqlist m) !! Z.to_nat (idx - 1)) in
    let* q := deref (wqs m !! p) in
    match item_listhead q with
    | [] => Ok (None, m)
    | witem :: rest =>
        if negb (skip_thread_exit_events && (func witem =? NULL)) then
          let m := remove_head p m in
          let* m := (match rest with [] => reset_queue_mask (wqlist_index q) m | _ => Ok m end) in
          Ok (Some (witem, queueprio q), m)
        else Ok (None, m)
    end.

(** One search of [overcommit_worker_main] for an item. *)
Definition overcommit_scan (m : manager) : outcome (option work * manager) :=
  let idx := ffs (mask (ocwq m)) in
  if 0 <? idx then
    let* p := deref (slots (ocwq m) !! Z.to_nat (idx - 1)) in
    let* q := deref (wqs m !! p) in
    match item_listhead q with
    | [] => Ok (None, m)
    | witem :: rest =>
        let m := remove_head p m in
        let m := match rest with
                 | [] => with_ocwq (Table (slots (ocwq m))
                           (Z.land (mask (ocwq m)) (lnot32 (bit (wqlist_index q))))) m
                 | _ => m
                 end in
        Ok (Some witem, m)
    end
  else Ok (None, m).

(** ** Workers *)

(** [worker_start]; [rv] is the result of [pthread_create]. *)
Definition worker_start (rv : Z) (m : manager) : Z * manager * list event :=
  let m := atomic_inc_pending m in
  let m := atomic_inc_idle m in
  let m := atomic_inc_count m in
  if negb (rv =? 0) then
    let m := atomic_dec_idle m in
    let m := atomic_dec_count m in
    (-1, m, [SpawnFailed])
  else (0, m, [SpawnWorker]).

(** [for (i = 0; i < PTHREAD_WORKQUEUE_MAX; i++) { workq = wqlist[i]; if (workq == NULL) continue; ...}] *)
Fixpoint first_workq (l : list ptr) : option ptr :=
  match l with
  | [] => None
  | p :: l => if p =? NULL then first_workq l else Some p
  end.

(** The item [witem_alloc(NULL, NULL)] returns. *)
Definition exit_event : work := Work NULL NULL NULL 0 0 NULL.

Definition worker_stop (m : manager) : outcome (manager * list event) :=
  match first_workq (slots (wqlist m)) with
  | None => Aborts
  | Some p =>
      let* q := deref (wqs m !! p) in
      let* m := set_queue_mask (wqlist_index q) m in
      Ok (insert_tail p exit_event m, [SignalWqlist])
  end.

(** ** Control *)

(** [manager_suspend] waits ([sleep(1)]) until the manager thread exists. *)
Definition manager_suspend (m : manager) : outcome manager :=
  if wqlist_has_manager m =? 0 then Blocks
  else if sb_suspend (sb m) =? 0 then Ok (with_sb (set_suspend 1 (sb m)) m)
  else Ok m.

Definition manager_resume (m : manager) : manager :=
  if negb (sb_suspend (sb m) =? 0) then sem_post (with_sb (set_suspend 0 (sb m)) m) else m.

Definition manager_signal (m : manager) : manager :=
  let m := with_sb (set_suspend 0 (sb m)) m in
  let m := with_sb (set_about_to_wait (about_to_wait (sb m) +u 1) (sb m)) m in
  sem_post m.

Definition peek_idle (m : manager) : Z :=
  let rv := idle (sb m) in
  if worker_idle_threshold m <? idle (sb m) then u64 (rv - worker_idle_threshold m)
  else if worker_min m <? idle (sb m) then u64 (rv - worker_min m)
  else rv.

Definition manager_peek (key : string) (m : manager) : outcome Z :=
  if bool_decide (key = "combined_idle"%string) then Ok (u64 (peek_idle m + ocwq_idle_threads m))
  else if bool_decide (key = "idle"%string) then Ok (peek_idle m)
  else if bool_decide (key = "ocomm_idle"%string) then Ok (ocwq_idle_threads m)
  else Aborts.

(** ** Invariant and abstraction *)

(** The items of the queue in slot [i]. *)
Definition slot_items (t : table) (h : gmap Z workqueue) (i : nat) : list work :=
  match slots t !! i with
  | None => []
  | Some p => if p =? NULL then [] else match h !! p with Some q => item_listhead q | None => [] end
  end.

(** Slot [i] is empty or points to the work queue of priority [i]. *)
Record table_shape (oc : bool) (t : table) (h : gmap Z workqueue) : Prop := {
  ts_len : length (slots t) = PTHREAD_WORKQUEUE_MAX;
  ts_mask : is_u32 (mask t);
  ts_slot i p : slots t !! i = Some p -> p <> NULL ->
    exists q, h !! p = Some q /\ wqlist_index q = Z.of_nat i /\ queueprio q = Z.of_nat i /\
              (negb (overcommit q =? 0) = oc)
}.

(** Bit [i] of the mask says whether the queue in slot [i] holds items. *)
Definition bit_ok (t : table) (h : gmap Z workqueue) (i : nat) : Prop :=
  Z.testbit (mask t) (Z.of_nat i) = negb (bool_decide (slot_items t h i = [])).

Definition table_ok (oc : bool) (t : table) (h : gmap Z workqueue) : Prop :=
  table_shape oc t h /\ forall i, bit_ok t h i.

Record mgr_ok (m : manager) : Prop := {
  mo_wqlist : table_ok false (wqlist m) (wqs m);
  mo_ocwq : table_ok true (ocwq m) (wqs m);
  mo_null : wqs m !! NULL = None
}.

(** The abstract state of a table: the items waiting at each priority. *)
Definition pending (t : table) (m : manager) : nat -> list work := slot_items t (wqs m).

(** ** Lemmas *)

Lemma mask_set_once fuel b mk : b <> 0 -> mask_set_loop fuel b mk = Ok (Z.lor mk b).
Proof.
  intros Hb. assert (E : Z.land (Z.lor mk b) b = b).
  { apply Z.bits_inj'. intros n _. rewrite Z.land_spec, Z.lor_spec. by destruct (Z.testbit mk n), (Z.testbit b n). }
  destruct fuel; simpl; rewrite E, (proj2 (Z.eqb_neq b 0)); done.
Qed.

Lemma mask_clear_once fuel i mk :
  is_u32 mk -> 0 <= i < 32 -> mask_clear_loop fuel (bit i) mk = Ok (Z.land mk (lnot32 (bit i))).
Proof.
  intros Hm Hi. assert (E : Z.land (Z.land mk (lnot32 (bit i))) (bit i) = 0).
  { apply Z.bits_inj'. intros n _. rewrite Z.land_spec, testbit_clear, bit_spec, Z.bits_0 by (done || lia).
    case_bool_decide; by rewrite ?andb_false_r. }
  destruct fuel; simpl; by rewrite E.
Qed.

Arguments mask_set_loop : simpl never.
Arguments mask_clear_loop : simpl never.

Section Slots.
Context (oc : bool) (t : table) (h : gmap Z workqueue).
Hypothesis Hsh : table_shape oc t h.

Lemma slot_range i p : slots t !! i = Some p -> (i < 31)%nat.
Proof. intros Hi. apply lookup_lt_Some in Hi. by rewrite (ts_len _ _ _ Hsh) in Hi. Qed.

(** Two slots never hold the same queue. *)
Lemma slot_inj i j p :
  slots t !! i = Some p -> slots t !! j = Some p -> p <> NULL -> i = j.
Proof.
  intros Hi Hj Hp. destruct (ts_slot _ _ _ Hsh i p Hi Hp) as (q & Hq & Hqi & _).
  destruct (ts_slot _ _ _ Hsh j p Hj Hp) as (q' & Hq' & Hqj & _). simplify_eq. lia.
Qed.

Lemma slot_items_at i p q :
  slots t !! i = Some p -> p <> NULL -> h !! p = Some q -> slot_items t h i = item_listhead q.
Proof.
  intros Hi Hp Hq. unfold slot_items. by rewrite Hi, (proj2 (Z.eqb_neq p NULL)), Hq by done.
Qed.

Lemma shape_on_items f p : table_shape oc t (on_items f p h).
Proof.
  split; [apply Hsh|apply Hsh|]. intros i p' Hi Hp'.
  destruct (ts_slot _ _ _ Hsh i p' Hi Hp') as (q & Hq & H1 & H2 & H3).
  unfold on_items. rewrite lookup_alter. case_decide; [subst|]; rewrite Hq;
    eexists; (split; [reflexivity|]); by split_and!.
Qed.

(** Changing the items of one queue changes one slot. *)
Lemma slot_items_on_items f i p j :
  slots t !! i = Some p -> p <> NULL ->
  slot_items t (on_items f p h) j = if decide (j = i) then f (slot_items t h j) else slot_items t h j.
Proof.
  intros Hi Hp. destruct (ts_slot _ _ _ Hsh i p Hi Hp) as (q & Hq & _).
  unfold slot_items. case_decide as E.
  - subst j. rewrite Hi, (proj2 (Z.eqb_neq p NULL)) by done.
    unfold on_items. by rewrite lookup_alter_eq, Hq.
  - destruct (slots t !! j) as [p'|] eqn:Hj; [|done]. destruct (Z.eqb_spec p' NULL); [done|].
    unfold on_items. rewrite lookup_alter_ne; [done|]. intros ->. apply E. by eapply slot_inj.
Qed.

(** A queue of the other table is in no slot. *)
Lemma slot_items_other f p q j :
  h !! p = Some q -> negb (overcommit q =? 0) = negb oc ->
  slot_items t (on_items f p h) j = slot_items t h j.
Proof.
  intros Hq Hoc. unfold slot_items. destruct (slots t !! j) as [p'|] eqn:Hj; [|done].
  destruct (Z.eqb_spec p' NULL); [done|]. unfold on_items. rewrite lookup_alter_ne; [done|].
  intros ->. destruct (ts_slot _ _ _ Hsh j p' Hj) as (q' & Hq' & _ & _ & Hoc'); [done|].
  assert (q' = q) as -> by congruence. rewrite Hoc' in Hoc. by destruct oc.
Qed.

Lemma shape_mask mk : is_u32 mk -> table_shape oc (Table (slots t) mk) h.
Proof. intros. by split; [apply Hsh| |apply Hsh]. Qed.
End Slots.

Lemma slot_items_mask t mk h i : slot_items (Table (slots t) mk) h i = slot_items t h i.
Proof. done. Qed.

(** The least pending priority is what [ffs] finds. *)
Lemma ffs_pending oc t h :
  table_ok oc t h -> ffs (mask t) <> 0 ->
  exists i p q, ffs (mask t) - 1 = Z.of_nat i /\ slots t !! i = Some p /\ p <> NULL /\ h !! p = Some q /\
    wqlist_index q = Z.of_nat i /\ queueprio q = Z.of_nat i /\ negb (overcommit q =? 0) = oc /\
    item_listhead q <> [] /\ (forall j, (j < i)%nat -> slot_items t h j = []).
Proof.
  intros [Hsh Hb] Hf. destruct (ts_mask _ _ _ Hsh) as [Hm _].
  assert (Hpos : 0 < mask t) by (destruct (decide (mask t = 0)) as [E|]; [by rewrite E in Hf|lia]).
  destruct (ffs_least _ Hpos) as (H1 & H2 & H3).
  set (i := Z.to_nat (ffs (mask t) - 1)).
  assert (Hi : Z.of_nat i = ffs (mask t) - 1) by lia. rewrite <- Hi in H2.
  pose proof (Hb i) as Hbi. unfold bit_ok in Hbi. rewrite H2 in Hbi.
  case_bool_decide as Hne; [done|]. unfold slot_items in Hne.
  destruct (slots t !! i) as [p|] eqn:Hp; [|done]. destruct (Z.eqb_spec p NULL); [done|].
  destruct (ts_slot _ _ _ Hsh i p Hp) as (q & Hq & ? & ? & ?); [done|]. rewrite Hq in Hne.
  exists i, p, q. split_and!; try done. intros j Hj.
  pose proof (Hb j) as Hbj. unfold bit_ok in Hbj. rewrite H3 in Hbj by lia.
  by case_bool_decide.
Qed.

Lemma ffs_none oc t h i : table_ok oc t h -> ffs (mask t) = 0 -> slot_items t h i = [].
Proof.
  intros [Hsh Hb] Hf. apply (proj1 (ffs_zero _)) in Hf. specialize (Hb i). unfold bit_ok in Hb.
  rewrite Hf, Z.bits_0 in Hb. by case_bool_decide.
Qed.

Lemma lor_bit_id m i : 0 <= i -> Z.testbit m i = true -> Z.lor m (bit i) = m.
Proof.
  intros Hi Hb. apply Z.bits_inj'. intros n Hn. rewrite testbit_set by done.
  case_bool_decide; subst; by rewrite ?Hb, ?orb_false_r.
Qed.

(** Appending an item with the queue's bit set. *)
Lemma table_push oc t h i p w :
  table_ok oc t h -> slots t !! i = Some p -> p <> NULL ->
  table_ok oc (Table (slots t) (Z.lor (mask t) (bit (Z.of_nat i)))) (on_items (fun l => l ++ [w]) p h).
Proof.
  intros [Hsh Hb] Hi Hp. pose proof (slot_range _ _ _ Hsh _ _ Hi) as Hr. split.
  - apply shape_mask; [by apply shape_on_items|]. apply lor_u32; [apply Hsh|apply bit_range; lia].
  - intros j. unfold bit_ok. rewrite slot_items_mask, (slot_items_on_items _ _ _ Hsh _ i) by done.
    simpl. rewrite testbit_set by lia. rewrite (Hb j). case_decide as E.
    + subst. rewrite (bool_decide_eq_true_2 (Z.of_nat i = Z.of_nat i)) by done.
      rewrite orb_true_r. by destruct (slot_items t h i).
    + rewrite (bool_decide_eq_false_2 (Z.of_nat i = Z.of_nat j)) by lia. by rewrite orb_false_r.
Qed.

(** Removing the first item, clearing the bit of a queue that became empty. *)
Lemma table_pop oc t h i p w rest :
  table_ok oc t h -> slots t !! i = Some p -> p <> NULL -> slot_items t h i = w :: rest ->
  table_ok oc
    (Table (slots t)
       (match rest with [] => Z.land (mask t) (lnot32 (bit (Z.of_nat i))) | _ => mask t end))
    (on_items (@tail work) p h).
Proof.
  intros [Hsh Hb] Hi Hp Hw. pose proof (slot_range _ _ _ Hsh _ _ Hi) as Hr.
  pose proof (ts_mask _ _ _ Hsh) as Hm. split.
  - apply shape_mask; [by apply shape_on_items|]. destruct rest; [|done].
    apply land_u32; [done|apply u32_range].
  - intros j. unfold bit_ok. rewrite slot_items_mask, (slot_items_on_items _ _ _ Hsh _ i) by done.
    simpl. pose proof (Hb j) as Hbj. unfold bit_ok in Hbj. case_decide as E.
    + subst j. rewrite Hw in *. destruct rest; simpl in *; [|done].
      rewrite testbit_clear by (done || lia). rewrite (bool_decide_eq_true_2 (Z.of_nat i = Z.of_nat i)) by done.
      by rewrite andb_false_r.
    + rewrite <- Hbj. destruct rest; [|done]. rewrite testbit_clear by (done || lia).
      rewrite bool_decide_eq_false_2 by lia. by rewrite andb_true_r.
Qed.

Lemma table_other oc t h f p q :
  table_ok oc t h -> h !! p = Some q -> negb (overcommit q =? 0) = negb oc ->
  table_ok oc t (on_items f p h).
Proof.
  intros [Hsh Hb] Hq Hoc. split; [by apply shape_on_items|].
  intros j. unfold bit_ok. rewrite (slot_items_other _ _ _ Hsh _ p q) by done. apply Hb.
Qed.

Lemma on_items_null f p h : h !! NULL = None -> on_items f p h !! NULL = None.
Proof.
  intros Hn. unfold on_items. rewrite lookup_alter. case_decide as E; [by rewrite E, Hn|done].
Qed.

Lemma table_ok_nulls oc h :
  table_ok oc (Table (replicate PTHREAD_WORKQUEUE_MAX NULL) 0) h.
Proof.
  assert (Hn : forall i p, replicate PTHREAD_WORKQUEUE_MAX NULL !! i = Some p -> p = NULL).
  { intros i p Hi. by apply lookup_replicate in Hi as [-> _]. }
  split.
  - split; [done|unfold is_u32; simpl; lia|]. intros i p Hi Hp. by apply Hn in Hi.
  - intros i. unfold bit_ok, slot_items. simpl slots. simpl mask. rewrite Z.bits_0.
    destruct (_ !! i) as [p|] eqn:Hi; [|done]. by rewrite (Hn i p Hi).
Qed.

Hint Resolve table_push table_pop table_other on_items_null table_ok_nulls : pwq.

(** ** Initialisation and fork *)

(** The number of CPUs, the minimum of workers and the idle threshold that
    initialisation computes. *)
Definition init_cpus (e : init_env) : Z :=
  if 0 <? PWQ_ACTIVE_CPU e then PWQ_ACTIVE_CPU e else thread_entitled_cpus e.


Definition ex_env : init_env := InitEnv 0 None 4 0 0.

(** Statics with values left over from before. *)
Definition ex_stale : manager :=
  with_has_manager 1 (with_sb (Scoreboard 5 6 7 8 9 1) (with_oc_counts 3 4 (with_pending 2 boot))).


(** After a fork the child's [manager_reinit] forgets every queue and every pending
    item of the parent and resets all counters of the pool, except
    [current_threads_spinning], which keeps the number of threads that were spinning in
    the parent although none of them exists in the child. *)
Theorem manager_reinit_resets e m :
  sem_init_rv e = 0 -> wqs m !! NULL = None ->
  exists m', manager_reinit e m = Ok m' /\ mgr_ok m' /\
    (forall i, pending (wqlist m') m' i = [] /\ pending (ocwq m') m' i = []) /\
    wqlist_has_manager m' = 0 /\ pending_thread_create m' = 0 /\
    ocwq_idle_threads m' = 0 /\ ocwq_signal_count m' = 0 /\
    count (sb m') = 0 /\ idle (sb m') = 0 /\ sb_suspend (sb m') = 0 /\ about_to_wait (sb m') = 0 /\
    current_threads_spinning m' = current_threads_spinning m.
Proof.
  intros Hs Hn. unfold manager_reinit, _manager_init_common. rewrite Hs. simpl.
  eexists. split; [done|]. split; [split; [apply table_ok_nulls|apply table_ok_nulls|done]|].
  split; [|done]. intros i. split; by apply (ffs_none false _ _ i (table_ok_nulls _ (wqs m))).
Qed.

Lemma manager_reinit_resets_witness :
  wqs (with_spinning 1 boot) !! NULL = None /\
  exists m', manager_reinit ex_env (with_spinning 1 boot) = Ok m' /\ current_threads_spinning m' = 1.
Proof.
  split; [reflexivity|].
  destruct (manager_reinit_resets ex_env (with_spinning 1 boot)) as (m' & E & H); [reflexivity|reflexivity|].
  exists m'. split; [exact E|apply H].
Defined.

(** ** Creating queues *)

(** A queue structure that no table refers to yet. *)
Definition unlisted (p : ptr) (m : manager) : Prop :=
  (forall i, slots (wqlist m) !! i <> Some p) /\ (forall i, slots (ocwq m) !! i <> Some p).

Lemma manager_start_only_flag rvs m m' : manager_start rvs m = Ok m' -> m' = with_has_manager 1 m.
Proof.
  induction rvs as [|rv rvs IH]; simpl; [done|].
  destruct (rv =? EAGAIN); [done|]. destruct (negb (rv =? 0)); intros; by simplify_eq.
Qed.

(** [manager_start] retries on EAGAIN and succeeds with the first 0. *)
Lemma manager_start_retries n rvs m :
  manager_start (replicate n EAGAIN ++ 0 :: rvs) m = Ok (with_has_manager 1 m).
Proof. induction n; simpl; done. Qed.

Section Install.
Context (oc : bool) (t : table) (h : gmap Z workqueue) (p : ptr) (q : workqueue).
Hypothesis Ht : table_ok oc t h.
Hypothesis Hp : p <> NULL.
Hypothesis Hnew : forall i, slots t !! i <> Some p.
Hypothesis Hq : h !! p = Some q.
Let h' := <[p := set_wqlist_index (queueprio q) q]> h.

Lemma slot_items_unlisted j : slot_items t h' j = slot_items t h j.
Proof.
  unfold slot_items. destruct (slots t !! j) as [p'|] eqn:Hj; [|done].
  destruct (Z.eqb_spec p' NULL); [done|]. unfold h'. rewrite lookup_insert_ne; [done|].
  intros <-. by eapply Hnew.
Qed.

Lemma table_ok_unlisted : table_ok oc t h'.
Proof.
  destruct Ht as [Hsh Hb]. split.
  - split; [apply Hsh|apply Hsh|]. intros i p' Hi Hp'. unfold h'.
    rewrite lookup_insert_ne; [by apply Hsh|]. intros <-. by eapply Hnew.
  - intros i. unfold bit_ok. rewrite slot_items_unlisted. apply Hb.
Qed.

(** Installing an empty queue in a free slot. *)
Lemma install_ok i :
  negb (overcommit q =? 0) = oc -> item_listhead q = [] -> queueprio q = Z.of_nat i ->
  slots t !! i = Some NULL ->
  install p q t = Ok (Table (<[i := p]> (slots t)) (mask t)) /\
  table_ok oc (Table (<[i := p]> (slots t)) (mask t)) h'.
Proof.
  intros Hoc Hit Hi Hs. destruct table_ok_unlisted as [Hsh Hb].
  assert (Hlt : (i < length (slots t))%nat) by by eapply lookup_lt_Some.
  split.
  { unfold install. rewrite Hi, (proj2 (Z.ltb_ge _ _)) by lia. by rewrite Nat2Z.id, Hs. }
  assert (Hpq : h' !! p = Some (set_wqlist_index (queueprio q) q)) by apply lookup_insert_eq.
  split.
  - split; simpl; [rewrite length_insert; apply Hsh|apply Hsh|].
    intros j p' Hj Hp'. destruct (decide (j = i)) as [->|Hne].
    + rewrite list_lookup_insert_eq in Hj by done. simplify_eq. eexists. by split.
    + rewrite list_lookup_insert_ne in Hj by done. by apply Hsh.
  - intros j. unfold bit_ok, slot_items. simpl. destruct (decide (j = i)) as [->|Hne].
    + rewrite list_lookup_insert_eq, (proj2 (Z.eqb_neq p NULL)), Hpq by done. simpl. rewrite Hit.
      specialize (Hb i). unfold bit_ok, slot_items in Hb. rewrite Hs in Hb. done.
    + rewrite list_lookup_insert_ne by done. apply (Hb j).
Qed.

Lemma slot_items_installed i j :
  item_listhead q = [] -> slots t !! i = Some NULL ->
  slot_items (Table (<[i:=p]> (slots t)) (mask t)) h' j = slot_items t h j.
Proof.
  intros Hit Hs. rewrite <- slot_items_unlisted. unfold slot_items. simpl.
  destruct (decide (j = i)) as [->|Hne]; [|by rewrite list_lookup_insert_ne].
  assert ((i < length (slots t))%nat) by by eapply lookup_lt_Some.
  unfold h'. rewrite list_lookup_insert_eq, (proj2 (Z.eqb_neq p NULL)), lookup_insert_eq, Hs by done. done.
Qed.

Lemma install_taken i p' :
  queueprio q = Z.of_nat i -> slots t !! i = Some p' -> p' <> NULL -> install p q t = Aborts.
Proof.
  intros Hi Hs Hp'. unfold install. rewrite Hi, (proj2 (Z.ltb_ge _ _)) by lia.
  rewrite Nat2Z.id, Hs. simpl. by rewrite (proj2 (Z.eqb_neq p' NULL)).
Qed.
End Install.

(** The table a queue belongs to. *)
Definition table_of (q : workqueue) (m : manager) : table :=
  if negb (overcommit q =? 0) then ocwq m else wqlist m.

(** Starting the manager thread changes nothing else. *)
Definition started (m : manager) : manager := if wqlist_has_manager m =? 0 then with_has_manager 1 m else m.

Lemma started_same m :
  wqlist (started m) = wqlist m /\ ocwq (started m) = ocwq m /\ wqs (started m) = wqs m /\
  wqlist_has_manager (started m) <> 0 /\ sb (started m) = sb m.
Proof. unfold started. destruct (Z.eqb_spec (wqlist_has_manager m) 0); by split_and!. Qed.

Lemma start_if_needed n rvs q m :
  (if (overcommit q =? 0) && (wqlist_has_manager m =? 0)
   then manager_start (replicate n EAGAIN ++ 0 :: rvs) m else Ok m) =
  Ok (if overcommit q =? 0 then started m else m).
Proof.
  rewrite manager_start_retries. unfold started.
  destruct (overcommit q =? 0), (wqlist_has_manager m =? 0); done.
Qed.

(** Creating a queue whose slot is free. *)
Lemma workqueue_create_free n rvs p q i m :
  mgr_ok m -> wqs m !! p = Some q -> unlisted p m -> item_listhead q = [] ->
  queueprio q = Z.of_nat i -> slots (table_of q m) !! i = Some NULL ->
  exists m', manager_workqueue_create (replicate n EAGAIN ++ 0 :: rvs) p m = Ok m' /\ mgr_ok m' /\
    slots (table_of q m') = <[i := p]> (slots (table_of q m)) /\
    wqs m' !! p = Some (set_wqlist_index (queueprio q) q) /\ sb m' = sb m /\
    (forall j, pending (wqlist m') m' j = pending (wqlist m) m j) /\
    (forall j, pending (ocwq m') m' j = pending (ocwq m) m j) /\
    (overcommit q = 0 -> wqlist_has_manager m' <> 0).
Proof.
  intros Hok Hq [Hn1 Hn2] Hit Hi Hs.
  assert (Hp : p <> NULL) by (intros ->; by rewrite (mo_null _ Hok) in Hq).
  pose proof (table_ok_unlisted _ _ _ p q (mo_wqlist _ Hok) Hn1) as HW.
  pose proof (table_ok_unlisted _ _ _ p q (mo_ocwq _ Hok) Hn2) as HO.
  assert (Hnull : <[p:=set_wqlist_index (queueprio q) q]> (wqs m) !! NULL = None)
    by (rewrite lookup_insert_ne by done; apply Hok).
  destruct (started_same m) as (E1 & E2 & E3 & E4 & E5).
  unfold manager_workqueue_create, table_of in *. rewrite Hq. simpl. rewrite start_if_needed. simpl.
  destruct (Z.eqb_spec (overcommit q) 0) as [Ho|Ho]; simpl in *.
  - rewrite E1, E3. destruct (install_ok false (wqlist m) (wqs m) p q (mo_wqlist _ Hok) Hp Hn1 Hq i) as [-> Hin];
      [by rewrite Ho|done|done|done|].
    eexists. split; [done|]. split; [split; simpl; rewrite ?E2; done|].
    split; [done|]. split; [apply lookup_insert_eq|]. split; [done|]. simpl. rewrite E2.
    split; [intros j; by apply slot_items_installed|]. split; [|done].
    intros j. apply (slot_items_unlisted (ocwq m) (wqs m) p q Hn2 j).
  - destruct (install_ok true (ocwq m) (wqs m) p q (mo_ocwq _ Hok) Hp Hn2 Hq i) as [-> Hin];
      [by rewrite (proj2 (Z.eqb_neq _ _) Ho)|done|done|done|].
    eexists. split; [done|]. split; [split; simpl; done|].
    split; [done|]. split; [apply lookup_insert_eq|]. split; [done|].
    split; [intros j; apply (slot_items_unlisted (wqlist m) (wqs m) p q Hn1 j)|].
    split; [intros j; by apply slot_items_installed|done].
Qed.

(** Creating a queue whose slot is taken. *)
Lemma workqueue_create_taken n rvs p q i m :
  mgr_ok m -> wqs m !! p = Some q -> queueprio q = Z.of_nat i -> (i < PTHREAD_WORKQUEUE_MAX)%nat ->
  slots (table_of q m) !! i <> Some NULL ->
  manager_workqueue_create (replicate n EAGAIN ++ 0 :: rvs) p m = Aborts.
Proof.
  intros Hok Hq Hi Hlt Hs. destruct (started_same m) as (E1 & _).
  assert (Htk : forall t, length (slots t) = PTHREAD_WORKQUEUE_MAX -> slots t !! i <> Some NULL -> install p q t = Aborts).
  { intros t Hlen Ht. destruct (slots t !! i) as [p'|] eqn:Hp'.
    - apply (install_taken _ p q i p'); [done|done|congruence].
    - apply lookup_ge_None in Hp'. lia. }
  unfold manager_workqueue_create, table_of in *. rewrite Hq. simpl. rewrite start_if_needed. simpl.
  destruct (Z.eqb_spec (overcommit q) 0) as [Ho|Ho]; simpl in *.
  - rewrite E1, Htk; [done|apply (mo_wqlist _ Hok)|done].
  - rewrite Htk; [done|apply (mo_ocwq _ Hok)|done].
Qed.

(** [manager_workqueue_create]: for a new empty queue of a free priority it keeps the
    invariant, lists the queue (and only it) under its priority with the index that
    selects its mask bit, and leaves every pending item in place; the manager thread is
    running afterwards whenever the queue is not an overcommit queue, however often
    [pthread_create] answers EAGAIN first.  When the priority is taken the process
    aborts. *)
Theorem manager_workqueue_create_spec n rvs p q i m :
  mgr_ok m -> wqs m !! p = Some q -> unlisted p m -> item_listhead q = [] ->
  queueprio q = Z.of_nat i -> (i < PTHREAD_WORKQUEUE_MAX)%nat ->
  let r := manager_workqueue_create (replicate n EAGAIN ++ 0 :: rvs) p m in
  (slots (table_of q m) !! i = Some NULL ->
   exists m', r = Ok m' /\ mgr_ok m' /\
     slots (table_of q m') = <[i := p]> (slots (table_of q m)) /\
     (exists q', wqs m' !! p = Some q' /\ wqlist_index q' = Z.of_nat i /\ sig q' = sig q) /\
     (forall j, pending (wqlist m') m' j = pending (wqlist m) m j) /\
     (forall j, pending (ocwq m') m' j = pending (ocwq m) m j) /\
     (overcommit q = 0 -> wqlist_has_manager m' <> 0)) /\
  (slots (table_of q m) !! i <> Some NULL -> r = Aborts).
Proof.
  intros Hok Hq Hu Hit Hi Hlt r. split; [|by apply (workqueue_create_taken _ _ _ q i)].
  intros Hs. destruct (workqueue_create_free n rvs p q i m) as (m' & E & H1 & H2 & H3 & _ & H4 & H5 & H6); try done.
  exists m'. split_and!; try done. eexists. split; [exact H3|]. by split.
Qed.

(** A table with a single queue. *)
Lemma table_ok_single oc n k p q h :
  (n + S k = PTHREAD_WORKQUEUE_MAX)%nat -> h !! p = Some q -> p <> NULL ->
  wqlist_index q = Z.of_nat n -> queueprio q = Z.of_nat n -> negb (overcommit q =? 0) = oc ->
  table_ok oc (Table (replicate n NULL ++ p :: replicate k NULL)
                (if bool_decide (item_listhead q = []) then 0 else bit (Z.of_nat n))) h.
Proof.
  intros Hn Hq Hp Hx Hpr Ho. unfold PTHREAD_WORKQUEUE_MAX in Hn.
  assert (Hs : forall i p', (replicate n NULL ++ p :: replicate k NULL) !! i = Some p' -> p' <> NULL ->
                 i = n /\ p' = p).
  { intros i p' Hi Hp'. apply lookup_app_Some in Hi as [Hi|[Hle Hi]].
    - by apply lookup_replicate in Hi as [-> _].
    - rewrite length_replicate in Hle, Hi. destruct (i - n)%nat as [|j] eqn:E; simpl in Hi.
      + simplify_eq. split; [lia|done].
      + by apply lookup_replicate in Hi as [-> _]. }
  split; [split|].
  - simpl. rewrite length_app. simpl. rewrite !length_replicate. done.
  - simpl. case_bool_decide; [done|]. apply bit_range. lia.
  - intros i p' Hi Hp'. destruct (Hs i p' Hi Hp') as [-> ->]. by exists q.
  - intros i. unfold bit_ok, slot_items. simpl.
    assert (Hbit : Z.testbit (if bool_decide (item_listhead q = []) then 0 else bit (Z.of_nat n)) (Z.of_nat i)
                   = bool_decide (n = i) && negb (bool_decide (item_listhead q = []))).
    { case_bool_decide; [by rewrite Z.bits_0, andb_false_r|]. rewrite bit_spec by lia.
      rewrite andb_true_r. apply bool_decide_ext. lia. }
    rewrite Hbit. destruct ((replicate n NULL ++ p :: replicate k NULL) !! i) as [p'|] eqn:Hi.
    + destruct (Z.eqb_spec p' NULL) as [->|Hp'].
      * rewrite bool_decide_eq_false_2; [done|]. intros <-.
        rewrite lookup_app_r in Hi by (by rewrite length_replicate).
        rewrite length_replicate, Nat.sub_diag in Hi. simpl in Hi. congruence.
      * destruct (Hs i p' Hi Hp') as [-> ->]. rewrite Hq, bool_decide_eq_true_2 by done. done.
    + rewrite bool_decide_eq_false_2; [done|]. intros <-.
      apply lookup_ge_None in Hi. rewrite length_app, length_replicate in Hi. simpl in Hi. lia.
Qed.

(** An initialised manager with one new queue structure of the default priority. *)
Definition ex_new_queue : workqueue := Workqueue PTHREAD_WORKQUEUE_SIG 0 1 0 0 [].
Definition ex_mgr0 : manager := with_wqs {[500 := ex_new_queue]} (snd (manager_init ex_env boot)).

Lemma ex_mgr0_ok : mgr_ok ex_mgr0.
Proof. split; [apply table_ok_nulls|apply table_ok_nulls|reflexivity]. Qed.

Lemma ex_mgr0_unlisted p : p <> NULL -> unlisted p ex_mgr0.
Proof.
  intros Hp. split; intros i Hi; apply lookup_replicate in Hi as [E _]; done.
Qed.

Lemma manager_workqueue_create_spec_witness :
  mgr_ok ex_mgr0 /\
  exists m', manager_workqueue_create [EAGAIN; EAGAIN; 0] 500 ex_mgr0 = Ok m' /\ mgr_ok m' /\
    slots (wqlist m') !! 1%nat = Some 500 /\ wqlist_has_manager m' <> 0.
Proof.
  split; [exact ex_mgr0_ok|].
  destruct (manager_workqueue_create_spec 2 [] 500 ex_new_queue 1 ex_mgr0) as [H _];
    [exact ex_mgr0_ok|reflexivity|by apply ex_mgr0_unlisted|reflexivity|reflexivity|vm_compute; lia|].
  destruct H as (m' & E & Hm & Hs & _ & _ & _ & Hh); [reflexivity|].
  exists m'. split; [exact E|]. split; [exact Hm|]. split; [|by apply Hh].
  change (wqlist m') with (table_of ex_new_queue m'). rewrite Hs. reflexivity.
Defined.

(** ** Adding items *)

(** The queue at [p] is listed in its table under its priority. *)
Definition listed (p : ptr) (q : workqueue) (i : nat) (m : manager) : Prop :=
  wqs m !! p = Some q /\ p <> NULL /\ slots (table_of q m) !! i = Some p.

Definition upd_fun (f : nat -> list work) (i : nat) (l : list work) (j : nat) : list work :=
  if decide (j = i) then l else f j.

Lemma listed_index p q i m :
  mgr_ok m -> listed p q i m -> wqlist_index q = Z.of_nat i /\ queueprio q = Z.of_nat i.
Proof.
  intros Hok (Hq & Hp & Hs). unfold table_of in Hs. destruct (negb (overcommit q =? 0)).
  - destruct (ts_slot _ _ _ (proj1 (mo_ocwq _ Hok)) i p Hs Hp) as (q' & ? & ? & ? & _). by simplify_eq.
  - destruct (ts_slot _ _ _ (proj1 (mo_wqlist _ Hok)) i p Hs Hp) as (q' & ? & ? & ? & _). by simplify_eq.
Qed.

Lemma pending_push (oc : bool) t m mk i p w j :
  table_ok oc t (wqs m) -> slots t !! i = Some p -> p <> NULL ->
  slot_items (Table (slots t) mk) (on_items (fun l => l ++ [w]) p (wqs m)) j =
  upd_fun (pending t m) i (pending t m i ++ [w]) j.
Proof.
  intros [Hsh _] Hs Hp. rewrite slot_items_mask, (slot_items_on_items _ _ _ Hsh _ i) by done.
  unfold upd_fun, pending. case_decide; by subst.
Qed.

Lemma with_wqlist_same m : with_wqlist (Table (slots (wqlist m)) (mask (wqlist m))) m = m.
Proof. by destruct m as [??????? [] ????]. Qed.

Lemma set_queue_mask_ok i m :
  (i < 31)%nat -> set_queue_mask (Z.of_nat i) m =
  Ok (with_wqlist (Table (slots (wqlist m)) (Z.lor (mask (wqlist m)) (bit (Z.of_nat i)))) m).
Proof.
  intros Hi. unfold set_queue_mask. rewrite mask_set_once; [done|]. apply bit_range. lia.
Qed.

(** Listing a whole step on the non-overcommit table. *)
Lemma push_wqlist_ok p q i w m :
  mgr_ok m -> listed p q i m -> overcommit q = 0 ->
  let m' := insert_tail p w (with_wqlist (Table (slots (wqlist m))
              (Z.lor (mask (wqlist m)) (bit (Z.of_nat i)))) m) in
  mgr_ok m' /\
  (forall j, pending (wqlist m') m' j = upd_fun (pending (wqlist m) m) i (pending (wqlist m) m i ++ [w]) j) /\
  (forall j, pending (ocwq m') m' j = pending (ocwq m) m j).
Proof.
  intros Hok (Hq & Hp & Hs) Ho m'. unfold table_of in Hs. rewrite Ho in Hs. simpl in Hs.
  assert (Hoc : negb (overcommit q =? 0) = negb true) by by rewrite Ho.
  split; [split|split].
  - by apply table_push; [apply Hok| |].
  - by apply (table_other _ _ _ _ _ q); [apply Hok| |].
  - apply on_items_null, Hok.
  - intros j. exact (pending_push false (wqlist m) m _ i p w j (mo_wqlist _ Hok) Hs Hp).
  - intros j. apply (slot_items_other true _ _ (proj1 (mo_ocwq _ Hok)) _ p q); done.
Qed.

(** Adding to an ordinary queue. *)
Lemma additem_ordinary rv p q i w m :
  mgr_ok m -> listed p q i m -> overcommit q = 0 ->
  exists m', manager_workqueue_additem rv p w m = Ok (m', if 0 <? idle (sb m) then [SignalWqlist] else []) /\
    mgr_ok m' /\ sb m' = sb m /\
    (forall j, pending (wqlist m') m' j = upd_fun (pending (wqlist m) m) i (pending (wqlist m) m i ++ [w]) j) /\
    (forall j, pending (ocwq m') m' j = pending (ocwq m) m j).
Proof.
  intros Hok Hl Ho. destruct (listed_index _ _ _ _ Hok Hl) as [Hx _].
  pose proof Hl as (Hq & Hp & Hs). unfold table_of in Hs. rewrite Ho in Hs. simpl in Hs.
  unfold manager_workqueue_additem. rewrite Hq. simpl. rewrite Hx, Ho. simpl.
  assert (Hr : (i < 31)%nat) by (eapply slot_range; [apply (mo_wqlist _ Hok)|done]).
  rewrite set_queue_mask_ok by done.
  assert (E : (if bool_decide (item_listhead q = []) then
                 Ok (with_wqlist (Table (slots (wqlist m)) (Z.lor (mask (wqlist m)) (bit (Z.of_nat i)))) m)
               else Ok m)
            = Ok (with_wqlist (Table (slots (wqlist m)) (Z.lor (mask (wqlist m)) (bit (Z.of_nat i)))) m)).
  { case_bool_decide as E; [done|]. rewrite lor_bit_id; [by rewrite with_wqlist_same|lia|].
    pose proof (proj2 (mo_wqlist _ Hok) i) as Hb. unfold bit_ok in Hb. rewrite Hb.
    rewrite (slot_items_at _ (wqs m) i p q) by done. by rewrite bool_decide_eq_false_2. }
  rewrite E. simpl. destruct (push_wqlist_ok p q i w m Hok Hl Ho) as (H1 & H2 & H3).
  eexists. split; [done|]. done.
Qed.

(** Adding to an overcommit queue. *)
Lemma additem_overcommit rv p q i w m :
  mgr_ok m -> listed p q i m -> overcommit q <> 0 ->
  exists m' ev, manager_workqueue_additem rv p w m = Ok (m', ev) /\ mgr_ok m' /\
    (forall j, pending (ocwq m') m' j = upd_fun (pending (ocwq m) m) i (pending (ocwq m) m i ++ [w]) j) /\
    (forall j, pending (wqlist m') m' j = pending (wqlist m) m j) /\
    (if 0 <? ocwq_idle_threads m then
       ev = [SignalOcwq] /\ ocwq_idle_threads m' = ocwq_idle_threads m -u 1 /\
       ocwq_signal_count m' = ocwq_signal_count m +u 1
     else ev = [if rv =? 0 then SpawnOvercommit else SpawnFailed] /\
          ocwq_idle_threads m' = ocwq_idle_threads m /\ ocwq_signal_count m' = ocwq_signal_count m).
Proof.
  intros Hok Hl Ho. destruct (listed_index _ _ _ _ Hok Hl) as [Hx _].
  pose proof Hl as (Hq & Hp & Hs). unfold manager_workqueue_additem. rewrite Hq. simpl. rewrite Hx.
  unfold table_of in Hs. rewrite (proj2 (Z.eqb_neq _ _) Ho) in Hs |- *. simpl in *.
  assert (Hoc : negb (overcommit q =? 0) = negb false) by by rewrite (proj2 (Z.eqb_neq _ _) Ho).
  assert (HO : table_ok true (Table (slots (ocwq m)) (Z.lor (mask (ocwq m)) (bit (Z.of_nat i))))
                 (on_items (fun l => l ++ [w]) p (wqs m))) by (apply table_push; [apply Hok|done|done]).
  assert (HW : table_ok false (wqlist m) (on_items (fun l => l ++ [w]) p (wqs m)))
    by (apply (table_other _ _ _ _ _ q); [apply Hok|done|done]).
  assert (HN : on_items (fun l => l ++ [w]) p (wqs m) !! NULL = None) by apply on_items_null, Hok.
  pose proof (fun j => pending_push true (ocwq m) m (Z.lor (mask (ocwq m)) (bit (Z.of_nat i)))
                i p w j (mo_ocwq _ Hok) Hs Hp) as HP.
  assert (HQ : forall j, slot_items (wqlist m) (on_items (fun l => l ++ [w]) p (wqs m)) j =
            pending (wqlist m) m j)
    by (intros j; apply (slot_items_other false _ _ (proj1 (mo_wqlist _ Hok)) _ p q); done).
  destruct (0 <? ocwq_idle_threads m); do 2 eexists; (split; [done|]);
    (split; [by split|]); (split; [exact HP|]); (split; [exact HQ|done]).
Qed.

(** C17.  [manager_workqueue_additem] refines the priority queue: it appends the item to
    its queue's list, leaves the other queues' lists alone and keeps the mask exact.
    Ordinary queue: one signal on [wqlist_has_work] exactly when the idle counter is
    positive, and no thread is created.  Overcommit queue: an idle thread is signalled
    (moving one from the idle count to the signal count) when there is one, otherwise a
    thread is created; if [pthread_create] fails nothing else is done and the call still
    succeeds. *)
Theorem manager_workqueue_additem_refines rv p q i w m :
  mgr_ok m -> listed p q i m ->
  exists m' ev, manager_workqueue_additem rv p w m = Ok (m', ev) /\ mgr_ok m' /\
    (forall j, pending (table_of q m') m' j =
               upd_fun (pending (table_of q m) m) i (pending (table_of q m) m i ++ [w]) j) /\
    (if negb (overcommit q =? 0) then
       (forall j, pending (wqlist m') m' j = pending (wqlist m) m j) /\
       (if 0 <? ocwq_idle_threads m then
          ev = [SignalOcwq] /\ ocwq_idle_threads m' = ocwq_idle_threads m -u 1 /\
          ocwq_signal_count m' = ocwq_signal_count m +u 1
        else ev = [if rv =? 0 then SpawnOvercommit else SpawnFailed] /\
             ocwq_idle_threads m' = ocwq_idle_threads m /\ ocwq_signal_count m' = ocwq_signal_count m)
     else
       (forall j, pending (ocwq m') m' j = pending (ocwq m) m j) /\
       ev = (if 0 <? idle (sb m) then [SignalWqlist] else []) /\ sb m' = sb m).
Proof.
  intros Hok Hl. destruct (Z.eqb_spec (overcommit q) 0) as [Ho|Ho]; simpl.
  - destruct (additem_ordinary rv p q i w m Hok Hl Ho) as (m' & E & H1 & H2 & H3 & H4).
    do 2 eexists. split; [exact E|]. unfold table_of. rewrite Ho. simpl. done.
  - destruct (additem_overcommit rv p q i w m Hok Hl Ho) as (m' & ev & E & H1 & H2 & H3 & H4).
    exists m', ev. unfold table_of. rewrite (proj2 (Z.eqb_neq _ _) Ho). simpl. done.
Qed.

(** A manager with the queue of priority 1 created, and two idle workers. *)
Definition ex_mgr1 : manager :=
  match manager_workqueue_create [0] 500 ex_mgr0 with
  | Ok m => with_sb (set_idle 2 (sb m)) m
  | _ => ex_mgr0
  end.

Definition ex_queue : workqueue := Workqueue PTHREAD_WORKQUEUE_SIG 0 1 0 1 [].

Lemma ex_mgr1_ok : mgr_ok ex_mgr1.
Proof.
  split; [|apply table_ok_nulls|reflexivity]. by apply (table_ok_single false 1 29 500 ex_queue).
Qed.

Definition ex_item (n : Z) : work := Work 0 n n 0 0 0.

Lemma ex_mgr1_listed : listed 500 ex_queue 1 ex_mgr1.
Proof. by split_and!. Qed.

Lemma manager_workqueue_additem_refines_witness :
  mgr_ok ex_mgr1 /\ listed 500 ex_queue 1 ex_mgr1 /\
  exists m', manager_workqueue_additem 0 500 (ex_item 7) ex_mgr1 = Ok (m', [SignalWqlist]) /\
    mgr_ok m' /\ pending (wqlist m') m' 1 = [ex_item 7].
Proof.
  split; [exact ex_mgr1_ok|]. split; [exact ex_mgr1_listed|].
  destruct (manager_workqueue_additem_refines 0 500 ex_queue 1 (ex_item 7) ex_mgr1)
    as (m' & ev & E & Hm & Hp & _ & Hev & _); [exact ex_mgr1_ok|exact ex_mgr1_listed|].
  exists m'. split; [rewrite E, Hev; reflexivity|]. split; [exact Hm|]. exact (Hp 1%nat).
Defined.
