(* ===== verification/ManagerMem.v ===== *)
(** * The manager over the memory of its queues (src/posix/manager.c)

    Manager.v keeps the items of a work queue as a list.  The code keeps them in memory:
    [item_listhead] is the head of a STAILQ, the items are linked through [item_entry].
    Here the operations that touch the items are written over the memory of Stailq.v, with
    the macros the code uses, and each is shown to do what the operation of Manager.v does:
    the two components fit together.  The address of a work queue stands for its head. *)

From stdpp Require Import base gmap list.
From Stdlib Require Import ZArith Lia.
From S2P Require Import Prelude Types Stailq Places Manager.

(** ** State *)

Record mem := Mem {
  mg : manager;             (* the variables; the lists in it are not used *)
  qm : qmem;                (* the heads and links *)
  wk : gmap ptr work        (* the items; their links are in [qm] *)
}.

Definition with_mg (m : manager) (s : mem) : mem := Mem m (qm s) (wk s).
Definition with_qm (q : qmem) (s : mem) : mem := Mem (mg s) q (wk s).

(** ** The operations *)

(** [manager_workqueue_additem(workq, witem)] *)
Definition additem_mem (rv : Z) (workq witem : ptr) (s : mem) : outcome (mem * list event) :=
  let* q := deref (wqs (mg s) !! workq) in
  let index := wqlist_index q in
  if negb (overcommit q =? 0) then
    let* x := STAILQ_INSERT_TAIL workq witem (qm s) in
    let m := with_ocwq (Table (slots (ocwq (mg s))) (Z.lor (mask (ocwq (mg s))) (bit index))) (mg s) in
    if 0 <? ocwq_idle_threads m then
      Ok (with_mg (with_oc_counts (ocwq_idle_threads m -u 1) (ocwq_signal_count m +u 1) m) (with_qm x s), [SignalOcwq])
    else Ok (with_mg m (with_qm x s), [if rv =? 0 then SpawnOvercommit else SpawnFailed])
  else
    let* e := STAILQ_EMPTY workq (qm s) in
    let* m := (if e : bool then set_queue_mask index (mg s) else Ok (mg s)) in
    let* x := STAILQ_INSERT_TAIL workq witem (qm s) in
    Ok (with_mg m (with_qm x s), if 0 <? idle (sb m) then [SignalWqlist] else []).

(** [wqlist_scan] *)
Definition wqlist_scan_mem (skip_thread_exit_events : bool) (s : mem) : outcome (option (ptr * Z) * mem) :=
  let idx := ffs (mask (wqlist (mg s))) in
  if idx =? 0 then Ok (None, s)
  else
    let* workq := deref (slots (wqlist (mg s)) !! Z.to_nat (idx - 1)) in
    let* q := deref (wqs (mg s) !! workq) in
    let* witem := STAILQ_FIRST workq (qm s) in
    if negb (witem =? NULL) then
      let* w := deref (wk s !! witem) in
      if negb (skip_thread_exit_events && (func w =? NULL)) then
        let* x := STAILQ_REMOVE_HEAD workq (qm s) in
        let* e := STAILQ_EMPTY workq x in
        let* m := (if e : bool then reset_queue_mask (wqlist_index q) (mg s) else Ok (mg s)) in
        Ok (Some (witem, queueprio q), with_mg m (with_qm x s))
      else Ok (None, s)
    else Ok (None, s).

(** The search of [overcommit_worker_main]. *)
Definition overcommit_scan_mem (s : mem) : outcome (option ptr * mem) :=
  let idx := ffs (mask (ocwq (mg s))) in
  if 0 <? idx then
    let* workq := deref (slots (ocwq (mg s)) !! Z.to_nat (idx - 1)) in
    let* q := deref (wqs (mg s) !! workq) in
    let* witem := STAILQ_FIRST workq (qm s) in
    if negb (witem =? NULL) then
      let* x := STAILQ_REMOVE_HEAD workq (qm s) in
      let* e := STAILQ_EMPTY workq x in
      let m := if e : bool
               then with_ocwq (Table (slots (ocwq (mg s)))
                      (Z.land (mask (ocwq (mg s))) (lnot32 (bit (wqlist_index q))))) (mg s)
               else mg s in
      Ok (Some witem, with_mg m (with_qm x s))
    else Ok (None, s)
  else Ok (None, s).

(** [worker_stop] with the item that [witem_alloc(NULL, NULL)] returned. *)
Definition worker_stop_mem (witem : ptr) (s : mem) : outcome (mem * list event) :=
  match first_workq (slots (wqlist (mg s))) with
  | None => Aborts
  | Some workq =>
      let* q := deref (wqs (mg s) !! workq) in
      let* m := set_queue_mask (wqlist_index q) (mg s) in
      let* x := STAILQ_INSERT_TAIL workq witem (qm s) in
      Ok (with_mg m (with_qm x s), [SignalWqlist])
  end.

(** ** The relation *)

(** The manager without the lists. *)
Definition forget (m : manager) : manager := with_wqs (set_items [] <$> wqs m) m.

(** Two items that agree but for their links ([item_entry] and the free list's). *)
Definition alike (w w' : work) : Prop :=
  func w = func w' /\ func_arg w = func_arg w' /\ flags w = flags w' /\ gencount w = gencount w'.

(** At the address [e] is an item with the contents of [w]. *)
Definition item_at (h : gmap ptr work) (e : ptr) (w : work) : Prop :=
  exists w', h !! e = Some w' /\ alike w' w.

Lemma item_at_heap h h' e w : h' !! e = h !! e -> item_at h e w -> item_at h' e w.
Proof. intros E (w' & Hw & Ha). exists w'. by rewrite E. Qed.

Lemma items_heap h h' es (l : list work) :
  (forall e, e ∈ es -> h' !! e = h !! e) -> Forall2 (item_at h) es l -> Forall2 (item_at h') es l.
Proof.
  intros Hh Hf. induction Hf as [|e w es l He Hf IH]; constructor.
  - eapply item_at_heap; [|done]. apply Hh. by left.
  - apply IH. intros. apply Hh. by right.
Qed.

(** The addresses [Q] of the items of every work queue: linked in memory, each an item
    with the contents the list of Manager.v has there. *)
Record repr (Q : gmap Z (list ptr)) (s : mem) (m : manager) : Prop := {
  rp_mgr : mg s = forget m;
  rp_mem : queues_repr Q (qm s);
  rp_items p q : wqs m !! p = Some q ->
    exists l, Q !! p = Some l /\ Forall2 (item_at (wk s)) l (item_listhead q)
}.

(** An item that is allocated and on no queue, with the contents [w]. *)
Definition loose (Q : gmap Z (list ptr)) (s : mem) (e : ptr) (w : work) : Prop :=
  insertable Q (dom (q_next (qm s))) e /\ item_at (wk s) e w.

(** ** Lemmas *)

Lemma forget_on_items f p h : set_items [] <$> on_items f p h = set_items [] <$> h.
Proof.
  apply map_eq. intros k. unfold on_items. rewrite !lookup_fmap, lookup_alter.
  case_decide; [subst|done]. by destruct (h !! k).
Qed.

Lemma forget_insert_tail p w m : forget (insert_tail p w m) = forget m.
Proof. unfold forget, insert_tail. simpl. by rewrite forget_on_items. Qed.
Lemma forget_remove_head p m : forget (remove_head p m) = forget m.
Proof. unfold forget, remove_head. simpl. by rewrite forget_on_items. Qed.

Lemma forget_wqs m p q : wqs m !! p = Some q -> wqs (forget m) !! p = Some (set_items [] q).
Proof. intros Hq. simpl. by rewrite lookup_fmap, Hq. Qed.

Lemma forget_listed p q i m : listed p q i (forget m) -> exists q', listed p q' i m /\ q = set_items [] q'.
Proof.
  intros (Hq & Hp & Hs). simpl in Hq. rewrite lookup_fmap in Hq. destruct (wqs m !! p) as [q'|] eqn:E; [|done].
  simpl in Hq. injection Hq as <-. exists q'. by split_and!.
Qed.

(** The queues do not see a change outside of their items. *)
Lemma repr_frame Q x m links wk' :
  repr Q x m ->
  (forall p l e, Q !! p = Some l -> e ∈ l -> wk' !! e = wk x !! e /\ links (q_next (qm x)) !! e = q_next (qm x) !! e) ->
  repr Q (Mem (mg x) (set_links links (qm x)) wk') m.
Proof.
  intros [H1 H2 H4] Hfr. split; [done|apply queues_frame; [done|intros; by eapply Hfr]|].
  intros p q Hq. destruct (H4 p q Hq) as (l & Hl & Hf). exists l. split; [done|].
  eapply items_heap; [|done]. intros e He. by apply (Hfr p l).
Qed.

(** A change of the variables only. *)
Lemma repr_vars Q s m mg' m' :
  repr Q s m -> mg' = forget m' -> wqs m' = wqs m -> repr Q (with_mg mg' s) m'.
Proof. intros [_ H2 H3] -> Hw. split; [done|done|]. intros p q. rewrite Hw. apply H3. Qed.

Lemma Forall2_empty h (l : list ptr) (ws : list work) :
  Forall2 (item_at h) l ws -> bool_decide (l = []) = bool_decide (ws = []).
Proof. destruct 1; done. Qed.

(** The observations of a queue. *)
Lemma repr_first Q s m p q :
  repr Q s m -> wqs m !! p = Some q ->
  exists l, Q !! p = Some l /\ Forall2 (item_at (wk s)) l (item_listhead q) /\
    STAILQ_FIRST p (qm s) = Ok (hd_or l NULL) /\
    STAILQ_EMPTY p (qm s) = Ok (bool_decide (item_listhead q = [])) /\
    (hd_or l NULL =? NULL) = bool_decide (item_listhead q = []).
Proof.
  intros [_ Hq Hi] Hp. destruct (Hi p q Hp) as (l & Hl & Hf). exists l.
  destruct (queue_views _ _ _ _ Hq Hl) as (H1 & H2 & H3). rewrite H2, H3, (Forall2_empty _ l _ Hf). by split_and!.
Qed.

(** [STAILQ_INSERT_TAIL] is [insert_tail]. *)
Lemma repr_push Q s m p q e w :
  repr Q s m -> wqs m !! p = Some q -> loose Q s e w ->
  exists l x, Q !! p = Some l /\ STAILQ_INSERT_TAIL p e (qm s) = Ok x /\
    repr (<[p := l ++ [e]]> Q) (with_qm x s) (insert_tail p w m).
Proof.
  intros Hr Hp [Hins Hw]. pose proof Hr as [Hmg Hq Hi]. destruct (Hi p q Hp) as (l & Hl & Hf).
  destruct (run_op_refines (OpInsertTail p e) Q _ (qm s) Hq (AInsertTail _ p e l Q Hl Hins)) as (x & Hx & Hq').
  exists l, x. split_and!; [done|done|]. split; [by rewrite forget_insert_tail|done|].
  intros p' q'. simpl. unfold on_items. rewrite lookup_alter. case_decide as E.
  - subst p'. rewrite Hp. intros [= <-]. exists (l ++ [e]). split; [apply lookup_insert_eq|].
    apply Forall2_app; [done|]. by repeat constructor.
  - intros Hp'. rewrite lookup_insert_ne by done. by apply Hi.
Qed.

(** [STAILQ_REMOVE_HEAD] is [remove_head]; the item is then on no queue. *)
Lemma repr_pop Q s m p q w rest :
  repr Q s m -> wqs m !! p = Some q -> item_listhead q = w :: rest ->
  exists e l x, Q !! p = Some (e :: l) /\ e <> NULL /\ item_at (wk s) e w /\
    STAILQ_FIRST p (qm s) = Ok e /\ STAILQ_REMOVE_HEAD p (qm s) = Ok x /\
    STAILQ_EMPTY p x = Ok (bool_decide (rest = [])) /\
    repr (<[p := l]> Q) (with_qm x s) (remove_head p m) /\
    loose (<[p := l]> Q) (with_qm x s) e w.
Proof.
  intros Hr Hp Hit. pose proof Hr as [Hmg Hq Hi]. destruct (Hi p q Hp) as (l' & Hl & Hf).
  rewrite Hit in Hf. inversion Hf as [|e ? l ? Hw Hf']; subst.
  pose proof Hq as [Hq1 Hq2]. destruct (Hq1 p _ Hl) as (Hfirst & _ & (He & Hnx & _) & [Hel _]%NoDup_cons).
  destruct (run_op_refines (OpRemoveHead p) Q _ (qm s) Hq (ARemoveHead _ p e l Q Hl)) as (x & Hx & Hq').
  assert (Hr' : repr (<[p := l]> Q) (with_qm x s) (remove_head p m)).
  { split; [by rewrite forget_remove_head|done|]. intros p' q'. simpl. unfold on_items. rewrite lookup_alter.
    case_decide as E.
    - subst p'. rewrite Hp. intros [= <-]. exists l. rewrite lookup_insert_eq. split; [done|]. simpl. by rewrite Hit.
    - intros Hp'. rewrite lookup_insert_ne by done. by apply Hi. }
  assert (Hp' : wqs (remove_head p m) !! p = Some (set_items rest q)).
  { simpl. unfold on_items. rewrite lookup_alter_eq, Hp. simpl. by rewrite Hit. }
  destruct (repr_first _ _ _ p _ Hr' Hp') as (l2 & _ & _ & _ & Hemp & _).
  exists e, l, x.
  split; [done|]. split; [done|]. split; [done|]. split; [unfold STAILQ_FIRST; by rewrite Hfirst|].
  split; [done|]. split; [done|]. split; [done|]. split; [|done]. split; [done|]. split.
  - simpl. rewrite (run_op_dom (OpRemoveHead p) _ _ Hx). apply elem_of_dom. by eexists.
  - intros h l0 [[<- <-]|[Hne Hh]]%lookup_insert_Some; [done|]. intros Hin. apply Hne.
    eapply (Hq2 p h); [done|done| |done]. set_solver.
Qed.

(** ** The simulation *)

(** Two outcomes of the same kind, with related results. *)
Definition sim {A B} (R : A -> B -> Prop) (x : outcome A) (y : outcome B) : Prop :=
  match x, y with
  | Ok a, Ok b => R a b
  | Aborts, Aborts | Faults, Faults | Blocks, Blocks => True
  | _, _ => False
  end.

Lemma sim_bind {A B C D} (R : A -> B -> Prop) (S : C -> D -> Prop) x y f g :
  sim R x y -> (forall a b, R a b -> sim S (f a) (g b)) -> sim S (obind x f) (obind y g).
Proof. destruct x, y; simpl; intuition. Qed.

Lemma sim_ok {B C} (R : B -> C -> Prop) a y : sim R (Ok a) y -> exists b, y = Ok b /\ R a b.
Proof. destruct y as [b| | |]; simpl; [eauto|done..]. Qed.

(** The calls, with the addresses of the items they are given. *)
Inductive mem_op :=
| OpAdd (rv : Z) (workq witem : ptr)
| OpScan (skip_thread_exit_events : bool)
| OpOvercommitScan
| OpStop (witem : ptr)
| OpCreate (rvs : list Z) (workq : ptr).

(** What a call answers: the item it takes and the events. *)
Definition mem_run (o : mem_op) (s : mem) : outcome (mem * (option (ptr * Z) * list event)) :=
  match o with
  | OpAdd rv p e => let* r := additem_mem rv p e s in Ok (r.1, (None, r.2))
  | OpScan skip => let* r := wqlist_scan_mem skip s in Ok (r.2, (r.1, []))
  | OpOvercommitScan => let* r := overcommit_scan_mem s in Ok (r.2, ((fun e => (e, 0)) <$> r.1, []))
  | OpStop e => let* r := worker_stop_mem e s in Ok (r.1, (None, r.2))
  | OpCreate rvs p => let* m := manager_workqueue_create rvs p (mg s) in Ok (with_mg m s, (None, []))
  end.

(** The same call of Manager.v; [at_] gives the contents of the items. *)
Definition list_run (at_ : ptr -> work) (o : mem_op) (m : manager)
  : outcome (manager * (option (work * Z) * list event)) :=
  match o with
  | OpAdd rv p e => let* r := manager_workqueue_additem rv p (at_ e) m in Ok (r.1, (None, r.2))
  | OpScan skip => let* r := wqlist_scan skip m in Ok (r.2, (r.1, []))
  | OpOvercommitScan => let* r := overcommit_scan m in Ok (r.2, ((fun w => (w, 0)) <$> r.1, []))
  | OpStop e => let* r := worker_stop m in Ok (r.1, (None, r.2))
  | OpCreate rvs p => let* m := manager_workqueue_create rvs p m in Ok (m, (None, []))
  end.

(** The item a call is given is on no queue; the exit event is the one [witem_alloc] made. *)
Definition given (at_ : ptr -> work) (Q : gmap Z (list ptr)) (s : mem) (o : mem_op) : Prop :=
  match o with
  | OpAdd _ _ e => loose Q s e (at_ e)
  | OpStop e => loose Q s e exit_event
  | _ => True
  end.

(** The item a call inserts. *)
Definition inserts (o : mem_op) : option ptr :=
  match o with OpAdd _ _ e | OpStop e => Some e | _ => None end.

(** How a call changes the queues: it takes the first item of a queue, or appends the one
    it was given, or leaves them alone. *)
Definition moves (taken given : option ptr) (Q Q' : gmap Z (list ptr)) : Prop :=
  match taken, given with
  | Some e, _ => exists p l, Q !! p = Some (e :: l) /\ Q' = <[p := l]> Q
  | None, Some e => exists p l, Q !! p = Some l /\ Q' = <[p := l ++ [e]]> Q
  | None, None => Q' = Q
  end.

(** After a call: the lists are represented again, the items are as they were, the same
    events, and the item taken is the one at the address, now on no queue. *)
Definition after (Q : gmap Z (list ptr)) (s0 : mem) (given : option ptr)
    (a : manager * (option (work * Z) * list event)) (b : mem * (option (ptr * Z) * list event)) : Prop :=
  exists Q', repr Q' b.1 a.1 /\ wk b.1 = wk s0 /\ dom (q_next (qm b.1)) = dom (q_next (qm s0)) /\
    a.2.2 = b.2.2 /\ moves (fst <$> b.2.1) given Q Q' /\
    match a.2.1, b.2.1 with
    | Some (w, pr), Some (e, pr') => loose Q' b.1 e w /\ pr = pr'
    | None, None => True
    | _, _ => False
    end.

(** A step on the variables alone. *)
Definition commutes (f : manager -> outcome manager) : Prop :=
  forall m, sim (fun a b => b = forget a /\ wqs a = wqs m) (f m) (f (forget m)).

Lemma set_queue_mask_commutes i : commutes (set_queue_mask i).
Proof. intros m. unfold set_queue_mask. simpl. by destruct (mask_set_loop _ _ _). Qed.
Lemma reset_queue_mask_commutes i : commutes (reset_queue_mask i).
Proof. intros m. unfold reset_queue_mask. simpl. by destruct (mask_clear_loop _ _ _). Qed.
Lemma commutes_if (b : bool) f : commutes f -> commutes (fun m => if b then f m else Ok m).
Proof. intros Hf m. destruct b; [apply Hf|]. by split. Qed.

(** Dereferencing a work queue. *)
Lemma sim_deref_wq {C D} (S : C -> D -> Prop) m p f g :
  (forall q, wqs m !! p = Some q -> sim S (f q) (g (set_items [] q))) ->
  sim S (obind (deref (wqs m !! p)) f) (obind (deref (wqs (forget m) !! p)) g).
Proof. intros H. simpl. rewrite lookup_fmap. destruct (wqs m !! p); [by apply H|done]. Qed.

Section Calls.
Context (Q : gmap Z (list ptr)) (s : mem) (m : manager).
Hypothesis Hr : repr Q s m.

(** The variables are set and the item inserted, in either order. *)
Lemma pushed p e w x m' l :
  Q !! p = Some l -> STAILQ_INSERT_TAIL p e (qm s) = Ok x ->
  repr (<[p := l ++ [e]]> Q) (with_qm x s) (insert_tail p w m) -> wqs m' = wqs (insert_tail p w m) -> forall mg', mg' = forget m' -> forall ev,
  after Q s (Some e) (m', (None, ev)) (with_mg mg' (with_qm x s), (None, ev)).
Proof.
  intros HQ Hx Hr' Hw mg' -> ev. eexists. split_and!; [by eapply repr_vars|done| |done| |done].
  - exact (run_op_dom (OpInsertTail p e) _ _ Hx).
  - by exists p, l.
Qed.

Lemma additem_sim rv p e w :
  loose Q s e w ->
  sim (fun a b => after Q s (Some e) (a.1, (None, a.2)) (b.1, (None, b.2)))
    (manager_workqueue_additem rv p w m) (additem_mem rv p e s).
Proof.
  intros Hl. unfold manager_workqueue_additem, additem_mem. rewrite (rp_mgr _ _ _ Hr).
  apply sim_deref_wq. intros q Hq. cbn [overcommit wqlist_index set_items].
  destruct (repr_push _ _ _ _ _ _ _ Hr Hq Hl) as (l & x & HQ & Hx & Hr').
  destruct (negb (overcommit q =? 0)).
  - rewrite Hx. cbn [obind]. change (ocwq_idle_threads _) with (ocwq_idle_threads m).
    case_match; simpl; (eapply pushed; [done|done|done| |]; [done|]); simpl; unfold forget; simpl; by rewrite forget_on_items.
  - destruct (repr_first _ _ _ _ _ Hr Hq) as (l' & _ & _ & _ & -> & _). cbn [obind].
    eapply sim_bind; [apply (commutes_if _ (set_queue_mask (wqlist_index q))), set_queue_mask_commutes|].
    intros a b [-> Hw]. rewrite Hx. simpl. eapply pushed; [done|done|done| |].
    + unfold insert_tail. simpl. by rewrite Hw.
    + by rewrite forget_insert_tail.
Qed.

Lemma worker_stop_sim e :
  loose Q s e exit_event ->
  sim (fun a b => after Q s (Some e) (a.1, (None, a.2)) (b.1, (None, b.2))) (worker_stop m) (worker_stop_mem e s).
Proof.
  intros Hl. unfold worker_stop, worker_stop_mem. rewrite (rp_mgr _ _ _ Hr).
  change (wqlist (forget m)) with (wqlist m). destruct (first_workq _) as [p|]; [|done].
  apply sim_deref_wq. intros q Hq. cbn [wqlist_index set_items].
  destruct (repr_push _ _ _ _ _ _ _ Hr Hq Hl) as (l & x & HQ & Hx & Hr').
  eapply sim_bind; [apply set_queue_mask_commutes|]. intros a b [-> Hw]. rewrite Hx. simpl.
  eapply pushed; [done|done|done| |].
  - unfold insert_tail. simpl. by rewrite Hw.
  - by rewrite forget_insert_tail.
Qed.

Lemma same_state : after Q s None (m, (None, [])) (s, (None, [])).
Proof. by exists Q. Qed.

Lemma wqlist_scan_sim skip :
  sim (fun a b => after Q s None (a.2, (a.1, [])) (b.2, (b.1, []))) (wqlist_scan skip m) (wqlist_scan_mem skip s).
Proof.
  unfold wqlist_scan, wqlist_scan_mem. rewrite (rp_mgr _ _ _ Hr).
  change (wqlist (forget m)) with (wqlist m). case_match; [apply same_state|].
  destruct (slots (wqlist m) !! _) as [p|]; [|done]. cbn [deref obind].
  apply sim_deref_wq. intros q Hq. cbn [wqlist_index queueprio set_items].
  destruct (item_listhead q) as [|w rest] eqn:Hi.
  - destruct (repr_first _ _ _ _ _ Hr Hq) as (l & _ & _ & -> & _ & Hn). rewrite Hi in Hn.
    cbn [obind]. rewrite Hn. apply same_state.
  - destruct (repr_pop _ _ _ _ _ _ _ Hr Hq Hi) as (e & l & x & HQ & He & (w' & Hw & Hf & _) & -> & Hx & Hemp & Hr' & Hl).
    cbn [obind]. rewrite (proj2 (Z.eqb_neq e NULL) He), Hw. cbn [deref obind negb]. rewrite Hf, Hx.
    case_match; [|apply same_state]. cbn [obind]. rewrite Hemp. cbn [obind].
    eapply (sim_bind (fun a b => b = forget a /\ wqs a = wqs (remove_head p m))).
    + rewrite <- (forget_remove_head p m). destruct rest; [apply reset_queue_mask_commutes|by split].
    + intros a b [-> Ha]. exists (<[p:=l]> Q). simpl.
      split_and!; [by eapply repr_vars|done|exact (run_op_dom (OpRemoveHead p) _ _ Hx)|done|by exists p, l|exact Hl|done].
Qed.

Lemma overcommit_scan_sim :
  sim (fun a b => after Q s None (a.2, ((fun w => (w, 0)) <$> a.1, [])) (b.2, ((fun e => (e, 0)) <$> b.1, [])))
    (overcommit_scan m) (overcommit_scan_mem s).
Proof.
  unfold overcommit_scan, overcommit_scan_mem. rewrite (rp_mgr _ _ _ Hr).
  change (ocwq (forget m)) with (ocwq m). case_match; [|apply same_state].
  destruct (slots (ocwq m) !! _) as [p|]; [|done]. cbn [deref obind].
  apply sim_deref_wq. intros q Hq. cbn [wqlist_index set_items].
  destruct (item_listhead q) as [|w rest] eqn:Hi.
  - destruct (repr_first _ _ _ _ _ Hr Hq) as (l & _ & _ & -> & _ & Hn). rewrite Hi in Hn.
    cbn [obind]. rewrite Hn. apply same_state.
  - destruct (repr_pop _ _ _ _ _ _ _ Hr Hq Hi) as (e & l & x & HQ & He & Hw & -> & Hx & Hemp & Hr' & Hl).
    cbn [obind]. rewrite (proj2 (Z.eqb_neq e NULL) He), Hx. cbn [obind negb]. rewrite Hemp. cbn [obind].
    exists (<[p:=l]> Q). simpl.
    split_and!; [|done|exact (run_op_dom (OpRemoveHead p) _ _ Hx)|done|by exists p, l|exact Hl|done].
    eapply repr_vars; [done| |by destruct rest].
    destruct rest; unfold forget; simpl; by rewrite forget_on_items.
Qed.

(** [manager_workqueue_create] does not look at the items. *)
Lemma manager_start_sim rvs :
  sim (fun a b => b = forget a /\ wqs a = wqs m) (manager_start rvs m) (manager_start rvs (forget m)).
Proof. induction rvs as [|rv rvs IH]; [done|]. simpl. case_match; [done|]. by case_match. Qed.

Lemma create_sim rvs p :
  sim (fun a b => after Q s None (a, (None, [])) (with_mg b s, (None, [])))
    (manager_workqueue_create rvs p m) (manager_workqueue_create rvs p (mg s)).
Proof.
  unfold manager_workqueue_create. rewrite (rp_mgr _ _ _ Hr).
  apply sim_deref_wq. intros q Hq. cbn [overcommit set_items].
  eapply (sim_bind (fun a b => b = forget a /\ wqs a = wqs m)).
  { change (wqlist_has_manager (forget m)) with (wqlist_has_manager m).
    case_match; [apply manager_start_sim|by split]. }
  intros a b [-> Hw].
  assert (Hafter : forall a', wqs a' = <[p := set_wqlist_index (queueprio q) q]> (wqs m) ->
    after Q s None (a', (None, [])) (with_mg (forget a') s, (None, []))).
  { intros a' Ha. exists Q. simpl. split_and!; try done. destruct Hr as [_ H2 H3]. split; [done|done|].
    intros p' q'. rewrite Ha. intros [[<- <-]|[Hne Hp']]%lookup_insert_Some; [by apply (H3 p q)|by apply H3]. }
  assert (Hf : forall u t, u = with_ocwq t \/ u = with_wqlist t ->
    u (with_wqs (<[p := set_wqlist_index (queueprio q) (set_items [] q)]> (wqs (forget a))) (forget a)) =
    forget (u (with_wqs (<[p := set_wqlist_index (queueprio q) q]> (wqs a)) a))).
  { intros u t [-> | ->]; unfold forget; simpl; by rewrite fmap_insert. }
  change (install p (set_items [] q)) with (install p q). cbn [queueprio set_items].
  case_match.
  - change (ocwq (forget a)) with (ocwq a). destruct (install _ _ _) as [t| | |]; try done. cbn [obind sim].
    rewrite (Hf (with_ocwq t) t) by auto. apply Hafter. simpl. by rewrite Hw.
  - change (wqlist (forget a)) with (wqlist a). destruct (install _ _ _) as [t| | |]; try done. cbn [obind sim].
    rewrite (Hf (with_wqlist t) t) by auto. apply Hafter. simpl. by rewrite Hw.
Qed.
End Calls.

(** C18.  Over memory the manager does what it does on lists: on a memory that represents the
    queues, each of [manager_workqueue_additem], [wqlist_scan], the search of
    [overcommit_worker_main], [worker_stop] and [manager_workqueue_create], run with the
    STAILQ macros on the heads and links, ends the same way (with a result, an abort or a
    fault) as the operation on lists, with the same events; the memory then represents the
    resulting queues, no item's contents changed, and an item that was taken is the one at
    the returned address, linked on no queue any more.  The queues change by one item at
    most: the first of one queue is taken, or the given item is appended to one. *)
Theorem manager_over_memory at_ Q s m o :
  repr Q s m -> given at_ Q s o -> sim (after Q s (inserts o)) (list_run at_ o m) (mem_run o s).
Proof.
  intros Hr Hg. destruct o as [rv p e|skip| |e|rvs p]; simpl in *.
  - eapply sim_bind; [by eapply additem_sim|]. by intros [] [].
  - eapply sim_bind; [by eapply wqlist_scan_sim|]. by intros [] [].
  - eapply sim_bind; [by eapply overcommit_scan_sim|]. by intros [] [].
  - eapply sim_bind; [by eapply worker_stop_sim|]. by intros [] [].
  - eapply sim_bind; [by eapply create_sim|]. by intros ? ?.
Qed.

(** *** A queue at priority 2 with one item in memory is given a second one. *)

Definition ex_item (f : ptr) : work := Work NULL f 8 0 0 NULL.
Definition ex_queue : workqueue := Workqueue PTHREAD_WORKQUEUE_SIG 0 2 0 2 [ex_item 10].
Definition ex_mgr : manager :=
  Manager 4 2 2 0 (Table (replicate 31 NULL) 0) 0 0
    (Table (<[2%nat := 100]> (replicate 31 NULL)) 4) 1 (Scoreboard 0 1 0 1 0 0) 0 {[100 := ex_queue]}.
Definition ex_state : mem :=
  Mem (forget ex_mgr) (QMem {[100 := 10]} {[100 := CNext 10]} (<[10:=0]> {[20:=0]}))
    (<[10 := ex_item 10]> {[20 := ex_item 20]}).

Lemma ex_repr : repr {[100 := [10]]} ex_state ex_mgr.
Proof.
  split; [done| |].
  - split.
    + intros h l [<- <-]%lookup_singleton_Some. split_and!; [done|done| |apply NoDup_singleton]. by vm_compute.
    + by intros h1 h2 l1 l2 x [<- <-]%lookup_singleton_Some [<- <-]%lookup_singleton_Some.
  - intros p q Hp. change (wqs ex_mgr) with ({[100 := ex_queue]} : gmap Z workqueue) in Hp.
    apply lookup_singleton_Some in Hp as [<- <-]. exists [10]. split; [done|]. constructor; [by eexists|constructor].
Qed.

Lemma manager_over_memory_witness :
  sim (after {[100 := [10]]} ex_state (Some 20)) (list_run ex_item (OpAdd 0 100 20) ex_mgr)
    (mem_run (OpAdd 0 100 20) ex_state) /\
  (exists s' ev, mem_run (OpAdd 0 100 20) ex_state = Ok (s', (None, ev)) /\ q_next (qm s') !! 10 = Some 20).
Proof.
  split.
  - apply (manager_over_memory ex_item {[100 := [10]]}); [apply ex_repr|].
    split; [|by eexists]. split; [done|]. split.
    + apply elem_of_dom. by eexists.
    + intros h l [<- <-]%lookup_singleton_Some. set_solver.
  - eexists _, _. split; by vm_compute.
Defined.
