(* ===== verification/Dispatch.v ===== *)
(** * Priority dispatch: taking items, stopping workers, control (src/posix/manager.c)

    [wqlist_scan] and the overcommit worker's search are shown to take the oldest item
    of the highest pending priority, so that emptying the queues yields all pending
    items in priority order and, within a priority, in the order they were added.  The
    functional behaviour of the remaining operations of the manager follows. *)

From stdpp Require Import base gmap list strings.
From Stdlib Require Import ZArith Lia.
From S2P Require Import Prelude Types Manager.

(** ** Taking the next item *)

(** The abstract operation: the least non-empty priority gives up its first item. *)
Definition takes (f f' : nat -> list work) (i : nat) (w : work) : Prop :=
  f i = w :: f' i /\ (forall j, (j < i)%nat -> f j = []) /\ (forall j, j <> i -> f' j = f j).

(** Emptying the queues: [wqlist_scan] until it finds nothing. *)
Fixpoint drain (fuel : nat) (m : manager) : outcome (list work * manager) :=
  match fuel with
  | O => Blocks
  | S fuel =>
      let* (r, m) := wqlist_scan false m in
      match r with
      | None => Ok ([], m)
      | Some (w, _) => let* (l, m) := drain fuel m in Ok (w :: l, m)
      end
  end.

(** All pending items, by priority. *)
Definition all_pending (f : nat -> list work) : list work :=
  concat (map f (seq 0 PTHREAD_WORKQUEUE_MAX)).

(** ** Lemmas *)

(** The head of the highest pending priority. *)
Lemma wqlist_head m :
  mgr_ok m -> ffs (mask (wqlist m)) <> 0 ->
  exists i p q w rest,
    slots (wqlist m) !! Z.to_nat (ffs (mask (wqlist m)) - 1) = Some p /\
    slots (wqlist m) !! i = Some p /\ p <> NULL /\ wqs m !! p = Some q /\
    wqlist_index q = Z.of_nat i /\ queueprio q = Z.of_nat i /\ overcommit q = 0 /\
    item_listhead q = w :: rest /\ pending (wqlist m) m i = w :: rest /\
    (forall j, (j < i)%nat -> pending (wqlist m) m j = []).
Proof.
  intros Hok Hf.
  destruct (ffs_pending _ _ _ (mo_wqlist _ Hok) Hf) as (i & p & q & Ei & Hs & Hp & Hq & Hx & Hpr & Ho & Hne & Hl).
  destruct (item_listhead q) as [|w rest] eqn:Hit; [done|].
  exists i, p, q, w, rest. rewrite Ei, Nat2Z.id. split_and!; try done.
  - destruct (Z.eqb_spec (overcommit q) 0); [done|]. done.
  - unfold pending. by rewrite (slot_items_at _ (wqs m) i p q).
Qed.

(** Removing the head and clearing an emptied queue's bit. *)
Lemma pop_wqlist m i p q w rest :
  mgr_ok m -> slots (wqlist m) !! i = Some p -> p <> NULL -> wqs m !! p = Some q ->
  overcommit q = 0 -> pending (wqlist m) m i = w :: rest ->
  exists m', (match rest with [] => reset_queue_mask (Z.of_nat i) (remove_head p m) | _ => Ok (remove_head p m) end)
               = Ok m' /\ mgr_ok m' /\ sb m' = sb m /\
    pending (wqlist m') m' i = rest /\
    (forall j, j <> i -> pending (wqlist m') m' j = pending (wqlist m) m j) /\
    (forall j, pending (ocwq m') m' j = pending (ocwq m) m j).
Proof.
  intros Hok Hs Hp Hq Ho Hit.
  pose proof (slot_range _ _ _ (proj1 (mo_wqlist _ Hok)) _ _ Hs) as Hr.
  pose proof (table_pop _ _ _ i p w rest (mo_wqlist _ Hok) Hs Hp Hit) as HW.
  assert (HO : table_ok true (ocwq m) (on_items (@tail work) p (wqs m))).
  { apply (table_other _ _ _ _ _ q); [apply Hok|done|by rewrite Ho]. }
  assert (HN : on_items (@tail work) p (wqs m) !! NULL = None) by apply on_items_null, Hok.
  assert (HP : forall mk j, slot_items (Table (slots (wqlist m)) mk) (on_items (@tail work) p (wqs m)) j =
                if decide (j = i) then rest else pending (wqlist m) m j).
  { intros mk j. rewrite slot_items_mask, (slot_items_on_items _ _ _ (proj1 (mo_wqlist _ Hok)) _ i) by done.
    case_decide; [subst|done]. fold (pending (wqlist m) m i). by rewrite Hit. }
  assert (HQ : forall j, slot_items (ocwq m) (on_items (@tail work) p (wqs m)) j = pending (ocwq m) m j)
    by (intros j; apply (slot_items_other true _ _ (proj1 (mo_ocwq _ Hok)) _ p q); [done|by rewrite Ho]).
  destruct rest as [|r rest].
  - unfold reset_queue_mask. simpl.
    rewrite mask_clear_once by first [lia|apply (mo_wqlist _ Hok)]. simpl.
    eexists. split; [done|]. split; [by split|]. split; [done|]. unfold pending at 1 2 3. simpl.
    split_and!; [by rewrite HP, decide_True|intros j Hj; by rewrite HP, decide_False|exact HQ].
  - eexists. split; [done|].
    pose proof (HP (mask (wqlist m))) as HP'. unfold remove_head in *.
    assert (ET : Table (slots (wqlist m)) (mask (wqlist m)) = wqlist m) by by destruct (wqlist m).
    simpl in HW. rewrite ET in HW, HP'.
    split; [by split|]. split; [done|]. unfold pending at 1 2 3. simpl.
    split_and!; [by rewrite HP', decide_True|intros j Hj; by rewrite HP', decide_False|exact HQ].
Qed.

(** What a call of [wqlist_scan] returns. *)
Lemma wqlist_scan_result skip m :
  mgr_ok m ->
  (wqlist_scan skip m = Ok (None, m) /\
   ((forall j, pending (wqlist m) m j = []) \/
    (skip = true /\ exists i w rest, pending (wqlist m) m i = w :: rest /\ func w = NULL /\
       forall j, (j < i)%nat -> pending (wqlist m) m j = []))) \/
  (exists i w m', wqlist_scan skip m = Ok (Some (w, Z.of_nat i), m') /\ mgr_ok m' /\
     takes (pending (wqlist m) m) (pending (wqlist m') m') i w /\
     (skip = true -> func w <> NULL) /\ sb m' = sb m /\
     (forall j, pending (ocwq m') m' j = pending (ocwq m) m j)).
Proof.
  intros Hok. unfold wqlist_scan. destruct (Z.eqb_spec (ffs (mask (wqlist m))) 0) as [E|E].
  - left. split; [done|]. left. intros j. by apply (ffs_none _ _ _ j (mo_wqlist _ Hok)).
  - destruct (wqlist_head m Hok E) as (i & p & q & w & rest & Hsf & Hs & Hp & Hq & Hx & Hpr & Ho & Hit & Hpe & Hlow).
    rewrite Hsf. simpl. rewrite Hq. simpl. rewrite Hit.
    destruct (skip && (func w =? NULL)) eqn:Hskip; simpl.
    + left. split; [done|]. right. apply andb_true_iff in Hskip as [-> Hw]. split; [done|].
      exists i, w, rest. split_and!; [done|by apply Z.eqb_eq|done].
    + right. rewrite Hx.
      destruct (pop_wqlist m i p q w rest Hok Hs Hp Hq Ho Hpe) as (m' & -> & Hok' & Hsb & Hi & Hj & Hoc).
      exists i, w, m'. simpl. rewrite Hpr. split_and!; try done.
      * split_and!; [by rewrite Hpe, Hi|done|done].
      * intros ->. simpl in Hskip. by apply Z.eqb_neq.
Qed.

Lemma concat_map_nil (f : nat -> list work) s : (forall j, j ∈ s -> f j = []) -> concat (map f s) = [].
Proof.
  induction s as [|j s IH]; intros Hf; simpl; [done|]. rewrite Hf, IH by set_solver. done.
Qed.

Lemma concat_map_ext (f g : nat -> list work) s :
  (forall j, j ∈ s -> f j = g j) -> concat (map f s) = concat (map g s).
Proof.
  induction s as [|j s IH]; intros Hf; simpl; [done|]. by rewrite (Hf j), IH by set_solver.
Qed.

Lemma seq_around i n : (i < n)%nat -> seq 0 n = seq 0 i ++ i :: seq (S i) (n - S i).
Proof. intros Hi. replace n with (i + S (n - S i))%nat at 1 by lia. by rewrite seq_app. Qed.

(** Taking an item takes the first of all pending ones. *)
Lemma all_pending_takes f f' i w :
  takes f f' i w -> (i < PTHREAD_WORKQUEUE_MAX)%nat -> all_pending f = w :: all_pending f'.
Proof.
  intros (Hi & Hlow & Hoth) Hlt. unfold all_pending.
  assert (Hin : forall j n k, j ∈ seq n k -> (n <= j < n + k)%nat).
  { intros j n k. rewrite list_elem_of_In, in_seq. lia. }
  rewrite (seq_around i), !map_app, !concat_app by done. simpl.
  rewrite (concat_map_nil f (seq 0 i)), (concat_map_nil f' (seq 0 i)).
  - simpl. rewrite Hi. simpl. f_equal. f_equal. apply concat_map_ext.
    intros j Hj%Hin. symmetry. apply Hoth. lia.
  - intros j Hj%Hin. rewrite Hoth by lia. apply Hlow. lia.
  - intros j Hj%Hin. apply Hlow. lia.
Qed.

(** Adding an item adds it to all pending ones. *)
Lemma all_pending_push f f' i w :
  (forall j, f' j = upd_fun f i (f i ++ [w]) j) -> (i < PTHREAD_WORKQUEUE_MAX)%nat ->
  all_pending f' ≡ₚ w :: all_pending f.
Proof.
  intros Hf Hlt. unfold all_pending.
  assert (Hother : forall s, (i ∉ s) -> concat (map f' s) = concat (map f s)).
  { intros s Hs. apply concat_map_ext. intros j Hj. rewrite Hf. unfold upd_fun.
    rewrite decide_False; [done|]. by intros ->. }
  rewrite (seq_around i), !map_app, !concat_app by done. simpl.
  rewrite !Hother by (rewrite list_elem_of_In, in_seq; lia).
  rewrite Hf. unfold upd_fun. rewrite decide_True by done.
  rewrite <- !app_assoc. simpl. rewrite Permutation_middle. apply Permutation_app_head.
  by rewrite <- Permutation_middle.
Qed.

Lemma pending_range m i w l : mgr_ok m -> pending (wqlist m) m i = w :: l -> (i < PTHREAD_WORKQUEUE_MAX)%nat.
Proof.
  intros Hok. unfold pending, slot_items. destruct (slots (wqlist m) !! i) as [p|] eqn:Hi; [|done].
  intros _. eapply slot_range; [apply (mo_wqlist _ Hok)|done].
Qed.

(** ** Properties of the search *)

(** C19.  [wqlist_scan] never faults on a well-formed manager, keeps the mask exact and
    takes the oldest item of the highest pending priority (the lowest index), reporting
    that priority and leaving all other queues alone.  It finds nothing only when nothing
    is pending or, when told to skip thread exit events, when such an event heads the
    highest pending queue; then the state is unchanged. *)
Theorem wqlist_scan_takes_next skip m :
  mgr_ok m ->
  exists r m', wqlist_scan skip m = Ok (r, m') /\ mgr_ok m' /\ sb m' = sb m /\
    (forall j, pending (ocwq m') m' j = pending (ocwq m) m j) /\
    match r with
    | Some (w, prio) =>
        exists i, prio = Z.of_nat i /\ takes (pending (wqlist m) m) (pending (wqlist m') m') i w /\
                  (skip = true -> func w <> NULL)
    | None =>
        m' = m /\
        ((forall j, pending (wqlist m) m j = []) \/
         (skip = true /\ exists i w rest, pending (wqlist m) m i = w :: rest /\ func w = NULL /\
            forall j, (j < i)%nat -> pending (wqlist m) m j = []))
    end.
Proof.
  intros Hok. destruct (wqlist_scan_result skip m Hok) as [[E H]|(i & w & m' & E & Hok' & Ht & Hs & Hsb & Ho)].
  - exists None, m. by split_and!.
  - exists (Some (w, Z.of_nat i)), m'. split_and!; try done. by exists i.
Qed.

(** Two items in the queue of priority 1. *)
Definition ex_mgr2 : manager := insert_tail 500 (ex_item 8)
  match manager_workqueue_additem 0 500 (ex_item 7) ex_mgr1 with Ok (m, _) => m | _ => ex_mgr1 end.

Lemma ex_mgr2_ok : mgr_ok ex_mgr2.
Proof.
  split; [|apply table_ok_nulls|reflexivity].
  by apply (table_ok_single false 1 29 500 (set_items [ex_item 7; ex_item 8] ex_queue)).
Qed.

Lemma wqlist_scan_takes_next_witness :
  mgr_ok ex_mgr2 /\
  exists r m', wqlist_scan true ex_mgr2 = Ok (r, m') /\ mgr_ok m' /\ r = Some (ex_item 7, 1).
Proof.
  split; [exact ex_mgr2_ok|].
  destruct (wqlist_scan_takes_next true ex_mgr2 ex_mgr2_ok) as (r & m' & E & Hm & _).
  exists r, m'. split; [exact E|]. split; [exact Hm|]. vm_compute in E. by injection E as <- _.
Defined.

(** C20.  Emptying the ordinary queues terminates after as many scans as there are items
    and yields every pending item exactly once, by priority and, within a priority, in
    the order the items were added; nothing is left. *)
Theorem drain_priority_fifo m :
  mgr_ok m ->
  exists m', drain (S (length (all_pending (pending (wqlist m) m)))) m =
               Ok (all_pending (pending (wqlist m) m), m') /\
    mgr_ok m' /\ (forall j, pending (wqlist m') m' j = []).
Proof.
  remember (length (all_pending (pending (wqlist m) m))) as n eqn:Hn. revert m Hn.
  induction n as [|n IH]; intros m Hn Hok; simpl;
    destruct (wqlist_scan_result false m Hok) as [[-> [Hall|[? _]]]|(i & w & m1 & -> & Hok1 & Ht & _)];
    try done; simpl.
  - exists m. unfold all_pending. rewrite (concat_map_nil (pending (wqlist m) m)) by (intros; apply Hall). done.
  - assert (Hi : (i < PTHREAD_WORKQUEUE_MAX)%nat) by exact (pending_range m i w _ Hok (proj1 Ht)).
    by rewrite (all_pending_takes _ _ _ _ Ht Hi) in Hn.
  - exists m. unfold all_pending. rewrite (concat_map_nil (pending (wqlist m) m)) by (intros; apply Hall). done.
  - assert (Hi : (i < PTHREAD_WORKQUEUE_MAX)%nat) by exact (pending_range m i w _ Hok (proj1 Ht)).
    rewrite (all_pending_takes _ _ _ _ Ht Hi) in Hn |- *. simpl in Hn. injection Hn as Hn.
    destruct (IH m1 Hn Hok1) as (m' & E & Hok' & He). simpl in E. rewrite E. simpl. by exists m'.
Qed.

Lemma drain_priority_fifo_witness :
  mgr_ok ex_mgr2 /\ exists m', drain 3 ex_mgr2 = Ok ([ex_item 7; ex_item 8], m') /\ mgr_ok m'.
Proof.
  split; [exact ex_mgr2_ok|]. destruct (drain_priority_fifo ex_mgr2 ex_mgr2_ok) as (m' & E & Hm & _).
  exists m'. split; [exact E|exact Hm].
Defined.

(** What a search of an overcommit worker finds. *)
Lemma overcommit_scan_result m :
  mgr_ok m ->
  (overcommit_scan m = Ok (None, m) /\ forall j, pending (ocwq m) m j = []) \/
  (exists i w m', overcommit_scan m = Ok (Some w, m') /\ mgr_ok m' /\
     takes (pending (ocwq m) m) (pending (ocwq m') m') i w /\
     (forall j, pending (wqlist m') m' j = pending (wqlist m) m j) /\
     ocwq_idle_threads m' = ocwq_idle_threads m /\ ocwq_signal_count m' = ocwq_signal_count m).
Proof.
  intros Hok. unfold overcommit_scan.
  destruct (Z.ltb_spec 0 (ffs (mask (ocwq m)))) as [Hf|Hf].
  - right.
    destruct (ffs_pending _ _ _ (mo_ocwq _ Hok)) as (i & p & q & Ei & Hs & Hp & Hq & Hx & Hpr & Ho & Hne & Hl); [lia|].
    rewrite Ei, Nat2Z.id, Hs. simpl. rewrite Hq. simpl.
    destruct (item_listhead q) as [|w rest] eqn:Hit; [done|].
    assert (Hpe : slot_items (ocwq m) (wqs m) i = w :: rest)
      by (rewrite (slot_items_at _ (wqs m) i p q) by done; done).
    pose proof (table_pop _ _ _ i p w rest (mo_ocwq _ Hok) Hs Hp Hpe) as HO.
    assert (HW : table_ok false (wqlist m) (on_items (@tail work) p (wqs m))).
    { apply (table_other _ _ _ _ _ q); [apply Hok|done|by rewrite Ho]. }
    assert (HN : on_items (@tail work) p (wqs m) !! NULL = None) by apply on_items_null, Hok.
    set (m' := match rest with [] => _ | _ => remove_head p m end).
    assert (Em : m' = with_ocwq (Table (slots (ocwq m)) (match rest with
                        [] => Z.land (mask (ocwq m)) (lnot32 (bit (Z.of_nat i))) | _ => mask (ocwq m) end))
                        (remove_head p m)).
    { unfold m'. rewrite Hx. destruct rest; [done|]. unfold remove_head. by destruct m as [???? [] ???????]. }
    exists i, w, m'. split; [done|]. rewrite Em. split; [by split|]. split; [|split; [|done]].
    + unfold takes, pending. simpl.
      split_and!; [|done|intros j Hj]; rewrite slot_items_mask,
        (slot_items_on_items _ _ _ (proj1 (mo_ocwq _ Hok)) _ i) by done.
      * rewrite decide_True by done. by rewrite Hpe.
      * by rewrite decide_False.
    + intros j. apply (slot_items_other false _ _ (proj1 (mo_wqlist _ Hok)) _ p q); [done|by rewrite Ho].
  - left. split; [done|]. assert (Hf0 : ffs (mask (ocwq m)) = 0).
    { pose proof (ts_mask _ _ _ (proj1 (mo_ocwq _ Hok))) as [Hm _].
      destruct (decide (mask (ocwq m) = 0)) as [->|]; [done|].
      destruct (ffs_least (mask (ocwq m))) as [? _]; lia. }
    intros j. by apply (ffs_none _ _ _ j (mo_ocwq _ Hok)).
Qed.

(** The overcommit worker's search takes the oldest item of the highest pending
    overcommit priority, keeps [ocwq_mask] exact, does not touch the ordinary queues, and
    finds nothing exactly when no overcommit item is pending. *)
Theorem overcommit_scan_takes_next m :
  mgr_ok m ->
  exists r m', overcommit_scan m = Ok (r, m') /\ mgr_ok m' /\
    (forall j, pending (wqlist m') m' j = pending (wqlist m) m j) /\
    match r with
    | Some w => exists i, takes (pending (ocwq m) m) (pending (ocwq m') m') i w
    | None => m' = m /\ forall j, pending (ocwq m) m j = []
    end.
Proof.
  intros Hok. destruct (overcommit_scan_result m Hok) as [[E H]|(i & w & m' & E & H1 & H2 & H3 & _)].
  - exists None, m. by split_and!.
  - exists (Some w), m'. split_and!; try done. by exists i.
Qed.

(** An overcommit queue of priority 0 with one item. *)
Definition ex_ocq : workqueue := Workqueue PTHREAD_WORKQUEUE_SIG 0 0 1 0 [ex_item 9].
Definition ex_mgr3 : manager :=
  with_wqs {[600 := ex_ocq]}
    (with_ocwq (Table (600 :: replicate 30 NULL) 1) (snd (manager_init ex_env boot))).

Lemma ex_mgr3_ok : mgr_ok ex_mgr3.
Proof.
  split; [apply table_ok_nulls| |reflexivity]. by apply (table_ok_single true 0 30 600 ex_ocq).
Qed.

Lemma overcommit_scan_takes_next_witness :
  mgr_ok ex_mgr3 /\ exists r m', overcommit_scan ex_mgr3 = Ok (r, m') /\ mgr_ok m' /\ r = Some (ex_item 9).
Proof.
  split; [exact ex_mgr3_ok|].
  destruct (overcommit_scan_takes_next ex_mgr3 ex_mgr3_ok) as (r & m' & E & Hm & _).
  exists r, m'. split; [exact E|]. split; [exact Hm|]. vm_compute in E. by injection E as <- _.
Defined.

(** ** Starting and stopping workers *)

Lemma first_workq_spec l :
  match first_workq l with
  | Some p => exists i, l !! i = Some p /\ p <> NULL /\ (forall j, (j < i)%nat -> l !! j = Some NULL)
  | None => forall i p, l !! i = Some p -> p = NULL
  end.
Proof.
  induction l as [|p l IH]; simpl; [done|]. destruct (Z.eqb_spec p NULL) as [->|Hp].
  - destruct (first_workq l) as [p'|].
    + destruct IH as (i & Hi & Hp' & Hl). exists (S i). split_and!; [done|done|].
      intros [|j] Hj; [done|]. apply Hl. lia.
    + intros [|i] p Hi; simplify_eq/=; [done|]. by eapply IH.
  - exists 0%nat. split_and!; [done|done|lia].
Qed.

(** [worker_stop] appends one thread exit event to the first created queue, that is
    the one of the highest priority, sets its mask bit and signals a waiting worker; it
    changes no counter (the exiting worker does).  Without any queue the process aborts. *)
Theorem worker_stop_spec m :
  mgr_ok m ->
  ((forall i, slots (wqlist m) !! i = None \/ slots (wqlist m) !! i = Some NULL) ->
   worker_stop m = Aborts) /\
  (forall i p, slots (wqlist m) !! i = Some p -> p <> NULL ->
     (forall j, (j < i)%nat -> slots (wqlist m) !! j = Some NULL) ->
   exists m', worker_stop m = Ok (m', [SignalWqlist]) /\ mgr_ok m' /\ sb m' = sb m /\
     forall j, pending (wqlist m') m' j =
       upd_fun (pending (wqlist m) m) i (pending (wqlist m) m i ++ [exit_event]) j).
Proof.
  intros Hok. unfold worker_stop. pose proof (first_workq_spec (slots (wqlist m))) as Hf. split.
  - intros Hnone. destruct (first_workq _) as [p|]; [|done]. destruct Hf as (i & Hi & Hp & _).
    destruct (Hnone i); congruence.
  - intros i p Hi Hp Hlow. destruct (first_workq _) as [p'|]; [|by rewrite (Hf i p Hi) in Hp].
    destruct Hf as (i' & Hi' & Hp' & Hlow').
    assert (i' = i) as ->.
    { destruct (Nat.lt_trichotomy i' i) as [H|[H|H]]; [|done|].
      - rewrite (Hlow i' H) in Hi'. congruence.
      - rewrite (Hlow' i H) in Hi. congruence. }
    assert (p' = p) as -> by congruence.
    destruct (ts_slot _ _ _ (proj1 (mo_wqlist _ Hok)) i p Hi Hp) as (q & Hq & Hx & _ & Ho).
    assert (Ho' : overcommit q = 0) by (destruct (Z.eqb_spec (overcommit q) 0); done).
    rewrite Hq. simpl. rewrite Hx, set_queue_mask_ok by (eapply slot_range; [apply (mo_wqlist _ Hok)|done]).
    simpl. destruct (push_wqlist_ok p q i exit_event m Hok) as (H1 & H2 & _);
      [split_and!; [done|done|unfold table_of; by rewrite Ho']|done|].
    eexists. split; [done|]. done.
Qed.

Lemma worker_stop_spec_witness :
  mgr_ok ex_mgr2 /\ exists m', worker_stop ex_mgr2 = Ok (m', [SignalWqlist]) /\
    pending (wqlist m') m' 1 = [ex_item 7; ex_item 8; exit_event].
Proof.
  split; [exact ex_mgr2_ok|]. destruct (worker_stop_spec ex_mgr2 ex_mgr2_ok) as [_ H].
  destruct (H 1%nat 500) as (m' & E & _ & _ & Hp); [reflexivity|done| |].
  - intros [|j] Hj; [reflexivity|lia].
  - exists m'. split; [exact E|]. rewrite (Hp 1%nat). reflexivity.
Defined.

(** [worker_start] counts the new worker as live and idle before it runs.  When
    [pthread_create] fails, both counters are back to their old values and -1 is returned,
    but [pending_thread_create] stays incremented: no thread will ever decrement it. *)
Theorem worker_start_accounting rv m :
  is_u32 (idle (sb m)) -> is_u32 (count (sb m)) ->
  let '(status, m', ev) := worker_start rv m in
  pending_thread_create m' = pending_thread_create m +u 1 /\
  wqlist m' = wqlist m /\ wqs m' = wqs m /\
  (rv = 0 -> status = 0 /\ ev = [SpawnWorker] /\
     idle (sb m') = idle (sb m) +u 1 /\ count (sb m') = count (sb m) +u 1) /\
  (rv <> 0 -> status = -1 /\ ev = [SpawnFailed] /\
     idle (sb m') = idle (sb m) /\ count (sb m') = count (sb m)).
Proof.
  intros Hi Hc. unfold worker_start. destruct (Z.eqb_spec rv 0) as [->|Hrv]; simpl;
    split_and!; try done; intros; try done.
  by rewrite !u32_add_sub.
Qed.

Lemma worker_start_accounting_witness :
  is_u32 (idle (sb ex_mgr2)) /\ is_u32 (count (sb ex_mgr2)) /\
  pending_thread_create (snd (fst (worker_start EAGAIN ex_mgr2))) = 1.
Proof.
  assert (Hi : is_u32 (idle (sb ex_mgr2))) by zcheck.
  assert (Hc : is_u32 (count (sb ex_mgr2))) by zcheck.
  split; [exact Hi|]. split; [exact Hc|].
  pose proof (worker_start_accounting EAGAIN ex_mgr2 Hi Hc) as [H _]. exact H.
Defined.

(** ** Suspending, resuming, observing *)

(** Suspending and resuming: [manager_suspend] waits for the manager thread, is
    idempotent and posts nothing; [manager_resume] undoes it with exactly one post of the
    manager's semaphore and does nothing on a running manager; [manager_signal] resumes
    unconditionally, announcing one blocking thread. *)
Theorem suspend_resume_signal m :
  (wqlist_has_manager m = 0 -> manager_suspend m = Blocks) /\
  (wqlist_has_manager m <> 0 ->
     exists m1, manager_suspend m = Ok m1 /\ sb_suspend (sb m1) <> 0 /\ sb_sem (sb m1) = sb_sem (sb m) /\
       manager_suspend m1 = Ok m1 /\
       sb_suspend (sb (manager_resume m1)) = 0 /\ sb_sem (sb (manager_resume m1)) = sb_sem (sb m) + 1 /\
       manager_resume (manager_resume m1) = manager_resume m1) /\
  sb_suspend (sb (manager_signal m)) = 0 /\ sb_sem (sb (manager_signal m)) = sb_sem (sb m) + 1 /\
  about_to_wait (sb (manager_signal m)) = about_to_wait (sb m) +u 1.
Proof.
  split_and!; try done.
  - intros H. unfold manager_suspend. by rewrite H.
  - intros H. unfold manager_suspend, manager_resume. rewrite (proj2 (Z.eqb_neq _ _) H).
    destruct (Z.eqb_spec (sb_suspend (sb m)) 0) as [E|E].
    + eexists. split; [done|]. simpl. rewrite (proj2 (Z.eqb_neq _ _) H). done.
    + exists m. rewrite (proj2 (Z.eqb_neq _ _) H), (proj2 (Z.eqb_neq _ _) E). by simpl.
Qed.

Lemma suspend_resume_signal_witness :
  wqlist_has_manager ex_mgr2 <> 0 /\
  exists m1, manager_suspend ex_mgr2 = Ok m1 /\ sb_suspend (sb (manager_resume m1)) = 0.
Proof.
  assert (H : wqlist_has_manager ex_mgr2 <> 0) by done. split; [exact H|].
  destruct (suspend_resume_signal ex_mgr2) as (_ & Hs & _).
  destruct (Hs H) as (m1 & E & _ & _ & _ & E' & _). exists m1. split; [exact E|exact E'].
Defined.

(** [manager_peek] never underflows: it reports the idle workers above the
    threshold (or, failing that, above the minimum), plus the idle overcommit threads
    for "combined_idle"; the result never exceeds the number of idle threads, and an
    unknown key aborts the process. *)
Theorem manager_peek_bounds m :
  is_u32 (idle (sb m)) -> is_u32 (ocwq_idle_threads m) -> 0 <= worker_idle_threshold m -> 0 <= worker_min m ->
  (exists v, manager_peek "idle" m = Ok v /\ 0 <= v <= idle (sb m) /\
     (worker_idle_threshold m < idle (sb m) -> v = idle (sb m) - worker_idle_threshold m)) /\
  (exists v, manager_peek "combined_idle" m = Ok v /\ 0 <= v <= idle (sb m) + ocwq_idle_threads m) /\
  manager_peek "ocomm_idle" m = Ok (ocwq_idle_threads m) /\
  (forall key, key <> "idle"%string -> key <> "combined_idle"%string -> key <> "ocomm_idle"%string ->
     manager_peek key m = Aborts).
Proof.
  intros Hi Ho Ht Hw. unfold is_u32 in *.
  assert (Hpk : 0 <= peek_idle m <= idle (sb m) /\
                (worker_idle_threshold m < idle (sb m) -> peek_idle m = idle (sb m) - worker_idle_threshold m)).
  { unfold peek_idle, u64. zcase; rewrite ?Z.mod_small by lia; lia. }
  split_and!.
  - exists (peek_idle m). split; [done|]. tauto.
  - eexists. split; [done|]. unfold u64. rewrite Z.mod_small by lia. lia.
  - done.
  - intros key H1 H2 H3. unfold manager_peek. by rewrite !bool_decide_eq_false_2.
Qed.

Lemma manager_peek_bounds_witness :
  is_u32 (idle (sb ex_mgr2)) /\ exists v, manager_peek "idle" ex_mgr2 = Ok v /\ 0 <= v <= 2.
Proof.
  assert (Hi : is_u32 (idle (sb ex_mgr2))) by zcheck.
  split; [exact Hi|].
  destruct (manager_peek_bounds ex_mgr2) as [(v & E & Hv & _) _]; [exact Hi| | | |];
    try zcheck; try (vm_compute; discriminate).
  exists v. split; [exact E|exact Hv].
Defined.
