(* ===== verification/ManagerLoop.v ===== *)
(** * The manager thread: sizing the worker pool (manager_main of src/posix/manager.c)

    [manager_main] reads counters that worker threads change while it runs.  Every read
    is a point of its own in the translation: [o k] is what the manager sees at its
    [k]-th read, so a statement for all [o] holds under every interference, and a
    constant [o] is a pool at rest. *)

From stdpp Require Import base gmap list.
From Stdlib Require Import ZArith Lia QArith.
From S2P Require Import Prelude Types Manager.

#[local] Open Scope Z_scope.

(** ** Limits *)

Definition DEFAULT_PROCESS_LIMIT : Z := 100.
Definition MIN_PROCESS_LIMIT : Z := 4.
Definition MAX_PROCESS_LIMIT : Z := 1000.
Definition THREADS_RESERVED : Z := 5.
Definition WORKER_IDLE_SECONDS_THRESHOLD : Z := 15.

(** The system [get_process_limit] runs on, with what it answers. *)
Inductive limit_source :=
| LinuxRlimit (rlim_max : option Z)   (* getrlimit(RLIMIT_NPROC); None: it failed *)
| SolarisRctl (block : bool)          (* malloc(rctlblk_size()) succeeded *)
              (value : option Z)      (* task.max-lwps; None: getrctl failed *)
              (threads : option Z)    (* threads_runnable's threads_total; None: it failed *)
| OtherSystem.

Definition get_process_limit (s : limit_source) : Z :=
  match s with
  | LinuxRlimit None => DEFAULT_PROCESS_LIMIT
  | LinuxRlimit (Some rlim_max) => u32 rlim_max   (* rlim_t converted to unsigned int *)
  | SolarisRctl false _ _ => DEFAULT_PROCESS_LIMIT
  | SolarisRctl true value threads =>
      let num := match value with None => DEFAULT_PROCESS_LIMIT | Some v => s32 v end in
      let num := match threads with None => num | Some t => s32 (u32 (num - t)) end in
      let num := num - THREADS_RESERVED in
      let num := if num <? MIN_PROCESS_LIMIT then MIN_PROCESS_LIMIT else num in
      let num := if MAX_PROCESS_LIMIT <? num then MAX_PROCESS_LIMIT else num in
      num
  | OtherSystem => DEFAULT_PROCESS_LIMIT
  end.

(** [get_runqueue_length]: the run queue length of the platform, or the one-minute load
    average ([None]: [getloadavg] failed) truncated to an [int]. *)
Inductive runqueue_source :=
| PlatformRunqueue (len : Z)           (* linux_/solaris_get_runqueue_length *)
| LoadAverage (loadavg : option Q).

Definition get_runqueue_length (s : runqueue_source) : Z :=
  match s with
  | PlatformRunqueue len => u32 len            (* int converted to unsigned int *)
  | LoadAverage None => 1
  | LoadAverage (Some l) =>
      let out_of_range := (Z.pos (Qden l) * (2 ^ 31 - 1) <? Qnum l) || (Qnum l <? 0) in
      if out_of_range then 1 else Qnum l / Z.pos (Qden l)
  end.

(** ** One turn of the loop *)

(** The shared variables at a read. *)
Record snapshot := Snapshot {
  s_suspend : Z; s_idle : Z; s_count : Z; s_pending : Z; s_about : Z
}.

(** The constants of the loop. *)
Record params := LoopParams {
  p_cpu_count : Z;       (* cpu_count, also runqueue_length_max *)
  p_threshold : Z;       (* worker_idle_threshold *)
  p_max : Z              (* worker_max *)
}.

(** The answers of the system during one turn. *)
Record answers := Answers {
  a_wait : Z;                (* 0, or errno of sem_timedwait *)
  a_runnable : option Z;     (* threads_runnable: the running threads, None: failed *)
  a_runqueue : Z             (* get_runqueue_length() *)
}.

(** The local variables that live across turns. *)
Record locals := Locals {
  l_accumulated : Z;         (* worker_idle_seconds_accumulated *)
  l_wait_rv : Z;             (* sem_timedwait_rv *)
  l_current : Z              (* current_thread_count *)
}.

Inductive action :=
| AStart                     (* worker_start() *)
| AStop                      (* worker_stop() *)
| ADecAbout                  (* atomic_dec(&scoreboard.about_to_wait) *)
| ASetRunqueue (len : Z).    (* scoreboard.runqueue_length = len *)

#[global] Instance action_eq_dec : EqDecision action.
Proof. solve_decision. Defined.

(** [for (i = 0; i < max_threads_to_stop; i++) if (scoreboard.idle > worker_idle_threshold)
    worker_stop();] with the reads from number [k] on. *)
Fixpoint stop_loop (n : nat) (k : nat) (thr : Z) (o : nat -> snapshot) : list action :=
  match n with
  | O => []
  | S n => (if thr <? s_idle (o k) then [AStop] else []) ++ stop_loop n (S k) thr o
  end.

(** The decision on starting a worker (every counter read again where the code does). *)
Definition decide_start (p : params) (a : answers) (o : nat -> snapshot) (l : locals)
  : locals * list action :=
  if negb (s_about (o 4%nat) =? 0) then (l, [ADecAbout; AStart])
  else if s_count (o 5%nat) <? p_threshold p then (l, [AStart])
  else if s_count (o 6%nat) <? p_max p then
    let cur := match a_runnable a with Some r => r | None => 0 end in
    let l := Locals (l_accumulated l) (l_wait_rv l) cur in
    if cur <=? p_cpu_count p then
      let rq := ASetRunqueue (a_runqueue a) in
      if a_runqueue a <=? p_cpu_count p then
        if s_idle (o 7%nat) =? 0 then (l, [rq; AStart]) else (l, [rq])
      else (l, [rq])
    else (l, [])
  else (l, []).

(** The decision on stopping workers, on a timer tick. *)
Definition decide_stop (p : params) (o : nat -> snapshot) (l : locals) : locals * list action :=
  let acc := if p_threshold p <? s_idle (o 8%nat) then l_accumulated l +u s_idle (o 9%nat) else 0 in
  let max_threads_to_stop := acc / WORKER_IDLE_SECONDS_THRESHOLD in
  if 0 <? max_threads_to_stop then
    let idle_surplus_threads := s_idle (o 10%nat) -u p_threshold p in
    let n := if idle_surplus_threads <? max_threads_to_stop then idle_surplus_threads
             else max_threads_to_stop in
    (Locals 0 (l_wait_rv l) (l_current l), stop_loop (Z.to_nat n) 11 (p_threshold p) o)
  else (Locals acc (l_wait_rv l) (l_current l), []).

(** One turn of [for (;;)] in [manager_main]. *)
Definition manager_turn (p : params) (a : answers) (o : nat -> snapshot) (l : locals)
  : locals * list action :=
  let l := if s_suspend (o 0%nat) =? 0 then Locals (l_accumulated l) (a_wait a) (l_current l) else l in
  if (s_idle (o 1%nat) =? 0) && (0 <? s_count (o 2%nat)) && (s_pending (o 3%nat) =? 0)
  then decide_start p a o l
  else if l_wait_rv l =? ETIMEDOUT then decide_stop p o l
  else (l, []).

(** [manager_main] up to its loop: the limits, and the minimum number of workers. *)
Definition manager_main_start (lim : limit_source) (rq : runqueue_source) (m : manager)
  : params * locals * list action :=
  (LoopParams (cpu_count m) (worker_idle_threshold m) (get_process_limit lim), Locals 0 0 0,
   ASetRunqueue (get_runqueue_length rq) :: replicate (Z.to_nat (worker_min m)) AStart).

(** The turns of the loop, with what each of them sees. *)
Fixpoint manager_turns (p : params) (env : list (answers * (nat -> snapshot))) (l : locals)
  : locals * list (list action) :=
  match env with
  | [] => (l, [])
  | (a, o) :: env =>
      let (l, acts) := manager_turn p a o l in
      let (l, rest) := manager_turns p env l in
      (l, acts :: rest)
  end.

(** ** A pool at rest

    All workers are idle, no work arrives and every wait of the manager ends in a timeout.
    What the manager then sees on its turns depends on when the workers it has told to
    exit leave; [settled] says of the answers and observations of the turns that they left
    before the next turn. *)

Definition tick_answers : answers := Answers ETIMEDOUT None 1.
Definition at_rest (n : Z) (_ : nat) : snapshot := Snapshot 0 n n 0 0.

Definition stops (acts : list action) : Z := lsum (fun a => if decide (a = AStop) then 1 else 0) acts.
Definition starts (acts : list action) : Z := lsum (fun a => if decide (a = AStart) then 1 else 0) acts.

(** [n] workers before the turns of [env]. *)
Fixpoint settled (p : params) (n : Z) (l : locals) (env : list (answers * (nat -> snapshot))) : Prop :=
  match env with
  | [] => True
  | (a, o) :: env =>
      a_wait a = ETIMEDOUT /\ (forall k, o k = at_rest n k) /\
      let (l, acts) := manager_turn p a o l in settled p (n + starts acts - stops acts) l env
  end.

(** Such turns. *)
Fixpoint rest_env (p : params) (ticks : nat) (n : Z) (l : locals) : list (answers * (nat -> snapshot)) :=
  match ticks with
  | O => []
  | S ticks =>
      let (l, acts) := manager_turn p tick_answers (at_rest n) l in
      (tick_answers, at_rest n) :: rest_env p ticks (n + starts acts - stops acts) l
  end.

(** ** Lemmas *)

Lemma stops_app a b : stops (a ++ b) = stops a + stops b.
Proof. apply lsum_app. Qed.

Lemma stops_nonneg a : 0 <= stops a.
Proof. apply lsum_nonneg. intros. case_decide; lia. Qed.

Lemma stop_loop_no_start n k thr o : starts (stop_loop n k thr o) = 0 /\ AStart ∉ stop_loop n k thr o.
Proof.
  revert k. induction n as [|n IH]; intros k; simpl; [by split; [|apply not_elem_of_nil]|].
  destruct (IH (S k)) as [E Hn]. split.
  - unfold starts in *. rewrite lsum_app, E. by destruct (thr <? _).
  - destruct (thr <? _); set_solver.
Qed.

(** Every stop has its own reading. *)
Lemma stop_loop_readings n k thr o :
  stop_loop n k thr o = concat ((fun j => if thr <? s_idle (o j) then [AStop] else []) <$> seq k n).
Proof. revert k. induction n as [|n IH]; intros k; simpl; [done|]. by rewrite IH. Qed.

Lemma stop_loop_seen n k thr o :
  AStop ∈ stop_loop n k thr o <-> exists j, (k <= j < k + n)%nat /\ thr < s_idle (o j).
Proof.
  revert k. induction n as [|n IH]; intros k; simpl.
  - split; [by intros ?%not_elem_of_nil|]. intros (j & ? & _). lia.
  - rewrite elem_of_app, IH. destruct (Z.ltb_spec thr (s_idle (o k))) as [Hk|Hk]; split.
    + intros _. exists k. split; [lia|done].
    + intros _. left. apply list_elem_of_here.
    + intros [H|(j & ? & ?)]; [by apply not_elem_of_nil in H|]. exists j. split; [lia|done].
    + intros (j & Hj & Hs). right. exists j. split; [|done]. destruct (decide (j = k)) as [->|]; lia.
Qed.

Lemma stop_loop_rest n k thr m o :
  thr < m -> (forall j, o j = at_rest m j) -> stops (stop_loop n k thr o) = Z.of_nat n.
Proof.
  intros Hm Ho. revert k. induction n as [|n IH]; intros k; simpl; [done|].
  rewrite stops_app, IH, Ho. simpl. rewrite (proj2 (Z.ltb_lt _ _) Hm). change (stops [AStop]) with 1. lia.
Qed.

Lemma decide_stop_no_start p o l :
  starts (snd (decide_stop p o l)) = 0 /\ AStart ∉ snd (decide_stop p o l).
Proof.
  unfold decide_stop. cbv zeta.
  set (acc := if p_threshold p <? _ then _ else 0). clearbody acc.
  destruct (0 <? acc / _); [apply stop_loop_no_start|]. split; [done|apply not_elem_of_nil].
Qed.

(** One tick of a pool at rest above its threshold. *)
Lemma rest_tick_above p a o n acc rv c :
  0 <= p_threshold p < n -> n < 2 ^ 31 -> 0 <= acc < 15 -> a_wait a = ETIMEDOUT -> (forall k, o k = at_rest n k) ->
  exists k acc' acts,
    manager_turn p a o (Locals acc rv c) = (Locals acc' ETIMEDOUT c, acts) /\
    starts acts = 0 /\ stops acts = k /\
    0 <= k <= n - p_threshold p /\ 0 <= acc' < 15 /\
    15 * (n - k - p_threshold p) - acc' < 15 * (n - p_threshold p) - acc.
Proof.
  intros Ht Hn Ha Hw Ho. unfold manager_turn, decide_stop. rewrite !Ho, Hw. simpl.
  rewrite (proj2 (Z.eqb_neq n 0)) by lia. simpl.
  rewrite (proj2 (Z.ltb_lt (p_threshold p) n)) by lia. rewrite (u32_small (acc + n)) by lia.
  unfold WORKER_IDLE_SECONDS_THRESHOLD. pose proof (Z.div_mod (acc + n) 15) as Hdm.
  pose proof (Z.mod_pos_bound (acc + n) 15) as Hmb.
  destruct (Z.ltb_spec 0 ((acc + n) / 15)) as [H15|H15].
  - rewrite (u32_small (n - p_threshold p)) by lia. simpl.
    set (k := if n - p_threshold p <? (acc + n) / 15 then n - p_threshold p else (acc + n) / 15).
    assert (Hk : 1 <= k <= n - p_threshold p) by (unfold k; zcase; lia).
    exists k, 0. eexists. split; [done|]. split; [apply stop_loop_no_start|].
    rewrite (stop_loop_rest _ _ _ n), Z2Nat.id by (done || lia). lia.
  - simpl. exists 0, (acc + n), []. split; [done|]. split; [done|]. split; [done|]. lia.
Qed.

(** At the threshold nothing happens. *)
Lemma rest_tick_at p a o acc rv c :
  0 <= p_threshold p -> a_wait a = ETIMEDOUT -> (forall k, o k = at_rest (p_threshold p) k) ->
  manager_turn p a o (Locals acc rv c) = (Locals 0 ETIMEDOUT c, []).
Proof.
  intros Ht Hw Ho. unfold manager_turn, decide_stop. rewrite !Ho, Hw. simpl.
  assert (E : (p_threshold p =? 0) && (0 <? p_threshold p) = false)
    by (destruct (Z.eqb_spec (p_threshold p) 0) as [->|]; done).
  rewrite E. simpl. by rewrite Z.ltb_irrefl.
Qed.

(** All stops and all starts of some turns. *)
Definition total (f : list action -> Z) (turns : list (list action)) : Z := lsum f turns.

Lemma total_cons f acts turns : total f (acts :: turns) = f acts + total f turns.
Proof. done. Qed.

Lemma settled_bounds p env : forall n acc rv c,
  0 <= p_threshold p <= n -> n < 2 ^ 31 -> 0 <= acc < 15 -> settled p n (Locals acc rv c) env ->
  let turns := snd (manager_turns p env (Locals acc rv c)) in
  total starts turns = 0 /\ 0 <= total stops turns <= n - p_threshold p /\
  (15 * (n - p_threshold p) - acc <= Z.of_nat (length env) -> total stops turns = n - p_threshold p).
Proof.
  induction env as [|[a o] env IH]; intros n acc rv c Ht Hn Ha; simpl.
  { intros _. unfold total, lsum. simpl. lia. }
  intros (Hw & Ho & Hset). destruct (decide (n = p_threshold p)) as [->|Hne].
  - rewrite rest_tick_at in Hset |- * by (done || lia). change (stops []) with 0 in Hset. change (starts []) with 0 in Hset.
    replace (p_threshold p + 0 - 0) with (p_threshold p) in Hset by lia.
    destruct (IH (p_threshold p) 0 ETIMEDOUT c) as (H1 & H2 & H3); [lia|lia|lia|done|].
    destruct (manager_turns p env _) as [l1 rest]. cbn [snd] in *. rewrite !total_cons.
    change (stops []) with 0. change (starts []) with 0. split_and!; lia.
  - destruct (rest_tick_above p a o n acc rv c) as (k & acc' & acts & E & Hst & Hsp & Hk & Hacc & Hm);
      [lia..|done|done|]. rewrite E in Hset |- *. rewrite Hst, Hsp in Hset. replace (n + 0 - k) with (n - k) in Hset by lia.
    destruct (IH (n - k) acc' ETIMEDOUT c) as (H1 & H2 & H3); [lia..|done|].
    destruct (manager_turns p env _) as [l1 rest]. cbn [snd] in *. rewrite !total_cons, Hst, Hsp.
    split_and!; lia.
Qed.

Lemma rest_env_settled p ticks n l : settled p n l (rest_env p ticks n l).
Proof.
  revert n l. induction ticks as [|ticks IH]; intros n l; simpl; [done|].
  destruct (manager_turn p tick_answers (at_rest n) l) as [l' acts] eqn:E. simpl. rewrite E. by split_and!.
Qed.

(** ** Properties *)

(** What one turn must have seen to start a worker. *)
Lemma turn_start_only p a o l :
  let acts := snd (manager_turn p a o l) in
  starts acts <= 1 /\ (starts acts = 0 \/ stops acts = 0) /\
  (AStart ∈ acts ->
     s_idle (o 1%nat) = 0 /\ 0 < s_count (o 2%nat) /\ s_pending (o 3%nat) = 0 /\
     (s_about (o 4%nat) <> 0 \/ s_count (o 5%nat) < p_threshold p \/
      (s_count (o 6%nat) < p_max p /\ default 0 (a_runnable a) <= p_cpu_count p /\
       a_runqueue a <= p_cpu_count p /\ s_idle (o 7%nat) = 0))).
Proof.
  intros acts. unfold acts, manager_turn.
  set (l0 := if s_suspend (o 0%nat) =? 0 then _ else l). clearbody l0.
  assert (Hnil : starts [] <= 1 /\ (starts [] = 0 \/ stops [] = 0) /\ (AStart ∈ [] -> False)).
  { split_and!; [done|by left|by intros ?%not_elem_of_nil]. }
  assert (Hrq : forall r, starts [ASetRunqueue r] <= 1 /\
            (starts [ASetRunqueue r] = 0 \/ stops [ASetRunqueue r] = 0) /\ (AStart ∈ [ASetRunqueue r] -> False)).
  { intros r. split_and!; [done|by left|]. by intros ?%list_elem_of_singleton. }
  specialize (Hrq (a_runqueue a)).
  destruct ((s_idle (o 1%nat) =? 0) && (0 <? s_count (o 2%nat)) && (s_pending (o 3%nat) =? 0)) eqn:E.
  - apply andb_true_iff in E as [[E1 E2]%andb_true_iff E3].
    apply Z.eqb_eq in E1, E3. apply Z.ltb_lt in E2.
    assert (Hone : forall pre, pre = [] \/ pre = [ADecAbout] \/ pre = [ASetRunqueue (a_runqueue a)] ->
              starts (pre ++ [AStart]) <= 1 /\ (starts (pre ++ [AStart]) = 0 \/ stops (pre ++ [AStart]) = 0)).
    { intros pre [->|[->| ->]]; split; try done; by right. }
    unfold decide_start.
    destruct (Z.eqb_spec (s_about (o 4%nat)) 0); simpl; [|destruct (Hone [ADecAbout]); auto 10].
    destruct (Z.ltb_spec (s_count (o 5%nat)) (p_threshold p)); simpl; [destruct (Hone []); auto 10|].
    destruct (Z.ltb_spec (s_count (o 6%nat)) (p_max p)); simpl; [|tauto].
    set (cur := match a_runnable a with Some r => r | None => 0 end).
    assert (cur = default 0 (a_runnable a)) as -> by (unfold cur; by destruct (a_runnable a)).
    destruct (Z.leb_spec (default 0 (a_runnable a)) (p_cpu_count p)); simpl; [|tauto].
    destruct (Z.leb_spec (a_runqueue a) (p_cpu_count p)); simpl; [|tauto].
    destruct (Z.eqb_spec (s_idle (o 7%nat)) 0); simpl; [|tauto].
    destruct (Hone [ASetRunqueue (a_runqueue a)]); auto 12.
  - destruct (l_wait_rv l0 =? ETIMEDOUT); [|simpl; tauto].
    destruct (decide_stop_no_start p o l0) as [E' Hn].
    rewrite E'. split_and!; [lia|by left|done].
Qed.

(** And what makes it start one. *)
Lemma turn_starts p a o l :
  s_idle (o 1%nat) = 0 -> 0 < s_count (o 2%nat) -> s_pending (o 3%nat) = 0 ->
  (s_about (o 4%nat) <> 0 \/ s_count (o 5%nat) < p_threshold p \/
   (s_count (o 6%nat) < p_max p /\ default 0 (a_runnable a) <= p_cpu_count p /\
    a_runqueue a <= p_cpu_count p /\ s_idle (o 7%nat) = 0)) ->
  AStart ∈ snd (manager_turn p a o l).
Proof.
  intros H1 H2 H3 H4. unfold manager_turn. rewrite H1, H3, (proj2 (Z.ltb_lt 0 _) H2). simpl.
  unfold decide_start. destruct (Z.eqb_spec (s_about (o 4%nat)) 0); simpl; [|set_solver].
  destruct (Z.ltb_spec (s_count (o 5%nat)) (p_threshold p)); simpl; [set_solver|].
  destruct H4 as [|[|(H5 & H6 & H7 & H8)]]; [done|lia|].
  rewrite (proj2 (Z.ltb_lt _ _) H5). unfold default in H6. simpl in H6.
  rewrite (proj2 (Z.leb_le _ _) H6), (proj2 (Z.leb_le _ _) H7), H8. simpl. set_solver.
Qed.

(** C25.  Growing the pool: whatever the manager observes, one turn starts at most one
    worker and never both starts and stops.  It starts one exactly when it has seen no idle
    worker, at least one live worker and no thread creation in progress, and then a thread
    that announced it will block, or fewer workers than the idle threshold, or fewer than
    the process limit with no more runnable threads and no longer run queue than CPUs and
    still no idle worker. *)
Theorem manager_turn_start_guard p a o l :
  let acts := snd (manager_turn p a o l) in
  starts acts <= 1 /\ (starts acts = 0 \/ stops acts = 0) /\
  (AStart ∈ acts <->
     s_idle (o 1%nat) = 0 /\ 0 < s_count (o 2%nat) /\ s_pending (o 3%nat) = 0 /\
     (s_about (o 4%nat) <> 0 \/ s_count (o 5%nat) < p_threshold p \/
      (s_count (o 6%nat) < p_max p /\ default 0 (a_runnable a) <= p_cpu_count p /\
       a_runqueue a <= p_cpu_count p /\ s_idle (o 7%nat) = 0))).
Proof.
  intros acts. destruct (turn_start_only p a o l) as (H1 & H2 & H3). split_and!; [done|done|].
  split; [done|]. intros (G1 & G2 & G3 & G4). by apply turn_starts.
Qed.

(** C26.  Shrinking the pool, under every interference (although the surplus is computed from
    a counter that may already have dropped, and then wraps around).  A turn stops workers
    exactly when it does not look for a worker to start, the last timed wait of the manager
    ended in a timeout (the wait of this turn, or, on a turn on which the manager was
    suspended, that of the last turn on which it was not), it has seen more idle workers
    than the threshold, at least fifteen idle thread seconds are accumulated, and one of
    its further readings of the idle counter, as many as the accumulated seconds and the
    surplus allow, is above the threshold.  The stops are then those readings above the
    threshold, one stop for each, and the accumulator starts again from zero. *)
Theorem manager_turn_stop_guard p a o l :
  let acc := l_accumulated l +u s_idle (o 9%nat) in
  let n := Z.to_nat (Z.min (s_idle (o 10%nat) -u p_threshold p) (acc / 15)) in
  let '(l', acts) := manager_turn p a o l in
  (AStop ∈ acts <->
     ~ (s_idle (o 1%nat) = 0 /\ 0 < s_count (o 2%nat) /\ s_pending (o 3%nat) = 0) /\
     (if s_suspend (o 0%nat) =? 0 then a_wait a else l_wait_rv l) = ETIMEDOUT /\
     p_threshold p < s_idle (o 8%nat) /\ 15 <= acc /\
     exists k, (11 <= k < 11 + n)%nat /\ p_threshold p < s_idle (o k)) /\
  (AStop ∈ acts ->
     l_accumulated l' = 0 /\
     acts = concat ((fun k => if p_threshold p <? s_idle (o k) then [AStop] else []) <$> seq 11 n)).
Proof.
  intros acc n. unfold manager_turn.
  set (l0 := if s_suspend (o 0%nat) =? 0 then _ else l).
  assert (Ew : l_wait_rv l0 = if s_suspend (o 0%nat) =? 0 then a_wait a else l_wait_rv l) by (unfold l0; by case_match).
  assert (El : l_accumulated l0 = l_accumulated l) by (unfold l0; by case_match). clearbody l0. rewrite <- Ew.
  assert (Hnil : AStop ∉ []) by apply not_elem_of_nil.
  assert (Hst : forall x, AStop ∉ snd (decide_start p a o x)).
  { intros x. unfold decide_start. repeat case_match; simpl; rewrite ?elem_of_cons;
      intros ?; destruct_or?; try done; by eapply not_elem_of_nil. }
  destruct ((s_idle (o 1%nat) =? 0) && (0 <? s_count (o 2%nat)) && (s_pending (o 3%nat) =? 0)) eqn:Eg.
  { specialize (Hst l0). destruct (decide_start p a o l0) as [l1 acts]; simpl in *. split; [|done].
    split; [done|]. intros [[] _]. apply andb_true_iff in Eg as [[E1 E2]%andb_true_iff E3]. lia. }
  assert (Hg : ~ (s_idle (o 1%nat) = 0 /\ 0 < s_count (o 2%nat) /\ s_pending (o 3%nat) = 0)).
  { intros (E1 & E2 & E3). by rewrite E1, E3, (proj2 (Z.ltb_lt 0 _) E2) in Eg. }
  destruct (Z.eqb_spec (l_wait_rv l0) ETIMEDOUT) as [Hw|Hw]; [|split; [|done]; split; [done|naive_solver]].
  unfold decide_stop. rewrite El. unfold WORKER_IDLE_SECONDS_THRESHOLD. fold acc.
  destruct (Z.ltb_spec (p_threshold p) (s_idle (o 8%nat))) as [Ht|Ht];
    [|simpl; split; [|done]; split; [done|intros (_ & _ & ? & _); lia]].
  pose proof (Z.div_mod acc 15). pose proof (Z.mod_pos_bound acc 15).
  destruct (Z.ltb_spec 0 (acc / 15)) as [Ha|Ha]; [|split; [|done]; split; [done|intros (_ & _ & _ & ? & _); lia]].
  assert (En : Z.to_nat (if s_idle (o 10%nat) -u p_threshold p <? acc / 15
                         then s_idle (o 10%nat) -u p_threshold p else acc / 15) = n).
  { unfold n. destruct (Z.ltb_spec (s_idle (o 10%nat) -u p_threshold p) (acc / 15)); [rewrite Z.min_l|rewrite Z.min_r]; try done; by apply Z.lt_le_incl. }
  rewrite En. split.
  - rewrite stop_loop_seen. split; [|tauto]. intros Hk. split_and!; try done. lia.
  - intros _. split; [done|]. apply stop_loop_readings.
Qed.

Lemma manager_turn_start_guard_witness :
  let acts := snd (manager_turn (LoopParams 4 2 100) (Answers 0 (Some 1) 1)
                     (fun _ : nat => Snapshot 0 0 2 0 0) (Locals 0 0 0)) in
  starts acts = 1 /\ stops acts = 0.
Proof.
  intros acts. destruct (manager_turn_start_guard (LoopParams 4 2 100) (Answers 0 (Some 1) 1)
    (fun _ : nat => Snapshot 0 0 2 0 0) (Locals 0 0 0)) as (_ & H & _).
  split; [reflexivity|]. destruct H as [H|H]; [discriminate H|exact H].
Defined.

Lemma manager_turn_stop_guard_witness :
  let o (_ : nat) := Snapshot 0 15 15 0 0 in
  AStop ∈ snd (manager_turn (LoopParams 4 2 100) tick_answers o (Locals 0 0 0)) /\
  l_accumulated (fst (manager_turn (LoopParams 4 2 100) tick_answers o (Locals 0 0 0))) = 0.
Proof.
  intros o. assert (H : AStop ∈ [AStop]) by apply list_elem_of_here. split; [exact H|].
  pose proof (manager_turn_stop_guard (LoopParams 4 2 100) tick_answers o (Locals 0 0 0)) as G.
  exact (proj1 (proj2 G H)).
Defined.

(** Four CPUs, a threshold of two and a ceiling of 100. *)
Definition ex_params : params := LoopParams 4 2 100.

(** C27.  Ramp down of a pool left alone, provided that each worker that was told to exit has
    left before the next turn of the manager (every turn then sees a timeout and only idle
    workers, as many as there were less those stopped on earlier turns): no worker is
    started, never so many are stopped that fewer than the idle threshold remain, and
    after at most fifteen turns per surplus worker exactly the surplus has been stopped.
    (Without the proviso the pool may shrink below the threshold: SysLife.v.) *)
Theorem idle_pool_ramps_down p env n acc rv c :
  0 <= p_threshold p <= n -> n < 2 ^ 31 -> 0 <= acc < WORKER_IDLE_SECONDS_THRESHOLD ->
  settled p n (Locals acc rv c) env ->
  let turns := snd (manager_turns p env (Locals acc rv c)) in
  total starts turns = 0 /\ total stops turns <= n - p_threshold p /\
  (WORKER_IDLE_SECONDS_THRESHOLD * (n - p_threshold p) <= Z.of_nat (length env) ->
   total stops turns = n - p_threshold p).
Proof.
  intros Ht Hn Ha Hs turns. unfold WORKER_IDLE_SECONDS_THRESHOLD in *.
  destruct (settled_bounds p env n acc rv c Ht Hn Ha Hs) as (H1 & H2 & H3). split_and!; [done|apply H2|].
  intros H. apply H3. lia.
Qed.

Lemma idle_pool_ramps_down_witness :
  total stops (snd (manager_turns ex_params (rest_env ex_params 90 8 (Locals 0 0 0)) (Locals 0 0 0))) = 6.
Proof.
  apply (idle_pool_ramps_down ex_params (rest_env ex_params 90 8 (Locals 0 0 0)) 8 0 0 0);
    [zcheck|zcheck|zcheck|apply rest_env_settled|zcheck].
Defined.

(** ** When the pool cannot grow *)

Lemma turn_no_start p a o l :
  s_count (o 2%nat) <= 0 \/ s_pending (o 3%nat) <> 0 -> AStart ∉ snd (manager_turn p a o l).
Proof.
  intros H. unfold manager_turn.
  assert (E : (s_idle (o 1%nat) =? 0) && (0 <? s_count (o 2%nat)) && (s_pending (o 3%nat) =? 0) = false).
  { destruct H; [rewrite (proj2 (Z.ltb_ge 0 _)) by lia|rewrite (proj2 (Z.eqb_neq (s_pending _) 0)) by lia];
      by rewrite ?andb_false_r. }
  rewrite E. destruct (_ =? ETIMEDOUT); [apply decide_stop_no_start|apply not_elem_of_nil].
Qed.

Lemma turns_no_start p env l :
  Forall (fun ao => s_count (snd ao 2%nat) <= 0 \/ s_pending (snd ao 3%nat) <> 0) env ->
  Forall (fun acts => AStart ∉ acts) (snd (manager_turns p env l)).
Proof.
  intros H. revert l. induction H as [|[a o] env Hao _ IH]; intros l; simpl; [constructor|].
  pose proof (turn_no_start p a o l Hao) as Hn. destruct (manager_turn p a o l) as [l1 acts].
  specialize (IH l1). destruct (manager_turns p env l1). by constructor.
Qed.

(** Two ways in which the pool stops growing for good: as long as the manager sees no
    live worker, or a thread creation still pending (as one is forever after a failed
    [pthread_create] in [worker_start]), it starts no worker, on any number of turns and
    whatever else it observes. *)
Theorem starved_manager_never_starts p env l :
  Forall (fun ao => s_count (snd ao 2%nat) <= 0 \/ s_pending (snd ao 3%nat) <> 0) env ->
  length (snd (manager_turns p env l)) = length env /\
  Forall (fun acts => starts acts = 0) (snd (manager_turns p env l)).
Proof.
  intros H. split.
  - clear H. revert l. induction env as [|[a o] env IH]; intros l; simpl; [done|].
    destruct (manager_turn p a o l) as [l1 acts]. specialize (IH l1).
    destruct (manager_turns p env l1). simpl in *. by f_equal.
  - eapply Forall_impl; [exact (turns_no_start p env l H)|]. intros acts Hn. simpl in Hn.
    induction acts as [|x acts IH]; [done|].
    apply not_elem_of_cons in Hn as [Hx Hn]. specialize (IH Hn). unfold starts in *. simpl.
    unfold lsum in *. simpl. rewrite IH, decide_False by done. done.
Qed.

Lemma starved_manager_never_starts_witness :
  let env := replicate 3 (Answers 0 None 1, fun _ : nat => Snapshot 0 0 2 1 5) in
  length (snd (manager_turns ex_params env (Locals 0 0 0))) = 3%nat /\
  Forall (fun acts => starts acts = 0) (snd (manager_turns ex_params env (Locals 0 0 0))).
Proof.
  apply (starved_manager_never_starts ex_params
           (replicate 3 (Answers 0 None 1, fun _ : nat => Snapshot 0 0 2 1 5)) (Locals 0 0 0)).
  apply Forall_replicate. right. simpl. discriminate.
Defined.

(** On a machine with three CPUs the idle threshold computes to zero (three is the only
    such CPU count), so a manager initialised there starts its three workers, has stopped
    the last of them after 28 idle seconds, and starts none afterwards. *)
Theorem three_cpu_pool_dies :
  (forall c, 0 <= c -> (worker_idle_threshold_per_cpu c = 0 <-> c = 3)) /\
  let m := snd (manager_init (InitEnv 0 None 3 0 0) boot) in
  let '(p, l, acts) := manager_main_start OtherSystem (PlatformRunqueue 1) m in
  starts acts = 3 /\ total stops (snd (manager_turns p (rest_env p 28 3 l) l)) = 3 /\
  (forall a o l', s_count (o 2%nat) = 0 -> AStart ∉ snd (manager_turn p a o l')).
Proof.
  split.
  - intros c Hc. unfold worker_idle_threshold_per_cpu. split; [|by intros ->].
    assert (c / 4 = 0 -> c < 4) by (intros Hd; pose proof (Z.div_mod c 4); pose proof (Z.mod_pos_bound c 4); lia).
    zcase; simpl; lia.
  - cbv zeta. split; [by vm_compute|]. split; [by vm_compute|].
    intros a o l' H. apply turn_no_start. left. by rewrite H.
Qed.

(** The ceiling on the number of workers.  Solaris: always within [4, 1000], and the
    task limit less the running threads and a reserve of five when that lies within.
    Linux: the hard limit when it fits 32 bits; a limit of a multiple of [2^32] becomes
    zero, and then no worker is started beyond the idle threshold. *)
Theorem process_limit_bounds :
  (forall v t, MIN_PROCESS_LIMIT <= get_process_limit (SolarisRctl true v t) <= MAX_PROCESS_LIMIT) /\
  (forall v t, 0 <= v < 2 ^ 31 -> 0 <= t < 2 ^ 31 -> 4 <= v - t - 5 <= 1000 ->
     get_process_limit (SolarisRctl true (Some v) (Some t)) = v - t - THREADS_RESERVED) /\
  (forall r, is_u32 r -> get_process_limit (LinuxRlimit (Some r)) = r) /\
  (forall k, get_process_limit (LinuxRlimit (Some (k * 2 ^ 32))) = 0) /\
  (forall c thr a o l, (forall k, 0 <= s_count (o k)) -> s_about (o 4%nat) = 0 -> thr <= s_count (o 5%nat) ->
     AStart ∉ snd (manager_turn (LoopParams c thr 0) a o l)).
Proof.
  split_and!.
  - intros v t. unfold get_process_limit, MIN_PROCESS_LIMIT, MAX_PROCESS_LIMIT. zcase; lia.
  - intros v t Hv Ht Hr. unfold get_process_limit, MIN_PROCESS_LIMIT, MAX_PROCESS_LIMIT, THREADS_RESERVED.
    rewrite (s32_small v), (u32_small (v - t)), (s32_small (v - t)) by lia. zcase; lia.
  - intros r Hr. by apply u32_small.
  - intros k. by apply Z_mod_mult.
  - intros c thr a o l Hc Ha Ht. unfold manager_turn.
    destruct ((s_idle (o 1%nat) =? 0) && (0 <? s_count (o 2%nat)) && (s_pending (o 3%nat) =? 0));
      [|destruct (_ =? ETIMEDOUT); [apply decide_stop_no_start|apply not_elem_of_nil]].
    unfold decide_start. rewrite Ha. simpl. rewrite (proj2 (Z.ltb_ge _ thr)) by lia.
    rewrite (proj2 (Z.ltb_ge _ 0)) by apply Hc. apply not_elem_of_nil.
Qed.

(** A turn on which the manager was suspended acts exactly as a turn that did wait and
    whose wait ended as the last timed wait did: after an earlier timeout it ramps down
    although no timer tick happened. *)
Theorem suspended_turn_reuses_last_wait p a o l :
  s_suspend (o 0%nat) <> 0 ->
  manager_turn p a o l =
  manager_turn p (Answers (l_wait_rv l) (a_runnable a) (a_runqueue a))
    (fun k => Snapshot 0 (s_idle (o k)) (s_count (o k)) (s_pending (o k)) (s_about (o k))) l.
Proof.
  intros H. unfold manager_turn. simpl. rewrite (proj2 (Z.eqb_neq _ 0) H).
  assert (El : Locals (l_accumulated l) (l_wait_rv l) (l_current l) = l) by by destruct l.
  rewrite El. unfold decide_start, decide_stop. simpl.
  assert (Es : forall n k t, stop_loop n k t (fun k => Snapshot 0 (s_idle (o k)) (s_count (o k))
                 (s_pending (o k)) (s_about (o k))) = stop_loop n k t o).
  { induction n as [|n IH]; intros k t; simpl; [done|]. by rewrite IH. }
  by rewrite Es.
Qed.

Lemma suspended_turn_reuses_last_wait_witness :
  let o (_ : nat) := Snapshot 1 15 15 0 0 in
  stops (snd (manager_turn ex_params (Answers 0 None 1) o (Locals 0 ETIMEDOUT 0))) = 1.
Proof.
  intros o. unfold o.
  rewrite (suspended_turn_reuses_last_wait ex_params (Answers 0 None 1)
             (fun _ => Snapshot 1 15 15 0 0) (Locals 0 ETIMEDOUT 0)) by (simpl; discriminate).
  reflexivity.
Defined.
