(* ===== verification/Overcommit.v ===== *)
(** * The overcommit workers (overcommit_worker_main of src/posix/manager.c)

    Every access to the overcommit state happens with [ocwq_mtx] held, so a thread's
    steps are its critical sections: from acquiring the mutex to executing an item,
    waiting on [ocwq_has_work] or leaving.  A submission is
    [manager_workqueue_additem] of Manager.v, together with what its
    [pthread_cond_signal] or [pthread_create] does to the threads.  The condition
    variable may time out and may wake spuriously.  Queues, ordinary and overcommit, are
    created at any time, under [wqlist_mtx]. *)

From stdpp Require Import base gmap list.
From Stdlib Require Import ZArith Lia.
From S2P Require Import Prelude Types Manager Dispatch.

(** ** Threads *)

Inductive octhread :=
| TReady                 (* before [pthread_mutex_lock] at the head of the loop *)
| TRun (w : work)        (* executing an item, the mutex released *)
| TWait                  (* inside [pthread_cond_timedwait] *)
| TWoken (rv : Z).       (* the wait ended with [rv], the mutex not yet held again *)

(** From the head of the loop, with the mutex held, to the next release of it. *)
Definition oc_loop (m : manager) : outcome (octhread * manager) :=
  let* (witem, m) := overcommit_scan m in
  match witem with
  | Some w => Ok (TRun w, m)
  | None => Ok (TWait, with_oc_counts (ocwq_idle_threads m +u 1) (ocwq_signal_count m) m)
  end.

(** From the return of [pthread_cond_timedwait]; [None]: the thread exits. *)
Definition oc_woken (rv : Z) (m : manager) : outcome (option octhread * manager) :=
  if 0 <? ocwq_signal_count m then
    let* (x, m) := oc_loop (with_oc_counts (ocwq_idle_threads m) (ocwq_signal_count m -u 1) m) in
    Ok (Some x, m)
  else if (rv =? 0) || (rv =? ETIMEDOUT) then
    Ok (None, with_oc_counts (ocwq_idle_threads m -u 1) (ocwq_signal_count m) m)
  else Aborts.

(** ** The system *)

Record ocstate := OcState {
  oc_m : manager;
  oc_thr : gmap nat octhread;
  oc_added : list work;          (* the items submitted so far *)
  oc_done : list work;           (* the items executed so far *)
  oc_failed : Z                  (* submissions whose [pthread_create] failed *)
}.

(** Steps of the overcommit threads. *)
Inductive oc_internal (s : ocstate) : ocstate -> Prop :=
| OcLoop t x m' :
    oc_thr s !! t = Some TReady -> oc_loop (oc_m s) = Ok (x, m') ->
    oc_internal s (OcState m' (<[t:=x]> (oc_thr s)) (oc_added s) (oc_done s) (oc_failed s))
| OcExecuted t w :
    oc_thr s !! t = Some (TRun w) ->
    oc_internal s (OcState (oc_m s) (<[t:=TReady]> (oc_thr s)) (oc_added s) (oc_done s ++ [w]) (oc_failed s))
| OcWokenUp t rv x m' :
    oc_thr s !! t = Some (TWoken rv) -> oc_woken rv (oc_m s) = Ok (Some x, m') ->
    oc_internal s (OcState m' (<[t:=x]> (oc_thr s)) (oc_added s) (oc_done s) (oc_failed s))
| OcExit t rv m' :
    oc_thr s !! t = Some (TWoken rv) -> oc_woken rv (oc_m s) = Ok (None, m') ->
    oc_internal s (OcState m' (delete t (oc_thr s)) (oc_added s) (oc_done s) (oc_failed s)).

(** [pthread_cond_signal(&ocwq_has_work)] wakes a waiting thread if there is one. *)
Inductive cond_signal (thr : gmap nat octhread) : gmap nat octhread -> Prop :=
| SignalOne t : thr !! t = Some TWait -> cond_signal thr (<[t:=TWoken 0]> thr)
| SignalNone : (forall t, thr !! t <> Some TWait) -> cond_signal thr thr.

(** How many threads there are. *)
Definition n_threads (thr : gmap nat octhread) : Z := msum (fun _ => 1) thr.

Definition THREADS_MAX : Z := 2 ^ 32 - 1.

(** Steps of the clients and of the system.  A system has fewer than [2^32] threads:
    [pthread_create] fails before that. *)
Inductive oc_external (s : ocstate) : ocstate -> Prop :=
| OcAddSignal rv p q i w m' thr' :
    listed p q i (oc_m s) -> overcommit q <> 0 ->
    manager_workqueue_additem rv p w (oc_m s) = Ok (m', [SignalOcwq]) -> cond_signal (oc_thr s) thr' ->
    oc_external s (OcState m' thr' (oc_added s ++ [w]) (oc_done s) (oc_failed s))
| OcAddSpawn rv p q i w m' t :
    listed p q i (oc_m s) -> overcommit q <> 0 ->
    manager_workqueue_additem rv p w (oc_m s) = Ok (m', [SpawnOvercommit]) ->
    oc_thr s !! t = None -> n_threads (oc_thr s) < THREADS_MAX ->
    oc_external s (OcState m' (<[t:=TReady]> (oc_thr s)) (oc_added s ++ [w]) (oc_done s) (oc_failed s))
| OcAddFailed rv p q i w m' :
    listed p q i (oc_m s) -> overcommit q <> 0 ->
    manager_workqueue_additem rv p w (oc_m s) = Ok (m', [SpawnFailed]) ->
    oc_external s (OcState m' (oc_thr s) (oc_added s ++ [w]) (oc_done s) (oc_failed s + 1))
| OcWake t rv :
    oc_thr s !! t = Some TWait -> rv = 0 \/ rv = ETIMEDOUT ->
    oc_external s (OcState (oc_m s) (<[t:=TWoken rv]> (oc_thr s)) (oc_added s) (oc_done s) (oc_failed s))
| OcCreate n rvs p q i m' :
    wqs (oc_m s) !! p = Some q -> unlisted p (oc_m s) -> item_listhead q = [] ->
    queueprio q = Z.of_nat i -> (i < PTHREAD_WORKQUEUE_MAX)%nat ->
    manager_workqueue_create (replicate n EAGAIN ++ 0 :: rvs) p (oc_m s) = Ok m' ->
    oc_external s (OcState m' (oc_thr s) (oc_added s) (oc_done s) (oc_failed s)).

Definition oc_step (s s' : ocstate) : Prop := oc_internal s s' \/ oc_external s s'.

(** A manager with no overcommit work, before the first submission. *)
Definition oc_initial (s : ocstate) : Prop :=
  mgr_ok (oc_m s) /\ (forall j, pending (ocwq (oc_m s)) (oc_m s) j = []) /\
  ocwq_idle_threads (oc_m s) = 0 /\ ocwq_signal_count (oc_m s) = 0 /\
  oc_thr s = ∅ /\ oc_added s = [] /\ oc_done s = [] /\ oc_failed s = 0.

Definition oc_reachable (s : ocstate) : Prop := exists s0, oc_initial s0 /\ rtc oc_step s0 s.

(** ** Counting *)

Definition sleeps (x : octhread) : Z := match x with TWait | TWoken _ => 1 | _ => 0 end.
Definition woken (x : octhread) : Z := match x with TWoken _ => 1 | _ => 0 end.
Definition busy (x : octhread) : Z := match x with TReady | TRun _ => 1 | _ => 0 end.
Definition holds (w : work) (x : octhread) : Z :=
  match x with TRun w' => if decide (w = w') then 1 else 0 | _ => 0 end.

(** The overcommit items that wait in the queues. *)
Definition oc_items (m : manager) : list work := all_pending (pending (ocwq m) m).

Record oc_inv (s : ocstate) : Prop := {
  oi_mgr : mgr_ok (oc_m s);
  oi_idle : 0 <= ocwq_idle_threads (oc_m s);
  oi_signal : 0 <= ocwq_signal_count (oc_m s) <= msum woken (oc_thr s);
  oi_sleep : ocwq_idle_threads (oc_m s) + ocwq_signal_count (oc_m s) = msum sleeps (oc_thr s);
  oi_threads : n_threads (oc_thr s) <= THREADS_MAX;
  oi_rv t rv : oc_thr s !! t = Some (TWoken rv) -> rv = 0 \/ rv = ETIMEDOUT;
  oi_failed : 0 <= oc_failed s;
  oi_work : Z.of_nat (length (oc_items (oc_m s))) <=
            msum busy (oc_thr s) + ocwq_signal_count (oc_m s) + oc_failed s;
  oi_items w : occ w (oc_added s) =
               occ w (oc_items (oc_m s)) + msum (holds w) (oc_thr s) + occ w (oc_done s)
}.

(** How far the threads are from being all asleep. *)
Definition oc_weight (x : octhread) : Z :=
  match x with TReady => 1 | TRun _ => 2 | TWait => 0 | TWoken _ => 3 end.
Definition oc_measure (s : ocstate) : Z :=
  2 * Z.of_nat (length (oc_items (oc_m s))) + msum oc_weight (oc_thr s).

(** ** Lemmas *)

Lemma sleeps_nonneg x : 0 <= sleeps x. Proof. by destruct x. Qed.
Lemma woken_nonneg x : 0 <= woken x. Proof. by destruct x. Qed.
Lemma busy_nonneg x : 0 <= busy x. Proof. by destruct x. Qed.
Lemma holds_nonneg w x : 0 <= holds w x. Proof. destruct x; simpl; try done. case_decide; lia. Qed.
#[local] Hint Resolve sleeps_nonneg woken_nonneg busy_nonneg holds_nonneg : pwq.

Lemma sleeps_le_threads thr : msum sleeps thr <= n_threads thr.
Proof. apply msum_le. intros k x _. by destruct x. Qed.

Lemma with_oc_counts_ok i k m : mgr_ok m -> mgr_ok (with_oc_counts i k m).
Proof. intros [H1 H2 H3]. by split. Qed.
#[local] Hint Resolve with_oc_counts_ok : pwq.

Lemma oc_items_counts i k m : oc_items (with_oc_counts i k m) = oc_items m.
Proof. done. Qed.

(** One pass of the loop. *)
Lemma oc_loop_result m :
  mgr_ok m ->
  (oc_items m = [] /\
   oc_loop m = Ok (TWait, with_oc_counts (ocwq_idle_threads m +u 1) (ocwq_signal_count m) m)) \/
  (exists w m', oc_loop m = Ok (TRun w, m') /\ mgr_ok m' /\ oc_items m = w :: oc_items m' /\
     ocwq_idle_threads m' = ocwq_idle_threads m /\ ocwq_signal_count m' = ocwq_signal_count m).
Proof.
  intros Hok. unfold oc_loop.
  destruct (overcommit_scan_result m Hok) as [[-> Hn]|(i & w & m' & -> & Hok' & Ht & _ & E1 & E2)]; simpl.
  - left. split; [|done]. apply concat_map_nil. auto.
  - right. exists w, m'. split_and!; try done. apply (all_pending_takes _ _ i); [done|].
    destruct Ht as [Ht _]. unfold pending, slot_items in Ht.
    destruct (slots (ocwq m) !! i) eqn:Hs; [|done]. eapply slot_range; [apply (mo_ocwq _ Hok)|done].
Qed.

(** What [manager_workqueue_additem] does to the pending items. *)
Lemma oc_add_items rv p q i w m m' ev :
  mgr_ok m -> listed p q i m -> overcommit q <> 0 -> manager_workqueue_additem rv p w m = Ok (m', ev) ->
  mgr_ok m' /\ oc_items m' ≡ₚ w :: oc_items m /\
  (if 0 <? ocwq_idle_threads m then
     ev = [SignalOcwq] /\ ocwq_idle_threads m' = ocwq_idle_threads m -u 1 /\
     ocwq_signal_count m' = ocwq_signal_count m +u 1
   else ev = [if rv =? 0 then SpawnOvercommit else SpawnFailed] /\
        ocwq_idle_threads m' = ocwq_idle_threads m /\ ocwq_signal_count m' = ocwq_signal_count m).
Proof.
  intros Hok Hl Ho E. destruct (additem_overcommit rv p q i w m Hok Hl Ho) as (m1 & ev1 & E1 & H1 & H2 & _ & H3).
  rewrite E in E1. injection E1 as <- <-. split_and!; [done| |done].
  apply (all_pending_push _ _ i); [done|]. destruct Hl as (_ & _ & Hs). unfold table_of in Hs.
  rewrite (proj2 (Z.eqb_neq _ _) Ho) in Hs. eapply slot_range; [apply (mo_ocwq _ Hok)|done].
Qed.

Lemma woken_lookup thr t x t' rv :
  (<[t:=x]> thr : gmap nat octhread) !! t' = Some (TWoken rv) -> (x = TWoken rv) \/ thr !! t' = Some (TWoken rv).
Proof.
  destruct (decide (t = t')) as [->|]; [rewrite lookup_insert_eq; intros [= ->]; by left|].
  rewrite lookup_insert_ne by done. by right.
Qed.

(** A thread takes one pass of the loop from a state whose counters and sums are those
    of the invariant less that thread. *)
Lemma oc_pass_inv s t x0 (d : Z) x m' :
  oc_inv s -> oc_thr s !! t = Some x0 ->
  (x0 = TReady /\ d = 0 \/ (exists rv, x0 = TWoken rv) /\ d = 1 /\ 0 < ocwq_signal_count (oc_m s)) ->
  oc_loop (with_oc_counts (ocwq_idle_threads (oc_m s)) (ocwq_signal_count (oc_m s) - d) (oc_m s)) = Ok (x, m') ->
  oc_inv (OcState m' (<[t:=x]> (oc_thr s)) (oc_added s) (oc_done s) (oc_failed s)).
Proof.
  intros [Hm Hi Hs Hsl Ht Hrv Hf Hw Hit] Hx0 Hd El.
  pose proof (sleeps_le_threads (oc_thr s)) as Hle. unfold THREADS_MAX in *.
  pose proof (msum_ge sleeps _ _ _ sleeps_nonneg Hx0) as Hge.
  assert (Hn : forall y, n_threads (<[t:=y]> (oc_thr s)) = n_threads (oc_thr s)).
  { intros y. unfold n_threads. rewrite (msum_insert _ _ _ _ _ Hx0). lia. }
  pose proof (sleeps_le_threads (<[t:=TWait]> (oc_thr s))) as Hle'. rewrite Hn in Hle'.
  assert (Hcell : sleeps x0 = d /\ woken x0 = d /\ busy x0 = 1 - d /\ (forall w, holds w x0 = 0) /\ 0 <= d /\
                  d <= ocwq_signal_count (oc_m s)).
  { destruct Hd as [[-> ->]|[[rv ->] [-> ?]]]; simpl; split_and!; try done.
    all: lia. }
  destruct Hcell as (C1 & C2 & C3 & C4 & C5 & C6).
  destruct (oc_loop_result _ (with_oc_counts_ok (ocwq_idle_threads (oc_m s)) (ocwq_signal_count (oc_m s) - d) _ Hm))
    as [[Hnil E]|(w & m1 & E & Hm1 & Hcons & E1 & E2)]; rewrite E in El; injection El as <- <-;
    rewrite ?oc_items_counts in *; simpl in *.
  - rewrite (msum_insert _ _ _ _ _ Hx0) in Hle'. simpl in Hle'.
    split; simpl; rewrite ?Hn, ?oc_items_counts, ?(msum_insert _ _ _ _ _ Hx0), ?Hnil, ?C1, ?C2, ?C3;
      rewrite ?(u32_small (ocwq_idle_threads (oc_m s) + 1)) by lia; simpl; auto with pwq; try lia.
    + intros t' rv' H%woken_lookup. destruct H as [|H]; [done|by eapply Hrv].
    + pose proof (msum_nonneg busy (delete t (oc_thr s)) busy_nonneg). rewrite (msum_delete _ _ _ _ Hx0). lia.
    + intros w. rewrite ?oc_items_counts, (msum_insert _ _ _ _ _ Hx0), C4, Hit, Hnil. simpl. lia.
  - rewrite Hcons in Hw. simpl in Hw.
    split; simpl; rewrite ?Hn, ?(msum_insert _ _ _ _ _ Hx0), ?E1, ?E2, ?C1, ?C2, ?C3; simpl; auto with pwq; try lia.
    + intros t' rv' H%woken_lookup. destruct H as [|H]; [done|by eapply Hrv].
    + intros w'. rewrite (msum_insert _ _ _ _ _ Hx0), C4, Hit, Hcons, occ_cons. simpl. lia.
Qed.

Lemma with_oc_counts_same m : with_oc_counts (ocwq_idle_threads m) (ocwq_signal_count m - 0) m = m.
Proof. rewrite Z.sub_0_r. by destruct m. Qed.

Lemma signal_dec s : oc_inv s -> 0 < ocwq_signal_count (oc_m s) ->
  ocwq_signal_count (oc_m s) -u 1 = ocwq_signal_count (oc_m s) - 1.
Proof.
  intros [Hm Hi Hs Hsl Ht _ _ _ _] Hp. pose proof (sleeps_le_threads (oc_thr s)). unfold THREADS_MAX in *.
  apply u32_small. lia.
Qed.

(** The thread steps keep the invariant. *)
Lemma oc_internal_inv s s' : oc_inv s -> oc_internal s s' -> oc_inv s'.
Proof.
  intros Hinv Hstep. pose proof Hinv as [Hm Hi Hs Hsl Ht Hrv Hf Hw Hit].
  destruct Hstep as [t x m' Hx El|t w Hx|t rv x m' Hx Ew|t rv m' Hx Ew].
  - apply (oc_pass_inv s t TReady 0); auto. by rewrite with_oc_counts_same.
  - split; simpl; rewrite ?(msum_insert _ _ _ _ _ Hx); simpl; auto; try lia.
    + unfold n_threads in *. rewrite (msum_insert _ _ _ _ _ Hx). lia.
    + intros t' rv' [|H]%woken_lookup; [done|by eapply Hrv].
    + intros w'. rewrite (msum_insert _ _ _ _ _ Hx), occ_snoc, Hit. simpl. lia.
  - unfold oc_woken in Ew. destruct (Z.ltb_spec 0 (ocwq_signal_count (oc_m s))) as [Hp|Hp];
      [|by destruct ((rv =? 0) || (rv =? ETIMEDOUT))].
    rewrite (signal_dec s Hinv Hp) in Ew. apply obind_ok in Ew as ([x1 m1] & El & E). simplify_eq.
    apply (oc_pass_inv s t (TWoken rv) 1); auto. right. by split_and!; [exists rv|..].
  - unfold oc_woken in Ew. destruct (Z.ltb_spec 0 (ocwq_signal_count (oc_m s))) as [Hp|Hp].
    { apply obind_ok in Ew as ([x1 m1] & _ & E). done. }
    destruct ((rv =? 0) || (rv =? ETIMEDOUT)); [|done]. injection Ew as <-.
    pose proof (msum_delete sleeps _ _ _ Hx) as D1. pose proof (msum_delete woken _ _ _ Hx) as D2.
    pose proof (msum_delete busy _ _ _ Hx) as D3. simpl in D1, D2, D3.
    pose proof (sleeps_le_threads (oc_thr s)). unfold n_threads, THREADS_MAX in *.
    pose proof (msum_delete (fun _ => 1) _ _ _ Hx) as D4. simpl in D4.
    pose proof (msum_nonneg sleeps (delete t (oc_thr s)) sleeps_nonneg).
    pose proof (msum_nonneg woken (delete t (oc_thr s)) woken_nonneg).
    split; simpl; rewrite ?oc_items_counts, ?(u32_small (ocwq_idle_threads (oc_m s) - 1)) by lia;
      auto with pwq; unfold n_threads, THREADS_MAX; try lia.
    + intros t' rv' H'. apply lookup_delete_Some in H' as [_ H']. by eapply Hrv.
    + intros w. rewrite Hit. rewrite (msum_delete (holds w) _ _ _ Hx). simpl. lia.
Qed.

(** A signal moves at most one sleeping thread. *)
Lemma cond_signal_sums thr thr' :
  cond_signal thr thr' ->
  msum sleeps thr' = msum sleeps thr /\ msum busy thr' = msum busy thr /\
  n_threads thr' = n_threads thr /\ (forall w, msum (holds w) thr' = msum (holds w) thr) /\
  (msum woken thr' = msum woken thr + 1 \/
   msum woken thr' = msum woken thr /\ msum woken thr = msum sleeps thr) /\
  (forall t rv, thr' !! t = Some (TWoken rv) -> rv = 0 \/ thr !! t = Some (TWoken rv)).
Proof.
  intros [t Hx|Hno]; unfold n_threads.
  - split_and!; intros; try (rewrite (msum_insert _ _ _ _ _ Hx); simpl; lia).
    apply woken_lookup in H as [[= ->]|H]; auto.
  - split_and!; auto. right. split; [done|]. apply msum_ext. intros t x Hx. destruct x; try done.
    by destruct (Hno t).
Qed.

(** The creation of a queue leaves the overcommit items and counters alone. *)
Lemma create_counts rvs p m m' :
  manager_workqueue_create rvs p m = Ok m' ->
  ocwq_idle_threads m' = ocwq_idle_threads m /\ ocwq_signal_count m' = ocwq_signal_count m.
Proof.
  unfold manager_workqueue_create. intros (q & _ & H)%obind_ok. apply obind_ok in H as (m1 & Hm1 & H).
  assert (E : m1 = m \/ m1 = with_has_manager 1 m).
  { destruct (_ && _); [right; by eapply manager_start_only_flag|left; by injection Hm1]. }
  destruct (negb _); apply obind_ok in H as (t & _ & [= <-]); by destruct E as [-> | ->].
Qed.

Lemma create_items n rvs p q i m m' :
  mgr_ok m -> wqs m !! p = Some q -> unlisted p m -> item_listhead q = [] ->
  queueprio q = Z.of_nat i -> (i < PTHREAD_WORKQUEUE_MAX)%nat ->
  manager_workqueue_create (replicate n EAGAIN ++ 0 :: rvs) p m = Ok m' ->
  mgr_ok m' /\ oc_items m' = oc_items m.
Proof.
  intros Hok Hq Hun Hit Hi Hlt E.
  destruct (decide (slots (table_of q m) !! i = Some NULL)) as [Hs|Hs];
    [|by rewrite (workqueue_create_taken n rvs p q i m) in E].
  destruct (workqueue_create_free n rvs p q i m Hok Hq Hun Hit Hi Hs) as (m1 & E1 & Hok1 & _ & _ & _ & _ & Hp & _).
  rewrite E1 in E. injection E as <-. split; [done|]. unfold oc_items, all_pending.
  apply concat_map_ext. intros j _. apply Hp.
Qed.

(** The steps of the environment keep it. *)
Lemma oc_external_inv s s' : oc_inv s -> oc_external s s' -> oc_inv s'.
Proof.
  intros [Hm Hi Hs Hsl Ht Hrv Hf Hw Hit] Hstep.
  pose proof (sleeps_le_threads (oc_thr s)) as Hle. unfold THREADS_MAX in *.
  destruct Hstep as [rv p q i w m' thr' Hl Ho E Hc|rv p q i w m' t Hl Ho E Hn Hmax|rv p q i w m' Hl Ho E|t rv Hx Hr
    |n rvs p q i m' Hq Hun Hni Hpr Hlt E].
  1-3: destruct (oc_add_items rv p q i w _ m' _ Hm Hl Ho E) as (Hm' & Hp & Hcase);
       pose proof (Permutation_length Hp) as Hlen; simpl in Hlen;
       assert (Hocc : forall x, occ x (oc_items m') = (if decide (x = w) then 1 else 0) + occ x (oc_items (oc_m s)))
         by (intros x; rewrite (occ_perm x _ _ Hp); apply occ_cons);
       destruct (Z.ltb_spec 0 (ocwq_idle_threads (oc_m s))) as [Hpos|Hpos];
       destruct Hcase as (Hev & E1 & E2); try (by destruct (rv =? 0)).
  - destruct (cond_signal_sums _ _ Hc) as (S1 & S2 & S3 & S4 & S5 & S6).
    assert (msum woken (oc_thr s) <= msum sleeps (oc_thr s)) by (apply msum_le; intros k x _; by destruct x).
    rewrite u32_small in E1, E2 by lia.
    split; simpl; rewrite ?E1, ?E2, ?S1, ?S2, ?S3; auto; unfold THREADS_MAX; try lia.
    + intros t rv' [->|H']%S6; [by left|by eapply Hrv].
    + intros x. rewrite S4, Hocc, occ_snoc, Hit. simpl. lia.
  - split; simpl; unfold n_threads; rewrite ?(msum_insert_new _ _ _ _ Hn), ?E1, ?E2; simpl; auto;
      unfold n_threads, THREADS_MAX in *; try lia.
    + intros t' rv' [|H']%woken_lookup; [done|by eapply Hrv].
    + intros x. rewrite (msum_insert_new _ _ _ _ Hn), Hocc, occ_snoc, Hit. simpl. lia.
  - split; simpl; rewrite ?E1, ?E2; auto; unfold THREADS_MAX; try lia.
    intros x. rewrite Hocc, occ_snoc, Hit. simpl. lia.
  - split; simpl; unfold n_threads in *; rewrite ?(msum_insert _ _ _ _ _ Hx); simpl; auto;
      unfold THREADS_MAX; try lia.
    + intros t' rv' [[= <-]|H']%woken_lookup; [done|by eapply Hrv].
    + intros w. rewrite (msum_insert _ _ _ _ _ Hx), Hit. simpl. lia.
  - destruct (create_items n rvs p q i _ m' Hm Hq Hun Hni Hpr Hlt E) as [Hm' Hoc].
    destruct (create_counts _ _ _ _ E) as [E1 E2]. split; simpl; rewrite ?E1, ?E2, ?Hoc; auto.
Qed.

Lemma oc_initial_inv s : oc_initial s -> oc_inv s.
Proof.
  intros (Hm & Hn & Hi & Hs & Ht & Ha & Hd & Hf).
  assert (Hp : oc_items (oc_m s) = []) by (apply concat_map_nil; auto).
  split; rewrite ?Hi, ?Hs, ?Ht, ?Ha, ?Hd, ?Hf, ?Hp; unfold n_threads; rewrite ?msum_empty; simpl; done.
Qed.

Lemma oc_reachable_inv s : oc_reachable s -> oc_inv s.
Proof.
  intros (s0 & H0 & Hr). apply oc_initial_inv in H0. revert H0.
  induction Hr as [|s0 s1 s2 [H|H] _ IH]; intros Hinv; [done| |]; apply IH;
    eauto using oc_internal_inv, oc_external_inv.
Qed.

(** A thread that does not wait has a step. *)
(** What a thread does next never aborts and never faults. *)
Lemma oc_own_step s t x :
  oc_inv s -> oc_thr s !! t = Some x ->
  match x with
  | TReady => exists y m', oc_loop (oc_m s) = Ok (y, m')
  | TWoken rv => exists r m', oc_woken rv (oc_m s) = Ok (r, m')
  | _ => True
  end.
Proof.
  intros Hinv Hx. pose proof (oi_mgr _ Hinv) as Hm.
  assert (Hloop : forall m, mgr_ok m -> exists y m', oc_loop m = Ok (y, m')).
  { intros m Hok. destruct (oc_loop_result m Hok) as [[_ E]|(w & m' & E & _)]; eauto. }
  destruct x as [|w| |rv]; [by apply Hloop|done|done|]. unfold oc_woken.
  destruct (0 <? ocwq_signal_count (oc_m s)).
  - edestruct Hloop as (y & m' & ->); [by apply with_oc_counts_ok|]. simpl. eauto.
  - destruct (oi_rv _ Hinv t rv Hx) as [-> | ->]; simpl; eauto.
Qed.

Lemma oc_progress s t x : oc_inv s -> oc_thr s !! t = Some x -> x <> TWait -> exists s', oc_internal s s'.
Proof.
  intros Hinv Hx Hne. pose proof (oc_own_step s t x Hinv Hx) as Hown. destruct x as [|w| |rv]; [| |done|].
  - destruct Hown as (y & m' & E). eexists. by eapply OcLoop.
  - eexists. by eapply OcExecuted.
  - destruct Hown as ([y|] & m' & E); eexists; by econstructor.
Qed.

(** Every step of a thread decreases the measure. *)
Lemma oc_loop_measure m x m' :
  mgr_ok m -> oc_loop m = Ok (x, m') ->
  2 * Z.of_nat (length (oc_items m')) + oc_weight x <= 2 * Z.of_nat (length (oc_items m)).
Proof.
  intros Hok E. destruct (oc_loop_result m Hok) as [[Hn E']|(w & m1 & E' & _ & Hc & _)];
    rewrite E' in E; injection E as <- <-.
  - rewrite oc_items_counts, Hn. done.
  - rewrite Hc. simpl. lia.
Qed.

Lemma oc_internal_measure s s' : oc_inv s -> oc_internal s s' -> oc_measure s' < oc_measure s.
Proof.
  intros Hinv Hstep. pose proof (oi_mgr _ Hinv) as Hm. unfold oc_measure.
  destruct Hstep as [t x m' Hx El|t w Hx|t rv x m' Hx Ew|t rv m' Hx Ew]; simpl.
  - rewrite (msum_insert _ _ _ _ _ Hx). pose proof (oc_loop_measure _ _ _ Hm El). simpl. lia.
  - rewrite (msum_insert _ _ _ _ _ Hx). simpl. lia.
  - rewrite (msum_insert _ _ _ _ _ Hx). unfold oc_woken in Ew.
    destruct (0 <? ocwq_signal_count (oc_m s)); [|by destruct ((rv =? 0) || (rv =? ETIMEDOUT))].
    apply obind_ok in Ew as ([x1 m1] & El & E). simplify_eq.
    apply oc_loop_measure in El; [|by apply with_oc_counts_ok]. rewrite oc_items_counts in El. simpl. lia.
  - rewrite (msum_delete oc_weight _ _ _ Hx). unfold oc_woken in Ew.
    destruct (0 <? ocwq_signal_count (oc_m s)); [by apply obind_ok in Ew as ([x1 m1] & El & E)|].
    destruct ((rv =? 0) || (rv =? ETIMEDOUT)); [|done]. injection Ew as <-. rewrite oc_items_counts. simpl. lia.
Qed.

Lemma oc_measure_nonneg s : 0 <= oc_measure s.
Proof.
  unfold oc_measure. assert (0 <= msum oc_weight (oc_thr s)) by (apply msum_nonneg; by intros []). lia.
Qed.

Lemma oc_internal_keeps s s' : oc_internal s s' -> oc_added s' = oc_added s /\ oc_failed s' = oc_failed s.
Proof. by destruct 1. Qed.

Lemma oc_rtc_inv s s' :
  oc_inv s -> rtc oc_internal s s' -> oc_inv s' /\ oc_added s' = oc_added s /\ oc_failed s' = oc_failed s.
Proof.
  intros Hinv Hr. induction Hr as [|s s1 s2 Hst _ IH]; [done|].
  destruct (oc_internal_keeps _ _ Hst) as [<- <-]. apply IH. by eapply oc_internal_inv.
Qed.

(** When every thread sleeps and no creation failed, nothing is left. *)
Lemma oc_quiet_empty s :
  oc_inv s -> oc_failed s = 0 -> (forall t x, oc_thr s !! t = Some x -> x = TWait) ->
  oc_items (oc_m s) = [] /\ forall w, occ w (oc_done s) = occ w (oc_added s).
Proof.
  intros [Hm Hi Hs Hsl Ht Hrv _ Hw Hit] Hf Hq.
  assert (H0 : forall f, f TWait = 0 -> msum f (oc_thr s) = 0).
  { intros f Hf0. apply msum_const0. intros k x Hx. by rewrite (Hq k x Hx). }
  rewrite (H0 woken eq_refl) in Hs. rewrite (H0 busy eq_refl), Hf in Hw.
  assert (Hnil : oc_items (oc_m s) = []) by (destruct (oc_items (oc_m s)); simpl in Hw; [done|lia]).
  split; [done|]. intros w. rewrite Hit, Hnil, (H0 (holds w) eq_refl). change (occ w []) with 0. lia.
Qed.

Lemma oc_run_down n : forall s, oc_measure s < Z.of_nat n -> oc_inv s ->
  exists s', rtc oc_internal s s' /\ forall t x, oc_thr s' !! t = Some x -> x = TWait.
Proof.
  induction n as [|n IH]; intros s Hn Hinv; [pose proof (oc_measure_nonneg s); lia|].
  destruct (decide (msum oc_weight (oc_thr s) = 0)) as [Hz|Hz].
  - exists s. split; [constructor|]. intros t x Hx.
    assert (oc_weight x = 0) by (eapply msum_zero; [|exact Hz|exact Hx]; by intros []). by destruct x.
  - assert (Hpos : forall x, 0 <= oc_weight x) by by intros [].
    destruct (msum_pos oc_weight (oc_thr s) Hpos) as (t & x & Hx & Hw).
    { pose proof (msum_nonneg oc_weight (oc_thr s) Hpos). lia. }
    destruct (oc_progress s t x Hinv Hx) as [s1 Hst]; [by destruct x|].
    pose proof (oc_internal_measure _ _ Hinv Hst).
    destruct (IH s1) as (s' & Hr & Hq); [lia|by eapply oc_internal_inv|].
    exists s'. split; [by eapply rtc_l|done].
Qed.

(** ** Properties *)

(** C13.  The counters of the overcommit pool are exact at every moment, under every
    interleaving of submissions, timeouts and spurious wakeups: the idle and the signal
    counter together are the threads that are in or just out of their wait, there are
    never more outstanding signals than threads on their way out of the wait, neither
    counter wraps around, and no thread ever aborts or touches a queue that is not there:
    each thread at the head of its loop gets through the search, and each thread that
    comes out of its wait gets through what follows it. *)
Theorem overcommit_accounting s :
  oc_reachable s ->
  mgr_ok (oc_m s) /\
  ocwq_idle_threads (oc_m s) + ocwq_signal_count (oc_m s) = msum sleeps (oc_thr s) /\
  0 <= ocwq_idle_threads (oc_m s) < 2 ^ 32 /\
  0 <= ocwq_signal_count (oc_m s) <= msum woken (oc_thr s) /\
  (forall t, oc_thr s !! t = Some TReady -> exists x m', oc_loop (oc_m s) = Ok (x, m')) /\
  (forall t rv, oc_thr s !! t = Some (TWoken rv) -> exists r m', oc_woken rv (oc_m s) = Ok (r, m')).
Proof.
  intros Hr. pose proof (oc_reachable_inv s Hr) as Hinv. pose proof Hinv as [Hm Hi Hs Hsl Ht _ _ _ _].
  pose proof (sleeps_le_threads (oc_thr s)). unfold THREADS_MAX in *.
  split_and!; try done; try lia.
  - intros t Hx. exact (oc_own_step s t _ Hinv Hx).
  - intros t rv Hx. exact (oc_own_step s t _ Hinv Hx).
Qed.

(** C11.  Every overcommit item is executed exactly once: at every reachable state the
    items submitted are, with their multiplicities, those waiting in the queues, those
    being executed and those executed. *)
Theorem overcommit_exactly_once s w :
  oc_reachable s ->
  occ w (oc_added s) = occ w (oc_items (oc_m s)) + msum (holds w) (oc_thr s) + occ w (oc_done s).
Proof. intros Hr. apply (oi_items _ (oc_reachable_inv s Hr)). Qed.

(** C12.  No work is stranded while [pthread_create] succeeds: there are always at least as
    many active threads and outstanding signals as waiting items; the threads' own steps
    always come to an end, and whichever way they are scheduled, when they end all
    threads wait and every submitted item has been executed. *)
Theorem overcommit_completes s :
  oc_reachable s -> oc_failed s = 0 ->
  Z.of_nat (length (oc_items (oc_m s))) <= msum busy (oc_thr s) + ocwq_signal_count (oc_m s) /\
  (forall s', rtc oc_internal s s' -> forall s'', oc_internal s' s'' -> 0 <= oc_measure s'' < oc_measure s') /\
  (exists s', rtc oc_internal s s' /\ forall s'', ~ oc_internal s' s'') /\
  (forall s', rtc oc_internal s s' -> (forall s'', ~ oc_internal s' s'') ->
     oc_items (oc_m s') = [] /\ (forall t x, oc_thr s' !! t = Some x -> x = TWait) /\
     forall w, occ w (oc_done s') = occ w (oc_added s)).
Proof.
  intros Hr Hf. pose proof (oc_reachable_inv s Hr) as Hinv. split_and!.
  - pose proof (oi_work _ Hinv). lia.
  - intros s' Hrs s'' Hst. destruct (oc_rtc_inv _ _ Hinv Hrs) as [Hinv' _].
    split; [apply oc_measure_nonneg|by apply oc_internal_measure].
  - destruct (oc_run_down (Z.to_nat (oc_measure s + 1)) s) as (s' & Hrs & Hq); [|done|].
    { pose proof (oc_measure_nonneg s). lia. }
    exists s'. split; [done|]. intros s'' Hst.
    destruct Hst as [t x m' Hx _|t w Hx|t rv x m' Hx _|t rv m' Hx _]; by apply Hq in Hx.
  - intros s' Hrs Hstuck. destruct (oc_rtc_inv _ _ Hinv Hrs) as (Hinv' & Ha & Hf').
    assert (Hq : forall t x, oc_thr s' !! t = Some x -> x = TWait).
    { intros t x Hx. destruct x as [|w| |rv]; try done;
        (edestruct (oc_progress s' t) as [s'' Hst]; [done|exact Hx|done|]; by destruct (Hstuck s'')). }
    rewrite Hf in Hf'. destruct (oc_quiet_empty s' Hinv' Hf' Hq) as [Hn Hd]. rewrite Ha in Hd. done.
Qed.

(** An overcommit queue of priority 0, nothing submitted. *)
Definition ex_oc_mgr : manager :=
  with_wqs {[600 := set_items [] ex_ocq]}
    (with_ocwq (Table (600 :: replicate 30 NULL) 0) (snd (manager_init ex_env boot))).
Definition ex_oc0 : ocstate := OcState ex_oc_mgr ∅ [] [] 0.

Definition ex_oc_add (rv : Z) (m : manager) (w : work) : manager :=
  match manager_workqueue_additem rv 600 w m with Ok (m', _) => m' | _ => m end.

(** One item submitted, a thread created for it. *)
Definition ex_oc1 : ocstate := OcState (ex_oc_add 0 ex_oc_mgr (ex_item 9)) {[0%nat := TReady]} [ex_item 9] [] 0.

Lemma ex_oc0_initial : oc_initial ex_oc0.
Proof.
  assert (Hok : mgr_ok ex_oc_mgr).
  { split; [apply table_ok_nulls| |reflexivity].
    by apply (table_ok_single true 0 30 600 (set_items [] ex_ocq)). }
  split_and!; try reflexivity; [done|]. intros j. by apply (ffs_none true _ _ j (mo_ocwq _ Hok)).
Qed.

Lemma ex_oc1_reachable : oc_reachable ex_oc1.
Proof.
  exists ex_oc0. split; [exact ex_oc0_initial|]. apply rtc_once. right.
  apply (OcAddSpawn ex_oc0 0 600 (set_items [] ex_ocq) 0 (ex_item 9)); done.
Qed.

Lemma overcommit_accounting_witness :
  oc_reachable ex_oc1 /\ 0 <= ocwq_signal_count (oc_m ex_oc1) <= msum woken (oc_thr ex_oc1) /\
  exists x m', oc_loop (oc_m ex_oc1) = Ok (x, m').
Proof.
  split; [exact ex_oc1_reachable|].
  destruct (overcommit_accounting ex_oc1 ex_oc1_reachable) as (_ & _ & _ & H & Hl & _).
  split; [exact H|]. exact (Hl 0%nat eq_refl).
Defined.

Lemma overcommit_exactly_once_witness :
  oc_reachable ex_oc1 /\
  occ (ex_item 9) (oc_items (oc_m ex_oc1)) + msum (holds (ex_item 9)) (oc_thr ex_oc1) +
  occ (ex_item 9) (oc_done ex_oc1) = 1.
Proof.
  split; [exact ex_oc1_reachable|].
  rewrite <- (overcommit_exactly_once ex_oc1 (ex_item 9) ex_oc1_reachable). reflexivity.
Defined.

Lemma overcommit_completes_witness :
  oc_reachable ex_oc1 /\ oc_failed ex_oc1 = 0 /\
  exists s', rtc oc_internal ex_oc1 s' /\ occ (ex_item 9) (oc_done s') = 1.
Proof.
  split; [exact ex_oc1_reachable|]. split; [reflexivity|].
  destruct (overcommit_completes ex_oc1 ex_oc1_reachable eq_refl) as (_ & _ & (s' & Hr & Hs) & H).
  exists s'. split; [exact Hr|]. destruct (H s' Hr Hs) as (_ & _ & Hd). rewrite Hd. reflexivity.
Defined.

(** When [pthread_create] fails for a submission that finds no idle thread, the
    submission still succeeds but the item is stranded: a state is reachable in which it
    is pending, no thread exists and none can take a step. *)
Theorem overcommit_strands_on_failure :
  exists s, oc_reachable s /\ oc_added s = [ex_item 9] /\ oc_items (oc_m s) = [ex_item 9] /\
    oc_thr s = ∅ /\ forall s', ~ oc_internal s s'.
Proof.
  exists (OcState (ex_oc_add EAGAIN ex_oc_mgr (ex_item 9)) ∅ [ex_item 9] [] 1). split_and!; try done.
  - exists ex_oc0. split; [exact ex_oc0_initial|]. apply rtc_once. right.
    apply (OcAddFailed ex_oc0 EAGAIN 600 (set_items [] ex_ocq) 0 (ex_item 9)); done.
  - intros s' Hst. destruct Hst as [t x m' Hx _|t w Hx|t rv x m' Hx _|t rv m' Hx _];
      simpl in Hx; by rewrite lookup_empty in Hx.
Qed.
