(* ===== verification/Pool.v ===== *)
(** * The worker pool, step by step (src/posix/manager.c)

    The ordinary work queues are served without a global lock: a producer takes only
    the spin lock of its queue, a worker finds work by reading [wqlist_mask], and
    [wqlist_mtx] is taken only to wait, to signal and to stop a worker.  Here every
    function that runs concurrently is cut at each access to shared memory:
    [wqlist_scan], [wqlist_scan_spin], [wqlist_scan_wait], [worker_main],
    [manager_workqueue_additem], [manager_workqueue_create], [worker_start] and
    [worker_stop].  A thread is its position in these functions; [pstep] is what it does next, and the steps of the
    threads interleave freely.  Memory is sequentially consistent.

    The queue in slot [i] of [wqlist] is the entry [i] of [items]: by Manager.v its
    [wqlist_index] and its [queueprio] are [i] too.  Queues are created at any time. *)

From stdpp Require Import base gmap list.
From Stdlib Require Import ZArith Lia.
From S2P Require Import Prelude Types Manager.

(** ** Positions *)

(** The caller of [wqlist_scan]. *)
Inductive ctx := CTop | CSpin | CWait.

(** The argument [skip_thread_exit_events]. *)
Definition skip (c : ctx) : bool := match c with CWait => false | _ => true end.

(** The two producers: [manager_workqueue_additem] and [worker_stop]. *)
Inductive kind := KAdd | KStop.

Inductive pc :=
(* wqlist_scan *)
| ScRead (c : ctx)                          (* ffs(wqlist_mask) *)
| ScLock (c : ctx) (i : nat)                (* pthread_spin_lock(&workq->mtx) *)
| ScCrit (c : ctx) (i : nat)                (* STAILQ_FIRST, STAILQ_REMOVE_HEAD *)
| ScReset (c : ctx) (i : nat) (w : work)    (* reset_queue_mask *)
| ScUnlock (c : ctx) (i : nat) (r : option work)
(* wqlist_scan_spin *)
| SpInc                                     (* atomic_inc_nv(&current_threads_spinning) *)
| SpPost (w : work)                         (* if (scoreboard.idle == 1) sem_post *)
| SpDec (r : option work)                   (* atomic_dec(&current_threads_spinning) *)
(* wqlist_scan_wait *)
| WtMtx                                     (* acquiring wqlist_mtx, at first or after a wait *)
| WtCond                                    (* pthread_cond_wait, the mutex still held *)
| WtBlocked                                 (* asleep in pthread_cond_wait *)
| WtUnlock (w : work)                       (* pthread_mutex_unlock(&wqlist_mtx) *)
| WtPost (w : work)                         (* if (scoreboard.idle == 1) sem_post *)
| ExIdle                                    (* atomic_dec(&scoreboard.idle) of an exiting worker *)
| ExCount                                   (* atomic_dec(&scoreboard.count) *)
(* worker_main *)
| WkStart                                   (* atomic_dec(&pending_thread_create) *)
| WkDec (w : work)                          (* atomic_dec(&scoreboard.idle) *)
| WkRun (w : work)                          (* witem->func(witem->func_arg) *)
| WkInc                                     (* atomic_inc(&scoreboard.idle) *)
(* manager_workqueue_additem and worker_stop *)
| PuLock (k : kind) (w : work) (i : nat)    (* pthread_spin_lock(&workq->mtx) *)
| PuCrit (k : kind) (w : work) (i : nat)    (* STAILQ_EMPTY *)
| PuOr (k : kind) (w : work) (i : nat)      (* atomic_or(&wqlist_mask, ...) *)
| PuInsert (k : kind) (w : work) (i : nat)  (* STAILQ_INSERT_TAIL *)
| PuUnlock (k : kind) (i : nat)             (* pthread_spin_unlock(&workq->mtx) *)
| AdCheck                                   (* if (scoreboard.idle > 0) *)
| AdMtx                                     (* pthread_mutex_lock(&wqlist_mtx) *)
| PuSignal                                  (* pthread_cond_signal(&wqlist_has_work) *)
| PuEnd                                     (* pthread_mutex_unlock(&wqlist_mtx) *)
| MsMtx                                     (* worker_stop: pthread_mutex_lock(&wqlist_mtx) *)
(* manager_workqueue_create of an ordinary queue *)
| CrMtx (i : nat)                           (* pthread_mutex_lock(&wqlist_mtx) *)
| CrStore (i : nat)                         (* if (wqlist[i] == NULL) wqlist[i] = workq; else abort() *)
(* worker_start *)
| MwPend                                    (* atomic_inc(&pending_thread_create) *)
| MwIdle                                    (* atomic_inc(&scoreboard.idle) *)
| MwCount                                   (* atomic_inc(&scoreboard.count) *)
| MwCreate                                  (* pthread_create *)
| MwFail1                                   (* it failed: atomic_dec(&scoreboard.idle) *)
| MwFail2.                                  (* atomic_dec(&scoreboard.count) *)

#[global] Instance ctx_eq_dec : EqDecision ctx.
Proof. solve_decision. Defined.
#[global] Instance kind_eq_dec : EqDecision kind.
Proof. solve_decision. Defined.
#[global] Instance pc_eq_dec : EqDecision pc.
Proof. solve_decision. Defined.

(** ** Shared memory *)

Record shared := Shared {
  items : gmap nat (list work);   (* the created queues *)
  mk : Z;                         (* wqlist_mask *)
  held : gset nat;                (* the spin locks that are taken *)
  mtx : bool;                     (* wqlist_mtx is taken *)
  n_idle : Z;                     (* scoreboard.idle *)
  n_count : Z;                    (* scoreboard.count *)
  n_pend : Z;                     (* pending_thread_create *)
  n_spin : Z;                     (* current_threads_spinning *)
  n_posts : Z;                    (* posts of scoreboard.sb_sem *)
  n_failed : Z;                   (* calls of worker_start that failed *)
  finished : list work            (* the items executed *)
}.

Definition put_items (i : nat) (l : list work) (s : shared) : shared :=
  Shared (<[i:=l]> (items s)) (mk s) (held s) (mtx s) (n_idle s) (n_count s) (n_pend s) (n_spin s)
    (n_posts s) (n_failed s) (finished s).
Definition put_mk (x : Z) (s : shared) : shared :=
  Shared (items s) x (held s) (mtx s) (n_idle s) (n_count s) (n_pend s) (n_spin s)
    (n_posts s) (n_failed s) (finished s).
Definition put_held (x : gset nat) (s : shared) : shared :=
  Shared (items s) (mk s) x (mtx s) (n_idle s) (n_count s) (n_pend s) (n_spin s)
    (n_posts s) (n_failed s) (finished s).
Definition put_mtx (x : bool) (s : shared) : shared :=
  Shared (items s) (mk s) (held s) x (n_idle s) (n_count s) (n_pend s) (n_spin s)
    (n_posts s) (n_failed s) (finished s).
Definition put_idle (x : Z) (s : shared) : shared :=
  Shared (items s) (mk s) (held s) (mtx s) x (n_count s) (n_pend s) (n_spin s)
    (n_posts s) (n_failed s) (finished s).
Definition put_count (x : Z) (s : shared) : shared :=
  Shared (items s) (mk s) (held s) (mtx s) (n_idle s) x (n_pend s) (n_spin s)
    (n_posts s) (n_failed s) (finished s).
Definition put_pend (x : Z) (s : shared) : shared :=
  Shared (items s) (mk s) (held s) (mtx s) (n_idle s) (n_count s) x (n_spin s)
    (n_posts s) (n_failed s) (finished s).
Definition put_spin (x : Z) (s : shared) : shared :=
  Shared (items s) (mk s) (held s) (mtx s) (n_idle s) (n_count s) (n_pend s) x
    (n_posts s) (n_failed s) (finished s).
Definition put_finished (w : work) (s : shared) : shared :=
  Shared (items s) (mk s) (held s) (mtx s) (n_idle s) (n_count s) (n_pend s) (n_spin s)
    (n_posts s) (n_failed s) (finished s ++ [w]).
Definition put_failed (s : shared) : shared :=
  Shared (items s) (mk s) (held s) (mtx s) (n_idle s) (n_count s) (n_pend s) (n_spin s)
    (n_posts s) (n_failed s + 1) (finished s).

(** [if (scoreboard.idle == 1) (void) sem_post(&scoreboard.sb_sem);] *)
Definition post_if_last (s : shared) : shared :=
  Shared (items s) (mk s) (held s) (mtx s) (n_idle s) (n_count s) (n_pend s) (n_spin s)
    (if n_idle s =? 1 then n_posts s + 1 else n_posts s) (n_failed s) (finished s).

(** Taking a lock: not enabled while it is taken. *)
Definition spin_lock (i : nat) (s : shared) : option shared :=
  if decide (i ∈ held s) then None else Some (put_held ({[i]} ∪ held s) s).
Definition spin_unlock (i : nat) (s : shared) : shared := put_held (held s ∖ {[i]}) s.
Definition mutex_lock (s : shared) : option shared :=
  if mtx s then None else Some (put_mtx true s).
Definition mutex_unlock (s : shared) : shared := put_mtx false s.

(** The first queue [worker_stop] finds in [wqlist]. *)
Definition first_queue (q : gmap nat (list work)) : option nat :=
  head (filter (fun i => is_Some (q !! i)) (seq 0 PTHREAD_WORKQUEUE_MAX)).

(** [manager_workqueue_create] stores the new queue under its priority; when there is one
    already, it aborts the process. *)
Definition store_queue (i : nat) (s : shared) : option shared :=
  match items s !! i with None => Some (put_items i [] s) | Some _ => None end.

(** ** One step of a thread *)

(** Where [wqlist_scan] returns to. *)
Definition scan_none (c : ctx) : pc :=
  match c with CTop => SpInc | CSpin => ScRead CSpin | CWait => WtCond end.
Definition scan_some (c : ctx) (w : work) : pc :=
  match c with CTop => WkDec w | CSpin => SpPost w | CWait => WtUnlock w end.

Section Step.
Context (PWQ_SPIN_THREADS : Z).

(** The next step of a thread at [x]: the new memory and position, [None] as position
    when the call returns or the thread exits.  [ok] is the answer of the system: whether
    a sleeping thread wakes up spuriously, whether [pthread_create] fails.  The
    [atomic_or] and [atomic_and] loops take one round (Manager.mask_set_once,
    Manager.mask_clear_once). *)
Definition pstep (ok : bool) (s : shared) (x : pc) : option (shared * option pc) :=
  match x with
  | ScRead c =>
      let idx := ffs (mk s) in
      if idx =? 0 then Some (s, Some (scan_none c)) else Some (s, Some (ScLock c (Z.to_nat (idx - 1))))
  | ScLock c i => s ← spin_lock i s; Some (s, Some (ScCrit c i))
  | ScCrit c i =>
      l ← items s !! i;
      match l with
      | [] => Some (s, Some (ScUnlock c i None))
      | w :: rest =>
          if negb (skip c && (func w =? NULL)) then
            match rest with
            | [] => Some (put_items i [] s, Some (ScReset c i w))
            | _ => Some (put_items i rest s, Some (ScUnlock c i (Some w)))
            end
          else Some (s, Some (ScUnlock c i None))
      end
  | ScReset c i w =>
      Some (put_mk (Z.land (mk s) (lnot32 (bit (Z.of_nat i)))) s, Some (ScUnlock c i (Some w)))
  | ScUnlock c i r =>
      Some (spin_unlock i s, Some (match r with None => scan_none c | Some w => scan_some c w end))
  | SpInc =>
      let n := n_spin s +u 1 in
      Some (put_spin n s, Some (if n <=? PWQ_SPIN_THREADS then ScRead CSpin else SpDec None))
  | SpPost w => Some (post_if_last s, Some (SpDec (Some w)))
  | SpDec r =>
      Some (put_spin (n_spin s -u 1) s, Some (match r with Some w => WkDec w | None => WtMtx end))
  | WtMtx => s ← mutex_lock s; Some (s, Some (ScRead CWait))
  | WtCond => Some (mutex_unlock s, Some WtBlocked)
  | WtBlocked => if ok then Some (s, Some WtMtx) else None
  | WtUnlock w => Some (mutex_unlock s, Some (WtPost w))
  | WtPost w => Some (post_if_last s, Some (if func w =? NULL then ExIdle else WkDec w))
  | ExIdle => Some (put_idle (n_idle s -u 1) s, Some ExCount)
  | ExCount => Some (put_count (n_count s -u 1) s, None)
  | WkStart => Some (put_pend (n_pend s -u 1) s, Some (ScRead CTop))
  | WkDec w => Some (put_idle (n_idle s -u 1) s, Some (WkRun w))
  | WkRun w => Some (put_finished w s, Some WkInc)
  | WkInc => Some (put_idle (n_idle s +u 1) s, Some (ScRead CTop))
  | PuLock k w i => s ← spin_lock i s; Some (s, Some (PuCrit k w i))
  | PuCrit k w i =>
      l ← items s !! i;
      match k, l with
      | KAdd, _ :: _ => Some (s, Some (PuInsert k w i))
      | _, _ => Some (s, Some (PuOr k w i))
      end
  | PuOr k w i => Some (put_mk (Z.lor (mk s) (bit (Z.of_nat i))) s, Some (PuInsert k w i))
  | PuInsert k w i => l ← items s !! i; Some (put_items i (l ++ [w]) s, Some (PuUnlock k i))
  | PuUnlock k i => Some (spin_unlock i s, Some (match k with KAdd => AdCheck | KStop => PuSignal end))
  | AdCheck => Some (s, if 0 <? n_idle s then Some AdMtx else None)
  | AdMtx => s ← mutex_lock s; Some (s, Some PuSignal)
  | PuSignal => None
  | PuEnd => Some (mutex_unlock s, None)
  | MsMtx =>
      s ← mutex_lock s; i ← first_queue (items s); Some (s, Some (PuLock KStop exit_event i))
  | CrMtx i => s ← mutex_lock s; Some (s, Some (CrStore i))
  | CrStore i => None
  | MwPend => Some (put_pend (n_pend s +u 1) s, Some MwIdle)
  | MwIdle => Some (put_idle (n_idle s +u 1) s, Some MwCount)
  | MwCount => Some (put_count (n_count s +u 1) s, Some MwCreate)
  | MwCreate => if ok then None else Some (s, Some MwFail1)
  | MwFail1 => Some (put_idle (n_idle s -u 1) s, Some MwFail2)
  | MwFail2 => Some (put_failed (put_count (n_count s -u 1) s), None)
  end.

(** ** The pool *)

Record pool := Pool { sh : shared; thr : gmap nat pc; added : list work }.

(** [pthread_cond_signal(&wqlist_has_work)] *)
Inductive wakes (m : gmap nat pc) : gmap nat pc -> Prop :=
| WakesOne t : m !! t = Some WtBlocked -> wakes m (<[t:=WtMtx]> m)
| WakesNone : (forall t, m !! t <> Some WtBlocked) -> wakes m m.

Definition threads (m : gmap nat pc) : Z := msum (fun _ => 1) m.
Definition THREAD_LIMIT : Z := 2 ^ 32 - 1.

(** The steps of the system: a thread moves or ends, signals, creates a worker, installs
    a new queue in its slot; a client submits an item with a function to run, or creates a
    queue; the manager thread calls [worker_stop] or [worker_start].  A client that creates
    a second queue of the same priority aborts the process: there is no step.  A system has
    fewer than [2^32] threads. *)
Inductive pool_step (p : pool) : pool -> Prop :=
| PsMove t x ok s' y :
    thr p !! t = Some x -> pstep ok (sh p) x = Some (s', Some y) ->
    pool_step p (Pool s' (<[t:=y]> (thr p)) (added p))
| PsEnd t x ok s' :
    thr p !! t = Some x -> pstep ok (sh p) x = Some (s', None) ->
    pool_step p (Pool s' (delete t (thr p)) (added p))
| PsSignal t m :
    thr p !! t = Some PuSignal -> wakes (thr p) m ->
    pool_step p (Pool (sh p) (<[t:=PuEnd]> m) (added p))
| PsCreate t t' :
    thr p !! t = Some MwCreate -> thr p !! t' = None ->
    pool_step p (Pool (sh p) (<[t':=WkStart]> (delete t (thr p))) (added p))
| PsSubmit t w i :
    thr p !! t = None -> threads (thr p) < THREAD_LIMIT ->
    func w <> NULL -> is_Some (items (sh p) !! i) ->
    pool_step p (Pool (sh p) (<[t:=PuLock KAdd w i]> (thr p)) (added p ++ [w]))
| PsManager t x :
    thr p !! t = None -> threads (thr p) < THREAD_LIMIT -> x = MsMtx \/ x = MwPend ->
    pool_step p (Pool (sh p) (<[t:=x]> (thr p)) (added p))
| PsNewQueue t i :
    thr p !! t = None -> threads (thr p) < THREAD_LIMIT -> (i < PTHREAD_WORKQUEUE_MAX)%nat ->
    pool_step p (Pool (sh p) (<[t:=CrMtx i]> (thr p)) (added p))
| PsInstall t i s' :
    thr p !! t = Some (CrStore i) -> store_queue i (sh p) = Some s' ->
    pool_step p (Pool s' (<[t:=PuEnd]> (thr p)) (added p)).

(** The state after initialisation; some queues may exist already. *)
Definition pool_initial (p : pool) : Prop :=
  (forall i l, items (sh p) !! i = Some l -> l = [] /\ (i < PTHREAD_WORKQUEUE_MAX)%nat) /\
  mk (sh p) = 0 /\ held (sh p) = ∅ /\ mtx (sh p) = false /\
  n_idle (sh p) = 0 /\ n_count (sh p) = 0 /\ n_pend (sh p) = 0 /\ n_spin (sh p) = 0 /\
  n_failed (sh p) = 0 /\ finished (sh p) = [] /\ thr p = ∅ /\ added p = [].

Definition pool_reachable (p : pool) : Prop := exists p0, pool_initial p0 /\ rtc pool_step p0 p.
End Step.
