(* ===== verification/PoolSeq.v ===== *)
(** * The steps of the pool and the whole functions (src/posix/manager.c)

    manager.c is modelled twice: Manager.v has its functions as a caller sees them when
    nothing interferes, Pool.v has the same functions cut at each access to shared memory.
    This file shows that the two agree: a thread that runs its steps alone leaves the
    memory exactly as the whole function does, returns the same result and signals in the
    same cases. *)

From stdpp Require Import base gmap list.
From Stdlib Require Import ZArith Lia.
From S2P Require Import Prelude Types Manager Dispatch Pool.

(** ** The two states *)

(** The items of the queue in slot [i] of [wqlist], if there is one. *)
Definition queue_at (m : manager) (i : nat) : option (list work) :=
  match slots (wqlist m) !! i with
  | Some p => if p =? NULL then None else item_listhead <$> wqs m !! p
  | None => None
  end.

(** The shared memory of the pool holds the manager's variables, and no thread is inside
    a spin lock. *)
Record agree (m : manager) (s : shared) : Prop := {
  ag_items i : items s !! i = queue_at m i;
  ag_mask : mk s = mask (wqlist m);
  ag_idle : n_idle s = idle (sb m);
  ag_count : n_count s = count (sb m);
  ag_pend : n_pend s = pending_thread_create m;
  ag_held : held s = ∅
}.

(** What a call leaves alone. *)
Definition same_rest (s s' : shared) : Prop :=
  n_spin s' = n_spin s /\ n_posts s' = n_posts s /\ finished s' = finished s.

Section Solo.
Context (PWQ_SPIN_THREADS : Z).

(** [n] steps of one thread, the others standing still: the memory and the position it
    reaches, [None] as position when the call returned with the last step. *)
Fixpoint solo (ok : bool) (n : nat) (s : shared) (x : pc) : option (shared * option pc) :=
  match n with
  | O => Some (s, Some x)
  | S n =>
      r ← pstep PWQ_SPIN_THREADS ok s x;
      match r, n with
      | (s, Some y), _ => solo ok n s y
      | (s, None), O => Some (s, None)
      | (_, None), S _ => None
      end
  end.

(** ** Lemmas *)

Lemma queue_at_slot m i p q :
  slots (wqlist m) !! i = Some p -> p <> NULL -> wqs m !! p = Some q ->
  queue_at m i = Some (item_listhead q).
Proof. intros Hi Hp Hq. unfold queue_at. by rewrite Hi, (proj2 (Z.eqb_neq p NULL)), Hq by done. Qed.

(** A change of one queue's items is a change of one entry. *)
Lemma queue_at_on_items f p i mk' m j :
  mgr_ok m -> slots (wqlist m) !! i = Some p -> p <> NULL ->
  queue_at (with_wqlist (Table (slots (wqlist m)) mk') (with_wqs (on_items f p (wqs m)) m)) j =
  if decide (j = i) then f <$> queue_at m i else queue_at m j.
Proof.
  intros Hok Hi Hp. unfold queue_at, on_items. simpl. case_decide as Hj; [subst j|].
  - rewrite Hi, (proj2 (Z.eqb_neq p NULL)) by done. rewrite lookup_alter_eq. by destruct (wqs m !! p).
  - destruct (slots (wqlist m) !! j) as [p'|] eqn:Hs; [|done]. destruct (Z.eqb_spec p' NULL); [done|].
    rewrite lookup_alter_ne; [done|]. intros <-.
    by apply Hj, (slot_inj _ _ _ (proj1 (mo_wqlist _ Hok)) j i p).
Qed.

(** The manager and the memory after the same change of queue [i]. *)
Lemma agree_on_items f p i mk' m s l :
  mgr_ok m -> agree m s -> slots (wqlist m) !! i = Some p -> p <> NULL ->
  queue_at m i = Some l ->
  agree (with_wqlist (Table (slots (wqlist m)) mk') (with_wqs (on_items f p (wqs m)) m))
        (put_items i (f l) (put_mk mk' s)).
Proof.
  intros Hok [] Hi Hp Hl. split; simpl; try done. intros j.
  rewrite (queue_at_on_items f p i) by done. destruct (decide (j = i)) as [->|Hj].
  - by rewrite lookup_insert_eq, Hl.
  - by rewrite lookup_insert_ne by done.
Qed.

Lemma agree_same m s : agree m s ->
  agree (with_wqlist (Table (slots (wqlist m)) (mask (wqlist m))) m) s.
Proof. intros []. by split. Qed.

(** Taking and leaving a spin lock leaves none taken. *)
Lemma relock i (h : gset nat) : h = ∅ -> ({[i]} ∪ h) ∖ {[i]} = ∅.
Proof. set_solver. Qed.

Lemma unlocked i s : held s = ∅ -> spin_lock i s = Some (put_held {[i]} s).
Proof.
  intros Hh. unfold spin_lock. rewrite decide_False by (rewrite Hh; set_solver).
  rewrite Hh. do 2 f_equal. set_solver.
Qed.

Lemma agree_unlock i m s : agree m (put_held ∅ s) -> agree m (put_held ({[i]} ∖ {[i]}) s).
Proof. by replace ({[i]} ∖ {[i]} : gset nat) with (∅ : gset nat) by set_solver. Qed.

(** ** The search *)

(** The steps of [wqlist_scan] are [wqlist_scan]: five steps at most. *)
Lemma solo_scan ok c m s :
  mgr_ok m -> agree m s ->
  exists r m' n s', wqlist_scan (skip c) m = Ok (r, m') /\ (n <= 5)%nat /\
    solo ok n s (ScRead c) = Some (s', Some (match r with None => scan_none c | Some (w, _) => scan_some c w end)) /\
    agree m' s' /\ mtx s' = mtx s /\ same_rest s s'.
Proof.
  intros Hok Ha. unfold wqlist_scan.
  destruct (Z.eqb_spec (ffs (mask (wqlist m))) 0) as [E|E].
  { exists None, m, 1%nat, s. simpl. rewrite (ag_mask _ _ Ha), E. simpl. by split_and!; [|lia| | | |]. }
  destruct (wqlist_head m Hok E) as (i & p & q & w & rest & Hsf & Hs & Hp & Hq & Hx & Hpr & Ho & Hit & Hpe & Hlow).
  pose proof (slot_inj _ _ _ (proj1 (mo_wqlist _ Hok)) _ _ _ Hsf Hs Hp) as Ei.
  rewrite Hsf. simpl. rewrite Hq. simpl. rewrite Hit, Hx.
  pose proof (queue_at_slot m i p q Hs Hp Hq) as Hat. rewrite Hit in Hat.
  assert (Hs2 : forall n, solo ok (S (S n)) s (ScRead c) = solo ok n (put_held {[i]} s) (ScCrit c i)).
  { intros n. simpl. rewrite (ag_mask _ _ Ha), (proj2 (Z.eqb_neq _ _) E). simpl.
    by rewrite Ei, unlocked by apply Ha. }
  destruct (skip c && (func w =? NULL)) eqn:Hskip; simpl.
  - exists None, m, 4%nat, (put_held ({[i]} ∖ {[i]}) s). rewrite Hs2. simpl.
    rewrite (ag_items _ _ Ha), Hat. simpl. rewrite Hskip. simpl.
    split_and!; try done; [lia|]. apply agree_unlock. destruct Ha. by split.
  - destruct rest as [|w' rest].
    + unfold reset_queue_mask. simpl.
      rewrite mask_clear_once by first [apply (mo_wqlist _ Hok)|pose proof (slot_range _ _ _ (proj1 (mo_wqlist _ Hok)) _ _ Hs); lia].
      simpl. do 4 eexists. split; [done|]. split; [|split].
      2: { rewrite (Hs2 3%nat). simpl. rewrite (ag_items _ _ Ha), Hat. simpl. by rewrite Hskip. }
      { lia. }
      split; [|done]. apply agree_unlock.
      pose proof (agree_on_items (@tail work) p i (Z.land (mask (wqlist m)) (lnot32 (bit (Z.of_nat i)))) m s [w]
        Hok Ha Hs Hp Hat) as []. split; try done. simpl. by rewrite (ag_mask _ _ Ha).
    + do 4 eexists. split; [done|]. split; [|split].
      2: { rewrite (Hs2 2%nat). simpl. rewrite (ag_items _ _ Ha), Hat. simpl. by rewrite Hskip. }
      { lia. }
      split; [|done]. apply agree_unlock.
      pose proof (agree_on_items (@tail work) p i (mask (wqlist m)) m s (w :: w' :: rest)
        Hok Ha Hs Hp Hat) as []. by split; try done; apply Ha.
Qed.

(** ** Producers *)

(** Setting the mask and inserting, under the queue's lock; [worker_stop] does not look
    whether the queue is empty. *)
Lemma solo_push ok k w i p q m s :
  mgr_ok m -> agree m s -> listed p q i m -> overcommit q = 0 ->
  exists n s', (n <= 5)%nat /\
    (forall n', solo ok (n + n') s (PuLock k w i) =
       solo ok n' s' (match k with KAdd => AdCheck | KStop => PuSignal end)) /\
    agree (insert_tail p w (with_wqlist (Table (slots (wqlist m))
             (Z.lor (mask (wqlist m)) (bit (Z.of_nat i)))) m)) s' /\
    mtx s' = mtx s /\ same_rest s s'.
Proof.
  intros Hok Ha (Hq & Hp & Hs) Ho. unfold table_of in Hs. rewrite Ho in Hs. simpl in Hs.
  pose proof (queue_at_slot m i p q Hs Hp Hq) as Hat.
  pose proof (agree_on_items (fun l => l ++ [w]) p i (Z.lor (mask (wqlist m)) (bit (Z.of_nat i)))
    m s _ Hok Ha Hs Hp Hat) as Hag.
  pose proof (ag_mask _ _ Ha) as Hm.
  assert (Hex : exists n s', (n = 4 \/ n = 5)%nat /\ (forall n', solo ok (n + n') s (PuLock k w i) =
       solo ok n' (put_held ({[i]} ∖ {[i]}) s') (match k with KAdd => AdCheck | KStop => PuSignal end)) /\
       s' = put_items i (item_listhead q ++ [w]) (put_mk (Z.lor (mask (wqlist m)) (bit (Z.of_nat i))) s)).
  { destruct (decide (k = KAdd /\ item_listhead q <> [])) as [[-> Hne]|Hno].
    - assert (Hbit : Z.lor (mask (wqlist m)) (bit (Z.of_nat i)) = mk s).
      { rewrite lor_bit_id; [done|lia|]. pose proof (proj2 (mo_wqlist _ Hok) i) as Hb. unfold bit_ok in Hb.
        rewrite Hb, (slot_items_at _ (wqs m) i p q) by done. by rewrite bool_decide_eq_false_2. }
      do 2 eexists. split; [by left|]. split; [|done]. intros n'. simpl. rewrite unlocked by apply Ha. simpl.
      rewrite (ag_items _ _ Ha), Hat. simpl. destruct (item_listhead q); [done|]. simpl.
      rewrite (ag_items _ _ Ha), Hat. simpl. by rewrite Hbit.
    - do 2 eexists. split; [by right|]. split; [|done]. intros n'. simpl. rewrite unlocked by apply Ha. simpl.
      rewrite (ag_items _ _ Ha), Hat, <- Hm. simpl.
      destruct k, (item_listhead q) eqn:Hl; simpl; try (destruct Hno; by split);
        by rewrite (ag_items _ _ Ha), Hat; simpl; rewrite ?Hl. }
  destruct Hex as (n & s' & Hn & Hrun & ->). do 2 eexists. split; [|split; [exact Hrun|]]; [lia|].
  split; [|done]. apply agree_unlock. destruct Hag. by split; try done; simpl.
Qed.

(** Inserting into a queue that holds items does not change the mask. *)
Lemma additem_pushes rv p q i w m :
  mgr_ok m -> listed p q i m -> overcommit q = 0 ->
  manager_workqueue_additem rv p w m =
    Ok (insert_tail p w (with_wqlist (Table (slots (wqlist m)) (Z.lor (mask (wqlist m)) (bit (Z.of_nat i)))) m),
        if 0 <? idle (sb m) then [SignalWqlist] else []).
Proof.
  intros Hok Hl Ho. destruct (listed_index _ _ _ _ Hok Hl) as [Hx _].
  destruct Hl as (Hq & Hp & Hs). unfold table_of in Hs. rewrite Ho in Hs. simpl in Hs.
  unfold manager_workqueue_additem. rewrite Hq. simpl. rewrite Hx, Ho. simpl.
  rewrite set_queue_mask_ok by (eapply slot_range; [apply (mo_wqlist _ Hok)|done]).
  case_bool_decide as E; simpl; [done|].
  rewrite lor_bit_id; [by rewrite with_wqlist_same|lia|].
  pose proof (proj2 (mo_wqlist _ Hok) i) as Hb. unfold bit_ok in Hb.
  rewrite Hb, (slot_items_at _ (wqs m) i p q) by done. by rewrite bool_decide_eq_false_2.
Qed.

(** Where a call that signals, or not, ends. *)
Definition signals (ev : list event) : option pc := match ev with [] => None | _ => Some PuSignal end.

Lemma solo_additem ok rv w i p q m s :
  mgr_ok m -> agree m s -> mtx s = false -> listed p q i m -> overcommit q = 0 ->
  exists m' ev n s', manager_workqueue_additem rv p w m = Ok (m', ev) /\ (n <= 7)%nat /\
    solo ok n s (PuLock KAdd w i) = Some (s', signals ev) /\
    agree m' s' /\ mtx s' = negb (bool_decide (ev = [])) /\ same_rest s s'.
Proof.
  intros Hok Ha Hmtx Hl Ho. rewrite (additem_pushes rv p q i w m Hok Hl Ho).
  destruct (solo_push ok KAdd w i p q m s Hok Ha Hl Ho) as (n & s' & Hn & Hrun & Hag & Hm & Hr).
  pose proof (ag_idle _ _ Hag) as Hi. simpl in Hi.
  destruct (0 <? idle (sb m)) eqn:Hpos.
  - do 2 eexists. exists (n + 2)%nat, (put_mtx true s'). split; [done|]. split; [lia|].
    rewrite Hrun. simpl. rewrite Hi, Hpos. simpl. unfold mutex_lock. rewrite Hm, Hmtx.
    split; [done|]. split; [|done]. destruct Hag. by split.
  - do 2 eexists. exists (n + 1)%nat, s'. split; [done|]. split; [lia|].
    rewrite Hrun. simpl. rewrite Hi, Hpos. split; [done|]. split; [done|]. by rewrite Hm.
Qed.

(** ** Stopping and starting workers *)

Lemma filter_none_is_Some (q : gmap nat (list work)) l :
  (forall j, j ∈ l -> q !! j = None) -> filter (fun i => is_Some (q !! i)) l = [].
Proof.
  induction l as [|j l IH]; intros Hq; [done|].
  rewrite filter_cons_False by (rewrite Hq by (by left); by intros []).
  apply IH. intros j' Hj'. apply Hq. by right.
Qed.

Lemma first_queue_at (q : gmap nat (list work)) i :
  (i < PTHREAD_WORKQUEUE_MAX)%nat -> is_Some (q !! i) -> (forall j, (j < i)%nat -> q !! j = None) ->
  first_queue q = Some i.
Proof.
  intros Hi Hq Hlow. unfold first_queue. rewrite (seq_around i), filter_app by done.
  assert (filter (fun i => is_Some (q !! i)) (seq 0 i) = []) as ->.
  { apply filter_none_is_Some. intros j Hj%list_elem_of_In%in_seq. apply Hlow. lia. }
  simpl. by rewrite filter_cons_True.
Qed.

Lemma first_queue_none (q : gmap nat (list work)) : (forall j, q !! j = None) -> first_queue q = None.
Proof.
  intros Hq. unfold first_queue. by rewrite filter_none_is_Some by done.
Qed.

Lemma solo_worker_stop ok m s :
  mgr_ok m -> agree m s -> mtx s = false ->
  match worker_stop m with
  | Ok (m', ev) => exists n s', (n <= 6)%nat /\ solo ok n s MsMtx = Some (s', signals ev) /\
                     agree m' s' /\ mtx s' = true /\ same_rest s s'
  | _ => pstep PWQ_SPIN_THREADS ok s MsMtx = None
  end.
Proof.
  intros Hok Ha Hmtx. unfold worker_stop. pose proof (first_workq_spec (slots (wqlist m))) as Hf.
  destruct (first_workq _) as [p|].
  - destruct Hf as (i & Hi & Hp & Hlow).
    destruct (ts_slot _ _ _ (proj1 (mo_wqlist _ Hok)) i p Hi Hp) as (q & Hq & Hx & _ & Ho).
    assert (Ho' : overcommit q = 0) by (destruct (Z.eqb_spec (overcommit q) 0); done).
    pose proof (slot_range _ _ _ (proj1 (mo_wqlist _ Hok)) _ _ Hi) as Hr.
    rewrite Hq. simpl. rewrite Hx, set_queue_mask_ok by done. simpl.
    assert (Ha' : agree m (put_mtx true s)) by (destruct Ha; by split).
    assert (Hl : listed p q i m) by (split_and!; [done|done|unfold table_of; by rewrite Ho']).
    destruct (solo_push ok KStop exit_event i p q m _ Hok Ha' Hl Ho') as (n & s' & Hn & Hrun & Hag & Hm & Hrest).
    exists (S (n + 0)), s'. split; [lia|]. split; [|done].
    cbn [solo pstep]. unfold mutex_lock. rewrite Hmtx. simpl.
    rewrite (first_queue_at _ i); [simpl; by rewrite Hrun|done| |].
    + rewrite (ag_items _ _ Ha), (queue_at_slot m i p q) by done. by eexists.
    + intros j Hj. rewrite (ag_items _ _ Ha). unfold queue_at. by rewrite Hlow.
  - simpl. unfold mutex_lock. rewrite Hmtx. simpl. rewrite first_queue_none; [done|].
    intros j. rewrite (ag_items _ _ Ha). unfold queue_at. destruct (slots (wqlist m) !! j) as [p|] eqn:Hj; [|done].
    by rewrite (Hf j p Hj).
Qed.

Lemma solo_worker_start rv m s :
  agree m s ->
  let '(status, m', ev) := worker_start rv m in
  exists n s', (n <= 6)%nat /\
    solo (rv =? 0) n s MwPend = Some (s', if rv =? 0 then Some MwCreate else None) /\
    agree m' s' /\ mtx s' = mtx s /\ same_rest s s'.
Proof.
  intros Ha. unfold worker_start. destruct (Z.eqb_spec rv 0) as [->|Hrv]; simpl.
  - do 2 eexists. split; [|split; [exact (eq_refl (solo true 3 s MwPend))|]]; [lia|]. split; [|done].
    destruct Ha. split; simpl; try done; congruence.
  - do 2 eexists. split; [|split; [exact (eq_refl (solo false 6 s MwPend))|]]; [lia|]. split; [|done].
    destruct Ha. split; simpl; try done; congruence.
Qed.

(** ** Creation of a queue *)

(** A new queue in a free slot is one more entry. *)
Lemma queue_at_install p q i m m' :
  wqs m' = <[p := set_wqlist_index (queueprio q) q]> (wqs m) ->
  slots (wqlist m') = <[i := p]> (slots (wqlist m)) -> p <> NULL -> unlisted p m -> item_listhead q = [] ->
  (i < length (slots (wqlist m)))%nat ->
  forall j, queue_at m' j = if decide (j = i) then Some [] else queue_at m j.
Proof.
  intros Hw Hs Hp [Hun _] Hit Hi j. unfold queue_at. rewrite Hw, Hs. case_decide as Hj; [subst j|].
  - rewrite list_lookup_insert_eq, (proj2 (Z.eqb_neq p NULL)), lookup_insert_eq by done. simpl. by rewrite Hit.
  - rewrite list_lookup_insert_ne by done. destruct (slots (wqlist m) !! j) as [p'|] eqn:Hj'; [|done].
    rewrite lookup_insert_ne; [done|]. intros <-. by apply (Hun j).
Qed.

(** [manager_workqueue_create] takes [wqlist_mtx] and stores the queue; it aborts exactly
    when the slot is taken. *)
Lemma solo_create ok n rvs p q i m s :
  mgr_ok m -> agree m s -> mtx s = false ->
  wqs m !! p = Some q -> unlisted p m -> item_listhead q = [] -> overcommit q = 0 ->
  queueprio q = Z.of_nat i -> (i < PTHREAD_WORKQUEUE_MAX)%nat ->
  solo ok 1 s (CrMtx i) = Some (put_mtx true s, Some (CrStore i)) /\
  match manager_workqueue_create (replicate n EAGAIN ++ 0 :: rvs) p m with
  | Ok m' => exists s', store_queue i s = Some s' /\ agree m' s'
  | _ => store_queue i s = None
  end.
Proof.
  intros Hok Ha Hm Hq Hun Hit Ho Hi Hlt.
  split; [simpl; unfold mutex_lock; by rewrite Hm|].
  assert (Hp : p <> NULL) by (intros ->; by rewrite (mo_null _ Hok) in Hq).
  assert (Hlen : length (slots (wqlist m)) = PTHREAD_WORKQUEUE_MAX) by apply (mo_wqlist _ Hok).
  destruct (lookup_lt_is_Some_2 (slots (wqlist m)) i) as [p' Hp']; [lia|].
  assert (Hat : items s !! i = queue_at m i) by apply (ag_items _ _ Ha).
  destruct (Z.eqb_spec p' NULL) as [->|Hne].
  - unfold manager_workqueue_create. rewrite Hq. simpl. rewrite start_if_needed, Ho. simpl.
    destruct (started_same m) as (E1 & E2 & E3 & E4 & E5).
    unfold install. rewrite Hi, (proj2 (Z.ltb_ge _ _)), Nat2Z.id, E1, Hp' by lia. simpl.
    exists (put_items i [] s). split; [unfold store_queue, queue_at in *; by rewrite Hat, Hp'|].
    destruct Ha. split; simpl; rewrite ?E5; try done.
    + intros j. rewrite (queue_at_install p q i m) by (simpl; rewrite ?E3, ?Hi; done || lia).
      case_decide as Hj; [subst j; by rewrite lookup_insert_eq|]. by rewrite lookup_insert_ne.
    + unfold started. by destruct (_ =? 0).
  - rewrite (workqueue_create_taken n rvs p q i m); try done.
    + destruct (ts_slot _ _ _ (proj1 (mo_wqlist _ Hok)) i p' Hp' Hne) as (q' & Hq' & _).
      unfold store_queue. by rewrite Hat, (queue_at_slot m i p' q') by done.
    + unfold table_of. rewrite Ho. simpl. congruence.
Qed.

(** ** The equivalence *)

(** C10.  The interleaved model and the model of whole functions agree.  From corresponding
    states of a well-formed manager, the steps of [wqlist_scan], [manager_workqueue_additem]
    and [manager_workqueue_create] (ordinary queue), [worker_stop] and [worker_start], run alone, end after at most seven
    steps in a state that corresponds to what the whole function computes: the search
    continues where its caller goes with the item found (or with none), the producers are
    about to signal exactly when the function signals, [worker_stop] cannot proceed exactly
    when the function aborts for want of a queue, [worker_start] is about to create a
    thread or, when [pthread_create] failed, has returned, and [manager_workqueue_create]
    can store its queue exactly when the function does not abort. *)
Theorem solo_steps_are_functions m s :
  mgr_ok m -> agree m s -> mtx s = false ->
  (forall ok c, exists r m' n s',
     wqlist_scan (skip c) m = Ok (r, m') /\ (n <= 7)%nat /\
     solo ok n s (ScRead c) = Some (s', Some (match r with None => scan_none c | Some (w, _) => scan_some c w end)) /\
     agree m' s' /\ mtx s' = false /\ same_rest s s') /\
  (forall ok rv w i p q, listed p q i m -> overcommit q = 0 -> exists m' ev n s',
     manager_workqueue_additem rv p w m = Ok (m', ev) /\ (n <= 7)%nat /\
     solo ok n s (PuLock KAdd w i) = Some (s', signals ev) /\
     agree m' s' /\ mtx s' = negb (bool_decide (ev = [])) /\ same_rest s s') /\
  (forall ok, match worker_stop m with
     | Ok (m', ev) => exists n s', (n <= 7)%nat /\ solo ok n s MsMtx = Some (s', signals ev) /\
                        agree m' s' /\ mtx s' = true /\ same_rest s s'
     | _ => pstep PWQ_SPIN_THREADS ok s MsMtx = None
     end) /\
  (forall rv, exists n s', (n <= 7)%nat /\
     solo (rv =? 0) n s MwPend = Some (s', if rv =? 0 then Some MwCreate else None) /\
     agree (snd (fst (worker_start rv m))) s' /\ mtx s' = false /\ same_rest s s') /\
  (forall ok n rvs p q i, wqs m !! p = Some q -> unlisted p m -> item_listhead q = [] -> overcommit q = 0 ->
     queueprio q = Z.of_nat i -> (i < PTHREAD_WORKQUEUE_MAX)%nat ->
     solo ok 1 s (CrMtx i) = Some (put_mtx true s, Some (CrStore i)) /\
     match manager_workqueue_create (replicate n EAGAIN ++ 0 :: rvs) p m with
     | Ok m' => exists s', store_queue i s = Some s' /\ agree m' s'
     | _ => store_queue i s = None
     end).
Proof.
  intros Hok Ha Hm. split_and!.
  - intros ok c. destruct (solo_scan ok c m s Hok Ha) as (r & m' & n & s' & E & Hn & H1 & H2 & H3 & H4).
    exists r, m', n, s'. rewrite H3. by split_and!; [|lia| | | |].
  - intros ok rv w i p q. by apply solo_additem.
  - intros ok. pose proof (solo_worker_stop ok m s Hok Ha Hm) as H.
    destruct (worker_stop m) as [[m' ev]| | |]; try done. destruct H as (n & s' & Hn & H).
    exists n, s'. split; [lia|done].
  - intros rv. pose proof (solo_worker_start rv m s Ha) as H.
    destruct (worker_start rv m) as [[st m'] ev]. destruct H as (n & s' & Hn & H1 & H2 & H3 & H4).
    exists n, s'. simpl. rewrite H3. by split_and!; [lia| | | |].
  - intros ok n rvs p q i. by apply solo_create.
Qed.

End Solo.

(** A memory that corresponds to the manager with two items in the queue of priority 1. *)
Definition seq_shared : shared :=
  Shared {[1%nat := [ex_item 7; ex_item 8]]} 2 ∅ false 2 0 0 0 0 0 [].

Lemma seq_shared_agree : agree ex_mgr2 seq_shared.
Proof.
  split; try done. intros i. destruct (decide (i = 1%nat)) as [->|Hi]; [done|].
  unfold seq_shared. simpl. rewrite lookup_singleton_ne by done.
  unfold queue_at. destruct (slots (wqlist ex_mgr2) !! i) as [p|] eqn:Hs; [|done].
  destruct (Z.eqb_spec p NULL) as [|Hp]; [done|].
  destruct (ts_slot _ _ _ (proj1 (mo_wqlist _ ex_mgr2_ok)) i p Hs Hp) as (q & Hq & Hx & _).
  assert (Ew : wqs ex_mgr2 = {[500 := set_items [ex_item 7; ex_item 8] ex_queue]}) by reflexivity.
  rewrite Ew in Hq. apply lookup_singleton_Some in Hq as [<- _].
  destruct Hi. by apply (slot_inj _ _ _ (proj1 (mo_wqlist _ ex_mgr2_ok)) i 1 500).
Qed.

Lemma solo_steps_are_functions_witness :
  mgr_ok ex_mgr2 /\ agree ex_mgr2 seq_shared /\ mtx seq_shared = false /\
  exists s', solo 1 false 4 seq_shared (ScRead CTop) = Some (s', Some (WkDec (ex_item 7))) /\
             exists r m' n s', wqlist_scan true ex_mgr2 = Ok (r, m') /\ (n <= 7)%nat /\ agree m' s'.
Proof.
  split; [exact ex_mgr2_ok|]. split; [exact seq_shared_agree|]. split; [reflexivity|].
  eexists. split; [reflexivity|].
  destruct (solo_steps_are_functions 1 ex_mgr2 seq_shared ex_mgr2_ok seq_shared_agree eq_refl) as [H _].
  destruct (H false CTop) as (r & m' & n & s' & E & Hn & _ & Ha & _). by exists r, m', n, s'.
Defined.
