(* ===== verification/PoolInv.v ===== *)
(** * Safety of the worker pool

    The inductive invariant of Pool.v: the locks exclude each other, [wqlist_mask] is
    exact whenever the queue's spin lock is free (and known at every position inside the
    critical sections), the scoreboard's counters count the threads at the positions
    they are meant to count, and no item is lost or duplicated. *)

From stdpp Require Import base gmap list.
From Stdlib Require Import ZArith Lia.
From S2P Require Import Prelude Types Manager Pool.

(** ** What a position contributes *)

Definition spin_of (x : pc) : option nat :=
  match x with
  | ScCrit _ i | ScReset _ i _ | ScUnlock _ i _
  | PuCrit _ _ i | PuOr _ _ i | PuInsert _ _ i | PuUnlock _ i => Some i
  | _ => None
  end.

(** Whether the thread holds the spin lock of queue [i]. *)
Definition spin_at (i : nat) (x : pc) : Z := if decide (spin_of x = Some i) then 1 else 0.

Definition in_ctx (c : ctx) (x : pc) : bool :=
  match x with
  | ScRead c' | ScLock c' _ | ScCrit c' _ | ScReset c' _ _ | ScUnlock c' _ _ =>
      match c, c' with CTop, CTop | CSpin, CSpin | CWait, CWait => true | _, _ => false end
  | _ => false
  end.

(** Whether the thread holds [wqlist_mtx]. *)
Definition mtx_at (x : pc) : Z :=
  match x with
  | WtCond | WtUnlock _ | PuSignal | PuEnd | CrStore _ => 1
  | PuLock KStop _ _ | PuCrit KStop _ _ | PuOr KStop _ _ | PuInsert KStop _ _ | PuUnlock KStop _ => 1
  | _ => if in_ctx CWait x then 1 else 0
  end.

(** Workers: every position of worker_main and the functions it calls. *)
Definition is_worker (x : pc) : bool :=
  match x with
  | PuLock _ _ _ | PuCrit _ _ _ | PuOr _ _ _ | PuInsert _ _ _ | PuUnlock _ _
  | AdCheck | AdMtx | PuSignal | PuEnd | MsMtx | CrMtx _ | CrStore _
  | MwPend | MwIdle | MwCount | MwCreate | MwFail1 | MwFail2 => false
  | _ => true
  end.

(** Threads counted in [scoreboard.idle], [scoreboard.count], [pending_thread_create] and
    [current_threads_spinning]. *)
Definition idle_at (x : pc) : Z :=
  match x with
  | WkRun _ | WkInc | ExCount => 0
  | MwCount | MwCreate | MwFail1 => 1
  | _ => if is_worker x then 1 else 0
  end.
Definition count_at (x : pc) : Z :=
  match x with MwCreate | MwFail1 | MwFail2 => 1 | _ => if is_worker x then 1 else 0 end.
Definition pend_at (x : pc) : Z :=
  match x with WkStart | MwIdle | MwCount | MwCreate | MwFail1 | MwFail2 => 1 | _ => 0 end.
Definition spins_at (x : pc) : Z :=
  match x with SpPost _ | SpDec _ => 1 | _ => if in_ctx CSpin x then 1 else 0 end.

(** Threads inside the busy loop of [wqlist_scan_spin]. *)
Definition loops_at (x : pc) : Z := if in_ctx CSpin x then 1 else 0.

(** The item a position holds outside of the queues. *)
Definition held_item (x : pc) : option work :=
  match x with
  | ScReset _ _ w | ScUnlock _ _ (Some w) | SpPost w | SpDec (Some w) | WtUnlock w | WtPost w
  | WkDec w | WkRun w => Some w
  | PuLock _ w _ | PuCrit _ w _ | PuOr _ w _ | PuInsert _ w _ => Some w
  | _ => None
  end.
Definition holds_at (w : work) (x : pc) : Z :=
  match held_item x with Some w' => if decide (w = w') then 1 else 0 | None => 0 end.

(** ** The invariant *)

Definition nonempty (l : list work) : bool := match l with [] => false | _ => true end.

(** The mask bit of queue [i] is exact. *)
Definition exact (s : shared) (i : nat) : Prop :=
  exists l, items s !! i = Some l /\ Z.testbit (mk s) (Z.of_nat i) = nonempty l.

(** What a producer of either kind carries. *)
Definition kind_ok (s : shared) (k : kind) (w : work) (i : nat) : Prop :=
  match k with KAdd => func w <> NULL | KStop => w = exit_event /\ first_queue (items s) = Some i end.

(** What is known of the queues at each position. *)
Definition local_ok (s : shared) (x : pc) : Prop :=
  match x with
  | ScLock _ i => is_Some (items s !! i)
  | ScCrit _ i => exact s i
  | ScReset c i w =>
      items s !! i = Some [] /\ Z.testbit (mk s) (Z.of_nat i) = true /\ (skip c = true -> func w <> NULL)
  | ScUnlock c i r => exact s i /\ (forall w, r = Some w -> skip c = true -> func w <> NULL)
  | SpPost w | SpDec (Some w) | WkDec w | WkRun w => func w <> NULL
  | PuLock k w i => is_Some (items s !! i) /\ kind_ok s k w i
  | PuCrit k w i => exact s i /\ kind_ok s k w i
  | PuOr k w i => exact s i /\ kind_ok s k w i
  | PuInsert k w i =>
      is_Some (items s !! i) /\ Z.testbit (mk s) (Z.of_nat i) = true /\ kind_ok s k w i
  | PuUnlock _ i => exact s i
  | CrMtx i | CrStore i => (i < PTHREAD_WORKQUEUE_MAX)%nat
  | _ => True
  end.

Record locks_inv (p : pool) : Prop := {
  li_spin i : msum (spin_at i) (thr p) = if decide (i ∈ held (sh p)) then 1 else 0;
  li_mtx : msum mtx_at (thr p) = if mtx (sh p) then 1 else 0
}.

Record mask_inv (p : pool) : Prop := {
  mi_u32 : is_u32 (mk (sh p));
  mi_dom i : is_Some (items (sh p) !! i) -> (i < PTHREAD_WORKQUEUE_MAX)%nat;
  mi_none i : 0 <= i -> items (sh p) !! Z.to_nat i = None -> Z.testbit (mk (sh p)) i = false;
  mi_free i : is_Some (items (sh p) !! i) -> (i ∉ held (sh p)) -> exact (sh p) i;
  mi_local t x : thr p !! t = Some x -> local_ok (sh p) x
}.

Record counters_inv (N : Z) (p : pool) : Prop := {
  ci_threads : threads (thr p) <= THREAD_LIMIT;
  ci_idle : n_idle (sh p) = msum idle_at (thr p);
  ci_count : n_count (sh p) = msum count_at (thr p);
  ci_pend : n_pend (sh p) = u32 (msum pend_at (thr p) + n_failed (sh p));
  ci_spin : n_spin (sh p) = msum spins_at (thr p);
  ci_loops : msum loops_at (thr p) <= Z.max N 0
}.

Definition items_inv (p : pool) : Prop :=
  forall w, func w <> NULL ->
    occ w (added p) = msum (occ w) (items (sh p)) + msum (holds_at w) (thr p) + occ w (finished (sh p)).

(** ** Frame: what a step changes *)

Lemma spin_at_range i x : 0 <= spin_at i x <= 1.
Proof. unfold spin_at. case_decide; lia. Qed.
Lemma mtx_at_range x : 0 <= mtx_at x <= 1.
Proof. destruct x; try destruct c; try destruct k; simpl; lia. Qed.
Lemma idle_at_range x : 0 <= idle_at x <= 1.
Proof. destruct x; simpl; lia. Qed.
Lemma count_at_range x : 0 <= count_at x <= 1.
Proof. destruct x; simpl; lia. Qed.
Lemma spins_at_range x : 0 <= loops_at x <= spins_at x /\ spins_at x <= 1.
Proof. unfold loops_at. destruct x; try destruct c; simpl; lia. Qed.

Lemma msum_at_most (f : pc -> Z) m : (forall x, f x <= 1) -> msum f m <= threads m.
Proof. intros Hf. apply msum_le. intros k x _. apply Hf. Qed.

Lemma spin_lock_inv i s s' : spin_lock i s = Some s' -> (i ∉ held s) /\ s' = put_held ({[i]} ∪ held s) s.
Proof. unfold spin_lock. case_decide; [done|]. by intros [= <-]. Qed.

Lemma mutex_lock_inv s s' : mutex_lock s = Some s' -> mtx s = false /\ s' = put_mtx true s.
Proof. unfold mutex_lock. destruct (mtx s); [done|]. by intros [= <-]. Qed.

(** Case analysis on a step: one case per branch of [pstep]. *)
Ltac pstep_cases H :=
  unfold pstep, scan_none, scan_some in H; simpl in H;
  repeat first
    [ match type of H with
      | (_ ≫= _) = Some _ => apply bind_Some in H as (? & ? & H)
      | context [match ?e with _ => _ end] => destruct e eqn:?; try discriminate H
      end
    | match goal with
      | E : spin_lock _ _ = Some _ |- _ => apply spin_lock_inv in E as [? ->]
      | E : mutex_lock _ = Some _ |- _ => apply mutex_lock_inv in E as [? ->]
      end
    | progress simplify_eq/= ].

(** A step touches only the queue whose lock it holds, keeps the set of queues, and
    touches no other bit of the mask. *)
Lemma pstep_frame N ok s x s' y :
  pstep N ok s x = Some (s', y) -> is_u32 (mk s) -> (forall i, spin_of x = Some i -> (i < 32)%nat) ->
  (forall j, spin_of x <> Some j -> items s' !! j = items s !! j) /\
  (forall j, is_Some (items s' !! j) <-> is_Some (items s !! j)) /\
  (forall j, 0 <= j -> spin_of x <> Some (Z.to_nat j) -> Z.testbit (mk s') j = Z.testbit (mk s) j) /\
  is_u32 (mk s').
Proof.
  intros H Hu Hr. destruct x; pstep_cases H; split_and!; try done; simpl in *; intros;
    rewrite ?testbit_clear, ?testbit_set by first [lia|done|specialize (Hr _ eq_refl); lia];
    try (rewrite lookup_insert_ne by congruence; done);
    try (rewrite bool_decide_eq_false_2 by (intros <-; rewrite Nat2Z.id in *; done); by rewrite ?andb_true_r, ?orb_false_r);
    try (destruct (decide (i = j)) as [->|]; [by rewrite lookup_insert_eq; split; eauto|by rewrite lookup_insert_ne]);
    try (apply lor_u32; [done|]; apply bit_range; specialize (Hr _ eq_refl); lia);
    try (apply land_u32; [done|]; apply u32_range).
Qed.

(** ** Steps as seen by sums over the threads *)

(** The contribution of the position after a step, if any. *)
Definition oat (f : pc -> Z) (y : option pc) : Z := match y with Some y => f y | None => 0 end.

(** The steps that leave the shared memory alone: positions left, positions entered and
    items submitted. *)
Inductive quiet (p : pool) : list pc -> list pc -> list work -> Prop :=
| QLost t : thr p !! t = Some PuSignal -> (forall t', thr p !! t' <> Some WtBlocked) ->
    quiet p [PuSignal] [PuEnd] []
| QWoken t : thr p !! t = Some PuSignal -> quiet p [PuSignal; WtBlocked] [PuEnd; WtMtx] []
| QCreate : quiet p [MwCreate] [WkStart] []
| QSubmit w i : func w <> NULL -> is_Some (items (sh p) !! i) -> threads (thr p) < THREAD_LIMIT ->
    quiet p [] [PuLock KAdd w i] [w]
| QStop : threads (thr p) < THREAD_LIMIT -> quiet p [] [MsMtx] []
| QStart : threads (thr p) < THREAD_LIMIT -> quiet p [] [MwPend] []
| QNew i : threads (thr p) < THREAD_LIMIT -> (i < PTHREAD_WORKQUEUE_MAX)%nat -> quiet p [] [CrMtx i] [].

Inductive view (N : Z) (p p' : pool) : Prop :=
| VMove t x ok y :
    thr p !! t = Some x -> pstep N ok (sh p) x = Some (sh p', y) -> added p' = added p ->
    (forall z, y = Some z -> thr p' !! t = Some z) ->
    (forall f, msum f (thr p') = msum f (thr p) - f x + oat f y) ->
    (forall t' x', thr p' !! t' = Some x' -> y = Some x' \/ (t' <> t /\ thr p !! t' = Some x')) ->
    view N p p'
| VQuiet olds news ad :
    sh p' = sh p -> quiet p olds news ad -> added p' = added p ++ ad ->
    (forall f, msum f (thr p') = msum f (thr p) - lsum f olds + lsum f news) ->
    (forall t' x', thr p' !! t' = Some x' -> x' ∈ news \/ thr p !! t' = Some x') ->
    view N p p'
| VInstall t i :
    thr p !! t = Some (CrStore i) -> items (sh p) !! i = None ->
    sh p' = put_items i [] (sh p) -> added p' = added p ->
    (forall f, msum f (thr p') = msum f (thr p) - f (CrStore i) + f PuEnd) ->
    (forall t' x', thr p' !! t' = Some x' -> x' = PuEnd \/ (t' <> t /\ thr p !! t' = Some x')) ->
    view N p p'.

Lemma lookup_insert_or (m : gmap nat pc) t x t' x' :
  <[t:=x]> m !! t' = Some x' -> x = x' \/ (t' <> t /\ m !! t' = Some x').
Proof.
  destruct (decide (t = t')) as [->|]; [rewrite lookup_insert_eq; intros [= ->]; by left|].
  rewrite lookup_insert_ne by done. by right.
Qed.

#[local] Arguments lsum : simpl never.

Lemma lsum_one {A} (f : A -> Z) x : lsum f [x] = f x.
Proof. unfold lsum. simpl. lia. Qed.
Lemma lsum_two {A} (f : A -> Z) x y : lsum f [x; y] = f x + f y.
Proof. unfold lsum. simpl. lia. Qed.

Lemma pool_step_view N p p' : pool_step N p p' -> view N p p'.
Proof.
  intros [t x ok s' y Hx Hs|t x ok s' Hx Hs|t m Hx Hw|t t' Hx Hn|t w i Hn Hl Hf Hi|t x Hn Hl Hx|t i Hn Hl Hi|t i s' Hx Hi].
  - eapply (VMove _ _ _ t x ok (Some y)); simpl; try done.
    + intros z [= ->]. apply lookup_insert_eq.
    + intros f. by rewrite (msum_insert _ _ _ _ _ Hx).
    + intros t' x' [->|]%lookup_insert_or; auto.
  - eapply (VMove _ _ _ t x ok None); simpl; try done.
    + intros f. rewrite (msum_delete f _ _ _ Hx). lia.
    + intros t' x' [? H]%lookup_delete_Some. auto.
  - destruct Hw as [t' Hx'|Hno].
    + assert (Hne : t <> t') by (intros ->; congruence).
      assert (Hx2 : <[t':=WtMtx]> (thr p) !! t = Some PuSignal) by by rewrite lookup_insert_ne.
      eapply (VQuiet _ _ _ _ [PuEnd; WtMtx] []); simpl; [done|by apply (QWoken p t)|by rewrite app_nil_r| |].
      * intros f. rewrite (msum_insert _ _ _ _ _ Hx2), (msum_insert _ _ _ _ _ Hx'), !lsum_two. lia.
      * intros s x [<-|[_ [<-|[_ H]]%lookup_insert_or]]%lookup_insert_or; set_solver.
    + eapply (VQuiet _ _ _ _ [PuEnd] []); simpl; [done|by apply (QLost p t)|by rewrite app_nil_r| |].
      * intros f. rewrite (msum_insert _ _ _ _ _ Hx), !lsum_one. lia.
      * intros s x [<-|[_ H]]%lookup_insert_or; set_solver.
  - assert (Hn' : delete t (thr p) !! t' = None) by (rewrite lookup_delete_None; auto).
    eapply (VQuiet _ _ _ _ [WkStart] []); simpl; [done|apply QCreate|by rewrite app_nil_r| |].
    + intros f. rewrite (msum_insert_new _ _ _ _ Hn'), (msum_delete f _ _ _ Hx), !lsum_one. lia.
    + intros s x [<-|[_ [_ H]%lookup_delete_Some]]%lookup_insert_or; set_solver.
  - eapply (VQuiet _ _ _ [] [PuLock KAdd w i] [w]); simpl; [done|by apply QSubmit|done| |].
    + intros f. rewrite (msum_insert_new _ _ _ _ Hn), lsum_one. change (lsum f []) with 0. lia.
    + intros s x [<-|[_ H]]%lookup_insert_or; set_solver.
  - eapply (VQuiet _ _ _ [] [x] []); simpl; [done| |by rewrite app_nil_r| |].
    + destruct Hx as [-> | ->]; by constructor.
    + intros f. rewrite (msum_insert_new _ _ _ _ Hn), lsum_one. change (lsum f []) with 0. lia.
    + intros s y [<-|[_ H]]%lookup_insert_or; set_solver.
  - eapply (VQuiet _ _ _ [] [CrMtx i] []); simpl; [done|by apply QNew|by rewrite app_nil_r| |].
    + intros f. rewrite (msum_insert_new _ _ _ _ Hn), lsum_one. change (lsum f []) with 0. lia.
    + intros s x [<-|[_ H]]%lookup_insert_or; set_solver.
  - unfold store_queue in Hi. destruct (items (sh p) !! i) eqn:Ei; simplify_eq.
    eapply (VInstall _ _ _ t i); simpl; try done.
    + intros f. by rewrite (msum_insert _ _ _ _ _ Hx).
    + intros t' x' [->|]%lookup_insert_or; auto.
Qed.

(** Evaluates the sums of a quiet step. *)
Ltac quiet_cases H :=
  destruct H; rewrite ?lsum_two, ?lsum_one in *; simpl in *; change (@lsum pc _ []) with 0 in *.

(** ** The locks *)

Definition locked (s : shared) (i : nat) : Z := if decide (i ∈ held s) then 1 else 0.

Lemma pstep_spin N ok s x s' y i :
  pstep N ok s x = Some (s', y) -> (spin_of x = Some i -> i ∈ held s) ->
  oat (spin_at i) y - spin_at i x = locked s' i - locked s i.
Proof.
  intros H Hh. unfold locked, spin_at in *.
  destruct x; pstep_cases H; repeat case_decide; simplify_eq; try lia; set_solver.
Qed.

Definition mutexed (s : shared) : Z := if mtx s then 1 else 0.

Lemma pstep_mtx N ok s x s' y :
  pstep N ok s x = Some (s', y) -> (mtx_at x = 1 -> mtx s = true) ->
  oat mtx_at y - mtx_at x = mutexed s' - mutexed s.
Proof.
  intros H Hm. unfold mutexed.
  destruct x; try destruct c; try destruct k; pstep_cases H; simpl in *;
    repeat match goal with E : mtx _ = _ |- _ => rewrite E end; try rewrite Hm by done; lia.
Qed.

(** Whoever is inside a critical section holds its lock. *)
Lemma spin_holder p t x i : locks_inv p -> thr p !! t = Some x -> spin_of x = Some i -> i ∈ held (sh p).
Proof.
  intros [Hl _] Hx Hi. specialize (Hl i). destruct (decide (i ∈ held (sh p))) as [|Hn]; [done|].
  pose proof (msum_ge (spin_at i) _ _ _ (fun x => proj1 (spin_at_range i x)) Hx) as Hg.
  unfold spin_at at 1 in Hg. rewrite decide_True in Hg by done. lia.
Qed.

Lemma mtx_holder p t x : locks_inv p -> thr p !! t = Some x -> mtx_at x = 1 -> mtx (sh p) = true.
Proof.
  intros [_ Hl] Hx Hi. destruct (mtx (sh p)); [done|].
  pose proof (msum_ge mtx_at _ _ _ (fun x => proj1 (mtx_at_range x)) Hx). lia.
Qed.

(** Two threads are never in the same critical section. *)
Lemma spin_exclusive p t x t' x' i :
  locks_inv p -> thr p !! t = Some x -> thr p !! t' = Some x' -> t' <> t ->
  spin_of x = Some i -> spin_of x' <> Some i.
Proof.
  intros [Hl _] Hx Hx' Hne Hi Hi'. specialize (Hl i). rewrite (msum_delete _ _ _ _ Hx) in Hl.
  assert (Hd : delete t (thr p) !! t' = Some x') by (rewrite lookup_delete_Some; auto).
  pose proof (msum_ge (spin_at i) _ _ _ (fun x => proj1 (spin_at_range i x)) Hd) as Hg.
  assert (E : spin_at i x = 1 /\ spin_at i x' = 1) by (unfold spin_at; by rewrite !decide_True).
  case_decide; lia.
Qed.

Lemma mtx_exclusive p t x t' x' :
  locks_inv p -> thr p !! t = Some x -> thr p !! t' = Some x' -> t' <> t -> mtx_at x = 1 -> mtx_at x' = 0.
Proof.
  intros [_ Hl] Hx Hx' Hne Hi. rewrite (msum_delete _ _ _ _ Hx) in Hl.
  assert (Hd : delete t (thr p) !! t' = Some x') by (rewrite lookup_delete_Some; auto).
  pose proof (msum_ge mtx_at _ _ _ (fun x => proj1 (mtx_at_range x)) Hd) as Hg.
  pose proof (mtx_at_range x'). destruct (mtx (sh p)); lia.
Qed.

Lemma locks_step N p p' : locks_inv p -> pool_step N p p' -> locks_inv p'.
Proof.
  intros Hinv Hst. pose proof Hinv as [Hl Hm].
  destruct (pool_step_view N p p' Hst) as [t x ok y Hx Hp _ _ Hsum _|olds news ad Hs Hq _ Hsum _|t i Hx Hi Hs _ Hsum _].
  - split.
    + intros i. rewrite Hsum, Hl. pose proof (pstep_spin _ _ _ _ _ _ i Hp) as Hd. unfold locked in Hd.
      specialize (Hd (spin_holder p t x i Hinv Hx)). lia.
    + rewrite Hsum, Hm. pose proof (pstep_mtx _ _ _ _ _ _ Hp (mtx_holder p t x Hinv Hx)) as Hd.
      unfold mutexed in Hd. lia.
  - split; [intros i|]; rewrite Hsum, Hs, ?Hl, ?Hm; unfold spin_at; quiet_cases Hq; simpl; lia.
  - split; [intros j|]; rewrite Hsum, Hs, ?Hl, ?Hm; unfold spin_at; simpl; lia.
Qed.

(** ** The mask *)

Lemma first_queue_ext q q' : (forall j, is_Some (q' !! j) <-> is_Some (q !! j)) -> first_queue q' = first_queue q.
Proof.
  intros H. unfold first_queue. f_equal. induction (seq 0 PTHREAD_WORKQUEUE_MAX) as [|i l IH]; [done|].
  rewrite !filter_cons, IH. specialize (H i). case_decide; case_decide; tauto.
Qed.

Lemma filter_seq_head (P : nat -> Prop) `{forall i, Decision (P i)} n k i :
  head (filter P (seq n k)) = Some i -> P i /\ (n <= i)%nat /\ forall j, (n <= j < i)%nat -> ~ P j.
Proof.
  revert n. induction k as [|k IH]; intros n; simpl; [done|]. rewrite filter_cons. case_decide as Hp.
  - intros [= <-]. split_and!; [done|lia|lia].
  - intros Hh. destruct (IH _ Hh) as (H1 & H2 & H3). split_and!; [done|lia|].
    intros j Hj. destruct (decide (j = n)) as [->|]; [done|]. apply H3. lia.
Qed.

(** [worker_stop] picks the created queue of the lowest index. *)
Lemma first_queue_spec q i :
  first_queue q = Some i -> is_Some (q !! i) /\ forall j, (j < i)%nat -> q !! j = None.
Proof.
  intros H. apply filter_seq_head in H as (H1 & _ & H2). split; [done|].
  intros j Hj. specialize (H2 j ltac:(lia)). by apply eq_None_not_Some.
Qed.

Lemma skip_func c w : negb (skip c && (func w =? NULL)) = true -> skip c = true -> func w <> NULL.
Proof. intros H Hc. rewrite Hc in H. simpl in H. by destruct (Z.eqb_spec (func w) NULL). Qed.

(** What a thread knows is not changed by steps that leave its queue alone. *)
Lemma local_ok_frame s s' x :
  (forall j, spin_of x = Some j -> items s' !! j = items s !! j) ->
  (forall j, spin_of x = Some j -> Z.testbit (mk s') (Z.of_nat j) = Z.testbit (mk s) (Z.of_nat j)) ->
  (forall j, is_Some (items s' !! j) <-> is_Some (items s !! j)) ->
  local_ok s x -> local_ok s' x.
Proof.
  intros Hi Hb Hd. unfold local_ok, exact, kind_ok. rewrite (first_queue_ext _ _ Hd).
  destruct x; simpl in *; rewrite ?Hd, ?(Hi _ eq_refl), ?(Hb _ eq_refl); done.
Qed.

(** What the moving thread knows at its new position. *)
Lemma local_ok_move N ok s x s' y :
  pstep N ok s x = Some (s', Some y) -> is_u32 (mk s) ->
  (forall j, is_Some (items s !! j) -> (j < PTHREAD_WORKQUEUE_MAX)%nat) ->
  (forall j, 0 <= j -> items s !! Z.to_nat j = None -> Z.testbit (mk s) j = false) ->
  (forall j, is_Some (items s !! j) -> (j ∉ held s) -> exact s j) ->
  local_ok s x -> local_ok s' y.
Proof.
  intros H Hu Hd Hnone Hfree Hl.
  assert (Hr : forall j, is_Some (items s !! j) -> 0 <= Z.of_nat j < 32)
    by (intros j Hj; specialize (Hd j Hj); unfold PTHREAD_WORKQUEUE_MAX in Hd; lia).
  assert (Hcons : forall i w rest b, items s !! i = Some (w :: rest) -> exact s i -> b = Z.testbit (mk s) (Z.of_nat i) -> b = true).
  { intros i w rest b Hi (l & El & Hb) ->. rewrite Hi in El. by simplify_eq. }
  destruct x; pstep_cases H; simpl in *; try done; try (by destruct_and?).
  - destruct (items s' !! Z.to_nat (ffs (mk s') - 1)) eqn:E; [by eexists|].
    apply Z.eqb_neq in Heqb. destruct (ffs_least (mk s')) as (H1 & H2 & _).
    { destruct (decide (mk s' = 0)) as [E0|]; [by rewrite E0 in Heqb|]. unfold is_u32 in Hu. lia. }
    by rewrite (Hnone (ffs (mk s') - 1)) in H2 by (done || lia).
  - by apply Hfree.
  - rewrite lookup_insert_eq. split_and!; [done|by eapply Hcons|by apply skip_func].
  - split; [|intros ? [= <-]; by apply skip_func].
    eexists. simpl. rewrite lookup_insert_eq. split; [done|]. by eapply Hcons.
  - destruct Hl as (Hi & Hb & Hf). split; [|by intros ? [= <-]].
    exists []. simpl. rewrite testbit_clear, bool_decide_eq_true_2 by (try done; apply Hr; by eexists).
    by rewrite andb_false_r.
  - destruct Hl as [_ Hl]. by apply Hl.
  - destruct Hl as [_ Hl]. by apply Hl.
  - by apply Z.eqb_neq.
  - destruct Hl as [Hi Hk]. split; [by apply Hfree|done].
  - destruct Hl as [He Hk]. split_and!; [by eexists|by eapply Hcons|done].
  - destruct Hl as [(l & Hi & _) Hk]. split_and!; [by eexists| |done].
    rewrite testbit_set, bool_decide_eq_true_2 by (done || lia). by rewrite orb_true_r.
  - destruct Hl as (_ & Hb & _). eexists. simpl. rewrite lookup_insert_eq. split; [done|].
    rewrite Hb. by destruct x.
  - split_and!; [by apply first_queue_spec|done|done].
Qed.

Lemma local_spin_some s x i : local_ok s x -> spin_of x = Some i -> is_Some (items s !! i).
Proof.
  intros Hl Hi. unfold local_ok, exact in Hl. destruct x; simplify_eq/=; try done; destruct_and?; eauto;
    naive_solver eauto.
Qed.

(** A lock is released only with the mask exact. *)
Lemma unlock_exact N ok s x s' y i :
  pstep N ok s x = Some (s', y) -> local_ok s x -> spin_of x = Some i -> (i ∉ held s') -> i ∈ held s ->
  exact s' i.
Proof.
  intros H Hl Hi Hn Hh. destruct x; pstep_cases H; try done; destruct_and?; done.
Qed.

(** A new queue disturbs nobody: no thread is inside a queue that does not exist, and
    [worker_stop], which chose a queue, holds [wqlist_mtx]. *)
Lemma local_ok_install s x i :
  items s !! i = None -> mtx_at x = 0 -> local_ok s x -> local_ok (put_items i [] s) x.
Proof.
  intros Hi Hm Hl.
  assert (Hne : forall j, is_Some (items s !! j) -> <[i:=[]]> (items s) !! j = items s !! j).
  { intros j [l Hj]. rewrite lookup_insert_ne; [done|]. intros ->. congruence. }
  assert (Hex : forall j, exact s j -> exact (put_items i [] s) j).
  { intros j (l & Hj & Hb). exists l. simpl. rewrite Hne by eauto. done. }
  destruct x; try done; try (destruct k; [|done]); simpl in *; destruct_and?; split_and?; auto;
    rewrite Hne by eauto; done.
Qed.

Lemma mask_install p p' t i :
  locks_inv p -> mask_inv p -> thr p !! t = Some (CrStore i) -> items (sh p) !! i = None ->
  sh p' = put_items i [] (sh p) ->
  (forall t' x', thr p' !! t' = Some x' -> x' = PuEnd \/ (t' <> t /\ thr p !! t' = Some x')) ->
  mask_inv p'.
Proof.
  intros Hlk [Hu Hd Hnone Hfree Hloc] Hx Hi Hs Hthr. split; rewrite Hs; simpl; [done| | | |].
  - intros j [l [[<- _]|[_ Hj]]%lookup_insert_Some]; [exact (Hloc t _ Hx)|by apply Hd; eauto].
  - intros j Hj [Hn _]%lookup_insert_None. by apply Hnone.
  - intros j [l [[<- _]|[Hne Hj]]%lookup_insert_Some] Hh.
    + exists []. simpl. rewrite lookup_insert_eq. split; [done|]. apply Hnone; [lia|]. by rewrite Nat2Z.id.
    + destruct (Hfree j) as (l' & El & Eb); [by eauto|done|]. exists l'. simpl. by rewrite lookup_insert_ne.
  - intros t' x' Hx'. destruct (Hthr t' x' Hx') as [->|[Hne Hx2]]; [done|].
    apply local_ok_install; [done| |by apply (Hloc t')].
    by apply (mtx_exclusive p t (CrStore i) t' x').
Qed.

Lemma mask_step N p p' : locks_inv p -> mask_inv p -> pool_step N p p' -> mask_inv p'.
Proof.
  intros Hlk Hmk Hst. pose proof Hmk as [Hu Hd Hnone Hfree Hloc].
  destruct (pool_step_view N p p' Hst) as
    [t x ok y Hx Hp _ _ _ Hthr|olds news ad Hs Hq _ _ Hthr|t i Hx Hi Hs _ _ Hthr]; [| |by eapply mask_install].
  - pose proof (Hloc t x Hx) as Hlx.
    assert (Hr : forall i, spin_of x = Some i -> (i < 32)%nat).
    { intros i Hi. pose proof (Hd i (local_spin_some _ _ _ Hlx Hi)) as Hlt.
      unfold PTHREAD_WORKQUEUE_MAX in Hlt. lia. }
    destruct (pstep_frame _ _ _ _ _ _ Hp Hu Hr) as (F1 & F2 & F3 & F4).
    assert (Hsp : forall i, 0 <= i -> items (sh p) !! Z.to_nat i = None -> spin_of x <> Some (Z.to_nat i)).
    { intros i Hi Hn Hsp. apply (local_spin_some (sh p)) in Hsp; [|done]. rewrite Hn in Hsp. by apply is_Some_None in Hsp. }
    split; [done| | | |].
    + intros i. rewrite F2. apply Hd.
    + intros i Hi Hn. assert (Hn' : items (sh p) !! Z.to_nat i = None).
      { apply eq_None_not_Some. rewrite <- F2, Hn. apply is_Some_None. }
      rewrite F3 by auto. by apply Hnone.
    + intros i Hi Hn. rewrite F2 in Hi. destruct (decide (spin_of x = Some i)) as [Hsx|Hsx].
      * eapply unlock_exact; try done. by eapply spin_holder.
      * assert (Hn' : i ∉ held (sh p)).
        { pose proof (pstep_spin _ _ _ _ _ _ i Hp) as Hd'. unfold locked in Hd'. rewrite (decide_False _ _ Hn) in Hd'.
          unfold spin_at at 2 in Hd'. rewrite (decide_False _ _ Hsx) in Hd'.
          assert (0 <= oat (spin_at i) y) by (destruct y; simpl; [apply spin_at_range|done]).
          intros Hin. rewrite decide_True in Hd' by done. specialize (Hd' ltac:(done)). lia. }
        destruct (Hfree i Hi Hn') as (l & El & Eb). exists l. rewrite F1 by done. split; [done|].
        rewrite F3 by (rewrite ?Nat2Z.id; done || lia). done.
    + intros t' x' Hx'. destruct (Hthr t' x' Hx') as [->|[Hne Hx2]].
      * by eapply local_ok_move.
      * assert (Hex : forall j, spin_of x' = Some j -> spin_of x <> Some j).
        { intros j Hj Hj'. by eapply (spin_exclusive p t x t' x'). }
        eapply (local_ok_frame (sh p)); [intros j Hj; apply F1; auto| |done|by apply (Hloc t')].
        intros j Hj. apply F3; [lia|]. rewrite Nat2Z.id. auto.
  - split; rewrite ?Hs; try done. intros t' x' Hx'. destruct (Hthr t' x' Hx') as [Hin|Hx2]; [|by apply (Hloc t')].
    quiet_cases Hq; set_unfold in Hin; destruct_or?; simplify_eq; done.
Qed.

(** A clear bit means an empty queue, at every moment. *)
Lemma clear_bit_empty p i l :
  locks_inv p -> mask_inv p -> items (sh p) !! i = Some l ->
  Z.testbit (mk (sh p)) (Z.of_nat i) = false -> l = [].
Proof.
  intros [Hl _] [_ _ _ Hf Hloc] Hi Hb.
  assert (Hex : exact (sh p) i -> l = []).
  { intros (l' & Hi' & Hb'). simplify_eq. rewrite Hb in Hb'. by destruct l. }
  destruct (decide (i ∈ held (sh p))) as [Hh|Hh]; [|apply Hex, Hf; eauto].
  destruct (msum_pos (spin_at i) (thr p)) as (t & x & Hx & Hpos).
  - intros x. apply spin_at_range.
  - rewrite Hl, decide_True by done. lia.
  - unfold spin_at in Hpos. case_decide as Hs; [|lia]. specialize (Hloc t x Hx).
    destruct x; simplify_eq/=; destruct_and?; auto; congruence.
Qed.

(** ** The counters *)

Lemma pstep_counters N ok s x s' y :
  pstep N ok s x = Some (s', y) -> is_u32 (n_idle s) -> is_u32 (n_count s) -> is_u32 (n_pend s) -> is_u32 (n_spin s) ->
  n_idle s' = u32 (n_idle s + (oat idle_at y - idle_at x)) /\
  n_count s' = u32 (n_count s + (oat count_at y - count_at x)) /\
  n_pend s' = u32 (n_pend s + (oat pend_at y - pend_at x) + (n_failed s' - n_failed s)) /\
  n_spin s' = u32 (n_spin s + (oat spins_at y - spins_at x)).
Proof.
  intros H Hi Hc Hp Hs. destruct x; try destruct c; pstep_cases H;
    rewrite ?Z.sub_diag, ?Z.add_0_r, ?(u32_small (n_idle _)), ?(u32_small (n_count _)), ?(u32_small (n_pend _)),
      ?(u32_small (n_spin _)) by done; simpl; split_and!; try (done || (f_equal; lia)).
  symmetry. replace (_ + _ + _) with (n_pend s) by lia. by apply u32_small.
Qed.

Lemma sums_bounded p f :
  (forall x, 0 <= f x <= 1) -> threads (thr p) <= THREAD_LIMIT -> is_u32 (msum f (thr p)).
Proof.
  intros Hf Ht. unfold is_u32, THREAD_LIMIT in *. split; [apply msum_nonneg; intros x; apply Hf|].
  assert (msum f (thr p) <= threads (thr p)) by (apply msum_at_most; intros x; apply Hf). lia.
Qed.

(** Entering the busy loop: at most [PWQ_SPIN_THREADS] threads have been counted. *)
Lemma pstep_loops N ok s x s' y :
  pstep N ok s x = Some (s', y) ->
  oat loops_at y <= loops_at x \/ (oat loops_at y = 1 /\ loops_at x = 0 /\ n_spin s +u 1 <= N /\ spins_at x = 0).
Proof.
  intros H. unfold loops_at. destruct x; try destruct c; pstep_cases H; try (left; done); try (left; simpl; lia).
  right. split_and!; try done. by apply Z.leb_le.
Qed.

Lemma threads_step N p p' : pool_step N p p' -> threads (thr p) <= THREAD_LIMIT -> threads (thr p') <= THREAD_LIMIT.
Proof.
  intros Hst Ht. unfold threads in *.
  destruct (pool_step_view N p p' Hst) as
    [t x ok y Hx Hp _ _ Hsum _|olds news ad Hs Hq _ Hsum _|t i _ _ _ _ Hsum _]; rewrite Hsum; [| |lia].
  - destruct y; simpl; lia.
  - unfold threads in *. quiet_cases Hq; unfold threads in *; lia.
Qed.

Lemma counters_step N p p' : counters_inv N p -> pool_step N p p' -> counters_inv N p'.
Proof.
  intros [Ht Hi Hc Hp Hs Hl] Hst. pose proof (threads_step N p p' Hst Ht) as Ht'.
  assert (Ri := sums_bounded p' idle_at idle_at_range Ht'). assert (Rc := sums_bounded p' count_at count_at_range Ht').
  assert (Hsp : forall x, 0 <= spins_at x <= 1) by (intros x; pose proof (spins_at_range x); lia).
  assert (Rs := sums_bounded p' spins_at Hsp Ht').
  assert (Ri0 := sums_bounded p idle_at idle_at_range Ht). assert (Rc0 := sums_bounded p count_at count_at_range Ht).
  assert (Rs0 := sums_bounded p spins_at Hsp Ht).
  assert (Rp0 : is_u32 (n_pend (sh p))) by (rewrite Hp; apply u32_range).
  destruct (pool_step_view N p p' Hst) as
    [t x ok y Hx Hstep _ _ Hsum _|olds news ad Hs' Hq _ Hsum _|t i _ _ Hs' _ Hsum _].
  - destruct (pstep_counters _ _ _ _ _ _ Hstep) as (E1 & E2 & E3 & E4); [by rewrite ?Hi, ?Hc, ?Hs..|].
    rewrite Hsum in Ri, Rc, Rs. split; [done| | | | |]; rewrite Hsum.
    + rewrite E1, Hi. rewrite u32_small; [lia|unfold is_u32 in *; lia].
    + rewrite E2, Hc. rewrite u32_small; [lia|unfold is_u32 in *; lia].
    + rewrite E3, Hp. unfold u32. rewrite <- Z.add_assoc, Zplus_mod_idemp_l. f_equal. lia.
    + rewrite E4, Hs. rewrite u32_small; [lia|unfold is_u32 in *; lia].
    + destruct (pstep_loops _ _ _ _ _ _ Hstep) as [|(L1 & L2 & L3 & L4)]; [lia|].
      assert (msum loops_at (thr p) <= msum spins_at (thr p))
        by (apply msum_le; intros k z _; apply spins_at_range).
      assert (oat spins_at y = 1).
      { destruct y as [y|]; [|done]. simpl in *. pose proof (spins_at_range y). lia. }
      rewrite Hs, u32_small in L3; unfold is_u32 in *; lia.
  - split; [done| | | | |]; rewrite Hsum, ?Hs', ?Hi, ?Hc, ?Hp, ?Hs;
      unfold loops_at in *; quiet_cases Hq; first [lia|f_equal; lia].
  - split; [done| | | | |]; rewrite Hsum, ?Hs'; simpl; rewrite ?Hi, ?Hc, ?Hp, ?Hs; unfold loops_at in *; simpl; first [lia|f_equal; lia].
Qed.

(** ** The items *)

Lemma pstep_items N ok s x s' y w :
  pstep N ok s x = Some (s', y) -> func w <> NULL ->
  msum (occ w) (items s') + oat (holds_at w) y + occ w (finished s') =
  msum (occ w) (items s) + holds_at w x + occ w (finished s).
Proof.
  intros H Hf. unfold holds_at. destruct x; try destruct c; try destruct r; pstep_cases H; simpl; try lia;
    try match goal with E : items s !! _ = Some _ |- _ => rewrite (msum_insert _ _ _ _ _ E) end;
    rewrite ?occ_snoc, ?occ_cons; try lia.
  all: try (change (occ w []) with 0); try (case_decide; subst; try lia).
  all: by apply Z.eqb_eq in Heqb || done.
Qed.

Lemma items_step N p p' : items_inv p -> pool_step N p p' -> items_inv p'.
Proof.
  intros Hinv Hst w Hf. specialize (Hinv w Hf).
  destruct (pool_step_view N p p' Hst) as
    [t x ok y Hx Hp Ha _ Hsum _|olds news ad Hs Hq Ha Hsum _|t i _ Hi Hs Ha Hsum _]; rewrite Ha, Hsum.
  - pose proof (pstep_items _ _ _ _ _ _ w Hp Hf). lia.
  - rewrite Hs. unfold holds_at in *. quiet_cases Hq; rewrite ?occ_snoc, ?app_nil_r; simpl; lia.
  - rewrite Hs. simpl. rewrite (msum_insert_new _ _ _ _ Hi). unfold holds_at at 2 3. simpl.
    change (occ w []) with 0. lia.
Qed.

(** ** All together *)

Record pool_inv (N : Z) (p : pool) : Prop := {
  pv_locks : locks_inv p;
  pv_mask : mask_inv p;
  pv_counters : counters_inv N p;
  pv_items : items_inv p
}.

Lemma pool_step_inv N p p' : pool_inv N p -> pool_step N p p' -> pool_inv N p'.
Proof.
  intros [H1 H2 H3 H4] Hst. split; eauto using locks_step, mask_step, counters_step, items_step.
Qed.

Lemma pool_initial_inv N p : pool_initial p -> pool_inv N p.
Proof.
  intros (Hq & Hm & Hh & Hx & Hi & Hc & Hp & Hs & Hf & Hd & Ht & Ha). split.
  - split; [intros i|]; rewrite Ht, msum_empty, ?Hh, ?Hx; [|done]. by rewrite decide_False by set_solver.
  - split; rewrite ?Hm, ?Hh; try done.
    + intros i [l Hl]. by destruct (Hq i l Hl).
    + intros i _ _. apply Z.bits_0.
    + intros i [l Hl] _. exists l. rewrite Hm, Z.bits_0. by destruct (Hq i l Hl) as [-> _].
    + intros t x Hx'. by rewrite Ht in Hx'.
  - split; unfold threads; rewrite Ht, msum_empty, ?Hf; try done. lia.
  - intros w _. rewrite Ha, Hd, Ht, msum_empty. rewrite msum_const0; [done|].
    intros k l Hl. by destruct (Hq k l Hl) as [-> _].
Qed.

Lemma pool_reachable_inv N p : pool_reachable N p -> pool_inv N p.
Proof.
  intros (p0 & H0 & Hr). apply (pool_initial_inv N) in H0. revert H0.
  induction Hr as [|p0 p1 p2 Hst _ IH]; intros Hinv; [done|]. apply IH. by eapply pool_step_inv.
Qed.

(** ** Properties *)

(** A lock that is taken has a holder. *)
Lemma held_spin_holder p i :
  locks_inv p -> i ∈ held (sh p) -> exists t x, thr p !! t = Some x /\ spin_of x = Some i.
Proof.
  intros Hl Hi. pose proof (li_spin _ Hl i) as E. rewrite decide_True in E by done.
  destruct (msum_pos (spin_at i) (thr p)) as (t & x & Hx & Hp); [|lia|].
  - intros x. unfold spin_at. case_decide; lia.
  - exists t, x. split; [done|]. unfold spin_at in Hp. by case_decide.
Qed.

Lemma held_mtx_holder p :
  locks_inv p -> mtx (sh p) = true -> exists t x, thr p !! t = Some x /\ mtx_at x = 1.
Proof.
  intros Hl Hm. pose proof (li_mtx _ Hl) as E. rewrite Hm in E.
  destruct (msum_pos mtx_at (thr p)) as (t & x & Hx & Hp); [intros x; apply mtx_at_range|lia|].
  exists t, x. split; [done|]. pose proof (mtx_at_range x). lia.
Qed.

(** C6.  Mutual exclusion: at every reachable state the spin lock of a queue is taken
    exactly when some thread is between locking and unlocking it, and then exactly one
    thread is (no lock is leaked and none is shared); the same for [wqlist_mtx]; threads
    asleep on [wqlist_has_work] hold neither, so that every lock is free when all threads
    sleep. *)
Theorem pool_mutual_exclusion N p :
  pool_reachable N p ->
  (forall i, (i ∈ held (sh p)) <-> exists t x, thr p !! t = Some x /\ spin_of x = Some i) /\
  (forall i t x t' x', thr p !! t = Some x -> thr p !! t' = Some x' ->
     spin_of x = Some i -> spin_of x' = Some i -> t' = t) /\
  (mtx (sh p) = true <-> exists t x, thr p !! t = Some x /\ mtx_at x = 1) /\
  (forall t x t' x', thr p !! t = Some x -> thr p !! t' = Some x' -> mtx_at x = 1 -> mtx_at x' = 1 -> t' = t) /\
  ((forall t x, thr p !! t = Some x -> x = WtBlocked) -> held (sh p) = ∅ /\ mtx (sh p) = false).
Proof.
  intros Hr. destruct (pool_reachable_inv N p Hr) as [Hl _ _ _]. split_and!.
  - intros i. split; [by apply held_spin_holder|]. intros (t & x & Hx & Hi). by apply (spin_holder p t x).
  - intros i t x t' x' Hx Hx' Hi Hi'. destruct (decide (t' = t)) as [|Hne]; [done|].
    by destruct (spin_exclusive p t x t' x' i).
  - split; [by apply held_mtx_holder|]. intros (t & x & Hx & Hi). by apply (mtx_holder p t x).
  - intros t x t' x' Hx Hx' Hi Hi'. destruct (decide (t' = t)) as [|Hne]; [done|].
    pose proof (mtx_exclusive p t x t' x' Hl Hx Hx' Hne Hi). lia.
  - intros Hall. split.
    + apply set_eq. intros i. split; [|set_solver]. intros (t & x & Hx & Hi)%(held_spin_holder p i Hl).
      by rewrite (Hall t x Hx) in Hi.
    + destruct (mtx (sh p)) eqn:Hm; [|done]. destruct (held_mtx_holder p Hl Hm) as (t & x & Hx & Hi).
      by rewrite (Hall t x Hx) in Hi.
Qed.

(** C7.  The mask is exact: whenever the spin lock of a created queue is free, its bit in
    [wqlist_mask] says whether it holds items; a bit that is clear always means an empty
    queue, also inside the critical sections; bits of queues that do not exist are never
    set, so a worker never follows an empty slot of [wqlist]. *)
Theorem pool_mask_exact N p i :
  pool_reachable N p ->
  (forall l, items (sh p) !! i = Some l ->
     ((i ∉ held (sh p)) -> Z.testbit (mk (sh p)) (Z.of_nat i) = nonempty l) /\
     (Z.testbit (mk (sh p)) (Z.of_nat i) = false -> l = [])) /\
  (items (sh p) !! i = None -> Z.testbit (mk (sh p)) (Z.of_nat i) = false) /\
  (forall t c j, thr p !! t = Some (ScLock c j) -> is_Some (items (sh p) !! j)).
Proof.
  intros Hr. destruct (pool_reachable_inv N p Hr) as [Hl [Hu Hd Hn Hf Hloc] _ _]. split_and!.
  - intros l Hi. split; [|intros Hb; by eapply clear_bit_empty].
    intros Hh. destruct (Hf i) as (l' & Hi' & Hb); [by eexists|done|]. by simplify_eq.
  - intros Hi. apply Hn; [lia|]. by rewrite Nat2Z.id.
  - intros t c j Hx. exact (Hloc t _ Hx).
Qed.

(** C8.  The scoreboard is exact under every interleaving: [idle] is the number of workers
    that are not executing an item (those being started included), [count] the number of
    live workers, neither ever wraps around; at most [PWQ_SPIN_THREADS] threads are in the
    busy loop; and [pending_thread_create] counts the workers being started plus every
    [worker_start] that ever failed, so that after one failure it never returns to zero
    (short of [2^32] failures). *)
Theorem pool_counters_exact N p :
  pool_reachable N p ->
  n_idle (sh p) = msum idle_at (thr p) /\ is_u32 (n_idle (sh p)) /\
  n_count (sh p) = msum count_at (thr p) /\ is_u32 (n_count (sh p)) /\
  msum loops_at (thr p) <= Z.max N 0 /\
  n_pend (sh p) = u32 (msum pend_at (thr p) + n_failed (sh p)) /\
  (0 < n_failed (sh p) -> msum pend_at (thr p) + n_failed (sh p) < 2 ^ 32 -> n_pend (sh p) <> 0).
Proof.
  intros Hr. destruct (pool_reachable_inv N p Hr) as [_ _ [Ht Hi Hc Hp Hs Hl] _].
  pose proof (sums_bounded p idle_at idle_at_range Ht). pose proof (sums_bounded p count_at count_at_range Ht).
  split_and!; try done; [by rewrite Hi|by rewrite Hc|].
  intros Hf Hb. assert (0 <= msum pend_at (thr p)) by (apply msum_nonneg; by intros []).
  rewrite Hp, u32_small by lia. lia.
Qed.

(** C1.  No item is lost or executed twice: at every reachable state the items submitted by
    clients are, with their multiplicities, those in the queues, those in the hands of a
    producer or a worker, and those whose function has been called. *)
Theorem pool_exactly_once N p w :
  pool_reachable N p -> func w <> NULL ->
  occ w (added p) = msum (occ w) (items (sh p)) + msum (holds_at w) (thr p) + occ w (finished (sh p)).
Proof. intros Hr Hf. by apply (pv_items N p (pool_reachable_inv N p Hr)). Qed.

(** ** Running schedules *)

(** One step of thread [t]. *)
Definition pool_exec (N : Z) (c : nat * bool) (p : pool) : option pool :=
  x ← thr p !! c.1;
  r ← pstep N c.2 (sh p) x;
  Some (Pool r.1 (match r.2 with Some y => <[c.1:=y]> (thr p) | None => delete c.1 (thr p) end) (added p)).

Fixpoint pool_run (N : Z) (sched : list (nat * bool)) (p : pool) : option pool :=
  match sched with
  | [] => Some p
  | c :: sched => p ← pool_exec N c p; pool_run N sched p
  end.

Lemma pool_run_steps N sched p p' : pool_run N sched p = Some p' -> rtc (pool_step N) p p'.
Proof.
  revert p. induction sched as [|[t ok] sched IH]; simpl; intros p; [by intros [= <-]|].
  intros (p1 & H1 & H2)%bind_Some. apply bind_Some in H1 as (x & Hx & H1).
  apply bind_Some in H1 as ([s' y] & Hp & H1). injection H1 as <-. simpl in *.
  eapply rtc_l; [|by apply IH]. destruct y; [by eapply PsMove|by eapply PsEnd].
Qed.

Lemma steps_step N p0 p q q' : rtc (pool_step N) p0 p -> pool_step N p q -> q = q' -> rtc (pool_step N) p0 q'.
Proof. intros Hr Hs <-. by eapply rtc_r. Qed.

Lemma steps_run N p0 sched p q : rtc (pool_step N) p0 p -> pool_run N sched p = Some q -> rtc (pool_step N) p0 q.
Proof. intros Hr Hs. etrans; [done|]. by eapply pool_run_steps. Qed.

Lemma reach_step N p q q' : pool_reachable N p -> pool_step N p q -> q = q' -> pool_reachable N q'.
Proof. intros (p0 & H0 & Hr) Hs E. exists p0. split; [done|]. by eapply steps_step. Qed.

Lemma reach_run N sched p q : pool_reachable N p -> pool_run N sched p = Some q -> pool_reachable N q.
Proof. intros (p0 & H0 & Hr) Hs. exists p0. split; [done|]. by eapply steps_run. Qed.

(** Two queues, of priorities 0 and 1. *)
Definition ex_shared : shared := Shared {[0%nat := []; 1%nat := []]} 0 ∅ false 0 0 0 0 0 0 [].
Definition ex_pool0 : pool := Pool ex_shared ∅ [].

Lemma ex_pool0_initial : pool_initial ex_pool0.
Proof.
  split; [|by split_and!]. intros i l. simpl.
  rewrite lookup_insert_Some, lookup_singleton_Some. intros [[<- <-]|[_ [<- <-]]]; split; try done;
    unfold PTHREAD_WORKQUEUE_MAX; lia.
Qed.

(** The manager starts a worker (thread 1). *)
Definition ex_pool1 : pool :=
  Pool (put_count 1 (put_idle 1 (put_pend 1 ex_shared))) {[1%nat := WkStart]} [].

Lemma ex_pool1_steps N : rtc (pool_step N) ex_pool0 ex_pool1.
Proof.
  assert (H1 : rtc (pool_step N) ex_pool0 (Pool ex_shared {[9%nat := MwPend]} [])).
  { refine (steps_step N _ _ _ _ (rtc_refl _ ex_pool0) (PsManager N ex_pool0 9 MwPend _ _ _) _); try by vm_compute.
    by right. }
  apply (steps_run N _ [(9, false); (9, false); (9, false)]%nat _
           (Pool (sh ex_pool1) {[9%nat := MwCreate]} [])) in H1; [|by vm_compute].
  refine (steps_step N _ _ _ _ H1 (PsCreate N (Pool (sh ex_pool1) {[9%nat := MwCreate]} []) 9 1 _ _) _); by vm_compute.
Qed.

Lemma ex_pool1_reachable N : pool_reachable N ex_pool1.
Proof. exists ex_pool0. split; [exact ex_pool0_initial|apply ex_pool1_steps]. Qed.

(** Two clients submit an item each; the first one is inside its critical section. *)
Definition ex_pool2 : pool :=
  Pool (put_held {[1%nat]} (sh ex_pool1))
    (<[2%nat := PuCrit KAdd (ex_item 7) 1]> (<[3%nat := PuLock KAdd (ex_item 8) 1]> (thr ex_pool1)))
    [ex_item 7; ex_item 8].

Lemma ex_pool2_reachable : pool_reachable 0 ex_pool2.
Proof.
  assert (Hi : is_Some (items (sh ex_pool1) !! 1%nat)) by by eexists.
  pose (p1 := Pool (sh ex_pool1) (<[2%nat := PuLock KAdd (ex_item 7) 1]> (thr ex_pool1)) [ex_item 7]).
  pose (p2 := Pool (sh ex_pool1) (<[3%nat := PuLock KAdd (ex_item 8) 1]> (thr p1)) [ex_item 7; ex_item 8]).
  assert (H1 : pool_reachable 0 p1).
  { refine (reach_step 0 _ _ _ (ex_pool1_reachable 0) (PsSubmit 0 ex_pool1 2 (ex_item 7) 1 _ _ _ Hi) _); by vm_compute. }
  assert (H2 : pool_reachable 0 p2).
  { refine (reach_step 0 _ _ _ H1 (PsSubmit 0 p1 3 (ex_item 8) 1 _ _ _ Hi) _); by vm_compute. }
  by apply (reach_run 0 [(2, false)]%nat p2 _ H2); vm_compute.
Qed.

Lemma pool_mutual_exclusion_witness :
  pool_reachable 0 ex_pool2 /\ thr ex_pool2 !! 2%nat = Some (PuCrit KAdd (ex_item 7) 1) /\
  (1%nat ∈ held (sh ex_pool2)).
Proof.
  assert (H1 : thr ex_pool2 !! 2%nat = Some (PuCrit KAdd (ex_item 7) 1)) by reflexivity.
  split; [exact ex_pool2_reachable|]. split; [exact H1|].
  apply (proj1 (pool_mutual_exclusion 0 ex_pool2 ex_pool2_reachable)).
  exists 2%nat, (PuCrit KAdd (ex_item 7) 1). split; [exact H1|reflexivity].
Defined.

Lemma pool_mask_exact_witness :
  pool_reachable 0 ex_pool2 /\ Z.testbit (mk (sh ex_pool2)) 0 = false.
Proof.
  split; [exact ex_pool2_reachable|].
  exact (proj1 (proj1 (pool_mask_exact 0 ex_pool2 0 ex_pool2_reachable) [] eq_refl) ltac:(set_solver)).
Defined.

Lemma pool_counters_exact_witness :
  pool_reachable 0 ex_pool2 /\ n_idle (sh ex_pool2) = msum idle_at (thr ex_pool2) /\ n_idle (sh ex_pool2) = 1.
Proof.
  split; [exact ex_pool2_reachable|]. split; [|reflexivity].
  exact (proj1 (pool_counters_exact 0 ex_pool2 ex_pool2_reachable)).
Defined.

Lemma pool_exactly_once_witness :
  pool_reachable 0 ex_pool2 /\ msum (holds_at (ex_item 7)) (thr ex_pool2) = 1.
Proof.
  split; [exact ex_pool2_reachable|].
  pose proof (pool_exactly_once 0 ex_pool2 (ex_item 7) ex_pool2_reachable ltac:(discriminate)) as H.
  change (occ (ex_item 7) (added ex_pool2)) with 1 in H.
  change (msum (occ (ex_item 7)) (items (sh ex_pool2))) with 0 in H.
  change (occ (ex_item 7) (finished (sh ex_pool2))) with 0 in H. lia.
Defined.
