(* ===== verification/PoolWake.v ===== *)
(** * No lost wakeups

    Workers sleep on [wqlist_has_work] after a scan that found nothing, while producers
    set mask bits and insert items without [wqlist_mtx] and signal only when they read a
    positive idle counter.  The invariant here shows that no signal that matters is
    lost: as long as some worker sleeps, there are at least as many workers awake and
    signals on their way as there are exit events plus one for the work that waits.
    The delicate case is a worker whose scan came back empty handed because another
    worker raced it for the same queue (the comment at the end of [wqlist_scan]). *)

From stdpp Require Import base gmap list.
From Stdlib Require Import ZArith Lia.
From S2P Require Import Prelude Types Manager Pool PoolInv.

(** ** Counting *)

(** Thread exit events and items of clients in a queue, and in all queues. *)
Definition exits_of (l : list work) : Z := lsum (fun w => if func w =? NULL then 1 else 0) l.
Definition reals_of (l : list work) : Z := lsum (fun w => if func w =? NULL then 0 else 1) l.
Definition exits (s : shared) : Z := msum exits_of (items s).
Definition reals (s : shared) : Z := msum reals_of (items s).

(** The number of awake workers the pool needs. *)
Definition need (s : shared) : Z := exits s + Z.min 1 (reals s).

(** A worker that has taken an exit event. *)
Definition doomed (x : pc) : bool :=
  match x with
  | ExIdle | ExCount => true
  | ScReset _ _ w | ScUnlock _ _ (Some w) | WtUnlock w | WtPost w => func w =? NULL
  | _ => false
  end.

Definition blocked_at (x : pc) : Z := match x with WtBlocked => 1 | _ => 0 end.
Definition awake_at (x : pc) : Z :=
  if is_worker x && negb (doomed x) then 1 - blocked_at x else 0.

(** A producer that has inserted its item and may still signal. *)
Definition flight_at (x : pc) : Z :=
  match x with PuUnlock _ _ | AdCheck | AdMtx | PuSignal => 1 | _ => 0 end.

(** A producer about to insert into queue [i]. *)
Definition inserts_at (i : nat) (x : pc) : Z :=
  match x with PuInsert _ _ j => if decide (i = j) then 1 else 0 | _ => 0 end.

(** ** The invariant *)

(** What a worker that may go to sleep knows, while it holds [wqlist_mtx]. *)
Definition wake_local (p : pool) (x : pc) : Prop :=
  match x with
  | ScLock CWait i | ScCrit CWait i =>
      (first_queue (items (sh p)) <> Some i -> exits (sh p) = 0) /\
      (items (sh p) !! i = Some [] -> 2 <= msum awake_at (thr p) \/ 1 <= msum (inserts_at i) (thr p))
  | ScUnlock CWait _ None | WtCond =>
      need (sh p) <= msum awake_at (thr p) - 1 + msum flight_at (thr p)
  | _ => True
  end.

Record wake_inv (p : pool) : Prop := {
  wi_first i l : items (sh p) !! i = Some l -> 0 < exits_of l -> first_queue (items (sh p)) = Some i;
  wi_sleep : 0 < msum blocked_at (thr p) -> need (sh p) <= msum awake_at (thr p) + msum flight_at (thr p);
  wi_local t x : thr p !! t = Some x -> wake_local p x
}.

(** Exit events go to the first queue.  A step is calm unless it creates a queue before
    that one while exit events wait there. *)
Definition calm (p p' : pool) : Prop :=
  exits (sh p) = 0 \/ first_queue (items (sh p')) = first_queue (items (sh p)).

Definition calm_reachable (N : Z) (p : pool) : Prop :=
  exists p0, pool_initial p0 /\ rtc (fun p p' => pool_step N p p' /\ calm p p') p0 p.

(** ** Lemmas *)

Lemma exits_nonneg l : 0 <= exits_of l.
Proof. apply lsum_nonneg. intros w. case_match; lia. Qed.
Lemma reals_nonneg l : 0 <= reals_of l.
Proof. apply lsum_nonneg. intros w. case_match; lia. Qed.
Lemma awake_range x : 0 <= awake_at x <= 1.
Proof. unfold awake_at. destruct x; simpl; try case_match; simpl; lia. Qed.
Lemma flight_range x : 0 <= flight_at x <= 1.
Proof. destruct x; simpl; lia. Qed.
Lemma inserts_nonneg i x : 0 <= inserts_at i x.
Proof. destruct x; simpl; try lia. case_decide; lia. Qed.

Lemma need_nonneg s : 0 <= exits s /\ 0 <= reals s.
Proof. split; apply msum_nonneg; [apply exits_nonneg|apply reals_nonneg]. Qed.

Lemma exits_cons w l : exits_of (w :: l) = (if func w =? NULL then 1 else 0) + exits_of l.
Proof. done. Qed.
Lemma reals_cons w l : reals_of (w :: l) = (if func w =? NULL then 0 else 1) + reals_of l.
Proof. done. Qed.
Lemma exits_snoc w l : exits_of (l ++ [w]) = exits_of l + (if func w =? NULL then 1 else 0).
Proof. unfold exits_of. rewrite lsum_app, lsum_one. done. Qed.
Lemma reals_snoc w l : reals_of (l ++ [w]) = reals_of l + (if func w =? NULL then 0 else 1).
Proof. unfold reals_of. rewrite lsum_app, lsum_one. done. Qed.

#[local] Arguments exits_of : simpl never.
#[local] Arguments reals_of : simpl never.

(** Evaluates the counts of the queue a step changes. *)
Ltac wake_counts :=
  unfold need, exits, reals in *; simpl in *;
  repeat match goal with
  | E : items ?s !! ?i = Some ?l |- context [msum _ (<[?i:=_]> (items ?s))] =>
      rewrite !(msum_insert _ _ _ _ _ E)
  end;
  rewrite ?exits_cons, ?reals_cons, ?exits_snoc, ?reals_snoc;
  change (exits_of []) with 0; change (reals_of []) with 0.

(** A step that is not a worker falling asleep, and not a producer that skips its signal,
    keeps the balance. *)
Lemma pstep_balance N ok s x s' y :
  pstep N ok s x = Some (s', y) -> x <> WtCond -> (x = AdCheck -> 0 < n_idle s) -> local_ok s x ->
  need s' - need s <= (oat awake_at y - awake_at x) + (oat flight_at y - flight_at x).
Proof.
  intros H Hc Ha Hl. unfold awake_at.
  destruct x; try done; try destruct c; pstep_cases H; simpl in *; wake_counts;
    repeat match goal with |- context [func ?w =? NULL] => destruct (func w =? NULL) eqn:? end; simpl in *;
    try discriminate; try lia.
  specialize (Ha eq_refl). zcase; [done|lia].
Qed.

(** A step without [wqlist_mtx] inserts no exit event, takes none and puts no worker to
    sleep. *)
Lemma pstep_unlocked N ok s x s' y :
  pstep N ok s x = Some (s', y) -> mtx_at x = 0 -> local_ok s x ->
  exits s' = exits s /\ awake_at x <= oat awake_at y /\ x <> WtCond.
Proof.
  intros H Hm Hl. unfold awake_at.
  destruct x; try done; try destruct c; try destruct k; try done; pstep_cases H; simpl in *; wake_counts;
    repeat match goal with |- context [func ?w =? NULL] => destruct (func w =? NULL) eqn:? end; simpl in *;
    try discriminate; split_and!; try done; try lia.
Qed.

(** Without [wqlist_mtx] a queue is emptied only by a worker that stays awake. *)
Lemma pstep_empties N ok s x s' y i w l :
  pstep N ok s x = Some (s', y) -> mtx_at x = 0 ->
  items s !! i = Some (w :: l) -> items s' !! i = Some [] -> oat awake_at y = 1.
Proof.
  intros H Hm Hi Hi'. unfold awake_at.
  destruct x; try destruct c; try done; pstep_cases H; simpl in *; try (rewrite Hi in Hi'; done);
    try (destruct (decide (i = i0)) as [->|]; [rewrite lookup_insert_eq in Hi'|rewrite lookup_insert_ne in Hi' by done];
         simplify_eq; try done; by destruct (func _ =? NULL)).
Qed.

Lemma pstep_inserts N ok s x s' y i :
  pstep N ok s x = Some (s', y) -> items s' !! i = Some [] -> inserts_at i x = 0.
Proof.
  intros H Hi. destruct x; try done. pstep_cases H. simpl. case_decide as E; [subst|done].
  rewrite lookup_insert_eq in Hi. injection Hi as Hi. by destruct x.
Qed.

Lemma two_awake (m : gmap nat pc) t x t' x' :
  m !! t = Some x -> m !! t' = Some x' -> t <> t' -> awake_at x = 1 -> awake_at x' = 1 -> 2 <= msum awake_at m.
Proof.
  intros Hx Hx' Hne Ha Ha'. rewrite (msum_delete _ _ _ _ Hx).
  assert (Hd : delete t m !! t' = Some x') by (rewrite lookup_delete_Some; auto).
  pose proof (msum_ge awake_at _ _ _ (fun x => proj1 (awake_range x)) Hd). lia.
Qed.

(** A queue without items contributes nothing. *)
Lemma exits_first p f :
  wake_inv p -> items (sh p) !! f = Some [] -> first_queue (items (sh p)) = Some f -> exits (sh p) = 0.
Proof.
  intros Hw Hf Hfirst. destruct (decide (exits (sh p) = 0)) as [|Hn]; [done|].
  destruct (need_nonneg (sh p)) as [Hge _].
  destruct (msum_pos exits_of (items (sh p)) exits_nonneg) as (i & l & Hi & Hl); [unfold exits in *; lia|].
  rewrite (wi_first _ Hw i l Hi Hl) in Hfirst. by simplify_eq.
Qed.

Lemma all_empty_need s : (forall i l, items s !! i = Some l -> l = []) -> need s = 0.
Proof.
  intros He. unfold need, exits, reals. rewrite !msum_const0; try done;
    intros k l Hl; by rewrite (He k l Hl).
Qed.

(** A bit set for an empty queue belongs to a worker about to clear it or to a producer
    about to insert. *)
Lemma set_bit_empty p i :
  locks_inv p -> mask_inv p -> items (sh p) !! i = Some [] -> Z.testbit (mk (sh p)) (Z.of_nat i) = true ->
  (exists t c w, thr p !! t = Some (ScReset c i w) /\ (skip c = true -> func w <> NULL)) \/
  (exists t k w, thr p !! t = Some (PuInsert k w i)).
Proof.
  intros [Hl _] [_ _ _ Hf Hloc] Hi Hb.
  assert (Hex : exact (sh p) i -> False).
  { intros (l' & Hi' & Hb'). simplify_eq. by rewrite Hb in Hb'. }
  destruct (decide (i ∈ held (sh p))) as [Hh|Hh]; [|destruct Hex; apply Hf; eauto].
  destruct (msum_pos (spin_at i) (thr p)) as (t & x & Hx & Hpos).
  - intros x. apply spin_at_range.
  - rewrite Hl, decide_True by done. lia.
  - unfold spin_at in Hpos. case_decide as Hs; [|lia]. specialize (Hloc t x Hx).
    destruct x; simplify_eq/=; destruct_and?; try tauto; [left|right]; eauto 6.
Qed.

(** A worker that read the mask under [wqlist_mtx]. *)
Lemma wake_after_read p t i :
  locks_inv p -> mask_inv p -> wake_inv p -> thr p !! t = Some (ScRead CWait) ->
  ffs (mk (sh p)) <> 0 -> i = Z.to_nat (ffs (mk (sh p)) - 1) ->
  (first_queue (items (sh p)) <> Some i -> exits (sh p) = 0) /\
  (items (sh p) !! i = Some [] -> 2 <= msum awake_at (thr p) \/ 1 <= msum (inserts_at i) (thr p)).
Proof.
  intros Hlk Hmk Hw Hx Hf Hi. pose proof Hmk as [Hu _ Hnone _ _].
  destruct (ffs_least (mk (sh p))) as (L1 & L2 & L3).
  { unfold is_u32 in Hu. destruct (decide (mk (sh p) = 0)) as [E|]; [by rewrite E in Hf|lia]. }
  assert (Ei : ffs (mk (sh p)) - 1 = Z.of_nat i) by lia. rewrite Ei in L2, L3.
  assert (Hc : items (sh p) !! i <> None).
  { intros E. rewrite (Hnone (Z.of_nat i)) in L2; [done|lia|]. by rewrite Nat2Z.id. }
  split.
  - intros Hne. destruct (decide (exits (sh p) = 0)) as [|Hn]; [done|].
    destruct (need_nonneg (sh p)) as [Hge _].
    destruct (msum_pos exits_of (items (sh p)) exits_nonneg) as (j & l & Hj & Hpos); [unfold exits in *; lia|].
    pose proof (wi_first _ Hw j l Hj Hpos) as Hfj. destruct (first_queue_spec _ _ Hfj) as [_ Hlow].
    assert (j <> i) by congruence. assert (~ (i < j)%nat) by (intros Hlt; by apply Hc, Hlow).
    rewrite (clear_bit_empty p j l Hlk Hmk Hj) in Hpos; [done|]. apply L3. lia.
  - intros Hi0. destruct (set_bit_empty p i Hlk Hmk Hi0 L2) as [(t' & c & w & Hx' & Hs)|(t' & k & w & Hx')].
    + left. assert (Hne : t' <> t) by congruence.
      pose proof (mtx_exclusive p t _ t' _ Hlk Hx Hx' Hne eq_refl) as Hm.
      apply (two_awake (thr p) t (ScRead CWait) t' _ Hx Hx' (not_eq_sym Hne)); [done|].
      unfold awake_at. simpl. destruct (Z.eqb_spec (func w) NULL); [|done]. by destruct c; [destruct Hs..|].
    + right. pose proof (msum_ge (inserts_at i) _ _ _ (inserts_nonneg i) Hx') as Hg. simpl in Hg.
      rewrite decide_True in Hg by done. lia.
Qed.

(** ** Preservation *)

(** Exit events stay in the first queue. *)
Lemma first_step N ok s x s' y :
  pstep N ok s x = Some (s', y) -> local_ok s x ->
  (forall j, is_Some (items s' !! j) <-> is_Some (items s !! j)) ->
  (forall i l, items s !! i = Some l -> 0 < exits_of l -> first_queue (items s) = Some i) ->
  forall i l, items s' !! i = Some l -> 0 < exits_of l -> first_queue (items s') = Some i.
Proof.
  intros H Hl Hd Hf i l Hi Hpos. rewrite (first_queue_ext _ _ Hd).
  destruct x; try (pstep_cases H; by eapply Hf).
  - pstep_cases H; simpl in *; try (by eapply Hf);
      (destruct (decide (i = i0)) as [->|];
       [rewrite lookup_insert_eq in Hi; simplify_eq; eapply Hf; [done|]; rewrite (exits_cons w);
        change (exits_of []) with 0 in *; case_match; lia|
        rewrite lookup_insert_ne in Hi by done; by eapply Hf]).
  - pstep_cases H; simpl in *. destruct (decide (i = i0)) as [->|];
      [|rewrite lookup_insert_ne in Hi by done; by eapply Hf].
    rewrite lookup_insert_eq in Hi. simplify_eq. rewrite exits_snoc in Hpos.
    destruct Hl as (_ & _ & Hk). destruct k; simpl in Hk; [|apply Hk].
    eapply Hf; [done|]. destruct (Z.eqb_spec (func w) NULL); [done|lia].
Qed.

(** A producer skips its signal only when no worker is idle. *)
Lemma idle_thread N p t x : counters_inv N p -> thr p !! t = Some x -> idle_at x = 1 -> 0 < n_idle (sh p).
Proof.
  intros [_ Hi _ _ _ _] Hx H1. rewrite Hi.
  pose proof (msum_ge idle_at _ _ _ (fun x => proj1 (idle_at_range x)) Hx). lia.
Qed.

(** The knowledge of a worker that holds [wqlist_mtx] survives the steps of the others. *)
Lemma wake_local_frame N ok p p' t x y t' x' :
  pool_inv N p -> wake_inv p -> thr p !! t = Some x -> pstep N ok (sh p) x = Some (sh p', y) ->
  (forall f, msum f (thr p') = msum f (thr p) - f x + oat f y) ->
  (forall j, is_Some (items (sh p') !! j) <-> is_Some (items (sh p) !! j)) ->
  thr p !! t' = Some x' -> t' <> t -> mtx_at x' = 1 -> idle_at x' = 1 -> awake_at x' = 1 ->
  thr p' !! t' = Some x' -> (forall z, y = Some z -> thr p' !! t = Some z) ->
  wake_local p x' -> wake_local p' x'.
Proof.
  intros [Hlk Hmk Hcn _] Hw Hx Hp Hsum Hd Hx' Hne Hm Hidle Haw Hx2 Hy Hloc.
  pose proof (mtx_exclusive p t' x' t x Hlk Hx' Hx (not_eq_sym Hne) Hm) as Hmx.
  pose proof (mi_local _ Hmk t x Hx) as Hlx.
  destruct (pstep_unlocked _ _ _ _ _ _ Hp Hmx Hlx) as (He & Ha & Hnc).
  pose proof (pstep_balance _ _ _ _ _ _ Hp Hnc (fun _ => idle_thread N p t' x' Hcn Hx' Hidle) Hlx) as Hbal.
  assert (Hcell : forall i, ((first_queue (items (sh p)) <> Some i -> exits (sh p) = 0) /\
            (items (sh p) !! i = Some [] -> 2 <= msum awake_at (thr p) \/ 1 <= msum (inserts_at i) (thr p))) ->
            (first_queue (items (sh p')) <> Some i -> exits (sh p') = 0) /\
            (items (sh p') !! i = Some [] -> 2 <= msum awake_at (thr p') \/ 1 <= msum (inserts_at i) (thr p'))).
  { intros i [H1 H2]. rewrite (first_queue_ext _ _ Hd), He. split; [done|]. intros Hi.
    destruct (items (sh p) !! i) as [[|w l]|] eqn:E.
    - rewrite !Hsum. pose proof (pstep_inserts _ _ _ _ _ _ i Hp Hi).
      assert (0 <= oat (inserts_at i) y) by (destruct y; [apply inserts_nonneg|done]).
      destruct (H2 eq_refl); [left|right]; lia.
    - left. pose proof (pstep_empties _ _ _ _ _ _ i w l Hp Hmx E Hi) as Hay.
      destruct y as [z|]; [|done]. by apply (two_awake (thr p') t z t' x' (Hy z eq_refl) Hx2 (not_eq_sym Hne)).
    - assert (Hs : is_Some (items (sh p) !! i)) by (apply Hd; eauto). rewrite E in Hs. by destruct Hs. }
  destruct x'; try done;
    try destruct c; try done; try destruct r; try done; simpl in *; try (by apply Hcell); rewrite !Hsum; lia.
Qed.

(** Nobody inserts while another thread holds the queue's lock. *)
Lemma no_insert_inside p t x i :
  locks_inv p -> thr p !! t = Some x -> spin_of x = Some i -> inserts_at i x = 0 ->
  ~ 1 <= msum (inserts_at i) (thr p).
Proof.
  intros Hlk Hx Hs H0 Hpos. destruct (msum_pos (inserts_at i) (thr p) (inserts_nonneg i)) as (t' & x' & Hx' & Hp); [lia|].
  assert (Hs' : spin_of x' = Some i) by (destruct x'; simpl in Hp; try lia; case_decide; [by subst|lia]).
  assert (Hne : t' <> t) by (intros ->; simplify_eq; lia).
  by apply (spin_exclusive p t x t' x' i Hlk Hx Hx' Hne Hs).
Qed.

(** The knowledge a moving worker has at its new position. *)
Lemma wake_local_own N ok p p' t x z :
  pool_inv N p -> wake_inv p -> thr p !! t = Some x -> pstep N ok (sh p) x = Some (sh p', Some z) ->
  (forall f, msum f (thr p') = msum f (thr p) - f x + f z) -> wake_local p' z.
Proof.
  intros [Hlk Hmk _ _] Hw Hx Hp Hsum. pose proof (wi_local _ Hw t x Hx) as Hloc.
  pose proof (msum_ge awake_at _ _ _ (fun x => proj1 (awake_range x)) Hx) as Hself.
  destruct p' as [s' m' a']. simpl in *.
  destruct x; try destruct c; pstep_cases Hp; try done; simpl in *; rewrite ?Hsum; simpl in *.
  - rewrite all_empty_need; [|intros i l Hi].
    + change (awake_at (ScRead CWait)) with 1 in *. change (awake_at WtCond) with 1.
      assert (0 <= msum flight_at (thr p)) by (apply msum_nonneg; intros; apply flight_range). lia.
    + eapply clear_bit_empty; [done|done|done|]. apply Z.eqb_eq in Heqb. by apply ffs_zero in Heqb as ->; rewrite Z.bits_0.
  - change (awake_at (ScLock CWait _)) with (awake_at (ScRead CWait)). rewrite Z.sub_add, Z.sub_0_r, Z.add_0_r.
    apply (wake_after_read p t); auto. by apply Z.eqb_neq.
  - change (awake_at (ScCrit CWait _)) with (awake_at (ScLock CWait i)). by rewrite Z.sub_add, Z.sub_0_r, Z.add_0_r.
  - change (awake_at (ScUnlock CWait i None)) with (awake_at (ScCrit CWait i)). destruct Hloc as [H1 H2].
    assert (He : exits (sh p) = 0).
    { destruct (decide (first_queue (items (sh p)) = Some i)) as [Hf|]; [by apply (exits_first p i)|auto]. }
    assert (Hno : ~ 1 <= msum (inserts_at i) (thr p)) by by apply (no_insert_inside p t (ScCrit CWait i)).
    assert (0 <= msum flight_at (thr p)) by (apply msum_nonneg; intros; apply flight_range).
    unfold need. rewrite He. specialize (H2 ltac:(done)). destruct H2; lia.
  - change (need (spin_unlock i (sh p))) with (need (sh p)).
    change (awake_at WtCond) with (awake_at (ScUnlock CWait i None)). lia.
Qed.

(** Only positions that hold [wqlist_mtx] know anything. *)
Lemma wake_local_special p x : wake_local p x \/ (mtx_at x = 1 /\ idle_at x = 1 /\ awake_at x = 1).
Proof. destruct x; try destruct c; try destruct r; first [by left|by right]. Qed.

Lemma pstep_blocked N ok s x s' y : pstep N ok s x = Some (s', y) -> x <> WtCond -> oat blocked_at y = 0.
Proof. intros H Hc. destruct x; try done; pstep_cases H; done. Qed.

Lemma sleepers_idle N p : counters_inv N p -> 0 < msum blocked_at (thr p) -> 0 < n_idle (sh p).
Proof.
  intros Hc Hb. destruct (msum_pos blocked_at (thr p)) as (t & x & Hx & Hpos); [by intros []|done|].
  eapply (idle_thread N p t x); [done|done|]. by destruct x.
Qed.

(** A new queue changes no count. *)
Lemma need_install s i : items s !! i = None -> need (put_items i [] s) = need s.
Proof.
  intros Hi. unfold need, exits, reals. simpl. rewrite !(msum_insert_new _ _ _ _ Hi). done.
Qed.

Lemma wake_sleep_step N p p' :
  pool_inv N p -> wake_inv p -> pool_step N p p' -> 0 < msum blocked_at (thr p') ->
  need (sh p') <= msum awake_at (thr p') + msum flight_at (thr p').
Proof.
  intros [Hlk Hmk Hcn _] Hw Hst.
  destruct (pool_step_view N p p' Hst) as
    [t x ok y Hx Hp _ _ Hsum _|olds news ad Hs Hq _ Hsum _|t i _ Hi Hs _ Hsum _]; rewrite !Hsum; intros Hb.
  - destruct (decide (x = WtCond)) as [->|Hnc].
    + pose proof (wi_local _ Hw t _ Hx) as Hl. simpl in Hl. simpl in Hp.
      injection Hp as Es <-. rewrite <- Es.
      change (need (mutex_unlock (sh p))) with (need (sh p)). change (awake_at WtCond) with 1. simpl.
      change (awake_at WtBlocked) with 0. lia.
    + rewrite (pstep_blocked _ _ _ _ _ _ Hp Hnc) in Hb.
      assert (Hb0 : 0 < msum blocked_at (thr p)) by (destruct x; simpl in Hb; lia).
      pose proof (pstep_balance _ _ _ _ _ _ Hp Hnc (fun _ => sleepers_idle N p Hcn Hb0) (mi_local _ Hmk t x Hx)).
      pose proof (wi_sleep _ Hw Hb0). lia.
  - rewrite Hs. pose proof (wi_sleep _ Hw) as Hsl. unfold awake_at in *.
    destruct Hq as [t Hx Hno|t Hx| | | | |]; rewrite ?lsum_two, ?lsum_one in *; change (@lsum pc _ []) with 0 in *; simpl in *; try lia.
    assert (Hz : msum blocked_at (thr p) = 0); [|lia].
    apply msum_const0. intros k x Hk. destruct x; try done. by destruct (Hno k).
  - rewrite Hs, (need_install _ _ Hi). simpl in *. pose proof (wi_sleep _ Hw ltac:(lia)).
    change (awake_at (CrStore i)) with 0. change (awake_at PuEnd) with 0. lia.
Qed.

Lemma wake_local_step N p p' t' x' :
  pool_inv N p -> wake_inv p -> pool_step N p p' -> thr p' !! t' = Some x' -> wake_local p' x'.
Proof.
  intros Hinv Hw Hst Hx'. pose proof Hinv as [Hlk Hmk Hcn _].
  destruct (wake_local_special p' x') as [|(Hm & Hid & Haw)]; [done|].
  destruct (pool_step_view N p p' Hst) as
    [t x ok y Hx Hp _ Hy Hsum Hthr|olds news ad Hs Hq _ Hsum Hthr|t i Hx _ _ _ _ Hthr].
  - destruct (Hthr t' x' Hx') as [->|[Hne Hx2]]; [by eapply (wake_local_own N ok p p' t x)|].
    eapply (wake_local_frame N ok p p' t x y t' x'); try done; [|by eapply (wi_local _ Hw t')].
    pose proof (mi_local _ Hmk t x Hx) as Hlx.
    eapply (pstep_frame _ _ _ _ _ _ Hp); [apply Hmk|]. intros i Hi.
    pose proof (mi_dom _ Hmk i (local_spin_some _ _ _ Hlx Hi)) as Hlt. unfold PTHREAD_WORKQUEUE_MAX in Hlt. lia.
  - destruct (Hthr t' x' Hx') as [Hin|Hx2]; [quiet_cases Hq; set_unfold in Hin; destruct_or?; simplify_eq; done|].
    pose proof (wi_local _ Hw t' x' Hx2) as Hl.
    assert (Hex : forall t, thr p !! t = Some PuSignal -> x' <> PuSignal -> False).
    { intros t Hx Hne. assert (t <> t') by congruence.
      by pose proof (mtx_exclusive p t' x' t _ Hlk Hx2 Hx ltac:(done) Hm). }
    assert (Hmono : msum awake_at (thr p) <= msum awake_at (thr p') /\ msum flight_at (thr p') = msum flight_at (thr p) /\
              forall i, msum (inserts_at i) (thr p') = msum (inserts_at i) (thr p)).
    { split_and!; [| |intros i]; rewrite Hsum; unfold awake_at in *;
        destruct Hq as [t Hx Hno|t Hx| | | | |]; rewrite ?lsum_two, ?lsum_one; change (@lsum pc _ []) with 0;
        simpl; try lia; destruct (Hex t Hx); by intros ->. }
    destruct Hmono as (M1 & M2 & M3). unfold wake_local in *. rewrite Hs.
    destruct x'; try done; try destruct c; try done; try destruct r; try done; try rewrite M3; try lia.
    all: destruct Hl as [H1 H2]; split; [done|]; intros Hi; specialize (H2 Hi); lia.
  - destruct (Hthr t' x' Hx') as [->|[Hne Hx2]]; [done|].
    by rewrite (mtx_exclusive p t (CrStore i) t' x' Hlk Hx Hx2 Hne eq_refl) in Hm.
Qed.

Lemma first_install p p' i :
  wake_inv p -> items (sh p) !! i = None -> sh p' = put_items i [] (sh p) -> calm p p' ->
  forall j l, items (sh p') !! j = Some l -> 0 < exits_of l -> first_queue (items (sh p')) = Some j.
Proof.
  intros Hw Hi Hs Hc j l Hj Hl. pose proof Hj as Hj'. rewrite Hs in Hj'. simpl in Hj'.
  apply lookup_insert_Some in Hj' as [[_ <-]|[_ Hj']]; [done|].
  pose proof (msum_ge exits_of _ _ _ exits_nonneg Hj'). destruct Hc as [Hc|Hc]; [unfold exits in Hc; lia|].
  rewrite Hc. by apply (wi_first _ Hw j l).
Qed.

Lemma wake_step N p p' : pool_inv N p -> wake_inv p -> pool_step N p p' -> calm p p' -> wake_inv p'.
Proof.
  intros Hinv Hw Hst Hc. split.
  - pose proof Hinv as [Hlk Hmk _ _].
    destruct (pool_step_view N p p' Hst) as
      [t x ok y Hx Hp _ _ _ _|olds news ad Hs Hq _ _ _|t i _ Hi Hs _ _ _];
      [|rewrite Hs; apply Hw|by apply (first_install p p' i)].
    pose proof (mi_local _ Hmk t x Hx) as Hlx.
    eapply first_step; [exact Hp|done| |apply Hw].
    eapply (pstep_frame _ _ _ _ _ _ Hp); [apply Hmk|]. intros i Hi.
    pose proof (mi_dom _ Hmk i (local_spin_some _ _ _ Hlx Hi)) as Hlt. unfold PTHREAD_WORKQUEUE_MAX in Hlt. lia.
  - by apply (wake_sleep_step N p p').
  - intros t x. by apply (wake_local_step N p p').
Qed.

Lemma wake_reachable N p : calm_reachable N p -> pool_inv N p /\ wake_inv p.
Proof.
  intros (p0 & H0 & Hr).
  assert (Hw : wake_inv p0).
  { destruct H0 as (Hq & _ & _ & _ & _ & _ & _ & _ & _ & _ & Ht & _). split; rewrite ?Ht, ?msum_empty; try done.
    intros i l Hi Hpos. by destruct (Hq i l Hi) as [-> _]. }
  apply (pool_initial_inv N) in H0. revert H0 Hw.
  induction Hr as [|p0 p1 p2 [Hst Hc] _ IH]; intros Hinv Hw; [done|].
  apply IH; eauto using pool_step_inv, wake_step.
Qed.

(** Queues are never removed, so a run after which the queues are those it began with is
    calm throughout. *)
Lemma queues_grow N p p' : pool_inv N p -> pool_step N p p' -> dom (items (sh p)) ⊆ dom (items (sh p')).
Proof.
  intros [_ Hmk _ _] Hst. intros j Hj%elem_of_dom. apply elem_of_dom.
  destruct (pool_step_view N p p' Hst) as
    [t x ok y Hx Hp _ _ _ _|olds news ad Hs Hq _ _ _|t i _ Hi Hs _ _ _]; [|by rewrite Hs|].
  - eapply (pstep_frame _ _ _ _ _ _ Hp); [apply Hmk| |done]. intros i Hi.
    pose proof (mi_dom _ Hmk i (local_spin_some _ _ _ (mi_local _ Hmk t x Hx) Hi)) as Hlt.
    unfold PTHREAD_WORKQUEUE_MAX in Hlt. lia.
  - rewrite Hs. simpl. destruct Hj as [l Hj]. rewrite lookup_insert_ne by congruence. by exists l.
Qed.

Lemma queues_grow_steps N p p' : rtc (pool_step N) p p' -> pool_inv N p -> dom (items (sh p)) ⊆ dom (items (sh p')).
Proof.
  induction 1 as [|p0 p1 p2 Hst _ IH]; intros Hinv; [done|].
  etrans; [by eapply queues_grow|]. apply IH. by eapply pool_step_inv.
Qed.

Lemma calm_steps N p p' :
  rtc (pool_step N) p p' -> pool_inv N p -> dom (items (sh p')) = dom (items (sh p)) ->
  rtc (fun p p' => pool_step N p p' /\ calm p p') p p'.
Proof.
  induction 1 as [|p0 p1 p2 Hst Hr IH]; intros Hinv Hd; [done|].
  pose proof (pool_step_inv N _ _ Hinv Hst) as Hinv1.
  assert (Hd1 : dom (items (sh p1)) = dom (items (sh p0))).
  { apply set_eq. intros j. pose proof (queues_grow _ _ _ Hinv Hst j).
    pose proof (queues_grow_steps _ _ _ Hr Hinv1 j). rewrite Hd in *. tauto. }
  eapply rtc_l; [split; [done|]|apply IH; [done|congruence]].
  right. apply first_queue_ext. intros j. rewrite <- !elem_of_dom. by rewrite Hd1.
Qed.

(** ** Progress *)

(** Inside a critical section of a queue a thread can always go on. *)
Lemma spin_section_steps N s x i :
  local_ok s x -> spin_of x = Some i -> exists r, pstep N false s x = Some r.
Proof.
  intros Hl Hs. pose proof (local_spin_some s x i Hl Hs) as [l Hi].
  destruct x; simplify_eq/=; rewrite ?Hi; simpl; eauto; [|destruct k, l; eauto].
  destruct l as [|w rest]; [eauto|]. destruct (negb _), rest; eauto.
Qed.

(** Taking a spin lock succeeds, or its holder can go on. *)
Lemma spin_wait_steps N p i :
  pool_inv N p -> (i ∉ held (sh p)) \/
  exists t x, thr p !! t = Some x /\ x <> WtBlocked /\ exists r, pstep N false (sh p) x = Some r.
Proof.
  intros [[Hl _] Hmk _ _]. destruct (decide (i ∈ held (sh p))) as [Hh|]; [right|by left].
  destruct (msum_pos (spin_at i) (thr p)) as (t & x & Hx & Hpos).
  - intros x. apply spin_at_range.
  - rewrite Hl, decide_True by done. lia.
  - unfold spin_at in Hpos. case_decide as Hs; [|lia]. exists t, x. split; [done|]. split; [by intros ->|].
    by eapply spin_section_steps; [apply (mi_local _ Hmk t)|].
Qed.

Lemma lock_free_steps N s i x c :
  (i ∉ held s) -> x = ScLock c i \/ (exists k w, x = PuLock k w i) -> exists r, pstep N false s x = Some r.
Proof.
  intros Hn [->|(k & w & ->)]; simpl; unfold spin_lock; rewrite decide_False by done; simpl; eauto.
Qed.

(** What a thread does next without any help: it signals, it installs its queue (or aborts
    the process because the slot is taken), or it takes a step of its own. *)
Definition goes_on (N : Z) (s : shared) (x : pc) : Prop :=
  x = PuSignal \/ (exists i, x = CrStore i) \/ exists r, pstep N false s x = Some r.

Definition enabled (N : Z) (p : pool) : Prop :=
  exists t x, thr p !! t = Some x /\ x <> WtBlocked /\ goes_on N (sh p) x.

(** Waiting for [wqlist_mtx]. *)
Definition waits_mtx (x : pc) : bool := match x with WtMtx | AdMtx | MsMtx | CrMtx _ => true | _ => false end.

(** A thread that does not wait for [wqlist_mtx] can go on, or the holder of the spin lock
    it waits for can. *)
Lemma enabled_unless_mtx N p t x :
  pool_inv N p -> thr p !! t = Some x -> x <> WtBlocked -> waits_mtx x = false -> enabled N p.
Proof.
  intros Hinv Hx Hb Hm. pose proof Hinv as [_ Hmk _ _].
  assert (Hgo : forall r, pstep N false (sh p) x = Some r -> enabled N p).
  { intros r Hr. exists t, x. unfold goes_on. eauto 6. }
  assert (Hlock : forall i c, x = ScLock c i \/ (exists k w, x = PuLock k w i) -> enabled N p).
  { intros i c Hi. destruct (spin_wait_steps N p i Hinv) as [Hn|(t' & x' & H1 & H2 & H3)].
    - destruct (lock_free_steps N (sh p) i x c Hn Hi) as [r Hr]. eauto.
    - exists t', x'. unfold goes_on. auto. }
  destruct (spin_of x) as [i|] eqn:Hs.
  { destruct (spin_section_steps N (sh p) x i (mi_local _ Hmk t x Hx) Hs) as [r Hr]. eauto. }
  destruct x; try done; try (by eapply Hgo); try (eapply (Hlock _ CTop); right; by eauto);
    try (by eapply Hlock; eauto).
  - simpl in Hgo. destruct (ffs (mk (sh p)) =? 0); by eapply Hgo.
  - exists t, PuSignal. by split_and!; [| |left].
  - exists t, (CrStore i). split_and!; [done|done|]. right. left. by exists i.
Qed.

Lemma pool_enabled N p t x :
  pool_inv N p -> first_queue (items (sh p)) <> None -> thr p !! t = Some x -> x <> WtBlocked -> enabled N p.
Proof.
  intros Hinv Hq Hx Hb. pose proof Hinv as [Hlk Hmk _ _].
  destruct (waits_mtx x) eqn:Hm; [|by eapply enabled_unless_mtx].
  destruct (mtx (sh p)) eqn:Emtx.
  - destruct (msum_pos mtx_at (thr p)) as (t' & x' & Hx' & Hpos).
    + intros z. apply mtx_at_range.
    + rewrite (li_mtx _ Hlk), Emtx. lia.
    + apply (enabled_unless_mtx N p t' x'); try done; [by intros ->|by destruct x'].
  - exists t, x. split; [done|]. split; [done|]. right. right.
    destruct (first_queue (items (sh p))) as [f|] eqn:Ef; [|done].
    destruct x; try done; simpl; unfold mutex_lock; rewrite Emtx; simpl; rewrite ?Ef; simpl; eauto.
Qed.

(** ** Properties *)

(** C2.  No lost wakeup.  Whenever a client's item waits in a queue, no producer is between
    its insertion and its signal, and some worker lives that has not been told to exit,
    then some worker is awake; as long as any worker sleeps, the awake ones even exceed
    the pending exit events.  This holds under every interleaving, spurious wakeups,
    worker creation and removal, races of workers for the same queue and the creation of
    queues included, except that no queue is created before all others while an exit event
    waits (PoolLate.v shows why). *)
Theorem no_lost_wakeup N p i l w t x :
  calm_reachable N p -> msum flight_at (thr p) = 0 ->
  items (sh p) !! i = Some l -> w ∈ l -> func w <> NULL ->
  thr p !! t = Some x -> is_worker x = true -> doomed x = false ->
  (exists t' x', thr p !! t' = Some x' /\ is_worker x' = true /\ doomed x' = false /\ x' <> WtBlocked) /\
  (0 < msum blocked_at (thr p) -> exits (sh p) + 1 <= msum awake_at (thr p)).
Proof.
  intros Hr Hf Hi Hw Hfn Hx Hwk Hd. destruct (wake_reachable N p Hr) as [_ Hinv].
  assert (Hreal : 1 <= reals (sh p)).
  { assert (1 <= reals_of l).
    { clear -Hw Hfn. induction Hw as [w l|w v l _ IH]; rewrite reals_cons.
      - rewrite (proj2 (Z.eqb_neq _ _) Hfn). pose proof (reals_nonneg l). lia.
      - specialize (IH Hfn). case_match; lia. }
    pose proof (msum_ge reals_of _ _ _ reals_nonneg Hi). unfold reals. lia. }
  assert (Hs : 0 < msum blocked_at (thr p) -> exits (sh p) + 1 <= msum awake_at (thr p)).
  { intros Hb. pose proof (wi_sleep _ Hinv Hb) as H. unfold need in H. lia. }
  split; [|done]. destruct (decide (x = WtBlocked)) as [->|Hne]; [|by exists t, x].
  assert (Hb : 0 < msum blocked_at (thr p)).
  { assert (Hg : forall z, 0 <= blocked_at z) by by intros []. pose proof (msum_ge blocked_at _ _ _ Hg Hx) as H. simpl in H. lia. }
  specialize (Hs Hb). destruct (need_nonneg (sh p)) as [Hex _].
  destruct (msum_pos awake_at (thr p)) as (t' & x' & Hx' & Hpos); [intros z; apply awake_range|lia|].
  exists t', x'. unfold awake_at in Hpos. destruct (is_worker x' && negb (doomed x')) eqn:E; [|lia].
  apply andb_true_iff in E as [E1 E2%negb_true_iff]. split_and!; try done. by intros ->.
Qed.

(** C5.  The pool never deadlocks: as soon as one queue exists, whenever some thread is not
    asleep on the condition variable, some thread can take a step without any help from
    the system (no spurious wakeup, no successful thread creation needed), signal, or
    store the queue it creates (or abort, when the priority is taken): the spin locks are
    only taken after [wqlist_mtx], never the other way round. *)
Theorem pool_deadlock_free N p t x :
  pool_reachable N p -> first_queue (items (sh p)) <> None -> thr p !! t = Some x -> x <> WtBlocked ->
  exists t' x', thr p !! t' = Some x' /\ x' <> WtBlocked /\ goes_on N (sh p) x'.
Proof.
  intros Hr Hq Hx Hb. by apply (pool_enabled N p t x (pool_reachable_inv N p Hr)).
Qed.

(** ** Examples *)

Definition steps (t n : nat) : list (nat * bool) := replicate n (t, false).

(** Runs a schedule; the state itself when the schedule blocks. *)
Definition ex_run (N : Z) (sched : list (nat * bool)) (p : pool) : pool := default p (pool_run N sched p).
Definition ex_call (t : nat) (x : pc) (ws : list work) (p : pool) : pool :=
  Pool (sh p) (<[t:=x]> (thr p)) (added p ++ ws).

Lemma ex_run_steps N p0 sched p : rtc (pool_step N) p0 p -> rtc (pool_step N) p0 (ex_run N sched p).
Proof.
  intros Hr. unfold ex_run. destruct (pool_run N sched p) as [q|] eqn:E; simpl; [|done]. by eapply steps_run.
Qed.

Lemma ex_run_reachable N sched p : pool_reachable N p -> pool_reachable N (ex_run N sched p).
Proof. intros (p0 & H0 & Hr). exists p0. split; [done|by apply ex_run_steps]. Qed.

(** A worker (thread 1) is asleep; a client submits an item to queue 1 and signals. *)
Definition ex_asleep : pool := ex_run 0 (steps 1 7) ex_pool1.
Definition ex_submitted : pool := ex_run 0 (steps 2 7) (ex_call 2 (PuLock KAdd (ex_item 7) 1) [ex_item 7] ex_asleep).
Definition ex_woken : pool :=
  ex_run 0 (steps 2 1) (Pool (sh ex_submitted) (<[2%nat:=PuEnd]> (<[1%nat:=WtMtx]> (thr ex_submitted))) (added ex_submitted)).

Lemma ex_asleep_blocked : thr ex_asleep = {[1%nat := WtBlocked]}.
Proof. by vm_compute. Qed.

Lemma ex_woken_steps : rtc (pool_step 0) ex_pool0 ex_woken.
Proof.
  apply ex_run_steps.
  assert (H1 : rtc (pool_step 0) ex_pool0 (ex_call 2 (PuLock KAdd (ex_item 7) 1) [ex_item 7] ex_asleep)).
  { refine (steps_step 0 _ _ _ _ (ex_run_steps 0 _ (steps 1 7) _ (ex_pool1_steps 0))
              (PsSubmit 0 ex_asleep 2 (ex_item 7) 1 _ _ _ _) eq_refl); try by vm_compute. by eexists. }
  apply (ex_run_steps 0 _ (steps 2 7)) in H1.
  refine (steps_step 0 _ ex_submitted _ _ H1 (PsSignal 0 ex_submitted 2 (<[1%nat:=WtMtx]> (thr ex_submitted)) _ _) eq_refl);
    [by vm_compute|]. apply (WakesOne _ 1). by vm_compute.
Qed.

Lemma ex_woken_reachable : pool_reachable 0 ex_woken.
Proof. exists ex_pool0. split; [exact ex_pool0_initial|exact ex_woken_steps]. Qed.

Lemma ex_woken_calm : calm_reachable 0 ex_woken.
Proof.
  exists ex_pool0. split; [exact ex_pool0_initial|].
  apply calm_steps; [exact ex_woken_steps|by apply (pool_initial_inv 0), ex_pool0_initial|].
  by vm_compute.
Qed.

Lemma no_lost_wakeup_witness :
  items (sh ex_woken) !! 1%nat = Some [ex_item 7] /\
  exists t' x', thr ex_woken !! t' = Some x' /\ is_worker x' = true /\ doomed x' = false /\ x' <> WtBlocked.
Proof.
  assert (Hi : items (sh ex_woken) !! 1%nat = Some [ex_item 7]) by (vm_compute; reflexivity).
  split; [exact Hi|].
  refine (proj1 (no_lost_wakeup 0 ex_woken 1 [ex_item 7] (ex_item 7) 1 WtMtx
    ex_woken_calm _ Hi _ _ _ eq_refl eq_refl)).
  - vm_compute. reflexivity.
  - apply list_elem_of_here.
  - discriminate.
  - vm_compute. reflexivity.
Defined.

Lemma pool_deadlock_free_witness :
  first_queue (items (sh ex_woken)) <> None /\
  exists t' x', thr ex_woken !! t' = Some x' /\ x' <> WtBlocked /\ goes_on 0 (sh ex_woken) x'.
Proof.
  assert (Hq : first_queue (items (sh ex_woken)) <> None) by (vm_compute; discriminate).
  split; [exact Hq|].
  refine (pool_deadlock_free 0 ex_woken 1 WtMtx ex_woken_reachable Hq _ _); [vm_compute; reflexivity|discriminate].
Defined.

(** A worker in the busy loop, an exit event in queue 0 and then an item in queue 1. *)
Definition ex_spin0 : pool := ex_run 1 (steps 1 3) ex_pool1.
Definition ex_spin1 : pool := ex_run 1 (steps 9 6) (ex_call 9 MsMtx [] ex_spin0).
Definition ex_spin2 : pool := ex_run 1 (steps 9 1) (ex_call 9 PuEnd [] ex_spin1).
Definition ex_spin3 : pool := ex_run 1 (steps 2 7) (ex_call 2 (PuLock KAdd (ex_item 7) 1) [ex_item 7] ex_spin2).
Definition ex_spin4 : pool := ex_run 1 (steps 2 1) (ex_call 2 PuEnd [] ex_spin3).

Lemma ex_spin_signal p t :
  pool_reachable 1 p -> thr p !! t = Some PuSignal -> (forall t', thr p !! t' <> Some WtBlocked) ->
  pool_reachable 1 (ex_call t PuEnd [] p).
Proof.
  intros Hr Hx Hn. unfold ex_call. rewrite app_nil_r.
  refine (reach_step 1 p _ _ Hr (PsSignal 1 p t (thr p) Hx _) eq_refl). by apply WakesNone.
Qed.

Lemma ex_spin4_reachable : pool_reachable 1 ex_spin4.
Proof.
  assert (H0 : pool_reachable 1 (ex_call 9 MsMtx [] ex_spin0)).
  { refine (reach_step 1 ex_spin0 _ _ (ex_run_reachable 1 _ _ (ex_pool1_reachable 1))
              (PsManager 1 ex_spin0 9 MsMtx _ _ _) _); try by vm_compute. by left. }
  apply (ex_run_reachable 1 (steps 9 6)) in H0.
  assert (Hb : forall m : gmap nat pc, bool_decide (map_Forall (fun _ x => x <> WtBlocked) m) = true ->
                 forall t', m !! t' <> Some WtBlocked).
  { intros m Hm t' Ht. apply bool_decide_eq_true in Hm. by apply (Hm t' _ Ht). }
  apply (ex_spin_signal _ 9) in H0; [|by vm_compute|apply Hb; by vm_compute].
  apply (ex_run_reachable 1 (steps 9 1)) in H0.
  assert (H1 : pool_reachable 1 (ex_call 2 (PuLock KAdd (ex_item 7) 1) [ex_item 7] ex_spin2)).
  { refine (reach_step 1 ex_spin2 _ _ H0 (PsSubmit 1 ex_spin2 2 (ex_item 7) 1 _ _ _ _) eq_refl); try by vm_compute.
    by eexists. }
  apply (ex_run_reachable 1 (steps 2 7)) in H1.
  apply (ex_spin_signal _ 2) in H1; [|by vm_compute|apply Hb; by vm_compute].
  by apply (ex_run_reachable 1 (steps 2 1)) in H1.
Qed.

Lemma pool_run_app N a b p q : pool_run N a p = Some q -> pool_run N (a ++ b) p = pool_run N b q.
Proof.
  revert p. induction a as [|c a IH]; simpl; intros p; [by intros [= ->]|].
  destruct (pool_exec N c p); simpl; [apply IH|done].
Qed.

(** A worker in the busy loop of [wqlist_scan_spin] starves: with [PWQ_SPIN_THREADS]
    at one, a state is reachable in which a client's item waits, the only worker spins,
    the idle counter is positive, and the worker returns to the very same state every
    four steps, for ever: the scan only looks at the head of the highest pending queue,
    and there an exit event hides the item. *)
Theorem spinning_worker_starves :
  exists p, pool_reachable 1 p /\ thr p = {[1%nat := ScRead CSpin]} /\
    items (sh p) !! 1%nat = Some [ex_item 7] /\ n_idle (sh p) = 1 /\
    forall n, pool_run 1 (concat (replicate n (steps 1 4))) p = Some p.
Proof.
  exists ex_spin4. split; [exact ex_spin4_reachable|].
  split; [by vm_compute|]. split; [by vm_compute|]. split; [by vm_compute|].
  assert (Hc : pool_run 1 (steps 1 4) ex_spin4 = Some ex_spin4) by by vm_compute.
  induction n as [|n IH]; [done|]. change (concat (replicate (S n) (steps 1 4)))
    with (steps 1 4 ++ concat (replicate n (steps 1 4))). by rewrite (pool_run_app _ _ _ _ _ Hc).
Qed.
