(* ===== verification/PoolLate.v ===== *)
(** * A queue created late loses a wakeup (src/posix/manager.c)

    [worker_stop] puts its exit event into the first queue, which the search of a worker
    looks at first; PoolWake.v relies on it.  A queue of a higher priority that is created
    while the event waits takes that place.  Then a worker that loses the race for an item
    of the new queue goes to sleep although the exit event, and the items behind it, wait:
    the worker that won the race takes the exit event, and the items stay behind.  Scripts
    ([play]) run the system to that state. *)

From stdpp Require Import base gmap list.
From Stdlib Require Import ZArith Lia.
From S2P Require Import Prelude Types Manager Pool PoolInv PoolWake.

(** ** Scripts *)

(** What happens next: a thread takes some steps; a call begins; a signal wakes a sleeping
    thread, or nobody; a worker is created; a new queue is stored. *)
Inductive event :=
| Runs (t n : nat)
| Submits (t : nat) (w : work) (i : nat)
| Calls (t : nat) (x : pc)
| Wakes (t t' : nat)
| WakesNobody (t : nat)
| Spawns (t t' : nat)
| Creates (t i : nat)
| Installs (t : nat).

Definition free_slot (t : nat) (p : pool) : bool :=
  bool_decide (thr p !! t = None) && (threads (thr p) <? THREAD_LIMIT).

Definition play (N : Z) (e : event) (p : pool) : option pool :=
  match e with
  | Runs t n => pool_run N (steps t n) p
  | Submits t w i =>
      if free_slot t p && negb (func w =? NULL) && bool_decide (is_Some (items (sh p) !! i))
      then Some (Pool (sh p) (<[t:=PuLock KAdd w i]> (thr p)) (added p ++ [w])) else None
  | Calls t x =>
      if free_slot t p && bool_decide (x = MsMtx \/ x = MwPend)
      then Some (Pool (sh p) (<[t:=x]> (thr p)) (added p)) else None
  | Wakes t t' =>
      if bool_decide (thr p !! t = Some PuSignal) && bool_decide (thr p !! t' = Some WtBlocked)
      then Some (Pool (sh p) (<[t:=PuEnd]> (<[t':=WtMtx]> (thr p))) (added p)) else None
  | WakesNobody t =>
      if bool_decide (thr p !! t = Some PuSignal) && bool_decide (map_Forall (fun _ x => x <> WtBlocked) (thr p))
      then Some (Pool (sh p) (<[t:=PuEnd]> (thr p)) (added p)) else None
  | Spawns t t' =>
      if bool_decide (thr p !! t = Some MwCreate) && bool_decide (thr p !! t' = None)
      then Some (Pool (sh p) (<[t':=WkStart]> (delete t (thr p))) (added p)) else None
  | Creates t i =>
      if free_slot t p && (i <? PTHREAD_WORKQUEUE_MAX)%nat
      then Some (Pool (sh p) (<[t:=CrMtx i]> (thr p)) (added p)) else None
  | Installs t =>
      match thr p !! t with
      | Some (CrStore i) =>
          s ← store_queue i (sh p); Some (Pool s (<[t:=PuEnd]> (thr p)) (added p))
      | _ => None
      end
  end.

Fixpoint plays (N : Z) (es : list event) (p : pool) : option pool :=
  match es with
  | [] => Some p
  | e :: es => p ← play N e p; plays N es p
  end.

Lemma free_slot_spec t p : free_slot t p = true -> thr p !! t = None /\ threads (thr p) < THREAD_LIMIT.
Proof. intros [H1%bool_decide_eq_true H2%Z.ltb_lt]%andb_true_iff. done. Qed.

Lemma play_steps N e p p' : play N e p = Some p' -> rtc (pool_step N) p p'.
Proof.
  destruct e; simpl; intros H.
  - by eapply pool_run_steps.
  - destruct (_ && _) eqn:E in H; simplify_eq.
    apply andb_true_iff in E as [[[H1 H2]%free_slot_spec H3%negb_true_iff%Z.eqb_neq]%andb_true_iff H4%bool_decide_eq_true].
    by apply rtc_once, PsSubmit.
  - destruct (_ && _) eqn:E in H; simplify_eq.
    apply andb_true_iff in E as [[H1 H2]%free_slot_spec H3%bool_decide_eq_true]. by apply rtc_once, PsManager.
  - destruct (_ && _) eqn:E in H; simplify_eq.
    apply andb_true_iff in E as [H1%bool_decide_eq_true H2%bool_decide_eq_true].
    apply rtc_once, PsSignal; [done|]. by apply WakesOne.
  - destruct (_ && _) eqn:E in H; simplify_eq.
    apply andb_true_iff in E as [H1%bool_decide_eq_true H2%bool_decide_eq_true].
    apply rtc_once, PsSignal; [done|]. apply WakesNone. intros t' Ht. by apply (H2 t' _ Ht).
  - destruct (_ && _) eqn:E in H; simplify_eq.
    apply andb_true_iff in E as [H1%bool_decide_eq_true H2%bool_decide_eq_true]. by apply rtc_once, PsCreate.
  - destruct (_ && _) eqn:E in H; simplify_eq.
    apply andb_true_iff in E as [[H1 H2]%free_slot_spec H3%Nat.ltb_lt]. by apply rtc_once, PsNewQueue.
  - destruct (thr p !! t) as [x|] eqn:Hx; [|done]. destruct x; try done.
    apply bind_Some in H as (s & Hs & [= <-]). by eapply rtc_once, PsInstall.
Qed.

Lemma plays_steps N es p p' : plays N es p = Some p' -> rtc (pool_step N) p p'.
Proof.
  revert p. induction es as [|e es IH]; simpl; intros p; [by intros [= <-]|].
  intros (p1 & H1 & H2)%bind_Some. etrans; [by eapply play_steps|by apply IH].
Qed.

(** ** The script *)

(** One queue, of priority 1, and no thread. *)
Definition late0 : pool := Pool (Shared {[1%nat := []]} 0 ∅ false 0 0 0 0 0 0 []) ∅ [].

Definition late_script : list event :=
  [ (* two workers: 1 goes to sleep, 2 has not begun *)
    Calls 9 MwPend; Runs 9 3; Spawns 9 1; Calls 9 MwPend; Runs 9 3; Spawns 9 2; Runs 1 7;
    (* worker_stop: an exit event into queue 1 wakes worker 1; an item behind it *)
    Calls 9 MsMtx; Runs 9 6; Wakes 9 1; Runs 9 1;
    Submits 3 (ex_item 7) 1; Runs 3 6; WakesNobody 3; Runs 3 1;
    (* queue 0 is created and gets an item *)
    Creates 4 0; Runs 4 1; Installs 4; Runs 4 1;
    Submits 5 (ex_item 8) 0; Runs 5 7; WakesNobody 5; Runs 5 1;
    (* both workers go for it; 2 gets it and 1 goes to sleep *)
    Runs 1 2; Runs 2 6; Runs 1 4;
    (* 2 executes it, takes the exit event and ends *)
    Runs 2 18 ].

Lemma late0_initial : pool_initial late0.
Proof.
  split; [|by split_and!]. intros i l. simpl. rewrite lookup_singleton_Some. intros [<- <-].
  split; [done|]. unfold PTHREAD_WORKQUEUE_MAX. lia.
Qed.

(** Where the script leads. *)
Definition late : pool := default late0 (plays 0 late_script late0).

Lemma late_reachable : pool_reachable 0 late.
Proof.
  exists late0. split; [exact late0_initial|]. apply (plays_steps 0 late_script).
  unfold late. destruct (plays 0 late_script late0) eqn:E; [done|]. by vm_compute in E.
Qed.

(** Creating a queue while the pool runs can lose a wakeup.  A state is reachable
    without spurious wakeups in which all calls have returned, a client's item waits in a
    queue, its bit is set in the mask, and the only thread is a worker asleep on
    [wqlist_has_work] that nobody will wake: it takes no step of its own, and for the
    manager thread it is idle, so no other worker is started. *)
Theorem late_queue_loses_wakeup :
  exists p, pool_reachable 0 p /\ thr p = {[1%nat := WtBlocked]} /\
    items (sh p) !! 1%nat = Some [ex_item 7] /\ Z.testbit (mk (sh p)) 1 = true /\
    pstep 0 false (sh p) WtBlocked = None /\ n_idle (sh p) = 1 /\ n_count (sh p) = 1 /\
    finished (sh p) = [ex_item 8] /\ mtx (sh p) = false /\ held (sh p) = ∅.
Proof. exists late. split; [exact late_reachable|]. by vm_compute. Qed.
