(* ===== verification/PoolLive.v ===== *)
(** * The pool finishes its work (src/posix/manager.c)

    PoolInv.v and PoolWake.v show that no item and no wakeup is lost.  Here: with the busy
    loop switched off ([PWQ_SPIN_THREADS] is 0, its default), once the clients and the
    manager make no more calls the pool comes to rest whatever the schedule, and at rest
    every item has been executed, as long as a worker is left. *)

From stdpp Require Import base gmap list.
From Stdlib Require Import ZArith Lia.
From S2P Require Import Prelude Types Manager Pool PoolInv PoolWake.

(** ** The steps of the pool by itself *)

(** The threads that exist take their steps, signal and create workers.  Nobody wakes up
    without a signal, and no call begins. *)
Inductive pool_internal (p : pool) : pool -> Prop :=
| InMove t x ok s' y :
    thr p !! t = Some x -> x <> WtBlocked -> pstep 0 ok (sh p) x = Some (s', y) ->
    pool_internal p (Pool s' (match y with Some y => <[t:=y]> (thr p) | None => delete t (thr p) end) (added p))
| InSignal t m :
    thr p !! t = Some PuSignal -> wakes (thr p) m ->
    pool_internal p (Pool (sh p) (<[t:=PuEnd]> m) (added p))
| InCreate t t' :
    thr p !! t = Some MwCreate -> thr p !! t' = None ->
    pool_internal p (Pool (sh p) (<[t':=WkStart]> (delete t (thr p))) (added p)).

(** No queue is being created. *)
Definition creates (x : pc) : bool := match x with CrMtx _ | CrStore _ => true | _ => false end.
Definition no_creation (p : pool) : Prop := forall t x, thr p !! t = Some x -> creates x = false.

(** ** The measure *)

(** The weight of an item: more than what a worker does with it. *)
Definition item_weight : Z := 20.

(** A bound on the steps from a position until its thread sleeps or ends, the insertion of
    an item and the wakeup of a sleeping worker included. *)
Definition rank (x : pc) : Z :=
  match x with
  | WtBlocked => 0 | WtCond => 1
  | ScUnlock CWait _ None => 2 | ScCrit CWait _ => 3 | ScLock CWait _ => 4 | ScRead CWait => 5 | WtMtx => 6
  | SpDec None => 7 | SpInc => 8
  | ScUnlock _ _ None => 9 | ScCrit _ _ => 10 | ScLock _ _ => 11 | ScRead _ => 12
  | WkStart | WkInc => 13 | WkRun _ => 14 | WkDec _ => 15
  | ExCount => 1 | ExIdle => 2 | WtPost _ => 16 | WtUnlock _ => 17
  | SpDec (Some _) => 16 | SpPost _ => 17
  | ScUnlock _ _ (Some _) => 18 | ScReset _ _ _ => 19
  | PuEnd => 1 | PuSignal => 8 | AdMtx => 9 | AdCheck => 10 | PuUnlock _ _ => 11
  | PuInsert _ _ _ => 12 + item_weight | PuOr _ _ _ => 13 + item_weight
  | PuCrit _ _ _ => 14 + item_weight | PuLock _ _ _ => 15 + item_weight | MsMtx => 16 + item_weight
  | CrStore _ => 2 | CrMtx _ => 3
  | MwFail2 => 1 | MwFail1 => 2 | MwCreate => 14 | MwCount => 15 | MwIdle => 16 | MwPend => 17
  end.

Definition len (l : list work) : Z := Z.of_nat (length l).
Definition measure (p : pool) : Z := msum rank (thr p) + item_weight * msum len (items (sh p)).

Lemma rank_nonneg x : 0 <= rank x.
Proof. destruct x; simpl; repeat case_match; unfold item_weight; lia. Qed.

Lemma measure_nonneg p : 0 <= measure p.
Proof.
  unfold measure, item_weight. pose proof (msum_nonneg rank (thr p) rank_nonneg).
  assert (0 <= msum len (items (sh p))) by (apply msum_nonneg; intros l; unfold len; lia). lia.
Qed.

Lemma len_cons w l : len (w :: l) = 1 + len l.
Proof. unfold len. simpl. lia. Qed.
Lemma len_snoc w l : len (l ++ [w]) = len l + 1.
Proof. unfold len. rewrite length_app. simpl. lia. Qed.

#[local] Arguments len : simpl never.

(** Every step of a thread makes it smaller; the busy loop is never entered. *)
Lemma pstep_rank ok s x s' y :
  pstep 0 ok s x = Some (s', y) -> x <> WtBlocked -> (x = SpInc -> 0 <= n_spin s < 2 ^ 32 - 1) -> loops_at x = 0 ->
  oat rank y + item_weight * msum len (items s') < rank x + item_weight * msum len (items s).
Proof.
  intros H Hb Hn Hl. unfold loops_at in Hl.
  destruct x; try done; try destruct c; try done; try destruct k; pstep_cases H; simpl;
    try match goal with E : items s !! _ = Some _ |- _ => rewrite (msum_insert _ _ _ _ _ E) end;
    rewrite ?len_cons, ?len_snoc; change (len []) with 0; unfold item_weight; try lia.
  all: repeat case_match; try lia.
  all: specialize (Hn eq_refl); apply Z.leb_le in Heqb; rewrite u32_small in Heqb by lia; lia.
Qed.

(** ** Preservation *)

Lemma internal_step p p' : pool_internal p p' -> pool_step 0 p p'.
Proof.
  intros [t x ok s' [y|] Hx _ Hp|t m Hx Hw|t t' Hx Hn];
    [by eapply PsMove|by eapply PsEnd|by apply PsSignal|by apply PsCreate].
Qed.

(** The pool by itself submits nothing, keeps the set of queues, and creates none. *)
Lemma internal_keeps p p' :
  pool_inv 0 p -> pool_internal p p' ->
  added p' = added p /\ (forall j, is_Some (items (sh p') !! j) <-> is_Some (items (sh p) !! j)).
Proof.
  intros [_ Hmk _ _] [t x ok s' y Hx _ Hp|t m _ _|t t' _ _]; simpl; [|done|done]. split; [done|].
  eapply (pstep_frame _ _ _ _ _ _ Hp); [apply Hmk|]. intros i Hi.
  pose proof (mi_dom _ Hmk i (local_spin_some _ _ _ (mi_local _ Hmk t x Hx) Hi)) as Hlt.
  unfold PTHREAD_WORKQUEUE_MAX in Hlt. lia.
Qed.

Lemma pstep_creates N ok s x s' y : pstep N ok s x = Some (s', Some y) -> creates x = false -> creates y = false.
Proof. intros H Hc. destruct x; try done; try destruct c; try destruct k; pstep_cases H; done. Qed.

Lemma internal_no_creation p p' : pool_internal p p' -> no_creation p -> no_creation p'.
Proof.
  intros Hst Hno t0 x0. destruct Hst as [t x ok s' [y|] Hx _ Hp|t m Hx Hw|t t' Hx Hn]; simpl.
  - intros [<-|[_ H0]]%lookup_insert_or; [|by eapply Hno]. eapply pstep_creates; [done|by eapply Hno].
  - intros [_ H0]%lookup_delete_Some. by eapply Hno.
  - intros [<-|[_ H0]]%lookup_insert_or; [done|].
    destruct Hw as [t' Ht'|_]; [apply lookup_insert_or in H0 as [<-|[_ H0]]; [done|]|]; by eapply Hno.
  - intros [<-|[_ [_ H0]%lookup_delete_Some]]%lookup_insert_or; [done|]. by eapply Hno.
Qed.

(** What the pool keeps while it runs by itself. *)
Record live_inv (p : pool) : Prop := {
  lv_pool : pool_inv 0 p;
  lv_wake : wake_inv p;
  lv_queue : first_queue (items (sh p)) <> None;
  lv_none : no_creation p
}.

Lemma internal_inv p p' : live_inv p -> pool_internal p p' -> live_inv p' /\ added p' = added p.
Proof.
  intros [Hp Hw Hq Hn] Hst. destruct (internal_keeps _ _ Hp Hst) as [Ha Hd].
  pose proof (first_queue_ext _ _ Hd) as Hf. pose proof (internal_step _ _ Hst) as Hst'.
  split; [|done]. split; [by eapply pool_step_inv| |by rewrite Hf|by eapply internal_no_creation].
  apply (wake_step 0 p p' Hp Hw Hst'). by right.
Qed.

Lemma internal_rtc_inv p p' : rtc pool_internal p p' -> live_inv p -> live_inv p' /\ added p' = added p.
Proof.
  induction 1 as [|p p1 p2 Hst _ IH]; [done|]. intros Hinv.
  destruct (internal_inv _ _ Hinv Hst) as [Hinv1 <-]. by apply IH.
Qed.

(** ** Termination *)

(** A thread that is about to count itself in [current_threads_spinning] leaves room for it. *)
Lemma spin_room p t : counters_inv 0 p -> thr p !! t = Some SpInc -> 0 <= n_spin (sh p) < 2 ^ 32 - 1.
Proof.
  intros [Ht _ _ _ Hs _] Hx. rewrite Hs. unfold threads, THREAD_LIMIT in Ht.
  assert (Hsp : forall z, 0 <= spins_at z <= 1) by (intros z; pose proof (spins_at_range z); lia).
  split; [apply msum_nonneg; intros z; apply Hsp|].
  rewrite (msum_delete (fun _ => 1) _ _ _ Hx) in Ht. rewrite (msum_delete spins_at _ _ _ Hx).
  assert (msum spins_at (delete t (thr p)) <= msum (fun _ => 1) (delete t (thr p)))
    by (apply msum_le; intros k z _; apply Hsp). change (spins_at SpInc) with 0. lia.
Qed.

Lemma no_loops p t x : counters_inv 0 p -> thr p !! t = Some x -> loops_at x = 0.
Proof.
  intros [_ _ _ _ _ Hl] Hx. assert (Hlp : forall z, 0 <= loops_at z) by (intros z; apply spins_at_range).
  pose proof (msum_ge loops_at _ _ _ Hlp Hx). pose proof (Hlp x). lia.
Qed.

Lemma msum_after (f : pc -> Z) (m : gmap nat pc) t x y :
  m !! t = Some x ->
  msum f (match y with Some y => <[t:=y]> m | None => delete t m end) = msum f m - f x + oat f y.
Proof. intros Hx. destruct y; simpl; [by rewrite (msum_insert _ _ _ _ _ Hx)|rewrite (msum_delete f _ _ _ Hx); lia]. Qed.

Lemma internal_measure p p' : live_inv p -> pool_internal p p' -> measure p' < measure p.
Proof.
  intros [[_ _ Hc _] _ _ _] Hst. unfold measure.
  destruct Hst as [t x ok s' y Hx Hb Hp|t m Hx Hw|t t' Hx Hn]; simpl.
  - rewrite (msum_after _ _ _ _ _ Hx).
    pose proof (pstep_rank ok _ _ _ _ Hp Hb) as Hr. specialize (Hr ltac:(intros ->; by eapply spin_room)).
    specialize (Hr ltac:(by eapply no_loops)). lia.
  - destruct Hw as [t' Ht'|_]; [|rewrite (msum_insert _ _ _ _ _ Hx); simpl; lia].
    rewrite (msum_insert rank _ t PuSignal), (msum_insert _ _ _ _ _ Ht'); [simpl; lia|].
    rewrite lookup_insert_ne; congruence.
  - rewrite msum_insert_new, (msum_delete rank _ _ _ Hx); [simpl; lia|]. rewrite lookup_delete_None. auto.
Qed.

(** Somebody can step unless everybody sleeps. *)
Lemma internal_progress p t x :
  live_inv p -> thr p !! t = Some x -> x <> WtBlocked -> exists p', pool_internal p p'.
Proof.
  intros [Hp _ Hq Hno] Hx Hb. destruct (pool_enabled 0 p t x Hp Hq Hx Hb) as (t' & x' & Hx' & Hb' & Hgo).
  destruct Hgo as [->|[[i ->]|[[s' y] Hs]]].
  - destruct (decide (map_Exists (fun _ z => z = WtBlocked) (thr p))) as [(t'' & z & Hz & ->)|Hn].
    + eexists. apply (InSignal p t'); [done|]. by apply (WakesOne _ t'').
    + eexists. apply (InSignal p t'); [done|]. apply WakesNone. intros t'' Hz. apply Hn. by exists t'', WtBlocked.
  - by specialize (Hno t' _ Hx').
  - eexists. by eapply InMove.
Qed.

Lemma internal_run_down n : forall p, measure p < Z.of_nat n -> live_inv p ->
  exists p', rtc pool_internal p p' /\ forall t x, thr p' !! t = Some x -> x = WtBlocked.
Proof.
  induction n as [|n IH]; intros p Hn Hinv; [pose proof (measure_nonneg p); lia|].
  destruct (decide (map_Exists (fun _ z => z <> WtBlocked) (thr p))) as [(t & x & Hx & Hb)|Hno].
  - destruct (internal_progress p t x Hinv Hx Hb) as [p1 Hst]. pose proof (internal_measure _ _ Hinv Hst).
    destruct (IH p1) as (p' & Hr & Hq); [lia|by apply (internal_inv p)|]. exists p'. split; [by eapply rtc_l|done].
  - exists p. split; [constructor|]. intros t x Hx. destruct (decide (x = WtBlocked)) as [|Hb]; [done|].
    destruct Hno. by exists t, x.
Qed.

(** ** At rest *)

Lemma msum_all_zero (f : pc -> Z) (m : gmap nat pc) :
  f WtBlocked = 0 -> (forall t x, m !! t = Some x -> x = WtBlocked) -> msum f m = 0.
Proof. intros Hf Hm. apply msum_const0. intros t x Hx. by rewrite (Hm t x Hx). Qed.

Lemma counts_empty l : exits_of l = 0 -> reals_of l = 0 -> l = [].
Proof.
  destruct l as [|w l]; [done|]. rewrite exits_cons, reals_cons. intros He Hr.
  pose proof (exits_nonneg l). pose proof (reals_nonneg l). destruct (func w =? NULL); lia.
Qed.

(** When everybody sleeps and somebody is left, no item is. *)
Lemma rest_empty p t x :
  live_inv p -> (forall t x, thr p !! t = Some x -> x = WtBlocked) -> thr p !! t = Some x ->
  (forall i l, items (sh p) !! i = Some l -> l = []) /\
  forall w, func w <> NULL -> occ w (finished (sh p)) = occ w (added p).
Proof.
  intros [[_ _ _ Hi] Hw _ _] Hall Hx.
  assert (Hn : need (sh p) <= 0).
  { rewrite <- (msum_all_zero awake_at (thr p)), <- (Z.add_0_r (msum _ _)) by done.
    rewrite <- (msum_all_zero flight_at (thr p)) by done. apply (wi_sleep _ Hw).
    assert (Hg : forall z, 0 <= blocked_at z) by by intros [].
    pose proof (msum_ge blocked_at _ _ _ Hg Hx) as Hge. rewrite (Hall t x Hx) in Hge. simpl in Hge. lia. }
  destruct (need_nonneg (sh p)) as [H1 H2]. unfold need in Hn.
  assert (He : forall i l, items (sh p) !! i = Some l -> l = []).
  { intros i l Hl. pose proof (msum_ge exits_of _ _ _ exits_nonneg Hl). pose proof (msum_ge reals_of _ _ _ reals_nonneg Hl).
    pose proof (exits_nonneg l). pose proof (reals_nonneg l). unfold exits, reals in *. apply counts_empty; lia. }
  split; [done|]. intros w Hf. rewrite (Hi w Hf), (msum_all_zero (holds_at w)) by done.
  rewrite (msum_const0 (occ w)); [lia|]. intros i l Hl. by rewrite (He i l Hl).
Qed.

(** ** Workers that stay *)

(** Workers that have not been told to exit, less the calls of [worker_stop] under way. *)
Definition stays_at (x : pc) : Z :=
  match x with
  | MsMtx | PuLock KStop _ _ | PuCrit KStop _ _ | PuOr KStop _ _ | PuInsert KStop _ _ => -1
  | _ => if is_worker x && negb (doomed x) then 1 else 0
  end.

(** The workers that will be left when all exit events have been taken. *)
Definition surplus (p : pool) : Z := msum stays_at (thr p) - exits (sh p).

Lemma pstep_surplus N ok s x s' y :
  pstep N ok s x = Some (s', y) -> local_ok s x -> oat stays_at y - exits s' = stays_at x - exits s.
Proof.
  intros H Hl. destruct x; try destruct c; try destruct k; pstep_cases H; simpl in *; wake_counts;
    try lia; destruct_and?; subst; simpl in *;
    repeat match goal with
    | |- context [func ?w =? NULL] => destruct (Z.eqb_spec (func w) NULL)
    | H : context [func ?w =? NULL] |- _ => destruct (Z.eqb_spec (func w) NULL)
    end; simpl in *; try lia; try done.
  all: naive_solver.
Qed.

Lemma internal_surplus p p' : live_inv p -> pool_internal p p' -> surplus p <= surplus p'.
Proof.
  intros [[_ Hmk _ _] _ _ _] Hst. unfold surplus.
  destruct Hst as [t x ok s' y Hx Hb Hp|t m Hx Hw|t t' Hx Hn]; simpl.
  - rewrite (msum_after _ _ _ _ _ Hx).
    pose proof (pstep_surplus _ _ _ _ _ _ Hp (mi_local _ Hmk t x Hx)). lia.
  - destruct Hw as [t' Ht'|_]; [|rewrite (msum_insert _ _ _ _ _ Hx); simpl; lia].
    rewrite (msum_insert stays_at _ t PuSignal), (msum_insert _ _ _ _ _ Ht'); [simpl; lia|].
    rewrite lookup_insert_ne; congruence.
  - rewrite msum_insert_new, (msum_delete stays_at _ _ _ Hx); [simpl; lia|]. rewrite lookup_delete_None. auto.
Qed.

Lemma internal_rtc_surplus p p' : rtc pool_internal p p' -> live_inv p -> surplus p <= surplus p'.
Proof.
  induction 1 as [|p p1 p2 Hst _ IH]; intros Hinv; [done|].
  pose proof (internal_surplus _ _ Hinv Hst). destruct (internal_inv _ _ Hinv Hst) as [Hinv1 _].
  specialize (IH Hinv1). lia.
Qed.

Lemma surplus_thread p : 0 < surplus p -> thr p <> ∅.
Proof.
  intros Hs Ht. unfold surplus in Hs. rewrite Ht, msum_empty in Hs. destruct (need_nonneg (sh p)). lia.
Qed.

(** ** The theorem *)

(** C3.  The pool finishes its work.  With [PWQ_SPIN_THREADS] at 0 (the default), from every
    state that can be reached (no queue having been created before all others while an
    exit event waited), once a queue exists, no queue is being created and no more calls
    begin: every step makes a measure smaller, whatever the schedule; a state of rest is
    reached; and at rest every thread that is left is a worker asleep on
    [wqlist_has_work].  If there is one, which is certain when more workers were alive than
    had been told to exit, the queues are empty and every item ever submitted has been
    executed, as often as it was submitted. *)
Theorem pool_completes p :
  calm_reachable 0 p -> first_queue (items (sh p)) <> None -> no_creation p ->
  (forall p' p'', rtc pool_internal p p' -> pool_internal p' p'' -> 0 <= measure p'' < measure p') /\
  (exists p', rtc pool_internal p p' /\ forall p'', ~ pool_internal p' p'') /\
  (forall p', rtc pool_internal p p' -> (forall p'', ~ pool_internal p' p'') ->
     (forall t x, thr p' !! t = Some x -> x = WtBlocked) /\
     (0 < surplus p \/ thr p' <> ∅ ->
        (forall i l, items (sh p') !! i = Some l -> l = []) /\
        forall w, func w <> NULL -> occ w (finished (sh p')) = occ w (added p))).
Proof.
  intros Hr Hq Hno. destruct (wake_reachable 0 p Hr) as [Hp Hw].
  assert (Hinv : live_inv p) by done. split_and!.
  - intros p' p'' Hrt Hst. destruct (internal_rtc_inv _ _ Hrt Hinv) as [Hinv' _].
    split; [apply measure_nonneg|by apply internal_measure].
  - destruct (internal_run_down (Z.to_nat (measure p + 1)) p) as (p' & Hrt & Hall); [|done|].
    { pose proof (measure_nonneg p). lia. }
    exists p'. split; [done|]. intros p'' [t x ok s' y Hx Hb _|t m Hx _|t t' Hx _]; by apply Hall in Hx.
  - intros p' Hrt Hstuck. destruct (internal_rtc_inv _ _ Hrt Hinv) as [Hinv' <-].
    assert (Hall : forall t x, thr p' !! t = Some x -> x = WtBlocked).
    { intros t x Hx. destruct (decide (x = WtBlocked)) as [|Hb]; [done|].
      destruct (internal_progress p' t x Hinv' Hx Hb) as [p'' Hst]. by destruct (Hstuck p''). }
    split; [done|]. intros Hs. assert (Ht : thr p' <> ∅).
    { destruct Hs as [Hs|]; [|done]. apply surplus_thread.
      pose proof (internal_rtc_surplus _ _ Hrt Hinv). lia. }
    apply map_choose in Ht as (t & x & Hx). by apply (rest_empty p' t x).
Qed.

(** A worker that has just been woken for an item. *)
Lemma pool_completes_witness :
  calm_reachable 0 ex_woken /\ surplus ex_woken = 1 /\
  exists p', rtc pool_internal ex_woken p' /\ occ (ex_item 7) (finished (sh p')) = 1.
Proof.
  split; [exact ex_woken_calm|]. split; [by vm_compute|].
  assert (Hno : no_creation ex_woken).
  { intros t x Hx. assert (Hm : bool_decide (map_Forall (fun _ x => creates x = false) (thr ex_woken)) = true)
      by by vm_compute.
    apply bool_decide_eq_true in Hm. exact (Hm t x Hx). }
  assert (Hq : first_queue (items (sh ex_woken)) <> None) by (vm_compute; discriminate).
  destruct (pool_completes ex_woken ex_woken_calm Hq Hno) as (_ & (p' & Hr & Hs) & H).
  exists p'. split; [exact Hr|]. destruct (H p' Hr Hs) as [_ He].
  destruct He as [_ Ho]; [left; by vm_compute|]. rewrite Ho; [by vm_compute|discriminate].
Defined.
