(* ===== verification/PoolMem.v ===== *)
(** * The worker pool over memory (src/posix/manager.c, src/api.c, src/witem_cache.c)

    Pool.v interleaves the threads of the pool over queues that are lists of items.  Here
    the same threads work on memory: the queues are STAILQs (Stailq.v), a thread holds the
    address of its item, items come from an allocator with the interface of WitemCache.v
    and go back to it with [witem_free], whose call is a step of its own.  What runs between
    the lock and the unlock of a queue's spin lock is cut at its accesses to [wqlist_mask].

    A thread is a position of Pool.v with the variable [witem]; the item that a position of
    Pool.v carries is not used here, it is read through [witem]. *)

From stdpp Require Import base gmap list.
From Stdlib Require Import ZArith Lia.
From S2P Require Import Prelude Types Stailq Places WitemCache Manager ManagerMem Pool PoolInv.

(** ** Threads *)

Inductive thread :=
| At (x : pc) (witem : ptr)
| Freeing (witem : ptr) (exits : bool)   (* witem_free(witem), of worker_main or of an exiting worker *)
| Exiting.                               (* pthread_exit: the destructor of the cache *)

(** In the place of the item in a position. *)
Definition hole : work := Work NULL NULL NULL 0 0 NULL.

(** Whether [witem] is an item in the hands of the thread. *)
Definition holds (x : pc) : bool :=
  match x with
  | ScReset _ _ _ | ScUnlock _ _ (Some _) | SpPost _ | SpDec (Some _) | WtUnlock _ | WtPost _ | ExIdle | ExCount
  | WkDec _ | WkRun _ | WkInc | PuLock _ _ _ | PuCrit _ _ _ | PuOr _ _ _ | PuInsert _ _ _ | MsMtx => true
  | _ => false
  end.
Definition owned (th : thread) : option ptr :=
  match th with
  | At x e => if holds x then Some e else None
  | Freeing e _ => Some e
  | Exiting => None
  end.

(** The head of the queue in slot [i]. *)
Definition head_of (i : nat) : Z := Z.of_nat i.

Section PoolMem.
(** [N] is [PWQ_SPIN_THREADS]. *)
Context {A : Type} `{WitemAllocatorLaws A} (N : Z).

(** ** State *)

Record pmem := PMem {
  pm_sh : shared;           (* masks, locks and counters; of [items] only which queues there are *)
  pm_q : qmem;              (* the queues *)
  pm_al : A;                (* the allocator with the items *)
  pm_exec : list (Z * Z)    (* the calls of func(func_arg) *)
}.

Definition heap (s : pmem) : gmap ptr work := wa_heap (pm_al s).
Definition with_sh (x : shared) (s : pmem) : pmem := PMem x (pm_q s) (pm_al s) (pm_exec s).
Definition with_q (q : qmem) (s : pmem) : pmem := PMem (pm_sh s) q (pm_al s) (pm_exec s).
Definition with_al (al : A) (f : gmap Z ptr -> gmap Z ptr) (s : pmem) : pmem :=
  PMem (pm_sh s) (set_links f (pm_q s)) al (pm_exec s).
Definition executes (fa : Z * Z) (s : pmem) : pmem := PMem (pm_sh s) (pm_q s) (pm_al s) (pm_exec s ++ [fa]).

(** ** One step of a thread *)

(** [Blocks]: the step is not enabled (a lock is taken, nothing woke the thread). *)
Definition mem_step (ok : bool) (s : pmem) (x : pc) (witem : ptr) : outcome (pmem * option thread) :=
  match x with
  | ScCrit c i =>
      let* e := STAILQ_FIRST (head_of i) (pm_q s) in
      if negb (e =? NULL) then
        let* w := deref (heap s !! e) in
        if negb (skip c && (func w =? NULL)) then
          let* q := STAILQ_REMOVE_HEAD (head_of i) (pm_q s) in
          let* b := STAILQ_EMPTY (head_of i) q in
          Ok (with_q q s, Some (At (if b : bool then ScReset c i hole else ScUnlock c i (Some hole)) e))
        else Ok (s, Some (At (ScUnlock c i None) NULL))
      else Ok (s, Some (At (ScUnlock c i None) NULL))
  | PuCrit KAdd w i =>
      let* b := STAILQ_EMPTY (head_of i) (pm_q s) in
      Ok (s, Some (At (if b : bool then PuOr KAdd w i else PuInsert KAdd w i) witem))
  | PuCrit KStop w i => Ok (s, Some (At (PuOr KStop w i) witem))
  | PuInsert k _ i =>
      let* q := STAILQ_INSERT_TAIL (head_of i) witem (pm_q s) in
      Ok (with_q q s, Some (At (PuUnlock k i) NULL))
  | WtPost w =>
      let* it := deref (heap s !! witem) in
      Ok (with_sh (post_if_last (pm_sh s)) s, Some (At (if func it =? NULL then ExIdle else WkDec w) witem))
  | WkRun _ =>
      let* it := deref (heap s !! witem) in
      Ok (executes (func it, func_arg it) s, Some (At WkInc witem))
  | _ =>
      match pstep N ok (pm_sh s) x with
      | None => Blocks
      | Some (s', y) =>
          Ok (with_sh s' s,
              match x with
              | WkInc => Some (Freeing witem false)
              | ExCount => Some (Freeing witem true)
              | _ => (fun y => At y witem) <$> y
              end)
      end
  end.

Definition thread_step (ok : bool) (t : nat) (s : pmem) (th : thread) : outcome (pmem * option thread) :=
  match th with
  | At x e => mem_step ok s x e
  | Freeing e exits =>
      let* al := wa_free (Z.of_nat t) e (pm_al s) in
      Ok (with_al al (delete e) s, Some (if exits : bool then Exiting else At (ScRead CTop) NULL))
  | Exiting => let* al := wa_cleanup (Z.of_nat t) (pm_al s) in Ok (with_al al (fun x => x) s, None)
  end.

(** ** The pool *)

Record mpool := MPool { mst : pmem; mthr : gmap nat thread; m_added : list (Z * Z) }.

(** [pthread_cond_signal(&wqlist_has_work)] *)
Inductive mwakes (m : gmap nat thread) : gmap nat thread -> Prop :=
| MWakesOne t e : m !! t = Some (At WtBlocked e) -> mwakes m (<[t := At WtMtx e]> m)
| MWakesNone : (forall t e, m !! t <> Some (At WtBlocked e)) -> mwakes m m.

Definition room (m : gmap nat thread) : Prop := msum (fun _ => 1) m < THREAD_LIMIT.

(** The head of a new queue, after [STAILQ_INIT]. *)
Definition new_head (i : nat) (q : qmem) : qmem :=
  QMem (<[head_of i := NULL]> (q_first q)) (<[head_of i := CFirst (head_of i)]> (q_last q)) (q_next q).

(** The steps of Pool.v on memory.  A submission, and [worker_stop], begin with
    [witem_alloc]; a thread of a client may exit between its calls. *)
Inductive mpool_step (c : mpool) : mpool -> Prop :=
| MpMove t th ok s' th' :
    mthr c !! t = Some th -> thread_step ok t (mst c) th = Ok (s', Some th') ->
    mpool_step c (MPool s' (<[t := th']> (mthr c)) (m_added c))
| MpEnd t th ok s' :
    mthr c !! t = Some th -> thread_step ok t (mst c) th = Ok (s', None) ->
    mpool_step c (MPool s' (delete t (mthr c)) (m_added c))
| MpSignal t e m :
    mthr c !! t = Some (At PuSignal e) -> mwakes (mthr c) m ->
    mpool_step c (MPool (mst c) (<[t := At PuEnd e]> m) (m_added c))
| MpCreate t t' e :
    mthr c !! t = Some (At MwCreate e) -> mthr c !! t' = None ->
    mpool_step c (MPool (mst c) (<[t' := At WkStart NULL]> (delete t (mthr c))) (m_added c))
| MpSubmit t i f a ans e al :
    mthr c !! t = None -> room (mthr c) -> f <> NULL -> is_Some (items (pm_sh (mst c)) !! i) ->
    answers_ok ans (dom (heap (mst c))) -> wa_alloc (Z.of_nat t) f a ans (pm_al (mst c)) = Ok (e, al) ->
    mpool_step c (MPool (with_al al <[e := NULL]> (mst c)) (<[t := At (PuLock KAdd hole i) e]> (mthr c))
                    (m_added c ++ [(f, a)]))
| MpStop t ans e al :
    mthr c !! t = None -> room (mthr c) ->
    answers_ok ans (dom (heap (mst c))) -> wa_alloc (Z.of_nat t) NULL NULL ans (pm_al (mst c)) = Ok (e, al) ->
    mpool_step c (MPool (with_al al <[e := NULL]> (mst c)) (<[t := At MsMtx e]> (mthr c)) (m_added c))
| MpStart t :
    mthr c !! t = None -> room (mthr c) ->
    mpool_step c (MPool (mst c) (<[t := At MwPend NULL]> (mthr c)) (m_added c))
| MpNewQueue t i :
    mthr c !! t = None -> room (mthr c) -> (i < PTHREAD_WORKQUEUE_MAX)%nat ->
    mpool_step c (MPool (mst c) (<[t := At (CrMtx i) NULL]> (mthr c)) (m_added c))
| MpInstall t e i s' :
    mthr c !! t = Some (At (CrStore i) e) -> store_queue i (pm_sh (mst c)) = Some s' ->
    mpool_step c (MPool (with_q (new_head i (pm_q (mst c))) (with_sh s' (mst c))) (<[t := At PuEnd e]> (mthr c))
                    (m_added c))
| MpClientExit t al :
    mthr c !! t = None -> wa_cleanup (Z.of_nat t) (pm_al (mst c)) = Ok al ->
    mpool_step c (MPool (with_al al (fun x => x) (mst c)) (mthr c) (m_added c)).

(** After initialisation: no queue, no thread, no item. *)
Definition mpool_start : mpool :=
  MPool (PMem (Shared ∅ 0 ∅ false 0 0 0 0 0 0 []) (QMem ∅ ∅ ∅) wa_init []) ∅ [].

Definition mpool_reachable (c : mpool) : Prop := rtc mpool_step mpool_start c.

(** ** The pool of lists that a pool over memory stands for *)

Definition blank (s : shared) : shared :=
  Shared ((fun _ => []) <$> items s) (mk s) (held s) (mtx s) (n_idle s) (n_count s) (n_pend s) (n_spin s)
    (n_posts s) (n_failed s) [].

Definition fill (w : work) (x : pc) : pc :=
  match x with
  | ScReset c i _ => ScReset c i w
  | ScUnlock c i (Some _) => ScUnlock c i (Some w)
  | SpPost _ => SpPost w
  | SpDec (Some _) => SpDec (Some w)
  | WtUnlock _ => WtUnlock w
  | WtPost _ => WtPost w
  | WkDec _ => WkDec w
  | WkRun _ => WkRun w
  | PuLock k _ i => PuLock k w i
  | PuCrit k _ i => PuCrit k w i
  | PuOr k _ i => PuOr k w i
  | PuInsert k _ i => PuInsert k w i
  | x => x
  end.

(** The position in Pool.v of a thread: with the contents of its item. *)
Definition th_sim (h : gmap ptr work) (th : option thread) (y : option pc) : Prop :=
  match th with
  | Some (At x e) =>
      exists w, y = Some (fill w x) /\ (holds x = true -> item_at h e w) /\ (x = MsMtx -> w = exit_event)
  | Some (Freeing _ false) => y = Some (ScRead CTop)
  | _ => y = None
  end.

Definition call_of (w : work) : Z * Z := (func w, func_arg w).

Record psim (Q : gmap Z (list ptr)) (live : gset ptr) (c : mpool) (p : pool) : Prop := {
  ps_sh : pm_sh (mst c) = blank (sh p);
  ps_q : queues_repr Q (pm_q (mst c));
  ps_items i l : items (sh p) !! i = Some l ->
    exists es, Q !! head_of i = Some es /\ Forall2 (item_at (heap (mst c))) es l;
  ps_heads h es : Q !! h = Some es -> exists i, h = head_of i /\ is_Some (items (sh p) !! i);
  ps_inv : wa_inv (pm_al (mst c)) live;
  ps_placed : placed Q (omap owned (mthr c)) live;
  ps_links : dom (q_next (pm_q (mst c))) = live;
  ps_thr t : th_sim (heap (mst c)) (mthr c !! t) (thr p !! t);
  ps_exec : pm_exec (mst c) = call_of <$> finished (sh p);
  ps_added : m_added c = call_of <$> added p
}.

(** ** Lemmas *)

Lemma sim_set_thr h m m' t o y :
  (forall t, th_sim h (m !! t) (m' !! t)) -> th_sim h o y -> forall t', th_sim h (set_thr t o m !! t') (set_thr t y m' !! t').
Proof. intros Hm Ho t'. rewrite !set_thr_lookup. by case_decide. Qed.

(** The contents of the items in the hands of threads are all that matters of the heap. *)
Lemma th_sim_heap h h' th y :
  (forall e, th ≫= owned = Some e -> h' !! e = h !! e) -> th_sim h th y -> th_sim h' th y.
Proof.
  destruct th as [[x e|e b|]|]; simpl; try done. intros Hh (w & Hy & Hw & Hm). exists w. split_and!; [done| |done].
  intros Hx. eapply item_at_heap; [|by apply Hw]. apply Hh. by rewrite Hx.
Qed.

(** *** The positions that do not touch an item *)

Definition delegated (x : pc) : bool :=
  match x with ScCrit _ _ | PuCrit _ _ _ | PuInsert _ _ _ | WtPost _ | WkRun _ => false | _ => true end.

Lemma first_queue_blank (q : gmap nat (list work)) : first_queue ((fun _ => []) <$> q) = first_queue q.
Proof. apply first_queue_ext. intros j. rewrite lookup_fmap. by rewrite fmap_is_Some. Qed.

Lemma pstep_blank ok s x w :
  delegated x = true -> (x = MsMtx -> w = exit_event) ->
  match pstep N ok s (fill w x) with
  | Some (s', y') =>
      items s' = items s /\ finished s' = finished s /\
      exists y, pstep N ok (blank s) x = Some (blank s', y) /\ y' = fill w <$> y
  | None => pstep N ok (blank s) x = None
  end.
Proof.
  intros Hd Hw. destruct x; try done; simpl in *; unfold spin_lock, mutex_lock; simpl; rewrite ?first_queue_blank.
  all: try match goal with r : option work |- _ => destruct r end; try match goal with c : ctx |- _ => destruct c end; simpl.
  all: repeat (case_decide; simpl); try destruct (Pool.mtx s); simpl; rewrite ?first_queue_blank;
    try destruct (first_queue _) eqn:?; simpl;
    repeat (case_match; simpl); simplify_eq; try done; rewrite ?Hw by done; eauto 10.
Qed.

(** What becomes of the item in the hands of the thread. *)
Lemma pstep_holds ok s x s1 y :
  delegated x = true -> pstep N ok s x = Some (s1, y) ->
  match x with
  | WkInc => y = Some (ScRead CTop)
  | ExCount => y = None
  | _ => match y with Some y => holds y = holds x /\ y <> MsMtx | None => holds x = false end
  end.
Proof.
  intros Hd. destruct x; try done; simpl; unfold spin_lock, mutex_lock; simpl.
  all: try match goal with r : option work |- _ => destruct r end; try match goal with c : ctx |- _ => destruct c end; simpl.
  all: repeat (case_decide || case_match); intros; simplify_option_eq; repeat case_match; done.
Qed.

(** *** One step of a thread *)

Section Thread.
Context (Q : gmap Z (list ptr)) (live : gset ptr) (c : mpool) (p : pool).
Hypothesis Hs : psim Q live c p.
Hypothesis Hinv : pool_inv N p.

Lemma pool_move ok t x s' y :
  thr p !! t = Some x -> pstep N ok (sh p) x = Some (s', y) -> pool_step N p (Pool s' (set_thr t y (thr p)) (added p)).
Proof. intros Ht E. destruct y; [by eapply (PsMove _ _ _ x)|by eapply (PsEnd _ _ _ x)]. Qed.

(** A step that leaves the queues and the items alone. *)
Lemma psim_keep t s' o y sh' :
  omap owned (mthr c) !! t = o ≫= owned -> th_sim (heap (mst c)) o y ->
  pm_sh s' = blank sh' -> items sh' = items (sh p) -> pm_q s' = pm_q (mst c) -> pm_al s' = pm_al (mst c) ->
  pm_exec s' = call_of <$> finished sh' ->
  psim Q live (MPool s' (set_thr t o (mthr c)) (m_added c)) (Pool sh' (set_thr t y (thr p)) (added p)).
Proof.
  intros Ho Hy H1 H2 H3 H4 H5. destruct Hs as [S1 S2 S3 S4 S5 S6 S7 S8 S9 S10].
  unfold heap in *. split; simpl; unfold heap; rewrite ?H2, ?H3, ?H4; try done.
  - by rewrite omap_set_thr, set_thr_same.
  - by apply sim_set_thr.
Qed.

Lemma psim_local t th s' o y sh' :
  mthr c !! t = Some th -> o ≫= owned = owned th -> th_sim (heap (mst c)) o y ->
  pm_sh s' = blank sh' -> items sh' = items (sh p) -> pm_q s' = pm_q (mst c) -> pm_al s' = pm_al (mst c) ->
  pm_exec s' = call_of <$> finished sh' ->
  psim Q live (MPool s' (set_thr t o (mthr c)) (m_added c)) (Pool sh' (set_thr t y (thr p)) (added p)).
Proof. intros Ht Ho. apply psim_keep. by rewrite (hold_lookup _ _ _ _ Ht). Qed.

(** A thread at [x] stands for [x] with the contents of its item. *)
Lemma at_pos t x e :
  mthr c !! t = Some (At x e) ->
  exists w, thr p !! t = Some (fill w x) /\ (holds x = true -> item_at (heap (mst c)) e w) /\
    (x = MsMtx -> w = exit_event) /\ local_ok (sh p) (fill w x).
Proof.
  intros Ht. pose proof (ps_thr _ _ _ _ Hs t) as Hp. rewrite Ht in Hp. destruct Hp as (w & Hp & Hw & Hm).
  exists w. split_and!; try done. by eapply (mi_local _ (pv_mask _ _ Hinv)).
Qed.

(** The queue in slot [i]. *)
Lemma queue_at i l :
  items (sh p) !! i = Some l ->
  exists es, Q !! head_of i = Some es /\ Forall2 (item_at (heap (mst c))) es l /\
    STAILQ_FIRST (head_of i) (pm_q (mst c)) = Ok (hd_or es NULL) /\
    STAILQ_EMPTY (head_of i) (pm_q (mst c)) = Ok (bool_decide (l = [])).
Proof.
  intros Hi. destruct (ps_items _ _ _ _ Hs i l Hi) as (es & He & Hf). exists es.
  destruct (queue_views _ _ _ _ (ps_q _ _ _ _ Hs) He) as (H1 & H2 & _).
  by rewrite H2, (Forall2_empty _ es l Hf).
Qed.

(** What is shown of a step: it does not fault, and Pool.v follows. *)
Definition follows (t : nat) (y : outcome (pmem * option thread)) : Prop :=
  match y with
  | Ok (s', o) =>
      exists Q' live' p', rtc (pool_step N) p p' /\ psim Q' live' (MPool s' (set_thr t o (mthr c)) (m_added c)) p'
  | Blocks => True
  | Faults | Aborts => False
  end.

Lemma delegated_step ok t x e :
  mthr c !! t = Some (At x e) -> delegated x = true -> follows t (mem_step ok (mst c) x e).
Proof.
  intros Ht Hd. destruct (at_pos t x e Ht) as (w & Hp & Hw & Hm & _).
  assert (mem_step ok (mst c) x e =
    match pstep N ok (pm_sh (mst c)) x with
    | None => Blocks
    | Some (s', y) =>
        Ok (with_sh s' (mst c),
            match x with
            | WkInc => Some (Freeing e false) | ExCount => Some (Freeing e true) | _ => (fun y => At y e) <$> y
            end)
    end) as -> by (by destruct x).
  rewrite (ps_sh _ _ _ _ Hs). pose proof (pstep_blank ok (sh p) x w Hd Hm) as Hb.
  destruct (pstep N ok (sh p) (fill w x)) as [[s' y']|] eqn:E; [|by rewrite Hb].
  destruct Hb as (Hi & Hfin & y & Eb & ->). rewrite Eb. simpl.
  exists Q, live, (Pool s' (set_thr t (fill w <$> y) (thr p)) (added p)). split; [by eapply rtc_once, pool_move|].
  assert (Hex : pm_exec (mst c) = call_of <$> finished s') by (rewrite Hfin; apply Hs).
  pose proof (pstep_holds ok _ _ _ _ Hd Eb) as Hh.
  eapply psim_local; try done.
  - assert (Hgen : match y with Some y => holds y = holds x /\ y <> MsMtx | None => holds x = false end ->
      ((fun y => At y e) <$> y) ≫= owned = owned (At x e)).
    { destruct y as [y|]; simpl; [by intros [-> _]|by intros ->]. }
    destruct x; try (by apply Hgen); done.
  - assert (Hgen : match y with Some y => holds y = holds x /\ y <> MsMtx | None => holds x = false end ->
      th_sim (heap (mst c)) ((fun y => At y e) <$> y) (fill w <$> y)).
    { destruct y as [y|]; simpl; [|done]. intros [Hy Hne]. exists w. rewrite Hy. by split_and!. }
    destruct x; try (by apply Hgen); by subst y.
Qed.

(** *** The positions that touch an item *)

Lemma blank_put i l l' (s : shared) : items s !! i = Some l -> blank (put_items i l' s) = blank s.
Proof.
  intros Hi. unfold blank, put_items. simpl. f_equal. rewrite fmap_insert. apply insert_id. by rewrite lookup_fmap, Hi.
Qed.

(** One queue changes, and with it what one thread holds. *)
Lemma psim_queue t i l l' es q' o y :
  items (sh p) !! i = Some l -> queues_repr (<[head_of i := es]> Q) q' -> Forall2 (item_at (heap (mst c))) es l' ->
  placed (<[head_of i := es]> Q) (set_thr t (o ≫= owned) (omap owned (mthr c))) live -> dom (q_next q') = live ->
  th_sim (heap (mst c)) o y ->
  psim (<[head_of i := es]> Q) live (MPool (with_q q' (mst c)) (set_thr t o (mthr c)) (m_added c))
    (Pool (put_items i l' (sh p)) (set_thr t y (thr p)) (added p)).
Proof.
  intros Hi Hq Hf Hpl Hd Hy. destruct Hs as [S1 S2 S3 S4 S5 S6 S7 S8 S9 S10]. split; simpl; try done.
  - by rewrite (blank_put i l).
  - intros j l0 [[<- <-]|[Hne Hj]]%lookup_insert_Some; [exists es; by rewrite lookup_insert_eq|].
    destruct (S3 j l0 Hj) as (es0 & He & Hf0). exists es0. rewrite lookup_insert_ne; [done|]. unfold head_of. lia.
  - intros h es0 [[<- <-]|[Hne Hh]]%lookup_insert_Some.
    + exists i. split; [done|]. rewrite lookup_insert_eq. by eexists.
    + destruct (S4 h es0 Hh) as (j & -> & Hj). exists j. split; [done|]. rewrite lookup_insert_ne; [done|]. congruence.
  - by rewrite omap_set_thr.
  - by apply sim_set_thr.
Qed.

Lemma crit_step ok t k i e :
  mthr c !! t = Some (At (ScCrit k i) e) -> follows t (mem_step ok (mst c) (ScCrit k i) e).
Proof.
  intros Ht. destruct (at_pos t _ e Ht) as (w0 & Hp & _ & _ & l & Hi & _). simpl in Hp.
  destruct (queue_at i l Hi) as (es & He & Hf & Hfirst & _). unfold mem_step. rewrite Hfirst. cbn [obind].
  assert (Hnone : pstep N ok (sh p) (ScCrit k i) = Some (sh p, Some (ScUnlock k i None)) ->
    follows t (Ok (mst c, Some (At (ScUnlock k i None) NULL)))).
  { intros E. exists Q, live, (Pool (sh p) (set_thr t (Some (ScUnlock k i None)) (thr p)) (added p)).
    split; [by eapply rtc_once, pool_move|]. eapply psim_local; try done; [by exists hole|apply Hs|apply Hs]. }
  inversion Hf as [|e1 w es' rest (w' & Hw & Ha) Hf']; subst; simpl; [by apply Hnone; simpl; rewrite Hi|].
  pose proof (ps_q _ _ _ _ Hs) as Hq. destruct (proj1 Hq _ _ He) as (_ & _ & (Hnn & _) & _).
  rewrite (proj2 (Z.eqb_neq e1 NULL) Hnn), Hw. cbn [negb deref obind]. rewrite (proj1 Ha).
  destruct (negb (skip k && (func w =? NULL))) eqn:Ek; [|by apply Hnone; simpl; rewrite Hi; simpl; rewrite Ek].
  destruct (queue_pop _ _ _ _ _ Hq He) as (q' & -> & Hq' & Hdom). cbn [obind].
  destruct (queue_views _ _ _ _ Hq' (lookup_insert_eq _ _ _)) as (_ & -> & _). cbn [obind].
  rewrite (Forall2_empty _ es' rest Hf').
  set (y := match rest with [] => ScReset k i w | _ => ScUnlock k i (Some w) end).
  exists (<[head_of i := es']> Q), live, (Pool (put_items i rest (sh p)) (set_thr t (Some y) (thr p)) (added p)). split.
  - eapply rtc_once, (pool_move ok t (ScCrit k i)); [done|]. simpl. rewrite Hi. simpl. rewrite Ek. by destruct rest.
  - eapply psim_queue; [done|done|done| |by rewrite Hdom; apply Hs|].
    + assert (Hown : Some (At (if bool_decide (rest = []) then ScReset k i hole else ScUnlock k i (Some hole)) e1) ≫= owned
        = Some e1) by (by case_bool_decide). rewrite Hown.
      apply (placed_pop Q _ live t); [apply Hs|by eapply repr_disjoint|done|by rewrite (hold_lookup _ _ _ _ Ht)].
    + exists w. split_and!; [by destruct rest|by intros _; exists w'|by destruct rest].
Qed.

Lemma insert_step ok t k w0 i e :
  mthr c !! t = Some (At (PuInsert k w0 i) e) -> follows t (mem_step ok (mst c) (PuInsert k w0 i) e).
Proof.
  intros Ht. destruct (at_pos t _ e Ht) as (w & Hp & Hw & _ & [l Hi] & _). specialize (Hw eq_refl). simpl in Hp.
  pose proof (hold_lookup owned _ _ _ Ht) as Hh. simpl in Hh. destruct (queue_at i l Hi) as (es & He & Hf & _).
  pose proof (placed_holding _ _ _ _ _ (ps_placed _ _ _ _ Hs) Hh) as Hl.
  destruct (queue_push _ _ _ _ e (ps_q _ _ _ _ Hs) He) as (q' & Eq & Hq' & Hdom).
  { split_and!; [apply (wa_live _ _ _ (ps_inv _ _ _ _ Hs) Hl)|by rewrite (ps_links _ _ _ _ Hs)|].
    intros h l0. by apply (pl_held _ _ _ (ps_placed _ _ _ _ Hs) t). }
  unfold mem_step. rewrite Eq. simpl.
  exists (<[head_of i := es ++ [e]]> Q), live, (Pool (put_items i (l ++ [w]) (sh p)) (set_thr t (Some (PuUnlock k i)) (thr p)) (added p)).
  split; [eapply rtc_once, (pool_move ok t (PuInsert k w i)); [done|]; simpl; by rewrite Hi|].
  eapply psim_queue; [done|done| | |by rewrite Hdom; apply Hs|by exists hole].
  - apply Forall2_app; [done|]. by repeat constructor.
  - apply (placed_push Q _ live t); [apply Hs|done|done].
Qed.

(** The producer looks whether the queue is empty. *)
Lemma look_step ok t k w0 i e :
  mthr c !! t = Some (At (PuCrit k w0 i) e) -> follows t (mem_step ok (mst c) (PuCrit k w0 i) e).
Proof.
  intros Ht. destruct (at_pos t _ e Ht) as (w & Hp & Hw & _ & [l [Hi _]] & _). specialize (Hw eq_refl). simpl in Hp.
  destruct (queue_at i l Hi) as (es & _ & _ & _ & Hemp).
  set (y := match k, l with KAdd, _ :: _ => PuInsert k hole i | _, _ => PuOr k hole i end).
  assert (Hst : pstep N ok (sh p) (PuCrit k w i) = Some (sh p, Some (fill w y))).
  { simpl. rewrite Hi. simpl. by destruct k, l. }
  assert (mem_step ok (mst c) (PuCrit k w0 i) e = Ok (mst c, Some (At (match k, l with KAdd, _ :: _ => PuInsert k w0 i | _, _ => PuOr k w0 i end) e)))
    as -> by (destruct k; simpl; [rewrite Hemp; by destruct l|done]).
  exists Q, live, (Pool (sh p) (set_thr t (Some (fill w y)) (thr p)) (added p)). split; [by eapply rtc_once, pool_move|].
  eapply psim_local; try done; [by destruct k, l| |apply Hs|apply Hs].
  exists w. split_and!; [by destruct k, l|done|by destruct k, l].
Qed.

(** The item is read through [witem]: by the worker that has left [wqlist_mtx], and by the
    call of the function. *)
Lemma post_step ok t w0 e :
  mthr c !! t = Some (At (WtPost w0) e) -> follows t (mem_step ok (mst c) (WtPost w0) e).
Proof.
  intros Ht. destruct (at_pos t _ e Ht) as (w & Hp & Hw & _). destruct (Hw eq_refl) as (w' & Hl & Ha). simpl in Hp.
  unfold mem_step. rewrite Hl. simpl. rewrite (proj1 Ha).
  exists Q, live, (Pool (post_if_last (sh p)) (set_thr t (Some (if func w =? NULL then ExIdle else WkDec w)) (thr p)) (added p)).
  split; [by eapply rtc_once, (pool_move ok t (WtPost w))|].
  eapply psim_local; try done; [by case_match| | |apply Hs].
  - exists w. split_and!; [by case_match|intros _; by exists w'|by case_match].
  - simpl. rewrite (ps_sh _ _ _ _ Hs). done.
Qed.

Lemma run_step ok t w0 e :
  mthr c !! t = Some (At (WkRun w0) e) -> follows t (mem_step ok (mst c) (WkRun w0) e).
Proof.
  intros Ht. destruct (at_pos t _ e Ht) as (w & Hp & Hw & _). destruct (Hw eq_refl) as (w' & Hl & Ha). simpl in Hp.
  unfold mem_step. rewrite Hl. simpl. pose proof Ha as (Hf & Hfa & _). rewrite Hf, Hfa.
  exists Q, live, (Pool (put_finished w (sh p)) (set_thr t (Some WkInc) (thr p)) (added p)).
  split; [by eapply rtc_once, (pool_move ok t (WkRun w))|].
  eapply psim_local; try done.
  - exists w. split_and!; [done|intros _; by exists w'|done].
  - simpl. rewrite (ps_sh _ _ _ _ Hs). done.
  - simpl. by rewrite (ps_exec _ _ _ _ Hs), fmap_app.
Qed.

(** *** Allocation and release *)

(** The allocator moves; the items on the queues and in the hands of the other threads stay
    as they are. *)
Lemma psim_alloc t o y al links live' added' madded' :
  wa_inv al live' -> placed Q (set_thr t (o ≫= owned) (omap owned (mthr c))) live' ->
  dom (links (q_next (pm_q (mst c)))) = live' ->
  (forall h es e, Q !! h = Some es -> e ∈ es ->
     wa_heap al !! e = heap (mst c) !! e /\ links (q_next (pm_q (mst c))) !! e = q_next (pm_q (mst c)) !! e) ->
  (forall t' e, t' <> t -> omap owned (mthr c) !! t' = Some e -> wa_heap al !! e = heap (mst c) !! e) ->
  th_sim (wa_heap al) o y -> madded' = call_of <$> added' ->
  psim Q live' (MPool (with_al al links (mst c)) (set_thr t o (mthr c)) madded') (Pool (sh p) (set_thr t y (thr p)) added').
Proof.
  intros Hi Hpl Hd Hqs Hts Hy Hadd. destruct Hs as [S1 S2 S3 S4 S5 S6 S7 S8 S9 S10].
  split; simpl; unfold heap; simpl; try done.
  - apply queues_frame; [done|]. intros h es e Hh He. by eapply Hqs.
  - intros i l Hl. destruct (S3 i l Hl) as (es & He & Hf). exists es. split; [done|].
    eapply items_heap; [|done]. intros e Hin. by eapply Hqs.
  - by rewrite omap_set_thr.
  - intros t'. rewrite !set_thr_lookup. case_decide as Et; [done|]. eapply th_sim_heap; [|apply S8].
    intros e He. apply (Hts t'); [done|]. by rewrite lookup_omap.
Qed.

Lemma free_step t e exits :
  mthr c !! t = Some (Freeing e exits) -> follows t (thread_step false t (mst c) (Freeing e exits)).
Proof.
  intros Ht. pose proof (hold_lookup owned _ _ _ Ht) as Hh. simpl in Hh. pose proof (ps_placed _ _ _ _ Hs) as Hpl.
  pose proof (ps_thr _ _ _ _ Hs t) as Hp. rewrite Ht in Hp.
  destruct (wa_free_ok (Z.of_nat t) e _ live (ps_inv _ _ _ _ Hs) (placed_holding _ _ _ _ _ Hpl Hh)) as (al & E & Hi & Hfr).
  unfold thread_step. rewrite E. cbn [obind follows].
  exists Q, (live ∖ {[e]}), (Pool (sh p) (set_thr t (thr p !! t) (thr p)) (added p)).
  split; [rewrite set_thr_same by done; by destruct p|].
  apply psim_alloc; [done| | | | | |apply Hs].
  - assert (Ho : Some (if exits then Exiting else At (ScRead CTop) NULL) ≫= owned = None) by (by destruct exits).
    rewrite Ho. apply (placed_drop_hold Q _ live t e Hpl Hh).
  - rewrite dom_delete_L. by rewrite (ps_links _ _ _ _ Hs).
  - intros h es e' Hq Hin. assert (Hne : e' <> e) by (intros ->; by eapply (pl_held _ _ _ Hpl)).
    split; [apply Hfr; [by eapply placed_queued|done]|by apply lookup_delete_ne].
  - intros t' e' Hne Ht'. apply Hfr; [by eapply placed_holding|]. intros ->. apply Hne. by eapply (pl_once _ _ _ Hpl).
  - destruct exits; simpl in *; [done|]. by exists hole.
Qed.

(** [wa_cleanup] by a thread that holds nothing. *)
Lemma cleanup_sim t o al :
  wa_cleanup (Z.of_nat t) (pm_al (mst c)) = Ok al ->
  omap owned (mthr c) !! t = o ≫= owned -> th_sim (wa_heap al) o (thr p !! t) ->
  psim Q live (MPool (with_al al (fun x => x) (mst c)) (set_thr t o (mthr c)) (m_added c)) p.
Proof.
  intros E Ho Hy. pose proof (ps_placed _ _ _ _ Hs) as Hpl.
  destruct (wa_cleanup_ok (Z.of_nat t) _ live (ps_inv _ _ _ _ Hs)) as (al' & E' & Hi & Hfr).
  rewrite E in E'. injection E' as <-.
  assert (psim Q live (MPool (with_al al (fun x => x) (mst c)) (set_thr t o (mthr c)) (m_added c))
    (Pool (sh p) (set_thr t (thr p !! t) (thr p)) (added p))) as Hp.
  { apply psim_alloc; [done|by rewrite set_thr_same|apply Hs| | |done|apply Hs].
    - intros h es e Hq Hin. split; [|done]. apply Hfr. by eapply placed_queued.
    - intros t' e _ Ht'. apply Hfr. by eapply placed_holding. }
  rewrite (set_thr_same t _ (thr p) eq_refl) in Hp. by destruct p.
Qed.

Lemma exit_step t : mthr c !! t = Some Exiting -> follows t (thread_step false t (mst c) Exiting).
Proof.
  intros Ht. pose proof (ps_thr _ _ _ _ Hs t) as Hp. rewrite Ht in Hp.
  destruct (wa_cleanup_ok (Z.of_nat t) _ live (ps_inv _ _ _ _ Hs)) as (al & E & _).
  unfold thread_step. rewrite E. cbn [obind follows]. exists Q, live, p. split; [done|].
  apply cleanup_sim; [done|by rewrite (hold_lookup _ _ _ _ Ht)|done].
Qed.

(** Every step of a thread. *)
Lemma thread_follows ok t th : mthr c !! t = Some th -> follows t (thread_step ok t (mst c) th).
Proof.
  destruct th as [x e|e exits|]; intros Ht; [|by apply free_step|by apply exit_step].
  destruct (delegated x) eqn:Hd; [by apply delegated_step|].
  destruct x; try done; [by apply crit_step|by apply post_step|by apply run_step|by apply look_step|by apply insert_step].
Qed.

(** [witem_alloc] at the beginning of a call. *)
Lemma alloc_sim t x f a ans e al added' madded' :
  mthr c !! t = None -> holds x = true -> (x = MsMtx -> f = NULL /\ a = NULL) ->
  answers_ok ans (dom (heap (mst c))) -> wa_alloc (Z.of_nat t) f a ans (pm_al (mst c)) = Ok (e, al) ->
  let w := Work NULL f a 0 0 NULL in
  madded' = call_of <$> added' ->
  psim Q ({[e]} ∪ live) (MPool (with_al al <[e := NULL]> (mst c)) (set_thr t (Some (At x e)) (mthr c)) madded')
    (Pool (sh p) (set_thr t (Some (fill w x)) (thr p)) added').
Proof.
  intros Ht Hx Hm Hans E w Hadd. pose proof (ps_placed _ _ _ _ Hs) as Hpl.
  destruct (wa_alloc_ok (Z.of_nat t) f a ans _ live (ps_inv _ _ _ _ Hs) Hans) as (e' & al' & w' & E' & He & Hw & Hini & Hi & Hfr).
  rewrite E in E'. injection E' as <- <-. apply psim_alloc; try done.
  - simpl. rewrite Hx. apply (placed_add_hold Q _ live t e Hpl He). by rewrite lookup_omap, Ht.
  - by rewrite dom_insert_L, (ps_links _ _ _ _ Hs).
  - intros h es e' Hq Hin. pose proof (placed_queued _ _ _ _ _ _ Hpl Hq Hin) as Hl. split; [by apply Hfr|].
    apply lookup_insert_ne. by intros ->.
  - intros t' e' _ Ht'. apply Hfr. by eapply placed_holding.
  - exists w. split_and!; [done| |].
    + intros _. exists w'. split; [done|]. by destruct Hini as (? & ? & ? & ? & _).
    + intros ->. by destruct (Hm eq_refl) as [-> ->].
Qed.

(** A change of the threads only. *)
Lemma psim_thread t o y :
  omap owned (mthr c) !! t = o ≫= owned -> th_sim (heap (mst c)) o y ->
  psim Q live (MPool (mst c) (set_thr t o (mthr c)) (m_added c)) (Pool (sh p) (set_thr t y (thr p)) (added p)).
Proof. intros Ho Hy. apply psim_keep; try done; apply Hs. Qed.

(** Pool.v has no more threads. *)
Lemma room_there : room (mthr c) -> threads (thr p) < THREAD_LIMIT.
Proof.
  intros Hr. eapply Z.le_lt_trans; [|exact Hr]. apply threads_le.
  intros t [y Hy]. pose proof (ps_thr _ _ _ _ Hs t) as Ht. rewrite Hy in Ht.
  destruct (mthr c !! t); [by eexists|done].
Qed.

Lemma absent t : mthr c !! t = None -> thr p !! t = None.
Proof. intros Ht. pose proof (ps_thr _ _ _ _ Hs t) as Hp. by rewrite Ht in Hp. Qed.

Lemma created i : is_Some (items (pm_sh (mst c)) !! i) <-> is_Some (items (sh p) !! i).
Proof. rewrite (ps_sh _ _ _ _ Hs). simpl. by rewrite lookup_fmap, fmap_is_Some. Qed.

(** A thread asleep in Pool.v is asleep here. *)
Lemma asleep t : thr p !! t = Some WtBlocked -> exists e, mthr c !! t = Some (At WtBlocked e).
Proof.
  intros Hp. pose proof (ps_thr _ _ _ _ Hs t) as Ht. rewrite Hp in Ht.
  destruct (mthr c !! t) as [[x e|e []|]|]; simpl in *; try done. destruct Ht as (w & Hx & _). exists e.
  destruct x; simpl in *; try done; by destruct r.
Qed.

Lemma install_sim t e i s' :
  mthr c !! t = Some (At (CrStore i) e) -> store_queue i (pm_sh (mst c)) = Some s' ->
  exists Q' p', pool_step N p p' /\
    psim Q' live (MPool (with_q (new_head i (pm_q (mst c))) (with_sh s' (mst c))) (set_thr t (Some (At PuEnd e)) (mthr c)) (m_added c)) p'.
Proof.
  intros Ht Hst. destruct (at_pos t _ e Ht) as (w & Hp & _). simpl in Hp. unfold store_queue in Hst.
  destruct (items (pm_sh (mst c)) !! i) eqn:Hi; [done|]. injection Hst as <-.
  assert (Hn : items (sh p) !! i = None).
  { destruct (items (sh p) !! i) as [l|] eqn:El; [|done]. by destruct (proj2 (created i) ltac:(by eexists)) as [? ?]; simplify_eq. }
  exists (<[head_of i := []]> Q), (Pool (put_items i [] (sh p)) (set_thr t (Some PuEnd) (thr p)) (added p)). split.
  { apply (PsInstall N p t i); [done|]. unfold store_queue. by rewrite Hn. }
  destruct Hs as [S1 [S2 S2'] S3 S4 S5 S6 S7 S8 S9 S10].
  assert (HQ : Q !! head_of i = None).
  { destruct (Q !! head_of i) as [es|] eqn:E; [|done]. destruct (S4 _ _ E) as (j & Hj & [l Hl]).
    assert (j = i) as -> by (unfold head_of in Hj; lia). congruence. }
  split; simpl; try done.
  - rewrite S1. unfold blank, put_items. simpl. by rewrite fmap_insert.
  - split.
    + intros h es [[<- <-]|[Hne Hh]]%lookup_insert_Some.
      * split_and!; simpl; [apply lookup_insert_eq|apply lookup_insert_eq|done|constructor].
      * destruct (S2 h es Hh) as (Hf & Hl & Hk & Hnd). split_and!; simpl; rewrite ?lookup_insert_ne by done; done.
    + intros h1 h2 l1 l2 x [[<- <-]|[_ H1]]%lookup_insert_Some [[<- <-]|[_ H2]]%lookup_insert_Some; [set_solver..|].
      by eapply S2'.
  - intros j l [[<- <-]|[Hne Hj]]%lookup_insert_Some; [exists []; by rewrite lookup_insert_eq|].
    destruct (S3 j l Hj) as (es & He & Hf). exists es. rewrite lookup_insert_ne; [done|]. unfold head_of. lia.
  - intros h es [[<- <-]|[Hne Hh]]%lookup_insert_Some; [exists i; rewrite lookup_insert_eq; split; [done|by eexists]|].
    destruct (S4 h es Hh) as (j & -> & Hj). exists j. split; [done|]. rewrite lookup_insert_ne; [done|]. congruence.
  - rewrite omap_set_thr, set_thr_same by (by rewrite (hold_lookup _ _ _ _ Ht)). by apply placed_add_head.
  - apply sim_set_thr; [done|]. by exists hole.
Qed.
End Thread.

(** ** Every step of the pool *)

Lemma signal_sim Q live c p t e m :
  psim Q live c p -> mthr c !! t = Some (At PuSignal e) -> mwakes (mthr c) m ->
  exists p', pool_step N p p' /\ psim Q live (MPool (mst c) (<[t := At PuEnd e]> m) (m_added c)) p'.
Proof.
  intros Hs Ht Hw. pose proof (ps_thr _ _ _ _ Hs t) as Hp. rewrite Ht in Hp. destruct Hp as (w & Hp & _). simpl in Hp.
  destruct Hw as [t1 e1 Ht1|Hno].
  - pose proof (ps_thr _ _ _ _ Hs t1) as Hp1. rewrite Ht1 in Hp1. destruct Hp1 as (w1 & Hp1 & _). simpl in Hp1.
    eexists. split; [by eapply (PsSignal _ _ t), (WakesOne _ t1)|].
    assert (H1 : psim Q live (MPool (mst c) (set_thr t1 (Some (At WtMtx e1)) (mthr c)) (m_added c))
      (Pool (sh p) (set_thr t1 (Some WtMtx) (thr p)) (added p))).
    { apply (psim_thread _ _ _ _ Hs); [by rewrite (hold_lookup _ _ _ _ Ht1)|by exists hole]. }
    apply (psim_thread _ _ _ _ H1 t (Some (At PuEnd e)) (Some PuEnd)); [|by exists hole]. simpl.
    rewrite omap_set_thr, set_thr_lookup. case_decide; [done|]. by rewrite (hold_lookup _ _ _ _ Ht).
  - eexists. split; [eapply (PsSignal _ _ t); [done|apply WakesNone]|].
    + intros t' Ht'. destruct (asleep _ _ _ _ Hs t' Ht') as [e' He']. by apply (Hno t' e').
    + apply (psim_thread _ _ _ _ Hs t (Some (At PuEnd e)) (Some PuEnd)); [by rewrite (hold_lookup _ _ _ _ Ht)|by exists hole].
Qed.

(** A call begins. *)
Lemma begin_sim Q live c p t x :
  psim Q live c p -> mthr c !! t = None -> holds x = false -> (forall w, fill w x = x) -> x <> MsMtx ->
  psim Q live (MPool (mst c) (<[t := At x NULL]> (mthr c)) (m_added c)) (Pool (sh p) (<[t := x]> (thr p)) (added p)).
Proof.
  intros Hs Ht Hx Hf Hm. apply (psim_thread _ _ _ _ Hs t (Some (At x NULL)) (Some x)).
  - simpl. by rewrite lookup_omap, Ht, Hx.
  - exists hole. rewrite Hf, Hx. by split_and!.
Qed.

Lemma mpool_step_sim Q live c p c' :
  psim Q live c p -> pool_inv N p -> mpool_step c c' ->
  exists Q' live' p', rtc (pool_step N) p p' /\ psim Q' live' c' p'.
Proof.
  intros Hs Hinv Hst. destruct Hst as [t th ok s' th' Ht E|t th ok s' Ht E|t e m Ht Hw|t t' e Ht Ht'|t i f a ans e al Ht Hr Hf Hi Hans E
    |t ans e al Ht Hr Hans E|t Ht Hr|t i Ht Hr Hi|t e i s' Ht Hst|t al Ht E].
  - pose proof (thread_follows Q live c p Hs Hinv ok t th Ht) as Hf. by rewrite E in Hf.
  - pose proof (thread_follows Q live c p Hs Hinv ok t th Ht) as Hf. by rewrite E in Hf.
  - destruct (signal_sim Q live c p t e m Hs Ht Hw) as (p' & Hp & Hs'). exists Q, live, p'. split; [by apply rtc_once|done].
  - pose proof (ps_thr _ _ _ _ Hs t) as Hp. rewrite Ht in Hp. destruct Hp as (w & Hp & _). simpl in Hp.
    pose proof (absent _ _ _ _ Hs t' Ht') as Hp'. eexists Q, live, _. split; [eapply rtc_once, (PsCreate _ _ t t'); done|].
    assert (H1 : psim Q live (MPool (mst c) (set_thr t None (mthr c)) (m_added c)) (Pool (sh p) (set_thr t None (thr p)) (added p))).
    { apply (psim_thread _ _ _ _ Hs); [by rewrite (hold_lookup _ _ _ _ Ht)|done]. }
    apply (begin_sim _ _ _ _ t' WkStart H1); try done. simpl. rewrite set_thr_lookup. by case_decide.
  - eexists Q, _, _. split; [|eapply (alloc_sim _ _ _ _ Hs t (PuLock KAdd hole i) f a); try done].
    + eapply rtc_once, (PsSubmit N p t (Work NULL f a 0 0 NULL) i);
        [by eapply absent|by eapply room_there|done|by eapply created].
    + rewrite (ps_added _ _ _ _ Hs), fmap_app. done.
  - eexists Q, _, _. split; [|eapply (alloc_sim _ _ _ _ Hs t MsMtx NULL NULL); try done; apply Hs].
    eapply rtc_once, PsManager; [by eapply absent|by eapply room_there|by left].
  - eexists Q, live, _. split; [|by eapply begin_sim]. eapply rtc_once, PsManager; [by eapply absent|by eapply room_there|by right].
  - eexists Q, live, _. split; [|by eapply begin_sim]. eapply rtc_once, PsNewQueue; [by eapply absent|by eapply room_there|done].
  - destruct (install_sim Q live c p Hs Hinv t e i s' Ht Hst) as (Q' & p' & Hp & Hs'). exists Q', live, p'.
    split; [by apply rtc_once|done].
  - exists Q, live, p. split; [done|]. pose proof (cleanup_sim _ _ _ _ Hs Hinv t None al E) as Hc.
    rewrite set_thr_same in Hc by done. apply Hc; [by rewrite lookup_omap, Ht|by eapply absent].
Qed.

Definition pool_start : pool := Pool (Shared ∅ 0 ∅ false 0 0 0 0 0 0 []) ∅ [].

Lemma start_sim : psim ∅ ∅ mpool_start pool_start /\ pool_reachable N pool_start.
Proof.
  split.
  - split; simpl; try done.
    + apply wa_init_ok.
    + split; [|done|done]. intros e. split; [set_solver|]. intros [(h & l & Hh & _)|(t & Ht)]; simplify_map_eq.
  - exists pool_start. split; [|done]. split; [by intros i l Hi|]. by split_and!.
Qed.

Lemma mpool_run_sim c c' : rtc mpool_step c c' -> forall Q live p, psim Q live c p -> pool_reachable N p ->
  exists Q' live' p', pool_reachable N p' /\ psim Q' live' c' p'.
Proof.
  induction 1 as [c|c1 c2 c3 Hst _ IH]; intros Q live p Hs Hr; [eauto|].
  destruct (mpool_step_sim Q live c1 p c2 Hs (pool_reachable_inv N p Hr) Hst) as (Q' & live' & p' & Hp & Hs').
  apply (IH Q' live' p' Hs'). destruct Hr as (p0 & Hp0 & Hr). exists p0. split; [done|]. by transitivity p.
Qed.

(** *** At rest every item was executed *)

Lemma pstep_calls ok s x s' y :
  pstep N ok s x = Some (s', y) -> finished s' = finished s \/ exists w, x = WkRun w /\ finished s' = finished s ++ [w].
Proof.
  intros E. destruct x; simpl in E; unfold spin_lock, mutex_lock in E; repeat (case_match || case_decide); simplify_option_eq;
    repeat case_match; simplify_eq; eauto.
Qed.

(** Exit events are neither submitted nor executed. *)
Lemma pool_real p :
  pool_reachable N p -> Forall (fun w => func w <> NULL) (added p) /\ Forall (fun w => func w <> NULL) (finished (sh p)).
Proof.
  intros (p0 & Hp0 & Hr). revert p Hr. refine (rtc_ind_r _ p0 _ _); [|intros p1 p2 Hr Hst [IH1 IH2]].
  { destruct Hp0 as (_ & _ & _ & _ & _ & _ & _ & _ & _ & -> & _ & ->). by split. }
  pose proof (pool_reachable_inv N p1 (ex_intro _ p0 (conj Hp0 Hr))) as Hinv.
  assert (Hmove : forall ok t x s' y, thr p1 !! t = Some x -> pstep N ok (sh p1) x = Some (s', y) ->
    Forall (fun w => func w <> NULL) (finished s')).
  { intros ok t x s' y Ht E. destruct (pstep_calls _ _ _ _ _ E) as [->|(w & -> & ->)]; [done|].
    apply Forall_app. split; [done|]. apply Forall_singleton. exact (mi_local _ (pv_mask _ _ Hinv) t _ Ht). }
  destruct Hst; simpl; split; try done; [by eapply Hmove..| |].
  - apply Forall_app. split; [done|]. by apply Forall_singleton.
  - unfold store_queue in *. case_match; by simplify_eq.
Qed.

Lemma no_holder Q live c p w :
  psim Q live c p -> omap owned (mthr c) = ∅ -> msum (holds_at w) (thr p) = 0.
Proof.
  intros Hs Ho. apply msum_const0. intros t x Hx. pose proof (ps_thr _ _ _ _ Hs t) as Ht. rewrite Hx in Ht.
  assert (Hn : mthr c !! t ≫= owned = None) by (rewrite <- lookup_omap, Ho; apply lookup_empty).
  destruct (mthr c !! t) as [[y e|e []|]|]; simpl in *; try done.
  destruct Ht as (w1 & [= ->] & _). destruct y; try done; by destruct r.
Qed.

Lemma all_executed Q live c p :
  psim Q live c p -> pool_reachable N p -> omap owned (mthr c) = ∅ ->
  (forall i l, items (sh p) !! i = Some l -> l = []) -> pm_exec (mst c) ≡ₚ m_added c.
Proof.
  intros Hs Hr Ho Hi. rewrite (ps_exec _ _ _ _ Hs), (ps_added _ _ _ _ Hs). apply fmap_Permutation, occ_same. intros w.
  destruct (pool_real p Hr) as [Ha Hf]. destruct (decide (func w = NULL)) as [Hw|Hw].
  - rewrite Forall_forall in Ha, Hf. pose proof (occ_nonneg w (added p)). pose proof (occ_nonneg w (finished (sh p))).
    destruct (decide (0 < occ w (added p))) as [Hin%occ_elem|]; [by apply Ha in Hin|].
    destruct (decide (0 < occ w (finished (sh p)))) as [Hin%occ_elem|]; [by apply Hf in Hin|]. lia.
  - rewrite (pv_items _ _ (pool_reachable_inv N p Hr) w Hw), (no_holder _ _ _ _ w Hs Ho), msum_const0; [lia|].
    intros i l Hl. by rewrite (Hi i l Hl).
Qed.

(** C4.  The pool over memory refines the pool of Pool.v, and is memory safe: under every
    interleaving of submissions, workers, the manager's calls and thread exits, for each of
    the three allocators, a reachable state stands for a reachable state of Pool.v with the
    same masks, locks and counters, whose queues and threads hold the items at the
    addresses found here, and with the same submissions and calls; no step of a thread
    touches memory that it must not (no item is used or freed after it was freed, and no
    link or head is missing); the items handed out by the allocator are exactly those on
    a queue or in the hands of one thread.  When nothing is queued and no thread holds an
    item, the allocator has every item back, and the calls that were made are those that
    were submitted, each as often. *)
Theorem pool_over_memory c :
  mpool_reachable c ->
  exists Q live p, pool_reachable N p /\ psim Q live c p /\
    (forall ok t th, mthr c !! t = Some th ->
       thread_step ok t (mst c) th <> Faults /\ thread_step ok t (mst c) th <> Aborts) /\
    (omap owned (mthr c) = ∅ -> (forall i l, items (sh p) !! i = Some l -> l = []) ->
       wa_inv (pm_al (mst c)) ∅ /\ pm_exec (mst c) ≡ₚ m_added c).
Proof.
  intros Hc. destruct start_sim as [Hs0 Hr0]. destruct (mpool_run_sim _ _ Hc _ _ _ Hs0 Hr0) as (Q & live & p & Hr & Hs).
  exists Q, live, p. split; [done|]. split; [done|]. split.
  - intros ok t th Ht. pose proof (thread_follows Q live c p Hs (pool_reachable_inv N p Hr) ok t th Ht) as Hf.
    by destruct (thread_step ok t (mst c) th).
  - intros Ht Hi. split; [|by eapply all_executed].
    rewrite <- (placed_nothing _ _ _ (ps_placed _ _ _ _ Hs)); [apply Hs| |done].
    intros h es Hh. destruct (ps_heads _ _ _ _ Hs h es Hh) as (i & -> & [l Hl]).
    destruct (ps_items _ _ _ _ Hs i l Hl) as (es' & He & Hf). rewrite (Hi i l Hl) in Hf. simplify_eq. by inversion Hf.
Qed.
End PoolMem.

(** ** A run: a queue is created, an item submitted, a worker started that executes it *)

Section Run.
Context {A : Type} `{WitemAllocatorLaws A} (N : Z).

(** Thread [t] takes [n] steps. *)
Definition mplay (t : nat) (c : mpool (A := A)) : mpool :=
  match mthr c !! t with
  | None => c
  | Some th =>
      match thread_step N true t (mst c) th with
      | Ok (s', Some th') => MPool s' (<[t := th']> (mthr c)) (m_added c)
      | Ok (s', None) => MPool s' (delete t (mthr c)) (m_added c)
      | _ => c
      end
  end.
Definition mplays (t n : nat) (c : mpool) : mpool := Nat.iter n (mplay t) c.

Lemma mplay_steps t n c : rtc (mpool_step N) c (mplays t n c).
Proof.
  induction n as [|n IH]; [done|]. simpl. etrans; [done|]. unfold mplay. change (Nat.iter n _ c) with (mplays t n c).
  destruct (mthr (mplays t n c) !! t) as [th|] eqn:Ht; [|done].
  destruct (thread_step _ _ _ _ _) as [[s' [th'|]]| | |] eqn:E; try done; apply rtc_once; [by eapply MpMove|by eapply MpEnd].
Qed.

Lemma then_step c0 c1 c2 : rtc (mpool_step N) c0 c1 -> mpool_step N c1 c2 -> rtc (mpool_step N) c0 c2.
Proof. apply rtc_r. Qed.
Lemma then_play c0 c1 t n : rtc (mpool_step N) c0 c1 -> rtc (mpool_step N) c0 (mplays t n c1).
Proof. intros Hr. etrans; [done|apply mplay_steps]. Qed.
End Run.

Section RunWitness.
Import TsdCache TsdInstance.

Definition run1 : mpool (A := tstate) :=         (* thread 1 creates a queue of priority 1 *)
  let c := mpool_start in
  let c := mplays 0 1 1 (MPool (mst c) (<[1%nat := At (CrMtx 1) NULL]> (mthr c)) (m_added c)) in
  match store_queue 1 (pm_sh (mst c)) with
  | Some s => mplays 0 1 1 (MPool (with_q (new_head 1 (pm_q (mst c))) (with_sh s (mst c)))
                              (<[1%nat := At PuEnd NULL]> (mthr c)) (m_added c))
  | None => c
  end.
Definition run2 : mpool :=                       (* thread 2 submits an item *)
  match wa_alloc 2 7 8 [Some (100, junk)] (pm_al (mst run1)) with
  | Ok (e, al) =>
      mplays 0 2 6 (MPool (with_al al <[e := NULL]> (mst run1)) (<[2%nat := At (PuLock KAdd hole 1) e]> (mthr run1))
                      (m_added run1 ++ [(7, 8)]))
  | _ => run1
  end.
Definition run3 : mpool :=                       (* the manager starts worker 4, which runs *)
  let c := mplays 0 3 3 (MPool (mst run2) (<[3%nat := At MwPend NULL]> (mthr run2)) (m_added run2)) in
  mplays 0 4 10 (MPool (mst c) (<[4%nat := At WkStart NULL]> (delete 3%nat (mthr c))) (m_added c)).

Lemma run3_reachable : mpool_reachable 0 run3.
Proof.
  unfold mpool_reachable. assert (H1 : rtc (mpool_step 0) mpool_start run1).
  { unfold run1. apply then_play. eapply then_step; [|apply (MpInstall 0 _ 1 NULL 1); by vm_compute].
    apply then_play, rtc_once. apply MpNewQueue; [done|by vm_compute|unfold PTHREAD_WORKQUEUE_MAX; lia]. }
  assert (H2 : rtc (mpool_step 0) mpool_start run2).
  { unfold run2. destruct (wa_alloc _ _ _ _ _) as [[e al]| | |] eqn:E; try done. apply then_play.
    eapply then_step; [exact H1|]. eapply (MpSubmit 0 run1 2 1 7 8); [by vm_compute|by vm_compute|done|by vm_compute; eexists| |exact E].
    exists 100, junk. split_and!; [done|done|]. intros Hin. apply elem_of_dom in Hin as [? Hin]. by vm_compute in Hin. }
  apply then_play. eapply then_step; [|apply (MpCreate 0 _ 3 4 NULL); by vm_compute].
  apply then_play. eapply then_step; [exact H2|]. apply MpStart; by vm_compute.
Qed.

(** The item was executed and is back in the cache of the worker. *)
Lemma pool_over_memory_witness :
  pm_exec (mst run3) = [(7, 8)] /\
  exists Q live p, pool_reachable 0 p /\ psim Q live run3 p.
Proof.
  split; [by vm_compute|].
  destruct (pool_over_memory 0 run3 run3_reachable) as (Q & live & p & Hr & Hs & _). by exists Q, live, p.
Defined.
End RunWitness.
