(* ===== verification/System.v ===== *)
(** * The manager thread and the worker pool together (src/posix/manager.c)

    ManagerLoop.v has one turn of [manager_main] as a function of what it reads; Pool.v has
    the threads it reads about.  Here [manager_main] is cut at each of its reads of the
    counters (the test of [sb_suspend] is one step with the end of the wait that follows),
    every read sees them as the running pool has them at that moment, and its calls of
    [worker_start] and [worker_stop] are calls in the pool: the manager goes on when the
    call has returned.  Clients call [manager_signal], [manager_suspend] and
    [manager_resume] at any time. *)

From stdpp Require Import base gmap list.
From Stdlib Require Import ZArith Lia.
From S2P Require Import Prelude Types Manager ManagerLoop Pool PoolInv.

(** ** The manager thread, read by read *)

Inductive mpos :=
| MMin (n : nat)        (* for (i = 0; i < worker_min; i++) worker_start(); [n] are left *)
| MTop                  (* if (scoreboard.sb_suspend == 0), and the wait *)
| MIdle                 (* scoreboard.idle == 0 *)
| MCount                (* scoreboard.count > 0 *)
| MPend                 (* pending_thread_create == 0 *)
| MAbout                (* if (scoreboard.about_to_wait) *)
| MDec                  (* atomic_dec(&scoreboard.about_to_wait) *)
| MThr                  (* scoreboard.count < worker_idle_threshold *)
| MMax                  (* scoreboard.count < worker_max *)
| MRun                  (* threads_runnable, get_runqueue_length *)
| MIdle2                (* if (scoreboard.idle == 0) *)
| MStart                (* worker_start() *)
| MTick                 (* if (scoreboard.idle > worker_idle_threshold) *)
| MAcc                  (* worker_idle_seconds_accumulated += scoreboard.idle *)
| MSurplus (n : Z)      (* idle_surplus_threads = ...; [n] is max_threads_to_stop *)
| MStop (n k : nat).    (* the [k]-th round of the loop of worker_stop, [n] are left *)

(** The number of the read at a position, as ManagerLoop.v counts them. *)
Definition read_no (x : mpos) : nat :=
  match x with
  | MTop => 0 | MIdle => 1 | MCount => 2 | MPend => 3 | MAbout => 4 | MThr => 5 | MMax => 6
  | MIdle2 => 7 | MTick => 8 | MAcc => 9 | MSurplus _ => 10 | MStop _ k => 11 + k
  | _ => 0
  end.

(** [else { if (sem_timedwait_rv == ETIMEDOUT) ... }] *)
Definition otherwise (l : locals) : mpos := if l_wait_rv l =? ETIMEDOUT then MTick else MTop.

(** What the manager does at a position: [s] is what it reads there, [a] what the system
    answers. *)
Definition mstep (p : params) (a : answers) (s : snapshot) (x : mpos) (l : locals)
  : mpos * locals * option action :=
  match x with
  | MMin O => (MTop, l, None)
  | MMin (S n) => (MMin n, l, Some AStart)
  | MTop =>
      (MIdle, (if s_suspend s =? 0 then Locals (l_accumulated l) (a_wait a) (l_current l) else l), None)
  | MIdle => (if s_idle s =? 0 then MCount else otherwise l, l, None)
  | MCount => (if 0 <? s_count s then MPend else otherwise l, l, None)
  | MPend => (if s_pending s =? 0 then MAbout else otherwise l, l, None)
  | MAbout => (if negb (s_about s =? 0) then MDec else MThr, l, None)
  | MDec => (MStart, l, Some ADecAbout)
  | MThr => (if s_count s <? p_threshold p then MStart else MMax, l, None)
  | MMax => (if s_count s <? p_max p then MRun else MTop, l, None)
  | MRun =>
      let cur := match a_runnable a with Some r => r | None => 0 end in
      let l := Locals (l_accumulated l) (l_wait_rv l) cur in
      if cur <=? p_cpu_count p then
        (if a_runqueue a <=? p_cpu_count p then MIdle2 else MTop, l, Some (ASetRunqueue (a_runqueue a)))
      else (MTop, l, None)
  | MIdle2 => (if s_idle s =? 0 then MStart else MTop, l, None)
  | MStart => (MTop, l, Some AStart)
  | MTick =>
      if p_threshold p <? s_idle s then (MAcc, l, None)
      else (MTop, Locals 0 (l_wait_rv l) (l_current l), None)
  | MAcc =>
      let acc := l_accumulated l +u s_idle s in
      let max_threads_to_stop := acc / WORKER_IDLE_SECONDS_THRESHOLD in
      if 0 <? max_threads_to_stop
      then (MSurplus max_threads_to_stop, Locals 0 (l_wait_rv l) (l_current l), None)
      else (MTop, Locals acc (l_wait_rv l) (l_current l), None)
  | MSurplus n =>
      let idle_surplus_threads := s_idle s -u p_threshold p in
      (MStop (Z.to_nat (if idle_surplus_threads <? n then idle_surplus_threads else n)) 0, l, None)
  | MStop O k => (MTop, l, None)
  | MStop (S n) k => (MStop n (S k), l, if p_threshold p <? s_idle s then Some AStop else None)
  end.

(** The steps up to the next turn, with the actions on the way; read number [k] sees [o k]. *)
Fixpoint mrun (p : params) (a : answers) (o : nat -> snapshot) (fuel : nat) (x : mpos) (l : locals)
  : option (locals * list action) :=
  match fuel with
  | O => None
  | S fuel =>
      let '(x', l', act) := mstep p a (o (read_no x)) x l in
      let acts := match act with Some a => [a] | None => [] end in
      match x' with
      | MTop => Some (l', acts)
      | _ => r ← mrun p a o fuel x' l'; Some (r.1, acts ++ r.2)
      end
  end.

(** ** The system *)

Record sys := Sys {
  pl : pool;
  pos : mpos;
  loc : locals;
  about : Z;      (* scoreboard.about_to_wait *)
  suspend : Z;    (* scoreboard.sb_suspend *)
  posts : Z;      (* posts of sb_sem by manager_signal and manager_resume *)
  taken : Z;      (* waits on sb_sem that took one *)
  rq_len : Z;     (* scoreboard.runqueue_length *)
  sigs : Z        (* calls of manager_signal *)
}.

Section System.
Context (PWQ_SPIN_THREADS : Z) (P : params) (worker_min : Z).
(** The thread of the manager. *)
Context (mt : nat).

Definition snap (s : sys) : snapshot :=
  Snapshot (suspend s) (n_idle (sh (pl s))) (n_count (sh (pl s))) (n_pend (sh (pl s))) (about s).

(** The value of [scoreboard.sb_sem]; the workers post it too. *)
Definition sem_value (s : sys) : Z := n_posts (sh (pl s)) + posts s - taken s.

Definition call (x : pc) (s : sys) : sys :=
  Sys (Pool (sh (pl s)) (<[mt:=x]> (thr (pl s))) (added (pl s)))
    (pos s) (loc s) (about s) (suspend s) (posts s) (taken s) (rq_len s) (sigs s).

Definition act_on (act : option action) (s : sys) : sys :=
  match act with
  | None => s
  | Some AStart => call MwPend s
  | Some AStop => call MsMtx s
  | Some ADecAbout =>
      Sys (pl s) (pos s) (loc s) (about s -u 1) (suspend s) (posts s) (taken s) (rq_len s) (sigs s)
  | Some (ASetRunqueue len) =>
      Sys (pl s) (pos s) (loc s) (about s) (suspend s) (posts s) (taken s) len (sigs s)
  end.

(** [sem_timedwait] or [sem_wait]: a wait that succeeds takes one post. *)
Definition wait (a : answers) (s : sys) : Z :=
  match pos s with MTop => if a_wait a =? 0 then taken s + 1 else taken s | _ => taken s end.

(** The pool moves without the manager: no thread takes its place, none calls
    [worker_start] or [worker_stop]. *)
Definition no_manager_calls (p p' : pool) : Prop :=
  forall t x, thr p !! t = None -> thr p' !! t = Some x -> t <> mt /\ x <> MsMtx /\ x <> MwPend.

Inductive sys_step (s : sys) : sys -> Prop :=
| SyPool p' :
    pool_step PWQ_SPIN_THREADS (pl s) p' -> no_manager_calls (pl s) p' ->
    sys_step s (Sys p' (pos s) (loc s) (about s) (suspend s) (posts s) (taken s) (rq_len s) (sigs s))
| SyManager a x l act :
    thr (pl s) !! mt = None -> threads (thr (pl s)) < THREAD_LIMIT ->
    (pos s = MTop -> a_wait a = 0 -> 0 < sem_value s) ->
    mstep P a (snap s) (pos s) (loc s) = (x, l, act) ->
    sys_step s (act_on act (Sys (pl s) x l (about s) (suspend s) (posts s) (wait a s) (rq_len s) (sigs s)))
| SySignal :
    sys_step s (Sys (pl s) (pos s) (loc s) (about s +u 1) 0 (posts s + 1) (taken s) (rq_len s) (sigs s + 1))
| SySuspend :
    sys_step s (Sys (pl s) (pos s) (loc s) (about s) (if suspend s =? 0 then 1 else suspend s)
                  (posts s) (taken s) (rq_len s) (sigs s))
| SyResume :
    suspend s <> 0 ->
    sys_step s (Sys (pl s) (pos s) (loc s) (about s) 0 (posts s + 1) (taken s) (rq_len s) (sigs s)).

(** The manager thread has been created; queues may exist already. *)
Definition sys_initial (s : sys) : Prop :=
  pool_initial (pl s) /\ pos s = MMin (Z.to_nat worker_min) /\ loc s = Locals 0 0 0 /\
  about s = 0 /\ suspend s = 0 /\ posts s = 0 /\ taken s = 0 /\ sigs s = 0.

Definition sys_reachable (s : sys) : Prop := exists s0, sys_initial s0 /\ rtc sys_step s0 s.

(** ** Counting the workers *)

(** A thread inside [worker_start]. *)
Definition starting (x : pc) : bool :=
  match x with MwPend | MwIdle | MwCount | MwCreate | MwFail1 | MwFail2 => true | _ => false end.

(** A worker, or one about to exist. *)
Definition live_at (x : pc) : Z := if starting x || is_worker x then 1 else 0.

(** The workers the manager is bound to start from a position, unless it changes its mind. *)
Definition todo (x : mpos) : Z :=
  match x with MMin n => Z.of_nat n | MStart | MRun | MIdle2 => 1 | _ => 0 end.

Definition ceiling : Z := Z.max worker_min (Z.max (p_threshold P) (p_max P)).

Record sys_inv (s : sys) : Prop := {
  sv_pool : pool_reachable PWQ_SPIN_THREADS (pl s);
  sv_only t x : thr (pl s) !! t = Some x -> starting x = true -> t = mt;
  sv_about : sigs s < 2 ^ 32 -> 0 <= about s <= sigs s /\ (pos s = MDec -> 0 < about s);
  sv_bound : sigs s < 2 ^ 32 -> msum live_at (thr (pl s)) + todo (pos s) + about s <= ceiling + sigs s
}.

Lemma live_at_range x : 0 <= live_at x <= 1.
Proof. unfold live_at. destruct (_ || _); lia. Qed.

Lemma pstep_starting N ok s x s' y :
  pstep N ok s x = Some (s', Some y) -> starting y = true -> starting x = true.
Proof. intros H Hy. destruct x; try destruct c; try destruct r; pstep_cases H; done. Qed.

Lemma pstep_live N ok s x s' y : pstep N ok s x = Some (s', y) -> oat live_at y <= live_at x.
Proof.
  intros H. unfold live_at. destruct x; try destruct c; try destruct r; pstep_cases H; simpl; try lia;
    repeat case_match; lia.
Qed.

(** The pool alone starts no call of [worker_start]. *)
Lemma only_step p p' :
  pool_step PWQ_SPIN_THREADS p p' -> no_manager_calls p p' ->
  (forall t x, thr p !! t = Some x -> starting x = true -> t = mt) ->
  forall t x, thr p' !! t = Some x -> starting x = true -> t = mt.
Proof.
  intros Hst Hno Honly t x Hx Hs. destruct (thr p !! t) as [x0|] eqn:H0.
  - destruct (decide (starting x0 = true)) as [|Hx0]; [by eapply Honly|exfalso].
    destruct Hst as [t1 x1 ok s1 y1 E1 E2|t1 x1 ok s1 E1 E2|t1 m E1 Hw|t1 t2 E1 E2|t1 w i E1 _ _ _|t1 x1 E1 _ E2|t1 i E1 _ _|t1 i s1 E1 _];
      simpl in Hx; try apply lookup_insert_Some in Hx as [[? ?]|[? Hx]];
      try apply lookup_delete_Some in Hx as [? Hx]; simplify_eq; try done.
    + by apply (pstep_starting _ _ _ _ _ _ E2) in Hs.
    + destruct Hw; [apply lookup_insert_Some in Hx as [[? ?]|[? Hx]]|]; simplify_eq.
  - destruct (Hno t x H0 Hx) as (_ & _ & Hp). exfalso.
    destruct Hst as [t1 x1 ok s1 y1 E1 E2|t1 x1 ok s1 E1 E2|t1 m E1 Hw|t1 t2 E1 E2|t1 w i E1 _ _ _|t1 x1 E1 _ E2|t1 i E1 _ _|t1 i s1 E1 _];
      simpl in Hx; try apply lookup_insert_Some in Hx as [[? ?]|[? Hx]];
      try apply lookup_delete_Some in Hx as [? Hx]; simplify_eq; try done.
    + destruct Hw; [apply lookup_insert_Some in Hx as [[? ?]|[? Hx]]|]; simplify_eq.
    + by destruct E2; subst.
Qed.

(** Nor does it gain workers. *)
Lemma live_step p p' :
  pool_step PWQ_SPIN_THREADS p p' -> no_manager_calls p p' -> msum live_at (thr p') <= msum live_at (thr p).
Proof.
  intros Hst Hno.
  destruct Hst as [t1 x1 ok s1 y1 E1 E2|t1 x1 ok s1 E1 E2|t1 m E1 Hw|t1 t2 E1 E2|t1 w i E1 _ _ _|t1 x1 E1 _ E2|t1 i E1 _ _|t1 i s1 E1 _]; simpl.
  - apply pstep_live in E2. rewrite (msum_insert _ _ _ _ _ E1). simpl in E2. lia.
  - apply pstep_live in E2. rewrite (msum_delete live_at _ _ _ E1). simpl in E2. lia.
  - destruct Hw as [t' E'|_]; rewrite (msum_insert live_at _ t1 PuSignal) by
      first [done|by rewrite lookup_insert_ne by congruence]; change (live_at PuSignal) with 0;
      change (live_at PuEnd) with 0; [|lia].
    rewrite (msum_insert _ _ _ _ _ E'). change (live_at WtBlocked) with 1. change (live_at WtMtx) with 1. lia.
  - rewrite msum_insert_new by (rewrite lookup_delete_None; auto). rewrite (msum_delete live_at _ _ _ E1).
    change (live_at MwCreate) with 1. change (live_at WkStart) with 1. lia.
  - rewrite (msum_insert_new _ _ _ _ E1). change (live_at (PuLock KAdd w i)) with 0. lia.
  - destruct (Hno t1 x1 E1) as (_ & Hs & Hp); [apply lookup_insert_eq|]. by destruct E2.
  - rewrite (msum_insert_new _ _ _ _ E1). change (live_at (CrMtx i)) with 0. lia.
  - rewrite (msum_insert _ _ _ _ _ E1). change (live_at (CrStore i)) with 0. change (live_at PuEnd) with 0. lia.
Qed.

(** With the manager outside of [worker_start], the counter is the number of live workers. *)
Lemma live_is_count s :
  sys_inv s -> thr (pl s) !! mt = None -> msum live_at (thr (pl s)) = n_count (sh (pl s)).
Proof.
  intros [Hr Ho _ _] Hm. rewrite (ci_count _ _ (pv_counters _ _ (pool_reachable_inv _ _ Hr))).
  apply msum_ext. intros t x Hx. unfold live_at.
  assert (starting x = false) as Hs.
  { destruct (starting x) eqn:Hs; [|done]. rewrite (Ho t x Hx Hs) in Hx. congruence. }
  rewrite Hs. simpl. destruct x; try done; by simpl in *.
Qed.


Definition is_act (b : action) (act : option action) : Z := if decide (act = Some b) then 1 else 0.

(** What a step of the manager adds to the workers it is bound to start. *)
Lemma mstep_todo a s y l x l' act :
  mstep P a s y l = (x, l', act) ->
  (todo x + is_act AStart act <= todo y + is_act ADecAbout act \/
   (act = None /\ todo x <= 1 /\ todo y = 0 /\ s_count s < Z.max (p_threshold P) (p_max P))) /\
  (act = Some ADecAbout -> y = MDec) /\ (x = MDec -> s_about s <> 0 /\ act = None).
Proof.
  intros H. destruct y; simpl in H; unfold otherwise in H; repeat case_match; simplify_eq; simpl;
    unfold is_act; simpl; zcase; split_and!; try done; try (left; lia); intros; simplify_eq.
  all: right; split_and!; try done; lia.
Qed.

Lemma act_on_fields act s :
  pos (act_on act s) = pos s /\ sigs (act_on act s) = sigs s /\
  about (act_on act s) = (if decide (act = Some ADecAbout) then about s -u 1 else about s).
Proof. by destruct act as [[]|]. Qed.

(** A step of the manager is no step of the pool, or it starts a call there. *)
Lemma act_pool act s :
  thr (pl s) !! mt = None -> threads (thr (pl s)) < THREAD_LIMIT ->
  rtc (pool_step PWQ_SPIN_THREADS) (pl s) (pl (act_on act s)) /\
  msum live_at (thr (pl (act_on act s))) = msum live_at (thr (pl s)) + is_act AStart act /\
  (forall t x, thr (pl (act_on act s)) !! t = Some x -> t = mt \/ thr (pl s) !! t = Some x).
Proof.
  intros Hm Ht.
  assert (Hcall : forall x, x = MsMtx \/ x = MwPend ->
    rtc (pool_step PWQ_SPIN_THREADS) (pl s) (pl (call x s)) /\
    msum live_at (thr (pl (call x s))) = msum live_at (thr (pl s)) + live_at x /\
    (forall t y, thr (pl (call x s)) !! t = Some y -> t = mt \/ thr (pl s) !! t = Some y)).
  { intros x Hx. split_and!.
    - apply rtc_once. by apply PsManager.
    - simpl. rewrite (msum_insert_new _ _ _ _ Hm). lia.
    - intros t y. simpl. rewrite lookup_insert_Some. naive_solver. }
  destruct act as [[]|]; simpl; unfold is_act; simpl; try (split_and!; [done|lia|by right]).
  - apply (Hcall MwPend). by right.
  - apply (Hcall MsMtx). by left.
Qed.

Lemma manager_step_inv s a x l act :
  sys_inv s -> thr (pl s) !! mt = None -> threads (thr (pl s)) < THREAD_LIMIT ->
  mstep P a (snap s) (pos s) (loc s) = (x, l, act) ->
  sys_inv (act_on act (Sys (pl s) x l (about s) (suspend s) (posts s) (wait a s) (rq_len s) (sigs s))).
Proof.
  intros Hinv Hm Ht Hst. set (s1 := Sys _ _ _ _ _ _ _ _ _).
  destruct (mstep_todo _ _ _ _ _ _ _ Hst) as (Htodo & Hdec & Hmd).
  pose proof (live_is_count s Hinv Hm) as Hlive. destruct Hinv as [Hr Ho Ha Hb].
  destruct (act_pool act s1 Hm Ht) as (Hrtc & Hsum & Hthr).
  destruct (act_on_fields act s1) as (Ep & Es & Eab). simpl in Ep, Es, Eab, Hsum. simpl in Htodo.
  assert (Hd : is_act ADecAbout act = 1 /\ act = Some ADecAbout \/ is_act ADecAbout act = 0 /\ act <> Some ADecAbout)
    by (unfold is_act; case_decide; auto).
  assert (Habout : sigs s < 2 ^ 32 -> 0 <= about s - is_act ADecAbout act <= sigs s /\
            about (act_on act s1) = about s - is_act ADecAbout act).
  { intros Hs. destruct (Ha Hs) as [Ha1 Ha2]. rewrite Eab.
    destruct Hd as [[-> Hact]|[-> Hact]]; [|rewrite decide_False by done; lia].
    specialize (Ha2 (Hdec Hact)). rewrite decide_True, u32_small by (done || lia). lia. }
  split.
  - destruct Hr as (p0 & H0 & Hr). exists p0. split; [done|]. by etrans.
  - intros t y Hy Hsy. destruct (Hthr t y Hy) as [|Hy']; [done|]. by eapply Ho.
  - rewrite Ep, Es. intros Hs. destruct (Habout Hs) as [Hab ->]. split; [done|].
    intros Hx. destruct (Hmd Hx) as [Hne ->]. change (is_act ADecAbout None) with 0. simpl in Hne.
    destruct (Ha Hs). lia.
  - rewrite Ep, Es. intros Hs. destruct (Habout Hs) as [Hab ->]. rewrite Hsum. simpl. specialize (Hb Hs).
    destruct Htodo as [Htodo|(-> & Ht1 & Ht0 & Hc)]; [lia|].
    unfold is_act. simpl. unfold ceiling in *. destruct (Ha Hs). lia.
Qed.

Lemma sys_step_inv s s' : sys_inv s -> sys_step s s' -> sys_inv s'.
Proof.
  intros Hinv [p' Hst Hno|a x l act Hm Ht _ Hst| | |Hsus];
    [|by apply manager_step_inv| | |]; destruct Hinv as [Hr Ho Ha Hb].
  - split; simpl; try done.
    + destruct Hr as (p0 & H0 & Hr). exists p0. split; [done|]. by eapply rtc_r.
    + by apply (only_step (pl s)).
    + intros Hs. specialize (Hb Hs). pose proof (live_step _ _ Hst Hno). lia.
  - split; simpl; try done; intros Hs; destruct Ha as [Ha1 Ha2]; try lia; specialize (Hb ltac:(lia));
      rewrite u32_small by lia; [split; [|intros Hp; specialize (Ha2 Hp)]|]; lia.
  - split; simpl; done.
  - split; simpl; done.
Qed.

Lemma sys_reachable_inv s : 0 <= worker_min -> sys_reachable s -> sys_inv s.
Proof.
  intros Hw (s0 & (Hp & Hx & Hl & Ha & _ & _ & _ & Hs) & Hr).
  assert (H0 : sys_inv s0).
  { assert (Et : thr (pl s0) = ∅) by apply Hp.
    split; rewrite ?Hx, ?Ha, ?Hs, ?Et; try done.
    - by exists (pl s0).
    - rewrite msum_empty. simpl. unfold ceiling. lia. }
  clear Hp Hx Hl Ha Hs. induction Hr as [|s0 s1 s2 Hst _ IH]; [done|]. apply IH. by eapply sys_step_inv.
Qed.

(** ** The turn, read by read *)

Arguments mrun : simpl never.

(** One step, and going on when it does not end the turn. *)
Lemma mrun_S a o fuel x l :
  mrun P a o (S fuel) x l =
  let '(x', l', act) := mstep P a (o (read_no x)) x l in
  let acts := match act with Some a => [a] | None => [] end in
  match x' with
  | MTop => Some (l', acts)
  | _ => r ← mrun P a o fuel x' l'; Some (r.1, acts ++ r.2)
  end.
Proof. done. Qed.

Lemma mrun_stop a o l n : forall k fuel, (n < fuel)%nat ->
  mrun P a o fuel (MStop n k) l = Some (l, stop_loop n (11 + k) (p_threshold P) o).
Proof.
  induction n as [|n IH]; intros k [|fuel] Hf; try lia; [done|]. rewrite mrun_S. cbn [mstep read_no].
  rewrite IH by lia. simpl. by destruct (p_threshold P <? _).
Qed.

(** The part that starts a worker, four reads in, and the part that stops some. *)
Lemma mrun_start a o l fuel : (7 <= fuel)%nat -> mrun P a o fuel MAbout l = Some (decide_start P a o l).
Proof.
  intros Hf. do 7 (destruct fuel as [|fuel]; [lia|]). unfold decide_start. rewrite mrun_S. simpl.
  destruct (s_about (o 4%nat) =? 0); simpl; [|done].
  rewrite mrun_S. simpl. destruct (s_count (o 5%nat) <? p_threshold P); simpl; [done|].
  rewrite mrun_S. simpl. destruct (s_count (o 6%nat) <? p_max P); simpl; [|done].
  rewrite mrun_S. simpl. set (cur := match a_runnable a with Some r => r | None => 0 end).
  destruct (cur <=? p_cpu_count P); simpl; [|done].
  destruct (a_runqueue a <=? p_cpu_count P); simpl; [|done].
  rewrite mrun_S. simpl. destruct (s_idle (o 7%nat) =? 0); done.
Qed.

Lemma mrun_ramp_down a o l fuel :
  (3 + Z.to_nat ((l_accumulated l +u s_idle (o 9%nat)) / WORKER_IDLE_SECONDS_THRESHOLD) < fuel)%nat ->
  mrun P a o fuel MTick l = Some (decide_stop P o l).
Proof.
  intros Hf. do 3 (destruct fuel as [|fuel]; [lia|]). unfold decide_stop. rewrite mrun_S. cbn [mstep read_no].
  destruct (p_threshold P <? s_idle (o 8%nat)); [|done].
  set (acc := l_accumulated l +u s_idle (o 9%nat)) in *. rewrite mrun_S. cbn [mstep read_no]. fold acc.
  destruct (Z.ltb_spec 0 (acc / WORKER_IDLE_SECONDS_THRESHOLD)) as [H|H]; [|done].
  rewrite mrun_S. cbn [mstep read_no]. rewrite mrun_stop; [done|]. zcase; lia.
Qed.

(** The fuel that is enough for one turn. *)
Definition turn_fuel (o : nat -> snapshot) (l : locals) : nat :=
  12 + Z.to_nat ((l_accumulated l +u s_idle (o 9%nat)) / WORKER_IDLE_SECONDS_THRESHOLD).

(** C24.  The steps of [manager_main] from the top of its loop to the next turn terminate
    and do what ManagerLoop.manager_turn computes from the values they read, for every
    interference: the same calls of [worker_start] and [worker_stop] in the same order, the
    same new local variables. *)
Theorem turn_steps_are_turn a o l fuel :
  (turn_fuel o l <= fuel)%nat -> mrun P a o fuel MTop l = Some (manager_turn P a o l).
Proof.
  unfold turn_fuel. intros Hf. do 4 (destruct fuel as [|fuel]; [lia|]).
  rewrite mrun_S. cbn [mstep read_no]. unfold manager_turn.
  set (l0 := if s_suspend (o 0%nat) =? 0 then _ else l).
  assert (El : l_accumulated l0 = l_accumulated l) by (unfold l0; by destruct (s_suspend (o 0%nat) =? 0)).
  clearbody l0.
  assert (Hdown : forall f act, (fuel <= f)%nat ->
    match otherwise l0 with
    | MTop => Some (l0, [])
    | _ => r ← mrun P a o f (otherwise l0) l0; Some (r.1, [] ++ r.2)
    end = act -> act = Some (if l_wait_rv l0 =? ETIMEDOUT then decide_stop P o l0 else (l0, []))).
  { intros f act Hle <-. unfold otherwise. destruct (l_wait_rv l0 =? ETIMEDOUT); [|done].
    rewrite mrun_ramp_down by (rewrite El; lia). by destruct (decide_stop P o l0). }
  assert (Hid : forall r : option (locals * list action), (r ≫= fun r => Some (r.1, [] ++ r.2)) = r)
    by by intros [[]|].
  rewrite Hid, mrun_S. cbn [mstep read_no].
  destruct (s_idle (o 1%nat) =? 0); cbn [andb]; [|by apply (Hdown (S (S fuel))); [lia|]].
  rewrite Hid, mrun_S. cbn [mstep read_no].
  destruct (0 <? s_count (o 2%nat)); cbn [andb]; [|by apply (Hdown (S fuel)); [lia|]].
  rewrite Hid, mrun_S. cbn [mstep read_no].
  destruct (s_pending (o 3%nat) =? 0); [|by apply (Hdown fuel)].
  rewrite Hid. apply mrun_start. lia.
Qed.

(** ** The size of the pool *)

(** C9.  The manager thread running against the live pool keeps it within its limits.  In
    every reachable state of the composed system the pool is a reachable pool (so all that
    is proved of the pool holds), and the number of workers, alive or about to be created,
    is at most the largest of [worker_min], the idle threshold and the process limit, plus
    one for each thread that announced through [manager_signal] that it will block and has
    been replaced. *)
Theorem sys_worker_bound s :
  0 <= worker_min -> sys_reachable s -> sigs s < 2 ^ 32 ->
  pool_reachable PWQ_SPIN_THREADS (pl s) /\
  0 <= about s <= sigs s /\
  n_count (sh (pl s)) <= ceiling + (sigs s - about s) /\
  msum (fun x => if is_worker x then 1 else 0) (thr (pl s)) <= n_count (sh (pl s)).
Proof.
  intros Hw Hr Hs. destruct (sys_reachable_inv s Hw Hr) as [Hp Ho Ha Hb].
  destruct (Ha Hs) as [Ha1 _]. specialize (Hb Hs). split; [done|]. split; [done|].
  rewrite (ci_count _ _ (pv_counters _ _ (pool_reachable_inv _ _ Hp))).
  assert (0 <= todo (pos s)) by (destruct (pos s); simpl; lia).
  split.
  - assert (msum count_at (thr (pl s)) <= msum live_at (thr (pl s))); [|lia].
    apply msum_le. intros t x _. destruct x; simpl; unfold live_at; simpl; lia.
  - apply msum_le. intros t x _. destruct x; simpl; lia.
Qed.

End System.

(** ** Running the system *)

Definition with_pool (s : sys) (p : pool) : sys :=
  Sys p (pos s) (loc s) (about s) (suspend s) (posts s) (taken s) (rq_len s) (sigs s).

(** Steps of threads that exist are no calls of the manager. *)
Lemma exec_no_calls N mt c p p' : pool_exec N c p = Some p' -> no_manager_calls mt p p'.
Proof.
  unfold pool_exec. intros (x & Hx & H)%bind_Some. apply bind_Some in H as ([s' y] & Hp & H).
  injection H as <-. intros t z Hn Hz. simpl in Hz. exfalso. destruct y; simpl in Hz.
  - apply lookup_insert_Some in Hz as [[<- _]|[_ Hz]]; congruence.
  - apply lookup_delete_Some in Hz as [_ Hz]. congruence.
Qed.

Lemma sys_run N P wm mt sched s p' :
  pool_run N sched (pl s) = Some p' -> sys_reachable N P wm mt s -> sys_reachable N P wm mt (with_pool s p').
Proof.
  revert s. induction sched as [|c sched IH]; intros s.
  - intros [= <-]. by destruct s.
  - simpl. intros (p1 & H1 & H2)%bind_Some (s0 & H0 & Hr).
    apply (IH (with_pool s p1)); [done|]. exists s0. split; [done|]. eapply rtc_r; [done|].
    apply SyPool; [|by eapply exec_no_calls].
    unfold pool_exec in H1. apply bind_Some in H1 as (x & Hx & H1). apply bind_Some in H1 as ([s' y] & Hp & H1).
    injection H1 as <-. simpl in *. destruct y; [by eapply PsMove|by eapply PsEnd].
Qed.

Definition ex_sys0 : sys := Sys ex_pool0 (MMin 2) (Locals 0 0 0) 0 0 0 0 1 0.
Definition ex_sys1 : sys := with_pool
  (Sys ex_pool0 (MMin 1) (Locals 0 0 0) 0 0 0 0 1 0)
  (Pool (put_count 1 (put_idle 1 (put_pend 1 ex_shared))) {[9%nat := MwCreate]} []).

(** The manager (thread 9) is about to create the first of two workers. *)
Lemma ex_sys1_reachable : sys_reachable 0 ex_params 2 9 ex_sys1.
Proof.
  assert (H0 : sys_reachable 0 ex_params 2 9 ex_sys0)
    by (exists ex_sys0; split; [by split_and!; [exact ex_pool0_initial|..]|done]).
  pose (s1 := call 9 MwPend (Sys ex_pool0 (MMin 1) (Locals 0 0 0) 0 0 0 0 1 0)).
  assert (H1 : sys_reachable 0 ex_params 2 9 s1).
  { destruct H0 as (s0 & Hi & Hr). exists s0. split; [done|]. eapply rtc_r; [done|].
    by apply (SyManager 0 ex_params 9 ex_sys0 (Answers 0 None 1) (MMin 1) (Locals 0 0 0) (Some AStart)). }
  by apply (sys_run 0 ex_params 2 9 [(9, false); (9, false); (9, false)]%nat s1 (pl ex_sys1)) in H1.
Qed.

Lemma sys_worker_bound_witness :
  sys_reachable 0 ex_params 2 9 ex_sys1 /\ n_count (sh (pl ex_sys1)) = 1 /\
  n_count (sh (pl ex_sys1)) <= ceiling ex_params 2 + (sigs ex_sys1 - about ex_sys1).
Proof.
  split; [exact ex_sys1_reachable|]. split; [reflexivity|].
  apply (sys_worker_bound 0 ex_params 2 9 ex_sys1); [lia|exact ex_sys1_reachable|reflexivity].
Defined.

Lemma turn_steps_are_turn_witness :
  let o (_ : nat) := Snapshot 0 30 30 0 0 in
  mrun ex_params tick_answers o 14 MTop (Locals 0 0 0) = Some (Locals 0 ETIMEDOUT 0, [AStop; AStop]).
Proof.
  intros o. pose proof (turn_steps_are_turn ex_params tick_answers o (Locals 0 0 0) 14) as H.
  rewrite H by (vm_compute; lia). reflexivity.
Defined.
