(* ===== verification/SysLife.v ===== *)
(** * A pool without workers stays without (src/posix/manager.c)

    The manager starts a worker only when it has seen one alive ([scoreboard.count > 0]).
    Here: in the composed system of System.v, a pool whose last worker has gone never gets
    another one, whatever clients submit and signal; and scripts that lead there, on a
    machine with three CPUs, where the idle threshold is 0, and with a threshold of 1, when
    a worker that was told to exit takes its time. *)

From stdpp Require Import base gmap list.
From Stdlib Require Import ZArith Lia.
From S2P Require Import Prelude Types Manager ManagerLoop Pool PoolInv PoolWake PoolLate System.

(** ** Dead pools *)

(** Positions from which the manager may go on to start a worker without looking at
    [scoreboard.count > 0] again. *)
Definition committed (x : mpos) : bool :=
  match x with
  | MMin (S _) | MPend | MAbout | MDec | MThr | MMax | MRun | MIdle2 | MStart => true
  | _ => false
  end.

(** No worker is alive or being created, and the manager is not about to create one. *)
Definition dead (s : sys) : Prop := msum live_at (thr (pl s)) = 0 /\ committed (pos s) = false.

Section Dead.
Context (N : Z) (P : params) (worker_min : Z) (mt : nat).

Lemma pstep_finished ok s x s' y : pstep N ok s x = Some (s', y) -> live_at x = 0 -> finished s' = finished s.
Proof. intros H Hl. destruct x; try done; try destruct c; try destruct k; by pstep_cases H. Qed.

(** Only workers execute items. *)
Lemma finished_step p p' :
  pool_step N p p' -> msum live_at (thr p) = 0 -> finished (sh p') = finished (sh p).
Proof.
  intros Hst Hz. destruct (pool_step_view N p p' Hst) as
    [t x ok y Hx Hp _ _ _ _|olds news ad Hs _ _ _ _|t i _ _ Hs _ _ _]; [|by rewrite Hs|by rewrite Hs].
  eapply pstep_finished; [done|]. eapply (msum_zero live_at); [|exact Hz|exact Hx]. intros z. apply live_at_range.
Qed.

(** A manager that sees no worker commits to nothing and starts nothing. *)
Lemma mstep_dead a s x l x' l' act :
  mstep P a s x l = (x', l', act) -> committed x = false -> s_count s = 0 ->
  committed x' = false /\ act <> Some AStart.
Proof.
  intros H Hx Hc. destruct x; try done; simpl in H; unfold otherwise in H; rewrite ?Hc in H;
    repeat case_match; simplify_eq; done.
Qed.

Lemma act_on_finished act s : finished (sh (pl (act_on mt act s))) = finished (sh (pl s)).
Proof. by destruct act as [[]|]. Qed.

Lemma dead_step s s' :
  sys_inv N P worker_min mt s -> dead s -> sys_step N P mt s s' ->
  dead s' /\ finished (sh (pl s')) = finished (sh (pl s)).
Proof.
  intros Hinv [Hl Hc] [p' Hst Hno|a x l act Hm Ht _ Hst| | |_]; try done.
  - split; [split; [|done]|by apply finished_step]. simpl. pose proof (live_step N mt _ _ Hst Hno).
    assert (0 <= msum live_at (thr p')) by (apply msum_nonneg; intros z; apply live_at_range). lia.
  - set (s1 := Sys _ _ _ _ _ _ _ _ _). rewrite act_on_finished. split; [|done].
    destruct (mstep_dead _ _ _ _ _ _ _ Hst Hc) as [Hx Ha].
    { simpl. by rewrite <- (live_is_count N P worker_min mt s Hinv Hm). }
    destruct (act_pool N mt act s1 Hm Ht) as (_ & Hsum & _). destruct (act_on_fields mt act s1) as (Hp & _).
    split; [|by rewrite Hp]. rewrite Hsum. unfold is_act. rewrite decide_False by done. simpl. lia.
Qed.

Lemma dead_run s s' :
  rtc (sys_step N P mt) s s' -> sys_inv N P worker_min mt s -> dead s ->
  dead s' /\ finished (sh (pl s')) = finished (sh (pl s)).
Proof.
  induction 1 as [|s s1 s2 Hst _ IH]; intros Hinv Hd; [done|].
  destruct (dead_step s s1 Hinv Hd Hst) as [Hd1 <-]. apply IH; [by eapply sys_step_inv|done].
Qed.

(** C28.  A pool without workers stays without.  Once no worker is alive or being created
    and the manager is at a point where it looks for one, then in every continuation, with
    any number of submissions, calls of [manager_signal] and ticks of the timer, no worker
    is ever created and no item executed. *)
Theorem dead_pool_stays_dead s s' :
  0 <= worker_min -> sys_reachable N P worker_min mt s -> dead s -> rtc (sys_step N P mt) s s' ->
  dead s' /\ finished (sh (pl s')) = finished (sh (pl s)) /\
  (forall t x, thr (pl s') !! t = Some x -> is_worker x = false).
Proof.
  intros Hw Hr Hd Hrt. pose proof (sys_reachable_inv N P worker_min mt s Hw Hr) as Hinv.
  destruct (dead_run s s' Hrt Hinv Hd) as [Hd' Hf]. split_and!; [done|done|].
  intros t x Hx. assert (Hl : live_at x = 0)
    by (eapply (msum_zero live_at); [intros z; apply live_at_range|apply Hd'|exact Hx]).
  unfold live_at in Hl. destruct (is_worker x); [|done]. by rewrite orb_true_r in Hl.
Qed.
End Dead.

(** ** Scripts of the system *)

Inductive sys_event :=
| EvPool (e : event)        (* the pool, without the manager *)
| EvManager (a : answers).  (* a step of the manager *)

(** The events of a pool without calls of the manager. *)
Definition pool_event (mt : nat) (e : event) : bool :=
  match e with
  | Runs _ _ | Wakes _ _ | WakesNobody _ => true
  | Submits t _ _ => negb (t =? mt)%nat
  | Spawns _ t' => negb (t' =? mt)%nat
  | _ => false
  end.

Definition at_top (x : mpos) : bool := match x with MTop => true | _ => false end.

Definition sys_play (N : Z) (P : params) (mt : nat) (e : sys_event) (s : sys) : option sys :=
  match e with
  | EvPool e => if pool_event mt e then p ← play N e (pl s); Some (with_pool s p) else None
  | EvManager a =>
      if free_slot mt (pl s) &&
         negb (at_top (pos s) && (a_wait a =? 0) && (sem_value s <=? 0)) then
        let '(x, l, act) := mstep P a (snap s) (pos s) (loc s) in
        Some (act_on mt act (Sys (pl s) x l (about s) (suspend s) (posts s) (wait a s) (rq_len s) (sigs s)))
      else None
  end.

Fixpoint sys_plays (N : Z) (P : params) (mt : nat) (es : list sys_event) (s : sys) : option sys :=
  match es with
  | [] => Some s
  | e :: es => s ← sys_play N P mt e s; sys_plays N P mt es s
  end.

Section Plays.
Context (N : Z) (P : params) (worker_min : Z) (mt : nat).

Lemma sys_pool_step s p' :
  sys_reachable N P worker_min mt s -> pool_step N (pl s) p' -> no_manager_calls mt (pl s) p' ->
  sys_reachable N P worker_min mt (with_pool s p').
Proof. intros (s0 & H0 & Hr) Hst Hno. exists s0. split; [done|]. eapply rtc_r; [done|]. by apply SyPool. Qed.

(** Threads that exist already are no new calls. *)
Lemma calls_insert (p : pool) s m t x y a :
  thr p !! t = Some x -> (forall u z, m !! u = Some z -> is_Some (thr p !! u)) ->
  no_manager_calls mt p (Pool s (<[t:=y]> m) a).
Proof.
  intros Hx Hm u z Hn Hz. exfalso. simpl in Hz.
  apply lookup_insert_Some in Hz as [[-> _]|[_ Hz]]; [congruence|].
  destruct (Hm u z Hz). congruence.
Qed.

Lemma play_event e s p' :
  sys_reachable N P worker_min mt s -> pool_event mt e = true -> play N e (pl s) = Some p' ->
  sys_reachable N P worker_min mt (with_pool s p').
Proof.
  intros Hr He H. destruct e as [t n|t w i| |t t'|t|t t'| |]; try done; simpl in He.
  - by apply (sys_run N P worker_min mt (steps t n)).
  - apply negb_true_iff, Nat.eqb_neq in He. pose proof H as Hp. simpl in Hp.
    destruct (_ && _) eqn:E in Hp; simplify_eq.
    apply andb_true_iff in E as [[[H1 H2]%free_slot_spec H3%negb_true_iff%Z.eqb_neq]%andb_true_iff H4%bool_decide_eq_true].
    apply sys_pool_step; [done|by apply PsSubmit|].
    intros u z Hn Hz. simpl in Hz. apply lookup_insert_Some in Hz as [[<- <-]|[_ Hz]]; [done|congruence].
  - simpl in H. destruct (_ && _) eqn:E in H; simplify_eq.
    apply andb_true_iff in E as [H1%bool_decide_eq_true H2%bool_decide_eq_true].
    apply sys_pool_step; [done|by apply PsSignal; [|apply WakesOne]|]. eapply calls_insert; [done|].
    intros u z [[<- _]|[_ Hz]]%lookup_insert_Some; by eexists.
  - simpl in H. destruct (_ && _) eqn:E in H; simplify_eq.
    apply andb_true_iff in E as [H1%bool_decide_eq_true H2%bool_decide_eq_true].
    apply sys_pool_step; [done| |by eapply calls_insert; [|by eauto]].
    apply PsSignal; [done|]. apply WakesNone. intros u Hu. by apply (H2 u _ Hu).
  - apply negb_true_iff, Nat.eqb_neq in He. simpl in H. destruct (_ && _) eqn:E in H; simplify_eq.
    apply andb_true_iff in E as [H1%bool_decide_eq_true H2%bool_decide_eq_true].
    apply sys_pool_step; [done|by apply PsCreate|].
    intros u z Hn Hz. simpl in Hz. apply lookup_insert_Some in Hz as [[<- <-]|[_ Hz]]; [done|].
    apply lookup_delete_Some in Hz as [_ Hz]. congruence.
Qed.

Lemma sys_play_reachable e s s' :
  sys_play N P mt e s = Some s' -> sys_reachable N P worker_min mt s -> sys_reachable N P worker_min mt s'.
Proof.
  intros H Hr. destruct e as [e|a]; simpl in H.
  - destruct (pool_event mt e) eqn:He; [|done]. apply bind_Some in H as (p' & Hp & [= <-]).
    by apply (play_event e).
  - destruct (_ && _) eqn:E in H; [|done].
    apply andb_true_iff in E as [[H1 H2]%free_slot_spec H3%negb_true_iff].
    destruct (mstep P a (snap s) (pos s) (loc s)) as [[x l] act] eqn:Em. injection H as <-.
    destruct Hr as (s0 & H0 & Hr). exists s0. split; [done|]. eapply rtc_r; [done|].
    apply SyManager; [done|done| |done]. intros Hp Ha. rewrite Hp, Ha in H3. simpl in H3.
    by apply Z.leb_gt in H3.
Qed.

Lemma sys_plays_reachable es s s' :
  sys_plays N P mt es s = Some s' -> sys_reachable N P worker_min mt s -> sys_reachable N P worker_min mt s'.
Proof.
  revert s. induction es as [|e es IH]; simpl; intros s; [by intros [= <-]|].
  intros (s1 & H1 & H2)%bind_Some Hr. apply (IH s1); [done|]. by eapply sys_play_reachable.
Qed.
End Plays.

(** ** Where pools die *)

(** The parameters of the manager on a machine with [c] CPUs, and the system when its
    thread (9) begins with one queue. *)
Definition cpu_manager (c : Z) : manager := snd (manager_init (InitEnv 0 None c 0 0) boot).
Definition cpu_params (c : Z) : params :=
  fst (fst (manager_main_start OtherSystem (PlatformRunqueue 1) (cpu_manager c))).
Definition sys_begin (c : Z) : sys :=
  Sys (Pool (Shared {[0%nat := []]} 0 ∅ false 0 0 0 0 0 0 []) ∅ [])
    (MMin (Z.to_nat (worker_min (cpu_manager c)))) (Locals 0 0 0) 0 0 0 0 1 0.

Lemma sys_begin_reachable c :
  sys_reachable 0 (cpu_params c) (worker_min (cpu_manager c)) 9 (sys_begin c).
Proof.
  exists (sys_begin c). split; [|constructor]. split_and!; try done.
  split; [|by split_and!]. intros i l. simpl. rewrite lookup_singleton_Some. intros [<- <-].
  split; [done|]. unfold PTHREAD_WORKQUEUE_MAX. lia.
Qed.

Definition managers (n : nat) : list sys_event := replicate n (EvManager tick_answers).

(** [worker_start] creates worker [t], who finds nothing and goes to sleep. *)
Definition ev_start (t : nat) : list sys_event :=
  managers 1 ++ [EvPool (Runs 9 3); EvPool (Spawns 9 t); EvPool (Runs t 7)].
(** Ticks of the timer on which the manager only accumulates. *)
Definition ev_ticks (n : nat) : list sys_event := managers (4 * n).
(** A tick on which it stops a worker: the signal wakes sleeper [t]. *)
Definition ev_stop (t : nat) : list sys_event :=
  managers 6 ++ [EvPool (Runs 9 6); EvPool (Wakes 9 t); EvPool (Runs 9 1)] ++ managers 1.
(** A woken worker takes an exit event, the last one in the queue or not, and ends. *)
Definition ev_exit (t : nat) (last : bool) : list sys_event := [EvPool (Runs t (if last then 10 else 9))].
(** A client submits an item while no worker is idle. *)
Definition ev_submit : list sys_event := [EvPool (Submits 5 (ex_item 7) 0); EvPool (Runs 5 6)].

(** Three CPUs: three workers, 28 idle seconds, three exits, then an item. *)
Definition three_cpus : list sys_event :=
  ev_start 1 ++ ev_start 2 ++ ev_start 3 ++ managers 1 ++
  ev_ticks 4 ++ ev_stop 1 ++ ev_exit 1 true ++
  ev_ticks 7 ++ ev_stop 2 ++ ev_exit 2 true ++
  ev_ticks 14 ++ ev_stop 3 ++ ev_exit 3 true ++ ev_submit.

(** Five CPUs, threshold 1: the five workers are told to exit, one every three seconds,
    before the first of them gets to run. *)
Definition five_cpus : list sys_event :=
  ev_start 1 ++ ev_start 2 ++ ev_start 3 ++ ev_start 4 ++ ev_start 6 ++ managers 1 ++
  ev_ticks 2 ++ ev_stop 1 ++ ev_ticks 2 ++ ev_stop 2 ++
  ev_ticks 2 ++ ev_stop 3 ++ ev_ticks 2 ++ ev_stop 4 ++
  ev_ticks 2 ++ ev_stop 6 ++
  ev_exit 1 false ++ ev_exit 2 false ++ ev_exit 3 false ++ ev_exit 4 false ++ ev_exit 6 true ++ ev_submit.

Definition sys_after (c : Z) (es : list sys_event) : sys :=
  default (sys_begin c) (sys_plays 0 (cpu_params c) 9 es (sys_begin c)).

Lemma sys_after_reachable c es :
  sys_reachable 0 (cpu_params c) (worker_min (cpu_manager c)) 9 (sys_after c es).
Proof.
  unfold sys_after. pose proof (sys_begin_reachable c) as H.
  destruct (sys_plays 0 (cpu_params c) 9 es (sys_begin c)) as [s|] eqn:E; simpl; [|done].
  by apply (sys_plays_reachable 0 (cpu_params c) _ 9 es (sys_begin c)).
Qed.

(** A dead state at which an item waits is the end of all execution. *)
Lemma stranded c es s' :
  0 <= worker_min (cpu_manager c) ->
  msum live_at (thr (pl (sys_after c es))) = 0 -> committed (pos (sys_after c es)) = false ->
  finished (sh (pl (sys_after c es))) = [] ->
  rtc (sys_step 0 (cpu_params c) 9) (sys_after c es) s' -> finished (sh (pl s')) = [].
Proof.
  intros Hw Hl Hc Hf Hr.
  pose proof (sys_reachable_inv 0 (cpu_params c) (worker_min (cpu_manager c)) 9 _ Hw (sys_after_reachable c es)) as Hinv.
  by destruct (dead_run 0 (cpu_params c) _ 9 _ s' Hr Hinv (conj Hl Hc)) as [_ ->].
Qed.

(** On a machine with three CPUs, an idle pool dies for good: with the limits that
    [manager_init] computes there, the three workers are stopped within 28 seconds, and an
    item submitted afterwards waits for ever, whatever happens. *)
Theorem three_cpu_pool_strands_items :
  exists s, sys_reachable 0 (cpu_params 3) 3 9 s /\ thr (pl s) = ∅ /\
    items (sh (pl s)) !! 0%nat = Some [ex_item 7] /\
    forall s', rtc (sys_step 0 (cpu_params 3) 9) s s' -> finished (sh (pl s')) = [].
Proof.
  exists (sys_after 3 three_cpus). split; [exact (sys_after_reachable 3 three_cpus)|].
  split; [by vm_compute|]. split; [by vm_compute|]. intros s'. apply stranded; by vm_compute.
Qed.

(** With a threshold of one as well, when workers that were told to exit do not run before
    the next ticks: on a machine with five CPUs all five workers are told to exit within
    fifteen seconds, because the manager counts those that have not gone yet as idle. *)
Theorem overstopped_pool_strands_items :
  p_threshold (cpu_params 5) = 1 /\
  exists s, sys_reachable 0 (cpu_params 5) 5 9 s /\ thr (pl s) = ∅ /\
    items (sh (pl s)) !! 0%nat = Some [ex_item 7] /\
    forall s', rtc (sys_step 0 (cpu_params 5) 9) s s' -> finished (sh (pl s')) = [].
Proof.
  split; [done|]. exists (sys_after 5 five_cpus). split; [exact (sys_after_reachable 5 five_cpus)|].
  split; [by vm_compute|]. split; [by vm_compute|]. intros s'. apply stranded; by vm_compute.
Qed.

Lemma dead_pool_stays_dead_witness :
  dead (sys_after 3 three_cpus) /\
  forall s', rtc (sys_step 0 (cpu_params 3) 9) (sys_after 3 three_cpus) s' -> dead s'.
Proof.
  assert (Hd : dead (sys_after 3 three_cpus)) by (split; by vm_compute).
  split; [exact Hd|]. intros s' Hr.
  refine (proj1 (dead_pool_stays_dead 0 (cpu_params 3) 3 9 _ s' _ (sys_after_reachable 3 three_cpus) Hd Hr)). lia.
Defined.
