(* ===== verification/Api.v ===== *)
(** * The public interface (src/api.c)

    The exported functions over the manager of Manager.v and any work item allocator
    that keeps the promises of [WitemAllocator] (WitemCache.v).  An out parameter is a
    result of the function, [None] when it is not written. *)

From stdpp Require Import base gmap list strings.
From Stdlib Require Import ZArith Lia.
From S2P Require Import Prelude Types WitemCache Manager Dispatch.

(** ** Attributes *)

Definition is_attr (a : attr_t) : bool := attr_sig a =? PTHREAD_WORKQUEUE_ATTR_SIG.

Definition pthread_workqueue_attr_init_np (a : attr_t) : Z * attr_t :=
  (0, Attr PTHREAD_WORKQUEUE_ATTR_SIG WORKQ_DEFAULT_PRIOQUEUE 0 (attr_pad a)).

Definition pthread_workqueue_attr_destroy_np (a : attr_t) : Z :=
  if is_attr a then 0 else EINVAL.

Definition pthread_workqueue_attr_getovercommit_np (a : attr_t) : Z * option Z :=
  if is_attr a then (0, Some (attr_overcommit a)) else (EINVAL, None).

Definition pthread_workqueue_attr_setovercommit_np (ocomm : Z) (a : attr_t) : Z * attr_t :=
  if is_attr a then (0, Attr (attr_sig a) (attr_queueprio a) ocomm (attr_pad a)) else (EINVAL, a).

Definition pthread_workqueue_attr_getqueuepriority_np (a : attr_t) : Z * option Z :=
  if is_attr a then (0, Some (attr_queueprio a)) else (EINVAL, None).

Definition pthread_workqueue_attr_setqueuepriority_np (qprio : Z) (a : attr_t) : Z * attr_t :=
  if is_attr a then
    if (qprio =? WORKQ_HIGH_PRIOQUEUE) || (qprio =? WORKQ_DEFAULT_PRIOQUEUE) ||
       (qprio =? WORKQ_LOW_PRIOQUEUE) || (qprio =? WORKQ_BG_PRIOQUEUE) ||
       (qprio =? WORKQ_BG_PRIOQUEUE_CONDITIONAL) || (qprio =? WORKQ_HIGH_PRIOQUEUE_CONDITIONAL)
    then (0, Attr (attr_sig a) qprio (attr_overcommit a) (attr_pad a))
    else (EINVAL, a)
  else (EINVAL, a).

(** ** Initialisation *)

(** The globals of api.c and the tunables of manager.c it sets. *)
Record globals := Globals {
  pwq_initialized : Z;
  DEBUG_WORKQUEUE : Z;
  PWQ_RT_THREADS : Z;
  g_PWQ_ACTIVE_CPU : Z;
  PWQ_SPIN_THREADS : Z
}.

(** The environment of the process: [None] is an unset variable, numbers are what [atoi]
    makes of the value. *)
Record process_env := ProcessEnv {
  ndebug : bool;                   (* compiled with NDEBUG *)
  env_PWQ_DEBUG : bool;            (* the variable is set *)
  env_PWQ_RT_THREADS : bool;
  env_PWQ_ACTIVE_CPU : option Z;
  env_PWQ_SPIN_THREADS : option Z;
  env_wmin : option Z;
  env_cpus : Z;
  env_sem_init_rv : Z;
  env_atfork_rv : Z
}.

Definition manager_env (e : process_env) (active : Z) : init_env :=
  InitEnv active (env_wmin e) (env_cpus e) (env_sem_init_rv e) (env_atfork_rv e).

Definition pthread_workqueue_init_np (e : process_env) (g : globals) (m : manager)
  : Z * globals * manager :=
  if negb (pwq_initialized g =? 0) then (0, g, m)
  else
    let debug := if ndebug e then 0 else if env_PWQ_DEBUG e then 1 else 0 in
    let rt := if env_PWQ_RT_THREADS e then 1 else 0 in
    let active := match env_PWQ_ACTIVE_CPU e with None => 0 | Some v => u32 v end in
    let spin := match env_PWQ_SPIN_THREADS e with None => PWQ_SPIN_THREADS g | Some v => u32 v end in
    let (status, m) := manager_init (manager_env e active) m in
    if status <? 0 then (-1, Globals (pwq_initialized g) debug rt active spin, m)
    else (0, Globals 1 debug rt active spin, m).

(** ** Queues *)

Definition valid_workq (q : workqueue) : Z := if sig q =? PTHREAD_WORKQUEUE_SIG then 1 else 0.

(** The guard of [pthread_workqueue_create_np]. *)
Definition bad_attr (attr : option attr_t) : bool :=
  match attr with
  | None => false
  | Some a => negb (attr_sig a =? PTHREAD_WORKQUEUE_ATTR_SIG) ||
              (attr_queueprio a <? 0) || (WORKQ_NUM_PRIOQUEUE <=? attr_queueprio a)
  end.

(** The structure [pthread_workqueue_create_np] fills in. *)
Definition new_workqueue (attr : option attr_t) : workqueue :=
  match attr with
  | None => Workqueue PTHREAD_WORKQUEUE_SIG 0 WORKQ_DEFAULT_PRIOQUEUE 0 0 []
  | Some a => Workqueue PTHREAD_WORKQUEUE_SIG 0 (attr_queueprio a) (attr_overcommit a) 0 []
  end.

(** [block] is the answer of [calloc], [rvs] the answers of [pthread_create] should the
    manager thread be started; the result is the status and [*workqp]. *)
Definition pthread_workqueue_create_np (attr : option attr_t) (block : option ptr) (rvs : list Z)
    (m : manager) : outcome (Z * option ptr * manager) :=
  if bad_attr attr then Ok (EINVAL, None, m)
  else
    match block with
    | None => Ok (ENOMEM, None, m)
    | Some workq =>
        let m := with_wqs (<[workq := new_workqueue attr]> (wqs m)) m in
        let* m := manager_workqueue_create rvs workq m in
        Ok (0, Some workq, m)
    end.

(** ** Items *)

Section Items.
Context {A : Type} `{WitemAllocator A}.

Record lib := Lib { l_mgr : manager; l_alloc : A }.

(** What a call leaves behind: the status, [*itemhandlep], [*gencountp], the requests to
    the thread library and the new state.  [thread] is the caller, [ans] the answers of
    the system allocator, [rv] that of [pthread_create]. *)
Record add_result := AddResult {
  ar_status : Z; ar_handle : option ptr; ar_gencount : option Z; ar_events : list event; ar_lib : lib
}.

Definition pthread_workqueue_additem_np (thread : Z) (workq : ptr) (workitem_func workitem_arg : Z)
    (itemhandlep gencountp : bool) (ans : answers) (rv : Z) (s : lib) : outcome add_result :=
  let* q := deref (wqs (l_mgr s) !! workq) in
  if (valid_workq q =? 0) || (workitem_func =? NULL) then Ok (AddResult EINVAL None None [] s)
  else
    let* (witem, a) := wa_alloc thread workitem_func workitem_arg ans (l_alloc s) in
    let* w := deref (wa_heap a !! witem) in
    let* (m, ev) := manager_workqueue_additem rv workq w (l_mgr s) in
    Ok (AddResult 0 (if itemhandlep then Some witem else None)
          (if gencountp then Some (gencount w) else None) ev (Lib m a)).
End Items.

(** ** Control *)

Definition pthread_workqueue_peek_np (key : string) (m : manager) : outcome Z := manager_peek key m.
Definition pthread_workqueue_suspend_np (m : manager) : outcome manager := manager_suspend m.
Definition pthread_workqueue_resume_np (m : manager) : manager := manager_resume m.
Definition pthread_workqueue_signal_np (m : manager) : manager := manager_signal m.

(** ** Lemmas *)

Lemma table_ok_fresh oc t h p q :
  table_ok oc t h -> h !! p = None -> p <> NULL -> table_ok oc t (<[p:=q]> h).
Proof.
  intros [Hsh Hb] Hn Hp.
  assert (Hne : forall i p', slots t !! i = Some p' -> p' <> NULL -> p' <> p).
  { intros i p' Hi Hp' ->. destruct (ts_slot _ _ _ Hsh i p Hi Hp') as (q' & Hq' & _). congruence. }
  split.
  - split; [apply Hsh|apply Hsh|]. intros i p' Hi Hp'. rewrite lookup_insert_ne by (symmetry; by eapply Hne).
    by apply (ts_slot _ _ _ Hsh).
  - intros i. unfold bit_ok in *. rewrite Hb. f_equal. f_equal. unfold slot_items.
    destruct (slots t !! i) as [p'|] eqn:Hi; [|done]. destruct (Z.eqb_spec p' NULL); [done|].
    by rewrite lookup_insert_ne by (symmetry; by eapply Hne).
Qed.

Lemma mgr_ok_fresh p q m :
  mgr_ok m -> wqs m !! p = None -> p <> NULL ->
  mgr_ok (with_wqs (<[p:=q]> (wqs m)) m) /\ unlisted p (with_wqs (<[p:=q]> (wqs m)) m).
Proof.
  intros [HW HO HN] Hn Hp. split.
  - split; simpl; [by apply table_ok_fresh..|]. by rewrite lookup_insert_ne.
  - split; intros i Hi; simpl in Hi.
    + destruct (ts_slot _ _ _ (proj1 HW) i p Hi Hp) as (q' & Hq' & _). congruence.
    + destruct (ts_slot _ _ _ (proj1 HO) i p Hi Hp) as (q' & Hq' & _). congruence.
Qed.

Lemma pending_fresh oc t p q m j :
  table_ok oc t (wqs m) -> wqs m !! p = None ->
  pending t (with_wqs (<[p:=q]> (wqs m)) m) j = pending t m j.
Proof.
  intros [Hsh _] Hn. unfold pending, slot_items. simpl. destruct (slots t !! j) as [p'|] eqn:Hj; [|done].
  destruct (Z.eqb_spec p' NULL) as [|Hp']; [done|]. destruct (ts_slot _ _ _ Hsh j p' Hj Hp') as (q' & Hq' & _).
  rewrite lookup_insert_ne; [done|congruence].
Qed.

(** The priority of a new queue is that of a slot. *)
Lemma good_attr_prio attr :
  bad_attr attr = false ->
  exists i, queueprio (new_workqueue attr) = Z.of_nat i /\ (i < 6)%nat /\ item_listhead (new_workqueue attr) = [].
Proof.
  destruct attr as [a|]; simpl; [|intros _; exists 1%nat; split_and!; [done|lia|done]].
  intros [[_ Hp]%orb_false_iff Hn]%orb_false_iff. apply Z.ltb_ge in Hp. apply Z.leb_gt in Hn.
  unfold WORKQ_NUM_PRIOQUEUE in Hn. exists (Z.to_nat (attr_queueprio a)). split_and!; [lia|lia|done].
Qed.

(** Creating a queue of a free priority through the interface. *)
Lemma create_np_free attr p n rvs i m :
  mgr_ok m -> bad_attr attr = false -> wqs m !! p = None -> p <> NULL ->
  queueprio (new_workqueue attr) = Z.of_nat i -> slots (table_of (new_workqueue attr) m) !! i = Some NULL ->
  exists m' q, pthread_workqueue_create_np attr (Some p) (replicate n EAGAIN ++ 0 :: rvs) m = Ok (0, Some p, m') /\
    mgr_ok m' /\ listed p q i m' /\ valid_workq q = 1 /\ overcommit q = overcommit (new_workqueue attr) /\
    sb m' = sb m /\ slots (table_of q m') = <[i := p]> (slots (table_of q m)) /\
    (forall j, pending (wqlist m') m' j = pending (wqlist m) m j) /\
    (forall j, pending (ocwq m') m' j = pending (ocwq m) m j).
Proof.
  intros Hok Hg Hn Hp Hi Hs. unfold pthread_workqueue_create_np. rewrite Hg.
  set (m0 := with_wqs _ m). destruct (mgr_ok_fresh p (new_workqueue attr) m Hok Hn Hp) as [Hok0 Hu].
  destruct (good_attr_prio attr Hg) as (i' & Hi' & _ & Hit).
  destruct (workqueue_create_free n rvs p (new_workqueue attr) i m0) as (m' & E & H1 & H2 & H3 & H4 & H5 & H6 & _);
    try done; [apply lookup_insert_eq|]. rewrite E. simpl.
  set (q' := set_wqlist_index (queueprio (new_workqueue attr)) (new_workqueue attr)) in *.
  assert (Ht : forall mm, table_of q' mm = table_of (new_workqueue attr) mm) by done.
  assert (Hlt : (i < length (slots (table_of (new_workqueue attr) m)))%nat) by by eapply lookup_lt_Some.
  exists m', q'. split; [done|]. split; [done|]. split.
  { split_and!; [done|done|]. rewrite Ht, H2. by apply list_lookup_insert_eq. }
  split; [by destruct attr|]. split; [done|]. split; [done|]. split; [rewrite !Ht; done|]. split; intros j.
  - rewrite H5. by apply (pending_fresh false _ _ _ _ _ (mo_wqlist _ Hok)).
  - rewrite H6. by apply (pending_fresh true _ _ _ _ _ (mo_ocwq _ Hok)).
Qed.

(** ** Properties *)

(** Attributes: after [attr_init], whatever the structure held, the defaults are read
    back; a setter's value is read back and leaves the other attribute alone; exactly the
    priorities 0 to 5 are accepted, the others change nothing; and on a structure that was
    not initialised every function answers EINVAL without writing anything. *)
Theorem attr_roundtrip a prio oc :
  let a0 := snd (pthread_workqueue_attr_init_np a) in
  pthread_workqueue_attr_getqueuepriority_np a0 = (0, Some WORKQ_DEFAULT_PRIOQUEUE) /\
  pthread_workqueue_attr_getovercommit_np a0 = (0, Some 0) /\
  (is_attr a = true ->
     (let '(rv, a') := pthread_workqueue_attr_setqueuepriority_np prio a in
      (rv = 0 <-> 0 <= prio < WORKQ_NUM_PRIOQUEUE) /\
      (rv = 0 -> pthread_workqueue_attr_getqueuepriority_np a' = (0, Some prio) /\
                 pthread_workqueue_attr_getovercommit_np a' = pthread_workqueue_attr_getovercommit_np a) /\
      (rv <> 0 -> rv = EINVAL /\ a' = a)) /\
     (let '(rv, a') := pthread_workqueue_attr_setovercommit_np oc a in
      rv = 0 /\ pthread_workqueue_attr_getovercommit_np a' = (0, Some oc) /\
      pthread_workqueue_attr_getqueuepriority_np a' = pthread_workqueue_attr_getqueuepriority_np a) /\
     pthread_workqueue_attr_destroy_np a = 0) /\
  (is_attr a = false ->
     pthread_workqueue_attr_setqueuepriority_np prio a = (EINVAL, a) /\
     pthread_workqueue_attr_setovercommit_np oc a = (EINVAL, a) /\
     pthread_workqueue_attr_getqueuepriority_np a = (EINVAL, None) /\
     pthread_workqueue_attr_getovercommit_np a = (EINVAL, None) /\
     pthread_workqueue_attr_destroy_np a = EINVAL).
Proof.
  intros a0. split; [done|]. split; [done|].
  unfold pthread_workqueue_attr_setqueuepriority_np, pthread_workqueue_attr_setovercommit_np,
    pthread_workqueue_attr_getqueuepriority_np, pthread_workqueue_attr_getovercommit_np,
    pthread_workqueue_attr_destroy_np.
  split; intros Ha; rewrite Ha; [|done]. unfold is_attr in *. split_and!; try (simpl; rewrite ?Ha; done).
  unfold WORKQ_HIGH_PRIOQUEUE, WORKQ_DEFAULT_PRIOQUEUE, WORKQ_LOW_PRIOQUEUE, WORKQ_BG_PRIOQUEUE,
    WORKQ_BG_PRIOQUEUE_CONDITIONAL, WORKQ_HIGH_PRIOQUEUE_CONDITIONAL, WORKQ_NUM_PRIOQUEUE, EINVAL.
  destruct ((prio =? 0) || (prio =? 1) || (prio =? 2) || (prio =? 3) || (prio =? 4) || (prio =? 5)) eqn:E;
    simpl; rewrite ?Ha; split_and!; try done; lia.
Qed.

Lemma attr_roundtrip_witness :
  let a := snd (pthread_workqueue_attr_init_np (Attr 0 9 9 [])) in
  pthread_workqueue_attr_getqueuepriority_np (snd (pthread_workqueue_attr_setqueuepriority_np 3 a)) = (0, Some 3) /\
  fst (pthread_workqueue_attr_setqueuepriority_np 6 a) <> 0.
Proof.
  intros a. destruct (attr_roundtrip a 3 0) as (_ & _ & H3 & _). destruct (attr_roundtrip a 6 0) as (_ & _ & H6 & _).
  destruct (H3 eq_refl) as ((_ & H & _) & _). destruct (H6 eq_refl) as ((H' & _) & _). split.
  - exact (proj1 (H eq_refl)).
  - intros E. apply H' in E. vm_compute in E. destruct E as [_ E]. discriminate E.
Defined.



(** [pthread_workqueue_init_np] is idempotent: once it has succeeded, any further call
    returns 0 and changes nothing, whatever the environment became; a failed call leaves
    the library uninitialised, so that the next call tries again. *)
Theorem init_np_idempotent e e' g m :
  let '(rv, g1, m1) := pthread_workqueue_init_np e g m in
  (rv = 0 \/ rv = -1) /\
  (rv = 0 -> pwq_initialized g1 <> 0 /\ pthread_workqueue_init_np e' g1 m1 = (0, g1, m1)) /\
  (rv = -1 -> pwq_initialized g1 = 0) /\
  (pwq_initialized g = 0 -> env_sem_init_rv e = 0 -> 0 <= env_atfork_rv e -> rv = 0).
Proof.
  unfold pthread_workqueue_init_np. destruct (Z.eqb_spec (pwq_initialized g) 0) as [E|E]; simpl.
  - unfold manager_init, _manager_init_common. simpl.
    destruct (Z.eqb_spec (env_sem_init_rv e) 0), (Z.ltb_spec (env_atfork_rv e) 0); simpl; split_and!; auto; intros; lia.
  - rewrite (proj2 (Z.eqb_neq _ 0) E). simpl. split_and!; auto; done.
Qed.

Section AddItem.
Context {A : Type} `{WitemAllocatorLaws A}.

(** C22.  [pthread_workqueue_additem_np], for every allocator that keeps its promises:
    an invalid queue or a null function gives EINVAL and no effect.  Otherwise the call
    returns 0; exactly one item, with the caller's function and argument, is appended
    behind the pending items of the queue; the handle names an item that is not in use by
    anyone else, the generation count reported is 0, and both invariants are kept.  Failures
    of the system allocator are never reported: the call waits until there is memory.  (The
    manual page announces ENOMEM and ESRCH, which the function never returns.) *)
Theorem additem_np_spec thread p q i f a hp gp ans rv (s : lib) live :
  mgr_ok (l_mgr s) -> listed p q i (l_mgr s) -> wa_inv (l_alloc s) live ->
  answers_ok ans (dom (wa_heap (l_alloc s))) ->
  let add := pthread_workqueue_additem_np thread p f a hp gp ans rv s in
  (valid_workq q = 0 \/ f = NULL -> add = Ok (AddResult EINVAL None None [] s)) /\
  (valid_workq q = 1 -> f <> NULL ->
   exists witem w ev m' a', add = Ok (AddResult 0 (if hp then Some witem else None)
                                    (if gp then Some 0 else None) ev (Lib m' a')) /\
     initialized_witem f a w /\ mgr_ok m' /\
     (forall j, pending (table_of q m') m' j =
        upd_fun (pending (table_of q (l_mgr s)) (l_mgr s)) i (pending (table_of q (l_mgr s)) (l_mgr s) i ++ [w]) j) /\
     (witem ∉ live) /\ wa_heap a' !! witem = Some w /\ wa_inv a' ({[witem]} ∪ live)).
Proof.
  intros Hok Hl Hinv Hans add. unfold add, pthread_workqueue_additem_np. pose proof Hl as (Hq & _ & _).
  rewrite Hq. simpl. split.
  - intros [->| ->]; [done|]. by rewrite orb_true_r.
  - intros -> Hf. simpl. rewrite (proj2 (Z.eqb_neq f NULL) Hf).
    destruct (wa_alloc_ok thread f a ans (l_alloc s) live Hinv Hans)
      as (witem & a' & w & Ea & Hfresh & Hw & Hi & Hinv' & _).
    rewrite Ea. simpl. rewrite Hw. simpl.
    assert (Hg : gencount w = 0) by apply Hi.
    assert (Hadd : exists m' ev, manager_workqueue_additem rv p w (l_mgr s) = Ok (m', ev) /\ mgr_ok m' /\
      (forall j, pending (table_of q m') m' j =
         upd_fun (pending (table_of q (l_mgr s)) (l_mgr s)) i (pending (table_of q (l_mgr s)) (l_mgr s) i ++ [w]) j)).
    { unfold table_of. destruct (Z.eqb_spec (overcommit q) 0) as [Ho|Ho]; simpl.
      - destruct (additem_ordinary rv p q i w _ Hok Hl Ho) as (m' & E & H1 & _ & H2 & _). eauto.
      - destruct (additem_overcommit rv p q i w _ Hok Hl Ho) as (m' & ev & E & H1 & H2 & _). eauto. }
    destruct Hadd as (m' & ev & -> & Hm & Hp). simpl. rewrite Hg.
    exists witem, w, ev, m', a'. by split_and!.
Qed.

(** C21.  From one end to the other: a queue created through the interface on a manager
    without pending items, then one item added to it; the next scan of a worker returns
    exactly that item, with the caller's function and argument and the priority of the
    queue, and leaves nothing behind. *)
Theorem submit_scan_roundtrip attr p n rvs i thread f a hp gp ans rv (s : lib) live :
  mgr_ok (l_mgr s) -> (forall j, pending (wqlist (l_mgr s)) (l_mgr s) j = []) ->
  bad_attr attr = false -> overcommit (new_workqueue attr) = 0 ->
  queueprio (new_workqueue attr) = Z.of_nat i -> slots (wqlist (l_mgr s)) !! i = Some NULL ->
  wqs (l_mgr s) !! p = None -> p <> NULL -> f <> NULL ->
  wa_inv (l_alloc s) live -> answers_ok ans (dom (wa_heap (l_alloc s))) ->
  exists m1 r w m3,
    pthread_workqueue_create_np attr (Some p) (replicate n EAGAIN ++ 0 :: rvs) (l_mgr s) = Ok (0, Some p, m1) /\
    pthread_workqueue_additem_np thread p f a hp gp ans rv (Lib m1 (l_alloc s)) = Ok r /\ ar_status r = 0 /\
    wqlist_scan true (l_mgr (ar_lib r)) = Ok (Some (w, Z.of_nat i), m3) /\ func w = f /\ func_arg w = a /\
    (forall j, pending (wqlist m3) m3 j = []).
Proof.
  intros Hok Hempty Hg Ho Hi Hs Hn Hp Hf Hinv Hans.
  destruct (create_np_free attr p n rvs i (l_mgr s)) as (m1 & q & E1 & Hok1 & Hl & Hv & Hoq & _ & _ & Hpd & _); try done.
  { unfold table_of. by rewrite Ho. }
  destruct (wa_alloc_ok thread f a ans (l_alloc s) live Hinv Hans) as (witem & a' & w & Ea & _ & Hw & Hini & _).
  rewrite Ho in Hoq. destruct (additem_ordinary rv p q i w m1 Hok1 Hl Hoq) as (m2 & E2 & Hok2 & _ & Hp2 & _).
  assert (Hp2' : forall j, pending (wqlist m2) m2 j = if decide (j = i) then [w] else []).
  { intros j. rewrite Hp2. unfold upd_fun. rewrite !Hpd, !Hempty. done. }
  exists m1. eexists. exists w. unfold pthread_workqueue_additem_np. pose proof Hl as (Hq & _ & _). simpl.
  rewrite Hq. simpl. rewrite Hv. simpl. rewrite (proj2 (Z.eqb_neq f NULL) Hf), Ea. simpl. rewrite Hw. simpl.
  rewrite E2. simpl.
  destruct (wqlist_scan_result true m2 Hok2) as [[_ [Hall|(_ & j & w' & rest & Hj & Hnull & _)]]|(j & w' & m3 & E3 & _ & Ht & _)].
  - specialize (Hall i). by rewrite Hp2', decide_True in Hall.
  - rewrite Hp2' in Hj. case_decide; simplify_eq. destruct Hini as [Hfw _]. congruence.
  - destruct Ht as (Hj & _ & Hoth). pose proof Hj as Hj'. rewrite Hp2' in Hj'. case_decide; simplify_eq.
    exists m3. split; [done|]. split; [done|]. split; [done|]. split; [done|].
    destruct Hini as (Hfw & Haw & _). split; [done|]. split; [done|]. intros j'.
    destruct (decide (j' = i)) as [->|Hne]; [congruence|]. by rewrite Hoth, Hp2', decide_False.
Qed.
End AddItem.

(** The system allocator fails once and then answers with a block of arbitrary contents. *)
Definition ex_answers : answers := [None; Some (1000, Work 5 5 5 5 5 5)].

Lemma ex_answers_ok (h : wheap) : 1000 ∉ dom h -> answers_ok ex_answers (dom h).
Proof. intros Hn. exists 1000, (Work 5 5 5 5 5 5). by split_and!. Qed.

Lemma additem_np_spec_witness :
  exists r, pthread_workqueue_additem_np 1 500 77 78 true true ex_answers 0 (Lib ex_mgr1 (∅ : wheap)) = Ok r /\
    ar_status r = 0 /\ ar_gencount r = Some 0.
Proof.
  assert (Hinv : wa_inv (∅ : wheap) ∅) by (split; set_solver).
  assert (Hans : answers_ok ex_answers (dom (∅ : wheap))) by (apply ex_answers_ok; set_solver).
  destruct (additem_np_spec 1 500 ex_queue 1 77 78 true true ex_answers 0 (Lib ex_mgr1 (∅ : wheap)) ∅
              ex_mgr1_ok ex_mgr1_listed Hinv Hans) as [_ H].
  destruct H as (witem & w & ev & m' & a' & E & _); [reflexivity|discriminate|].
  eexists. split; [exact E|]. split; reflexivity.
Defined.

Lemma submit_scan_roundtrip_witness :
  exists m1 r w m3,
    pthread_workqueue_create_np (Some (Attr PTHREAD_WORKQUEUE_ATTR_SIG 3 0 [])) (Some 700) [0] ex_mgr1 = Ok (0, Some 700, m1) /\
    pthread_workqueue_additem_np 1 700 77 78 false false ex_answers 0 (Lib m1 (∅ : wheap)) = Ok r /\
    wqlist_scan true (l_mgr (ar_lib r)) = Ok (Some (w, 3), m3) /\ func w = 77 /\ func_arg w = 78.
Proof.
  assert (Hinv : wa_inv (∅ : wheap) ∅) by (split; set_solver).
  assert (Hans : answers_ok ex_answers (dom (∅ : wheap))) by (apply ex_answers_ok; set_solver).
  destruct (submit_scan_roundtrip (Some (Attr PTHREAD_WORKQUEUE_ATTR_SIG 3 0 [])) 700 0 [] 3 1 77 78 false false
              ex_answers 0 (Lib ex_mgr1 (∅ : wheap)) ∅ ex_mgr1_ok) as (m1 & r & w & m3 & E1 & E2 & _ & E3 & Hf & Ha & _);
    try reflexivity; try discriminate; try assumption.
  - intros j. by apply (ffs_none false _ _ j (mo_wqlist _ ex_mgr1_ok)).
  - exists m1, r, w, m3. split; [exact E1|]. split; [exact E2|]. split; [exact E3|]. split; [exact Hf|exact Ha].
Defined.
