(* ===== verification/Lifecycle.v ===== *)
(** * The life of a work item, across the components

    A work item is allocated by [pthread_workqueue_additem_np] or [worker_stop]
    (src/api.c, src/posix/manager.c), linked into a queue with the STAILQ macros, taken by a
    worker or an overcommit worker and given back with [witem_free] (src/witem_cache.c).
    Here the operations on memory of ManagerMem.v run over any allocator that keeps the
    promises of [WitemAllocator].  [item_entry.stqe_next] of an item that was handed out
    belongs to the queues: it is in their memory. *)

From stdpp Require Import base gmap list.
From Stdlib Require Import ZArith Lia.
From S2P Require Import Prelude Types Stailq Places WitemCache Manager ManagerMem Dispatch Api.

Section Life.
Context {A : Type} `{WitemAllocatorLaws A}.

(** ** State *)

(** The manager, the memory of the queues, the allocator, and the variable [witem] of the
    threads that hold an item. *)
Record life := Life {
  lf_mg : manager; lf_qm : qmem; lf_al : A; lf_hold : gmap Z ptr
}.

Definition mem_of (s : life) : mem := Mem (lf_mg s) (lf_qm s) (wa_heap (lf_al s)).
Definition put_mem (x : mem) (s : life) : life := Life (mg x) (qm x) (lf_al s) (lf_hold s).
Definition set_hold (t : Z) (e : ptr) (s : life) : life :=
  Life (lf_mg s) (lf_qm s) (lf_al s) (<[t := e]> (lf_hold s)).

(** ** Operations *)

(** [witem_alloc(func, func_arg)]: the link of the new item is NULL. *)
Definition new_item (t f a : Z) (ans : answers) (s : life) : outcome (ptr * life) :=
  let* r := wa_alloc t f a ans (lf_al s) in
  Ok (r.1, Life (lf_mg s) (set_links <[r.1 := NULL]> (lf_qm s)) r.2 (lf_hold s)).

(** What a call puts into a queue and what it takes out: function and argument. *)
Abbreviation traffic := (option (Z * Z) * option (Z * Z))%type.

(** [pthread_workqueue_additem_np] with [manager_workqueue_additem]. *)
Definition life_submit (t : Z) (workq : ptr) (f a : Z) (ans : answers) (rv : Z) (s : life)
  : outcome (traffic * list event * life) :=
  let* q := deref (wqs (lf_mg s) !! workq) in
  if (valid_workq q =? 0) || (f =? NULL) then Ok ((None, None), [], s)
  else
    let* r := new_item t f a ans s in
    let* x := additem_mem rv workq r.1 (mem_of r.2) in
    Ok ((Some (f, a), None), x.2, put_mem x.1 r.2).

(** [worker_stop] *)
Definition life_stop (t : Z) (ans : answers) (s : life) : outcome (traffic * life) :=
  let* r := new_item t NULL NULL ans s in
  let* x := worker_stop_mem r.1 (mem_of r.2) in
  Ok ((Some (NULL, NULL), None), put_mem x.1 r.2).

(** [witem = wqlist_scan(...)] of a worker, or the search of an overcommit worker, and the
    reads of [witem->func] and [witem->func_arg] that follow. *)
Definition got (t : Z) (r : option ptr) (x : mem) (s : life) : outcome (traffic * life) :=
  match r with
  | None => Ok ((None, None), put_mem x s)
  | Some e =>
      let* w := deref (wk x !! e) in
      Ok ((None, Some (func w, func_arg w)), set_hold t e (put_mem x s))
  end.
Definition life_take (t : Z) (skip : bool) (s : life) : outcome (traffic * life) :=
  let* r := wqlist_scan_mem skip (mem_of s) in got t (fst <$> r.1) r.2 s.
Definition life_take_overcommit (t : Z) (s : life) : outcome (traffic * life) :=
  let* r := overcommit_scan_mem (mem_of s) in got t r.1 r.2 s.

(** [witem_free(witem)] *)
Definition life_free (t : Z) (s : life) : outcome (traffic * life) :=
  let* e := deref (lf_hold s !! t) in
  let* al := wa_free t e (lf_al s) in
  Ok ((None, None), Life (lf_mg s) (set_links (delete e) (lf_qm s)) al (delete t (lf_hold s))).

(** The destructor of the cache when a thread exits. *)
Definition life_exit (t : Z) (s : life) : outcome (traffic * life) :=
  let* al := wa_cleanup t (lf_al s) in Ok ((None, None), Life (lf_mg s) (lf_qm s) al (lf_hold s)).

Inductive life_op :=
| LSubmit (t : Z) (workq : ptr) (f a : Z) (ans : answers) (rv : Z)
| LStop (t : Z) (ans : answers)
| LTake (t : Z) (skip_thread_exit_events : bool)
| LTakeOvercommit (t : Z)
| LFree (t : Z)
| LExit (t : Z).

Definition life_do (o : life_op) (s : life) : outcome (traffic * life) :=
  match o with
  | LSubmit t workq f a ans rv => let* r := life_submit t workq f a ans rv s in Ok (r.1.1, r.2)
  | LStop t ans => life_stop t ans s
  | LTake t skip => life_take t skip s
  | LTakeOvercommit t => life_take_overcommit t s
  | LFree t => life_free t s
  | LExit t => life_exit t s
  end.

(** Any number of threads, call after call. *)
Fixpoint life_run (os : list life_op) (s : life) : outcome (list traffic * life) :=
  match os with
  | [] => Ok ([], s)
  | o :: os => let* r := life_do o s in let* r' := life_run os r.2 in Ok (r.1 :: r'.1, r'.2)
  end.

(** ** Invariant *)

(** [live] are the items the allocator has handed out: those on a queue and those a thread
    holds, each in one place. *)
Record life_ok (Q : gmap Z (list ptr)) (m : manager) (live : gset ptr) (s : life) : Prop := {
  lo_repr : repr Q (mem_of s) m;
  lo_mgr : mgr_ok m;
  lo_inv : wa_inv (lf_al s) live;
  lo_placed : placed Q (lf_hold s) live;
  lo_links : dom (q_next (lf_qm s)) = live
}.

(** What a call relies on: the client passes a queue that [pthread_workqueue_create_np] has
    listed; [malloc] eventually answers, with a block that is not in use; the manager stops
    workers only when there is a queue; a thread looks for work when it holds no item, and
    frees the item it holds. *)
Definition ready (o : life_op) (s : life) : Prop :=
  match o with
  | LSubmit t workq f a ans rv =>
      (exists q i, listed workq q i (lf_mg s)) /\ answers_ok ans (dom (wa_heap (lf_al s)))
  | LStop t ans =>
      (exists i p, slots (wqlist (lf_mg s)) !! i = Some p /\ p <> NULL) /\ answers_ok ans (dom (wa_heap (lf_al s)))
  | LTake t _ | LTakeOvercommit t => lf_hold s !! t = None
  | LFree t => is_Some (lf_hold s !! t)
  | LExit t => True
  end.

Fixpoint all_ready (os : list life_op) (s : life) : Prop :=
  match os with
  | [] => True
  | o :: os => ready o s /\ forall r s', life_do o s = Ok (r, s') -> all_ready os s'
  end.

(** How many items with a given function and argument wait in the queues. *)
Definition item_is (fa : Z * Z) (h : gmap ptr work) (e : ptr) : Z :=
  match h !! e with Some w => if bool_decide ((func w, func_arg w) = fa) then 1 else 0 | None => 0 end.
Definition waiting (fa : Z * Z) (h : gmap ptr work) (l : list ptr) : Z := foldr (fun e n => item_is fa h e + n) 0 l.
Definition queued (fa : Z * Z) (Q : gmap Z (list ptr)) (s : life) : Z := msum (waiting fa (wa_heap (lf_al s))) Q.

Definition is_fa (fa : Z * Z) (o : option (Z * Z)) : Z := if bool_decide (o = Some fa) then 1 else 0.
Definition put_in (fa : Z * Z) (rs : list traffic) : Z := foldr (fun r n => is_fa fa r.1 + n) 0 rs.
Definition taken_out (fa : Z * Z) (rs : list traffic) : Z := foldr (fun r n => is_fa fa r.2 + n) 0 rs.

(** ** Lemmas *)

Lemma waiting_app fa h l l' : waiting fa h (l ++ l') = waiting fa h l + waiting fa h l'.
Proof. induction l as [|e l IH]; simpl; [done|]. rewrite IH. lia. Qed.

Lemma waiting_ext fa h h' l : (forall e, e ∈ l -> h' !! e = h !! e) -> waiting fa h' l = waiting fa h l.
Proof.
  induction l as [|e l IH]; intros Hh; simpl; [done|]. rewrite IH by (intros; apply Hh; by right).
  unfold item_is. by rewrite Hh by left.
Qed.

(** The count depends on the live items only. *)
Lemma queued_ext fa Q m live s s' :
  life_ok Q m live s -> (forall e, e ∈ live -> wa_heap (lf_al s') !! e = wa_heap (lf_al s) !! e) ->
  queued fa Q s' = queued fa Q s.
Proof.
  intros Hok Hh. apply msum_ext. intros p l Hp. apply waiting_ext. intros e He.
  apply Hh. eapply placed_queued; [apply Hok|done|done].
Qed.

(** *** Allocation *)

(** Between the allocation and the insertion: the new item is on no queue. *)
Record fresh (Q : gmap Z (list ptr)) (m : manager) (live : gset ptr) (s0 : life) (e : ptr) (f a : Z) (s : life) : Prop := {
  fr_repr : repr Q (mem_of s) m;
  fr_loose : loose Q (mem_of s) e (Work NULL f a 0 0 NULL);
  fr_inv : wa_inv (lf_al s) ({[e]} ∪ live);
  fr_new : e ∉ live;
  fr_heap e' : e' ∈ live -> wa_heap (lf_al s) !! e' = wa_heap (lf_al s0) !! e';
  fr_links : dom (q_next (lf_qm s)) = {[e]} ∪ live;
  fr_hold : lf_hold s = lf_hold s0
}.

Lemma new_item_ok Q m live s t f a ans :
  life_ok Q m live s -> answers_ok ans (dom (wa_heap (lf_al s))) ->
  exists e s', new_item t f a ans s = Ok (e, s') /\ fresh Q m live s e f a s'.
Proof.
  intros Hok Hans. pose proof Hok as [Hr Hm Hi Hpl Hd].
  pose proof (fun p l e => placed_queued _ _ _ p l e Hpl) as Hq.
  destruct (wa_alloc_ok t f a ans (lf_al s) live Hi Hans) as (e & al & w & E & He & Hw & Hini & Hi' & Hfr).
  exists e, (Life (lf_mg s) (set_links <[e := NULL]> (lf_qm s)) al (lf_hold s)).
  unfold new_item. rewrite E. split; [done|]. split; simpl; [| |done|done|done|by rewrite dom_insert_L, Hd|done].
  - apply (repr_frame _ (mem_of s) _ (<[e := NULL]>)); [done|]. intros p l e' Hp He'. simpl.
    pose proof (Hq p l e' Hp He'). split; [by apply Hfr|]. apply lookup_insert_ne. by intros ->.
  - split.
    + split; [|split].
      * apply (wa_live _ _ _ Hi'). set_solver.
      * simpl. rewrite dom_insert_L. set_solver.
      * intros p l Hp Hin. apply He. by eapply Hq.
    + exists w. split; [done|]. by destruct Hini as (? & ? & ? & ? & _).
Qed.

(** The item is appended to one queue. *)
Lemma insert_ok Q m live s0 e f a s m' x ev ev' :
  life_ok Q m live s0 -> fresh Q m live s0 e f a s ->
  after Q (mem_of s) (Some e) (m', (None, ev)) (x, (None, ev')) -> mgr_ok m' ->
  exists Q', life_ok Q' m' ({[e]} ∪ live) (put_mem x s) /\
    forall fa, queued fa Q' (put_mem x s) = queued fa Q s0 + is_fa fa (Some (f, a)).
Proof.
  intros Hok Hf (Q' & Hr' & Hwk & Hdom & _ & Hmv & _) Hm'. simpl in *. destruct Hmv as (p & l & Hp & ->).
  pose proof Hok as [Hr Hm Hi Hpl Hd]. pose proof Hf as [_ [_ (w & Hw & Ha)] Hi' Hn Hheap Hlk Hhold].
  exists (<[p := l ++ [e]]> Q). split; [split|]; simpl; rewrite ?Hhold; try done.
  - unfold mem_of. simpl. rewrite <- Hwk. by destruct x.
  - by apply placed_add_queue.
  - by rewrite Hdom.
  - intros fa. unfold queued. simpl. rewrite (msum_insert _ Q p l (l ++ [e]) Hp), waiting_app. simpl.
    rewrite (msum_ext _ (waiting fa (wa_heap (lf_al s0)))).
    2:{ intros p' l' Hp'. apply waiting_ext. intros. apply Hheap. by eapply placed_queued. }
    unfold item_is. simpl in Hw. rewrite Hw. destruct Ha as (-> & -> & _). simpl. unfold is_fa.
    destruct (decide ((f, a) = fa)) as [<-|Hne].
    + rewrite !bool_decide_true by done. lia.
    + rewrite !bool_decide_false by congruence. lia.
Qed.

(** *** Taking and freeing *)

(** The first item of a queue moves to the variable of a thread. *)
Lemma take_ok Q m live s t m' w pr x e pr' ev ev' :
  life_ok Q m live s -> lf_hold s !! t = None ->
  after Q (mem_of s) None (m', (Some (w, pr), ev)) (x, (Some (e, pr'), ev')) -> mgr_ok m' ->
  exists Q' s', got t (Some e) x s = Ok ((None, Some (func w, func_arg w)), s') /\ life_ok Q' m' live s' /\
    forall fa, queued fa Q s = queued fa Q' s' + is_fa fa (Some (func w, func_arg w)).
Proof.
  intros Hok Ht (Q' & Hr' & Hwk & Hdom & _ & (p & l & Hp & ->) & ([_ (w' & Hw & Ha)] & _)) Hm'. simpl in *.
  pose proof Hok as [[_ HQ _] Hm Hi Hpl Hd].
  destruct Ha as (Hf & Hfa & _). exists (<[p := l]> Q), (set_hold t e (put_mem x s)).
  rewrite Hw. simpl. rewrite Hf, Hfa. split; [done|]. split; [split|]; simpl; try done.
  - unfold mem_of. simpl. simpl in Hwk. rewrite <- Hwk. by destruct x.
  - apply placed_pop; [done|by eapply repr_disjoint|done|done].
  - by rewrite Hdom.
  - intros fa. unfold queued. simpl. rewrite (msum_insert _ Q p (e :: l) l Hp). simpl.
    unfold item_is at 1. rewrite <- Hwk, Hw, Hf, Hfa. unfold is_fa.
    destruct (decide ((func w, func_arg w) = fa)) as [<-|Hne]; [rewrite !bool_decide_true by done|
      rewrite !bool_decide_false by congruence]; lia.
Qed.

(** The item in the variable of a thread goes back to the allocator. *)
Lemma free_ok Q m live s t :
  life_ok Q m live s -> is_Some (lf_hold s !! t) ->
  exists live' s', life_free t s = Ok ((None, None), s') /\ life_ok Q m live' s' /\
    forall fa, queued fa Q s' = queued fa Q s.
Proof.
  intros Hok [e Ht]. pose proof Hok as [Hr Hm Hi Hpl Hd].
  pose proof (fun p l e => placed_queued _ _ _ p l e Hpl) as Hq.
  destruct (wa_free_ok t e (lf_al s) live Hi (placed_holding _ _ _ _ _ Hpl Ht)) as (al & E & Hi' & Hfr).
  assert (Hoff : forall p l e', Q !! p = Some l -> e' ∈ l -> e' <> e).
  { intros p l e' Hp Hin ->. by eapply (pl_held _ _ _ Hpl). }
  exists (live ∖ {[e]}). unfold life_free. rewrite Ht. simpl. rewrite E. simpl. eexists. split; [done|].
  split; [split|]; simpl; try done.
  - apply (repr_frame _ (mem_of s) _ (delete e)); [done|]. intros p l e' Hp Hin.
    specialize (Hoff p l e' Hp Hin). split; [apply Hfr; [by eapply Hq|done]|]. by apply lookup_delete_ne.
  - by apply placed_drop_hold.
  - rewrite dom_delete_L. by rewrite Hd.
  - intros fa. apply msum_ext. intros p l Hp. apply waiting_ext. intros e' Hin. simpl.
    apply Hfr; [by eapply Hq|by eapply Hoff].
Qed.

Lemma exit_ok Q m live s t :
  life_ok Q m live s ->
  exists s', life_exit t s = Ok ((None, None), s') /\ life_ok Q m live s' /\ forall fa, queued fa Q s' = queued fa Q s.
Proof.
  intros Hok. pose proof Hok as [Hr Hm Hi Hpl Hd].
  pose proof (fun p l e => placed_queued _ _ _ p l e Hpl) as Hq.
  destruct (wa_cleanup_ok t (lf_al s) live Hi) as (al & E & Hi' & Hfr). unfold life_exit. rewrite E. simpl.
  eexists. split; [done|]. split.
  - split; simpl; try done. destruct (lf_qm s) as [qf ql qn] eqn:Eq.
    pose proof (repr_frame _ (mem_of s) m (fun x => x) (wa_heap al) Hr) as Hf. unfold mem_of in *. simpl in *.
    rewrite Eq in Hf. apply Hf. intros p l e Hp Hin. split; [apply Hfr; by eapply Hq|done].
  - intros fa. eapply queued_ext; [done|]. done.
Qed.

(** *** The calls *)

Lemma additem_ok rv p q i w m :
  mgr_ok m -> listed p q i m -> exists r, manager_workqueue_additem rv p w m = Ok r /\ mgr_ok r.1.
Proof.
  intros Hm Hl. destruct (decide (overcommit q = 0)) as [Ho|Ho].
  - destruct (additem_ordinary rv p q i w m Hm Hl Ho) as (m' & E & Hm' & _). by eexists.
  - destruct (additem_overcommit rv p q i w m Hm Hl Ho) as (m' & ev & E & Hm' & _). by eexists.
Qed.

Lemma stop_ok m i p :
  mgr_ok m -> slots (wqlist m) !! i = Some p -> p <> NULL -> exists r, worker_stop m = Ok r /\ mgr_ok r.1.
Proof.
  intros Hm Hi Hp. pose proof (first_workq_spec (slots (wqlist m))) as Hf.
  destruct (first_workq _) as [p'|]; [|by rewrite (Hf i p Hi) in Hp]. destruct Hf as (i' & Hi' & Hp' & Hlow).
  destruct (worker_stop_spec m Hm) as [_ Hs]. destruct (Hs i' p' Hi' Hp' Hlow) as (m' & E & Hm' & _). by eexists.
Qed.

(** What a call does: the traffic, the manager it ends with, and the number of waiting items. *)
Definition done_ok (Q : gmap Z (list ptr)) (s : life) (m' : manager) (r : traffic) (y : outcome (traffic * life)) : Prop :=
  exists s' Q' live', y = Ok (r, s') /\ life_ok Q' m' live' s' /\
    forall fa, queued fa Q s + is_fa fa r.1 = is_fa fa r.2 + queued fa Q' s'.

(** A new item is inserted by a call that succeeds on lists. *)
Lemma push_ok Q m live s t f a ans m' ev call_m :
  life_ok Q m live s -> answers_ok ans (dom (wa_heap (lf_al s))) -> mgr_ok m' ->
  (forall e s', fresh Q m live s e f a s' ->
     sim (fun x y => after Q (mem_of s') (Some e) (x.1, (None, x.2)) (y.1, (None, y.2))) (Ok (m', ev)) (call_m e (mem_of s'))) ->
  done_ok Q s m' (Some (f, a), None)
    (let* r := new_item t f a ans s in
     let* x := call_m r.1 (mem_of r.2) in
     Ok ((Some (f, a), None), put_mem (x : mem * list event).1 r.2)).
Proof.
  intros Hok Hans Hm' Hsim. destruct (new_item_ok Q m live s t f a ans Hok Hans) as (e & s1 & E & Hf).
  rewrite E. simpl. destruct (sim_ok _ _ _ (Hsim e s1 Hf)) as ([x ev'] & E' & Ha). rewrite E'. simpl in *.
  destruct (insert_ok _ _ _ _ _ _ _ _ _ _ _ _ Hok Hf Ha Hm') as (Q' & Hok' & Hc).
  eexists _, Q', _. split; [done|]. split; [done|]. intros fa. simpl. rewrite (Hc fa).
  unfold is_fa at 2. simpl. lia.
Qed.

(** The result of a search. *)
Lemma scan_ok Q m live s t r m' r' x ev ev' :
  life_ok Q m live s -> lf_hold s !! t = None ->
  after Q (mem_of s) None (m', (r, ev)) (x, (r', ev')) -> mgr_ok m' ->
  done_ok Q s m' (None, (fun w => (func w.1, func_arg w.1)) <$> r) (got t (fst <$> r') x s).
Proof.
  intros Hok Ht Ha Hm'. destruct r as [[w pr]|], r' as [[e pr']|]; try (by destruct Ha as (? & ? & ? & ? & ? & ? & ?)).
  - destruct (take_ok _ _ _ _ _ _ _ _ _ _ _ _ _ Hok Ht Ha Hm') as (Q' & s' & E & Hok' & Hc).
    eexists _, Q', _. split; [exact E|]. split; [done|]. intros fa. rewrite (Hc fa).
    unfold is_fa at 2. simpl. lia.
  - destruct Ha as (Q' & Hr & Hwk & Hdom & _ & -> & _). simpl in *.
    eexists _, Q, live. split; [done|]. split; [|intros fa; unfold queued, is_fa; simpl; lia].
    destruct Hok as [_ _ Hi Hpl Hd]. split; simpl; try done; [|by rewrite Hdom].
    unfold mem_of. simpl. simpl in Hwk. rewrite <- Hwk. by destruct x.
Qed.

(** A submission to a listed queue. *)
Lemma submit_ok Q m live s t p q i f a ans rv m' ev :
  life_ok Q m live s -> answers_ok ans (dom (wa_heap (lf_al s))) -> listed p q i (lf_mg s) ->
  (valid_workq q =? 0) || (f =? NULL) = false ->
  manager_workqueue_additem rv p (Work NULL f a 0 0 NULL) m = Ok (m', ev) -> mgr_ok m' ->
  exists s' Q' live', life_submit t p f a ans rv s = Ok ((Some (f, a), None), ev, s') /\
    life_ok Q' m' live' s' /\ lf_hold s' = lf_hold s /\
    forall fa, queued fa Q' s' = queued fa Q s + is_fa fa (Some (f, a)).
Proof.
  intros Hok Hans Hl Hv E Hm'. unfold life_submit. rewrite (proj1 Hl). cbn [deref obind]. rewrite Hv.
  destruct (new_item_ok Q m live s t f a ans Hok Hans) as (e & s1 & E1 & Hf). pose proof Hf as [Hr Hlo _ _ _ _ Hh].
  pose proof (additem_sim _ _ _ Hr rv p _ _ Hlo) as Hs. rewrite E in Hs.
  destruct (sim_ok _ _ _ Hs) as ([x ev'] & E' & Ha). rewrite E1. cbn [obind fst snd]. rewrite E'. cbn [obind fst snd] in *.
  destruct (insert_ok _ _ _ _ _ _ _ _ _ _ _ _ Hok Hf Ha Hm') as (Q' & Hok' & Hc).
  destruct Ha as (_ & _ & _ & _ & Hev & _). simpl in Hev. subst ev'.
  exists (put_mem x s1), Q', ({[e]} ∪ live). by split_and!.
Qed.

(** The search of an overcommit worker. *)
Lemma take_overcommit_ok Q m live s t r m' :
  life_ok Q m live s -> lf_hold s !! t = None -> overcommit_scan m = Ok (r, m') -> mgr_ok m' ->
  done_ok Q s m' (None, (fun w => (func w, func_arg w)) <$> r) (life_take_overcommit t s).
Proof.
  intros Hok Ht E Hm'. unfold life_take_overcommit. pose proof (overcommit_scan_sim _ _ _ (lo_repr _ _ _ _ Hok)) as Hs.
  rewrite E in Hs. destruct (sim_ok _ _ _ Hs) as ([r' x] & -> & Ha). simpl in *.
  assert (Hf : forall r : option ptr, r = fst <$> ((fun e => (e, 0)) <$> r)) by (by intros []).
  pose proof (scan_ok _ _ _ _ t _ _ _ _ _ _ Hok Ht Ha Hm') as Hd. rewrite <- Hf in Hd. by destruct r.
Qed.

Lemma life_do_ok o Q m live s : life_ok Q m live s -> ready o s -> exists m' r, done_ok Q s m' r (life_do o s).
Proof.
  intros Hok Hrd. pose proof (rp_mgr _ _ _ (lo_repr _ _ _ _ Hok)) as Hmg. simpl in Hmg.
  pose proof (lo_mgr _ _ _ _ Hok) as Hm. destruct o as [t p f a ans rv|t ans|t skip|t|t|t]; simpl in *.
  - destruct Hrd as [(q & i & Hl) Hans]. destruct ((valid_workq q =? 0) || (f =? NULL)) eqn:Hv.
    { exists m, (None, None). unfold life_submit. rewrite (proj1 Hl). simpl. rewrite Hv.
      eexists s, Q, live. split; [done|]. split; [done|]. intros fa. unfold is_fa. simpl. lia. }
    pose proof Hl as Hl0. rewrite Hmg in Hl0. destruct (forget_listed _ _ _ _ Hl0) as (q' & Hl' & _).
    destruct (additem_ok rv p q' i (Work NULL f a 0 0 NULL) m Hm Hl') as ([m' ev] & E & Hm').
    exists m', (Some (f, a), None).
    destruct (submit_ok _ _ _ _ t _ _ _ _ a _ _ _ _ Hok Hans Hl Hv E Hm') as (s' & Q' & live' & -> & Hok' & _ & Hc).
    exists s', Q', live'. split; [done|]. split; [done|]. intros fa. rewrite (Hc fa). unfold is_fa at 2. simpl. lia.
  - destruct Hrd as [(i & p & Hi & Hp) Hans]. rewrite Hmg in Hi.
    destruct (stop_ok m i p Hm Hi Hp) as ([m' ev] & E & Hm'). exists m', (Some (NULL, NULL), None).
    eapply (push_ok Q m live s t NULL NULL ans m' ev worker_stop_mem); [done|done|done|].
    intros e s' [Hr Hlo _ _ _ _ _]. rewrite <- E. apply (worker_stop_sim _ _ _ Hr). exact Hlo.
  - unfold life_take. pose proof (wqlist_scan_sim _ _ _ (lo_repr _ _ _ _ Hok) skip) as Hs.
    destruct (wqlist_scan_result skip m Hm) as [[E _]|(i & w & m' & E & Hm' & _)]; rewrite E in Hs;
      destruct (sim_ok _ _ _ Hs) as ([r x] & -> & Ha); eexists _, _; by eapply scan_ok.
  - destruct (overcommit_scan_result m Hm) as [[E _]|(i & w & m' & E & Hm' & _)];
      eexists _, _; by eapply take_overcommit_ok.
  - destruct (free_ok _ _ _ _ t Hok Hrd) as (live' & s' & E & Hok' & Hc). exists m, (None, None).
    eexists _, Q, live'. split; [done|]. split; [done|]. intros fa. rewrite (Hc fa). unfold is_fa. simpl. lia.
  - destruct (exit_ok _ _ _ _ t Hok) as (s' & E & Hok' & Hc). exists m, (None, None).
    eexists _, Q, live. split; [done|]. split; [done|]. intros fa. rewrite (Hc fa). unfold is_fa. simpl. lia.
Qed.

(** The life of the work items, through the public interface, the queues in memory and
    the allocator, whichever of the three caches it is: any sequence of submissions, calls
    of [worker_stop], searches by workers and overcommit workers, frees and thread exits, by
    any number of threads, runs without a fault (no item is used after it was freed, freed
    twice, or linked twice); at the end the items the allocator has handed out are exactly
    those on a queue and those in a thread's hands, so that nothing leaks; and for every
    function and argument the items put in are those taken out and those still waiting. *)
Theorem item_lifecycle os Q m live s :
  life_ok Q m live s -> all_ready os s ->
  exists rs s' Q' m' live', life_run os s = Ok (rs, s') /\ life_ok Q' m' live' s' /\
    (forall fa, queued fa Q s + put_in fa rs = taken_out fa rs + queued fa Q' s') /\
    ((forall p l, Q' !! p = Some l -> l = []) -> lf_hold s' = ∅ -> wa_inv (lf_al s') ∅).
Proof.
  revert Q m live s. induction os as [|o os IH]; intros Q m live s Hok Hrd; simpl.
  - eexists _, _, Q, m, live. split; [done|]. split; [done|]. split; [intros; simpl; lia|].
    intros Hq Hh. rewrite <- (placed_nothing _ _ _ (lo_placed _ _ _ _ Hok) Hq Hh). apply (lo_inv _ _ _ _ Hok).
  - destruct Hrd as [Ho Hrd]. destruct (life_do_ok o Q m live s Hok Ho) as (m1 & r & s1 & Q1 & live1 & E & Hok1 & Hc).
    rewrite E. simpl. destruct (IH Q1 m1 live1 s1 Hok1 (Hrd r s1 E)) as (rs & s' & Q' & m' & live' & E' & Hok' & Hc' & Hlk).
    rewrite E'. simpl. eexists _, _, Q', m', live'. split; [done|]. split; [done|]. split; [|done].
    intros fa. specialize (Hc fa). specialize (Hc' fa). simpl. lia.
Qed.
End Life.

(** ** One item through the per-thread cache *)

Section LifeWitness.
Import TsdCache TsdInstance.

(** An empty queue of priority 1 at address 500. *)
Definition ex_life : life (A := tstate) :=
  Life (forget ex_mgr1) (QMem {[500 := NULL]} {[500 := CFirst 500]} ∅) wa_init ∅.
Definition ex_life_ops : list life_op :=
  [LSubmit 1 500 7 8 [None; Some (100, junk)] 0; LTake 2 true; LFree 2; LExit 2].

Lemma ex_life_ok : life_ok {[500 := []]} ex_mgr1 ∅ ex_life.
Proof.
  split; [|exact ex_mgr1_ok|apply wa_init_ok| |done].
  - split; [done| |].
    + split.
      * intros h l [<- <-]%lookup_singleton_Some. split_and!; [done|done|done|constructor].
      * intros h1 h2 l1 l2 x [<- <-]%lookup_singleton_Some [<- <-]%lookup_singleton_Some. set_solver.
    + intros p q Hp. change (wqs ex_mgr1) with ({[500 := Manager.ex_queue]} : gmap Z workqueue) in Hp.
      apply lookup_singleton_Some in Hp as [<- <-]. by exists [].
  - split; [|done|done]. intros e. split; [set_solver|].
    intros [(p & l & [<- <-]%lookup_singleton_Some & He)|(t & Ht)]; [set_solver|done].
Qed.

Lemma item_lifecycle_witness :
  exists s' Q' m' live',
    life_run ex_life_ops ex_life = Ok ([(Some (7, 8), None); (None, Some (7, 8)); (None, None); (None, None)], s') /\
    life_ok Q' m' live' s'.
Proof.
  destruct (item_lifecycle ex_life_ops {[500 := []]} ex_mgr1 ∅ ex_life ex_life_ok) as (rs & s' & Q' & m' & live' & E & Hok & _).
  - split; [split|].
    + exists (set_items [] Manager.ex_queue), 1%nat. by split_and!.
    + exists 100, junk. split_and!; [done|done|]. intros Hin. apply elem_of_dom in Hin as [? Hin]. done.
    + intros r s1 E. vm_compute in E. injection E as <- <-. split; [done|].
      intros r s1 E. vm_compute in E. injection E as <- <-. split; [by eexists|].
      intros r s1 E. vm_compute in E. injection E as <- <-. by split.
  - exists s', Q', m', live'. split; [|exact Hok]. rewrite E. vm_compute in E. by injection E as <- <-.
Defined.
End LifeWitness.
