(* ===== verification/OvercommitMem.v ===== *)
(** * The overcommit workers over memory

    Overcommit.v interleaves the overcommit workers of src/posix/manager.c over queues that
    are lists.  Here they work on the memory of Lifecycle.v: the queues are STAILQs, the
    items come from an allocator of WitemCache.v.  A worker that has taken an item reads its
    function and argument, gives it back with [witem_free], and calls the function
    afterwards; when it exits the destructor of the cache runs. *)

From stdpp Require Import base gmap list.
From Stdlib Require Import ZArith Lia.
From S2P Require Import Prelude Types Stailq Places WitemCache Manager ManagerMem Dispatch Overcommit Api Lifecycle.

(** ** Threads *)

Inductive othread :=
| OReady                  (* before pthread_mutex_lock at the head of the loop *)
| OHolds (f a : Z)        (* func and func_arg are read: witem_free(witem) *)
| OCalls (f a : Z)        (* func(func_arg) *)
| OWait                   (* inside pthread_cond_timedwait *)
| OWoken (rv : Z)         (* the wait ended with rv *)
| OExits.                 (* pthread_exit: the destructor of the cache *)

Section OvercommitMem.
Context {A : Type} `{WitemAllocatorLaws A}.

Definition life_counts (i k : Z) (s : life (A := A)) : life :=
  Life (with_oc_counts i k (lf_mg s)) (lf_qm s) (lf_al s) (lf_hold s).

(** From the head of the loop, with the mutex held, to the next release of it. *)
Definition oc_loop_mem (t : nat) (s : life) : outcome (othread * life) :=
  let* r := life_take_overcommit (Z.of_nat t) s in
  match r.1.2 with
  | Some (f, a) => Ok (OHolds f a, r.2)
  | None => Ok (OWait, life_counts (ocwq_idle_threads (lf_mg r.2) +u 1) (ocwq_signal_count (lf_mg r.2)) r.2)
  end.

(** From the return of [pthread_cond_timedwait]. *)
Definition oc_woken_mem (t : nat) (rv : Z) (s : life) : outcome (othread * life) :=
  if 0 <? ocwq_signal_count (lf_mg s) then
    oc_loop_mem t (life_counts (ocwq_idle_threads (lf_mg s)) (ocwq_signal_count (lf_mg s) -u 1) s)
  else if (rv =? 0) || (rv =? ETIMEDOUT) then
    Ok (OExits, life_counts (ocwq_idle_threads (lf_mg s) -u 1) (ocwq_signal_count (lf_mg s)) s)
  else Aborts.

(** One step of a thread: its next position, and the call it makes. *)
Definition ostep (t : nat) (s : life) (x : othread) : outcome (life * option othread * option (Z * Z)) :=
  match x with
  | OReady => let* r := oc_loop_mem t s in Ok (r.2, Some r.1, None)
  | OHolds f a => let* r := life_free (Z.of_nat t) s in Ok (r.2, Some (OCalls f a), None)
  | OCalls f a => Ok (s, Some OReady, Some (f, a))
  | OWait => Blocks
  | OWoken rv => let* r := oc_woken_mem t rv s in Ok (r.2, Some r.1, None)
  | OExits => let* r := life_exit (Z.of_nat t) s in Ok (r.2, None, None)
  end.

(** ** The system *)

Record omstate := OMState {
  om_life : life (A := A);
  om_thr : gmap nat othread;
  om_added : list (Z * Z);
  om_done : list (Z * Z);
  om_failed : Z
}.

(** [pthread_cond_signal(&ocwq_has_work)] *)
Inductive osignal (thr : gmap nat othread) : gmap nat othread -> Prop :=
| OSignalOne t : thr !! t = Some OWait -> osignal thr (<[t:=OWoken 0]> thr)
| OSignalNone : (forall t, thr !! t <> Some OWait) -> osignal thr thr.

(** A client passes a queue of the overcommit class that was listed and is valid, and a
    function; [malloc] answers in the end. *)
Definition may_submit (p : ptr) (f : Z) (ans : answers) (s : life) : Prop :=
  f <> NULL /\ answers_ok ans (dom (wa_heap (lf_al s))) /\
  exists q i, listed p q i (lf_mg s) /\ overcommit q <> 0 /\ valid_workq q = 1.

(** The steps of the threads, of the clients and of the system, as in Overcommit.v. *)
Inductive om_step (s : omstate) : omstate -> Prop :=
| OmMove t x l o call :
    om_thr s !! t = Some x -> ostep t (om_life s) x = Ok (l, o, call) ->
    om_step s (OMState l (set_thr t o (om_thr s)) (om_added s)
                 (om_done s ++ match call with Some fa => [fa] | None => [] end) (om_failed s))
| OmAddSignal t p f a ans rv r l thr' :
    may_submit p f ans (om_life s) -> life_submit t p f a ans rv (om_life s) = Ok (r, [SignalOcwq], l) ->
    osignal (om_thr s) thr' ->
    om_step s (OMState l thr' (om_added s ++ [(f, a)]) (om_done s) (om_failed s))
| OmAddSpawn t p f a ans rv r l t' :
    may_submit p f ans (om_life s) -> life_submit t p f a ans rv (om_life s) = Ok (r, [SpawnOvercommit], l) ->
    om_thr s !! t' = None -> msum (fun _ => 1) (om_thr s) < THREADS_MAX ->
    om_step s (OMState l (<[t':=OReady]> (om_thr s)) (om_added s ++ [(f, a)]) (om_done s) (om_failed s))
| OmAddFailed t p f a ans rv r l :
    may_submit p f ans (om_life s) -> life_submit t p f a ans rv (om_life s) = Ok (r, [SpawnFailed], l) ->
    om_step s (OMState l (om_thr s) (om_added s ++ [(f, a)]) (om_done s) (om_failed s + 1))
| OmWake t rv :
    om_thr s !! t = Some OWait -> rv = 0 \/ rv = ETIMEDOUT ->
    om_step s (OMState (om_life s) (<[t:=OWoken rv]> (om_thr s)) (om_added s) (om_done s) (om_failed s))
| OmCreate n rvs p q i m' :
    wqs (lf_mg (om_life s)) !! p = Some q -> unlisted p (lf_mg (om_life s)) -> STAILQ_EMPTY p (lf_qm (om_life s)) = Ok true ->
    queueprio q = Z.of_nat i -> (i < PTHREAD_WORKQUEUE_MAX)%nat ->
    manager_workqueue_create (replicate n EAGAIN ++ 0 :: rvs) p (lf_mg (om_life s)) = Ok m' ->
    om_step s (OMState (put_mem (Mem m' (lf_qm (om_life s)) (wa_heap (lf_al (om_life s)))) (om_life s)) (om_thr s)
                 (om_added s) (om_done s) (om_failed s))
| OmClientExit t r l :
    life_exit t (om_life s) = Ok (r, l) ->
    om_step s (OMState l (om_thr s) (om_added s) (om_done s) (om_failed s)).

(** Queues are there, empty; nothing was submitted. *)
Definition om_initial (s : omstate) : Prop :=
  (exists Q m, life_ok Q m ∅ (om_life s) /\ (forall j, pending (ocwq m) m j = [])) /\
  ocwq_idle_threads (lf_mg (om_life s)) = 0 /\ ocwq_signal_count (lf_mg (om_life s)) = 0 /\
  om_thr s = ∅ /\ om_added s = [] /\ om_done s = [] /\ om_failed s = 0.

Definition om_reachable (s : omstate) : Prop := exists s0, om_initial s0 /\ rtc om_step s0 s.

(** ** The state of Overcommit.v that a state over memory stands for *)

Definition fa_of (w : work) : Z * Z := (func w, func_arg w).

(** The position of a thread, with the item in its variable [witem]. *)
Definition oth_sim (hold : option ptr) (x : option othread) (y : option octhread) : Prop :=
  match x with
  | Some OReady => y = Some TReady /\ hold = None
  | Some (OHolds f a) => (exists w, y = Some (TRun w) /\ fa_of w = (f, a)) /\ is_Some hold
  | Some (OCalls f a) => (exists w, y = Some (TRun w) /\ fa_of w = (f, a)) /\ hold = None
  | Some OWait => y = Some TWait /\ hold = None
  | Some (OWoken rv) => y = Some (TWoken rv) /\ hold = None
  | Some OExits | None => y = None /\ hold = None
  end.

Record osim (Q : gmap Z (list ptr)) (live : gset ptr) (s : omstate) (a : ocstate) : Prop := {
  os_life : life_ok Q (oc_m a) live (om_life s);
  os_thr t : oth_sim (lf_hold (om_life s) !! Z.of_nat t) (om_thr s !! t) (oc_thr a !! t);
  os_keys k e : lf_hold (om_life s) !! k = Some e -> exists t, k = Z.of_nat t;
  os_added : om_added s = fa_of <$> oc_added a;
  os_done : om_done s = fa_of <$> oc_done a;
  os_failed : om_failed s = oc_failed a
}.

(** ** Lemmas *)

Lemma counts_ok i k Q m live s : life_ok Q m live s -> life_ok Q (with_oc_counts i k m) live (life_counts i k s).
Proof.
  intros [H1 H2 H3 H4 H5]. split; try done; [|by apply with_oc_counts_ok].
  apply (repr_vars Q (mem_of s) m (with_oc_counts i k (lf_mg s))); [done| |done]. pose proof (rp_mgr _ _ _ H1) as E. simpl in E. by rewrite E.
Qed.

(** The manager over memory has the counters of the manager. *)
Lemma mgr_counts Q m live s : life_ok Q m live s ->
  ocwq_idle_threads (lf_mg s) = ocwq_idle_threads m /\ ocwq_signal_count (lf_mg s) = ocwq_signal_count m.
Proof. intros Hok. pose proof (rp_mgr _ _ _ (lo_repr _ _ _ _ Hok)) as Hm. simpl in Hm. by rewrite Hm. Qed.

Lemma take_hold t s r s' :
  life_take_overcommit t s = Ok (r, s') ->
  match r.2 with Some _ => exists e, lf_hold s' = <[t := e]> (lf_hold s) | None => lf_hold s' = lf_hold s end.
Proof.
  unfold life_take_overcommit. destruct (overcommit_scan_mem _) as [[[e|] x]| | |]; simpl; try done.
  - destruct (wk x !! e); simpl; [|done]. intros [= <- <-]. simpl. eauto.
  - by intros [= <- <-].
Qed.

(** What is in the hands of the other threads. *)
Definition others (t : nat) (s s' : life (A := A)) : Prop :=
  forall k, k <> Z.of_nat t -> lf_hold s' !! k = lf_hold s !! k.

(** One pass of the loop. *)
Lemma loop_sim Q m live s t :
  life_ok Q m live s -> lf_hold s !! Z.of_nat t = None ->
  exists y s' Q' live' x m', oc_loop_mem t s = Ok (y, s') /\ oc_loop m = Ok (x, m') /\
    life_ok Q' m' live' s' /\ oth_sim (lf_hold s' !! Z.of_nat t) (Some y) (Some x) /\ others t s s'.
Proof.
  intros Hok Ht. assert (Hsc : exists r m', overcommit_scan m = Ok (r, m') /\ mgr_ok m').
  { destruct (overcommit_scan_result m (lo_mgr _ _ _ _ Hok)) as [[E _]|(i & w & m' & E & Hm' & _)]; [|eauto].
    exists None, m. split; [done|apply Hok]. }
  destruct Hsc as (r & m' & E & Hm').
  destruct (take_overcommit_ok Q m live s (Z.of_nat t) r m' Hok Ht E Hm') as (s' & Q' & live' & E' & Hok' & _).
  pose proof (take_hold _ _ _ _ E') as Hh. unfold oc_loop_mem, oc_loop. rewrite E', E. simpl in *.
  destruct r as [w|]; simpl in *.
  - destruct Hh as [e Hh]. exists (OHolds (func w) (func_arg w)), s', Q', live', (TRun w), m'. split_and!; try done.
    + by exists w.
    + rewrite Hh, lookup_insert_eq. by eexists.
    + intros k Hk. by rewrite Hh, lookup_insert_ne.
  - destruct (mgr_counts _ _ _ _ Hok') as [-> ->].
    eexists OWait, _, Q', live', TWait, _. split; [done|]. split; [done|]. split; [by apply counts_ok|].
    split; [split; [done|by simpl; rewrite Hh]|]. intros k _. simpl. by rewrite Hh.
Qed.

(** A thread moves. *)
Lemma osim_move Q live s a t o y l m' Q' live' dn dn' :
  osim Q live s a -> life_ok Q' m' live' l -> others t (om_life s) l -> oth_sim (lf_hold l !! Z.of_nat t) o y ->
  dn = fa_of <$> dn' ->
  osim Q' live' (OMState l (set_thr t o (om_thr s)) (om_added s) dn (om_failed s))
    (OcState m' (set_thr t y (oc_thr a)) (oc_added a) dn' (oc_failed a)).
Proof.
  intros [H1 H2 H3 H4 H5 H6] Hok Hoth Hy Hd. split; simpl; try done.
  - intros t'. rewrite !set_thr_lookup. case_decide as E; [by subst|]. rewrite Hoth by lia. apply H2.
  - intros k e Hk. destruct (decide (k = Z.of_nat t)) as [->|Hne]; [eauto|]. rewrite Hoth in Hk by done. eauto.
Qed.

Lemma oc_same (a : ocstate) t y : oc_thr a !! t = y ->
  OcState (oc_m a) (set_thr t y (oc_thr a)) (oc_added a) (oc_done a) (oc_failed a) = a.
Proof. intros Ht. rewrite set_thr_same by done. by destruct a. Qed.

Section Follow.
Context (Q : gmap Z (list ptr)) (live : gset ptr) (s : omstate) (a : ocstate).
Hypothesis Hs : osim Q live s a.
Hypothesis Hinv : oc_inv a.

(** What is shown of a step: it does not fault, and Overcommit.v follows. *)
Definition ofollows (t : nat) (y : outcome (life * option othread * option (Z * Z))) : Prop :=
  match y with
  | Ok (l, o, call) =>
      exists Q' live' a', rtc oc_step a a' /\
        osim Q' live' (OMState l (set_thr t o (om_thr s)) (om_added s)
                         (om_done s ++ match call with Some fa => [fa] | None => [] end) (om_failed s)) a'
  | Blocks => True
  | Faults | Aborts => False
  end.

Lemma ostep_follows t x : om_thr s !! t = Some x -> ofollows t (ostep t (om_life s) x).
Proof.
  intros Ht. pose proof (os_thr _ _ _ _ Hs t) as Hp. rewrite Ht in Hp. pose proof (os_life _ _ _ _ Hs) as Hok.
  pose proof (os_done _ _ _ _ Hs) as Hd.
  assert (Hd0 : om_done s ++ [] = fa_of <$> oc_done a) by (by rewrite app_nil_r).
  destruct x as [|f fa|f fa| |rv|]; simpl in Hp; [|destruct Hp as [(w & Hp & Hw) Hh]..|done| |].
  - destruct Hp as [Hp Hh]. destruct (loop_sim _ _ _ _ t Hok Hh) as (y & l & Q' & live' & x & m' & E & Ea & Hok' & Hy & Ho).
    unfold ostep. rewrite E. cbn [obind ofollows fst snd]. eexists Q', live', _.
    split; [eapply rtc_once; left; by eapply (OcLoop a t)|]. by eapply (osim_move Q live s a t (Some y) (Some x)).
  - destruct (free_ok _ _ _ _ (Z.of_nat t) Hok Hh) as (live' & l & E & Hok' & _). unfold ostep. rewrite E. cbn [obind ofollows fst snd].
    unfold life_free in E. destruct Hh as [e He]. rewrite He in E. simpl in E.
    destruct (wa_free _ _ _) as [al| | |]; try done. injection E as <-.
    exists Q, live', a. split; [done|]. rewrite <- (oc_same a t _ Hp).
    eapply (osim_move Q live s a t _ (Some (TRun w))); [exact Hs|done| | |done].
    + intros k Hk. simpl. by apply lookup_delete_ne.
    + simpl. split; [eauto|apply lookup_delete_eq].
  - cbn [ostep ofollows]. eexists Q, live, _. split; [eapply rtc_once; left; by eapply (OcExecuted a t w)|].
    eapply (osim_move Q live s a t (Some OReady) (Some TReady)); [done|done|done|by rewrite Hh|]. by rewrite fmap_app, Hd, <- Hw.
  - destruct Hp as [Hp Hh]. destruct (mgr_counts _ _ _ _ Hok) as [Hci Hcs].
    unfold ostep, oc_woken_mem. rewrite Hci, Hcs. destruct (0 <? ocwq_signal_count (oc_m a)) eqn:Hsc.
    + destruct (loop_sim _ _ _ _ t (counts_ok (ocwq_idle_threads (oc_m a)) (ocwq_signal_count (oc_m a) -u 1) _ _ _ _ Hok) Hh)
        as (y & l & Q' & live' & x & m' & E & Ea & Hok' & Hy & Ho).
      rewrite E. cbn [obind ofollows fst snd]. eexists Q', live', _.
      split; [eapply rtc_once; left; eapply (OcWokenUp a t rv x m' Hp); unfold oc_woken; by rewrite Hsc, Ea|].
      by eapply (osim_move Q live s a t (Some y) (Some x)).
    + assert (Hrv : (rv =? 0) || (rv =? ETIMEDOUT) = true) by (by destruct (oi_rv _ Hinv t rv Hp) as [-> | ->]).
      rewrite Hrv. cbn [obind ofollows fst snd]. eexists Q, live, _.
      split; [eapply rtc_once; left; eapply (OcExit a t rv _ Hp); unfold oc_woken; by rewrite Hsc, Hrv|].
      eapply (osim_move Q live s a t (Some OExits) None); [done|by apply counts_ok|done|done|done].
  - destruct Hp as [Hp Hh]. destruct (exit_ok _ _ _ _ (Z.of_nat t) Hok) as (l & E & Hok' & _).
    unfold ostep. rewrite E. cbn [obind ofollows fst snd].
    unfold life_exit in E. destruct (wa_cleanup _ _) as [al| | |]; try done. injection E as <-.
    exists Q, live, a. split; [done|]. rewrite <- (oc_same a t _ Hp). by eapply (osim_move Q live s a t None None).
Qed.

(** A submission, on lists. *)
Lemma submit_follows t p f fa ans rv r ev l :
  may_submit p f ans (om_life s) -> life_submit t p f fa ans rv (om_life s) = Ok (r, ev, l) ->
  exists q i m' Q' live', listed p q i (oc_m a) /\ overcommit q <> 0 /\
    manager_workqueue_additem rv p (Work NULL f fa 0 0 NULL) (oc_m a) = Ok (m', ev) /\
    life_ok Q' m' live' l /\ lf_hold l = lf_hold (om_life s).
Proof.
  intros (Hf & Hans & q & i & Hl & Ho & Hv) E. pose proof (os_life _ _ _ _ Hs) as Hok.
  pose proof Hl as Hl0. pose proof (rp_mgr _ _ _ (lo_repr _ _ _ _ Hok)) as Hmg. simpl in Hmg. rewrite Hmg in Hl0.
  destruct (forget_listed _ _ _ _ Hl0) as (q' & Hl' & Hq). assert (Ho' : overcommit q' <> 0) by (by rewrite Hq in Ho).
  destruct (additem_overcommit rv p q' i (Work NULL f fa 0 0 NULL) (oc_m a) (lo_mgr _ _ _ _ Hok) Hl' Ho')
    as (m' & ev' & Ea & Hm' & _).
  assert (Hg : (valid_workq q =? 0) || (f =? NULL) = false) by (rewrite Hv, (proj2 (Z.eqb_neq f NULL) Hf); done).
  destruct (submit_ok _ _ _ _ t _ _ _ _ fa _ _ _ _ Hok Hans Hl Hg Ea Hm') as (l' & Q' & live' & E' & Hok' & Hh & _).
  rewrite E in E'. injection E' as -> <- <-. exists q', i, m', Q', live'. by split_and!.
Qed.

(** The holders stay; the threads move together. *)
Lemma osim_together Q' live' l m' thr' thr'' ad ad' n :
  life_ok Q' m' live' l -> lf_hold l = lf_hold (om_life s) ->
  (forall t, oth_sim (lf_hold (om_life s) !! Z.of_nat t) (thr' !! t) (thr'' !! t)) -> ad = fa_of <$> ad' ->
  osim Q' live' (OMState l thr' ad (om_done s) n) (OcState m' thr'' ad' (oc_done a) n).
Proof.
  intros Hok Hh Ht Had. split; simpl; try done; [by rewrite Hh|rewrite Hh; apply Hs|apply Hs].
Qed.

Lemma set_together t o y :
  oth_sim (lf_hold (om_life s) !! Z.of_nat t) o y ->
  forall t', oth_sim (lf_hold (om_life s) !! Z.of_nat t') (set_thr t o (om_thr s) !! t') (set_thr t y (oc_thr a) !! t').
Proof. intros Hy t'. rewrite !set_thr_lookup. case_decide; [by subst|apply Hs]. Qed.

Lemma osim_alike t : oc_thr a !! t = Some TWait -> om_thr s !! t = Some OWait.
Proof.
  intros Ha. pose proof (os_thr _ _ _ _ Hs t) as Ht. rewrite Ha in Ht.
  destruct (om_thr s !! t) as [[]|]; simpl in Ht; destruct Ht as [Ht _]; try done; by destruct Ht as (? & ? & _).
Qed.

Lemma signal_together thr' : osignal (om_thr s) thr' ->
  exists thr'', cond_signal (oc_thr a) thr'' /\
    forall t, oth_sim (lf_hold (om_life s) !! Z.of_nat t) (thr' !! t) (thr'' !! t).
Proof.
  intros [t Ht|Hno].
  - pose proof (os_thr _ _ _ _ Hs t) as Hp. rewrite Ht in Hp. destruct Hp as [Hp Hh].
    exists (<[t := TWoken 0]> (oc_thr a)). split; [by constructor|]. by apply (set_together t (Some (OWoken 0)) (Some (TWoken 0))).
  - exists (oc_thr a). split; [|apply Hs]. constructor. intros t Ht. by apply (Hno t), osim_alike.
Qed.

Lemma create_follows n rvs p q i m' :
  wqs (lf_mg (om_life s)) !! p = Some q -> unlisted p (lf_mg (om_life s)) -> STAILQ_EMPTY p (lf_qm (om_life s)) = Ok true ->
  queueprio q = Z.of_nat i -> (i < PTHREAD_WORKQUEUE_MAX)%nat ->
  manager_workqueue_create (replicate n EAGAIN ++ 0 :: rvs) p (lf_mg (om_life s)) = Ok m' ->
  exists m1, oc_external a (OcState m1 (oc_thr a) (oc_added a) (oc_done a) (oc_failed a)) /\
    life_ok Q m1 live (put_mem (Mem m' (lf_qm (om_life s)) (wa_heap (lf_al (om_life s)))) (om_life s)).
Proof.
  intros Hq Hu He Hpr Hi E. pose proof (os_life _ _ _ _ Hs) as Hok. pose proof (lo_repr _ _ _ _ Hok) as Hr.
  pose proof (rp_mgr _ _ _ Hr) as Hmg. simpl in Hmg.
  pose proof (create_sim _ _ _ Hr (replicate n EAGAIN ++ 0 :: rvs) p) as Hc. simpl in Hc. rewrite E in Hc.
  destruct (manager_workqueue_create _ p (oc_m a)) as [m1| | |] eqn:Ea; try done. destruct Hc as (Q' & Hr' & _ & _ & _ & HQ & _).
  simpl in HQ. subst Q'. rewrite Hmg in Hq, Hu. simpl in Hq. rewrite lookup_fmap in Hq.
  destruct (wqs (oc_m a) !! p) as [q'|] eqn:Hq'; [|done]. injection Hq as <-.
  destruct (repr_first _ _ _ _ _ Hr Hq') as (l & _ & _ & _ & Hemp & _). simpl in Hemp. rewrite He in Hemp.
  injection Hemp as Hemp. symmetry in Hemp. apply bool_decide_eq_true in Hemp.
  assert (Hst : oc_external a (OcState m1 (oc_thr a) (oc_added a) (oc_done a) (oc_failed a))).
  { by eapply (OcCreate a n rvs p q' i). }
  exists m1. split; [done|]. destruct Hok as [_ _ H3 H4 H5]. split; simpl; try done.
  exact (oi_mgr _ (oc_external_inv _ _ Hinv Hst)).
Qed.

Lemma om_step_follows s' : om_step s s' -> exists Q' live' a', rtc oc_step a a' /\ osim Q' live' s' a'.
Proof.
  intros Hst. pose proof (os_added _ _ _ _ Hs) as Had. pose proof (os_failed _ _ _ _ Hs) as Hfl.
  assert (Had' : forall f fa, om_added s ++ [(f, fa)] = fa_of <$> (oc_added a ++ [Work NULL f fa 0 0 NULL])).
  { intros. by rewrite Had, fmap_app. }
  destruct Hst as [t x l o call Ht E|t p f fa ans rv r l thr' Hm E Hw|t p f fa ans rv r l t' Hm E Ht' Hn|t p f fa ans rv r l Hm E
    |t rv Ht Hrv|n rvs p q i m' Hq Hu He Hpr Hi E|t r l E].
  - pose proof (ostep_follows t x Ht) as Hf. by rewrite E in Hf.
  - destruct (submit_follows _ _ _ _ _ _ _ _ _ Hm E) as (q & i & m' & Q' & live' & Hl & Ho & Ea & Hok & Hh).
    destruct (signal_together thr' Hw) as (thr'' & Hw' & Ht). eexists Q', live', _.
    split; [eapply rtc_once; right; by eapply OcAddSignal|]. rewrite Hfl. by apply osim_together.
  - destruct (submit_follows _ _ _ _ _ _ _ _ _ Hm E) as (q & i & m' & Q' & live' & Hl & Ho & Ea & Hok & Hh).
    pose proof (os_thr _ _ _ _ Hs t') as Hp. rewrite Ht' in Hp. destruct Hp as [Hp Hh'].
    eexists Q', live', _. split; [eapply rtc_once; right; eapply (OcAddSpawn a rv p q i _ m' t'); try done|].
    + eapply Z.le_lt_trans; [|exact Hn]. apply threads_le. intros t1 [x Hx]. pose proof (os_thr _ _ _ _ Hs t1) as H1.
      rewrite Hx in H1. destruct (om_thr s !! t1); [by eexists|by destruct H1].
    + rewrite Hfl. apply osim_together; [done|done| |done]. by apply (set_together t' (Some OReady) (Some TReady)).
  - destruct (submit_follows _ _ _ _ _ _ _ _ _ Hm E) as (q & i & m' & Q' & live' & Hl & Ho & Ea & Hok & Hh).
    eexists Q', live', _. split; [eapply rtc_once; right; by eapply OcAddFailed|]. rewrite Hfl.
    apply osim_together; [done|done|apply Hs|done].
  - pose proof (os_thr _ _ _ _ Hs t) as Hp. rewrite Ht in Hp. destruct Hp as [Hp Hh]. eexists Q, live, _.
    split; [eapply rtc_once; right; by eapply (OcWake a t rv)|]. rewrite Hfl.
    apply osim_together; [apply Hs|done| |done]. by apply (set_together t (Some (OWoken rv)) (Some (TWoken rv))).
  - destruct (create_follows n rvs p q i m' Hq Hu He Hpr Hi E) as (m1 & Hst & Hok).
    eexists Q, live, _. split; [eapply rtc_once; right; exact Hst|]. rewrite Hfl. apply osim_together; [done|done|apply Hs|done].
  - destruct (exit_ok _ _ _ _ t (os_life _ _ _ _ Hs)) as (l' & E' & Hok & _). rewrite E in E'. injection E' as -> <-.
    exists Q, live, a. split; [done|]. destruct Hs as [H1 H2 H3 H4 H5 H6].
    unfold life_exit in E. destruct (wa_cleanup _ _) as [al| | |]; try done. injection E as <-. by split.
Qed.
End Follow.

(** ** Every run *)

Lemma om_initial_sim s : om_initial s -> exists Q a, osim Q ∅ s a /\ oc_reachable a.
Proof.
  intros ((Q & m & Hok & Hp) & Hi & Hc & Ht & Ha & Hd & Hf). exists Q, (OcState m ∅ [] [] 0).
  assert (Hno : forall k, lf_hold (om_life s) !! k = None).
  { intros k. destruct (lf_hold (om_life s) !! k) eqn:E; [|done].
    pose proof (placed_holding _ _ _ _ _ (lo_placed _ _ _ _ Hok) E). set_solver. }
  destruct (mgr_counts _ _ _ _ Hok) as [Ei Ec]. split.
  - split; simpl; try done; [by rewrite Ht|]. intros k e. by rewrite Hno.
  - eexists. split; [|done]. split_and!; simpl; try done; [apply Hok| |]; congruence.
Qed.

Lemma om_run_sim s s' : rtc om_step s s' -> forall Q live a, osim Q live s a -> oc_reachable a ->
  exists Q' live' a', osim Q' live' s' a' /\ oc_reachable a'.
Proof.
  induction 1 as [s|s1 s2 s3 Hst _ IH]; intros Q live a Hs Hr; [eauto|].
  destruct (om_step_follows Q live s1 a Hs (oc_reachable_inv a Hr) s2 Hst) as (Q' & live' & a' & Hrt & Hs').
  apply (IH Q' live' a' Hs'). destruct Hr as (a0 & Ha0 & Hr). exists a0. split; [done|]. by transitivity a.
Qed.

(** Nothing waits and nothing runs. *)
Definition at_rest (s : omstate) : Prop :=
  forall t f fa, om_thr s !! t <> Some (OHolds f fa) /\ om_thr s !! t <> Some (OCalls f fa).

(** C14.  The overcommit workers over memory refine those of Overcommit.v, and are memory
    safe: under every interleaving of submissions, workers, signals, timeouts, spurious
    wakeups, queue creations and thread exits, for each of the three allocators, a reachable
    state stands for a reachable state of Overcommit.v with the same queues, counters,
    submissions and calls; no step of a thread faults or aborts (an item is read before it
    is given back, and given back once).  When no worker has an item and the queues are
    empty, the allocator has every item back and the calls made are those submitted, each
    as often. *)
Theorem overcommit_over_memory s :
  om_reachable s ->
  exists Q live a, oc_reachable a /\ osim Q live s a /\
    (forall t x, om_thr s !! t = Some x ->
       ostep t (om_life s) x <> Faults /\ ostep t (om_life s) x <> Aborts) /\
    (at_rest s -> (forall p l, Q !! p = Some l -> l = []) -> wa_inv (lf_al (om_life s)) ∅) /\
    (at_rest s -> oc_items (oc_m a) = [] -> om_done s ≡ₚ om_added s).
Proof.
  intros (s0 & Hi0 & Hrt). destruct (om_initial_sim s0 Hi0) as (Q0 & a0 & Hs0 & Hr0).
  destruct (om_run_sim _ _ Hrt _ _ _ Hs0 Hr0) as (Q & live & a & Hs & Hr). pose proof (oc_reachable_inv a Hr) as Hinv.
  exists Q, live, a. split; [done|]. split; [done|]. split; [|split].
  - intros t x Ht. pose proof (ostep_follows Q live s a Hs Hinv t x Ht) as Hf. by destruct (ostep t (om_life s) x).
  - intros Hrest HQ. rewrite <- (placed_nothing _ _ _ (lo_placed _ _ _ _ (os_life _ _ _ _ Hs)) HQ); [apply Hs|].
    apply map_eq. intros k. rewrite lookup_empty. destruct (lf_hold (om_life s) !! k) as [e|] eqn:E; [|done].
    destruct (os_keys _ _ _ _ Hs k e E) as [t ->]. pose proof (os_thr _ _ _ _ Hs t) as Ht. rewrite E in Ht.
    destruct (om_thr s !! t) as [[|f f'|f f'| | |]|] eqn:Et; simpl in Ht; destruct Ht as [_ Ht]; try done.
    by destruct (Hrest t f f').
  - intros Hrest Hq. rewrite (os_done _ _ _ _ Hs), (os_added _ _ _ _ Hs). apply fmap_Permutation, occ_same. intros w.
    rewrite (oi_items _ Hinv w), Hq, msum_const0; [done|]. intros t x Hx. pose proof (os_thr _ _ _ _ Hs t) as Ht.
    rewrite Hx in Ht. unfold at_rest in Hrest.
    destruct (om_thr s !! t) as [[|f f'|f f'| | |]|] eqn:Et; simpl in Ht; destruct Ht as [Ht _]; simplify_eq; try done;
      by destruct (Hrest t f f').
Qed.
End OvercommitMem.

(** ** A submission starts a worker, which executes the item *)

Section OmWitness.
Import TsdCache TsdInstance.

Definition ex_om_life : life (A := tstate) :=
  Life (forget ex_oc_mgr) (QMem {[600 := NULL]} {[600 := CFirst 600]} ∅) wa_init ∅.
Definition ex_om0 : omstate := OMState ex_om_life ∅ [] [] 0.

Definition oplay (t : nat) (s : omstate (A := tstate)) : omstate :=
  match om_thr s !! t with
  | None => s
  | Some x =>
      match ostep t (om_life s) x with
      | Ok (l, o, call) =>
          OMState l (set_thr t o (om_thr s)) (om_added s) (om_done s ++ match call with Some fa => [fa] | None => [] end) (om_failed s)
      | _ => s
      end
  end.

Lemma oplay_steps t n s : rtc om_step s (Nat.iter n (oplay t) s).
Proof.
  induction n as [|n IH]; [done|]. simpl. etrans; [exact IH|]. generalize (Nat.iter n (oplay t) s). intros s1. unfold oplay.
  destruct (om_thr s1 !! t) as [x|] eqn:Ht; [|done]. destruct (ostep t _ x) as [[[l o] call]| | |] eqn:E; try done.
  apply rtc_once. by eapply OmMove.
Qed.

Definition ex_om1 : omstate :=
  match life_submit 1 600 7 8 [Some (100, junk)] 0 ex_om_life with
  | Ok (_, _, l) => OMState l {[5%nat := OReady]} [(7, 8)] [] 0
  | _ => ex_om0
  end.
Definition ex_om2 : omstate := Nat.iter 3 (oplay 5) ex_om1.

Lemma ex_om0_initial : om_initial ex_om0.
Proof.
  destruct ex_oc0_initial as (Hok & Hp & _). split_and!; try done. exists {[600 := []]}, ex_oc_mgr. split; [|done].
  split; [|done|apply wa_init_ok| |done].
  - split; [done| |].
    + split.
      * intros h l [<- <-]%lookup_singleton_Some. split_and!; [done|done|done|constructor].
      * intros h1 h2 l1 l2 x [<- <-]%lookup_singleton_Some [<- <-]%lookup_singleton_Some. set_solver.
    + intros p q Hq. change (wqs ex_oc_mgr) with ({[600 := set_items [] ex_ocq]} : gmap Z workqueue) in Hq.
      apply lookup_singleton_Some in Hq as [<- <-]. by exists [].
  - split; [|done|done]. intros e. split; [set_solver|].
    intros [(p & l & [<- <-]%lookup_singleton_Some & He)|(t & Ht)]; [set_solver|done].
Qed.

Lemma ex_om2_reachable : om_reachable ex_om2.
Proof.
  exists ex_om0. split; [exact ex_om0_initial|]. etrans; [|apply oplay_steps]. apply rtc_once.
  unfold ex_om1. destruct (life_submit _ _ _ _ _ _ _) as [[[r ev] l]| | |] eqn:E.
  2-4: by vm_compute in E.
  assert (ev = [SpawnOvercommit]) as -> by (vm_compute in E; by injection E).
  apply (OmAddSpawn ex_om0 1 600 7 8 [Some (100, junk)] 0 r l 5); [|exact E|done|by vm_compute].
  split_and!; [done| |].
  - exists 100, junk. split_and!; [done|done|]. intros Hin. apply elem_of_dom in Hin as [? Hin]. done.
  - exists (set_items [] ex_ocq), 0%nat. by split_and!.
Qed.

Lemma overcommit_over_memory_witness :
  om_done ex_om2 = [(7, 8)] /\ exists Q live a, oc_reachable a /\ osim Q live ex_om2 a.
Proof.
  split; [by vm_compute|].
  destruct (overcommit_over_memory ex_om2 ex_om2_reachable) as (Q & live & a & Hr & Hs & _). by exists Q, live, a.
Defined.
End OmWitness.
