(* ===== verification/WinTls.v ===== *)
(** * Thread-specific data on Windows (src/windows/pthread_tls.h)

    The table of keys is an array of destructors that grows by [realloc]; every thread
    has an array of values that grows on its own.  An array is a list, [None] the null
    pointer; an access outside of it faults.  What [realloc] leaves in the new cells is
    arbitrary, a function [junk] of the index. *)

From stdpp Require Import base list.
From Stdlib Require Import ZArith Lia.
From S2P Require Import Prelude Types.

Definition PTHREAD_KEYS_MAX : Z := Z.shiftl 1 20.
Definition PTHREAD_DESTRUCTOR_ITERATIONS : nat := 256.

(** ** Arrays *)

Abbreviation array := (option (list Z)).

Definition aget (a : array) (i : Z) : outcome Z :=
  if i <? 0 then Faults else let* l := deref a in deref (l !! Z.to_nat i).
Definition aset (a : array) (i v : Z) : outcome array :=
  if i <? 0 then Faults
  else
    let* l := deref a in
    let* _ := deref (l !! Z.to_nat i) in
    Ok (Some (<[Z.to_nat i := v]> l)).

(** [realloc(a, n * sizeof(void * ))], which succeeded. *)
Definition realloc (junk : nat -> Z) (a : array) (n : Z) : list Z :=
  let l := default [] a in l ++ map junk (seq (length l) (Z.to_nat n - length l)).

(** [memset(&l[from], 0, (n - from) * sizeof(void * ))] *)
Definition clear_from (from n : Z) (l : list Z) : list Z :=
  take (Z.to_nat from) l ++ replicate (Z.to_nat (n - from)) 0.

(** ** Keys *)

(** [_pthread_key_dest], [_pthread_key_max], [_pthread_key_sch] *)
Record keys := Keys { key_dest : array; key_max : Z; key_sch : Z }.

(** [for (i = from; i < from + n; i++) if (!_pthread_key_dest[i]) ...] *)
Fixpoint find_free (n : nat) (i : Z) (d : array) : outcome (option Z) :=
  match n with
  | O => Ok None
  | S n => let* v := aget d i in if v =? 0 then Ok (Some i) else find_free n (i + 1) d
  end.

(** What is stored for a destructor: 1 stands for none. *)
Definition dest_slot (dest : Z) : Z := if dest =? 0 then 1 else dest.

(** [pthread_key_create]: the status, [*key] and the table.  [ok] says whether [realloc]
    succeeds. *)
Definition pthread_key_create (ok : bool) (junk : nat -> Z) (key : bool) (dest : Z) (s : keys)
  : outcome (Z * option Z * keys) :=
  if negb key then Ok (EINVAL, None, s)
  else
    let* r := find_free (Z.to_nat (key_max s - key_sch s)) (key_sch s) (key_dest s) in
    let* r := (match r with Some i => Ok (Some i) | None => find_free (Z.to_nat (key_sch s)) 0 (key_dest s) end) in
    match r with
    | Some i =>
        let* d := aset (key_dest s) i (dest_slot dest) in
        Ok (0, Some i, Keys d (key_max s) (key_sch s))
    | None =>
        let max := if key_max s =? 0 then 1 else key_max s in
        if max =? PTHREAD_KEYS_MAX then Ok (ENOMEM, None, Keys (key_dest s) max (key_sch s))
        else
          let nmax := if PTHREAD_KEYS_MAX <? max * 2 then PTHREAD_KEYS_MAX else max * 2 in
          if negb ok then Ok (ENOMEM, None, Keys (key_dest s) max (key_sch s))
          else
            let d := clear_from max nmax (realloc junk (key_dest s) nmax) in
            let* d := aset (Some d) max (dest_slot dest) in
            Ok (0, Some max, Keys d nmax (max + 1))
    end.

Definition pthread_key_delete (key : Z) (s : keys) : outcome (Z * keys) :=
  if key_max s <? key then Ok (EINVAL, s)
  else
    match key_dest s with
    | None => Ok (EINVAL, s)
    | Some _ =>
        let* d := aset (key_dest s) key 0 in
        Ok (0, Keys d (key_max s) (if key <? key_sch s then key else key_sch s))
    end.

(** ** Values *)

(** [t->keymax], [t->keyval] *)
Record tls := Tls { keymax : Z; keyval : array }.

Definition pthread_getspecific (key : Z) (t : tls) : outcome Z :=
  if keymax t <=? key then Ok NULL else aget (keyval t) key.

Definition pthread_setspecific (ok : bool) (junk : nat -> Z) (key value : Z) (t : tls)
  : outcome (Z * tls) :=
  let grow :=
    if keymax t <? key then
      let n := (key + 1) * 2 in
      if negb ok then None else Some (Tls n (Some (clear_from (keymax t) n (realloc junk (keyval t) n))))
    else Some t in
  match grow with
  | None => Ok (ENOMEM, t)
  | Some t => let* kv := aset (keyval t) key value in Ok (0, Tls (keymax t) kv)
  end.

(** ** Thread exit *)

Section Cleanup.
(** What calling the destructor [dest] on [val] does to the values of the thread. *)
Context (run : Z -> Z -> tls -> tls).

(** The inner loop of [_pthread_cleanup_dest] from [i] on: the calls made, the flag and the
    values.  [fuel] bounds the turns. *)
Fixpoint cleanup_pass (fuel : nat) (i : Z) (s : keys) (t : tls) : outcome (list (Z * Z) * bool * tls) :=
  if negb (i <? keymax t) then Ok ([], false, t)
  else
    match fuel with
    | O => Blocks
    | S fuel =>
        let* val := aget (keyval t) i in
        if negb (val =? 0) then
          let* d := aget (key_dest s) i in
          if 1 <? d then
            let* kv := aset (keyval t) i NULL in
            let t := run d val (Tls (keymax t) kv) in
            let* (calls, flag, t) := cleanup_pass fuel (i + 1) s t in
            Ok ((d, val) :: calls, true, t)
          else cleanup_pass fuel (i + 1) s t
        else cleanup_pass fuel (i + 1) s t
    end.

Fixpoint cleanup_passes (n fuel : nat) (s : keys) (t : tls) : outcome (list (Z * Z) * tls) :=
  match n with
  | O => Ok ([], t)
  | S n =>
      let* (calls, flag, t) := cleanup_pass fuel 0 s t in
      if negb flag then Ok (calls, t)
      else let* (more, t) := cleanup_passes n fuel s t in Ok (calls ++ more, t)
  end.

Definition _pthread_cleanup_dest (fuel : nat) (s : keys) (t : tls) : outcome (list (Z * Z) * tls) :=
  cleanup_passes PTHREAD_DESTRUCTOR_ITERATIONS fuel s t.
End Cleanup.

(** ** Well-formed tables *)

Definition keys_ok (s : keys) : Prop :=
  match key_dest s with
  | None => key_max s = 0 /\ key_sch s = 0
  | Some d => Z.of_nat (length d) = key_max s /\ 0 < key_max s <= PTHREAD_KEYS_MAX /\ 0 <= key_sch s <= key_max s
  end.

(** The slot of key [k], 0 for a key that is not in the table. *)
Definition slot_of (s : keys) (k : Z) : Z := default 0 (default [] (key_dest s) !! Z.to_nat k).

Definition tls_ok (t : tls) : Prop :=
  match keyval t with None => keymax t = 0 | Some l => Z.of_nat (length l) = keymax t end.

(** ** Lemmas *)

Lemma aget_some l i v : 0 <= i -> l !! Z.to_nat i = Some v -> aget (Some l) i = Ok v.
Proof. intros Hi Hv. unfold aget. rewrite (proj2 (Z.ltb_ge i 0)) by done. simpl. by rewrite Hv. Qed.

Lemma aset_some l i v : 0 <= i < Z.of_nat (length l) -> aset (Some l) i v = Ok (Some (<[Z.to_nat i := v]> l)).
Proof.
  intros Hi. unfold aset. rewrite (proj2 (Z.ltb_ge i 0)) by lia. simpl.
  destruct (lookup_lt_is_Some_2 l (Z.to_nat i)) as [w Hw]; [lia|]. by rewrite Hw.
Qed.

Lemma aset_out l i v : Z.of_nat (length l) <= i -> aset (Some l) i v = Faults.
Proof.
  intros Hi. unfold aset. rewrite (proj2 (Z.ltb_ge i 0)) by lia. simpl.
  by rewrite lookup_ge_None_2 by lia.
Qed.

Lemma find_free_spec n : forall i l, 0 <= i -> i + Z.of_nat n <= Z.of_nat (length l) ->
  exists r, find_free n i (Some l) = Ok r /\
    match r with
    | Some k => i <= k < i + Z.of_nat n /\ l !! Z.to_nat k = Some 0
    | None => forall j, i <= j < i + Z.of_nat n -> exists v, l !! Z.to_nat j = Some v /\ v <> 0
    end.
Proof.
  induction n as [|n IH]; intros i l Hi Hn; cbn [find_free]; [exists None; split; [done|lia]|].
  destruct (lookup_lt_is_Some_2 l (Z.to_nat i)) as [v Hv]; [lia|]. rewrite (aget_some l i v) by done. simpl.
  destruct (Z.eqb_spec v 0) as [->|Hne]; [exists (Some i); split; [done|split; [lia|done]]|].
  destruct (IH (i + 1) l) as (r & E & Hr); [lia|lia|]. exists r. split; [done|]. destruct r as [k|].
  - split; [lia|apply Hr].
  - intros j Hj. destruct (decide (j = i)) as [->|]; [by exists v|]. apply Hr. lia.
Qed.

Lemma slot_some l m c k : slot_of (Keys (Some l) m c) k = default 0 (l !! Z.to_nat k).
Proof. done. Qed.

Lemma length_realloc junk a n :
  Z.of_nat (length (default [] a)) <= n -> Z.of_nat (length (realloc junk a n)) = n.
Proof. intros H. unfold realloc. rewrite length_app, length_map, length_seq. lia. Qed.

Lemma length_clear from n l :
  0 <= from <= n -> Z.of_nat (length l) = n -> Z.of_nat (length (clear_from from n l)) = n.
Proof. intros Hf Hl. unfold clear_from. rewrite length_app, length_take, length_replicate. lia. Qed.

(** Growing an array keeps the old cells and clears the new ones. *)
Lemma grown_lookup junk a from n j :
  0 <= j < n -> 0 <= from <= n -> Z.of_nat (length (default [] a)) <= n ->
  clear_from from n (realloc junk a n) !! Z.to_nat j =
  if j <? from then realloc junk a n !! Z.to_nat j else Some 0.
Proof.
  intros Hj Hf Hl. pose proof (length_realloc junk a n Hl) as Hlen. unfold clear_from.
  destruct (Z.ltb_spec j from) as [H|H].
  - rewrite lookup_app_l, lookup_take_lt by (rewrite ?length_take; lia). done.
  - rewrite lookup_app_r by (rewrite length_take; lia). apply lookup_replicate_2.
    rewrite length_take. lia.
Qed.

Lemma realloc_old junk a n j v :
  default [] a !! j = Some v -> realloc junk a n !! j = Some v.
Proof. intros H. unfold realloc. by apply lookup_app_l_Some. Qed.

(** The two searches together look at every slot. *)
Lemma key_search s d :
  keys_ok s -> key_dest s = Some d ->
  exists r, (let* r := find_free (Z.to_nat (key_max s - key_sch s)) (key_sch s) (Some d) in
             match r with Some i => Ok (Some i) | None => find_free (Z.to_nat (key_sch s)) 0 (Some d) end) = Ok r /\
    match r with
    | Some k => 0 <= k < key_max s /\ d !! Z.to_nat k = Some 0
    | None => forall j, 0 <= j < key_max s -> exists v, d !! Z.to_nat j = Some v /\ v <> 0
    end.
Proof.
  unfold keys_ok. intros Hok Hd. rewrite Hd in Hok. destruct Hok as (Hl & Hm & Hs).
  destruct (find_free_spec (Z.to_nat (key_max s - key_sch s)) (key_sch s) d) as (r1 & E1 & H1); [lia|lia|].
  rewrite E1. simpl. destruct r1 as [k|]; [exists (Some k); split; [done|]; split; [lia|apply H1]|].
  destruct (find_free_spec (Z.to_nat (key_sch s)) 0 d) as (r2 & E2 & H2); [lia|lia|].
  exists r2. split; [done|]. destruct r2 as [k|]; [split; [lia|apply H2]|].
  intros j Hj. destruct (decide (j < key_sch s)); [apply H2|apply H1]; lia.
Qed.

Lemma key_search_none s :
  keys_ok s -> key_dest s = None ->
  (let* r := find_free (Z.to_nat (key_max s - key_sch s)) (key_sch s) None in
   match r with Some i => Ok (Some i) | None => find_free (Z.to_nat (key_sch s)) 0 None end) = Ok None.
Proof. unfold keys_ok. intros Hok Hd. rewrite Hd in Hok. by destruct Hok as [-> ->]. Qed.

(** The table after growing. *)
Lemma key_grow junk dest s max nmax :
  keys_ok s -> max = (if key_max s =? 0 then 1 else key_max s) -> max < PTHREAD_KEYS_MAX ->
  nmax = (if PTHREAD_KEYS_MAX <? max * 2 then PTHREAD_KEYS_MAX else max * 2) ->
  exists d, aset (Some (clear_from max nmax (realloc junk (key_dest s) nmax))) max (dest_slot dest) = Ok (Some d) /\
    keys_ok (Keys (Some d) nmax (max + 1)) /\ d !! Z.to_nat max = Some (dest_slot dest) /\
    (forall j, 0 <= j < key_max s -> default 0 (d !! Z.to_nat j) = slot_of s j) /\
    slot_of s max = 0 /\ max < nmax.
Proof.
  intros Hok Hmax Hlt Hn.
  assert (Hlen : Z.of_nat (length (default [] (key_dest s))) = key_max s /\ 0 <= key_max s).
  { unfold keys_ok in Hok. destruct (key_dest s); simpl in *; lia. }
  assert (Hmm : 1 <= max /\ key_max s <= max) by (subst max; zcase; lia).
  assert (Hnn : max < nmax <= PTHREAD_KEYS_MAX) by (subst nmax; zcase; lia).
  pose proof (length_realloc junk (key_dest s) nmax ltac:(lia)) as Hr.
  pose proof (length_clear max nmax _ ltac:(lia) Hr) as Hc.
  rewrite aset_some by lia. eexists. split; [done|]. split_and!.
  - unfold keys_ok. simpl. rewrite length_insert. lia.
  - rewrite list_lookup_insert_eq by lia. done.
  - intros j Hj. rewrite list_lookup_insert_ne by lia. rewrite grown_lookup by lia.
    rewrite (proj2 (Z.ltb_lt j max)) by lia. unfold slot_of.
    destruct (lookup_lt_is_Some_2 (default [] (key_dest s)) (Z.to_nat j)) as [v Hv]; [lia|].
    by rewrite (realloc_old _ _ _ _ v), Hv.
  - unfold slot_of. rewrite lookup_ge_None_2 by lia. done.
  - lia.
Qed.

(** ** Properties *)

(** [pthread_key_create] hands out unused keys only: on a well-formed table it never
    touches memory outside of it; the key it returns was free and is now taken, every
    other key keeps its destructor, and the table stays well formed.  It fails only when
    all keys of the table are taken and the table cannot grow, and then no key changes. *)
Theorem key_create_fresh ok junk dest s :
  keys_ok s ->
  exists rv k s', pthread_key_create ok junk true dest s = Ok (rv, k, s') /\
    match k with
    | Some k => rv = 0 /\ keys_ok s' /\ 0 <= k < key_max s' /\ slot_of s k = 0 /\ slot_of s' k = dest_slot dest /\
                (forall j, 0 <= j < key_max s -> j <> k -> slot_of s' j = slot_of s j)
    | None => rv = ENOMEM /\ (forall j, 0 <= j < key_max s -> slot_of s j <> 0 /\ slot_of s' j = slot_of s j) /\
              (ok = false \/ key_max s = PTHREAD_KEYS_MAX)
    end.
Proof.
  intros Hok. unfold pthread_key_create. simpl.
  assert (Hsearch : exists r,
    (let* r := find_free (Z.to_nat (key_max s - key_sch s)) (key_sch s) (key_dest s) in
     match r with Some i => Ok (Some i) | None => find_free (Z.to_nat (key_sch s)) 0 (key_dest s) end) = Ok r /\
    match r with
    | Some k => exists d, key_dest s = Some d /\ 0 <= k < key_max s /\ d !! Z.to_nat k = Some 0
    | None => forall j, 0 <= j < key_max s -> slot_of s j <> 0
    end).
  { destruct (key_dest s) as [d|] eqn:Hd.
    - destruct (key_search s d Hok Hd) as (r & E & Hr). exists r. split; [done|]. destruct r as [k|]; [eauto|].
      intros j Hj. unfold slot_of. rewrite Hd. simpl. by destruct (Hr j Hj) as (v & -> & Hv).
    - rewrite (key_search_none s Hok Hd). exists None. split; [done|]. unfold keys_ok in Hok. rewrite Hd in Hok. lia. }
  destruct Hsearch as (r & E & Hr).
  destruct (find_free (Z.to_nat (key_max s - key_sch s)) (key_sch s) (key_dest s)) as [r1| | |]; try done.
  simpl in E |- *. rewrite E. simpl. destruct r as [k|].
  - destruct Hr as (d & Hd & Hk & Hfree). unfold keys_ok in Hok. rewrite Hd in Hok. rewrite Hd.
    rewrite aset_some by lia. simpl. do 3 eexists. split; [done|]. split; [done|].
    split; [unfold keys_ok; simpl; rewrite length_insert; lia|]. split; [done|].
    unfold slot_of. simpl. rewrite Hd. simpl. rewrite Hfree, list_lookup_insert_eq by lia.
    split_and!; try done. intros j Hj Hne. by rewrite list_lookup_insert_ne by lia.
  - destruct (Z.eqb_spec (if key_max s =? 0 then 1 else key_max s) PTHREAD_KEYS_MAX) as [Hm|Hm].
    + do 3 eexists. split; [done|]. split; [done|]. split; [intros j Hj; split; [by apply Hr|done]|].
      right. destruct (Z.eqb_spec (key_max s) 0); [|done]. by vm_compute in Hm.
    + destruct ok; simpl; [|do 3 eexists; split; [done|]; split; [done|]; split; [intros j Hj; split; [by apply Hr|done]|by left]].
      edestruct (key_grow junk dest s) as (d & Ed & H1 & H2 & H3 & H4 & H5); [done|reflexivity| |reflexivity|].
      { unfold keys_ok in Hok. change PTHREAD_KEYS_MAX with 1048576 in *. destruct (key_dest s); zcase; lia. }
      rewrite Ed. simpl. do 3 eexists. split; [done|]. split; [done|]. split; [done|].
      split; [split; [zcase; unfold keys_ok in Hok; destruct (key_dest s); lia|done]|].
      split; [done|]. unfold slot_of at 1. simpl. rewrite H2. split; [done|].
      intros j Hj _. by apply H3.
Qed.

(** A table of four keys: 0 and 3 free, the search starting at 2. *)
Definition ex_keys : keys := Keys (Some [0; 7; 1; 0]) 4 2.

Lemma key_create_fresh_witness :
  keys_ok ex_keys /\ exists s', pthread_key_create true (fun _ => 5) true 9 ex_keys = Ok (0, Some 3, s') /\ keys_ok s'.
Proof.
  assert (H : keys_ok ex_keys) by zcheck. split; [exact H|].
  destruct (key_create_fresh true (fun _ => 5) 9 ex_keys H) as (rv & k & s' & E & Hk).
  vm_compute in E. injection E as <- <- <-. eexists. split; [reflexivity|]. apply Hk.
Defined.

(** Storing in the array as it is. *)
Lemma setspecific_fits ok junk key v t :
  tls_ok t -> 0 <= key < keymax t ->
  exists t', pthread_setspecific ok junk key v t = Ok (0, t') /\ tls_ok t' /\ pthread_getspecific key t' = Ok v /\
    forall j, 0 <= j -> j <> key -> pthread_getspecific j t' = pthread_getspecific j t.
Proof.
  intros Hok Hk. unfold pthread_setspecific, pthread_getspecific, tls_ok in *.
  rewrite (proj2 (Z.ltb_ge (keymax t) key)) by lia. destruct (keyval t) as [l|] eqn:El; [|lia].
  rewrite aset_some by lia. simpl. eexists. split; [done|]. simpl. split; [by rewrite length_insert|]. split.
  - rewrite (proj2 (Z.leb_gt _ key)) by lia. apply aget_some; [lia|]. apply list_lookup_insert_eq. lia.
  - intros j Hj Hjk. destruct (keymax t <=? j); [done|]. unfold aget.
    destruct (j <? 0); [done|]. simpl. by rewrite list_lookup_insert_ne by lia.
Qed.

(** Storing after the array has grown. *)
Lemma setspecific_grows junk key v t :
  tls_ok t -> 0 <= keymax t < key ->
  exists t', pthread_setspecific true junk key v t = Ok (0, t') /\ tls_ok t' /\ pthread_getspecific key t' = Ok v /\
    forall j, 0 <= j -> j <> key -> pthread_getspecific j t' = pthread_getspecific j t.
Proof.
  intros Hok Hk. unfold pthread_setspecific. rewrite (proj2 (Z.ltb_lt (keymax t) key)) by lia. simpl.
  set (n := (key + 1) * 2). set (l1 := clear_from (keymax t) n (realloc junk (keyval t) n)).
  assert (Hlen : Z.of_nat (length (default [] (keyval t))) = keymax t)
    by (unfold tls_ok in Hok; destruct (keyval t); simpl; lia).
  assert (Hc : Z.of_nat (length l1) = n) by (apply length_clear, length_realloc; lia).
  rewrite aset_some by lia. simpl. eexists. split; [done|].
  split; [unfold tls_ok; simpl; by rewrite length_insert|]. unfold pthread_getspecific. simpl. split.
  - rewrite (proj2 (Z.leb_gt _ key)) by lia. apply aget_some; [lia|]. apply list_lookup_insert_eq. lia.
  - intros j Hj Hjk. destruct (Z.leb_spec n j) as [Hb|Hb]; [by rewrite (proj2 (Z.leb_le (keymax t) j)) by lia|].
    assert (Hl : <[Z.to_nat key:=v]> l1 !! Z.to_nat j =
                 if j <? keymax t then realloc junk (keyval t) n !! Z.to_nat j else Some 0).
    { rewrite list_lookup_insert_ne by lia. apply grown_lookup; lia. }
    destruct (Z.leb_spec (keymax t) j) as [Hb2|Hb2].
    + apply aget_some; [lia|]. rewrite Hl, (proj2 (Z.ltb_ge j (keymax t))) by lia. done.
    + rewrite (proj2 (Z.ltb_lt j (keymax t))) in Hl by lia. unfold tls_ok in Hok.
      destruct (keyval t) as [l|]; [|lia]. simpl in *.
      destruct (lookup_lt_is_Some_2 l (Z.to_nat j)) as [w Hw]; [lia|].
      rewrite (aget_some l j w), (aget_some _ j w); [done|lia| |lia|done]. rewrite Hl. by apply realloc_old.
Qed.

(** [pthread_setspecific]: for every key except the one equal to the size of the
    thread's array, the value is read back, no other key's value changes and the array
    stays well formed (when the array must grow and cannot, ENOMEM is returned and nothing
    changes).  For the key equal to the size, which the guard [key > t->keymax] lets
    through, the write goes one cell past the array; on a new thread that is key 0,
    written through a null pointer. *)
Theorem setspecific_roundtrip ok junk key v t :
  tls_ok t -> 0 <= key < PTHREAD_KEYS_MAX ->
  (key <> keymax t -> ok = true \/ key < keymax t ->
   exists t', pthread_setspecific ok junk key v t = Ok (0, t') /\ tls_ok t' /\
     pthread_getspecific key t' = Ok v /\
     forall j, 0 <= j -> j <> key -> pthread_getspecific j t' = pthread_getspecific j t) /\
  (keymax t < key -> ok = false -> pthread_setspecific ok junk key v t = Ok (ENOMEM, t)) /\
  (key = keymax t -> pthread_setspecific ok junk key v t = Faults).
Proof.
  intros Hok Hk. assert (Hm : 0 <= keymax t) by (unfold tls_ok in Hok; destruct (keyval t); lia). split_and!.
  - intros Hne Hgrow. destruct (decide (key < keymax t)); [apply setspecific_fits; [done|lia]|].
    destruct Hgrow as [->|]; [apply setspecific_grows; [done|lia]|lia].
  - intros Hlt ->. unfold pthread_setspecific. by rewrite (proj2 (Z.ltb_lt (keymax t) key)).
  - intros ->. unfold pthread_setspecific. rewrite Z.ltb_irrefl. unfold tls_ok in Hok. destruct (keyval t) as [l|].
    + by rewrite aset_out by lia.
    + unfold aset. by rewrite (proj2 (Z.ltb_ge (keymax t) 0)) by lia.
Qed.

Lemma setspecific_roundtrip_witness :
  pthread_setspecific true (fun _ => 5) 0 33 (Tls 0 None) = Faults /\
  exists t', pthread_setspecific true (fun _ => 5) 3 33 (Tls 0 None) = Ok (0, t') /\
    pthread_getspecific 3 t' = Ok 33 /\ pthread_getspecific 2 t' = Ok NULL.
Proof.
  assert (H : tls_ok (Tls 0 None)) by reflexivity. split.
  - apply (setspecific_roundtrip true (fun _ => 5) 0 33 (Tls 0 None) H); [zcheck|reflexivity].
  - destruct (setspecific_roundtrip true (fun _ => 5) 3 33 (Tls 0 None) H) as (Hs & _ & _); [zcheck|].
    destruct Hs as (t' & E & _ & Hg & Ho); [discriminate|by left|].
    exists t'. split; [exact E|]. split; [exact Hg|]. rewrite Ho; [reflexivity|zcheck|discriminate].
Defined.

(** ** Thread exit *)

(** The values with a destructor from key [i] on. *)
Fixpoint due (i : Z) (n : nat) (s : keys) (l : list Z) : list (Z * Z) :=
  match n with
  | O => []
  | S n =>
      let v := default 0 (l !! Z.to_nat i) in
      (if negb (v =? 0) && (1 <? slot_of s i) then [(slot_of s i, v)] else []) ++ due (i + 1) n s l
  end.

Lemma due_insert n : forall i j v s l, 0 <= i < j -> due j n s (<[Z.to_nat i := v]> l) = due j n s l.
Proof.
  induction n as [|n IH]; intros i j v s l Hi; simpl; [done|].
  rewrite list_lookup_insert_ne by lia. by rewrite IH by lia.
Qed.

(** One pass over the values [l] from key [i] on, by destructors that set no values. *)
Lemma cleanup_pass_calls s n : forall i l,
  0 <= i -> Z.of_nat (length l) = i + Z.of_nat n -> (forall j v, l !! j = Some v -> v <> 0 -> Z.of_nat j < key_max s) -> keys_ok s ->
  exists l', cleanup_pass (fun _ _ t => t) n i s (Tls (Z.of_nat (length l)) (Some l)) =
      Ok (due i n s l, negb (bool_decide (due i n s l = [])), Tls (Z.of_nat (length l)) (Some l')) /\
    length l' = length l /\ (forall j, Z.of_nat j < i -> l' !! j = l !! j) /\
    (forall j v, l' !! j = Some v -> v <> 0 -> l !! j = Some v) /\ due i n s l' = [].
Proof.
  induction n as [|n IH]; intros i l Hi Hl Hr Hok.
  { exists l. cbn [cleanup_pass due]. rewrite (proj2 (Z.ltb_ge i _)) by (simpl; lia). by split_and!. }
  cbn [cleanup_pass]. rewrite (proj2 (Z.ltb_lt i _)) by (simpl; lia). simpl.
  destruct (lookup_lt_is_Some_2 l (Z.to_nat i)) as [v Hv]; [lia|]. rewrite (aget_some l i v) by done. simpl.
  rewrite Hv. simpl.
  assert (Hskip : (negb (v =? 0) && (1 <? slot_of s i)) = false ->
    exists l', cleanup_pass (fun _ _ t => t) n (i + 1) s (Tls (Z.of_nat (length l)) (Some l)) =
      Ok (due (i + 1) n s l, negb (bool_decide (due (i + 1) n s l = [])), Tls (Z.of_nat (length l)) (Some l')) /\
    length l' = length l /\ (forall j, Z.of_nat j < i -> l' !! j = l !! j) /\
    (forall j v, l' !! j = Some v -> v <> 0 -> l !! j = Some v) /\ due i (S n) s l' = []).
  { intros Hc. destruct (IH (i + 1) l) as (l' & E & H1 & H2 & H3 & H4); [lia|lia|done|done|].
    exists l'. split_and!; try done; [intros j Hj; apply H2; lia|]. simpl.
    rewrite H2, Hv by lia. simpl. by rewrite Hc. }
  destruct (Z.eqb_spec v 0) as [->|Hne]; simpl; [by apply Hskip|].
  assert (Hd : aget (key_dest s) i = Ok (slot_of s i)).
  { specialize (Hr _ _ Hv Hne). unfold keys_ok, slot_of in *. destruct (key_dest s) as [d|]; [|lia]. simpl.
    destruct (lookup_lt_is_Some_2 d (Z.to_nat i)) as [w Hw]; [lia|]. rewrite Hw. by apply aget_some. }
  rewrite Hd. simpl. destruct (Z.ltb_spec 1 (slot_of s i)) as [Hs|Hs]; simpl.
  - rewrite aset_some by lia. simpl.
    assert (El : Z.of_nat (length l) = Z.of_nat (length (<[Z.to_nat i:=NULL]> l))) by (by rewrite length_insert).
    destruct (IH (i + 1) (<[Z.to_nat i:=NULL]> l)) as (l' & E & H1 & H2 & H3 & H4); [lia|rewrite length_insert; lia| |done|].
    { intros j w [[_ [<- _]]|[_ Hj]]%list_lookup_insert_Some; [done|]. by eapply Hr. }
    rewrite <- El, due_insert in E by lia. rewrite E. simpl. exists l'. rewrite length_insert in H1. split_and!; try done.
    + intros j Hj. rewrite H2 by lia. by rewrite list_lookup_insert_ne by lia.
    + intros j w Hj Hw. specialize (H3 j w Hj Hw). by apply list_lookup_insert_Some in H3 as [[_ [<- _]]|[_ H3]].
    + rewrite H2, list_lookup_insert_eq by lia. done.
  - destruct (Hskip eq_refl) as (l' & E & H1 & H2 & H3 & H4). exists l'. split_and!; try done.
    simpl in H4. by rewrite (proj2 (Z.ltb_ge 1 _)) in H4 by lia.
Qed.

(** [_pthread_cleanup_dest], for destructors that store no new values: every value whose
    key has a destructor is handed to it exactly once, in the order of the keys, and the
    second pass finds nothing left. *)
Theorem cleanup_calls_each_once s l :
  keys_ok s -> (forall j v, l !! j = Some v -> v <> 0 -> Z.of_nat j < key_max s) ->
  exists t', _pthread_cleanup_dest (fun _ _ t => t) (length l) s (Tls (Z.of_nat (length l)) (Some l)) =
    Ok (due 0 (length l) s l, t').
Proof.
  intros Hok Hr. unfold _pthread_cleanup_dest. change PTHREAD_DESTRUCTOR_ITERATIONS with (S (S 254)).
  generalize 254%nat as n. intros n.
  destruct (cleanup_pass_calls s (length l) 0 l) as (l1 & E1 & L1 & _ & K1 & D1); [lia|lia|done|done|].
  destruct (cleanup_pass_calls s (length l1) 0 l1) as (l2 & E2 & _); [lia|lia| |done|].
  { intros j v Hj Hv. by eapply Hr, Hv; apply K1. }
  rewrite L1, D1 in E2. cbn [cleanup_passes]. rewrite E1. simpl. destruct (due 0 (length l) s l) eqn:Ed.
  - by eexists.
  - rewrite bool_decide_eq_false_2 by done. simpl. rewrite E2. simpl. rewrite app_nil_r. by eexists.
Qed.

Lemma cleanup_calls_each_once_witness :
  exists t', _pthread_cleanup_dest (fun _ _ t => t) 4 (Keys (Some [0; 7; 1; 8]) 4 2) (Tls 4 (Some [0; 21; 22; 23])) =
    Ok ([(7, 21); (8, 23)], t').
Proof.
  apply (cleanup_calls_each_once (Keys (Some [0; 7; 1; 8]) 4 2) [0; 21; 22; 23]); [zcheck|].
  intros j v Hj _. apply lookup_lt_Some in Hj. simpl in *. lia.
Defined.
