(* ===== verification/WinAttr.v ===== *)
(** * Attributes on Windows (src/windows/pthread_create.h, src/windows/pthread_mutex.h)

    Thread attributes, the cancellation state of a thread and mutex attributes are bit
    fields of an [unsigned int].  An [int] argument enters the field through its
    conversion to [unsigned int]. *)

From stdpp Require Import base list.
From Stdlib Require Import ZArith Lia.
From S2P Require Import Prelude Types.

(** ** Thread attributes *)

Definition PTHREAD_CANCEL_ENABLE : Z := 1.
Definition PTHREAD_CANCEL_ASYNCHRONOUS : Z := 2.
Definition PTHREAD_CREATE_DETACHED : Z := 4.
Definition PTHREAD_INHERIT_SCHED : Z := 8.
Definition PTHREAD_SCOPE_SYSTEM : Z := 16.
Definition PTHREAD_DEFAULT_ATTR : Z := PTHREAD_CANCEL_ENABLE.

Record pthread_attr_t := PAttr { p_state : Z; stack : ptr; s_size : Z }.

Definition with_state (x : Z) (a : pthread_attr_t) : pthread_attr_t := PAttr x (stack a) (s_size a).

Definition _pthread_get_state (a : pthread_attr_t) (flag : Z) : Z := Z.land (p_state a) flag.

Definition _pthread_set_state (a : pthread_attr_t) (flag val : Z) : Z * pthread_attr_t :=
  if negb (Z.land (lnot32 flag) val =? 0) then (EINVAL, a)
  else (0, with_state (Z.lor (Z.land (p_state a) (lnot32 flag)) val) a).

Definition pthread_attr_init (a : pthread_attr_t) : Z * pthread_attr_t := (0, PAttr PTHREAD_DEFAULT_ATTR NULL 0).
Definition pthread_attr_destroy (a : pthread_attr_t) : Z := 0.

Definition pthread_attr_setdetachstate (a : pthread_attr_t) (flag : Z) : Z * pthread_attr_t :=
  _pthread_set_state a PTHREAD_CREATE_DETACHED (u32 flag).
Definition pthread_attr_getdetachstate (a : pthread_attr_t) : Z * Z :=
  (0, s32 (_pthread_get_state a PTHREAD_CREATE_DETACHED)).
Definition pthread_attr_setinheritsched (a : pthread_attr_t) (flag : Z) : Z * pthread_attr_t :=
  _pthread_set_state a PTHREAD_INHERIT_SCHED (u32 flag).
Definition pthread_attr_getinheritsched (a : pthread_attr_t) : Z * Z :=
  (0, s32 (_pthread_get_state a PTHREAD_INHERIT_SCHED)).
Definition pthread_attr_setscope (a : pthread_attr_t) (flag : Z) : Z * pthread_attr_t :=
  _pthread_set_state a PTHREAD_SCOPE_SYSTEM (u32 flag).
Definition pthread_attr_getscope (a : pthread_attr_t) : Z * Z :=
  (0, s32 (_pthread_get_state a PTHREAD_SCOPE_SYSTEM)).

Definition pthread_attr_getstackaddr (a : pthread_attr_t) : Z * ptr := (0, stack a).
Definition pthread_attr_setstackaddr (a : pthread_attr_t) (p : ptr) : Z * pthread_attr_t :=
  (0, PAttr (p_state a) p (s_size a)).
Definition pthread_attr_getstacksize (a : pthread_attr_t) : Z * Z := (0, s_size a).
Definition pthread_attr_setstacksize (a : pthread_attr_t) (n : Z) : Z * pthread_attr_t :=
  (0, PAttr (p_state a) (stack a) n).

(** ** Cancellation state *)

(** [pthread_setcancelstate] and [pthread_setcanceltype] on [t->p_state]: the status, the
    old setting and the new state. *)
Definition set_cancel (flag v : Z) (p : Z) : Z * option Z * Z :=
  if negb (Z.land (u32 v) flag =? u32 v) then (EINVAL, None, p)
  else (0, Some (Z.land p flag), Z.lor (Z.land p (lnot32 flag)) (u32 v)).

Definition pthread_setcancelstate (state : Z) (p : Z) : Z * option Z * Z := set_cancel PTHREAD_CANCEL_ENABLE state p.
Definition pthread_setcanceltype (type : Z) (p : Z) : Z * option Z * Z := set_cancel PTHREAD_CANCEL_ASYNCHRONOUS type p.

(** The flags of a thread that [pthread_cancel] and [pthread_testcancel] use, and the
    global [_pthread_cancelling]. *)
Record cancel_state := CancelState { cancelled : Z; t_p_state : Z; _pthread_cancelling : Z }.

(** [pthread_cancel]: the status, whether the thread's context is redirected to
    [_pthread_invoke_cancel], and the flags. *)
Definition pthread_cancel (t : cancel_state) : Z * bool * cancel_state :=
  if negb (Z.land (t_p_state t) PTHREAD_CANCEL_ASYNCHRONOUS =? 0) then
    if negb (cancelled t =? 0) then (3 (* ESRCH *), false, t)
    else (0, true, CancelState 1 (t_p_state t) (_pthread_cancelling t + 1))
  else (0, false, CancelState 1 (t_p_state t) (_pthread_cancelling t + 1)).

(** Whether [pthread_testcancel] calls [_pthread_invoke_cancel]. *)
Definition pthread_testcancel (t : cancel_state) : bool :=
  negb (_pthread_cancelling t =? 0) &&
  (negb (cancelled t =? 0) && negb (Z.land (t_p_state t) PTHREAD_CANCEL_ENABLE =? 0)).

(** ** Mutex attributes *)

Definition PTHREAD_PRIO_MULT : Z := 32.

Definition pthread_mutexattr_init (a : Z) : Z * Z := (0, 0).
Definition pthread_mutexattr_destroy (a : Z) : Z := 0.
Definition pthread_mutexattr_gettype (a : Z) : Z * Z := (0, Z.land a 3).
Definition pthread_mutexattr_settype (a type : Z) : Z * Z :=
  if 3 <? u32 type then (EINVAL, a) else (0, Z.lor (Z.land a (lnot32 3)) (u32 type)).
Definition pthread_mutexattr_getpshared (a : Z) : Z * Z := (0, Z.land a 4).
Definition pthread_mutexattr_setpshared (a type : Z) : Z * Z :=
  if negb (Z.land (u32 type) 4 =? u32 type) then (EINVAL, a) else (0, Z.lor (Z.land a (lnot32 4)) (u32 type)).
Definition pthread_mutexattr_getprotocol (a : Z) : Z * Z := (0, Z.land a (8 + 16)).
Definition pthread_mutexattr_setprotocol (a type : Z) : Z * Z :=
  if negb (Z.land (u32 type) (8 + 16) =? 8 + 16) then (EINVAL, a)
  else (0, Z.lor (Z.land a (lnot32 (8 + 16))) (u32 type)).
Definition pthread_mutexattr_getprioceiling (a : Z) : Z * Z := (0, s32 (a / PTHREAD_PRIO_MULT)).
Definition pthread_mutexattr_setprioceiling (a prio : Z) : Z * Z :=
  (0, Z.land a (PTHREAD_PRIO_MULT - 1) +u (prio * PTHREAD_PRIO_MULT)).

(** ** Lemmas *)

(** A field is written within its mask: it is read back, and what a disjoint mask selects
    is left alone. *)
Lemma lnot32_spec z j : 0 <= j < 32 -> Z.testbit (lnot32 z) j = negb (Z.testbit z j).
Proof. intros Hj. unfold lnot32. rewrite testbit_u32 by done. by rewrite Z.lnot_spec by lia. Qed.

Lemma subset_bits flag val :
  is_u32 val -> Z.land (lnot32 flag) val = 0 -> forall j, Z.testbit val j = true -> Z.testbit flag j = true.
Proof.
  intros Hv Hs j Hj. assert (0 <= j < 32).
  { destruct (decide (j < 0)); [by rewrite Z.testbit_neg_r in Hj|].
    destruct (decide (32 <= j)); [by rewrite testbit_u32_high in Hj|lia]. }
  assert (E : Z.testbit (Z.land (lnot32 flag) val) j = false) by (rewrite Hs; apply Z.bits_0).
  rewrite Z.land_spec, lnot32_spec, Hj, andb_true_r in E by done. by apply negb_false_iff.
Qed.

Lemma field_roundtrip p flag val g :
  is_u32 p -> is_u32 val -> Z.land (lnot32 flag) val = 0 ->
  is_u32 (Z.lor (Z.land p (lnot32 flag)) val) /\
  Z.land (Z.lor (Z.land p (lnot32 flag)) val) flag = val /\
  (Z.land g flag = 0 -> Z.land (Z.lor (Z.land p (lnot32 flag)) val) g = Z.land p g).
Proof.
  intros Hp Hv Hs. pose proof (subset_bits flag val Hv Hs) as Hsub.
  assert (Hlow : forall j, Z.testbit p j = true -> 0 <= j < 32).
  { intros j Hj. destruct (decide (j < 0)); [by rewrite Z.testbit_neg_r in Hj|].
    destruct (decide (32 <= j)); [by rewrite testbit_u32_high in Hj|lia]. }
  split; [apply lor_u32; [apply land_u32; [done|apply u32_range]|done]|]. split.
  - apply Z.bits_inj'. intros j _. rewrite Z.land_spec, Z.lor_spec, Z.land_spec.
    destruct (Z.testbit val j) eqn:Ev; [by rewrite orb_true_r, (Hsub j Ev)|]. rewrite orb_false_r.
    destruct (Z.testbit p j) eqn:Ep; [|done]. rewrite lnot32_spec by (by apply Hlow). by destruct (Z.testbit flag j).
  - intros Hg. apply Z.bits_inj'. intros j _. rewrite !Z.land_spec, Z.lor_spec, Z.land_spec.
    assert (E : Z.testbit g j && Z.testbit flag j = false) by (rewrite <- Z.land_spec, Hg; apply Z.bits_0).
    destruct (Z.testbit g j) eqn:Eg; rewrite ?andb_false_r, ?andb_true_r; [|done]. simpl in E.
    destruct (Z.testbit val j) eqn:Ev; [by rewrite (Hsub j Ev) in E|]. rewrite orb_false_r.
    destruct (Z.testbit p j) eqn:Ep; [|done]. by rewrite lnot32_spec, E by (by apply Hlow).
Qed.

(** The two spellings of "no bits outside of the mask". *)
Lemma inside_mask flag v : is_u32 v -> Z.land v flag = v -> Z.land (lnot32 flag) v = 0.
Proof.
  intros Hv H. apply Z.bits_inj'. intros j _. rewrite Z.land_spec, Z.bits_0.
  destruct (Z.testbit v j) eqn:Ev; [|by rewrite andb_false_r]. rewrite andb_true_r.
  assert (0 <= j < 32).
  { destruct (decide (j < 0)); [by rewrite Z.testbit_neg_r in Ev|].
    destruct (decide (32 <= j)); [by rewrite testbit_u32_high in Ev|lia]. }
  rewrite lnot32_spec by done. rewrite <- H, Z.land_spec, andb_true_iff in Ev. by destruct Ev as [_ ->].
Qed.

(** [set_cancel] and the mutex attribute setters are the same field update. *)
Lemma set_state_spec a flag val g :
  is_u32 (p_state a) -> is_u32 val ->
  let '(rv, a') := _pthread_set_state a flag val in
  (rv = 0 <-> Z.land (lnot32 flag) val = 0) /\
  (rv = 0 -> is_u32 (p_state a') /\ _pthread_get_state a' flag = val /\ stack a' = stack a /\ s_size a' = s_size a /\
             (Z.land g flag = 0 -> _pthread_get_state a' g = _pthread_get_state a g)) /\
  (rv <> 0 -> rv = EINVAL /\ a' = a).
Proof.
  intros Hp Hv. unfold _pthread_set_state, _pthread_get_state.
  destruct (Z.eqb_spec (Z.land (lnot32 flag) val) 0) as [E|E]; simpl; [|done].
  destruct (field_roundtrip (p_state a) flag val g Hp Hv E) as (H1 & H2 & H3). done.
Qed.

Lemma prioceiling_value a prio :
  is_u32 a -> 0 <= prio < 2 ^ 26 ->
  Z.land a (PTHREAD_PRIO_MULT - 1) +u (prio * PTHREAD_PRIO_MULT) = a mod 32 + prio * 32.
Proof.
  intros Ha Hp. change (PTHREAD_PRIO_MULT - 1) with (Z.ones 5). rewrite Z.land_ones by lia.
  change (2 ^ 5) with 32. unfold PTHREAD_PRIO_MULT. pose proof (Z.mod_pos_bound a 32). apply u32_small. lia.
Qed.

(** ** Properties *)

(** Bit fields do not disturb each other.  A thread attribute is accepted exactly when
    its value lies within its mask, and is then read back, every field of a disjoint mask
    and the stack settings staying as they were; the cancellation state and type behave
    the same and report the old setting.  Mutex types 0 to 3 are read back without
    touching the other fields, priority ceilings up to [2^26] are read back without
    touching the type.  None of the three priority protocols can be set: [setprotocol]
    rejects PTHREAD_PRIO_NONE, PTHREAD_PRIO_INHERIT and PTHREAD_PRIO_PROTECT. *)
Theorem win_fields_independent :
  (forall a flag val g, is_u32 (p_state a) -> is_u32 val ->
     let '(rv, a') := _pthread_set_state a flag val in
     (rv = 0 <-> Z.land (lnot32 flag) val = 0) /\
     (rv = 0 -> _pthread_get_state a' flag = val /\ stack a' = stack a /\ s_size a' = s_size a /\
                (Z.land g flag = 0 -> _pthread_get_state a' g = _pthread_get_state a g)) /\
     (rv <> 0 -> rv = EINVAL /\ a' = a)) /\
  (forall p v, is_u32 p -> is_u32 v -> Z.land v PTHREAD_CANCEL_ENABLE = v ->
     exists p', pthread_setcancelstate v p = (0, Some (Z.land p PTHREAD_CANCEL_ENABLE), p') /\
       Z.land p' PTHREAD_CANCEL_ENABLE = v /\
       Z.land p' PTHREAD_CANCEL_ASYNCHRONOUS = Z.land p PTHREAD_CANCEL_ASYNCHRONOUS) /\
  (forall a t, is_u32 a -> 0 <= t <= 3 ->
     exists a', pthread_mutexattr_settype a t = (0, a') /\ pthread_mutexattr_gettype a' = (0, t) /\
       pthread_mutexattr_getpshared a' = pthread_mutexattr_getpshared a /\
       pthread_mutexattr_getprotocol a' = pthread_mutexattr_getprotocol a) /\
  (forall a prio, is_u32 a -> 0 <= prio < 2 ^ 26 ->
     exists a', pthread_mutexattr_setprioceiling a prio = (0, a') /\
       pthread_mutexattr_getprioceiling a' = (0, prio) /\
       pthread_mutexattr_gettype a' = pthread_mutexattr_gettype a) /\
  (forall a t, t = 0 \/ t = 8 \/ t = 16 -> pthread_mutexattr_setprotocol a t = (EINVAL, a)).
Proof.
  split_and!.
  - intros a flag val g Hp Hv. pose proof (set_state_spec a flag val g Hp Hv) as H.
    destruct (_pthread_set_state a flag val) as [rv a']. destruct H as (H1 & H2 & H3). split_and!; try done.
    intros E. by destruct (H2 E) as (_ & ?).
  - intros p v Hp Hv Hin. unfold pthread_setcancelstate, set_cancel. rewrite (u32_small v Hv), Hin, Z.eqb_refl. simpl.
    eexists. split; [done|].
    destruct (field_roundtrip p PTHREAD_CANCEL_ENABLE v PTHREAD_CANCEL_ASYNCHRONOUS Hp Hv) as (_ & H2 & H3); [by apply inside_mask|].
    split; [done|by apply H3].
  - intros a t Ha Ht. assert (Hv : is_u32 t) by (unfold is_u32; lia).
    unfold pthread_mutexattr_settype. rewrite (u32_small t Hv), (proj2 (Z.ltb_ge 3 t)) by lia. eexists. split; [done|].
    assert (Hin : Z.land (lnot32 3) t = 0).
    { apply inside_mask; [done|]. change 3 with (Z.ones 2). rewrite Z.land_ones by lia. apply Z.mod_small. lia. }
    unfold pthread_mutexattr_gettype, pthread_mutexattr_getpshared, pthread_mutexattr_getprotocol.
    destruct (field_roundtrip a 3 t 4 Ha Hv Hin) as (_ & H2 & H3).
    destruct (field_roundtrip a 3 t (8 + 16) Ha Hv Hin) as (_ & _ & H4). rewrite H2, H3, H4 by done. done.
  - intros a prio Ha Hp. unfold pthread_mutexattr_setprioceiling. eexists. split; [done|].
    rewrite prioceiling_value by done. unfold pthread_mutexattr_getprioceiling, pthread_mutexattr_gettype, PTHREAD_PRIO_MULT.
    split.
    + rewrite Z.div_add by lia. rewrite (Z.div_small (a mod 32)) by (apply Z.mod_pos_bound; lia).
      by rewrite s32_small by lia.
    + change 3 with (Z.ones 2). rewrite !Z.land_ones by lia. change (2 ^ 2) with 4. f_equal.
      replace (prio * 32) with (prio * 8 * 4) by lia. rewrite Z.mod_add by lia.
      rewrite Z.mod_mod_divide; [done|]. by exists 8.
  - intros a t [->|[->| ->]]; done.
Qed.
