(* ===== verification/WinThread.v ===== *)
(** * Threads on Windows: creation, exit, joining (src/windows/pthread_create.h)

    The life of one [struct _pthread_v]: the thread that calls [pthread_create], the new
    thread in [pthread_create_wrapper], and the client that joins or detaches it.  Every
    access to the structure is a step; an access after [free] is a fault. *)

From stdpp Require Import base gmap list.
From Stdlib Require Import ZArith Lia.
From S2P Require Import Prelude Types WinAttr.

Definition PTHREAD_CANCELED : ptr := 3735928559. (* 0xDEADBEEF *)
(** [(HANDLE) -1] and the handle [_beginthreadex] returns. *)
Definition NO_HANDLE_YET : Z := -1.

Definition pthread_equal (t1 t2 : ptr) : Z := if t1 =? t2 then 1 else 0.

(** [_pthread_concur] *)
Definition pthread_getconcurrency (concur : Z) : Z * Z := (0, concur).
Definition pthread_setconcurrency (val concur : Z) : Z * Z := (0, val).

(** ** The structure *)

(** The fields of [struct _pthread_v] that creation and exit use; [keymax] and [keyval]
    are in WinTls.v. *)
Record pthread_v := PthreadV {
  ret_arg : ptr; tfunc : ptr; clean : list (ptr * ptr); h : Z; tcancelled : Z; tp_state : Z
}.

Definition set_h (x : Z) (v : pthread_v) : pthread_v :=
  PthreadV (ret_arg v) (tfunc v) (clean v) x (tcancelled v) (tp_state v).
Definition set_ret (x : ptr) (v : pthread_v) : pthread_v :=
  PthreadV x (tfunc v) (clean v) (h v) (tcancelled v) (tp_state v).

(** What [pthread_create] stores before it starts the thread. *)
Definition new_thread (attr : option pthread_attr_t) (func arg : ptr) : pthread_v :=
  PthreadV arg func [] NO_HANDLE_YET 0
    (match attr with Some a => p_state a | None => PTHREAD_DEFAULT_ATTR end).

(** What [pthread_self] stores for a thread it did not create. *)
Definition main_thread (handle : Z) : pthread_v := PthreadV NULL NULL [] handle 0 PTHREAD_DEFAULT_ATTR.

(** [pthread_tls_init]: the new [_pthread_tls]; [index] is the answer of [TlsAlloc]. *)
Definition TLS_OUT_OF_INDEXES : Z := 2 ^ 32 - 1.
Definition pthread_tls_init (index : Z) : outcome Z :=
  if index =? TLS_OUT_OF_INDEXES then Aborts else Ok index.

(** [pthread_self]: the value of the TLS slot, or a new structure ([addr]: what [malloc]
    returned) entered there. *)
Definition pthread_self (addr handle : Z) (slot : ptr) (heap : gmap Z pthread_v)
  : outcome (ptr * ptr * gmap Z pthread_v) :=
  if slot =? NULL then
    if addr =? NULL then Aborts else Ok (addr, addr, <[addr := main_thread handle]> heap)
  else Ok (slot, slot, heap).

(** ** Positions *)

Inductive cr_pc :=            (* pthread_create *)
| CrInit                      (* malloc, the stores before the thread exists *)
| CrBegin                     (* _beginthreadex *)
| CrStore (x : Z)             (* tv->h = (HANDLE) ... *)
| CrCheck                     (* if (!tv->h) return 1 *)
| CrAttr                      (* if (tv->p_state & PTHREAD_CREATE_DETACHED) *)
| CrClose                     (* CloseHandle(tv->h) *)
| CrZero                      (* tv->h = 0 *)
| CrDone (rv : Z).

Inductive th_pc :=            (* pthread_create_wrapper *)
| ThNone                      (* not started *)
| ThFunc                      (* tv->func(tv->ret_arg) runs *)
| ThStore (r : ptr)           (* tv->ret_arg = r, on return or in pthread_exit *)
| ThDest                      (* _pthread_cleanup_dest(tv) *)
| ThWait                      (* while (tv->h == (HANDLE) -1) *)
| ThTest                      (* if (!tv->h) free(tv) *)
| ThDtZero                    (* pthread_detach(pthread_self()): tv->h = 0 *)
| ThEnd.                      (* the handle is signalled *)

#[global] Instance th_pc_eq_dec : EqDecision th_pc.
Proof. solve_decision. Defined.

Inductive cl_pc :=            (* pthread_join, pthread_detach *)
| ClIdle
| JnWait                      (* WaitForSingleObject(tv->h, INFINITE) *)
| JnClose                     (* CloseHandle(tv->h) *)
| JnRead                      (* *res = tv->ret_arg *)
| JnFree (r : ptr)            (* free(tv) *)
| Joined (r : ptr)
| DtClose                     (* CloseHandle(tv->h) *)
| DtZero                      (* tv->h = 0 *)
| Detached.

Record life := Life {
  obj : option pthread_v;     (* None: not allocated, or freed *)
  frees : Z;
  closes : Z;                 (* CloseHandle on the thread's handle *)
  cr : cr_pc; th : th_pc; cl : cl_pc;
  result : option ptr         (* what the thread returned, or gave to pthread_exit *)
}.

Definition with_obj (o : option pthread_v) (s : life) : life :=
  Life o (frees s) (closes s) (cr s) (th s) (cl s) (result s).
Definition with_cr (x : cr_pc) (s : life) : life :=
  Life (obj s) (frees s) (closes s) x (th s) (cl s) (result s).
Definition with_th (x : th_pc) (s : life) : life :=
  Life (obj s) (frees s) (closes s) (cr s) x (cl s) (result s).
Definition with_cl (x : cl_pc) (s : life) : life :=
  Life (obj s) (frees s) (closes s) (cr s) (th s) x (result s).
Definition with_result (r : ptr) (s : life) : life :=
  Life (obj s) (frees s) (closes s) (cr s) (th s) (cl s) (Some r).
(** [free(tv)], [CloseHandle(x)] *)
Definition free_tv (s : life) : life := Life None (frees s + 1) (closes s) (cr s) (th s) (cl s) (result s).
Definition close_handle (x : Z) (s : life) : life :=
  Life (obj s) (frees s) (if x =? NO_HANDLE_YET then closes s else closes s + 1) (cr s) (th s) (cl s) (result s).

(** [(tv->p_state & PTHREAD_CREATE_DETACHED) != 0] *)
Definition detached (v : pthread_v) : bool := negb (Z.land (tp_state v) PTHREAD_CREATE_DETACHED =? 0).

Section Life.
Context (attr : option pthread_attr_t) (func arg : ptr).
(** What calling a function pointer returns. *)
Context (apply : ptr -> ptr -> ptr).

(** One step of [pthread_create]: [ok] says whether [malloc] succeeds, [hnd] is what
    [_beginthreadex] returns. *)
Definition pthread_create (ok : bool) (hnd : Z) (s : life) : outcome life :=
  match cr s with
  | CrInit => if ok then Ok (with_obj (Some (new_thread attr func arg)) (with_cr CrBegin s))
              else Ok (with_cr (CrDone 1) s)
  | CrBegin => Ok (with_cr (CrStore hnd) (if hnd =? 0 then s else with_th ThFunc s))
  | CrStore x => let* v := deref (obj s) in Ok (with_obj (Some (set_h x v)) (with_cr CrCheck s))
  | CrCheck => let* v := deref (obj s) in
               Ok (with_cr (if h v =? 0 then CrDone 1 else CrAttr) s)
  | CrAttr => let* v := deref (obj s) in Ok (with_cr (if detached v then CrClose else CrDone 0) s)
  | CrClose => let* v := deref (obj s) in Ok (close_handle (h v) (with_cr CrZero s))
  | CrZero => let* v := deref (obj s) in Ok (with_obj (Some (set_h 0 v)) (with_cr (CrDone 0) s))
  | CrDone _ => Blocks
  end.

(** How the thread's function ends, or that it detaches itself first. *)
Inductive th_act := Returns | Exits (r : ptr) | DetachesSelf.

(** One step of [pthread_create_wrapper], with [pthread_exit] ([_pthread_invoke_cancel]
    ends in [pthread_exit(PTHREAD_CANCELED)]) and [pthread_detach] of itself. *)
Definition pthread_create_wrapper (a : th_act) (s : life) : outcome life :=
  match th s with
  | ThNone | ThEnd => Blocks
  | ThFunc =>
      let* v := deref (obj s) in
      match a with
      | Returns => let r := apply (tfunc v) (ret_arg v) in Ok (with_result r (with_th (ThStore r) s))
      | Exits r => Ok (with_result r (with_th (ThStore r) s))
      | DetachesSelf => Ok (close_handle (h v) (with_th ThDtZero s))
      end
  | ThStore r => let* v := deref (obj s) in Ok (with_obj (Some (set_ret r v)) (with_th ThDest s))
  | ThDest => let* v := deref (obj s) in Ok (with_th ThWait s)
  | ThWait => let* v := deref (obj s) in Ok (with_th (if h v =? NO_HANDLE_YET then ThWait else ThTest) s)
  | ThTest => let* v := deref (obj s) in
              Ok (with_th ThEnd (if h v =? 0 then free_tv s else s))
  | ThDtZero => let* v := deref (obj s) in Ok (with_obj (Some (set_h 0 v)) (with_th ThFunc s))
  end.

(** One step of [pthread_join] with a [res] that is not NULL, after the [pthread_testcancel]
    it begins with (WinCancel.v), which has not acted; waiting for the handle ends when the
    thread has. *)
Definition pthread_join (s : life) : outcome life :=
  match cl s with
  | JnWait => let* v := deref (obj s) in
              match th s with ThEnd => Ok (with_cl JnClose s) | _ => Blocks end
  | JnClose => let* v := deref (obj s) in Ok (close_handle (h v) (with_cl JnRead s))
  | JnRead => let* v := deref (obj s) in Ok (with_cl (JnFree (ret_arg v)) s)
  | JnFree r => let* _ := deref (obj s) in Ok (free_tv (with_cl (Joined r) s))
  | _ => Blocks
  end.

Definition pthread_detach (s : life) : outcome life :=
  match cl s with
  | DtClose => let* v := deref (obj s) in Ok (close_handle (h v) (with_cl DtZero s))
  | DtZero => let* v := deref (obj s) in Ok (with_obj (Some (set_h 0 v)) (with_cl Detached s))
  | _ => Blocks
  end.

(** ** Runs *)

Inductive role := RCreate (ok : bool) (hnd : Z) | RThread (a : th_act) | RJoin | RDetach | RStep.

(** The client may join or detach once, when [pthread_create] has returned 0 and the
    thread was not created detached. *)
Definition may_use (s : life) : bool :=
  match cr s, cl s, attr with
  | CrDone 0, ClIdle, None => true
  | CrDone 0, ClIdle, Some a => Z.land (p_state a) PTHREAD_CREATE_DETACHED =? 0
  | _, _, _ => false
  end.

Definition act (r : role) (s : life) : outcome life :=
  match r with
  | RCreate ok hnd => pthread_create ok hnd s
  | RThread a => pthread_create_wrapper a s
  | RJoin => if may_use s then Ok (with_cl JnWait s) else Blocks
  | RDetach => if may_use s then Ok (with_cl DtClose s) else Blocks
  | RStep => match cl s with DtClose | DtZero => pthread_detach s | _ => pthread_join s end
  end.

(** The proper use: a handle is not -1 (0 is a failure), and the thread does not detach
    itself. *)
Definition proper (r : role) : Prop :=
  match r with
  | RCreate _ hnd => hnd <> NO_HANDLE_YET
  | RThread a => a <> DetachesSelf
  | _ => True
  end.

Definition born : life := Life None 0 0 CrInit ThNone ClIdle None.

Inductive reaches (ok : role -> Prop) : life -> Prop :=
| ReBorn : reaches ok born
| ReStep s r s' : reaches ok s -> ok r -> act r s = Ok s' -> reaches ok s'.

(** ** Invariant *)

Definition is_detached : bool :=
  match attr with Some a => negb (Z.land (p_state a) PTHREAD_CREATE_DETACHED =? 0) | None => false end.

(** Who has set [tv->h] to 0. *)
Definition let_go (s : life) : bool :=
  match cr s, cl s with CrDone _, Detached => true | CrDone _, _ => is_detached | _, _ => false end.

(** The value of [tv->h] once the thread exists. *)
Definition h_ok (s : life) (v : pthread_v) : Prop :=
  match cr s with
  | CrInit | CrBegin => False
  | CrStore x => x <> 0 /\ x <> NO_HANDLE_YET /\ h v = NO_HANDLE_YET
  | CrDone rv => rv = 0 /\ h v <> NO_HANDLE_YET /\ (h v = 0 <-> let_go s = true)
  | CrCheck | CrAttr => h v <> 0 /\ h v <> NO_HANDLE_YET
  | CrClose | CrZero => h v <> 0 /\ h v <> NO_HANDLE_YET /\ is_detached = true
  end.

(** [pthread_create] while no thread exists. *)
Definition quiet_cr (s : life) : Prop :=
  match cr s, obj s with
  | CrInit, None | CrDone 1, _ => True
  | CrBegin, Some v => h v = NO_HANDLE_YET
  | CrStore x, Some _ => x = 0
  | CrCheck, Some v => h v = 0
  | _, _ => False
  end.

(** The client's position and its share of the handle's closing. *)
Definition cl_ok (s : life) : Prop :=
  match cl s with
  | ClIdle => True
  | JnWait | DtClose | DtZero | Detached => cr s = CrDone 0 /\ is_detached = false
  | JnClose | JnRead => cr s = CrDone 0 /\ is_detached = false /\ th s = ThEnd
  | JnFree r => cr s = CrDone 0 /\ is_detached = false /\ th s = ThEnd /\ result s = Some r
  | Joined r => cr s = CrDone 0 /\ is_detached = false /\ th s = ThEnd /\ result s = Some r /\ frees s = 1
  end.
Definition cr_closed (s : life) : Z :=
  match cr s with CrZero => 1 | CrDone 0 => if is_detached then 1 else 0 | _ => 0 end.
Definition cl_closed (s : life) : Z :=
  match cl s with JnRead | JnFree _ | Joined _ | DtZero | Detached => 1 | _ => 0 end.

(** What the thread has produced. *)
Definition th_ok (s : life) : Prop :=
  match th s with
  | ThStore r => result s = Some r
  | ThDest | ThWait | ThTest | ThEnd => forall v, obj s = Some v -> result s = Some (ret_arg v)
  | ThDtZero => False
  | ThNone | ThFunc => forall v, obj s = Some v -> tfunc v = func /\ ret_arg v = arg
  end.

Record life_inv (s : life) : Prop := {
  lv_state v : obj s = Some v -> detached v = is_detached;
  lv_none : th s = ThNone -> frees s = 0 /\ cl s = ClIdle /\ quiet_cr s;
  lv_some v : obj s = Some v -> th s <> ThNone -> frees s = 0 /\ h_ok s v;
  lv_freed : obj s = None -> th s <> ThNone ->
    frees s = 1 /\ th s = ThEnd /\ cr s = CrDone 0 /\
    (let_go s = true \/ exists r, cl s = Joined r);
  lv_cl : cl_ok s;
  lv_th : th_ok s;
  lv_closes : closes s = cr_closed s + cl_closed s
}.

Lemma born_inv : life_inv born.
Proof. by split. Qed.

Lemma new_thread_detached : detached (new_thread attr func arg) = is_detached.
Proof. unfold detached, new_thread, is_detached. by destruct attr. Qed.

(** Opens the invariant at a state whose positions are known. *)
Ltac open_inv H :=
  let H1 := fresh "Hst" in let H2 := fresh "Hnone" in let H3 := fresh "Hsome" in
  let H4 := fresh "Hfreed" in let H5 := fresh "Hcl" in let H6 := fresh "Hth" in let H7 := fresh "Hclo" in
  destruct H as [H1 H2 H3 H4 H5 H6 H7];
  unfold quiet_cr, h_ok, let_go, cl_ok, th_ok, cr_closed, cl_closed in *; simpl in *.

Ltac close_inv :=
  split; simpl; unfold quiet_cr, h_ok, let_go, cl_ok, th_ok, cr_closed, cl_closed; simpl;
  try done; try lia; intros; simplify_eq/=; try done; try lia.

Ltac step_cases H :=
  repeat match type of H with
  | context [match ?e with _ => _ end] => destruct e eqn:?; simpl in H; try discriminate H
  end; try (injection H as <-).

Lemma life_create_inv ok hnd s s' :
  hnd <> NO_HANDLE_YET -> life_inv s -> pthread_create ok hnd s = Ok s' -> life_inv s'.
Proof.
  intros Hh Hinv Hst. destruct s as [o f c r t l res]. unfold pthread_create in Hst.
  destruct r as [| |x| | | | |rv]; simpl in Hst; destruct (decide (t = ThNone)) as [->|Ht];
    open_inv Hinv; try (destruct (Hnone eq_refl) as (-> & -> & Hq); clear Hnone Hsome Hfreed);
    destruct o as [v|]; simpl in Hst; try done; try (destruct (Hsome v eq_refl Ht) as [-> Hv]; clear Hsome);
    try (by destruct (Hfreed eq_refl Ht) as (_ & _ & ? & _)); try done.
  all: try pose proof (Hst0 v eq_refl) as Hdet.
  all: try (destruct l; try by destruct Hcl).
  all: step_cases Hst; unfold close_handle; close_inv; try apply new_thread_detached; zcase; try lia;
    try (rewrite <- Hdet in *); try (destruct t; try done; intros; simplify_eq/=; by apply Hth); try (split_and!; tauto).
  all: try (split_and!; naive_solver). by destruct Hv as (_ & _ & ->).
Qed.

Lemma wrapper_inv a s s' :
  a <> DetachesSelf -> life_inv s -> pthread_create_wrapper a s = Ok s' -> life_inv s'.
Proof.
  intros Ha Hinv Hst. destruct s as [o f c r t l res]. unfold pthread_create_wrapper in Hst.
  destruct t as [| |r'| | | | |]; simpl in Hst; try done; open_inv Hinv;
    (destruct o as [v|]; simpl in Hst; [|done]);
    destruct (Hsome v eq_refl ltac:(done)) as [-> Hv]; pose proof (Hst0 v eq_refl) as Hdet.
  all: step_cases Hst; try done; unfold close_handle; close_inv; try (destruct l; intuition congruence).
  apply Z.eqb_eq in Heqb. unfold NO_HANDLE_YET in *. destruct r; try (by destruct Hv); try (exfalso; lia).
  destruct Hv as (-> & _ & Hv). split_and!; [done..|]. left. by apply Hv.
Qed.

Lemma join_inv s s' : life_inv s -> pthread_join s = Ok s' -> life_inv s'.
Proof.
  intros Hinv Hst. destruct s as [o f c r t l res]. unfold pthread_join in Hst.
  destruct l as [| | | |r'| | | |]; simpl in Hst; try done; open_inv Hinv;
    (destruct o as [v|]; simpl in Hst; [|done]); destruct Hcl as (-> & Hcl);
    destruct t; try done; try (exfalso; intuition congruence).
  all: try (destruct (Hsome v eq_refl ltac:(done)) as [-> Hv]; destruct Hv as (_ & Hv & Hv')).
  all: step_cases Hst; try done; unfold close_handle; close_inv; try tauto.
  - zcase; lia.
  - split_and!; [done|tauto|done|by apply Hth].
  - split_and!; [done..|]. right. by eexists.
Qed.

Lemma detach_inv s s' : life_inv s -> pthread_detach s = Ok s' -> life_inv s'.
Proof.
  intros Hinv Hst. destruct s as [o f c r t l res]. unfold pthread_detach in Hst.
  destruct l as [| | | |r'| | | |]; simpl in Hst; try done; open_inv Hinv;
    (destruct o as [v|]; simpl in Hst; [|done]); destruct Hcl as (-> & Hd);
    pose proof (Hst0 v eq_refl) as Hdet;
    (destruct (decide (t = ThNone)) as [->|Ht]; [by destruct (Hnone eq_refl) as (_ & ? & _)|]);
    destruct (Hsome v eq_refl Ht) as [-> (_ & Hv & Hv')].
  all: step_cases Hst; try done; unfold close_handle; close_inv; try tauto.
  - zcase; lia.
  - destruct t; try done; intros; simplify_eq/=; by apply Hth.
Qed.

Lemma may_use_spec s : may_use s = true -> cr s = CrDone 0 /\ cl s = ClIdle /\ is_detached = false.
Proof.
  unfold may_use, is_detached. destruct (cr s) as [| | | | | | |[]], (cl s), attr; try done.
  intros H. by rewrite H.
Qed.

(** Once [pthread_create] has returned 0 the thread exists. *)
Lemma created_thread s : life_inv s -> cr s = CrDone 0 -> th s <> ThNone.
Proof. intros Hinv Hc Ht. destruct (lv_none _ Hinv Ht) as (_ & _ & Hq). unfold quiet_cr in Hq. by rewrite Hc in Hq. Qed.

Lemma use_inv x s : x = JnWait \/ x = DtClose -> may_use s = true -> life_inv s -> life_inv (with_cl x s).
Proof.
  intros Hx (Hc & Hl & Hd)%may_use_spec Hinv. pose proof (created_thread s Hinv Hc) as Ht.
  destruct s as [o f c r t l res]. simpl in *. subst r l. open_inv Hinv. destruct Hx as [-> | ->]; close_inv;
    destruct (Hfreed eq_refl Ht) as (_ & _ & _ & [?|[? ?]]); congruence.
Qed.

Lemma act_inv r s s' : proper r -> life_inv s -> act r s = Ok s' -> life_inv s'.
Proof.
  intros Hp Hinv. destruct r as [ok hnd|a| | |]; simpl in *.
  - by apply life_create_inv.
  - by apply wrapper_inv.
  - destruct (may_use s) eqn:Hm; [|done]. intros [= <-]. apply use_inv; auto.
  - destruct (may_use s) eqn:Hm; [|done]. intros [= <-]. apply use_inv; auto.
  - destruct (cl s); by first [apply join_inv|apply detach_inv].
Qed.

Lemma reaches_inv s : reaches proper s -> life_inv s.
Proof. induction 1; [exact born_inv|by eapply act_inv]. Qed.

(** The structure exists wherever it is used. *)
Lemma no_fault r s : life_inv s -> act r s <> Faults.
Proof.
  intros Hinv. destruct (obj s) as [v|] eqn:Ho.
  { destruct r; simpl; unfold pthread_create, pthread_create_wrapper, pthread_join, pthread_detach; rewrite ?Ho; simpl;
      repeat case_match; done. }
  assert (Hc : match cr s with CrInit | CrDone _ => True | _ => False end /\
               match th s with ThNone | ThEnd => True | _ => False end /\
               match cl s with ClIdle | Joined _ | Detached => True | _ => False end).
  { destruct (decide (th s = ThNone)) as [Ht|Ht].
    - destruct (lv_none _ Hinv Ht) as (_ & -> & Hq). rewrite Ht. unfold quiet_cr in Hq. rewrite Ho in Hq.
      by destruct (cr s).
    - destruct (lv_freed _ Hinv Ho Ht) as (_ & -> & Hc & Hg). rewrite Hc. pose proof (lv_cl _ Hinv) as Hcl.
      unfold let_go in Hg. rewrite Hc in Hg. unfold cl_ok in Hcl. split_and!; try done.
      destruct (cl s), Hg as [Hg|[? Hg]]; try done; destruct Hcl as (_ & Hcl); intuition congruence. }
  destruct Hc as (H1 & H2 & H3).
  destruct r; simpl; unfold pthread_create, pthread_create_wrapper, pthread_join, pthread_detach;
    repeat case_match; done.
Qed.

(** ** Properties *)

(** C31.  Memory safety of threads under proper use (the client joins or detaches a joinable
    thread at most once, after [pthread_create] has returned 0, and the thread does not
    detach itself): under every interleaving of the creator, the thread and the client, no
    access to the thread's structure happens after it was freed, it is freed at most once
    and the handle is closed at most once; a completed [pthread_join] has freed the
    structure, closed the handle and returned what the thread's function returned (or gave
    to [pthread_exit]). *)
Theorem thread_life_safe s :
  reaches proper s ->
  (forall r, act r s <> Faults) /\ 0 <= frees s <= 1 /\ 0 <= closes s <= 1 /\
  (obj s = None -> th s <> ThNone -> th s = ThEnd /\ frees s = 1) /\
  (th s = ThFunc -> forall s', act (RThread Returns) s = Ok s' -> result s' = Some (apply func arg)) /\
  (forall r, cl s = Joined r -> frees s = 1 /\ closes s = 1 /\ result s = Some r).
Proof.
  intros Hr%reaches_inv. split; [intros r; by apply no_fault|].
  pose proof (lv_closes _ Hr) as Hc. pose proof (lv_cl _ Hr) as Hcl. unfold cl_ok in Hcl.
  assert (Hf : frees s = 0 \/ frees s = 1).
  { destruct (decide (th s = ThNone)) as [Ht|Ht]; [left; by destruct (lv_none _ Hr Ht)|].
    destruct (obj s) as [v|] eqn:Ho; [left; by destruct (lv_some _ Hr v Ho Ht)|right; by destruct (lv_freed _ Hr Ho Ht)]. }
  split; [lia|]. unfold cr_closed, cl_closed in Hc. split_and!.
  - destruct (cl s), (cr s) as [| | | | | | |[]]; try destruct is_detached; lia.
  - destruct (cl s), (cr s) as [| | | | | | |[]]; simpl in *; try lia; destruct is_detached; try lia;
      exfalso; intuition congruence.
  - intros Ho Ht. by destruct (lv_freed _ Hr Ho Ht) as (? & ? & _).
  - intros Ht s'. simpl. unfold pthread_create_wrapper. rewrite Ht. destruct (obj s) as [v|] eqn:Ho; simpl; [|done].
    intros [= <-]. simpl. pose proof (lv_th _ Hr) as Hth. unfold th_ok in Hth. rewrite Ht in Hth.
    by destruct (Hth v Ho) as [-> ->].
  - intros r Hl. rewrite Hl in Hc, Hcl. destruct Hcl as (Hd & Hdet & _ & Hres & Hfr).
    rewrite Hd, Hdet in Hc. by split_and!.
Qed.

End Life.

(** ** Runs of one thread *)

Section Runs.
Context (attr : option pthread_attr_t).

(** The creator, the thread and the client act in the given order; the function is at 7,
    called with 11, and returns the sum. *)
Fixpoint acts (rs : list role) (s : life) : outcome life :=
  match rs with
  | [] => Ok s
  | r :: rs => let* s := act attr 7 11 Z.add r s in acts rs s
  end.

Lemma acts_reach (ok : role -> Prop) rs : forall s s',
  Forall ok rs -> reaches attr 7 11 Z.add ok s -> acts rs s = Ok s' -> reaches attr 7 11 Z.add ok s'.
Proof.
  induction rs as [|r rs IH]; intros s s' Hok Hr Hs; simpl in Hs; [by injection Hs as <-|].
  apply Forall_cons in Hok as [Hr0 Hok]. apply obind_ok in Hs as (s1 & H1 & H2).
  apply (IH s1 s'); [done| |done]. by eapply ReStep.
Qed.
End Runs.

Definition mk (hnd : Z) : role := RCreate true hnd.
Definition run_thread (n : nat) : list role := replicate n (RThread Returns).

(** Created, run to its end and joined. *)
Definition join_schedule : list role :=
  [mk 0; mk 5; mk 0; mk 0; mk 0] ++ [RJoin] ++ run_thread 5 ++ [RStep; RStep; RStep; RStep].
Definition end_of (attr : option pthread_attr_t) (rs : list role) : life :=
  match acts attr rs born with Ok s => s | _ => born end.
Definition ex_joined : life := end_of None join_schedule.

Lemma thread_life_safe_witness :
  reaches None 7 11 Z.add proper ex_joined /\ cl ex_joined = Joined 18 /\
  frees ex_joined = 1 /\ closes ex_joined = 1 /\ result ex_joined = Some 18.
Proof.
  assert (H : reaches None 7 11 Z.add proper ex_joined).
  { apply (acts_reach None proper join_schedule born); [|constructor|by vm_compute].
    repeat (constructor; [try done|]). constructor. }
  split; [exact H|]. split; [reflexivity|].
  destruct (thread_life_safe None 7 11 Z.add ex_joined H) as (_ & _ & _ & _ & _ & G). exact (G 18 eq_refl).
Defined.

(** ** Where the structure is lost or used too late *)

Definition detached_attr : option pthread_attr_t := Some (PAttr (1 + PTHREAD_CREATE_DETACHED) NULL 0).

(** A detached thread that ends while its creator is still inside [pthread_create]. *)
Definition early_end : list role :=
  [mk 0; mk 5] ++ run_thread 3 ++ [mk 0] ++ run_thread 2 ++ [mk 0; mk 0; mk 0; mk 0].
(** A thread that is detached after it has ended. *)
Definition late_detach : list role :=
  [mk 0; mk 5; mk 0; mk 0; mk 0] ++ run_thread 5 ++ [RDetach; RStep; RStep].
(** [_beginthreadex] fails. *)
Definition no_thread : list role := [mk 0; mk 0; mk 0; mk 0].
(** The thread detaches itself and ends. *)
Definition self_detach : list role := [mk 0; mk 5; mk 0; RThread DetachesSelf] ++ run_thread 6.

(** The run is possible, and nobody can act in the state it ends in. *)
Definition ends (attr : option pthread_attr_t) (rs : list role) : Prop :=
  acts attr rs born = Ok (end_of attr rs) /\ (forall r, act attr 7 11 Z.add r (end_of attr rs) = Blocks).

(** Four runs of the thread functions that lose the structure or use it after it was
    freed.  A detached thread that ends between the creator's store of the handle and its
    clearing of it finds a handle, and nobody frees the structure.  A thread that has ended
    and is detached afterwards is not freed either.  When [_beginthreadex] fails,
    [pthread_create] returns 1 without freeing what it allocated.  A thread that detaches
    itself may have freed the structure when its creator reads it. *)
Theorem thread_structure_hazards :
  (let s := end_of detached_attr early_end in ends detached_attr early_end /\
     obj s <> None /\ frees s = 0 /\ th s = ThEnd /\ cr s = CrDone 0) /\
  (let s := end_of None late_detach in ends None late_detach /\
     obj s <> None /\ frees s = 0 /\ th s = ThEnd /\ cl s = Detached) /\
  (let s := end_of None no_thread in ends None no_thread /\
     obj s <> None /\ frees s = 0 /\ cr s = CrDone 1) /\
  (let s := end_of None self_detach in acts None self_detach born = Ok s /\
     frees s = 1 /\ act None 7 11 Z.add (mk 0) s = Faults).
Proof.
  assert (H : ends detached_attr early_end /\ ends None late_detach /\ ends None no_thread)
    by (refine (conj (conj _ _) (conj (conj _ _) (conj _ _))); first [by vm_compute|intros []; by vm_compute]).
  destruct H as (H1 & H2 & H3). cbv zeta.
  refine (conj (conj H1 _) (conj (conj H2 _) (conj (conj H3 _) (conj _ _)))); vm_compute; intuition discriminate.
Qed.
