(* ===== verification/WinCancel.v ===== *)
(** * Cancellation on Windows (src/windows/pthread_create.h)

    The stack of cleanup handlers that [pthread_cleanup_push] and [pthread_cleanup_pop]
    keep in [clean], what [_pthread_invoke_cancel] runs of it, and the protocol between
    [pthread_cancel] and [pthread_testcancel] through the flag of a thread and the global
    count [_pthread_cancelling], with the threads that unwind and the cancellers that are
    between their stores.  Cancellations are not missed in careful use; without care they
    are. *)

From stdpp Require Import base gmap list.
From Stdlib Require Import ZArith Lia.
From S2P Require Import Prelude Types WinAttr.

(** ** Cleanup handlers *)

(** A handler with its argument; [clean] is the chain of the frames on the thread's
    stack, innermost first. *)
Abbreviation handler := (ptr * ptr)%type.

Record frame_state := FrameState { clean : list handler; called : list handler }.

Definition pthread_cleanup_push (f : handler) (s : frame_state) : frame_state :=
  FrameState (f :: clean s) (called s).

(** [pthread_cleanup_pop(E)] closes the block that pushed [f]: [next] is the chain the
    frame of [f] points to. *)
Definition pthread_cleanup_pop (e : bool) (f : handler) (next : list handler) (s : frame_state) : frame_state :=
  FrameState next (if e then called s ++ [f] else called s).

(** [for (pcup = pthread_self()->clean; pcup; pcup = pcup->next) pcup->func(pcup->arg);] *)
Fixpoint run_handlers (l : list handler) (log : list handler) : list handler :=
  match l with [] => log | f :: l => run_handlers l (log ++ [f]) end.

Definition _pthread_invoke_cancel (s : frame_state) : frame_state :=
  FrameState (clean s) (run_handlers (clean s) (called s)).

(** The code of a thread as far as handlers matter: push and pop open and close a block
    of the C program; a cancellation point is reached with the cancellation pending or
    not. *)
Inductive code :=
| Point (cancels : bool)
| Block (f : handler) (body : list code) (e : bool).

(** Whether the thread was cancelled, and the handlers. *)
Fixpoint run_code (c : code) (s : frame_state) {struct c} : bool * frame_state :=
  match c with
  | Point true => (true, _pthread_invoke_cancel s)
  | Point false => (false, s)
  | Block f body e =>
      let next := clean s in
      let '(gone, s) :=
        (fix run_body (l : list code) (s : frame_state) : bool * frame_state :=
           match l with
           | [] => (false, s)
           | c :: l => let (gone, s) := run_code c s in if gone then (true, s) else run_body l s
           end) body (pthread_cleanup_push f s) in
      if gone then (true, s) else (false, pthread_cleanup_pop e f next s)
  end.

(** The body of a block, or of the thread. *)
Definition run_body : list code -> frame_state -> bool * frame_state :=
  fix run_body l s :=
    match l with
    | [] => (false, s)
    | c :: l => let (gone, s) := run_code c s in if gone then (true, s) else run_body l s
    end.

(** What should be called: the popped handlers that ask for it in the order of the pops,
    and at a cancellation the handlers of the open blocks, from the inside out. *)
Fixpoint spec_code (c : code) (open : list handler) : bool * list handler :=
  match c with
  | Point true => (true, open)
  | Point false => (false, [])
  | Block f body e =>
      let '(gone, log) :=
        (fix spec_body (l : list code) : bool * list handler :=
           match l with
           | [] => (false, [])
           | c :: l => let (gone, log) := spec_code c (f :: open) in
                       if gone then (true, log) else let (gone', log') := spec_body l in (gone', log ++ log')
           end) body in
      if gone then (true, log) else (false, log ++ (if e then [f] else []))
  end.

Definition spec_body (open : list handler) : list code -> bool * list handler :=
  fix spec_body l :=
    match l with
    | [] => (false, [])
    | c :: l => let (gone, log) := spec_code c open in
                if gone then (true, log) else let (gone', log') := spec_body l in (gone', log ++ log')
    end.

(** The nesting depth, for induction. *)
Fixpoint size (c : code) : nat :=
  match c with Point _ => 1 | Block _ body _ => S (sum_list_with size body) end.

Lemma run_handlers_log l log : run_handlers l log = log ++ l.
Proof.
  revert log. induction l as [|f l IH]; intros log; simpl; [by rewrite app_nil_r|].
  rewrite IH. by rewrite <- app_assoc.
Qed.

Lemma run_block f body e s :
  run_code (Block f body e) s =
  let '(gone, s') := run_body body (pthread_cleanup_push f s) in
  if gone then (true, s') else (false, pthread_cleanup_pop e f (clean s) s').
Proof. done. Qed.

Lemma spec_block f body e open :
  spec_code (Block f body e) open =
  let '(gone, log) := spec_body (f :: open) body in
  if gone then (true, log) else (false, log ++ (if e then [f] else [])).
Proof. done. Qed.

(** Running code agrees with what should be called, and restores the chain unless the
    thread is gone. *)
Lemma run_code_ok n c s :
  (size c <= n)%nat ->
  let '(gone, log) := spec_code c (clean s) in
  exists s', run_code c s = (gone, s') /\ called s' = called s ++ log /\ (gone = false -> clean s' = clean s).
Proof.
  revert c s. induction n as [|n IH]; intros c s Hn; [destruct c; simpl in Hn; lia|].
  destruct c as [[]|f body e].
  - simpl. eexists. split; [done|]. simpl. by rewrite run_handlers_log.
  - simpl. exists s. by rewrite app_nil_r.
  - rewrite run_block, spec_block.
    assert (Hb : forall l s1, clean s1 = f :: clean s -> (sum_list_with size l <= n)%nat ->
      let '(gone, log) := spec_body (f :: clean s) l in
      exists s', run_body l s1 = (gone, s') /\ called s' = called s1 ++ log /\ (gone = false -> clean s' = clean s1)).
    { induction l as [|c l IHl]; intros s1 Hc Hl; simpl; [exists s1; by rewrite app_nil_r|]. simpl in Hl.
      specialize (IH c s1 ltac:(lia)). rewrite Hc in IH. destruct (spec_code c (f :: clean s)) as [[] log].
      - destruct IH as (s2 & -> & H2 & _). by exists s2.
      - destruct IH as (s2 & -> & H2 & H3). specialize (H3 eq_refl).
        specialize (IHl s2 ltac:(congruence) ltac:(lia)).
        destruct (spec_body (f :: clean s) l) as [gone' log']. destruct IHl as (s3 & -> & H4 & H5).
        exists s3. split; [done|]. rewrite H4, H2, app_assoc. split; [done|]. intros Hg. rewrite H5; [congruence|done]. }
    specialize (Hb body (pthread_cleanup_push f s) eq_refl). simpl in Hn. specialize (Hb ltac:(lia)).
    destruct (spec_body (f :: clean s) body) as [[] log]; destruct Hb as (s2 & -> & H2 & H3); simpl in *.
    + by exists s2.
    + eexists. split; [done|]. simpl. rewrite H2. split; [|done]. destruct e; by rewrite ?app_nil_r, ?app_assoc.
Qed.

(** Cleanup handlers: running a thread's code calls exactly the handlers it should, in
    the right order.  A pop calls its handler if asked to; a cancellation calls the
    handlers of the blocks that are open at that point, the innermost first, and no
    others; when the code ends without cancellation the chain of handlers is what it was
    before. *)
Theorem cleanup_handlers_nested c s :
  let '(gone, log) := spec_code c (clean s) in
  exists s', run_code c s = (gone, s') /\ called s' = called s ++ log /\ (gone = false -> clean s' = clean s).
Proof. by apply (run_code_ok (size c)). Qed.

Example cleanup_order :
  snd (run_code (Block (1, 10) [Block (2, 20) [Point false] true; Block (3, 30) [Point true] true] true)
         (FrameState [] [])) = FrameState [(3, 30); (1, 10)] [(2, 20); (3, 30); (1, 10)].
Proof. reflexivity. Qed.

(** ** Cancelling threads *)

(** Where a thread is: in its own code; sent to [_pthread_invoke_cancel] by an asynchronous
    cancellation; in [_pthread_invoke_cancel] after the decrement, running its handlers
    and then the destructors of [pthread_exit]; ended, its structure still there.  While
    it unwinds it keeps its flags. *)
Inductive xpos := PRun | PRedirected | PUnwind | PEnded.

#[global] Instance xpos_eq_dec : EqDecision xpos.
Proof. solve_decision. Defined.

(** What a thread is doing in [pthread_cancel], and to whom: it has looked at the target and
    decided whether to redirect it; it has stored [cancelled] and not yet incremented
    [_pthread_cancelling]. *)
Inductive xbusy := BNone | BDecided (t : nat) (redirect : bool) | BStored (t : nat) (redirect : bool).

Record xthread := XThread {
  x_cancelled : Z; x_state : Z; x_pos : xpos; x_busy : xbusy;
  x_susp : nat                     (* calls of SuspendThread not yet undone *)
}.

Record xstate := XState {
  xthr : gmap nat xthread;
  xcount : Z;                      (* _pthread_cancelling *)
  xcalls : Z                       (* history: stores to a [cancelled] by pthread_cancel *)
}.

Definition set_pos (p : xpos) (x : xthread) : xthread := XThread (x_cancelled x) (x_state x) p (x_busy x) (x_susp x).
Definition set_busy (b : xbusy) (x : xthread) : xthread := XThread (x_cancelled x) (x_state x) (x_pos x) b (x_susp x).
Definition set_susp (n : nat) (x : xthread) : xthread := XThread (x_cancelled x) (x_state x) (x_pos x) (x_busy x) n.
Definition set_state (p : Z) (x : xthread) : xthread := XThread (x_cancelled x) p (x_pos x) (x_busy x) (x_susp x).

(** What the functions of WinAttr.v see of a thread. *)
Definition seen (s : xstate) (x : xthread) : cancel_state := CancelState (x_cancelled x) (x_state x) (xcount s).

(** The thread executes code of the program: outside of [pthread_cancel] and not suspended. *)
Definition runs (x : xthread) : bool :=
  (x_susp x =? 0)%nat && bool_decide (x_pos x = PRun \/ x_pos x = PUnwind) &&
  match x_busy x with BNone => true | _ => false end.

(** The target of [pthread_cancel] when [cancelled] is stored.  A redirected thread is
    suspended, and what it was doing is over; on a thread that has ended SuspendThread and
    SetThreadContext do nothing. *)
Definition mark (redirect : bool) (x : xthread) : xthread :=
  if redirect && negb (bool_decide (x_pos x = PEnded))
  then XThread 1 (x_state x) PRedirected BNone (S (x_susp x))
  else XThread 1 (x_state x) (x_pos x) (x_busy x) (x_susp x).

Inductive xcmd :=
| KNew (t : nat) (p : Z)            (* pthread_create with p_state p *)
| KEnd (t : nat)                    (* the thread ends, by itself or having unwound *)
| KFree (t : nat)                   (* pthread_join frees the structure *)
| KSetState (t : nat) (v : Z)       (* pthread_setcancelstate *)
| KSetType (t : nat) (v : Z)        (* pthread_setcanceltype *)
| KCancel (c t : nat)               (* c calls pthread_cancel(t): up to the store *)
| KStore (c : nat)                  (* t->cancelled = 1 *)
| KNotify (c : nat)                 (* _InterlockedIncrement, ResumeThread *)
| KTest (t : nat)                   (* pthread_testcancel that acts, up to the decrement *)
| KEnter (t : nat).                 (* a redirected thread: _InterlockedDecrement *)

(** The step of a command, when it is possible.  A thread with asynchronous cancellation
    that cancels itself calls SuspendThread on itself, and stays there. *)
Definition cancel_exec (k : xcmd) (s : xstate) : option xstate :=
  let put t x := XState (<[t := x]> (xthr s)) (xcount s) (xcalls s) in
  match k with
  | KNew t p => match xthr s !! t with None => Some (put t (XThread 0 p PRun BNone 0)) | _ => None end
  | KEnd t => x ← xthr s !! t; if runs x then Some (put t (set_pos PEnded x)) else None
  | KFree t => x ← xthr s !! t;
      if bool_decide (x_pos x = PEnded) then Some (XState (delete t (xthr s)) (xcount s) (xcalls s)) else None
  | KSetState t v => x ← xthr s !! t;
      if runs x then Some (put t (set_state (snd (pthread_setcancelstate v (x_state x))) x)) else None
  | KSetType t v => x ← xthr s !! t;
      if runs x then Some (put t (set_state (snd (pthread_setcanceltype v (x_state x))) x)) else None
  | KCancel c t => y ← xthr s !! c; x ← xthr s !! t;
      if runs y then
        let '(rv, redirect, _) := pthread_cancel (seen s x) in
        if negb (rv =? 0) then Some s
        else if redirect && bool_decide (c = t) then Some (put c (set_susp 1 y))
        else Some (put c (set_busy (BDecided t redirect) y))
      else None
  | KStore c => y ← xthr s !! c;
      match x_busy y with
      | BDecided t redirect => x ← xthr s !! t;
          let thr := <[t := mark redirect x]> (xthr s) in
          y ← thr !! c;
          if (x_susp y =? 0)%nat
          then Some (XState (<[c := set_busy (BStored t redirect) y]> thr) (xcount s) (xcalls s + 1)) else None
      | _ => None
      end
  | KNotify c => y ← xthr s !! c;
      match x_busy y with
      | BStored t redirect =>
          if (x_susp y =? 0)%nat then
            let thr := <[c := set_busy BNone y]> (xthr s) in
            let thr := if redirect then alter (fun x => set_susp (pred (x_susp x)) x) t thr else thr in
            Some (XState thr (s32 (xcount s + 1)) (xcalls s))
          else None
      | _ => None
      end
  | KTest t => x ← xthr s !! t;
      if runs x && pthread_testcancel (seen s x)
      then Some (XState (<[t := set_pos PUnwind x]> (xthr s)) (s32 (xcount s - 1)) (xcalls s)) else None
  | KEnter t => x ← xthr s !! t;
      if bool_decide (x_pos x = PRedirected) && (x_susp x =? 0)%nat
      then Some (XState (<[t := set_pos PUnwind x]> (xthr s)) (s32 (xcount s - 1)) (xcalls s)) else None
  end.

(** Whether a thread is between its store and its increment. *)
Definition stored (x : xthread) : bool := match x_busy x with BStored _ _ => true | _ => false end.

(** Cancellation points that are reached while a cancelled thread runs its handlers or
    destructors with cancellation still enabled, and asynchronous cancellation of a thread
    that is between the two stores of [pthread_cancel], are not careful. *)
Definition careful (k : xcmd) (s : xstate) : bool :=
  match k with
  | KTest t => match xthr s !! t with Some x => negb (bool_decide (x_pos x = PUnwind)) | None => true end
  | KStore c =>
      match xthr s !! c with
      | Some y =>
          match x_busy y with
          | BDecided t true => match xthr s !! t with Some x => negb (stored x) | None => true end
          | _ => true
          end
      | None => true
      end
  | _ => true
  end.

Definition xstart : xstate := XState ∅ 0 0.

Definition cancel_step (ok : bool) (s s' : xstate) : Prop :=
  exists k, (ok = true -> careful k s = true) /\ cancel_exec k s = Some s'.

(** Runs that are careful throughout, and all runs. *)
Definition careful_run : xstate -> xstate -> Prop := rtc (cancel_step true).
Definition any_run : xstate -> xstate -> Prop := rtc (cancel_step false).

(** *** What the count has to cover *)

(** A thread that has a cancellation to act on, and has not decremented the count for it. *)
Definition owes (x : xthread) : Z :=
  match x_pos x with
  | PRun => if x_cancelled x =? 0 then 0 else 1
  | PRedirected => 1
  | _ => 0
  end.
Definition flight (x : xthread) : Z := if stored x then 1 else 0.

(** Only marked threads unwind, and a thread that has ended is not in [pthread_cancel]. *)
Definition sane (x : xthread) : Prop :=
  (x_cancelled x = 0 -> x_pos x = PRun \/ x_pos x = PEnded) /\ (x_pos x = PEnded -> x_busy x = BNone).

Record cancel_inv (s : xstate) : Prop := {
  xi_low : msum owes (xthr s) <= xcount s + msum flight (xthr s);
  xi_high : xcount s + msum flight (xthr s) <= xcalls s;
  xi_flight : msum flight (xthr s) <= xcalls s;
  xi_sane t x : xthr s !! t = Some x -> sane x
}.

Lemma owes_range x : 0 <= owes x <= 1.
Proof. unfold owes. destruct (x_pos x); zcase; lia. Qed.
Lemma stored_range x : 0 <= flight x <= 1.
Proof. unfold flight. destruct (stored x); lia. Qed.

Lemma s32_id z : - 2 ^ 31 <= z < 2 ^ 31 -> s32 z = z.
Proof.
  intros Hz. unfold s32, u32. destruct (decide (0 <= z)).
  - rewrite Z.mod_small by lia. zcase; lia.
  - rewrite <- (Z_mod_plus_full z 1), Z.mod_small by lia. zcase; lia.
Qed.

(** The count stays within 32 bits. *)
Lemma count_range s : cancel_inv s -> xcalls s < 2 ^ 31 -> - xcalls s <= xcount s <= xcalls s.
Proof.
  intros [H1 H2 H3 _] Hc. pose proof (msum_nonneg owes (xthr s) (fun x => proj1 (owes_range x))).
  pose proof (msum_nonneg flight (xthr s) (fun x => proj1 (stored_range x))). lia.
Qed.

(** One thread changes, the count by [d] and the number of stores by [e]. *)
Lemma move_inv s t x y d e :
  cancel_inv s -> xthr s !! t = Some x -> 0 <= e ->
  owes y - owes x <= d + flight y - flight x -> d + flight y - flight x <= e ->
  msum flight (xthr s) + flight y - flight x <= xcalls s + e ->
  sane y -> cancel_inv (XState (<[t := y]> (xthr s)) (xcount s + d) (xcalls s + e)).
Proof.
  intros [H1 H2 H3 H4] Hx He Hlow Hhigh Hfl Hm. split; simpl; rewrite ?(msum_insert _ _ _ _ _ Hx); try lia.
  intros t' z [[<- <-]|[_ Hz]]%lookup_insert_Some; [done|by apply (H4 t')].
Qed.

(** One thread changes, and neither owes nor is in flight more than before. *)
Lemma same_inv s t x y :
  cancel_inv s -> xthr s !! t = Some x -> owes y <= owes x -> flight y = flight x ->
  sane y -> cancel_inv (XState (<[t := y]> (xthr s)) (xcount s) (xcalls s)).
Proof.
  intros Hi Hx Ho Hf Hm. rewrite <- (Z.add_0_r (xcount s)), <- (Z.add_0_r (xcalls s)).
  apply (move_inv s t x y 0 0); try done; try lia. pose proof (xi_flight _ Hi). lia.
Qed.

Lemma runs_not_busy x : runs x = true -> x_busy x = BNone /\ (x_pos x = PRun \/ x_pos x = PUnwind).
Proof.
  unfold runs. intros [[_ H]%andb_true_iff Hb]%andb_true_iff. apply bool_decide_eq_true in H.
  by destruct (x_busy x).
Qed.

Lemma test_marked s x : pthread_testcancel (seen s x) = true -> x_cancelled x <> 0.
Proof. unfold pthread_testcancel. simpl. intros [_ [H _]%andb_true_iff]%andb_true_iff E. by rewrite E in H. Qed.

Lemma alter_present (f : xthread -> xthread) (m : gmap nat xthread) t x : m !! t = Some x -> alter f t m = <[t := f x]> m.
Proof.
  intros Hx. apply map_eq. intros k. destruct (decide (t = k)) as [->|Hne].
  - by rewrite lookup_alter_eq, lookup_insert_eq, Hx.
  - by rewrite lookup_alter_ne, lookup_insert_ne.
Qed.

(** The store to [cancelled] of the target. *)
Lemma mark_inv s t r x :
  cancel_inv s -> xthr s !! t = Some x -> (r = true -> stored x = false) ->
  cancel_inv (XState (<[t := mark r x]> (xthr s)) (xcount s + 1) (xcalls s + 1)) /\
  msum flight (<[t := mark r x]> (xthr s)) = msum flight (xthr s).
Proof.
  intros Hi Hx Hst. assert (Hf : flight (mark r x) = flight x).
  { unfold mark, flight. destruct r; simpl; [|done]. case_bool_decide; simpl; [done|]. by rewrite Hst. }
  split; [|rewrite (msum_insert _ _ _ _ _ Hx); lia].
  pose proof (xi_flight _ Hi). apply (move_inv s t x _ 1 1); try done; rewrite ?Hf; try lia.
  - pose proof (owes_range x). pose proof (owes_range (mark r x)). lia.
  - pose proof (xi_sane _ Hi t x Hx) as [Hm He]. unfold mark. destruct (r && _); by split.
Qed.

Lemma store_inv c s s' :
  cancel_inv s -> careful (KStore c) s = true -> cancel_exec (KStore c) s = Some s' -> cancel_inv s'.
Proof.
  intros Hi Hc E. simpl in *. apply bind_Some in E as (y & Hy & E). rewrite Hy in Hc.
  destruct (x_busy y) as [|t r|] eqn:Hb; [done| |done]. apply bind_Some in E as (x & Hx & E).
  rewrite Hx in Hc. assert (Hst : r = true -> stored x = false) by (intros ->; by apply negb_true_iff).
  pose proof (mark_inv s t r x Hi Hx Hst) as [Hi1 Hsum]. apply bind_Some in E as (y' & Hy' & E).
  destruct (x_susp y' =? 0)%nat eqn:Hs; [|done]. injection E as <-.
  assert (Hy0 : x_busy y' = BDecided t r).
  { destruct (decide (t = c)) as [->|Hne]; [|rewrite lookup_insert_ne in Hy' by done; congruence].
    rewrite lookup_insert_eq in Hy'. injection Hy' as <-. assert (x = y) as -> by congruence.
    unfold mark in *. destruct r; simpl in *; [|done]. case_bool_decide; simpl in *; [done|discriminate Hs]. }
  pose proof (move_inv _ c y' (set_busy (BStored t r) y') (-1) 0 Hi1 Hy') as Hm. simpl in Hm.
  replace (xcount s + 1 + -1) with (xcount s) in Hm by lia. rewrite Z.add_0_r in Hm.
  assert (Hf : flight y' = 0) by (unfold flight, stored; by rewrite Hy0).
  rewrite Hsum, Hf in Hm. change (flight (set_busy (BStored t r) y')) with 1 in Hm.
  change (owes (set_busy (BStored t r) y')) with (owes y') in Hm. pose proof (xi_flight _ Hi).
  apply Hm; try lia. destruct (xi_sane _ Hi1 c y' Hy') as [Hs1 Hs2].
  split; [done|]. simpl. intros Hp. by rewrite Hs2 in Hy0.
Qed.

Lemma notify_inv c s s' :
  cancel_inv s -> xcalls s < 2 ^ 31 -> cancel_exec (KNotify c) s = Some s' -> cancel_inv s'.
Proof.
  intros Hi Hcalls E. simpl in *. apply bind_Some in E as (y & Hy & E).
  destruct (x_busy y) as [| |t r] eqn:Hb; [done|done|]. destruct (x_susp y =? 0)%nat; [|done]. injection E as <-.
  pose proof (count_range s Hi Hcalls) as Hr.
  assert (Hi1 : cancel_inv (XState (<[c := set_busy BNone y]> (xthr s)) (s32 (xcount s + 1)) (xcalls s))).
  { pose proof (xi_high _ Hi) as Hh.
    assert (Hf : flight y = 1) by (unfold flight, stored; by rewrite Hb).
    pose proof (msum_ge flight _ _ _ (fun x => proj1 (stored_range x)) Hy) as Hge.
    rewrite s32_id by lia.
    pose proof (move_inv s c y (set_busy BNone y) 1 0 Hi Hy) as Hm. rewrite (Z.add_0_r (xcalls s)) in Hm.
    rewrite Hf in Hm. change (flight (set_busy BNone y)) with 0 in Hm.
    change (owes (set_busy BNone y)) with (owes y) in Hm. pose proof (xi_flight _ Hi).
    apply Hm; try lia. split; [apply (xi_sane _ Hi c y Hy)|done]. }
  destruct r; [|done]. destruct (<[c := set_busy BNone y]> (xthr s) !! t) as [x|] eqn:Hx.
  - rewrite (alter_present _ _ _ x Hx). apply (same_inv _ t x _ Hi1 Hx); try done. apply (xi_sane _ Hi1 t x Hx).
  - by rewrite alter_id by congruence.
Qed.

(** A thread goes into [_pthread_invoke_cancel] and decrements the count. *)
Lemma unwind_inv t x s :
  cancel_inv s -> xcalls s < 2 ^ 31 -> xthr s !! t = Some x -> owes x = 1 -> x_cancelled x <> 0 ->
  cancel_inv (XState (<[t := set_pos PUnwind x]> (xthr s)) (s32 (xcount s - 1)) (xcalls s)).
Proof.
  intros Hi Hc Hx Ho Hm. pose proof (xi_low _ Hi) as Hl. pose proof (xi_flight _ Hi) as Hf.
  pose proof (msum_ge owes _ _ _ (fun x => proj1 (owes_range x)) Hx) as Hge.
  pose proof (count_range s Hi Hc). rewrite s32_id by lia.
  pose proof (move_inv s t x (set_pos PUnwind x) (-1) 0 Hi Hx) as H1. rewrite (Z.add_0_r (xcalls s)) in H1.
  change (flight (set_pos PUnwind x)) with (flight x) in H1. change (owes (set_pos PUnwind x)) with 0 in H1.
  replace (xcount s + -1) with (xcount s - 1) in H1 by lia. apply H1; try lia. by split.
Qed.

(** A thread outside of [pthread_cancel] that does something of its own. *)
Lemma own_inv t x y s :
  cancel_inv s -> xthr s !! t = Some x -> runs x = true -> x_cancelled y = x_cancelled x -> stored y = false ->
  x_pos y = x_pos x \/ (x_pos y = PEnded /\ x_busy y = BNone) -> cancel_inv (XState (<[t := y]> (xthr s)) (xcount s) (xcalls s)).
Proof.
  intros Hi Hx [Hb Hpx]%runs_not_busy Hc Hs Hp. destruct (xi_sane _ Hi t x Hx) as [Hs1 _]. apply (same_inv s t x); try done.
  - unfold owes. destruct Hp as [-> | [-> _]]; rewrite ?Hc; [lia|]. destruct (x_pos x); zcase; lia.
  - unfold flight. rewrite Hs. unfold stored. by rewrite Hb.
  - unfold sane. rewrite Hc. destruct Hp as [-> | [-> Hby]]; [|auto].
    split; [done|]. intros E. destruct Hpx; congruence.
Qed.

Lemma cancel_exec_inv k s s' :
  cancel_inv s -> careful k s = true -> cancel_exec k s = Some s' -> xcalls s' < 2 ^ 31 -> cancel_inv s'.
Proof.
  intros Hi Hc E Hlt. destruct k as [t p|t|t|t v|t v|c t|c|c|t|t].
  7: by eapply store_inv.
  7: { eapply notify_inv; [done| |done]. simpl in E. apply bind_Some in E as (y & _ & E).
       destruct (x_busy y), (x_susp y =? 0)%nat; by simplify_eq. }
  all: simpl in *.
  - destruct (xthr s !! t) eqn:Hn; [done|]. injection E as <-. destruct Hi as [H1 H2 H3 H4].
    split; simpl; rewrite ?(msum_insert_new _ _ _ _ Hn);
      change (owes (XThread 0 p PRun BNone 0)) with 0; change (flight (XThread 0 p PRun BNone 0)) with 0; try lia.
    intros t' x [[<- <-]|[_ Hx]]%lookup_insert_Some; [by split; [left|]|by apply (H4 t')].
  - apply bind_Some in E as (x & Hx & E). destruct (runs x) eqn:Hr; [|done]. injection E as <-.
    pose proof (proj1 (runs_not_busy x Hr)) as Hb. eapply own_inv; try done; [|by right].
    unfold stored. simpl. by rewrite Hb.
  - apply bind_Some in E as (x & Hx & E). case_bool_decide as Hp; [|done]. injection E as <-.
    destruct Hi as [H1 H2 H3 H4]. assert (Ho : owes x = 0) by (unfold owes; by rewrite Hp).
    assert (Hf : flight x = 0) by (unfold flight, stored; by rewrite (proj2 (H4 t x Hx) Hp)).
    rewrite (msum_delete owes _ _ _ Hx), (msum_delete flight _ _ _ Hx), Ho, Hf in *.
    split; simpl; try lia. intros t' y [_ Hy]%lookup_delete_Some. by apply (H4 t').
  - apply bind_Some in E as (x & Hx & E). destruct (runs x) eqn:Hr; [|done]. injection E as <-.
    eapply own_inv; try done; [|by left]. unfold stored. simpl. by rewrite (proj1 (runs_not_busy x Hr)).
  - apply bind_Some in E as (x & Hx & E). destruct (runs x) eqn:Hr; [|done]. injection E as <-.
    eapply own_inv; try done; [|by left]. unfold stored. simpl. by rewrite (proj1 (runs_not_busy x Hr)).
  - apply bind_Some in E as (y & Hy & E). apply bind_Some in E as (x & Hx & E).
    destruct (runs y) eqn:Hr; [|done]. pose proof (proj1 (runs_not_busy y Hr)) as Hb.
    destruct (pthread_cancel (seen s x)) as [[rv redirect] z]. destruct (negb (rv =? 0)); [by injection E as <-|].
    destruct (redirect && bool_decide (c = t)); injection E as <-; eapply own_inv; try done; try (by left).
    unfold stored. simpl. by rewrite Hb.
  - apply bind_Some in E as (x & Hx & E). rewrite Hx in Hc. destruct (runs x) eqn:Hr; [|done]. simpl in E.
    destruct (pthread_testcancel (seen s x)) eqn:Ht; [|done]. injection E as <-. apply test_marked in Ht.
    apply unwind_inv; try done. destruct (proj2 (runs_not_busy x Hr)) as [Hp|Hp].
    + unfold owes. by rewrite Hp, (proj2 (Z.eqb_neq _ 0) Ht).
    + by rewrite bool_decide_eq_true_2 in Hc.
  - apply bind_Some in E as (x & Hx & E). case_bool_decide as Hp; [|done]. simpl in E.
    destruct (x_susp x =? 0)%nat; [|done]. injection E as <-. apply unwind_inv; try done.
    + unfold owes. by rewrite Hp.
    + intros Hz. destruct (proj1 (xi_sane _ Hi t x Hx) Hz); congruence.
Qed.

Lemma calls_mono k s s' : cancel_exec k s = Some s' -> xcalls s <= xcalls s'.
Proof.
  intros E. destruct k; simpl in E; repeat (apply bind_Some in E as (? & _ & E));
    repeat (case_match; simplify_eq/=; try lia);
    repeat (apply bind_Some in E as (? & _ & E)); repeat (case_match; simplify_eq/=; try lia).
Qed.

Lemma careful_run_inv s : careful_run xstart s -> xcalls s < 2 ^ 31 -> cancel_inv s.
Proof.
  intros Hr. revert s Hr. refine (rtc_ind_r _ xstart _ _).
  - intros _. by split; simpl; rewrite ?msum_empty.
  - intros s1 s2 _ (k & Hk & E) IH Hlt. pose proof (calls_mono _ _ _ E).
    apply (cancel_exec_inv k s1); [apply IH; lia|by apply Hk|done|done].
Qed.

(** C38.  In careful use (no cancellation point is reached with cancellation enabled while the
    handlers and destructors of a cancelled thread run, and no thread is cancelled
    asynchronously between the two stores of its own [pthread_cancel]), with fewer than
    [2^31] cancellations: whenever no call of [pthread_cancel] is between its two stores,
    [_pthread_cancelling] is at least the number of threads with a cancellation to act on,
    so that a cancelled thread with cancellation enabled acts at its next
    [pthread_testcancel]; a thread that nobody cancelled never acts, and never unwinds. *)
Theorem cancel_not_missed s t x :
  careful_run xstart s -> xcalls s < 2 ^ 31 -> xthr s !! t = Some x ->
  ((forall t' y, xthr s !! t' = Some y -> stored y = false) ->
     msum owes (xthr s) <= xcount s /\
     (x_pos x = PRun -> x_cancelled x <> 0 -> Z.land (x_state x) PTHREAD_CANCEL_ENABLE <> 0 ->
        pthread_testcancel (seen s x) = true)) /\
  (x_cancelled x = 0 -> pthread_testcancel (seen s x) = false /\ x_pos x <> PRedirected /\ x_pos x <> PUnwind).
Proof.
  intros Hr Hlt Hx. pose proof (careful_run_inv s Hr Hlt) as Hi. split.
  - intros Hno. pose proof (xi_low _ Hi) as Hl.
    rewrite (msum_const0 flight) in Hl by (intros t' y Hy; unfold flight; by rewrite (Hno t' y Hy)).
    split; [lia|]. intros Hp Hc He. unfold pthread_testcancel. simpl.
    pose proof (msum_ge owes _ _ _ (fun x => proj1 (owes_range x)) Hx) as Hg.
    assert (Ho : owes x = 1) by (unfold owes; by rewrite Hp, (proj2 (Z.eqb_neq _ 0) Hc)).
    rewrite (proj2 (Z.eqb_neq (xcount s) 0)) by lia.
    by rewrite (proj2 (Z.eqb_neq _ 0) Hc), (proj2 (Z.eqb_neq _ 0) He).
  - intros Hm. unfold pthread_testcancel. simpl. rewrite Hm. simpl. split; [by rewrite andb_false_r|].
    destruct (proj1 (xi_sane _ Hi t x Hx) Hm) as [-> | ->]; done.
Qed.

(** *** Runs *)

Fixpoint cancel_execs (ks : list xcmd) (s : xstate) : option xstate :=
  match ks with [] => Some s | k :: ks => s ← cancel_exec k s; cancel_execs ks s end.

Fixpoint all_careful (ks : list xcmd) (s : xstate) : bool :=
  match ks with
  | [] => true
  | k :: ks => careful k s && match cancel_exec k s with Some s => all_careful ks s | None => false end
  end.

Lemma cancel_execs_run ok ks s s' :
  (ok = true -> all_careful ks s = true) -> cancel_execs ks s = Some s' -> rtc (cancel_step ok) s s'.
Proof.
  revert s. induction ks as [|k ks IH]; simpl; intros s Hok; [by intros [= <-]|].
  intros (s1 & E & H)%bind_Some. rewrite E in Hok. eapply rtc_l; [|apply IH; [|done]].
  - exists k. split; [|done]. intros Ho. by apply andb_true_iff in Hok as [? _].
  - intros Ho. by apply andb_true_iff in Hok as [_ ?].
Qed.

(** Thread 9 cancels thread [t]. *)
Definition do_cancel (c t : nat) : list xcmd := [KCancel c t; KStore c; KNotify c].

(** Three threads with the default state; 1 and 2 are cancelled, 1 has acted. *)
Definition careful_schedule : list xcmd :=
  [KNew 9 1; KNew 1 1; KNew 2 1] ++ do_cancel 9 1 ++ do_cancel 9 2 ++ [KTest 1].
Definition ex_careful : xstate := default xstart (cancel_execs careful_schedule xstart).

Lemma cancel_not_missed_witness :
  careful_run xstart ex_careful /\ xcount ex_careful = 1 /\
  pthread_testcancel (seen ex_careful (XThread 1 1 PRun BNone 0)) = true.
Proof.
  assert (H : careful_run xstart ex_careful) by (apply (cancel_execs_run true careful_schedule); [by intros _|reflexivity]).
  split; [exact H|]. split; [reflexivity|].
  apply (cancel_not_missed ex_careful 2 (XThread 1 1 PRun BNone 0) H); try reflexivity; try discriminate.
  intros t' y Hy. assert (Hf : map_Forall (fun _ z => stored z = false) (xthr ex_careful)) by (by apply (bool_decide_unpack _)).
  exact (Hf t' y Hy).
Defined.

(** A handler of thread 1 reaches a cancellation point. *)
Definition nested_schedule : list xcmd := careful_schedule ++ [KTest 1].
Definition ex_nested : xstate := default xstart (cancel_execs nested_schedule xstart).

(** Thread 1, with asynchronous cancellation, is cancelled while it cancels thread 2. *)
Definition interrupt_schedule : list xcmd :=
  [KNew 9 1; KNew 1 3; KNew 2 1; KCancel 1 2; KStore 1] ++ do_cancel 9 1 ++ [KEnter 1].
Definition ex_interrupt : xstate := default xstart (cancel_execs interrupt_schedule xstart).

(** Without that care cancellations are missed.  A cancelled thread stays marked and
    enabled while its handlers and destructors run, so that a cancellation point in one of
    them decrements the count once more; and a thread that is cancelled asynchronously
    between the two stores of its own [pthread_cancel] never makes its increment.  In both
    cases a state is reachable in which thread 2 is cancelled, with cancellation enabled
    and no call of [pthread_cancel] under way, and does not act at a cancellation point. *)
Theorem cancel_missed :
  any_run xstart ex_nested /\ any_run xstart ex_interrupt /\
  forall s, s = ex_nested \/ s = ex_interrupt ->
    xthr s !! 2%nat = Some (XThread 1 PTHREAD_CANCEL_ENABLE PRun BNone 0) /\ xcount s = 0 /\
    (forall t y, xthr s !! t = Some y -> stored y = false) /\
    pthread_testcancel (seen s (XThread 1 PTHREAD_CANCEL_ENABLE PRun BNone 0)) = false.
Proof.
  split; [by apply (cancel_execs_run false nested_schedule)|].
  split; [by apply (cancel_execs_run false interrupt_schedule)|].
  assert (Hf : map_Forall (fun _ z => stored z = false) (xthr ex_nested) /\
               map_Forall (fun _ z => stored z = false) (xthr ex_interrupt))
    by (split; by apply (bool_decide_unpack _)).
  destruct Hf as [Hf1 Hf2].
  intros s [-> | ->]; split_and!; try reflexivity; [exact Hf1|exact Hf2].
Qed.

(** A thread with asynchronous cancellation that cancels itself is suspended for good: it
    takes no step any more, and nobody has reason to resume it. *)
Example cancel_self_hangs :
  exists s, cancel_execs [KNew 1 3; KCancel 1 1] xstart = Some s /\ xcount s = 0 /\
    forall x, xthr s !! 1%nat = Some x -> runs x = false /\ x_cancelled x = 0.
Proof. eexists. split; [reflexivity|]. split; [reflexivity|]. intros x [= <-]. done. Qed.
