(* ===== verification/WinSync.v ===== *)
(** * Synchronisation on Windows

    The spin lock and [pthread_once] of src/windows/pthread_create.h and the
    reader/writer lock that src/windows/pthread_rw_lock.h builds on it for Windows XP,
    each with the threads that use it as a step relation. *)

From stdpp Require Import base gmap list.
From Stdlib Require Import ZArith Lia.
From S2P Require Import Prelude Types.

(** ** Spin lock *)

(** [_InterlockedExchange(l, EBUSY)]: the old value and the new one. *)
Definition spin_exchange (l : Z) : Z * Z := (l, EBUSY).

Definition pthread_spin_init (l : Z) : Z * Z := (0, 0).
Definition pthread_spin_destroy (l : Z) : Z := 0.
(** One attempt of [pthread_spin_lock]: [None] while the lock is taken. *)
Definition pthread_spin_lock (l : Z) : option Z :=
  let (old, l) := spin_exchange l in if negb (old =? 0) then None else Some l.
Definition pthread_spin_trylock (l : Z) : Z * Z := spin_exchange l.
Definition pthread_spin_unlock (l : Z) : Z * Z := (0, 0).

(** ** pthread_once *)

Inductive once_pc :=
| OnRead                   (* long state = *o *)
| OnTest (state : Z)       (* while (state != 1) if (!state) _InterlockedCompareExchange *)
| OnRun                    (* func(), the cleanup handler pushed *)
| OnMark                   (* *o = 1 *)
| OnReturned.              (* return 0 *)

(** One step of a caller: [*o] and the position.  [cancel]: the thread is cancelled while
    it runs [func], and [_pthread_once_cleanup] is called ([None]: it is gone). *)
Definition pthread_once (cancel : bool) (o : Z) (x : once_pc) : option (Z * option once_pc) :=
  match x with
  | OnRead => Some (o, Some (OnTest o))
  | OnTest state =>
      if state =? 1 then Some (o, Some OnReturned)
      else if state =? 0 then
        if o =? 0 then Some (2, Some OnRun) else Some (o, Some OnRead)
      else Some (o, Some OnRead)
  | OnRun => if cancel then Some (0, None) else Some (o, Some OnMark)
  | OnMark => Some (1, Some OnReturned)
  | OnReturned => None
  end.

(** [_pthread_once_raw] is the same loop without the cleanup handler; its callers are not
    cancelled. *)
Definition _pthread_once_raw (o : Z) (x : once_pc) : option (Z * option once_pc) := pthread_once false o x.

(** The callers, and how many times [func] has run to its end. *)
Record once_state := OnceState { once_o : Z; once_thr : gmap nat once_pc; once_runs : Z }.

Definition finishes (cancel : bool) (x : once_pc) : Z := match x with OnRun => if cancel then 0 else 1 | _ => 0 end.

Inductive once_step (s : once_state) : once_state -> Prop :=
| OnceCall t : once_thr s !! t = None ->
    once_step s (OnceState (once_o s) (<[t:=OnRead]> (once_thr s)) (once_runs s))
| OnceMove t x c o y : once_thr s !! t = Some x -> pthread_once c (once_o s) x = Some (o, Some y) ->
    once_step s (OnceState o (<[t:=y]> (once_thr s)) (once_runs s + finishes c x))
| OnceGone t x c o : once_thr s !! t = Some x -> pthread_once c (once_o s) x = Some (o, None) ->
    once_step s (OnceState o (delete t (once_thr s)) (once_runs s + finishes c x)).

Definition once_init : once_state := OnceState 0 ∅ 0.

(** Callers inside [func], and callers between its end and the mark. *)
Definition on_run (x : once_pc) : Z := match x with OnRun => 1 | _ => 0 end.
Definition on_mark (x : once_pc) : Z := match x with OnMark => 1 | _ => 0 end.

Record once_inv (s : once_state) : Prop := {
  oi_cases : (once_o s = 0 /\ msum on_run (once_thr s) = 0 /\ msum on_mark (once_thr s) = 0 /\ once_runs s = 0) \/
             (once_o s = 2 /\ msum on_run (once_thr s) = 1 /\ msum on_mark (once_thr s) = 0 /\ once_runs s = 0) \/
             (once_o s = 2 /\ msum on_run (once_thr s) = 0 /\ msum on_mark (once_thr s) = 1 /\ once_runs s = 1) \/
             (once_o s = 1 /\ msum on_run (once_thr s) = 0 /\ msum on_mark (once_thr s) = 0 /\ once_runs s = 1);
  oi_seen t x : once_thr s !! t = Some x -> (x = OnTest 1 \/ x = OnReturned) -> once_o s = 1
}.

Lemma insert_cases `{Countable K} {A} (m : gmap K A) k y k' x' :
  <[k:=y]> m !! k' = Some x' -> (k = k' /\ y = x') \/ (k <> k' /\ m !! k' = Some x').
Proof. rewrite lookup_insert_Some. tauto. Qed.

Lemma once_step_inv s s' : once_inv s -> once_step s s' -> once_inv s'.
Proof.
  assert (Hr : forall x, 0 <= on_run x) by by intros []. assert (Hm : forall x, 0 <= on_mark x) by by intros [].
  intros [Hc Hs] [t Hn|t x c o y Hx Hp|t x c o Hx Hp].
  - split; simpl; [by rewrite !(msum_insert_new _ _ _ _ Hn)|].
    intros t' x' [[<- <-]|[Hne H]]%insert_cases; [by intros [?|?]|by eapply Hs].
  - pose proof (msum_ge on_run _ _ _ Hr Hx) as H1. pose proof (msum_ge on_mark _ _ _ Hm Hx) as H2.
    split; simpl.
    + rewrite !(msum_insert _ _ _ _ _ Hx). unfold pthread_once in Hp.
      destruct x; split_matches; zcase; simpl in *; lia.
    + intros t' x' [[<- <-]|[Hne H]]%insert_cases Hq.
      * unfold pthread_once in Hp. destruct x; split_matches; destruct Hq as [Hq|Hq]; simplify_eq; try done.
        apply (Hs t _ Hx). left. f_equal. by apply Z.eqb_eq.
      * specialize (Hs t' x' H Hq). unfold pthread_once in Hp. destruct x; split_matches; zcase; simpl in *; lia.
  - unfold pthread_once in Hp. destruct x; split_matches.
    pose proof (msum_ge on_run _ _ _ Hr Hx) as H1. simpl in H1.
    pose proof (msum_nonneg on_run (delete t (once_thr s)) Hr) as Hd.
    split; simpl.
    + rewrite (msum_delete on_run _ _ _ Hx), (msum_delete on_mark _ _ _ Hx) in Hc. simpl in Hc. lia.
    + intros t' x' [_ H]%lookup_delete_Some Hq. specialize (Hs t' x' H Hq). lia.
Qed.

(** C37.  [pthread_once] runs its function to the end at most once, under every interleaving
    of its callers and cancellation of the one that runs it; no two callers are ever
    inside the function, and a call returns only after the function has run to its end.
    A cancelled run leaves the control variable at 0, so that another caller starts
    over. *)
Theorem once_runs_once s :
  rtc once_step once_init s ->
  0 <= once_runs s <= 1 /\ msum on_run (once_thr s) <= 1 /\
  (forall t, once_thr s !! t = Some OnReturned -> once_runs s = 1 /\ msum on_run (once_thr s) = 0) /\
  (msum on_run (once_thr s) = 0 -> msum on_mark (once_thr s) = 0 -> once_runs s = 0 -> once_o s = 0).
Proof.
  intros Hr. assert (Hi : once_inv once_init).
  { split; [left; unfold once_init; simpl; by rewrite !msum_empty|]. intros t x Hx. simpl in Hx. by rewrite lookup_empty in Hx. }
  assert (H : once_inv s).
  { revert Hi. induction Hr as [|s0 s1 s2 Hst _ IH]; intros Hi; [done|]. apply IH. by eapply once_step_inv. }
  destruct H as [Hc Hs]. split_and!; try lia.
  intros t Ht. specialize (Hs t _ Ht ltac:(by right)). lia.
Qed.

(** One caller runs the function, a second one spins, the first one returns. *)
Definition ex_once : once_state := OnceState 1 {[0%nat := OnReturned; 1%nat := OnTest 2]} 1.

Lemma ex_once_reachable : rtc once_step once_init ex_once.
Proof.
  eapply rtc_l; [by apply (OnceCall _ 0)|]. eapply rtc_l; [by eapply (OnceCall _ 1)|]. simpl.
  eapply rtc_l; [by apply (OnceMove _ 0 OnRead false)|]. simpl.
  eapply rtc_l; [by apply (OnceMove _ 0 (OnTest 0) false)|]. simpl.
  eapply rtc_l; [by apply (OnceMove _ 1 OnRead false)|]. simpl.
  eapply rtc_l; [by apply (OnceMove _ 0 OnRun false)|]. simpl.
  eapply rtc_l; [by apply (OnceMove _ 0 OnMark false)|]. simpl.
  match goal with |- rtc _ ?s _ => replace s with ex_once by (by vm_compute) end. constructor.
Qed.

Lemma once_runs_once_witness :
  rtc once_step once_init ex_once /\ once_runs ex_once = 1 /\ msum on_run (once_thr ex_once) = 0.
Proof.
  split; [exact ex_once_reachable|].
  exact (proj1 (proj2 (proj2 (once_runs_once ex_once ex_once_reachable))) 0%nat ltac:(vm_compute; reflexivity)).
Defined.

(** ** The reader/writer lock of Windows XP *)

(** [w_id] of a lock no thread holds for writing: [(DWORD) -1]. *)
Definition NO_WRITER : Z := 2 ^ 32 - 1.

Record rwlock := RwLock { mtx : Z; r_ct : Z; w_pending : Z; w_ct : Z; w_id : Z }.

Definition u8 (z : Z) : Z := z mod 2 ^ 8.

Definition pthread_rwlock_init (l : rwlock) : Z * rwlock :=
  let (res, m) := pthread_spin_init (mtx l) in
  if negb (res =? 0) then (res, l) else (0, RwLock m 0 0 0 NO_WRITER).
Definition pthread_rwlock_destroy (l : rwlock) : Z :=
  let res := pthread_spin_destroy (mtx l) in if negb (res =? 0) then res else 0.

(** What a thread holds, and what it is about to run under the spin lock: one of the five
    operations, or the loop of [pthread_rwlock_wrlock] after a failed test. *)
Inductive rw_mode := Reading | Writing.
Inductive rw_op := OpRd | OpWr | OpWrLoop | OpUnlock (m : rw_mode) | OpTryRd | OpTryWr.

(** What follows the release of the spin lock: another turn of the loop, the return with
    the lock held, or the return without it. *)
Inductive rw_after := ARetry (op : rw_op) | AHold (m : rw_mode) | ADone.

(** [while( l->w_ct > 0 || l->w_pending )] of [pthread_rwlock_rdlock]: one turn. *)
Definition pthread_rwlock_rdlock (l : rwlock) : rwlock * rw_after :=
  if (0 <? w_ct l) || negb (w_pending l =? 0) then (l, ARetry OpRd)
  else (RwLock (mtx l) (r_ct l +u 1) (w_pending l) (w_ct l) (w_id l), AHold Reading).

(** [while( l->r_ct > 0 || l->w_ct > 0 )] of [pthread_rwlock_wrlock]: one turn. *)
Definition wrlock_turn (me : Z) (l : rwlock) : rwlock * rw_after :=
  if (0 <? r_ct l) || (0 <? w_ct l) then (l, ARetry OpWrLoop)
  else (RwLock (mtx l) (r_ct l) (w_pending l -u 1) (u8 (w_ct l + 1)) me, AHold Writing).

Definition pthread_rwlock_wrlock (me : Z) (l : rwlock) : rwlock * rw_after :=
  wrlock_turn me (RwLock (mtx l) (r_ct l) (w_pending l +u 1) (w_ct l) (w_id l)).

Definition pthread_rwlock_unlock (me : Z) (l : rwlock) : rwlock * rw_after :=
  if w_id l =? me then (RwLock (mtx l) (r_ct l) (w_pending l) (u8 (w_ct l - 1)) NO_WRITER, ADone)
  else (RwLock (mtx l) (r_ct l -u 1) (w_pending l) (w_ct l) (w_id l), ADone).

Definition pthread_rwlock_tryrdlock (l : rwlock) : rwlock * (Z * rw_after) :=
  if (0 <? w_ct l) || negb (w_pending l =? 0) then (l, (EINVAL, ADone))
  else (RwLock (mtx l) (r_ct l +u 1) (w_pending l) (w_ct l) (w_id l), (0, AHold Reading)).

Definition pthread_rwlock_trywrlock (me : Z) (l : rwlock) : rwlock * (Z * rw_after) :=
  if (0 <? r_ct l) || (0 <? w_ct l) then (l, (EINVAL, ADone))
  else (RwLock (mtx l) (r_ct l) (w_pending l) (u8 (w_ct l + 1)) me, (0, AHold Writing)).

(** The body of a critical section; [me] is [GetCurrentThreadId()]. *)
Definition rw_body (me : Z) (op : rw_op) (l : rwlock) : rwlock * rw_after :=
  match op with
  | OpRd => pthread_rwlock_rdlock l
  | OpWr => pthread_rwlock_wrlock me l
  | OpWrLoop => wrlock_turn me l
  | OpUnlock _ => pthread_rwlock_unlock me l
  | OpTryRd => let '(l, (_, a)) := pthread_rwlock_tryrdlock l in (l, a)
  | OpTryWr => let '(l, (_, a)) := pthread_rwlock_trywrlock me l in (l, a)
  end.

(** Where a thread is; a thread that is not listed neither holds the lock nor is in a
    call. *)
Inductive rw_pc :=
| Holds (m : rw_mode)        (* outside, the lock held *)
| Spins (op : rw_op)         (* pthread_spin_lock(&l->mtx) *)
| Inside (op : rw_op)        (* the body *)
| Leaving (a : rw_after).    (* pthread_spin_unlock(&l->mtx) *)

Record rw_state := RwState { rw_lock : rwlock; rw_thr : gmap Z rw_pc }.

Definition set_mtx (m : Z) (l : rwlock) : rwlock := RwLock m (r_ct l) (w_pending l) (w_ct l) (w_id l).

Definition rw_return (t : Z) (a : rw_after) (m : gmap Z rw_pc) : gmap Z rw_pc :=
  match a with ARetry op => <[t:=Spins op]> m | AHold x => <[t:=Holds x]> m | ADone => delete t m end.

Definition is_acquire (op : rw_op) : Prop := match op with OpRd | OpWr | OpTryRd | OpTryWr => True | _ => False end.

Inductive rw_step (s : rw_state) : rw_state -> Prop :=
| RwCall t op : rw_thr s !! t = None -> 0 <= t < NO_WRITER -> is_acquire op ->
    rw_step s (RwState (rw_lock s) (<[t:=Spins op]> (rw_thr s)))
| RwCallUnlock t m : rw_thr s !! t = Some (Holds m) ->
    rw_step s (RwState (rw_lock s) (<[t:=Spins (OpUnlock m)]> (rw_thr s)))
| RwSpin t op m : rw_thr s !! t = Some (Spins op) -> pthread_spin_lock (mtx (rw_lock s)) = Some m ->
    rw_step s (RwState (set_mtx m (rw_lock s)) (<[t:=Inside op]> (rw_thr s)))
| RwBody t op l a : rw_thr s !! t = Some (Inside op) -> rw_body t op (rw_lock s) = (l, a) ->
    rw_step s (RwState l (<[t:=Leaving a]> (rw_thr s)))
| RwRelease t a : rw_thr s !! t = Some (Leaving a) ->
    rw_step s (RwState (set_mtx (snd (pthread_spin_unlock (mtx (rw_lock s)))) (rw_lock s))
                 (rw_return t a (rw_thr s))).

(** The lock [pthread_rwlock_init] leaves, whatever was in the memory before. *)
Definition rw_init (garbage : rwlock) : rw_state := RwState (snd (pthread_rwlock_init garbage)) ∅.

(** Threads that hold the lock in a mode, that have announced a write, and that are under
    the spin lock. *)
Definition holding (m : rw_mode) (x : rw_pc) : Z :=
  match x with
  | Holds m' | Spins (OpUnlock m') | Inside (OpUnlock m') | Leaving (AHold m') =>
      match m, m' with Reading, Reading | Writing, Writing => 1 | _, _ => 0 end
  | _ => 0
  end.
Definition waiting (x : rw_pc) : Z :=
  match x with Spins OpWrLoop | Inside OpWrLoop | Leaving (ARetry OpWrLoop) => 1 | _ => 0 end.
Definition in_crit (x : rw_pc) : Z := match x with Inside _ | Leaving _ => 1 | _ => 0 end.

Abbreviation count f s := (msum f (rw_thr s)).

Record rw_inv (s : rw_state) : Prop := {
  ri_ids t x : rw_thr s !! t = Some x -> 0 <= t < NO_WRITER;
  ri_spin : (mtx (rw_lock s) = 0 /\ count in_crit s = 0) \/ (mtx (rw_lock s) = EBUSY /\ count in_crit s = 1);
  ri_readers : r_ct (rw_lock s) = count (holding Reading) s;
  ri_waiting : w_pending (rw_lock s) = count waiting s;
  ri_writers : w_ct (rw_lock s) = count (holding Writing) s;
  ri_excl : count (holding Writing) s = 0 \/
            (count (holding Writing) s = 1 /\ count (holding Reading) s = 0);
  ri_id t x : rw_thr s !! t = Some x -> holding Writing x = 1 -> w_id (rw_lock s) = t;
  ri_none : count (holding Writing) s = 0 -> w_id (rw_lock s) = NO_WRITER;
  ri_ops t x : rw_thr s !! t = Some x ->
    match x with Leaving (ARetry op) => op = OpRd \/ op = OpWrLoop | _ => True end
}.

Lemma msum_size {A} (m : gmap Z A) : msum (fun _ => 1) m = Z.of_nat (size m).
Proof.
  induction m as [|k x m Hk IH] using map_ind; [by rewrite msum_empty, map_size_empty|].
  rewrite msum_insert_new, map_size_insert_None, IH by done. lia.
Qed.

(** Thread ids are distinct, so that no more than [N] threads count. *)
Lemma msum_keys {A} (f : A -> Z) (m : gmap Z A) N :
  0 <= N -> (forall x, f x <= 1) -> (forall k x, m !! k = Some x -> 0 <= k < N) -> msum f m <= N.
Proof.
  intros HN Hf Hk. transitivity (Z.of_nat (size m)).
  { rewrite <- msum_size. apply msum_le. naive_solver. }
  rewrite <- size_dom.
  assert (Hs : dom m ⊆ list_to_set (C := gset Z) (seqZ 0 N)).
  { intros k [x Hx]%elem_of_dom. apply elem_of_list_to_set, elem_of_seqZ. specialize (Hk k x Hx). lia. }
  apply subseteq_size in Hs. rewrite size_list_to_set in Hs by apply NoDup_seqZ. rewrite length_seqZ in Hs. lia.
Qed.

Lemma holding_01 m x : 0 <= holding m x <= 1.
Proof. destruct m, x as [[]|[]|[]|[[]|[]|]]; simpl; try lia; destruct m; lia. Qed.
Lemma holding_one x : holding Reading x + holding Writing x <= 1.
Proof. destruct x as [[]|[]|[]|[[]|[]|]]; simpl; try lia; destruct m; lia. Qed.
Lemma waiting_01 x : 0 <= waiting x <= 1.
Proof. destruct x as [[]|[]|[]|[[]|[]|]]; simpl; lia. Qed.
Lemma in_crit_01 x : 0 <= in_crit x <= 1.
Proof. destruct x; simpl; lia. Qed.

(** A thread moves on; what it holds and whether it waits do not change. *)
Lemma rw_move s t x y k :
  rw_inv s -> rw_thr s !! t = Some x ->
  (forall m, holding m y = holding m x) -> waiting y = waiting x ->
  (k = 0 /\ count in_crit s + (in_crit y - in_crit x) = 0 \/ k = EBUSY /\ count in_crit s + (in_crit y - in_crit x) = 1) ->
  match y with Leaving (ARetry op) => op = OpRd \/ op = OpWrLoop | _ => True end ->
  rw_inv (RwState (set_mtx k (rw_lock s)) (<[t:=y]> (rw_thr s))).
Proof.
  intros [H1 H2 H3 H4 H5 H6 H7 H8 H9] Hx Hh Hw Hk Hy.
  split; simpl; rewrite ?(msum_insert _ _ _ _ _ Hx), ?Hh, ?Hw; try lia.
  - intros t' x' [[<- <-]|[_ H]]%insert_cases; by eapply H1.
  - intros t' x' [[<- <-]|[_ H]]%insert_cases; [rewrite Hh|]; by eapply H7.
  - intros t' x' [[<- <-]|[_ H]]%insert_cases; [done|by eapply H9].
Qed.

(** What a body changes, in terms of what its thread holds before and after. *)
Record body_effect (t : Z) (x y : rw_pc) (l l' : rwlock) : Prop := {
  be_mtx : mtx l' = mtx l;
  be_readers : r_ct l' = r_ct l + (holding Reading y - holding Reading x);
  be_waiting : w_pending l' = w_pending l + (waiting y - waiting x);
  be_writers : w_ct l' = w_ct l + (holding Writing y - holding Writing x);
  be_read : holding Reading y = 1 -> w_ct l = 0;
  be_write : holding Writing y = 1 -> w_ct l = 0 /\ r_ct l = 0 /\ w_id l' = t;
  be_release : holding Writing x = 1 -> w_id l' = NO_WRITER;
  be_keep : holding Writing x = 0 -> holding Writing y = 0 -> w_id l' = w_id l;
  be_retry : match y with Leaving (ARetry op) => op = OpRd \/ op = OpWrLoop | _ => True end
}.

Lemma u8_small z : 0 <= z < 2 ^ 8 -> u8 z = z.
Proof. unfold u8. intros. by apply Z.mod_small. Qed.

(** The bounds that keep the counters from wrapping around, for a thread at [x]. *)
Lemma rw_bounds s t x :
  rw_inv s -> rw_thr s !! t = Some x ->
  let n m := count (holding m) s in
  holding Reading x <= n Reading /\ n Reading - holding Reading x + 1 < 2 ^ 32 /\
  holding Writing x <= n Writing <= 1 /\
  waiting x <= count waiting s /\ count waiting s - waiting x + 1 < 2 ^ 32.
Proof.
  intros Hi Hx n. pose proof (fun m => msum_ge (holding m) _ _ _ (fun x => proj1 (holding_01 m x)) Hx) as Hg.
  pose proof (msum_ge waiting _ _ _ (fun x => proj1 (waiting_01 x)) Hx) as Hgw.
  assert (Hb : forall f, (forall x, 0 <= f x <= 1) -> f (Inside OpWrLoop) = 1 \/ f (Holds Reading) = 1 ->
            count f s - f x + 1 < 2 ^ 32).
  { intros f Hf Hy. assert (Hk : forall y, msum f (<[t:=y]> (rw_thr s)) <= NO_WRITER).
    { intros y. apply msum_keys; [done|apply Hf|].
      intros k z [[<- <-]|[_ H]]%insert_cases; by eapply ri_ids. }
    unfold NO_WRITER in Hk. pose proof (Hk (Inside OpWrLoop)) as Ha. pose proof (Hk (Holds Reading)) as Hc.
    rewrite (msum_insert _ _ _ _ _ Hx) in Ha. rewrite (msum_insert _ _ _ _ _ Hx) in Hc. lia. }
  pose proof (ri_excl _ Hi). pose proof (Hg Reading). pose proof (Hg Writing).
  pose proof (Hb (holding Reading) (holding_01 Reading) ltac:(by right)).
  pose proof (Hb waiting waiting_01 ltac:(by left)). unfold n. lia.
Qed.

Lemma body_effects s t op l a :
  rw_inv s -> rw_thr s !! t = Some (Inside op) -> rw_body t op (rw_lock s) = (l, a) ->
  body_effect t (Inside op) (Leaving a) (rw_lock s) l.
Proof.
  intros Hi Hx Hb. pose proof (rw_bounds _ _ _ Hi Hx) as (Hr & Hr' & Hw & Hp & Hp').
  pose proof (ri_ids _ Hi _ _ Hx) as Ht. pose proof (ri_id _ Hi _ _ Hx) as Hid.
  pose proof (ri_none _ Hi) as Hnone. destruct Hi as [_ _ H3 H4 H5 H6 _ _ _].
  rewrite <- H3 in *. rewrite <- H4 in *. rewrite <- H5 in *.
  destruct (rw_lock s) as [mt rc wp wc wi]. unfold NO_WRITER in *.
  destruct op as [| | |[]| |]; simpl in *;
    unfold pthread_rwlock_rdlock, pthread_rwlock_wrlock, pthread_rwlock_unlock, pthread_rwlock_tryrdlock,
      pthread_rwlock_trywrlock, wrlock_turn in Hb; simpl in Hb; split_matches; zcase; simpl in *.
  all: split; simpl; rewrite ?u32_add_sub by (unfold is_u32; lia); rewrite ?u32_small, ?u8_small by lia; intuition lia.
Qed.

Lemma rw_body_inv s t op l a :
  rw_inv s -> rw_thr s !! t = Some (Inside op) -> rw_body t op (rw_lock s) = (l, a) ->
  rw_inv (RwState l (<[t:=Leaving a]> (rw_thr s))).
Proof.
  intros Hi Hx Hb. destruct (body_effects _ _ _ _ _ Hi Hx Hb) as [E1 E2 E3 E4 E5 E6 E7 E8 E9].
  pose proof (holding_01 Writing (Leaving a)) as Ba. pose proof (holding_01 Writing (Inside op)) as Bo.
  pose proof (holding_01 Reading (Leaving a)) as Ra. pose proof (holding_01 Reading (Inside op)) as Ro.
  pose proof (rw_bounds _ _ _ Hi Hx) as (Hr & _ & Hw & _). pose proof (holding_one (Leaving a)) as Hone.
  destruct Hi as [H1 H2 H3 H4 H5 H6 H7 H8 H9].
  split; simpl rw_thr; simpl rw_lock; rewrite ?(msum_insert _ _ _ _ _ Hx); try lia.
  - intros t' x' [[<- <-]|[_ H]]%insert_cases; by eapply H1.
  - change (in_crit (Inside op)) with 1. change (in_crit (Leaving a)) with 1. lia.
  - intros t' x' [[<- <-]|[Hne H]]%insert_cases Hq; [by apply E6|].
    pose proof (msum_insert (holding Writing) _ _ _ (Leaving a) Hx) as Hs.
    assert (Hd : delete t (rw_thr s) !! t' = Some x') by (by rewrite lookup_delete_ne).
    pose proof (msum_ge (holding Writing) _ _ _ (fun x => proj1 (holding_01 Writing x)) Hd) as Hg.
    rewrite (msum_delete (holding Writing) _ _ _ Hx) in H5, H6.
    rewrite E8; [by eapply H7|lia|]. destruct (decide (holding Writing (Leaving a) = 1)) as [He|]; [|lia].
    specialize (E6 He). lia.
  - intros t' x' [[<- <-]|[Hne H]]%insert_cases; [done|by eapply H9].
Qed.

(** A thread leaves the lock behind. *)
Lemma rw_drop s t :
  rw_inv s -> rw_thr s !! t = Some (Leaving ADone) -> count in_crit s - 1 = 0 ->
  rw_inv (RwState (set_mtx 0 (rw_lock s)) (delete t (rw_thr s))).
Proof.
  intros Hi Hx Hc. assert (Hd : forall f, msum f (delete t (rw_thr s)) = count f s - f (Leaving ADone)).
  { intros f. rewrite (msum_delete f _ _ _ Hx). lia. }
  destruct Hi as [H1 H2 H3 H4 H5 H6 H7 H8 H9].
  split; simpl; rewrite ?Hd; simpl; try lia; intros t' x' [_ H]%lookup_delete_Some; eauto.
  by apply (H9 t').
Qed.

Lemma rw_step_inv s s' : rw_inv s -> rw_step s s' -> rw_inv s'.
Proof.
  intros Hi [t op Hn Ht Ha|t m Hx|t op m Hx Hm|t op l a Hx Hb|t a Hx].
  - destruct Hi as [H1 H2 H3 H4 H5 H6 H7 H8 H9].
    assert (Hz : forall m, holding m (Spins op) = 0 /\ waiting (Spins op) = 0) by (intros []; by destruct op).
    destruct (Hz Reading) as [Hzr Hzw]. destruct (Hz Writing) as [Hz' _].
    split; simpl rw_lock; simpl rw_thr; rewrite ?(msum_insert_new _ _ _ _ Hn), ?Hzr, ?Hzw, ?Hz';
      change (in_crit (Spins op)) with 0; try lia.
    + intros t' x' [[<- <-]|[_ H]]%insert_cases; [done|by eapply H1].
    + intros t' x' [[<- <-]|[_ H]]%insert_cases; [by rewrite Hz'|by eapply H7].
    + intros t' x' [[<- <-]|[_ H]]%insert_cases; [done|by eapply H9].
  - pose proof (ri_spin _ Hi). replace (rw_lock s) with (set_mtx (mtx (rw_lock s)) (rw_lock s)) by (by destruct s as [[] ?]).
    apply (rw_move s t (Holds m)); try done. simpl. lia.
  - pose proof (ri_spin _ Hi). unfold pthread_spin_lock in Hm. simpl in Hm. split_matches. zcase; [|done].
    apply (rw_move s t (Spins op)); try done. right. unfold EBUSY in *. simpl. lia.
  - by eapply rw_body_inv.
  - pose proof (ri_spin _ Hi). pose proof (ri_ops _ Hi _ _ Hx) as Ho.
    pose proof (msum_ge in_crit _ _ _ (fun x => proj1 (in_crit_01 x)) Hx) as Hg. simpl in Hg.
    destruct a as [op|m|]; simpl.
    + apply (rw_move s t (Leaving (ARetry op))); try done; [by destruct Ho as [-> | ->]..|]. left. simpl. lia.
    + apply (rw_move s t (Leaving (AHold m))); try done. left. simpl. lia.
    + apply rw_drop; [done..|simpl; lia].
Qed.

Lemma rw_reachable_inv g s : rtc rw_step (rw_init g) s -> rw_inv s.
Proof.
  assert (Hi : rw_inv (rw_init g)).
  { split; simpl; rewrite ?msum_empty; try done; try (by left); intros t x Hx; by rewrite lookup_empty in Hx. }
  intros Hr. induction Hr as [|s0 s1 s2 Hst _ IH] in Hi |- *; [done|]. apply IH. by eapply rw_step_inv.
Qed.

(** C36.  The reader/writer lock of Windows XP, at the granularity of its spin lock: at most
    one thread is between the acquisition and the release of the spin lock; at most one
    thread holds the lock for writing, and then none for reading; the counters [r_ct],
    [w_ct] and [w_pending] are exactly the numbers of readers, of writers and of writers
    that have announced themselves, none of them ever wraps around; [w_id] is the
    writer, so that [pthread_rwlock_unlock] gives back what its caller holds; and a
    reader gets in exactly when nobody writes or waits to. *)
Theorem rwlock_exclusion g s :
  rtc rw_step (rw_init g) s ->
  0 <= count in_crit s <= 1 /\
  0 <= count (holding Writing) s <= 1 /\ (count (holding Writing) s = 1 -> count (holding Reading) s = 0) /\
  r_ct (rw_lock s) = count (holding Reading) s /\ w_ct (rw_lock s) = count (holding Writing) s /\
  w_pending (rw_lock s) = count waiting s /\
  (forall t m l a, rw_thr s !! t = Some (Inside (OpUnlock m)) -> pthread_rwlock_unlock t (rw_lock s) = (l, a) ->
     r_ct l = count (holding Reading) s - holding Reading (Holds m) /\
     w_ct l = count (holding Writing) s - holding Writing (Holds m)) /\
  (forall t op l a, rw_thr s !! t = Some (Inside op) -> op = OpRd \/ op = OpTryRd ->
     rw_body t op (rw_lock s) = (l, a) ->
     (a = AHold Reading <-> count (holding Writing) s = 0 /\ count waiting s = 0)).
Proof.
  intros Hr%rw_reachable_inv. pose proof (ri_spin _ Hr). pose proof (ri_excl _ Hr).
  split_and!; try lia; try by apply Hr.
  - intros t m l a Ht Hb. destruct (body_effects s t (OpUnlock m) l a Hr Ht Hb) as [_ E2 _ E4 _ _ _ _ _].
    unfold pthread_rwlock_unlock in Hb. assert (a = ADone) as -> by (by split_matches).
    rewrite (ri_readers _ Hr) in E2. rewrite (ri_writers _ Hr) in E4. simpl in *. lia.
  - intros t op l a Ht Hop Hb. rewrite <- (ri_writers _ Hr), <- (ri_waiting _ Hr).
    pose proof (ri_writers _ Hr) as Hw. destruct Hop as [-> | ->]; simpl in Hb;
      unfold pthread_rwlock_rdlock, pthread_rwlock_tryrdlock in Hb; split_matches; zcase; split; naive_solver lia.
Qed.

(** Thread 1 has the lock for writing and is about to give it back; thread 2 spins for
    reading. *)
Definition ex_rw : rw_state :=
  RwState (RwLock EBUSY 0 0 1 1) {[1 := Inside (OpUnlock Writing); 2 := Spins OpRd]}.

Lemma ex_rw_reachable : rtc rw_step (rw_init (RwLock 5 5 5 5 5)) ex_rw.
Proof.
  eapply rtc_l; [by apply (RwCall _ 1 OpWr)|]. eapply rtc_l; [by apply (RwCall _ 2 OpRd)|]. simpl.
  eapply rtc_l; [by apply (RwSpin _ 1 OpWr EBUSY)|]. simpl.
  eapply rtc_l; [by eapply (RwBody _ 1 OpWr)|]. simpl.
  eapply rtc_l; [by apply (RwRelease _ 1 (AHold Writing))|]. simpl.
  eapply rtc_l; [by apply (RwCallUnlock _ 1 Writing)|]. simpl.
  eapply rtc_l; [by apply (RwSpin _ 1 (OpUnlock Writing) EBUSY)|].
  match goal with |- rtc _ ?s _ => replace s with ex_rw by (by vm_compute) end. constructor.
Qed.

Lemma rwlock_exclusion_witness :
  rtc rw_step (rw_init (RwLock 5 5 5 5 5)) ex_rw /\ 0 <= count (holding Writing) ex_rw <= 1 /\
  count (holding Reading) ex_rw = 0.
Proof.
  pose proof (rwlock_exclusion _ ex_rw ex_rw_reachable) as (_ & H1 & H2 & _).
  split; [exact ex_rw_reachable|]. split; [exact H1|]. apply H2. by vm_compute.
Defined.
