(* ===== verification/WinMutex.v ===== *)
(** * Mutexes and the condition variable of Windows Vista

    src/windows/pthread_mutex.h makes a mutex of a CRITICAL_SECTION, and
    src/windows/pthread_cond_variables.h, for Vista, a condition variable of the system's.
    The functions of the system are the operations of a class; its laws are what their
    documentation says: a critical section may be entered again by its owner and is free
    when it was left as often, and SleepConditionVariableCS, which must be called by a thread
    that has entered the section exactly once, leaves it while the thread sleeps.  The
    functions of the two headers and their callers are built on the class, and every
    property is proved against it. *)

From stdpp Require Import base gmap list.
From Stdlib Require Import ZArith Lia.
From S2P Require Import Prelude Types.

(** ** What the system promises *)

Class CriticalSection (cs : Type) := {
  InitializeCriticalSection : cs;
  EnterCriticalSection : nat -> cs -> option cs;     (* by a thread; None: it waits *)
  TryEnterCriticalSection : nat -> cs -> bool * cs;
  LeaveCriticalSection : nat -> cs -> cs;
  (* the owner and how often it entered *)
  owner : cs -> option (nat * nat)
}.

Class CriticalSectionLaws (cs : Type) `{CriticalSection cs} := {
  init_free : owner InitializeCriticalSection = None;
  enter_free t c : owner c = None -> exists c', EnterCriticalSection t c = Some c' /\ owner c' = Some (t, 1%nat);
  enter_again t n c : owner c = Some (t, n) ->
    exists c', EnterCriticalSection t c = Some c' /\ owner c' = Some (t, S n);
  enter_taken t t' n c : owner c = Some (t', n) -> t' <> t -> EnterCriticalSection t c = None;
  try_enter t c : TryEnterCriticalSection t c =
    match EnterCriticalSection t c with Some c' => (true, c') | None => (false, c) end;
  leave_last t c : owner c = Some (t, 1%nat) -> owner (LeaveCriticalSection t c) = None;
  leave_inner t n c : owner c = Some (t, S (S n)) -> owner (LeaveCriticalSection t c) = Some (t, S n)
}.

Section Mutex.
Context {cs : Type} `{CriticalSectionLaws cs}.

(** ** The mutex functions (src/windows/pthread_mutex.h) *)

(** [None]: the call does not return yet. *)
Definition pthread_mutex_lock (t : nat) (m : cs) : option (Z * cs) :=
  m ← EnterCriticalSection t m; Some (0, m).

Definition pthread_mutex_unlock (t : nat) (m : cs) : Z * cs := (0, LeaveCriticalSection t m).

Definition pthread_mutex_trylock (t : nat) (m : cs) : Z * cs :=
  let (entered, m) := TryEnterCriticalSection t m in ((if entered then 0 else EBUSY), m).

(** The attributes are ignored. *)
Definition pthread_mutex_init (a : Z) : Z * cs := (0, InitializeCriticalSection).

(** [DeleteCriticalSection] leaves nothing to use. *)
Definition pthread_mutex_destroy (m : cs) : Z := 0.

(** ** Threads that use one mutex and one condition variable *)

(** Where the thread is: outside of the functions, holding the mutex [n] times; asleep in
    [SleepConditionVariableCS]; woken, about to enter the critical section. *)
Inductive vpc := Out (n : nat) | Asleep | Woken.

(** How often the thread holds the mutex. *)
Definition depth (x : vpc) : nat := match x with Out n => n | _ => 0%nat end.

Record vstate := VState { v_cs : cs; v_thr : gmap nat vpc }.

(** [WakeConditionVariable] wakes one sleeper, if there is one. *)
Inductive wake_one (m : gmap nat vpc) : gmap nat vpc -> Prop :=
| WakeOne t : m !! t = Some Asleep -> wake_one m (<[t:=Woken]> m)
| WakeNobody : (forall t, m !! t <> Some Asleep) -> wake_one m m.

(** [WakeAllConditionVariable] *)
Definition awaken (x : vpc) : vpc := match x with Asleep => Woken | _ => x end.

(** [pthread_cond_signal] and [pthread_cond_broadcast]: what they return, and the threads
    afterwards. *)
Definition cv_signal (m m' : gmap nat vpc) (rv : Z) : Prop := wake_one m m' /\ rv = 0.
Definition cv_broadcast (m : gmap nat vpc) : Z * gmap nat vpc := (0, awaken <$> m).

(** [pthread_cond_wait], before it sleeps (and after [pthread_testcancel], which is in
    WinCancel.v): the critical section, entered once, is left. *)
Definition cond_wait_sleep (t : nat) (m : cs) : cs := LeaveCriticalSection t m.
(** When it has been woken: it enters again and returns 0, whatever
    [SleepConditionVariableCS] returned. *)
Definition cond_wait_return (t : nat) (m : cs) : option (Z * cs) :=
  m ← EnterCriticalSection t m; Some (0, m).

(** The same in the header src/windows/pthread_cond.h, which reports a failure:
    [return (SleepConditionVariableCS(...) == 0)]. *)
Definition condh_wait_return (slept : Z) (t : nat) (m : cs) : option (Z * cs) :=
  m ← EnterCriticalSection t m; Some (if slept =? 0 then 1 else 0, m).

(** Threads unlock only with the mutex held, and wait only with the mutex locked exactly
    once, as [SleepConditionVariableCS] demands.  Sleepers wake up when signalled, or
    without. *)
Inductive vstep (s : vstate) : vstate -> Prop :=
| VLock t n m' rv :
    v_thr s !! t = Some (Out n) -> pthread_mutex_lock t (v_cs s) = Some (rv, m') ->
    vstep s (VState m' (<[t:=Out (S n)]> (v_thr s)))
| VTry t n m' rv :
    v_thr s !! t = Some (Out n) -> pthread_mutex_trylock t (v_cs s) = (rv, m') ->
    vstep s (VState m' (<[t:=Out (if rv =? 0 then S n else n)]> (v_thr s)))
| VUnlock t n rv m' :
    v_thr s !! t = Some (Out (S n)) -> pthread_mutex_unlock t (v_cs s) = (rv, m') ->
    vstep s (VState m' (<[t:=Out n]> (v_thr s)))
| VWait t :
    v_thr s !! t = Some (Out 1) ->
    vstep s (VState (cond_wait_sleep t (v_cs s)) (<[t:=Asleep]> (v_thr s)))
| VReturn t rv m' :
    v_thr s !! t = Some Woken -> cond_wait_return t (v_cs s) = Some (rv, m') ->
    vstep s (VState m' (<[t:=Out 1]> (v_thr s)))
| VSignal m rv : cv_signal (v_thr s) m rv -> vstep s (VState (v_cs s) m)
| VBroadcast : vstep s (VState (v_cs s) (snd (cv_broadcast (v_thr s))))
| VSpurious t : v_thr s !! t = Some Asleep -> vstep s (VState (v_cs s) (<[t:=Woken]> (v_thr s))).

(** The mutex was initialised with any attributes [a]. *)
Definition vinitial (a : Z) (s : vstate) : Prop :=
  v_cs s = snd (pthread_mutex_init a) /\ forall t x, v_thr s !! t = Some x -> x = Out 0.

Definition vreachable (a : Z) (s : vstate) : Prop := exists s0, vinitial a s0 /\ rtc vstep s0 s.

(** ** The invariant: the system's owner is the thread that holds the mutex *)

Definition vinv (s : vstate) : Prop :=
  match owner (v_cs s) with
  | None => forall t x, v_thr s !! t = Some x -> depth x = 0%nat
  | Some (t, n) =>
      (0 < n)%nat /\ (exists x, v_thr s !! t = Some x /\ depth x = n) /\
      forall t' x, v_thr s !! t' = Some x -> t' <> t -> depth x = 0%nat
  end.

(** A change of position that keeps the depth. *)
Lemma vinv_wake s m :
  vinv s -> (forall t x, v_thr s !! t = Some x -> exists y, m !! t = Some y /\ depth y = depth x) ->
  (forall t y, m !! t = Some y -> is_Some (v_thr s !! t)) -> vinv (VState (v_cs s) m).
Proof.
  unfold vinv. intros Hinv Hm Hd. simpl.
  assert (Hback : forall t y, m !! t = Some y -> exists x, v_thr s !! t = Some x /\ depth y = depth x).
  { intros t y Hy. destruct (Hd t y Hy) as [x Hx]. destruct (Hm t x Hx) as (y' & Hy' & E). simplify_eq. eauto. }
  destruct (owner (v_cs s)) as [[t n]|].
  - destruct Hinv as (Hn & (x & Hx & Hdx) & Ho). split_and!; [done| |].
    + destruct (Hm t x Hx) as (y & Hy & E). exists y. by rewrite E.
    + intros t' y Hy Hne. destruct (Hback t' y Hy) as (x' & Hx' & ->). by apply (Ho t').
  - intros t y Hy. destruct (Hback t y Hy) as (x & Hx & ->). by apply (Hinv t).
Qed.

Lemma vinv_wake_one s t :
  vinv s -> v_thr s !! t = Some Asleep -> vinv (VState (v_cs s) (<[t:=Woken]> (v_thr s))).
Proof.
  intros Hinv Hx. apply vinv_wake; [done| |].
  - intros t' x Hx'. destruct (decide (t = t')) as [->|Hne]; simplify_eq.
    + exists Woken. by rewrite lookup_insert_eq.
    + exists x. by rewrite lookup_insert_ne.
  - intros t' y [[<- _]|[_ Hy]]%lookup_insert_Some; by eexists.
Qed.

(** A thread that enters the critical section. *)
Lemma vinv_enter s t x m' y :
  vinv s -> v_thr s !! t = Some x -> EnterCriticalSection t (v_cs s) = Some m' -> depth y = S (depth x) ->
  vinv (VState m' (<[t:=y]> (v_thr s))).
Proof.
  unfold vinv. intros Hinv Hx He Hy. simpl. destruct (owner (v_cs s)) as [[t' n]|] eqn:Ho.
  - destruct (decide (t' = t)) as [->|Hne]; [|by rewrite (enter_taken t t' n) in He].
    destruct (enter_again t n (v_cs s) Ho) as (c' & Hc' & Ho'). rewrite Hc' in He. injection He as <-.
    destruct Hinv as (Hn & (x' & Hx' & Hd) & Hoth). simplify_eq. rewrite Ho'. split_and!; [lia| |].
    + exists y. by rewrite lookup_insert_eq.
    + intros t' x [[]|[_ Hx0]]%lookup_insert_Some Hne; [done|]. by apply (Hoth t').
  - destruct (enter_free t (v_cs s) Ho) as (c' & Hc' & Ho'). rewrite Hc' in He. injection He as <-.
    rewrite Ho'. rewrite (Hinv t x Hx) in Hy. split_and!; [lia| |].
    + exists y. by rewrite lookup_insert_eq.
    + intros t' x' [[]|[_ Hx0]]%lookup_insert_Some Hne; [done|]. by apply (Hinv t').
Qed.

(** A thread that leaves it. *)
Lemma vinv_leave s t n x y :
  vinv s -> v_thr s !! t = Some x -> depth x = S n -> depth y = n ->
  vinv (VState (LeaveCriticalSection t (v_cs s)) (<[t:=y]> (v_thr s))).
Proof.
  unfold vinv. intros Hinv Hx Hdx Hy. simpl. destruct (owner (v_cs s)) as [[t' k]|] eqn:Ho.
  - destruct Hinv as (Hk & (x' & Hx' & Hd) & Hoth).
    destruct (decide (t' = t)) as [->|Hne]; [|specialize (Hoth t x Hx (not_eq_sym Hne)); lia].
    assert (x' = x) as -> by congruence. rewrite Hdx in Hd. subst k. destruct n as [|n].
    + rewrite (leave_last t _ Ho).
      intros t' z [[<- <-]|[Hne Hz]]%lookup_insert_Some; [done|]. by apply (Hoth t').
    + rewrite (leave_inner t n _ Ho). split_and!; [lia| |].
      * exists y. by rewrite lookup_insert_eq.
      * intros t' z [[]|[_ Hz]]%lookup_insert_Some Hne; [done|]. by apply (Hoth t').
  - specialize (Hinv t x Hx). lia.
Qed.

(** A thread whose attempt to enter failed. *)
Lemma vinv_same s t x : vinv s -> v_thr s !! t = Some x -> vinv (VState (v_cs s) (<[t:=x]> (v_thr s))).
Proof. intros Hinv Hx. by rewrite insert_id. Qed.

Lemma vstep_inv s s' : vinv s -> vstep s s' -> vinv s'.
Proof.
  intros Hinv [t n m' rv Hx E|t n m' rv Hx E|t n rv m' Hx E|t Hx|t rv m' Hx E|m rv [Hw _]| |t Hx].
  - apply bind_Some in E as (c & Hc & [= _ <-]). by eapply vinv_enter.
  - unfold pthread_mutex_trylock in E. rewrite try_enter in E.
    destruct (EnterCriticalSection t (v_cs s)) as [c|] eqn:Hc; injection E as <- <-; simpl.
    + by eapply vinv_enter.
    + by apply vinv_same.
  - injection E as _ <-. by eapply vinv_leave.
  - by eapply vinv_leave.
  - apply bind_Some in E as (c & Hc & [= _ <-]). by eapply vinv_enter.
  - destruct Hw as [t Hx|_]; [by apply vinv_wake_one|by destruct s].
  - apply vinv_wake; [done| |].
    + intros t x Hx. exists (awaken x). simpl. rewrite lookup_fmap, Hx. split; [done|]. by destruct x.
    + intros t y. simpl. rewrite lookup_fmap. destruct (v_thr s !! t); [by eexists|done].
  - by apply vinv_wake_one.
Qed.

Lemma vreachable_inv a s : vreachable a s -> vinv s.
Proof.
  intros (s0 & (Hc & Ht) & Hr). assert (H0' : vinv s0).
  { unfold vinv. rewrite Hc. simpl. rewrite init_free. intros t x Hx. by rewrite (Ht t x Hx). }
  clear Hc Ht. induction Hr as [|s0 s1 s2 Hst _ IH]; [done|]. apply IH. by eapply vstep_inv.
Qed.

(** Whoever holds the mutex is its owner. *)
Lemma holder_owns s t x : vinv s -> v_thr s !! t = Some x -> (0 < depth x)%nat -> owner (v_cs s) = Some (t, depth x).
Proof.
  unfold vinv. intros Hinv Hx Hd. destruct (owner (v_cs s)) as [[t' n]|].
  - destruct Hinv as (_ & (x' & Hx' & <-) & Ho). destruct (decide (t' = t)) as [->|Hne]; [by simplify_eq|].
    specialize (Ho t x Hx (not_eq_sym Hne)). lia.
  - specialize (Hinv t x Hx). lia.
Qed.

(** Somebody other than [t] holds the mutex. *)
Definition held_by_other (t : nat) (s : vstate) : Prop :=
  exists t' x', t' <> t /\ v_thr s !! t' = Some x' /\ (0 < depth x')%nat.

(** Entering the critical section, for a thread: it waits exactly when another thread
    holds the mutex, and otherwise holds it once more. *)
Lemma enter_result s t x :
  vinv s -> v_thr s !! t = Some x ->
  (held_by_other t s /\ EnterCriticalSection t (v_cs s) = None) \/
  (~ held_by_other t s /\ exists c, EnterCriticalSection t (v_cs s) = Some c /\ owner c = Some (t, S (depth x))).
Proof.
  intros Hinv Hx. pose proof Hinv as Hinv'. unfold vinv in Hinv. destruct (owner (v_cs s)) as [[t' n]|] eqn:Ho.
  - destruct Hinv as (Hn & (x' & Hx' & <-) & Hoth). destruct (decide (t' = t)) as [->|Hne].
    + right. simplify_eq. split.
      * intros (t1 & x1 & Hne & Hx0 & Hd). specialize (Hoth t1 x1 Hx0 Hne). lia.
      * destruct (enter_again t _ (v_cs s) Ho) as (c' & Hc & Hc'). by exists c'.
    + left. split; [by exists t', x'|]. by eapply enter_taken.
  - right. split.
    + intros (t' & x' & _ & Hx' & Hd). specialize (Hinv t' x' Hx'). lia.
    + destruct (enter_free t (v_cs s) Ho) as (c' & Hc & Hc'). exists c'. by rewrite (Hinv t x Hx).
Qed.

(** C34.  Mutexes of Windows, initialised with any attributes, under every interleaving of
    lock, trylock, unlock, waits with the mutex locked once, signals, broadcasts and
    spurious wakeups: at most one thread holds the mutex, and a sleeping thread does not;
    [pthread_mutex_lock] waits, and [pthread_mutex_trylock] returns EBUSY and changes
    nothing, exactly when another thread holds the mutex; otherwise both return 0 with the
    mutex held once more than before, also by its holder, whatever type the attributes ask
    for; [pthread_mutex_unlock] returns 0 and gives back one of these; and a woken thread
    returns from [pthread_cond_wait] with 0 as soon as nobody holds the mutex, holding it. *)
Theorem win_mutex_contract a s t x :
  vreachable a s -> v_thr s !! t = Some x ->
  (forall t' x', v_thr s !! t' = Some x' -> (0 < depth x)%nat -> (0 < depth x')%nat -> t' = t) /\
  (x = Asleep -> forall n, owner (v_cs s) <> Some (t, n)) /\
  (forall n, x = Out n ->
     (held_by_other t s -> pthread_mutex_lock t (v_cs s) = None /\
        pthread_mutex_trylock t (v_cs s) = (EBUSY, v_cs s)) /\
     (~ held_by_other t s -> exists m', pthread_mutex_lock t (v_cs s) = Some (0, m') /\
        pthread_mutex_trylock t (v_cs s) = (0, m') /\ owner m' = Some (t, S n))) /\
  (forall n, x = Out (S n) -> fst (pthread_mutex_unlock t (v_cs s)) = 0 /\
     owner (snd (pthread_mutex_unlock t (v_cs s))) = match n with O => None | S _ => Some (t, n) end) /\
  (x = Woken ->
     (held_by_other t s -> cond_wait_return t (v_cs s) = None) /\
     (~ held_by_other t s -> exists m', cond_wait_return t (v_cs s) = Some (0, m') /\ owner m' = Some (t, 1%nat))).
Proof.
  intros Hr Hx. pose proof (vreachable_inv a s Hr) as Hinv. pose proof (enter_result s t x Hinv Hx) as He.
  split_and!.
  - intros t' x' Hx' Hd Hd'. pose proof (holder_owns s t x Hinv Hx Hd). pose proof (holder_owns s t' x' Hinv Hx' Hd').
    congruence.
  - intros -> n Ho. unfold vinv in Hinv. rewrite Ho in Hinv. destruct Hinv as (Hn & (x & Hx' & Hd) & _).
    rewrite Hx in Hx'. injection Hx' as <-. simpl in Hd. lia.
  - intros n ->. unfold pthread_mutex_lock, pthread_mutex_trylock. rewrite try_enter.
    destruct He as [[Hh ->]|[Hh (c & -> & Hc)]]; split; try done. intros _. by exists c.
  - intros n ->. split; [done|]. simpl. pose proof (holder_owns s t _ Hinv Hx ltac:(simpl; lia)) as Ho. simpl in Ho.
    destruct n as [|n]; [by apply leave_last|by apply leave_inner].
  - intros ->. unfold cond_wait_return. destruct He as [[Hh ->]|[Hh (c & -> & Hc)]]; split; try done.
    intros _. by exists c.
Qed.

(** The two headers agree when the system's wait succeeds. *)
Lemma condh_agrees slept t (m : cs) : slept <> 0 -> condh_wait_return slept t m = cond_wait_return t m.
Proof. intros Hs. unfold condh_wait_return. by rewrite (proj2 (Z.eqb_neq slept 0) Hs). Qed.

(** A signal wakes one sleeper when there is one, a broadcast all of them, and both
    return 0. *)
Theorem win_cond_wakes (m m' : gmap nat vpc) rv t :
  m !! t = Some Asleep ->
  (cv_signal m m' rv -> rv = 0 /\ exists t', m !! t' = Some Asleep /\ m' = <[t':=Woken]> m) /\
  fst (cv_broadcast m) = 0 /\ snd (cv_broadcast m) !! t = Some Woken /\
  (forall t', snd (cv_broadcast m) !! t' <> Some Asleep).
Proof.
  intros Hx. split_and!; [|done| |].
  - intros [Hw ->]. split; [done|]. destruct Hw as [t' Hx'|Hno]; [eauto|]. by destruct (Hno t).
  - simpl. by rewrite lookup_fmap, Hx.
  - intros t'. simpl. rewrite lookup_fmap. by destruct (m !! t') as [[]|].
Qed.
End Mutex.

(** ** A critical section *)

(** The owner and its count are all there is. *)
Definition simple_cs : Type := option (nat * nat).

#[global] Instance simple_critical_section : CriticalSection simple_cs := {
  InitializeCriticalSection := None;
  EnterCriticalSection t c :=
    match c with
    | None => Some (Some (t, 1%nat))
    | Some (t', n) => if decide (t' = t) then Some (Some (t, S n)) else None
    end;
  TryEnterCriticalSection t c :=
    match c with
    | None => (true, Some (t, 1%nat))
    | Some (t', n) => if decide (t' = t) then (true, Some (t, S n)) else (false, c)
    end;
  LeaveCriticalSection t c :=
    match c with
    | Some (t', S (S n)) => Some (t', S n)
    | _ => None
    end;
  owner c := c
}.

#[global] Instance simple_critical_section_laws : CriticalSectionLaws simple_cs.
Proof.
  split.
  - done.
  - intros t c Hc. simpl in *. subst. eauto.
  - intros t n c Hc. simpl in *. subst. rewrite decide_True by done. eauto.
  - intros t t' n c Hc Hne. simpl in *. subst. by rewrite decide_False.
  - intros t c. simpl. destruct c as [[t' n]|]; [|done]. by case_decide.
  - intros t c Hc. simpl in *. by subst.
  - intros t n c Hc. simpl in *. by subst.
Qed.

(** Thread 1 has locked the mutex and waits; thread 2 has locked it twice and signalled. *)
Definition ex_vstate0 : vstate := VState (cs := simple_cs) None {[1%nat := Out 0; 2%nat := Out 0]}.
Definition ex_vstate : vstate :=
  VState (cs := simple_cs) (Some (2%nat, 2%nat)) {[1%nat := Woken; 2%nat := Out 2]}.

Lemma ex_vstate_reachable a : vreachable a ex_vstate.
Proof.
  exists ex_vstate0. split.
  - split; [done|]. intros t x. simpl. rewrite lookup_insert_Some, lookup_singleton_Some. naive_solver.
  - eapply rtc_l; [by eapply (VLock _ 1)|]. eapply rtc_l; [by eapply (VWait _ 1)|].
    eapply rtc_l; [by eapply (VLock _ 2)|]. eapply rtc_l; [by eapply (VTry _ 2)|].
    eapply rtc_l; [eapply (VSignal _ _ 0); split; [by eapply (WakeOne _ 1)|done]|].
    match goal with |- rtc _ ?s _ => replace s with ex_vstate by (by vm_compute) end. constructor.
Qed.

(** The woken thread has to wait for the mutex; its holder may enter once more. *)
Lemma win_mutex_contract_witness :
  vreachable 2 ex_vstate /\ cond_wait_return 1 (v_cs ex_vstate) = None /\
  fst (pthread_mutex_trylock 2 (v_cs ex_vstate)) = 0.
Proof.
  split; [exact (ex_vstate_reachable 2)|]. split.
  - destruct (win_mutex_contract 2 ex_vstate 1 Woken (ex_vstate_reachable 2) eq_refl) as (_ & _ & _ & _ & H).
    apply (proj1 (H eq_refl)). exists 2%nat, (Out 2). split; [discriminate|]. split; [reflexivity|]. simpl. lia.
  - destruct (win_mutex_contract 2 ex_vstate 2 (Out 2) (ex_vstate_reachable 2) eq_refl) as (_ & _ & H & _).
    destruct (proj2 (H 2%nat eq_refl)) as (m' & _ & E & _).
    + intros (t' & x' & Hne & Hx & Hd). unfold ex_vstate in Hx. cbn [v_thr] in Hx.
      rewrite lookup_insert_Some, lookup_singleton_Some in Hx.
      destruct Hx as [[_ <-]|[_ [E _]]]; [simpl in Hd; lia|congruence].
    + rewrite E. reflexivity.
Defined.

Lemma win_cond_wakes_witness :
  let m : gmap nat vpc := {[1%nat := Asleep]} in
  m !! 1%nat = Some Asleep /\ snd (cv_broadcast m) !! 1%nat = Some Woken.
Proof.
  intros m. split; [reflexivity|].
  exact (proj1 (proj2 (proj2 (win_cond_wakes m m 0 1 eq_refl)))).
Defined.
