(* ===== verification/WinCond.v ===== *)
(** * Condition variables on Windows XP (src/windows/pthread_cond_variables.h)

    A manual-reset event with three counters under [waiters_count_lock_].  Each block
    between [EnterCriticalSection] and [LeaveCriticalSection] of that lock is one step;
    the external mutex, the event and the gaps between them are steps of their own, since
    signallers may run there.  The counters are C [int]s, and their arithmetic is that of
    32 bits; the theorems speak of runs in which fewer than [2^31] signals were given, with
    fewer than [2^31] threads at a time. *)

From stdpp Require Import base gmap list.
From Stdlib Require Import ZArith Lia.
From S2P Require Import Prelude Types.

(** ** Attributes *)

Definition pthread_condattr_destroy (a : Z) : Z := 0.
Definition pthread_condattr_init (a : Z) : Z * Z := (0, 0).
Definition pthread_condattr_getpshared (a : Z) : Z * Z := (0, a).
Definition pthread_condattr_setpshared (a s : Z) : Z * Z := (0, s).

(** ** The condition variable *)

Record cond := Cond {
  waiters_count_ : Z;
  release_count_ : Z;
  wait_generation_count_ : Z;
  event_ : bool                 (* signalled *)
}.

(** [h]: the handle [CreateEvent] returned, 0 when it failed. *)
Definition pthread_cond_init (h : Z) : Z * cond := ((if h =? 0 then 1 else 0), Cond 0 0 0 false).

Definition pthread_cond_signal (c : cond) : Z * cond :=
  if release_count_ c <? waiters_count_ c
  then (0, Cond (waiters_count_ c) (s32 (release_count_ c + 1)) (s32 (wait_generation_count_ c + 1)) true)
  else (0, c).

Definition pthread_cond_broadcast (c : cond) : Z * cond :=
  if 0 <? waiters_count_ c
  then (0, Cond (waiters_count_ c) (waiters_count_ c) (s32 (wait_generation_count_ c + 1)) true)
  else (0, c).

(** ** Waiting *)

(** A thread that holds the external mutex, and the positions of [pthread_cond_wait] with
    [my_generation]. *)
Inductive cpc :=
| CHold                  (* outside of pthread_cond_wait, holding external_mutex *)
| WEnter                 (* cv->waiters_count_++; my_generation = ... *)
| WLeave (g : Z)         (* LeaveCriticalSection(external_mutex) *)
| WWait (g : Z)          (* WaitForSingleObject(cv->event_, INFINITE) *)
| WCheck (g : Z)         (* wait_done = ... *)
| WMutex (g : Z)         (* EnterCriticalSection(external_mutex) *)
| WDec (g : Z)           (* cv->waiters_count_--; cv->release_count_--; ... *)
| WReset.                (* ResetEvent(cv->event_) *)

(** One step of a thread in [pthread_cond_wait]: the variable, whether the external mutex
    is taken, and the position; [None] while it is blocked.  [CHold] again is the return. *)
Definition pthread_cond_wait (c : cond) (m : bool) (x : cpc) : option (cond * bool * cpc) :=
  match x with
  | CHold => None
  | WEnter =>
      Some (Cond (s32 (waiters_count_ c + 1)) (release_count_ c) (wait_generation_count_ c) (event_ c), m,
            WLeave (wait_generation_count_ c))
  | WLeave g => Some (c, false, WWait g)
  | WWait g => if event_ c then Some (c, m, WCheck g) else None
  | WCheck g =>
      if (0 <? release_count_ c) && negb (wait_generation_count_ c =? g)
      then Some (c, m, WMutex g) else Some (c, m, WWait g)
  | WMutex g => if m then None else Some (c, true, WDec g)
  | WDec g =>
      let c := Cond (s32 (waiters_count_ c - 1)) (s32 (release_count_ c - 1)) (wait_generation_count_ c) (event_ c) in
      Some (c, m, if release_count_ c =? 0 then WReset else CHold)
  | WReset => Some (Cond (waiters_count_ c) (release_count_ c) (wait_generation_count_ c) false, m, CHold)
  end.

(** ** The threads *)

Record cstate := CState {
  cv : cond;
  xm : bool;                  (* external_mutex is taken *)
  cthr : gmap nat cpc;        (* the threads that hold it or wait *)
  given : Z;                  (* history: signals and broadcasts that found a waiter to release, *)
  registered : gmap nat Z     (* and how many of them when a thread last registered as a waiter *)
}.

(** What a step does, and whether a signaller holds the external mutex. *)
Inductive clabel := LMove | LSignal (held : bool) | LBroadcast (held : bool).

Definition effective (b : bool) : Z := if b then 1 else 0.

Definition n_threads (m : gmap nat cpc) : Z := msum (fun _ => 1) m.
Definition INT_MAX : Z := 2 ^ 31 - 1.

(** A thread registers with its first step in [pthread_cond_wait]. *)
Definition note_registered (t : nat) (x : cpc) (s : cstate) : gmap nat Z :=
  match x with WEnter => <[t := given s]> (registered s) | _ => registered s end.

Inductive cond_step : clabel -> cstate -> cstate -> Prop :=
| CsLock s t : cthr s !! t = None -> xm s = false -> n_threads (cthr s) < INT_MAX ->
    cond_step LMove s (CState (cv s) true (<[t:=CHold]> (cthr s)) (given s) (registered s))
| CsUnlock s t : cthr s !! t = Some CHold ->
    cond_step LMove s (CState (cv s) false (delete t (cthr s)) (given s) (registered s))
| CsWait s t : cthr s !! t = Some CHold ->
    cond_step LMove s (CState (cv s) (xm s) (<[t:=WEnter]> (cthr s)) (given s) (registered s))
| CsMove s t x c m y : cthr s !! t = Some x -> pthread_cond_wait (cv s) (xm s) x = Some (c, m, y) ->
    cond_step LMove s (CState c m (<[t:=y]> (cthr s)) (given s) (note_registered t x s))
| CsSignal s held : (held = true -> exists t, cthr s !! t = Some CHold) ->
    cond_step (LSignal held) s
      (CState (snd (pthread_cond_signal (cv s))) (xm s) (cthr s)
         (given s + effective (release_count_ (cv s) <? waiters_count_ (cv s))) (registered s))
| CsBroadcast s held : (held = true -> exists t, cthr s !! t = Some CHold) ->
    cond_step (LBroadcast held) s
      (CState (snd (pthread_cond_broadcast (cv s))) (xm s) (cthr s)
         (given s + effective (0 <? waiters_count_ (cv s))) (registered s)).

Definition cond_start : cstate := CState (snd (pthread_cond_init 1)) false ∅ 0 ∅.

(** Runs whose steps all satisfy [ok]. *)
Definition cond_run (ok : clabel -> Prop) : cstate -> cstate -> Prop :=
  rtc (fun s s' => exists l, ok l /\ cond_step l s s').

(** ** What the positions count *)

Definition gen_of (x : cpc) : option Z :=
  match x with WLeave g | WWait g | WCheck g | WMutex g | WDec g => Some g | _ => None end.
Definition waiter_at (x : cpc) : Z :=
  match x with WLeave _ | WWait _ | WCheck _ | WMutex _ | WDec _ => 1 | _ => 0 end.
(** Holding the external mutex. *)
Definition xm_at (x : cpc) : Z :=
  match x with CHold | WEnter | WLeave _ | WDec _ | WReset => 1 | _ => 0 end.
(** A waiter of a generation before [n]. *)
Definition old_at (n : Z) (x : cpc) : Z :=
  match x with WLeave g | WWait g | WCheck g | WMutex g | WDec g => if g =? n then 0 else 1 | _ => 0 end.
Definition past_check (x : cpc) : bool := match x with WMutex _ | WDec _ => true | _ => false end.
Definition reset_at (x : cpc) : Z := match x with WReset => 1 | _ => 0 end.

Record cond_inv (s : cstate) : Prop := {
  cd_threads : n_threads (cthr s) <= INT_MAX;
  cd_waiters : waiters_count_ (cv s) = msum waiter_at (cthr s);
  cd_xm : msum xm_at (cthr s) = effective (xm s);
  cd_given : wait_generation_count_ (cv s) = given s;
  cd_nonneg : 0 <= given s;
  cd_gen t x g : cthr s !! t = Some x -> gen_of x = Some g ->
    0 <= g <= given s /\ (past_check x = true -> g < given s) /\ registered s !! t = Some g
}.

Lemma xm_at_range x : 0 <= xm_at x.
Proof. destruct x; simpl; lia. Qed.

(** The threads and the sums after a step. *)
Ltac cond_sums :=
  unfold n_threads;
  repeat match goal with
  | H : ?m !! ?t = Some ?x |- context [msum ?f (<[?t:=?y]> ?m)] => rewrite (msum_insert f m t x y H)
  | H : ?m !! ?t = None |- context [msum ?f (<[?t:=?y]> ?m)] => rewrite (msum_insert_new f m t y H)
  | H : ?m !! ?t = Some ?x |- context [msum ?f (delete ?t ?m)] =>
      replace (msum f (delete t m)) with (msum f m - f x) by (rewrite (msum_delete f m t x H); lia)
  end.

Lemma n_threads_move m t x y : m !! t = Some x -> n_threads (<[t:=y]> m) = n_threads m.
Proof. intros Ht. unfold n_threads. rewrite (msum_insert _ _ _ _ _ Ht). lia. Qed.

(** There are no more waiters than threads. *)
Lemma waiters_range m : 0 <= msum waiter_at m <= n_threads m.
Proof.
  split; [apply msum_nonneg; by intros []|]. apply msum_le. intros k x _. destruct x; simpl; lia.
Qed.

(** What a thread's own step does to the number of waiters. *)
Lemma wait_waiters s t x c m y :
  cond_inv s -> cthr s !! t = Some x -> pthread_cond_wait (cv s) (xm s) x = Some (c, m, y) ->
  waiters_count_ c = waiters_count_ (cv s) - waiter_at x + waiter_at y.
Proof.
  intros [Hn Hw _ _ _ _] Ht Hp.
  assert (H1 : 0 <= msum waiter_at (<[t:=y]> (cthr s)) <= INT_MAX).
  { pose proof (waiters_range (<[t:=y]> (cthr s))) as Hr. rewrite (n_threads_move _ _ _ _ Ht) in Hr. lia. }
  rewrite (msum_insert _ _ _ _ _ Ht), <- Hw in H1. unfold INT_MAX in *.
  destruct x; simpl in *; split_matches; simpl; rewrite ?s32_small by (simpl in *; lia); lia.
Qed.

(** Nothing in a thread's own step changes the generation. *)
Lemma wait_generation c m x c' m' y :
  pthread_cond_wait c m x = Some (c', m', y) -> wait_generation_count_ c' = wait_generation_count_ c.
Proof. destruct x; simpl; intros; split_matches; done. Qed.

(** Signals and broadcasts that find a waiter start a new generation. *)
Lemma signal_inv s c' n :
  cond_inv s -> given s + effective n < 2 ^ 31 -> waiters_count_ c' = waiters_count_ (cv s) ->
  wait_generation_count_ c' = (if n then s32 (wait_generation_count_ (cv s) + 1) else wait_generation_count_ (cv s)) ->
  cond_inv (CState c' (xm s) (cthr s) (given s + effective n) (registered s)).
Proof.
  intros [Hn Hw Hx Hg H0 Hgen] Hlt Ew Eg. split; simpl; try done.
  - by rewrite Ew.
  - rewrite Eg, Hg. destruct n; simpl in *; [|lia]. rewrite s32_small; lia.
  - destruct n; simpl; lia.
  - intros t x g Ht Hq. destruct (Hgen t x g Ht Hq) as (H1 & H2 & H3).
    split_and!; [destruct n; simpl; lia..| |done]. intros Hp. specialize (H2 Hp). destruct n; simpl; lia.
Qed.

Lemma cond_step_inv l s s' : cond_inv s -> cond_step l s s' -> given s' < 2 ^ 31 -> cond_inv s'.
Proof.
  intros Hinv Hst Hlt. pose proof Hinv as [Hn Hw Hx Hg H0 Hgen].
  assert (Hxm : forall t x, cthr s !! t = Some x -> xm_at x = 1 -> xm s = true).
  { intros t x Ht H1. pose proof (msum_ge xm_at _ _ _ xm_at_range Ht). rewrite Hx, H1 in H.
    by destruct (xm s). }
  destruct Hst as [s t Hnone Hm Hmax|s t Ht|s t Ht|s t x c m y Ht Hp|s held _|s held _]; simpl in *.
  - split; simpl; cond_sums; simpl; rewrite ?Hx, ?Hm; simpl; try done; try (unfold n_threads in *; lia).
    intros t' x' g [[<- <-]|[_ H]]%lookup_insert_Some; [done|by apply (Hgen t')].
  - split; simpl; cond_sums; simpl; rewrite ?Hx, ?(Hxm t CHold) by done; simpl; try done; try (unfold n_threads in *; lia).
    intros t' x' g [_ H]%lookup_delete_Some. by apply (Hgen t').
  - split; simpl; cond_sums; simpl; rewrite ?Hx; simpl; try done; try (unfold n_threads in *; lia).
    intros t' x' g [[<- <-]|[_ H]]%lookup_insert_Some; [done|by apply (Hgen t')].
  - pose proof (Hxm t x Ht) as Hmine. pose proof (Hgen t x) as Hme.
    split; simpl; cond_sums; rewrite ?Hx; try done; try (unfold n_threads in *; lia).
    + rewrite (wait_waiters _ _ _ _ _ _ Hinv Ht Hp). lia.
    + destruct x; simpl in *; split_matches; try rewrite Hmine by done; simpl; lia.
    + by rewrite (wait_generation _ _ _ _ _ _ Hp).
    + intros t' x' g [[<- <-]|[Hne H]]%lookup_insert_Some Hg'.
      * unfold note_registered. destruct x; simpl in *; split_matches; simpl in *; simplify_eq; zcase; simplify_eq/=; try done;
          try (specialize (Hme _ Ht eq_refl));
          lazymatch goal with
          | |- context [<[_ := _]> _ !! _] => rewrite lookup_insert_eq, Hg; split_and!; first [done | lia]
          | _ => naive_solver lia
          end.
      * destruct (Hgen t' x' g H Hg') as (H1 & H2 & H3). split_and!; try done; [lia..|].
        unfold note_registered. destruct x; try done. by rewrite lookup_insert_ne.
  - unfold pthread_cond_signal in *. apply signal_inv; try done; by destruct (_ <? _).
  - unfold pthread_cond_broadcast in *. apply signal_inv; try done; by destruct (_ <? _).
Qed.

Lemma given_mono l s s' : cond_step l s s' -> given s <= given s'.
Proof. destruct 1; simpl; try lia; destruct (_ <? _); simpl; lia. Qed.

Lemma cond_start_inv : cond_inv cond_start.
Proof. by split; simpl; unfold n_threads; rewrite ?msum_empty. Qed.

Lemma cond_run_inv ok s s' : cond_inv s -> cond_run ok s s' -> given s' < 2 ^ 31 -> cond_inv s'.
Proof.
  intros H Hr. revert s' Hr. refine (rtc_ind_r _ s _ _); [done|]. intros s1 s2 _ (l & _ & Hst) IH Hlt.
  apply (cond_step_inv l s1); [|done|done]. apply IH. pose proof (given_mono _ _ _ Hst). lia.
Qed.

(** ** Safety for every use *)

(** C32.  Whatever the signallers do, as long as fewer than [2^31] of their calls found a
    waiter: [waiters_count_] is the number of threads between entering [pthread_cond_wait]
    and leaving it, at most one thread holds the external mutex, a thread that returns from
    the wait holds it, and there are no spurious wakeups: when a thread has left its
    waiting loop, more signals and broadcasts have found a waiter to release than at the
    moment it registered as one. *)
Theorem cond_wait_sound s :
  cond_run (fun _ => True) cond_start s -> given s < 2 ^ 31 ->
  waiters_count_ (cv s) = msum waiter_at (cthr s) /\
  msum xm_at (cthr s) <= 1 /\
  (forall t, cthr s !! t = Some CHold -> xm s = true) /\
  (forall t g, cthr s !! t = Some (WMutex g) \/ cthr s !! t = Some (WDec g) ->
     exists r, registered s !! t = Some r /\ r < given s).
Proof.
  intros Hr Hlt. destruct (cond_run_inv _ _ _ cond_start_inv Hr Hlt) as [_ Hw Hx Hg H0 Hgen]. split_and!; [done| | |].
  - rewrite Hx. by destruct (xm s).
  - intros t Ht. pose proof (msum_ge xm_at _ _ _ xm_at_range Ht). rewrite Hx in H. by destruct (xm s).
  - intros t g [H|H]; destruct (Hgen _ _ _ H eq_refl) as (_ & Hp & E); exists g; auto.
Qed.

(** ** Broadcasts under the mutex *)

(** The discipline: [pthread_cond_broadcast] only, with the external mutex held. *)
Definition disciplined (l : clabel) : Prop := l = LMove \/ l = LBroadcast true.

Record bcast_inv (s : cstate) : Prop := {
  bi_release : release_count_ (cv s) = msum (old_at (wait_generation_count_ (cv s))) (cthr s);
  bi_event : 0 < release_count_ (cv s) -> event_ (cv s) = true;
  bi_reset : 0 < msum reset_at (cthr s) -> release_count_ (cv s) = 0
}.

Lemma old_at_range n x : 0 <= old_at n x.
Proof. destruct x; simpl; zcase; lia. Qed.
Lemma reset_at_range x : 0 <= reset_at x.
Proof. destruct x; simpl; lia. Qed.

Lemma old_range s : 0 <= msum (old_at (wait_generation_count_ (cv s))) (cthr s) <= n_threads (cthr s).
Proof.
  split; [apply msum_nonneg, old_at_range|]. apply msum_le. intros k x _. destruct x; simpl; zcase; lia.
Qed.

(** While a thread outside of the reset holds the mutex, no thread is at the reset. *)
Lemma no_reset s t x :
  cond_inv s -> cthr s !! t = Some x -> xm_at x = 1 -> reset_at x = 0 -> msum reset_at (cthr s) = 0.
Proof.
  intros [_ _ Hx _ _ _] Ht H1 H2. rewrite (msum_delete xm_at _ _ _ Ht), H1 in Hx.
  rewrite (msum_delete reset_at _ _ _ Ht), H2.
  assert (msum reset_at (delete t (cthr s)) <= msum xm_at (delete t (cthr s)))
    by (apply msum_le; intros k y _; destruct y; simpl; lia).
  pose proof (msum_nonneg reset_at (delete t (cthr s)) reset_at_range).
  unfold effective in Hx. destruct (xm s); lia.
Qed.

Lemma bcast_step s s' l :
  disciplined l -> cond_inv s -> bcast_inv s -> cond_step l s s' -> given s' < 2 ^ 31 -> bcast_inv s'.
Proof.
  intros Hl Hinv [Hr He Hz] Hst Hlt.
  destruct Hst as [s t Hn Hm|s t Ht|s t Ht|s t x c m y Ht Hp|s held Hh|s held Hh]; simpl in *.
  - split; simpl; cond_sums; simpl; try done; try lia; intros; apply Hz; lia.
  - split; simpl; cond_sums; simpl; try done; try lia; intros; apply Hz; lia.
  - split; simpl; cond_sums; simpl; try done; try lia; intros; apply Hz; lia.
  - pose proof (no_reset s t x Hinv Ht) as Hno.
    pose proof (cd_gen _ Hinv t x) as Hg. pose proof (cd_given _ Hinv) as Eg.
    pose proof (msum_ge reset_at _ _ _ reset_at_range Ht) as Hge.
    assert (Hdec : forall g, x = WDec g -> s32 (release_count_ (cv s) - 1) = release_count_ (cv s) - 1).
    { intros g ->. destruct (Hg g Ht eq_refl) as (_ & Hlow & _). specialize (Hlow eq_refl).
      pose proof (msum_ge _ _ _ _ (old_at_range (wait_generation_count_ (cv s))) Ht) as Ho. simpl in Ho.
      rewrite (proj2 (Z.eqb_neq g _)) in Ho by lia. pose proof (old_range s). pose proof (cd_threads _ Hinv).
      unfold INT_MAX in *. apply s32_small. lia. }
    destruct x; simpl in *; try rewrite (Hdec _ eq_refl) in *; clear Hdec; split_matches; split; simpl; cond_sums; simpl;
      try done; zcase; try done; simpl in *; try lia;
      try (specialize (Hg _ Ht eq_refl)); try lia; intros; try (apply He; lia); try (apply Hz; lia); try lia.
  - by destruct Hl.
  - destruct Hl as [Hl|[= ->]]; [done|]. destruct (Hh eq_refl) as [t Ht].
    pose proof (no_reset s t CHold Hinv Ht eq_refl eq_refl) as Hno.
    unfold pthread_cond_broadcast in *. destruct (Z.ltb_spec 0 (waiters_count_ (cv s))); [|by split].
    split; simpl; [|done|lia]. rewrite (cd_waiters _ Hinv). apply msum_ext. intros k x Hk.
    pose proof (cd_gen _ Hinv k x) as Hg. pose proof (cd_given _ Hinv) as Eg. pose proof (cd_nonneg _ Hinv).
    simpl in Hlt. rewrite Eg, s32_small by lia.
    destruct x; simpl in *; try done; specialize (Hg _ Hk eq_refl); zcase; lia.
Qed.

Lemma bcast_run s : cond_run disciplined cond_start s -> given s < 2 ^ 31 -> cond_inv s /\ bcast_inv s.
Proof.
  assert (H0 : cond_inv cond_start /\ bcast_inv cond_start).
  { split; [exact cond_start_inv|]. by split; simpl; rewrite ?msum_empty. }
  intros Hr. revert s Hr. refine (rtc_ind_r _ cond_start _ _); [done|]. intros s1 s2 _ (l & Hl & Hst) IH Hlt.
  destruct IH as [H1 H2]; [pose proof (given_mono _ _ _ Hst); lia|].
  split; [by eapply cond_step_inv|by eapply bcast_step].
Qed.

(** C33.  Used with broadcasts under the external mutex (fewer than [2^31] of them having
    found a waiter), no wakeup is lost and none is stolen: [release_count_] is always the number of waiters that registered before the
    last broadcast and have not left yet, and every such waiter that is still in its loop
    gets out of it with its next two steps (the event is set, and the check succeeds);
    a waiter that registered later does not. *)
Theorem broadcast_releases_waiters s :
  cond_run disciplined cond_start s -> given s < 2 ^ 31 ->
  release_count_ (cv s) = msum (old_at (wait_generation_count_ (cv s))) (cthr s) /\
  (forall t g, cthr s !! t = Some (WWait g) -> g <> wait_generation_count_ (cv s) ->
     pthread_cond_wait (cv s) (xm s) (WWait g) = Some (cv s, xm s, WCheck g)) /\
  (forall t g, cthr s !! t = Some (WCheck g) ->
     pthread_cond_wait (cv s) (xm s) (WCheck g) =
     Some (cv s, xm s, if g =? wait_generation_count_ (cv s) then WWait g else WMutex g)).
Proof.
  intros Hr Hlt. destruct (bcast_run s Hr Hlt) as [Hinv [Hrel He Hz]]. split; [done|].
  assert (Hpos : forall t x, cthr s !! t = Some x -> old_at (wait_generation_count_ (cv s)) x = 1 ->
            0 < release_count_ (cv s)).
  { intros t x Ht Ho. rewrite Hrel. pose proof (msum_ge _ _ _ _ (old_at_range (wait_generation_count_ (cv s))) Ht). lia. }
  split; intros t g Ht; specialize (Hpos t _ Ht); simpl in *.
  - intros Hg. rewrite (proj2 (Z.eqb_neq _ _) Hg) in Hpos. by rewrite He by auto.
  - rewrite (Z.eqb_sym g). destruct (Z.eqb_spec (wait_generation_count_ (cv s)) g) as [_|Hg]; simpl;
      [by rewrite andb_false_r|].
    rewrite (proj2 (Z.eqb_neq g _)) in Hpos by done. by rewrite (proj2 (Z.ltb_lt _ _) (Hpos eq_refl)).
Qed.

(** ** Running threads *)

Inductive ccmd := KLock (t : nat) | KUnlock (t : nat) | KWait (t : nat) | KMove (t : nat)
                | KSignal (t : nat) | KBroadcast (t : nat) | KBroadcastFree.

(** Whether thread [t] holds the mutex outside of a wait. *)
Definition holds (s : cstate) (t : nat) : bool :=
  match cthr s !! t with Some CHold => true | _ => false end.

Definition cond_exec (k : ccmd) (s : cstate) : option cstate :=
  match k with
  | KLock t => match cthr s !! t with
               | None => if xm s then None
                         else if n_threads (cthr s) <? INT_MAX
                         then Some (CState (cv s) true (<[t:=CHold]> (cthr s)) (given s) (registered s))
                         else None
               | _ => None end
  | KUnlock t => if holds s t then Some (CState (cv s) false (delete t (cthr s)) (given s) (registered s)) else None
  | KWait t => if holds s t then Some (CState (cv s) (xm s) (<[t:=WEnter]> (cthr s)) (given s) (registered s)) else None
  | KMove t => x ← cthr s !! t; r ← pthread_cond_wait (cv s) (xm s) x;
               Some (CState r.1.1 r.1.2 (<[t:=r.2]> (cthr s)) (given s) (note_registered t x s))
  | KSignal t => if holds s t then
               Some (CState (snd (pthread_cond_signal (cv s))) (xm s) (cthr s)
                 (given s + effective (release_count_ (cv s) <? waiters_count_ (cv s))) (registered s)) else None
  | KBroadcast t => if holds s t then
               Some (CState (snd (pthread_cond_broadcast (cv s))) (xm s) (cthr s)
                 (given s + effective (0 <? waiters_count_ (cv s))) (registered s)) else None
  | KBroadcastFree =>
               Some (CState (snd (pthread_cond_broadcast (cv s))) (xm s) (cthr s)
                 (given s + effective (0 <? waiters_count_ (cv s))) (registered s))
  end.

Definition label_of (k : ccmd) : clabel :=
  match k with KSignal _ => LSignal true | KBroadcast _ => LBroadcast true | KBroadcastFree => LBroadcast false
  | _ => LMove end.

Lemma cond_exec_step k s s' : cond_exec k s = Some s' -> cond_step (label_of k) s s'.
Proof.
  destruct k; simpl; unfold holds; intros H.
  4: { apply bind_Some in H as (x & Hx & H). apply bind_Some in H as ([[c m] y] & Hy & H).
       injection H as <-. by eapply CsMove. }
  all: repeat case_match; simplify_eq; try (econstructor; (done || by apply Z.ltb_lt)).
  all: constructor; try done; intros _; by exists t.
Qed.

Fixpoint cond_execs (ks : list ccmd) (s : cstate) : option cstate :=
  match ks with [] => Some s | k :: ks => s ← cond_exec k s; cond_execs ks s end.

Lemma cond_execs_run ok ks s s' :
  Forall (fun k => ok (label_of k)) ks -> cond_execs ks s = Some s' -> cond_run ok s s'.
Proof.
  intros Hok. revert s. induction Hok as [|k ks Hk _ IH]; simpl; intros s; [by intros [= <-]; constructor|].
  intros (s1 & H1 & H2)%bind_Some. eapply rtc_l; [|by apply IH].
  exists (label_of k). split; [done|]. by apply cond_exec_step.
Qed.

(** Thread [t] locks the mutex and waits until it is asleep. *)
Definition go_wait (t : nat) : list ccmd := [KLock t; KWait t; KMove t; KMove t].
(** A broadcast under the mutex by thread 9, with threads 1 and 2 asleep. *)
Definition ex_bcast : cstate :=
  default cond_start (cond_execs (go_wait 1 ++ go_wait 2 ++ [KLock 9; KBroadcast 9; KMove 1]) cond_start).

Lemma ex_bcast_run : cond_run disciplined cond_start ex_bcast.
Proof.
  apply (cond_execs_run _ (go_wait 1 ++ go_wait 2 ++ [KLock 9; KBroadcast 9; KMove 1])).
  - repeat constructor; first [by left|by right].
  - reflexivity.
Qed.

Lemma broadcast_releases_waiters_witness :
  cond_run disciplined cond_start ex_bcast /\ release_count_ (cv ex_bcast) = 2 /\
  pthread_cond_wait (cv ex_bcast) (xm ex_bcast) (WCheck 0) = Some (cv ex_bcast, xm ex_bcast, WMutex 0).
Proof.
  split; [exact ex_bcast_run|].
  destruct (broadcast_releases_waiters ex_bcast ex_bcast_run eq_refl) as (H1 & _ & H3).
  split; [exact H1|]. exact (H3 1%nat 0 eq_refl).
Defined.

(** One step further: thread 1 has left its loop. *)
Definition ex_left : cstate := default cond_start (cond_execs [KMove 1] ex_bcast).

Lemma cond_wait_sound_witness :
  cond_run (fun _ => True) cond_start ex_left /\ waiters_count_ (cv ex_left) = 2 /\
  exists r, registered ex_left !! 1%nat = Some r /\ r < given ex_left.
Proof.
  assert (H : cond_run (fun _ => True) cond_start ex_left)
    by (apply (cond_execs_run _ (go_wait 1 ++ go_wait 2 ++ [KLock 9; KBroadcast 9; KMove 1; KMove 1]));
        [repeat constructor|reflexivity]).
  split; [exact H|]. destruct (cond_wait_sound ex_left H eq_refl) as (H1 & _ & _ & H2).
  split; [exact H1|]. exact (H2 1%nat 0 (or_introl eq_refl)).
Defined.

(** ** Lost wakeups *)

Definition still_waits (t : nat) (g : Z) (s : cstate) : Prop :=
  cthr s !! t = Some (WWait g) \/ cthr s !! t = Some (WCheck g).

(** Threads that have left their loop and not yet the wait. *)
Definition leaving (x : cpc) : Z := match x with WMutex _ | WDec _ => 1 | _ => 0 end.

(** Without releases, and with nobody on the way out, a waiter stays in its loop until
    somebody signals. *)
Lemma unreleased_waits t g s s' :
  cond_run (fun l => l = LMove) s s' -> release_count_ (cv s) <= 0 -> msum leaving (cthr s) = 0 -> still_waits t g s ->
  still_waits t g s'.
Proof.
  intros Hr. induction Hr as [|s0 s1 s2 (l & -> & Hst) _ IH]; intros Hz Hl Hw; [done|].
  assert (Hno : forall t' x, cthr s0 !! t' = Some x -> leaving x = 0)
    by (intros t' x; apply msum_zero; [by intros []|done]).
  apply IH; clear IH.
  - inversion Hst as [? t' ? ?|? t' ?|? t' ?|? t' x c m y Ht Hp| |]; subst; simpl; try done.
    specialize (Hno t' x Ht). destruct x; simpl in Hp, Hno; split_matches; simpl; lia.
  - inversion Hst as [? t' ? ?|? t' ?|? t' ?|? t' x c m y Ht Hp| |]; subst; simpl; cond_sums; simpl; rewrite ?Hl; try done.
    specialize (Hno t' x Ht). destruct x; simpl in Hp, Hno; split_matches; simpl; try lia.
    all: rewrite (proj2 (Z.ltb_ge _ _) Hz) in *; done.
  - unfold still_waits in *. inversion Hst as [? t' Hn ?|? t' Ht|? t' Ht|? t' x c m y Ht Hp| |]; subst; simpl.
    1-3: assert (t' <> t) by (intros ->; destruct Hw; congruence); by rewrite ?lookup_insert_ne, ?lookup_delete_ne.
    destruct (decide (t' = t)) as [->|]; [|by rewrite lookup_insert_ne].
    rewrite lookup_insert_eq. destruct Hw as [Hw|Hw]; rewrite Hw in Ht; injection Ht as <-; simpl in Hp.
    + split_matches. by right.
    + rewrite (proj2 (Z.ltb_ge _ _) Hz) in Hp. split_matches. by left.
Qed.

(** With the event reset, a waiter does not even wake up. *)
Lemma reset_waits t g s s' :
  cond_run (fun l => l = LMove) s s' -> event_ (cv s) = false -> cthr s !! t = Some (WWait g) ->
  cthr s' !! t = Some (WWait g).
Proof.
  intros Hr. induction Hr as [|s0 s1 s2 (l & -> & Hst) _ IH]; intros Hz Hw; [done|]. apply IH; clear IH.
  - inversion Hst as [? t' ? ?|? t' ?|? t' ?|? t' x c m y Ht Hp| |]; subst; simpl; try done.
    destruct x; simpl in Hp; split_matches; done.
  - inversion Hst as [? t' Hn ?|? t' Ht|? t' Ht|? t' x c m y Ht Hp| |]; subst; simpl.
    1-3: assert (t' <> t) by congruence; by rewrite ?lookup_insert_ne, ?lookup_delete_ne.
    destruct (decide (t' = t)) as [->|]; [|by rewrite lookup_insert_ne].
    rewrite Hw in Ht. injection Ht as <-. simpl in Hp. by rewrite Hz in Hp.
Qed.

(** One signal wakes threads 1 and 2; thread 3 then waits alone and is signalled. *)
Definition lost_schedule : list ccmd :=
  go_wait 1 ++ go_wait 2 ++ [KLock 9; KSignal 9; KMove 1; KMove 1; KMove 2; KMove 2; KUnlock 9] ++
  [KMove 1; KMove 1; KMove 1; KUnlock 1; KMove 2; KMove 2; KUnlock 2] ++
  go_wait 3 ++ [KLock 9; KSignal 9; KUnlock 9].
Definition ex_lost : cstate := default cond_start (cond_execs lost_schedule cond_start).

(** [pthread_cond_signal] can be lost even when the signaller holds the mutex: a state
    is reachable, with two signals given under the mutex, in which the only waiter
    registered before the second of them, yet never returns as long as nobody signals
    again.  (Two waiters pass the check on the first signal, so that [release_count_]
    drops to -1 and the second signal only brings it back to 0.) *)
Theorem cond_signal_lost :
  exists s, cond_run (fun l => l = LMove \/ l = LSignal true) cond_start s /\
    given s = 2 /\ waiters_count_ (cv s) = 1 /\ cthr s !! 3%nat = Some (WWait 1) /\
    forall s', cond_run (fun l => l = LMove) s s' -> still_waits 3 1 s'.
Proof.
  exists ex_lost. split_and!; try reflexivity.
  - apply (cond_execs_run _ lost_schedule); [|by vm_compute].
    repeat (constructor; [first [by left|by right]|]). constructor.
  - intros s' Hr. apply (unreleased_waits 3 1 ex_lost s' Hr); [by vm_compute|by vm_compute|]. by left.
Qed.

(** Thread 1 is about to reset the event when a broadcast is given for thread 2. *)
Definition race_schedule : list ccmd :=
  go_wait 1 ++ [KLock 9; KBroadcast 9; KUnlock 9] ++ go_wait 2 ++
  [KMove 1; KMove 1; KMove 1; KMove 1; KBroadcastFree; KMove 1].
Definition ex_race : cstate := default cond_start (cond_execs race_schedule cond_start).

(** A broadcast given without the mutex, between the last waiter's check of the count and
    its [ResetEvent], is lost: the waiter it should wake sleeps on. *)
Theorem free_broadcast_lost :
  exists s, cond_run (fun l => l = LMove \/ l = LBroadcast true \/ l = LBroadcast false) cond_start s /\
    waiters_count_ (cv s) = 1 /\ release_count_ (cv s) = 1 /\ cthr s !! 2%nat = Some (WWait 1) /\
    wait_generation_count_ (cv s) = 2 /\
    forall s', cond_run (fun l => l = LMove) s s' -> cthr s' !! 2%nat = Some (WWait 1).
Proof.
  exists ex_race. split_and!; try reflexivity.
  - apply (cond_execs_run _ race_schedule); [|by vm_compute].
    repeat (constructor; [first [by left|by right; left|by right; right]|]). constructor.
  - intros s' Hr. apply (reset_waits 2 1 ex_race s' Hr); reflexivity.
Qed.
