(* ===== verification/WinTime.v ===== *)
(** * Time, timed waits and semaphores on Windows

    src/windows/times.h, the times and the timed lock of src/windows/pthread_mutex.h,
    src/windows/posix_semaphore.h, and the timed wait of the Vista condition variable in
    src/windows/pthread_cond_variables.h.  On Windows [long] has 32 bits: [s32] is the
    arithmetic on the fields of [struct timespec]. *)

From stdpp Require Import base gmap list.
From Stdlib Require Import ZArith Lia.
From S2P Require Import Prelude Types.

(** ** Clocks *)

Record timespec := Timespec { tv_sec : Z; tv_nsec : Z }.

Definition is_long (z : Z) : Prop := - 2 ^ 31 <= z < 2 ^ 31.

(** C division truncates. *)
Definition c_div (a b : Z) : Z := Z.quot a b.

(** [_pthread_time_in_ms]: [time] and [millitm] are what [_ftime64] stored. *)
Definition _pthread_time_in_ms (time millitm : Z) : Z := u64 (time * 1000 + millitm).

(** [unsigned long long t = ts->tv_sec * 1000; t += ts->tv_nsec / 1000000;] *)
Definition _pthread_time_in_ms_from_timespec (ts : timespec) : Z :=
  u64 (u64 (s32 (tv_sec ts * 1000)) + u64 (c_div (tv_nsec ts) 1000000)).

(** [now]: the value of [_pthread_time_in_ms()]. *)
Definition _pthread_rel_time_in_ms (ts : timespec) (now : Z) : Z :=
  let t1 := _pthread_time_in_ms_from_timespec ts in
  if t1 <? now then 1 else u64 (t1 - now).

(** [gettimeofday]: [hi] and [lo] are the halves of the file time, the answer is
    [tv_sec] and [tv_usec]. *)
Definition DELTA_EPOCH_IN_MICROSECS : Z := 11644473600000000.

Definition gettimeofday (hi lo : Z) : Z * Z :=
  let tmpres := u64 (Z.lor (u64 (Z.shiftl hi 32)) lo) in
  let tmpres := tmpres / 10 in
  let tmpres := u64 (tmpres - DELTA_EPOCH_IN_MICROSECS) in
  (s32 (tmpres / 1000000), s32 (tmpres mod 1000000)).

(** [tz->tz_minuteswest], [tz->tz_dsttime], [tzflag]; [_tzset] runs once. *)
Definition gettimezone (timezone daylight tzflag : Z) : Z * Z * Z :=
  (c_div timezone 60, daylight, if tzflag =? 0 then tzflag + 1 else tzflag).

(** ** Timed loops *)

(** [pthread_mutex_timedlock]: the answers of [pthread_mutex_trylock] with the clock read
    after each of them; the durations it waits on the semaphore. *)
Fixpoint mutex_loop (t ct : Z) (env : list (Z * Z)) (waits : list Z) : outcome (Z * list Z) :=
  if t <? ct then Ok (ETIMEDOUT, waits)
  else
    match env with
    | [] => Blocks
    | (try, now) :: env =>
        let waits := waits ++ [u32 (t - ct)] in
        if try =? 0 then Ok (0, waits) else mutex_loop t now env waits
    end.

Definition pthread_mutex_timedlock (ts : timespec) (env : list (Z * Z)) : outcome (Z * list Z) :=
  match env with
  | [] => Blocks
  | (try, now) :: env =>
      if try =? 0 then Ok (0, [])
      else mutex_loop (_pthread_time_in_ms_from_timespec ts) now env []
  end.

(** The loop of [pthread_rwlock_timedrdlock] and [pthread_rwlock_timedwrlock]. *)
Fixpoint rwlock_loop (t : Z) (env : list (Z * Z)) : outcome Z :=
  match env with
  | [] => Blocks
  | (try, now) :: env =>
      if try =? 0 then Ok 0 else if t <? now then Ok ETIMEDOUT else rwlock_loop t env
  end.

(** The answers are those of [pthread_rwlock_tryrdlock] and [pthread_rwlock_trywrlock]. *)
Definition pthread_rwlock_timedrdlock (ts : timespec) (env : list (Z * Z)) : outcome Z :=
  rwlock_loop (_pthread_time_in_ms_from_timespec ts) env.
Definition pthread_rwlock_timedwrlock (ts : timespec) (env : list (Z * Z)) : outcome Z :=
  rwlock_loop (_pthread_time_in_ms_from_timespec ts) env.

(** [pthread_cond_timedwait] with Vista's condition variables: [woken] is the answer of
    [SleepConditionVariableCS], [now] and [later] are the clock before and after. *)
Definition pthread_cond_timedwait (ts : timespec) (now : Z) (woken : bool) (later : Z) : Z * Z :=
  let tm := u32 (_pthread_rel_time_in_ms ts now) in
  (tm, if negb woken then ETIMEDOUT
       else if _pthread_rel_time_in_ms ts later =? 0 then ETIMEDOUT else 0).

(** ** Semaphores *)

(** The semaphore objects of the system by handle: value and maximum; and the variables of
    type [sem_t] by address. *)
Record semstate := SemState { objects : gmap Z (Z * Z); vars : gmap Z Z }.

(** [CreateSemaphore(0, val, 1, 0)] with the handle the system would use. *)
Definition sem_init (a val fresh : Z) (s : semstate) : Z * semstate :=
  let h := if (0 <=? val) && (val <=? 1) then fresh else 0 in
  ((if h =? 0 then 1 else 0),
   SemState (if h =? 0 then objects s else <[h := (val, 1)]> (objects s)) (<[a := h]> (vars s))).

(** [CloseHandle(s) != 1], [!ReleaseSemaphore(s, 1, 0)] and [WaitForSingleObject(s, ...)],
    all on the pointer itself. *)
Definition sem_destroy (a : Z) (s : semstate) : Z * semstate :=
  match objects s !! a with
  | Some _ => (0, SemState (delete a (objects s)) (vars s))
  | None => (1, s)
  end.
Definition sem_post (a : Z) (s : semstate) : Z * semstate :=
  match objects s !! a with
  | Some (v, m) => if v <? m then (0, SemState (<[a := (v + 1, m)]> (objects s)) (vars s)) else (1, s)
  | None => (1, s)
  end.
Definition sem_wait (a : Z) (s : semstate) : outcome (Z * semstate) :=
  match objects s !! a with
  | Some (v, m) => if 0 <? v then Ok (0, SemState (<[a := (v - 1, m)]> (objects s)) (vars s)) else Blocks
  | None => Ok (1, s)
  end.

(** The duration [sem_timedwait] computes, and its answer when the wait is over: [None] as
    semaphore value when it was still 0. *)
Definition sem_duration (ts : timespec) : Z :=
  u32 (u32 (c_div (tv_nsec ts) 1000000) + u32 (s32 (tv_sec ts * 1000))).
Definition sem_timedwait (a : Z) (ts : timespec) (s : semstate) : Z * Z * semstate :=
  match objects s !! a with
  | Some (v, m) =>
      if 0 <? v then (sem_duration ts, 0, SemState (<[a := (v - 1, m)]> (objects s)) (vars s))
      else (sem_duration ts, ETIMEDOUT, s)
  | None => (sem_duration ts, EINVAL, s)
  end.

(** ** Lemmas *)

Lemma u64_small z : 0 <= z < 2 ^ 64 -> u64 z = z.
Proof. intros. by apply Z.mod_small. Qed.

(** Joining the halves of a file time. *)
Lemma join_halves hi lo : is_u32 hi -> is_u32 lo -> u64 (Z.lor (u64 (Z.shiftl hi 32)) lo) = hi * 2 ^ 32 + lo.
Proof.
  intros Hh Hl. unfold is_u32 in *. rewrite Z.shiftl_mul_pow2, (u64_small (hi * 2 ^ 32)) by lia.
  assert (E : Z.lor (hi * 2 ^ 32) lo = hi * 2 ^ 32 + lo).
  { rewrite <- Z.add_lor_land. assert (Z.land (hi * 2 ^ 32) lo = 0) as ->; [|lia].
    apply Z.bits_inj'. intros n Hn. rewrite Z.land_spec, Z.bits_0.
    destruct (decide (n < 32)); [rewrite Z.mul_pow2_bits_low by lia; done|].
    rewrite (testbit_u32_high lo) by (unfold is_u32; lia). by rewrite andb_false_r. }
  rewrite E. apply u64_small. lia.
Qed.

(** [gettimeofday] converts the file time exactly, with the microseconds within a
    second, for all times from the Unix epoch up to the year 2038, where the 32-bit seconds
    end. *)
Theorem gettimeofday_exact hi lo :
  is_u32 hi -> is_u32 lo ->
  let us := (hi * 2 ^ 32 + lo) / 10 - DELTA_EPOCH_IN_MICROSECS in
  0 <= us < 2 ^ 31 * 1000000 ->
  let (sec, usec) := gettimeofday hi lo in
  sec * 1000000 + usec = us /\ 0 <= usec < 1000000 /\ 0 <= sec < 2 ^ 31.
Proof.
  intros Hh Hl us Hu. unfold gettimeofday. rewrite join_halves by done. fold us. rewrite (u64_small us) by lia.
  pose proof (Z.div_mod us 1000000). pose proof (Z.mod_pos_bound us 1000000).
  assert (0 <= us / 1000000 < 2 ^ 31) by (split; [apply Z.div_pos; lia|apply Z.div_lt_upper_bound; lia]).
  rewrite (s32_small (us / 1000000)), (s32_small (us mod 1000000)) by lia. lia.
Qed.

Lemma gettimeofday_exact_witness :
  is_u32 29000000 /\ is_u32 5 /\
  let (sec, usec) := gettimeofday 29000000 5 in
  sec * 1000000 + usec = 810931558400000 /\ 0 <= usec < 1000000 /\ 0 <= sec < 2 ^ 31.
Proof.
  assert (Hh : is_u32 29000000) by zcheck. assert (Hl : is_u32 5) by zcheck.
  split; [exact Hh|]. split; [exact Hl|].
  apply (gettimeofday_exact 29000000 5 Hh Hl). zcheck.
Defined.

(** ** Deadlines *)

Lemma nsec_ms n : 0 <= n < 1000000000 -> 0 <= c_div n 1000000 < 1000 /\ c_div n 1000000 = n / 1000000.
Proof.
  intros Hn. unfold c_div. rewrite Z.quot_div_nonneg by lia.
  split; [split; [apply Z.div_pos; lia|apply Z.div_lt_upper_bound; lia]|done].
Qed.

(** A product that does not fit [long]: negative, or less than it should be. *)
Lemma s32_wraps z : 2 ^ 31 <= z -> s32 z < 0 \/ 0 <= s32 z < 2 ^ 31.
Proof. intros Hz. unfold s32. pose proof (u32_range z) as Hr. unfold is_u32 in Hr. zcase; lia. Qed.

Lemma s32_range z : is_long (s32 z).
Proof. unfold is_long, s32. pose proof (u32_range z) as Hr. unfold is_u32 in Hr. zcase; lia. Qed.

(** The milliseconds of a deadline: exact up to 2147483 seconds, which is January 25,
    1970; beyond, near 0 or near [2^64]. *)
Lemma timespec_ms sec nsec :
  0 <= sec < 2 ^ 31 -> 0 <= nsec < 1000000000 ->
  let t := _pthread_time_in_ms_from_timespec (Timespec sec nsec) in
  (sec <= 2147483 -> t = sec * 1000 + nsec / 1000000) /\
  (2147483 < sec -> t < 2 ^ 31 + 1000 \/ 2 ^ 64 - 2 ^ 31 <= t).
Proof.
  intros Hs Hn t. destruct (nsec_ms nsec Hn) as [Hm Em].
  unfold t, _pthread_time_in_ms_from_timespec. simpl. rewrite Em in Hm |- *.
  rewrite (u64_small (nsec / 1000000)) by lia.
  split; intros H.
  - rewrite s32_small, (u64_small (sec * 1000)), u64_small by lia. lia.
  - pose proof (s32_range (sec * 1000)) as Hr. unfold is_long in Hr.
    destruct (s32_wraps (sec * 1000)) as [Hneg|Hpos]; [lia| |].
    + assert (Eu : u64 (s32 (sec * 1000)) = s32 (sec * 1000) + 2 ^ 64)
        by (unfold u64; rewrite <- (Z_mod_plus_full _ 1), Z.mod_small; lia).
      rewrite Eu. destruct (decide (s32 (sec * 1000) + nsec / 1000000 < 0)).
      * right. rewrite u64_small by lia. lia.
      * left. unfold u64. rewrite <- (Z_mod_plus_full _ (-1)), Z.mod_small by lia. lia.
    + left. rewrite (u64_small (s32 _)), u64_small by lia. lia.
Qed.

(** C40.  Deadlines of the timed operations.  A deadline up to 2147483 seconds is converted to
    milliseconds exactly, and the time remaining is the difference to the clock (1 once the
    deadline has passed), at every time.  For every later deadline, that is for every date
    after January 25, 1970, the product with 1000 overflows 32 bits: with the clock past
    that day, such a deadline counts as passed already, and [pthread_mutex_timedlock] gives
    up at once, or the time remaining comes out as at least [2^64 - 2^31] milliseconds less
    the clock, whatever the deadline says. *)
Theorem deadline_conversion sec nsec now :
  0 <= sec < 2 ^ 31 -> 0 <= nsec < 1000000000 -> 0 <= now < 2 ^ 64 ->
  (sec <= 2147483 ->
     _pthread_time_in_ms_from_timespec (Timespec sec nsec) = sec * 1000 + nsec / 1000000 /\
     _pthread_rel_time_in_ms (Timespec sec nsec) now =
       if sec * 1000 + nsec / 1000000 <? now then 1 else sec * 1000 + nsec / 1000000 - now) /\
  (2147483 < sec -> 2 ^ 31 + 1000 <= now < 2 ^ 62 ->
     (_pthread_rel_time_in_ms (Timespec sec nsec) now = 1 /\
      forall try env, try <> 0 ->
        pthread_mutex_timedlock (Timespec sec nsec) ((try, now) :: env) = Ok (ETIMEDOUT, [])) \/
     2 ^ 64 - 2 ^ 31 - now <= _pthread_rel_time_in_ms (Timespec sec nsec) now).
Proof.
  intros Hs Hn Hnow. destruct (timespec_ms sec nsec Hs Hn) as [H1 H2].
  assert (Hu : 0 <= _pthread_time_in_ms_from_timespec (Timespec sec nsec) < 2 ^ 64) by (apply Z.mod_pos_bound; lia).
  unfold _pthread_rel_time_in_ms. split.
  - intros Hsec. rewrite (H1 Hsec) in Hu |- *. split; [done|].
    destruct (Z.ltb_spec (sec * 1000 + nsec / 1000000) now) as [|Hle]; [done|]. by rewrite u64_small by lia.
  - intros Hsec Hlate. destruct (H2 Hsec) as [Ht|Ht].
    + left. rewrite (proj2 (Z.ltb_lt _ now)) by lia. split; [done|]. intros try env Ht0. simpl.
      rewrite (proj2 (Z.eqb_neq _ _) Ht0). destruct env; simpl; by rewrite (proj2 (Z.ltb_lt _ now)) by lia.
    + right. rewrite (proj2 (Z.ltb_ge _ now)) by lia. rewrite u64_small by lia. lia.
Qed.

Lemma deadline_conversion_witness :
  _pthread_rel_time_in_ms (Timespec 2000 500000000) 1990000 = 10500 /\
  (_pthread_rel_time_in_ms (Timespec 1300000001 0) 1300000000000 = 1 \/
   2 ^ 64 - 2 ^ 31 - 1300000000000 <= _pthread_rel_time_in_ms (Timespec 1300000001 0) 1300000000000).
Proof.
  split.
  - destruct (deadline_conversion 2000 500000000 1990000) as [H _]; [lia|lia|lia|]. exact (proj2 (H ltac:(lia))).
  - destruct (deadline_conversion 1300000001 0 1300000000000) as [_ H]; [lia|lia|lia|].
    destruct (H ltac:(lia) ltac:(lia)) as [[E _]|E]; [left; exact E|right; exact E].
Defined.

(** The timed loops of the reader/writer lock terminate: as soon as the clock passes the deadline, or a try
    succeeds, the call returns; it returns 0 only with the lock, after a try that
    succeeded, and [ETIMEDOUT] only after a clock reading past the deadline. *)
Theorem timed_loops_terminate ts env1 try now env2 :
  let t := _pthread_time_in_ms_from_timespec ts in
  try = 0 \/ t < now ->
  exists rv, pthread_rwlock_timedrdlock ts (env1 ++ (try, now) :: env2) = Ok rv /\
    pthread_rwlock_timedwrlock ts (env1 ++ (try, now) :: env2) = Ok rv /\
    (rv = 0 \/ rv = ETIMEDOUT) /\
    (rv = 0 -> exists n, (0, n) ∈ env1 ++ [(try, now)]) /\
    (rv = ETIMEDOUT -> exists r n, (r, n) ∈ env1 ++ [(try, now)] /\ r <> 0 /\ t < n).
Proof.
  intros t Hend. unfold pthread_rwlock_timedrdlock, pthread_rwlock_timedwrlock. fold t. induction env1 as [|[r n] env1 IH]; simpl.
  - destruct (Z.eqb_spec try 0) as [->|Hne].
    + exists 0. split_and!; [done|done|by left|intros _; exists now; by left|done].
    + destruct Hend as [|Hlt]; [done|]. rewrite (proj2 (Z.ltb_lt _ _) Hlt).
      exists ETIMEDOUT. split_and!; [done|done|by right|done|intros _; exists try, now; split; [by left|done]].
  - destruct (Z.eqb_spec r 0) as [->|Hne].
    + exists 0. split_and!; [done|done|by left|intros _; exists n; by left|done].
    + destruct (Z.ltb_spec t n) as [Hlt|_].
      * exists ETIMEDOUT. split_and!; [done|done|by right|done|intros _; exists r, n; split; [by left|done]].
      * destruct IH as (rv & -> & _ & H1 & H2 & H3). exists rv. split_and!; [done|done|done| |].
        -- intros H0. destruct (H2 H0) as (m & Hm). exists m. by right.
        -- intros H0. destruct (H3 H0) as (r' & m & Hm & Hr). exists r', m. split; [by right|done].
Qed.

Lemma timed_loops_terminate_witness :
  exists rv, pthread_rwlock_timedrdlock (Timespec 2 0) ([(EBUSY, 1990)] ++ [(EBUSY, 2001)]) = Ok rv /\ rv = ETIMEDOUT.
Proof.
  destruct (timed_loops_terminate (Timespec 2 0) [(EBUSY, 1990)] EBUSY 2001 []) as (rv & E & _).
  - right. reflexivity.
  - exists rv. split; [exact E|]. vm_compute in E. by injection E.
Defined.

(** A wakeup of [pthread_cond_timedwait] after its deadline is reported as 0, although
    the code means to report [ETIMEDOUT] then: the remaining time it tests for 0 is 1 for
    every time past the deadline, and 0 only in the millisecond of the deadline itself. *)
Theorem late_wakeup_unnoticed ts now later :
  let t := _pthread_time_in_ms_from_timespec ts in
  0 <= later ->
  (t < later -> snd (pthread_cond_timedwait ts now true later) = 0) /\
  (snd (pthread_cond_timedwait ts now true later) = ETIMEDOUT -> later = t).
Proof.
  intros t Hl. unfold pthread_cond_timedwait. simpl. unfold _pthread_rel_time_in_ms. fold t.
  destruct (Z.ltb_spec t later) as [H|H]; simpl; [by split|]. split; [lia|].
  assert (0 <= t < 2 ^ 64) by (apply Z.mod_pos_bound; lia).
  rewrite u64_small by lia. destruct (Z.eqb_spec (t - later) 0); [lia|done].
Qed.

Lemma late_wakeup_unnoticed_witness :
  snd (pthread_cond_timedwait (Timespec 2 0) 1000 true 2500) = 0.
Proof. apply (late_wakeup_unnoticed (Timespec 2 0) 1000 2500); zcheck. Defined.

(** The semaphore functions pass the address of the [sem_t] to the system instead of the
    handle stored there: after a successful [sem_init], unless the address happens to be a
    handle, posting, waiting and destroying fail and change nothing, whatever the value; a
    timed wait fails with [EINVAL]. *)
Theorem semaphores_use_address a val fresh s s' ts :
  sem_init a val fresh s = (0, s') -> objects s !! a = None -> a <> fresh ->
  sem_post a s' = (1, s') /\ sem_wait a s' = Ok (1, s') /\ sem_destroy a s' = (1, s') /\
  sem_timedwait a ts s' = (sem_duration ts, EINVAL, s') /\
  vars s' !! a = Some fresh /\ objects s' !! fresh = Some (val, 1).
Proof.
  unfold sem_init. intros H Ha Hne. destruct ((0 <=? val) && (val <=? 1)); simpl in H; [|done].
  destruct (Z.eqb_spec fresh 0) as [->|Hf]; [discriminate H|]. injection H as <-.
  unfold sem_post, sem_wait, sem_destroy, sem_timedwait. simpl.
  rewrite !lookup_insert_ne, Ha by done. rewrite !lookup_insert_eq. by split_and!.
Qed.

Lemma semaphores_use_address_witness :
  sem_init 5000 1 8 (SemState ∅ ∅) = (0, SemState {[8 := (1, 1)]} {[5000 := 8]}) /\
  sem_post 5000 (SemState {[8 := (1, 1)]} {[5000 := 8]}) = (1, SemState {[8 := (1, 1)]} {[5000 := 8]}).
Proof.
  assert (H : sem_init 5000 1 8 (SemState ∅ ∅) = (0, SemState {[8 := (1, 1)]} {[5000 := 8]})) by reflexivity.
  split; [exact H|].
  apply (semaphores_use_address 5000 1 8 (SemState ∅ ∅) _ (Timespec 0 0) H); [reflexivity|discriminate].
Defined.
