(* ===== verification/WinSrw.v ===== *)
(** * The reader/writer lock of Windows Vista (src/windows/pthread_rw_lock.h)

    A [pthread_rwlock_t] is an SRW lock, whose word the code reads and changes directly in
    [pthread_rwlock_tryrdlock], [pthread_rwlock_trywrlock] and [pthread_rwlock_unlock].  The
    functions of the system are parameters; what they do to the word while no thread waits
    on the lock is stated as hypotheses. *)

From stdpp Require Import base gmap list.
From Stdlib Require Import ZArith Lia.
From S2P Require Import Prelude Types.

(** ** Attributes *)

Definition pthread_rwlockattr_destroy (a : Z) : Z := 0.
(** [pthread_rwlockattr_init] returns no value. *)
Definition pthread_rwlockattr_init (a : Z) : Z := 0.
Definition pthread_rwlockattr_getpshared (a : Z) : Z * Z := (0, a).
Definition pthread_rwlockattr_setpshared (a s : Z) : Z * Z := (0, s).

(** ** The word *)

Inductive srw := Readers (n : nat) | Writer.

#[global] Instance srw_eq_dec : EqDecision srw.
Proof. solve_decision. Defined.

(** No waiting threads: 0 when free, 1 with a writer, and 16 for each reader plus 1. *)
Definition enc (a : srw) : Z :=
  match a with Readers O => 0 | Readers n => 16 * Z.of_nat n + 1 | Writer => 1 end.

Arguments enc : simpl never.

(** What [pthread_rwlock_tryrdlock] does with the word it read: give up, or compare and
    exchange it with a new word. *)
Definition pthread_rwlock_tryrdlock (state : Z) : option Z :=
  if state =? 0 then Some 17
  else if state =? 1 then None
  else if negb (Z.land state 14 =? 0) then None
  else Some (state + 16).

(** [InterlockedCompareExchangePointer(l, new, old) == old]: 0 or [EBUSY] is returned. *)
Definition compare_exchange (old new w : Z) : Z * Z := if w =? old then (0, new) else (EBUSY, w).

Definition pthread_rwlock_trywrlock (w : Z) : Z * Z := compare_exchange 0 1 w.

(** Whether [pthread_rwlock_unlock] takes the lock it reads for an exclusive one. *)
Definition unlock_exclusive (state : Z) : bool := state =? 1.

Section Srw.
(** The functions of the system; [None] while the caller is blocked. *)
Context (InitializeSRWLock : Z).
Context (AcquireSRWLockShared AcquireSRWLockExclusive : Z -> option Z).
Context (ReleaseSRWLockShared ReleaseSRWLockExclusive : Z -> Z).

Hypothesis init_free : InitializeSRWLock = enc (Readers 0).
Hypothesis shared_joins : forall n, AcquireSRWLockShared (enc (Readers n)) = Some (enc (Readers (S n))).
Hypothesis shared_blocks : AcquireSRWLockShared (enc Writer) = None.
Hypothesis exclusive_takes : AcquireSRWLockExclusive (enc (Readers 0)) = Some (enc Writer).
Hypothesis exclusive_blocks : forall a, a <> Readers 0 -> AcquireSRWLockExclusive (enc a) = None.
Hypothesis shared_leaves : forall n, ReleaseSRWLockShared (enc (Readers (S n))) = enc (Readers n).
Hypothesis exclusive_leaves : ReleaseSRWLockExclusive (enc Writer) = enc (Readers 0).

Definition pthread_rwlock_init : Z * Z := (0, InitializeSRWLock).
Definition pthread_rwlock_destroy (w : Z) : Z := 0.
Definition pthread_rwlock_rdlock (w : Z) : option Z := AcquireSRWLockShared w.
Definition pthread_rwlock_wrlock (w : Z) : option Z := AcquireSRWLockExclusive w.
(** The second half of [pthread_rwlock_unlock], after the state was read. *)
Definition pthread_rwlock_release (exclusive : bool) (w : Z) : Z :=
  if exclusive then ReleaseSRWLockExclusive w else ReleaseSRWLockShared w.

(** ** The threads *)

Inductive mode := R | W.
Inductive spc :=
| SHold (m : mode)                        (* holds the lock *)
| SCas (old new : Z)                      (* tryrdlock, the state read *)
| SRelease (m : mode) (exclusive : bool). (* unlock, the state read *)

Record sstate := SState { word : Z; sthr : gmap nat spc }.

Inductive srw_step (s : sstate) : sstate -> Prop :=
| SrRead t w : sthr s !! t = None -> pthread_rwlock_rdlock (word s) = Some w ->
    srw_step s (SState w (<[t := SHold R]> (sthr s)))
| SrWrite t w : sthr s !! t = None -> pthread_rwlock_wrlock (word s) = Some w ->
    srw_step s (SState w (<[t := SHold W]> (sthr s)))
| SrTryRead t new : sthr s !! t = None -> pthread_rwlock_tryrdlock (word s) = Some new ->
    srw_step s (SState (word s) (<[t := SCas (word s) new]> (sthr s)))
| SrCas t old new w rv : sthr s !! t = Some (SCas old new) -> compare_exchange old new (word s) = (rv, w) ->
    srw_step s (SState w (if rv =? 0 then <[t := SHold R]> (sthr s) else delete t (sthr s)))
| SrTryWrite t w : sthr s !! t = None -> pthread_rwlock_trywrlock (word s) = (0, w) ->
    srw_step s (SState w (<[t := SHold W]> (sthr s)))
| SrUnlock t m : sthr s !! t = Some (SHold m) ->
    srw_step s (SState (word s) (<[t := SRelease m (unlock_exclusive (word s))]> (sthr s)))
| SrRelease t m e : sthr s !! t = Some (SRelease m e) ->
    srw_step s (SState (pthread_rwlock_release e (word s)) (delete t (sthr s))).

Definition srw_start : sstate := SState (snd pthread_rwlock_init) ∅.

Definition reads (x : spc) : Z := match x with SHold R | SRelease R _ => 1 | _ => 0 end.
Definition writes (x : spc) : Z := match x with SHold W | SRelease W _ => 1 | _ => 0 end.

(** What a thread that read the state knows. *)
Definition srw_local (x : spc) : Prop :=
  match x with
  | SCas old new => exists n, old = enc (Readers n) /\ new = enc (Readers (S n))
  | SRelease m e => e = match m with R => false | W => true end
  | _ => True
  end.

Record srw_inv (s : sstate) : Prop := {
  sr_word : exists a, word s = enc a /\
    match a with
    | Readers n => msum reads (sthr s) = Z.of_nat n /\ msum writes (sthr s) = 0
    | Writer => msum reads (sthr s) = 0 /\ msum writes (sthr s) = 1
    end;
  sr_local t x : sthr s !! t = Some x -> srw_local x
}.

(** ** Lemmas *)

Lemma reads_range x : 0 <= reads x.
Proof. by destruct x as [[]| |[]]. Qed.
Lemma writes_range x : 0 <= writes x.
Proof. by destruct x as [[]| |[]]. Qed.

Lemma enc_inj a b : enc a = enc b -> a = b.
Proof. destruct a as [[|n]|], b as [[|m]|]; unfold enc; intros; try done; try lia. f_equal. lia. Qed.

Lemma land_readers n : Z.land (16 * Z.of_nat n + 1) 14 = 0.
Proof.
  apply Z.bits_inj'. intros j Hj. rewrite Z.land_spec, Z.bits_0.
  assert (Hm : (16 * Z.of_nat n + 1) mod 2 ^ 4 = 1)
    by (rewrite Z.add_comm, (Z.mul_comm 16), (Z_mod_plus_full 1 _ 16); done).
  destruct (decide (j < 4)) as [Hlt|Hge].
  - rewrite <- (Z.mod_pow2_bits_low _ 4) by lia. rewrite Hm.
    assert (j = 0 \/ j = 1 \/ j = 2 \/ j = 3) as [->|[->|[->| ->]]] by lia; done.
  - rewrite (Z.bits_above_log2 14 j) by (simpl; lia). by rewrite andb_false_r.
Qed.

(** A state that lets a reader try is free or held by readers. *)
Lemma tryrd_readers a new :
  pthread_rwlock_tryrdlock (enc a) = Some new -> exists n, a = Readers n /\ new = enc (Readers (S n)).
Proof.
  destruct a as [[|n]|]; unfold pthread_rwlock_tryrdlock; unfold enc.
  - intros [= <-]. by exists 0%nat.
  - rewrite (proj2 (Z.eqb_neq _ 0)), (proj2 (Z.eqb_neq _ 1)), land_readers by lia. simpl negb.
    intros [= <-]. exists (S n). split; [done|]. unfold enc. lia.
  - done.
Qed.

(** Adding a thread to, or taking it from, the holders. *)
Lemma srw_word_holds s t x :
  srw_inv s -> sthr s !! t = Some x ->
  exists a, word s = enc a /\
    (reads x = 1 -> exists n, a = Readers (S n)) /\ (writes x = 1 -> a = Writer) /\
    match a with
    | Readers n => msum reads (sthr s) = Z.of_nat n /\ msum writes (sthr s) = 0
    | Writer => msum reads (sthr s) = 0 /\ msum writes (sthr s) = 1
    end.
Proof.
  intros [(a & Hw & Ha) _] Hx. exists a. split; [done|].
  pose proof (msum_ge reads _ _ _ reads_range Hx). pose proof (msum_ge writes _ _ _ writes_range Hx).
  split_and!; [| |done]; intros H1.
  - destruct a as [[|n]|]; [lia|by exists n|lia].
  - destruct a as [n|]; [lia|done].
Qed.

Lemma srw_step_inv s s' : srw_inv s -> srw_step s s' -> srw_inv s'.
Proof.
  intros Hinv Hst. pose proof Hinv as [(a & Hw & Ha) Hl].
  assert (Hins : forall t x, srw_local x -> forall t' x', <[t:=x]> (sthr s) !! t' = Some x' -> srw_local x').
  { intros t x Hx t' x' [[<- <-]|[_ H]]%lookup_insert_Some; [done|by apply (Hl t')]. }
  assert (Hdel : forall t t' x', delete t (sthr s) !! t' = Some x' -> srw_local x')
    by (intros t t' x' [_ H]%lookup_delete_Some; by apply (Hl t')).
  assert (Hsum : forall f t x, sthr s !! t = Some x -> msum f (delete t (sthr s)) = msum f (sthr s) - f x)
    by (intros f t x Hx; rewrite (msum_delete f _ _ _ Hx); lia).
  destruct Hst as [t w Hn Hp|t w Hn Hp|t new Hn Hp|t old new w rv Hx Hp|t w Hn Hp|t m Hx|t m e Hx];
    (split; [|simpl; try (by eapply Hins); try (by eapply Hdel)]); simpl.
  - unfold pthread_rwlock_rdlock in Hp. rewrite Hw in Hp. destruct a as [n|]; [|by rewrite shared_blocks in Hp].
    rewrite shared_joins in Hp. injection Hp as <-. exists (Readers (S n)). split; [done|].
    rewrite !(msum_insert_new _ _ _ _ Hn). simpl. lia.
  - unfold pthread_rwlock_wrlock in Hp. rewrite Hw in Hp. destruct (decide (a = Readers 0)) as [->|Hne];
      [|by rewrite exclusive_blocks in Hp]. rewrite exclusive_takes in Hp. injection Hp as <-.
    exists Writer. split; [done|]. rewrite !(msum_insert_new _ _ _ _ Hn). simpl. lia.
  - exists a. split; [done|]. rewrite !(msum_insert_new _ _ _ _ Hn). simpl. by destruct a.
  - apply (Hins t). rewrite Hw in *. destruct (tryrd_readers a new Hp) as (n & -> & ->). by exists n.
  - destruct (Hl t _ Hx) as (n & -> & ->). unfold compare_exchange in Hp. destruct (Z.eqb_spec (word s) (enc (Readers n))) as [E|E];
      injection Hp as <- <-; simpl.
    + exists (Readers (S n)). split; [done|]. rewrite Hw in E. apply enc_inj in E as ->.
      rewrite !(msum_insert _ _ _ _ _ Hx). simpl. lia.
    + exists a. split; [done|]. rewrite !(Hsum _ t _ Hx). simpl. destruct a; lia.
  - destruct (rv =? 0); [by apply (Hins t)|by apply (Hdel t)].
  - unfold pthread_rwlock_trywrlock, compare_exchange in Hp. rewrite Hw in Hp.
    destruct (Z.eqb_spec (enc a) 0) as [E|E]; [|done]. injection Hp as <-.
    apply (enc_inj a (Readers 0)) in E as ->. exists Writer. split; [done|].
    rewrite !(msum_insert_new _ _ _ _ Hn). simpl. lia.
  - exists a. split; [done|]. rewrite !(msum_insert _ _ _ _ _ Hx). destruct m; simpl; destruct a; lia.
  - apply (Hins t). destruct (srw_word_holds s t _ Hinv Hx) as (b & Hb & Hr & Hwr & _). simpl in *.
    rewrite Hb. destruct m; simpl in *.
    + destruct (Hr eq_refl) as [n ->]. unfold unlock_exclusive. unfold enc. apply Z.eqb_neq. lia.
    + by rewrite (Hwr eq_refl).
  - destruct (srw_word_holds s t _ Hinv Hx) as (b & Hb & Hr & Hwr & Hab). rewrite !(Hsum _ t _ Hx).
    pose proof (Hl t _ Hx) as He. simpl in He. subst e. rewrite Hb. unfold pthread_rwlock_release. destruct m; simpl in *.
    + destruct (Hr eq_refl) as [n ->]. exists (Readers n). rewrite shared_leaves. split; [done|]. lia.
    + rewrite (Hwr eq_refl) in Hab |- *. exists (Readers 0). rewrite exclusive_leaves. split; [done|]. simpl. lia.
Qed.

(** ** Exclusion *)

(** The reader/writer lock of Vista, as long as no thread has to wait for it: a writer
    excludes all other holders; the word is 0, 1 or 16 times the number of readers plus 1
    accordingly; reading the word, [pthread_rwlock_unlock] always finds out which way its
    caller holds the lock; and a try gives up with [EBUSY] or takes the lock, never
    both. *)
Theorem srw_exclusion s :
  rtc srw_step srw_start s ->
  (msum writes (sthr s) = 0 \/ msum writes (sthr s) = 1 /\ msum reads (sthr s) = 0) /\
  word s = (if msum writes (sthr s) =? 0 then
              if msum reads (sthr s) =? 0 then 0 else 16 * msum reads (sthr s) + 1 else 1) /\
  (forall t m e, sthr s !! t = Some (SRelease m e) -> e = match m with R => false | W => true end).
Proof.
  intros Hr. assert (Hinv : srw_inv s).
  { assert (H0 : srw_inv srw_start).
    { split; [exists (Readers 0); simpl; by rewrite init_free, !msum_empty|].
      intros t x H. simpl in H. by rewrite lookup_empty in H. }
    revert H0. induction Hr as [|s0 s1 s2 Hst _ IH]; intros H0; [done|]. apply IH. by eapply srw_step_inv. }
  destruct Hinv as [(a & Hw & Ha) Hl]. rewrite Hw. split_and!.
  - destruct a; [left|right]; lia.
  - destruct a as [[|n]|]; destruct Ha as [-> ->]; unfold enc; zcase; lia.
  - intros t m e Hx. exact (Hl t _ Hx).
Qed.
End Srw.

(** ** The functions of the system on the word *)

Definition acquire_shared (w : Z) : option Z := if w =? 1 then None else Some (if w =? 0 then 17 else w + 16).
Definition acquire_exclusive (w : Z) : option Z := if w =? 0 then Some 1 else None.
Definition release_shared (w : Z) : Z := if w =? 17 then 0 else w - 16.
Definition release_exclusive (w : Z) : Z := w - 1.

Lemma shared_ok n : acquire_shared (enc (Readers n)) = Some (enc (Readers (S n))).
Proof. unfold acquire_shared. destruct n; unfold enc; [done|]. zcase; try lia. f_equal. lia. Qed.
Lemma exclusive_ok a : a <> Readers 0 -> acquire_exclusive (enc a) = None.
Proof. intros Ha. unfold acquire_exclusive. destruct a as [[|n]|]; unfold enc; [done| |done]. zcase; [lia|done]. Qed.
Lemma release_ok n : release_shared (enc (Readers (S n))) = enc (Readers n).
Proof. unfold release_shared. destruct n; unfold enc; [done|]. zcase; lia. Qed.

(** Two readers, the second one through a try. *)
Definition ex_srw : sstate := SState 33 {[1%nat := SHold R; 2%nat := SHold R]}.

Lemma ex_srw_reachable :
  rtc (srw_step acquire_shared acquire_exclusive release_shared release_exclusive) (srw_start 0) ex_srw.
Proof.
  eapply rtc_l; [by apply (SrRead _ _ _ _ _ 1 17)|]. simpl.
  eapply rtc_l; [by apply (SrTryRead _ _ _ _ _ 2 33)|]. simpl.
  eapply rtc_l; [by apply (SrCas _ _ _ _ _ 2 17 33 33 0)|]. simpl.
  match goal with |- rtc _ ?s _ => replace s with ex_srw by (by vm_compute) end. constructor.
Qed.

Lemma srw_exclusion_witness :
  rtc (srw_step acquire_shared acquire_exclusive release_shared release_exclusive) (srw_start 0) ex_srw /\
  word ex_srw = 33 /\ (msum writes (sthr ex_srw) = 0 \/ msum writes (sthr ex_srw) = 1 /\ msum reads (sthr ex_srw) = 0).
Proof.
  split; [exact ex_srw_reachable|].
  destruct (srw_exclusion 0 acquire_shared acquire_exclusive release_shared release_exclusive
    eq_refl shared_ok eq_refl eq_refl exclusive_ok release_ok eq_refl ex_srw ex_srw_reachable) as (H1 & H2 & _).
  split; [exact H2|exact H1].
Defined.
