(* ===== verification/Platform.v ===== *)
(** * What the platforms report: run queue length, thread states, entitled CPUs

    src/linux/load.c and src/linux/thread_info.c read text of /proc; src/solaris/load.c
    and src/solaris/thread_info.c read kernel counters; src/posix/thread_info.c is the
    fallback.  The files and system calls are arguments: what open, read and readdir
    answered.  A character is its code, a C string ends at its first 0. *)

From Stdlib Require Import ZArith Lia String Ascii.
From stdpp Require Import base gmap list.
From S2P Require Import Prelude Types.

(** ** The C library functions the sources use *)

Abbreviation text := (list Z) (only parsing).

Fixpoint codes (s : string) : text :=
  match s with EmptyString => [] | String c s => Z.of_N (N_of_ascii c) :: codes s end.
Arguments codes : simpl never.

Definition isspace (c : Z) : bool := (c =? 32) || ((9 <=? c) && (c <=? 13)).
Definition isdigit (c : Z) : bool := (48 <=? c) && (c <=? 57).

(** The string that starts at the beginning of a buffer; without a terminator the callee
    runs past the end of the buffer. *)
Fixpoint c_string (buf : text) : outcome text :=
  match buf with
  | [] => Faults
  | c :: buf => if c =? 0 then Ok [] else let* s := c_string buf in Ok (c :: s)
  end.

Fixpoint is_prefix (p s : text) : bool :=
  match p, s with
  | [], _ => true
  | a :: p, b :: s => (a =? b) && is_prefix p s
  | _ :: _, [] => false
  end.

(** [strstr]: the offset of the first occurrence. *)
Fixpoint strstr (s needle : text) : option nat :=
  if is_prefix needle s then Some 0%nat
  else match s with [] => None | _ :: s => S <$> strstr s needle end.

Fixpoint skip_spaces (s : text) : text :=
  match s with c :: s' => if isspace c then skip_spaces s' else s | [] => [] end.
(** The longest prefix of characters that satisfy [f], and the rest. *)
Fixpoint span (f : Z -> bool) (s : text) : text * text :=
  match s with
  | c :: s' => if f c then let (a, b) := span f s' in (c :: a, b) else ([], s)
  | [] => ([], [])
  end.

Definition dec_value (ds : text) : Z := fold_left (fun n d => 10 * n + (d - 48)) ds 0.

Definition LONG_MAX : Z := 2 ^ 63 - 1.
Definition clamp_long (z : Z) : Z := Z.max (- LONG_MAX - 1) (Z.min LONG_MAX z).

(** An optional sign, then digits: the sign, the digits and the rest. *)
Definition scan_number (s : text) : Z * text * text :=
  match skip_spaces s with
  | c :: s' =>
      if c =? 45 then let (d, r) := span isdigit s' in (-1, d, r)
      else if c =? 43 then let (d, r) := span isdigit s' in (1, d, r)
      else let (d, r) := span isdigit (c :: s') in (1, d, r)
  | [] => (1, [], [])
  end.

(** [atoi(p)] is [(int) strtol(p, NULL, 10)]. *)
Definition atoi (s : text) : Z :=
  let '(sg, d, _) := scan_number s in s32 (clamp_long (sg * dec_value d)).

(** [sscanf(s, "%d %s %c", &pid, dummy, &state)]: the number of conversions, and what the
    three wrote. *)
Definition sscanf_dsc (s : text) : Z * option Z * option text * option Z :=
  let '(sg, d, r) := scan_number s in
  match d with
  | [] => (match skip_spaces s with [] => -1 | _ => 0 end, None, None, None)
  | _ =>
      let pid := Some (s32 (clamp_long (sg * dec_value d))) in
      match span (fun c => negb (isspace c)) (skip_spaces r) with
      | ([], _) => (1, pid, None, None)
      | (w, r) =>
          match skip_spaces r with
          | [] => (2, pid, Some w, None)
          | c :: _ => (3, pid, Some w, Some c)
          end
      end
  end.

(** ** Linux *)

Module Linux.

(** [read] into a buffer: it overwrites the front; [None]: it failed and wrote nothing. *)
Definition read_into (buf : text) (data : option text) : Z * text :=
  match data with
  | None => (-1, buf)
  | Some d => (Z.of_nat (length d), d ++ drop (length d) buf)
  end.

(** [linux_get_runqueue_length]: the stack buffer as it was ([stack]), whether open
    succeeded and what read delivered. *)
Definition linux_get_runqueue_length (opened : bool) (stack : text) (data : option text) : outcome Z :=
  if negb opened then Ok 1
  else
    let (len, buf) := read_into stack data in
    let* runqsz :=
      if len <? 0 then Ok 0
      else
        let* s := c_string buf in
        match strstr s (codes "procs_running") with
        | Some p => let* arg := c_string (drop (p + 14) buf) in Ok (u32 (atoi arg))
        | None => Ok 0
        end in
    Ok (if runqsz =? 0 then 1 else runqsz).

Definition MAX_RESULT_SIZE : nat := 4096.

(** What the three system calls of [_read_file] answer for a path. *)
Inductive file_answer :=
| OpenFails
| FcntlFails
| Reads (data : option text).

(** [_read_file]: the return value, and the result buffer after it. *)
Definition _read_file (file : file_answer) (result : text) : Z * text :=
  match file with
  | OpenFails | FcntlFails => (-1, result)
  | Reads data =>
      let (actual_read, result) := read_into result data in
      if actual_read =? 0 then (-1, result) else (0, result)
  end.

Definition task_path : text := codes "/proc/self/task".
(** [sprintf(thread_path, "%s/%s/stat", task_path, d_name)] *)
Definition thread_path (d_name : text) : text := task_path ++ codes "/" ++ d_name ++ codes "/stat".

(** The body of the loop over the directory: the running and the total count. *)
Definition count_thread (files : text -> file_answer) (counts : Z * Z) (d_name : text) : outcome (Z * Z) :=
  let (running_count, total_count) := counts in
  let (rv, thread_data) := _read_file (files (thread_path d_name)) (replicate (S MAX_RESULT_SIZE) 0) in
  if negb (rv =? 0) then Ok counts
  else
    let* s := c_string thread_data in
    match sscanf_dsc s with
    | (n, _, _, Some state) =>
        if n =? 3 then Ok (if state =? 82 then running_count +u 1 else running_count, total_count +u 1)
        else Ok counts
    | _ => Ok counts
    end.
Arguments count_thread : simpl never.

(** [threads_runnable]: [entries] is what readdir lists, [None] when opendir fails; the
    result is the return value and the two counts written on success. *)
Definition threads_runnable (files : text -> file_answer) (entries : option (list text)) : outcome (Z * option (Z * Z)) :=
  match entries with
  | None => Ok (-1, None)
  | Some names =>
      let* counts := fold_left (fun acc d => let* c := acc in count_thread files c d) names (Ok (0, 0)) in
      Ok (0, Some counts)
  end.

(** [thread_entitled_cpus]: the size of the affinity mask, or the CPUs on line. *)
Definition thread_entitled_cpus (affinity : option Z) (nprocessors_onln : Z) : Z :=
  match affinity with None => u32 nprocessors_onln | Some n => u32 n end.

End Linux.

(** ** Lemmas: C strings *)

Lemma c_string_app a b : (0 ∉ a) -> c_string (a ++ b) = let* s := c_string b in Ok (a ++ s).
Proof.
  induction a as [|c a IH]; simpl; intros Hn; [by destruct (c_string b)|].
  apply not_elem_of_cons in Hn as [Hc Ha]. destruct (Z.eqb_spec c 0); [by subst|].
  rewrite IH by done. by destruct (c_string b).
Qed.

Lemma c_string_terminated b : 0 ∈ b -> exists g, c_string b = Ok g.
Proof.
  induction b as [|c b IH]; simpl; intros Hi; [by apply not_elem_of_nil in Hi|].
  destruct (Z.eqb_spec c 0); [eauto|]. apply elem_of_cons in Hi as [?|Hi]; [congruence|].
  destruct (IH Hi) as [g ->]. by exists (c :: g).
Qed.

Lemma is_prefix_app p a b : (length p <= length a)%nat -> is_prefix p (a ++ b) = is_prefix p a.
Proof.
  induction p as [|x p IH] in a |- *; [done|]. destruct a as [|y a]; simpl; [lia|]. intros. f_equal. apply IH. lia.
Qed.

Lemma is_prefix_length p a : is_prefix p a = true -> (length p <= length a)%nat.
Proof.
  induction p as [|x p IH] in a |- *; simpl; [lia|]. destruct a as [|y a]; [done|].
  intros [_ H]%andb_true_iff. apply IH in H. simpl. lia.
Qed.

(** Text behind a string does not change where its first occurrence is. *)
Lemma strstr_app needle a b k : strstr a needle = Some k -> strstr (a ++ b) needle = Some k /\ (k + length needle <= length a)%nat.
Proof.
  induction a as [|c a IH] in k |- *; simpl; destruct (is_prefix needle _) eqn:E; try done.
  - intros [= <-]. destruct needle; [|done]. split; [by destruct b|simpl; lia].
  - intros [= <-]. pose proof (is_prefix_length _ _ E) as Hl. simpl in Hl.
    change (c :: a ++ b) with ((c :: a) ++ b). rewrite is_prefix_app by done. rewrite E. split; [done|simpl; lia].
  - destruct (strstr a needle) as [k'|] eqn:Ek; [|done]. intros [= <-]. destruct (IH k' eq_refl) as [H Hl].
    assert (Hn : (length needle <= length a)%nat) by lia.
    change (c :: a ++ b) with ((c :: a) ++ b). rewrite is_prefix_app by (simpl; lia). rewrite E, H. split; [done|lia].
Qed.

Lemma span_all f a c r : Forall (fun x => f x = true) a -> f c = false -> span f (a ++ c :: r) = (a, c :: r).
Proof.
  induction 1 as [|x a Hx _ IH]; simpl; intros Hc; [by rewrite Hc|]. by rewrite Hx, IH.
Qed.

(** A number, then something that is not a digit. *)
Lemma scan_number_digits ds c r :
  ds <> [] -> Forall (fun x => isdigit x = true) ds -> isdigit c = false ->
  scan_number (ds ++ c :: r) = (1, ds, c :: r).
Proof.
  intros Hne Hd Hc. destruct ds as [|d ds]; [done|]. pose proof (Forall_inv Hd) as H0. unfold isdigit in H0.
  apply andb_true_iff in H0 as [H1%Z.leb_le H2%Z.leb_le].
  unfold scan_number. simpl. unfold isspace.
  destruct (Z.eqb_spec d 32); [lia|]. destruct (Z.leb_spec d 13); [lia|]. rewrite andb_false_r. simpl.
  destruct (Z.eqb_spec d 45); [lia|]. destruct (Z.eqb_spec d 43); [lia|].
  pose proof (span_all isdigit (d :: ds) c r Hd Hc) as Hs. simpl in Hs. by rewrite Hs.
Qed.

Lemma dec_value_nonneg ds : Forall (fun x => isdigit x = true) ds -> 0 <= dec_value ds.
Proof.
  unfold dec_value. assert (Hz : 0 <= 0) by lia. revert Hz. generalize 0 at 2 4.
  induction ds as [|d ds IH]; simpl; intros n Hn; [done|]. intros [Hd Hds]%Forall_cons.
  apply IH; [|done]. unfold isdigit in Hd. apply andb_true_iff in Hd as [H1%Z.leb_le _]. lia.
Qed.

Lemma atoi_digits ds c r :
  ds <> [] -> Forall (fun x => isdigit x = true) ds -> isdigit c = false -> dec_value ds < 2 ^ 31 ->
  atoi (ds ++ c :: r) = dec_value ds.
Proof.
  intros Hne Hd Hc Hv. pose proof (dec_value_nonneg _ Hd). unfold atoi, clamp_long, LONG_MAX.
  rewrite scan_number_digits by done. rewrite s32_small; lia.
Qed.

(** ** Theorems: Linux *)

(** [linux_get_runqueue_length] returns the number the kernel prints after the first
    [procs_running] of /proc/stat, and 1 in its place when the number is 0, for every
    content of the stack buffer behind the file that has a terminator somewhere; it
    returns 1 when the file can not be opened or read, and never returns 0. *)
Theorem linux_runqueue_length_spec :
  (forall stack file k ds c rest,
     (0 ∉ file) -> 0 ∈ drop (length file) stack ->
     strstr file (codes "procs_running") = Some k -> drop (k + 14) file = ds ++ c :: rest ->
     ds <> [] -> Forall (fun d => isdigit d = true) ds -> isdigit c = false -> dec_value ds < 2 ^ 31 ->
     Linux.linux_get_runqueue_length true stack (Some file) = Ok (Z.max 1 (dec_value ds))) /\
  (forall stack data, Linux.linux_get_runqueue_length false stack data = Ok 1) /\
  (forall stack, Linux.linux_get_runqueue_length true stack None = Ok 1) /\
  (forall opened stack data n, Linux.linux_get_runqueue_length opened stack data = Ok n -> 1 <= n < 2 ^ 32).
Proof.
  split_and!; [|done|done|].
  - intros stack file k ds c rest H0 Hs Hk Hd Hne Hds Hc Hv.
    destruct (c_string_terminated _ Hs) as [g Hg].
    destruct (strstr_app _ _ g _ Hk) as [Hk' Hl].
    assert (Hr : (0 ∉ ds ++ c :: rest)).
    { rewrite <- Hd. intros Hi. apply H0. rewrite <- (take_drop (k + 14) file). apply elem_of_app. by right. }
    pose proof (dec_value_nonneg _ Hds) as Hn.
    unfold Linux.linux_get_runqueue_length, Linux.read_into. simpl.
    destruct (Z.ltb_spec (Z.of_nat (length file)) 0); [lia|].
    rewrite c_string_app, Hg by done. cbn [obind]. rewrite Hk'.
    assert (Hlen : (k + 14 <= length file)%nat).
    { apply (f_equal length) in Hd. rewrite length_drop, length_app in Hd. simpl in Hd. lia. }
    rewrite drop_app_le, Hd, c_string_app, Hg by done. cbn [obind].
    rewrite <- app_assoc. change ((c :: rest) ++ g) with (c :: (rest ++ g)).
    rewrite atoi_digits, u32_small by (try done; lia). f_equal. zcase; lia.
  - intros opened stack data n. unfold Linux.linux_get_runqueue_length.
    destruct opened; simpl; [|intros [= <-]; lia]. destruct (Linux.read_into stack data) as [len buf].
    destruct (len <? 0); simpl; [intros [= <-]; lia|].
    destruct (c_string buf) as [s| | |]; simpl; [|done..]. destruct (strstr s _) as [p|]; simpl; [|intros [= <-]; lia].
    destruct (c_string _) as [a| | |]; simpl; [|done..]. pose proof (u32_range (atoi a)) as Hu.
    unfold is_u32 in Hu. zcase; intros [= <-]; lia.
Qed.

(** A file of two lines, and a buffer with a terminator right behind it. *)
Lemma linux_runqueue_length_witness :
  Linux.linux_get_runqueue_length true (replicate 40 0) (Some (codes "cpu 1 2" ++ [10] ++ codes "procs_running 25" ++ [10]))
  = Ok 25.
Proof.
  apply (proj1 linux_runqueue_length_spec _ _ 8%nat [50; 53] 10 []); try done.
  - by apply (bool_decide_unpack (0 ∉ codes "cpu 1 2" ++ [10] ++ codes "procs_running 25" ++ [10])).
  - by left.
  - by repeat constructor.
Defined.

(** A line of /proc/[pid]/stat as proc(5) describes it. *)
Record task := Task { tk_pid : text; tk_comm : text; tk_state : Z; tk_rest : text }.
Definition stat_line (t : task) : text := tk_pid t ++ 32 :: tk_comm t ++ 32 :: tk_state t :: tk_rest t.

(** The name of the thread has no white space, and the line fits the buffer. *)
Record plain_task (t : task) : Prop := {
  pt_pid : tk_pid t <> [] /\ Forall (fun d => isdigit d = true) (tk_pid t);
  pt_comm : tk_comm t <> [] /\ Forall (fun c => negb (isspace c) = true) (tk_comm t);
  pt_state : isspace (tk_state t) = false;
  pt_text : (0 ∉ stat_line t);
  pt_fits : (length (stat_line t) <= Linux.MAX_RESULT_SIZE)%nat
}.

Lemma skip_nonspace c s : isspace c = false -> skip_spaces (c :: s) = c :: s.
Proof. simpl. by intros ->. Qed.

Lemma sscanf_stat_line t : plain_task t ->
  exists pid, sscanf_dsc (stat_line t) = (3, Some pid, Some (tk_comm t), Some (tk_state t)).
Proof.
  intros [[Hp Hpd] [Hc Hcs] Hst _ _]. unfold sscanf_dsc, stat_line. rewrite scan_number_digits by done.
  destruct (tk_pid t) as [|d ds]; [done|].
  assert (Hsk : skip_spaces (32 :: tk_comm t ++ 32 :: tk_state t :: tk_rest t) = tk_comm t ++ 32 :: tk_state t :: tk_rest t).
  { simpl. destruct (tk_comm t) as [|c cs]; [done|]. apply Forall_cons in Hcs as [H _].
    apply (skip_nonspace c (cs ++ _)). by apply negb_true_iff. }
  rewrite Hsk, (span_all (fun c => negb (isspace c)) (tk_comm t) 32) by done.
  destruct (tk_comm t) as [|c cs]; [done|].
  change (skip_spaces (32 :: tk_state t :: tk_rest t)) with (skip_spaces (tk_state t :: tk_rest t)).
  rewrite skip_nonspace by done. eauto.
Qed.

Definition is_running (t : task) : Z := if tk_state t =? 82 then 1 else 0.

Lemma count_thread_task files name t r n :
  files (Linux.thread_path name) = Linux.Reads (Some (stat_line t)) -> plain_task t ->
  0 <= r <= n -> n + 1 < 2 ^ 32 ->
  Linux.count_thread files (r, n) name = Ok (r + is_running t, n + 1).
Proof.
  intros Hf Ht Hr Hn. unfold Linux.count_thread. rewrite Hf. unfold Linux._read_file, Linux.read_into.
  pose proof (pt_fits _ Ht) as Hfit. destruct (sscanf_stat_line t Ht) as [pid Hs].
  assert (Hne : stat_line t <> []) by (unfold stat_line; intros [_ Hx]%app_eq_nil; done).
  destruct (Z.eqb_spec (Z.of_nat (length (stat_line t))) 0) as [Hz|_].
  { by destruct (stat_line t). }
  simpl negb. rewrite c_string_app by apply Ht.
  rewrite drop_replicate. replace (S Linux.MAX_RESULT_SIZE - length (stat_line t))%nat
    with (S (Linux.MAX_RESULT_SIZE - length (stat_line t))) by lia.
  simpl. rewrite app_nil_r, Hs. simpl. unfold is_running. destruct (tk_state t =? 82); rewrite ?u32_small by lia; do 2 f_equal; lia.
Qed.

Section Threads.
(** What the directory lists: a name reads as a thread, or it can not be opened. *)
Context (files : text -> Linux.file_answer) (view : text -> option task).

Definition view_ok (name : text) : Prop :=
  match view name with
  | Some t => files (Linux.thread_path name) = Linux.Reads (Some (stat_line t)) /\ plain_task t
  | None => files (Linux.thread_path name) = Linux.OpenFails
  end.

Definition seen (name : text) : Z := match view name with Some _ => 1 | None => 0 end.
Definition seen_running (name : text) : Z := match view name with Some t => is_running t | None => 0 end.

Lemma seen_running_le name : 0 <= seen_running name <= seen name.
Proof. unfold seen, seen_running, is_running. destruct (view name); zcase; lia. Qed.

Lemma fold_threads names r n :
  Forall view_ok names -> 0 <= r <= n -> n + Z.of_nat (length names) < 2 ^ 32 ->
  fold_left (fun acc d => let* c := acc in Linux.count_thread files c d) names (Ok (r, n)) =
  Ok (r + lsum seen_running names, n + lsum seen names).
Proof.
  induction names as [|a l IH] in r, n |- *; simpl; intros Hv Hr Hn; [by rewrite !Z.add_0_r|].
  apply Forall_cons in Hv as [Ha Hl]. pose proof (seen_running_le a) as Hs.
  assert (Hc : Linux.count_thread files (r, n) a = Ok (r + seen_running a, n + seen a)).
  { unfold view_ok, seen, seen_running in *. destruct (view a) as [t|].
    - destruct Ha. apply count_thread_task; [done..|lia].
    - unfold Linux.count_thread. rewrite Ha. simpl. by rewrite !Z.add_0_r. }
  assert (seen a <= 1) by (unfold seen; destruct (view a); lia).
  rewrite Hc, IH by (done || lia). rewrite <- !Z.add_assoc. done.
Qed.


End Threads.

(** A process with one running thread, 7, which is its leader: the entry [..] of
    /proc/self/task is /proc/self, whose stat file shows the leader again. *)
Definition ex_leader : task := Task (codes "7") (codes "(pwq)") 82 (codes " 1 7 7 0").
Definition ex_view (name : text) : option task :=
  if decide (name = codes "..") then Some ex_leader else if decide (name = codes "7") then Some ex_leader else None.
Definition ex_files (path : text) : Linux.file_answer :=
  if decide (path = codes "/proc/self/task/../stat") then Linux.Reads (Some (stat_line ex_leader))
  else if decide (path = codes "/proc/self/task/7/stat") then Linux.Reads (Some (stat_line ex_leader))
  else Linux.OpenFails.

Lemma ex_leader_plain : plain_task ex_leader.
Proof.
  split; try (split; [done|]); try (apply Forall_forall; intros x Hx; by repeat (apply elem_of_cons in Hx as [-> |Hx]; [done|]; try by apply not_elem_of_nil in Hx)); try done.
  - by apply (bool_decide_unpack (0 ∉ stat_line ex_leader)).
  - by apply (bool_decide_unpack ((length (stat_line ex_leader) <= Linux.MAX_RESULT_SIZE)%nat)).
Qed.


(** A sleeping thread whose name has a space and an [R] counts as running. *)
Lemma threads_runnable_space :
  let files _ := Linux.Reads (Some (codes "7 (a Rx) S 1 7 7 0")) in
  Linux.threads_runnable files (Some [codes "7"]) = Ok (0, Some (1, 1)).
Proof. by vm_compute. Qed.

(** ** Solaris *)

Module Solaris.

(** The static variables of load.c. *)
Record load_state := LoadState { previous_runque : Z; previous_updates : Z }.

(** What the four kstat calls answer; the two counters are [uint32_t]. *)
Record kstat_answers := Kstat {
  k_open : bool; k_lookup : bool; k_read : bool; k_close : bool; k_runque : Z; k_updates : Z
}.

Definition solaris_get_runqueue_length (k : kstat_answers) (st : load_state) : Z * load_state :=
  if negb (k_open k) then (0, st)
  else if negb (k_lookup k) then (0, st)
  else if negb (k_read k) then (0, st)
  else
    let previous_runque := s32 (k_runque k -u u32 (previous_runque st)) in
    let previous_updates := s32 (k_updates k -u u32 (previous_updates st)) in
    let run_queue :=
      if negb (previous_updates =? 0) then u32 (Z.quot previous_runque previous_updates) else 0 in
    let st := LoadState (s32 (k_runque k)) (s32 (k_updates k)) in
    if negb (k_close k) then (0, st) else (run_queue, st).

Section Lstatus.
(** The [pr_flags] of an entry of /proc/self/lstatus and [PR_ASLEEP] (procfs.h). *)
Context (pr_flags : text -> Z) (PR_ASLEEP : Z).

Record lstatus_answers := Lstatus {
  l_open : bool; l_fcntl : bool;
  l_header : option (Z * Z);   (* prheader: pr_nent, pr_entsize; None: a short read *)
  l_malloc : bool;
  l_body : text                (* what the second read delivers *)
}.

Fixpoint count_lwps (entsize : nat) (buf : text) (n : nat) (running_count : Z) : Z :=
  match n with
  | O => running_count
  | S n =>
      let running_count :=
        if negb (Z.land (pr_flags (take entsize buf)) PR_ASLEEP =? 0) then running_count else running_count +u 1 in
      count_lwps entsize (drop entsize buf) n running_count
  end.

Definition threads_runnable (a : lstatus_answers) : Z * option (Z * Z) :=
  if negb (l_open a) then (-1, None)
  else if negb (l_fcntl a) then (-1, None)
  else match l_header a with
  | None => (-1, None)
  | Some (pr_nent, pr_entsize) =>
      if negb (l_malloc a) then (-1, None)
      else if negb (Z.of_nat (length (l_body a)) =? pr_nent * pr_entsize) then (-1, None)
      else (0, Some (count_lwps (Z.to_nat pr_entsize) (l_body a) (Z.to_nat pr_nent) 0, u32 pr_nent))
  end.

End Lstatus.
End Solaris.

(** ** Elsewhere *)

Module Posix.
Definition threads_runnable : Z * option (Z * Z) := (-1, None).
Definition thread_entitled_cpus (nprocessors_onln : Z) : Z := u32 nprocessors_onln.
End Posix.

Module Windows.
Definition threads_runnable : Z * option (Z * Z) := (-1, None).
End Windows.

(** ** Theorems: Solaris *)

Lemma s32_u32_diff a b : 0 <= a - b < 2 ^ 31 -> s32 (u32 (u32 a - u32 (s32 (u32 b)))) = a - b.
Proof.
  intros H. rewrite u32_of_s32, u32_idem. unfold u32 at 1.
  assert (He : (u32 a - u32 b) mod 2 ^ 32 = a - b).
  { unfold u32. rewrite <- Zminus_mod. apply Z.mod_small. lia. }
  rewrite He. apply s32_small. lia.
Qed.

(** Two successive calls of [solaris_get_runqueue_length] that read the kernel's
    counters return the average length of the run queue in between, the quotient of what
    the two counters grew by, whether or not the 32-bit counters wrap around; 0 when there
    was no update, and when any of the kstat calls fails. *)
Theorem solaris_runqueue_average (st : Solaris.load_state) (R1 U1 R2 U2 : Z) :
  0 <= R2 - R1 < 2 ^ 31 -> 0 <= U2 - U1 < 2 ^ 31 ->
  let call r u st := Solaris.solaris_get_runqueue_length (Solaris.Kstat true true true true (u32 r) (u32 u)) st in
  let '(_, st1) := call R1 U1 st in
  fst (call R2 U2 st1) = (if U2 =? U1 then 0 else (R2 - R1) / (U2 - U1)) /\
  (forall o l r c rq up, o && l && r && c = false ->
     fst (Solaris.solaris_get_runqueue_length (Solaris.Kstat o l r c rq up) st) = 0).
Proof.
  intros HR HU call. unfold call, Solaris.solaris_get_runqueue_length. simpl.
  rewrite (s32_u32_diff R2 R1), (s32_u32_diff U2 U1) by done. split.
  - destruct (Z.eqb_spec U2 U1) as [->|Hne]; [by rewrite Z.sub_diag|].
    destruct (Z.eqb_spec (U2 - U1) 0); [lia|]. simpl. rewrite Z.quot_div_nonneg by lia.
    assert (0 <= (R2 - R1) / (U2 - U1) <= R2 - R1).
    { split; [apply Z.div_pos; lia|]. apply Z.div_le_upper_bound; nia. }
    apply u32_small. lia.
  - intros [] [] [] [] rq up; done.
Qed.

(** The second counter wraps around between the calls. *)
Lemma solaris_runqueue_average_witness :
  fst (Solaris.solaris_get_runqueue_length (Solaris.Kstat true true true true 20 5)
         (snd (Solaris.solaris_get_runqueue_length (Solaris.Kstat true true true true 0 (2 ^ 32 - 5))
                 (Solaris.LoadState 0 0)))) = 2.
Proof.
  exact (proj1 (solaris_runqueue_average (Solaris.LoadState 0 0) 0 (2 ^ 32 - 5) 20 (2 ^ 32 + 5)
                  ltac:(lia) ltac:(lia))).
Defined.

(** Every lwp of /proc/self/lstatus is counted as running or is asleep. *)
Lemma count_lwps_bounds flags asleep sz buf n r :
  0 <= r -> r + Z.of_nat n < 2 ^ 32 ->
  r <= Solaris.count_lwps flags asleep sz buf n r <= r + Z.of_nat n.
Proof.
  induction n as [|n IH] in buf, r |- *; simpl; intros Hr Hn; [lia|].
  destruct (negb _); [specialize (IH (drop sz buf) r)|rewrite u32_small by lia; specialize (IH (drop sz buf) (r + 1))]; lia.
Qed.
