(* ===== verification/LoadAvg.v ===== *)
(** * The readers of /proc/loadavg (src/linux/load.c, src/posix/manager.c)

    [linux_get_kse_count], which is kept in the source under DEADWOOD, and the [getloadavg]
    that manager.c defines for Android.  As in Platform.v the buffer on the stack is an
    argument: neither function terminates what it has read. *)

From Stdlib Require Import ZArith Lia QArith String.
From stdpp Require Import base gmap list.
From S2P Require Import Prelude Types Platform ManagerLoop.
Import Platform.Linux.
#[local] Open Scope Z_scope.

(** ** [linux_get_kse_count] *)

(** [strchr] on a buffer: the offset of the character, or that the string ends before it. *)
Fixpoint strchr (buf : text) (c : Z) : outcome (option nat) :=
  match buf with
  | [] => Faults
  | x :: buf => if x =? c then Ok (Some 0%nat) else if x =? 0 then Ok None
                else let* r := strchr buf c in Ok (S <$> r)
  end.

(** [p--; while ( *p != ' ') p--;] from offset [p]: the offset of the space; before the
    buffer there is none. *)
Fixpoint back_to_space (buf : text) (p : nat) : outcome nat :=
  match p with
  | O => Faults
  | S p => let* c := deref (buf !! p) in if c =? 32 then Ok p else back_to_space buf p
  end.

Definition linux_get_kse_count (opened : bool) (stack : text) (data : option text) : outcome Z :=
  if negb opened then Ok (u32 (-1))
  else
    let (len, buf) := read_into stack data in
    if len <? 0 then Ok (u32 (-1))
    else
      let* p := strchr buf 47 in
      match p with
      | None => Ok (u32 (-1))
      | Some p =>
          let buf := <[p := 0]> buf in
          let* q := back_to_space buf p in
          let* arg := c_string (drop (S q) buf) in
          Ok (u32 (atoi arg))
      end.

(** ** [getloadavg] of Android *)

Section Android.
(** The number at the start of a text as [sscanf] reads it with ["%lf "], if there is one. *)
Context (scan_lf : text -> option Q).

(** The return value, and what is written to [loadavg[0]]. *)
Definition getloadavg (nelem : Z) (opened : bool) (stack : text) (data : option text) : outcome (Z * option Q) :=
  if negb (nelem =? 1) then Ok (-1, None)
  else if negb opened then Ok (-1, None)
  else
    let (len, buf) := read_into stack data in
    if len <? 0 then Ok (-1, None)
    else
      let* s := c_string buf in
      match scan_lf s with
      | None => Ok (-1, None)
      | Some l => Ok (0, Some l)
      end.

(** [get_runqueue_length] takes any result but 1 for a failure, and this [getloadavg]
    returns 0 when it succeeds: whatever the load is, the run queue length is 1. *)
Theorem android_load_ignored opened stack data rv l :
  getloadavg 1 opened stack data = Ok (rv, l) ->
  (0 <= rv -> exists x, l = Some x) /\ get_runqueue_length (LoadAverage (if rv =? 1 then l else None)) = 1.
Proof.
  unfold getloadavg. simpl. destruct opened; simpl; [|intros [= <- <-]; split; [lia|done]].
  destruct (read_into stack data) as [len buf]. destruct (len <? 0); [intros [= <- <-]; split; [lia|done]|].
  destruct (c_string buf) as [s| | |]; simpl; try done.
  destruct (scan_lf s); intros [= <- <-]; (split; [|done]); [eauto|lia].
Qed.
End Android.

Lemma android_load_ignored_witness :
  exists l, getloadavg (fun _ => Some (5 # 2)%Q) 1 true [0] (Some []) = Ok (0, Some l) /\
    get_runqueue_length (LoadAverage (if 0 =? 1 then Some l else None)) = 1.
Proof.
  exists (5 # 2)%Q. split; [done|].
  by apply (android_load_ignored (fun _ => Some (5 # 2)%Q) true [0] (Some []) 0 (Some (5 # 2)%Q)).
Defined.

(** ** The number of scheduling entities *)

Lemma strchr_app a c b : (c ∉ a) -> (0 ∉ a) -> strchr (a ++ c :: b) c = Ok (Some (length a)).
Proof.
  intros Hc H0. induction a as [|x a IH]; simpl; [by rewrite Z.eqb_refl|].
  rewrite !(proj2 (Z.eqb_neq x _)) by (intros ->; set_solver). by rewrite IH by set_solver.
Qed.

(** Back over characters that are no spaces. *)
Lemma back_over buf k n :
  buf !! k = Some 32 -> (forall j, (k < j <= k + n)%nat -> exists c, buf !! j = Some c /\ c <> 32) ->
  back_to_space buf (S (k + n)) = Ok k.
Proof.
  intros Hk. induction n as [|n IH]; intros Hb.
  - rewrite Nat.add_0_r. simpl. by rewrite Hk.
  - rewrite Nat.add_succ_r. destruct (Hb (S (k + n))) as (c & Hc & Hne); [lia|].
    cbn [back_to_space]. rewrite Hc. cbn [deref obind]. rewrite (proj2 (Z.eqb_neq c 32) Hne).
    apply IH. intros j Hj. apply Hb. lia.
Qed.

(** From the end of [a ++ [32] ++ b] back over [b]. *)
Lemma back_to_space_app a b r : (32 ∉ b) ->
  back_to_space (a ++ 32 :: b ++ r) (length (a ++ 32 :: b)) = Ok (length a).
Proof.
  intros Hb. rewrite length_app. simpl. rewrite Nat.add_succ_r. apply back_over; [by apply list_lookup_middle|].
  intros j Hj. destruct (lookup_lt_is_Some_2 b (j - length a - 1)) as [c Hc]; [lia|]. exists c.
  split; [|intros ->; by apply Hb, (list_elem_of_lookup_2 _ _ _ Hc)].
  rewrite lookup_app_r by lia. replace (j - length a)%nat with (S (j - length a - 1)) by lia. simpl.
  by apply lookup_app_l_Some.
Qed.

Lemma back_to_space_none buf p : (32 ∉ take p buf) -> back_to_space buf p = Faults.
Proof.
  revert buf. induction p as [|p IH]; intros buf Hn; [done|]. simpl. destruct (buf !! p) as [c|] eqn:E; [|done].
  simpl. rewrite (take_S_r _ _ _ E) in Hn. rewrite (proj2 (Z.eqb_neq c 32)) by (intros ->; set_solver). apply IH. set_solver.
Qed.

Lemma span_whole f a : Forall (fun x => f x = true) a -> span f a = (a, []).
Proof. induction 1 as [|x a Hx Ha IH]; simpl; [done|]. by rewrite Hx, IH. Qed.

(** [atoi] of a string that consists of digits. *)
Lemma atoi_whole ds :
  Forall (fun x => isdigit x = true) ds -> ds <> [] -> dec_value ds < 2 ^ 31 -> atoi ds = dec_value ds.
Proof.
  intros Hd Hne Hv. pose proof (dec_value_nonneg _ Hd). unfold atoi, clamp_long, LONG_MAX.
  assert (scan_number ds = (1, ds, [])) as ->; [|rewrite s32_small; lia].
  destruct ds as [|d ds]; [done|]. pose proof (Forall_inv Hd) as H0. unfold isdigit in H0.
  apply andb_true_iff in H0 as [H1%Z.leb_le H2%Z.leb_le]. unfold scan_number. rewrite skip_nonspace.
  - destruct (Z.eqb_spec d 45); [lia|]. destruct (Z.eqb_spec d 43); [lia|]. by rewrite span_whole.
  - unfold isspace. destruct (Z.eqb_spec d 32); [lia|]. destruct (Z.leb_spec d 13); [lia|]. by rewrite andb_false_r.
Qed.

(** [linux_get_kse_count] on a line of the form "... n/m ...": the number before the first
    slash; and when no space comes before the slash the search runs off the front of the
    buffer. *)
Theorem kse_count_reads stack pre ds rest :
  Forall (fun c => isdigit c = true) ds -> ds <> [] -> dec_value ds < 2 ^ 31 ->
  (47 ∉ pre) -> (0 ∉ pre) ->
  linux_get_kse_count true stack (Some (pre ++ 32 :: ds ++ 47 :: rest)) = Ok (dec_value ds) /\
  ((32 ∉ pre) -> linux_get_kse_count true stack (Some (pre ++ 47 :: rest)) = Faults).
Proof.
  intros Hd Hne Hv Hs H0.
  assert (Hdig : forall c, isdigit c = false -> c ∉ ds).
  { intros c Hc Hin. rewrite Forall_forall in Hd. by rewrite (Hd c Hin) in Hc. }
  unfold linux_get_kse_count, read_into. simpl. rewrite !(proj2 (Z.ltb_ge _ _)) by lia. split.
  - set (tl := drop _ stack). rewrite app_comm_cons, !app_assoc, <- (app_assoc _ (47 :: rest)). simpl.
    rewrite strchr_app. 
    2:{ rewrite elem_of_app, elem_of_cons. intros [?|[?|?]]; [done|done|by apply (Hdig 47)]. }
    2:{ rewrite elem_of_app, elem_of_cons. intros [?|[?|?]]; [done|done|by apply (Hdig 0)]. }
    simpl.
    rewrite insert_app_r_alt, Nat.sub_diag by done. simpl. rewrite <- app_assoc, <- app_comm_cons.
    rewrite (back_to_space_app pre ds (0 :: rest ++ tl)) by (by apply Hdig). simpl.
    replace (S (length pre)) with (length (pre ++ [32])) by (rewrite length_app; simpl; lia).
    change (pre ++ 32 :: ds ++ 0 :: rest ++ tl) with (pre ++ [32] ++ (ds ++ 0 :: rest ++ tl)).
    rewrite app_assoc, drop_app_length, c_string_app by (by apply Hdig). simpl.
    rewrite app_nil_r, atoi_whole by done. f_equal. apply u32_small. pose proof (dec_value_nonneg _ Hd). lia.
  - intros Hn. rewrite <- app_assoc. simpl. rewrite strchr_app by done. simpl.
    rewrite insert_app_r_alt, Nat.sub_diag by done. rewrite back_to_space_none; [done|]. by rewrite take_app_length.
Qed.

(** A line as proc(5) shows it. *)
Example kse_count_line :
  linux_get_kse_count true (replicate 100 7) (Some (codes "0.20 0.18 0.12 3/80 11206")) = Ok 3.
Proof. by vm_compute. Qed.
