(* ===== verification/Priority.v ===== *)
(** * The priority of worker threads

    [worker_main] of src/posix/manager.c follows the priority of the queue its item came
    from when [PWQ_RT_THREADS] is set; what setting a priority means is in the
    [thread_rt.c] of each system. *)

From stdpp Require Import base list.
From Stdlib Require Import ZArith Lia.
From S2P Require Import Prelude Types.

(** ** Setting a priority *)

(** The scheduling classes of Solaris that the code names. *)
Inductive sched_class := TS | FX.

#[global] Instance sched_class_eq_dec : EqDecision sched_class.
Proof. solve_decision. Defined.

(** The class asked for with [priocntl]; [None]: no call. *)
Definition solaris_set_priority (priority : Z) : option sched_class :=
  if priority =? WORKQ_LOW_PRIOQUEUE then Some TS
  else if priority =? WORKQ_DEFAULT_PRIOQUEUE then Some TS
  else if priority =? WORKQ_HIGH_PRIOQUEUE then Some FX
  else None.

(** Linux, other POSIX systems and Windows do nothing. *)
Definition linux_set_priority (priority : Z) : option sched_class := None.
Definition posix_set_priority (priority : Z) : option sched_class := None.
Definition windows_set_priority (priority : Z) : option sched_class := None.

(** The class of a thread after a call. *)
Definition apply_class (answer : option sched_class) (c : sched_class) : sched_class := default c answer.

(** ** The worker's loop *)

Section Worker.
Context (PWQ_RT_THREADS : bool).
(** [ptwq_set_current_thread_priority] of the system. *)
Context (set_priority : Z -> option sched_class).

(** One turn after an item with the queue priority [prio] was found: the new
    [current_thread_priority], the class of the thread, and whether a call was made. *)
Definition worker_turn (prio : Z) (cur : Z) (c : sched_class) : Z * sched_class * bool :=
  if PWQ_RT_THREADS && negb (cur =? prio) then (prio, apply_class (set_priority prio) c, true)
  else (cur, c, false).

(** The items a worker executes, by priority: for each of them the thread's priority and
    class while it runs; and the number of calls. *)
Fixpoint worker_run (prios : list Z) (cur : Z) (c : sched_class) (calls : Z)
  : list (Z * Z * sched_class) * Z :=
  match prios with
  | [] => ([], calls)
  | p :: prios =>
      let '(cur, c, call) := worker_turn p cur c in
      let '(log, n) := worker_run prios cur c (calls + (if call then 1 else 0)) in
      ((p, cur, c) :: log, n)
  end.

(** How often consecutive priorities differ. *)
Fixpoint changes (cur : Z) (prios : list Z) : Z :=
  match prios with [] => 0 | p :: prios => (if cur =? p then 0 else 1) + changes p prios end.

(** The class a priority should have. *)
Definition class_for (p : Z) (c : sched_class) : Prop := forall c', set_priority p = Some c' -> c = c'.

(** With [PWQ_RT_THREADS] every item runs at the priority of its queue, in the
    scheduling class the system has for it once the thread has changed its priority, and
    the system is called exactly when the priority changes; without, never. *)
Theorem worker_follows_priority prios cur c calls :
  class_for cur c ->
  let '(log, n) := worker_run prios cur c calls in
  map (fun e => e.1.1) log = prios /\
  (PWQ_RT_THREADS = true -> n = calls + changes cur prios /\
     Forall (fun e => e.1.2 = e.1.1 /\ class_for e.1.1 e.2) log) /\
  (PWQ_RT_THREADS = false -> n = calls /\ Forall (fun e => e.1.2 = cur /\ e.2 = c) log).
Proof.
  revert cur c calls. induction prios as [|p prios IH]; intros cur c calls Hc; simpl.
  { split_and!; [done|intros _; split; [lia|constructor]|intros _; split; [done|constructor]]. }
  unfold worker_turn. destruct PWQ_RT_THREADS eqn:Hrt; simpl.
  - destruct (Z.eqb_spec cur p) as [->|Hne]; simpl.
    + specialize (IH p c (calls + 0) Hc). destruct (worker_run prios p c (calls + 0)) as [log n].
      destruct IH as (H1 & H2 & _). destruct (H2 eq_refl) as [-> HF].
      split_and!; [simpl; by f_equal| |done]. intros _. split; [lia|]. by constructor.
    + assert (Hc' : class_for p (apply_class (set_priority p) c)) by (intros c' E; by rewrite E).
      specialize (IH p _ (calls + 1) Hc'). destruct (worker_run prios p _ (calls + 1)) as [log n].
      destruct IH as (H1 & H2 & _). destruct (H2 eq_refl) as [-> HF].
      split_and!; [simpl; by f_equal| |done]. intros _. split; [lia|]. by constructor.
  - specialize (IH cur c (calls + 0) Hc). destruct (worker_run prios cur c (calls + 0)) as [log n].
    destruct IH as (H1 & _ & H3). destruct (H3 eq_refl) as [-> HF].
    split_and!; [simpl; by f_equal|done|]. intros _. split; [lia|]. by constructor.
Qed.
End Worker.

Lemma worker_follows_priority_witness :
  class_for solaris_set_priority WORKQ_DEFAULT_PRIOQUEUE TS /\
  snd (worker_run true solaris_set_priority [1; 0; 0; 2] WORKQ_DEFAULT_PRIOQUEUE TS 0) = 2.
Proof.
  assert (H : class_for solaris_set_priority WORKQ_DEFAULT_PRIOQUEUE TS) by by intros c' [= <-].
  split; [exact H|].
  pose proof (worker_follows_priority true solaris_set_priority [1; 0; 0; 2] WORKQ_DEFAULT_PRIOQUEUE TS 0 H) as G.
  destruct (worker_run true solaris_set_priority [1; 0; 0; 2] WORKQ_DEFAULT_PRIOQUEUE TS 0) as [log n].
  simpl. exact (proj1 (proj1 (proj2 G) eq_refl)).
Defined.
