(* ===== verification/Signals.v ===== *)
(** * The signal masks of the library's threads (src/posix/manager.c)

    Every thread of the library calls [sigmask_init] before it does anything else that is
    visible to clients, and a new thread inherits the mask of its creator.  The workers are
    created by the manager thread, the manager and the overcommit workers by the threads of
    clients. *)

From stdpp Require Import base gmap list.
From Stdlib Require Import ZArith Lia.
From S2P Require Import Prelude.

(** ** [sigmask_init] *)

(** The signals of a system: all of them, and the numbers of those the code names.
    [SIGEMT] is missing on some; where [SIGUNUSED] is another name of [SIGSYS] it is
    the same number. *)
Record signals := Signals {
  sig_all : gset Z;
  SIGILL : Z; SIGTRAP : Z; SIGEMT : option Z; SIGFPE : Z; SIGBUS : Z; SIGSEGV : Z;
  SIGSYS : Z; SIGUNUSED : Z; SIGPIPE : Z; SIGPROF : Z
}.

Definition sigdelset (s : Z) (m : gset Z) : gset Z := m ∖ {[s]}.

(** The set that [sigmask_init] builds. *)
Definition sigmask (g : signals) : gset Z :=
  let m := sig_all g in
  let m := sigdelset (SIGILL g) m in
  let m := sigdelset (SIGTRAP g) m in
  let m := match SIGEMT g with Some s => sigdelset s m | None => m end in
  let m := sigdelset (SIGFPE g) m in
  let m := sigdelset (SIGBUS g) m in
  let m := sigdelset (SIGSEGV g) m in
  let m := if negb (SIGSYS g =? SIGUNUSED g) then sigdelset (SIGSYS g) m else m in
  let m := sigdelset (SIGPIPE g) m in
  sigdelset (SIGPROF g) m.

(** [pthread_sigmask(SIG_BLOCK, &sigmask, NULL)] on the mask of the thread. *)
Definition sigmask_init (g : signals) (mask : gset Z) : gset Z := mask ∪ sigmask g.

(** ** Threads and their masks *)

(** A thread of a client; the manager, a worker, an overcommit worker, each before its
    [sigmask_init] and after. *)
Inductive role := Client | Manager (ready : bool) | Worker (ready : bool) | Overcommit (ready : bool).

Definition masks := gmap nat (role * gset Z).

(** Who may submit work to an overcommit queue or create a queue: clients, and the items
    that workers execute. *)
Definition calls_library (r : role) : bool :=
  match r with Client | Worker true | Overcommit true => true | _ => false end.

Inductive sig_step (g : signals) (m : masks) : masks -> Prop :=
| SgClient t old new : m !! t = Some (Client, old) -> sig_step g m (<[t:=(Client, new)]> m)
| SgManager t t' r mask :                       (* manager_start *)
    m !! t = Some (r, mask) -> calls_library r = true -> m !! t' = None ->
    sig_step g m (<[t':=(Manager false, mask)]> m)
| SgWorker t t' mask :                          (* worker_start *)
    m !! t = Some (Manager true, mask) -> m !! t' = None ->
    sig_step g m (<[t':=(Worker false, mask)]> m)
| SgOvercommit t t' r mask :                    (* manager_workqueue_additem *)
    m !! t = Some (r, mask) -> calls_library r = true -> m !! t' = None ->
    sig_step g m (<[t':=(Overcommit false, mask)]> m)
| SgManagerInit t mask : m !! t = Some (Manager false, mask) ->
    sig_step g m (<[t:=(Manager true, sigmask_init g mask)]> m)
| SgWorkerInit t mask : m !! t = Some (Worker false, mask) ->
    sig_step g m (<[t:=(Worker true, sigmask_init g mask)]> m)
| SgOvercommitInit t mask : m !! t = Some (Overcommit false, mask) ->
    sig_step g m (<[t:=(Overcommit true, sigmask_init g mask)]> m)
| SgExit t : sig_step g m (delete t m).

Definition sig_initial (m : masks) : Prop := forall t r mask, m !! t = Some (r, mask) -> r = Client.
Definition sig_reachable (g : signals) (m : masks) : Prop := exists m0, sig_initial m0 /\ rtc (sig_step g) m0 m.

(** ** Properties *)

Lemma sigmask_spec g s :
  s ∈ sigmask g <->
  s ∈ sig_all g /\ s <> SIGILL g /\ s <> SIGTRAP g /\ SIGEMT g <> Some s /\ s <> SIGFPE g /\ s <> SIGBUS g /\
  s <> SIGSEGV g /\ (s = SIGSYS g -> SIGSYS g = SIGUNUSED g) /\ s <> SIGPIPE g /\ s <> SIGPROF g.
Proof.
  unfold sigmask, sigdelset. destruct (SIGEMT g) as [e|], (Z.eqb_spec (SIGSYS g) (SIGUNUSED g)); simpl; set_solver.
Qed.

(** The threads that must have every asynchronous signal blocked. *)
Definition shielded (r : role) : bool :=
  match r with Manager true | Worker _ | Overcommit true => true | _ => false end.

Lemma sig_step_inv g m m' :
  sig_step g m m' -> (forall t r k, m !! t = Some (r, k) -> shielded r = true -> sigmask g ⊆ k) ->
  forall t r k, m' !! t = Some (r, k) -> shielded r = true -> sigmask g ⊆ k.
Proof.
  intros Hst Hinv t r k.
  assert (Hin : forall old, sigmask g ⊆ sigmask_init g old) by (unfold sigmask_init; set_solver).
  destruct Hst; try (intros [[-> E]|[_ Hx]]%lookup_insert_Some Hs; [simplify_eq|by eapply Hinv]); try done;
    try (by apply Hin); try (by eapply Hinv).
  intros [_ Hx]%lookup_delete_Some Hs. by eapply Hinv.
Qed.

(** Signals aimed at the process never run on the library's workers.  In every reachable
    state a worker, from its creation on (also before its own [sigmask_init], since the
    manager has called it), the manager and the overcommit workers after theirs block every
    signal but those a thread causes itself ([SIGILL], [SIGTRAP], [SIGEMT], [SIGFPE],
    [SIGBUS], [SIGSEGV], [SIGPIPE], [SIGPROF]); [SIGSYS] is among the exceptions only where
    it differs from [SIGUNUSED].  [sigmask_init] unblocks nothing that was blocked. *)
Theorem workers_mask_signals g m t r mask s :
  sig_reachable g m -> m !! t = Some (r, mask) -> shielded r = true -> s ∈ sig_all g ->
  (s ∈ mask \/ s = SIGILL g \/ s = SIGTRAP g \/ SIGEMT g = Some s \/ s = SIGFPE g \/ s = SIGBUS g \/
   s = SIGSEGV g \/ (s = SIGSYS g /\ SIGSYS g <> SIGUNUSED g) \/ s = SIGPIPE g \/ s = SIGPROF g) /\
  mask ⊆ sigmask_init g mask.
Proof.
  intros (m0 & H0 & Hr) Hx Hs Hall. split; [|unfold sigmask_init; set_solver].
  assert (Hinv : forall t r k, m !! t = Some (r, k) -> shielded r = true -> sigmask g ⊆ k).
  { assert (H1 : forall t r k, m0 !! t = Some (r, k) -> shielded r = true -> sigmask g ⊆ k).
    { intros t' r' k' H1 H2. by rewrite (H0 t' r' k' H1) in H2. }
    clear Hx Hs H0. revert H1. induction Hr as [|m0 m1 m2 Hst _ IH]; intros H1; [done|].
    apply IH. by apply (sig_step_inv g m0). }
  specialize (Hinv t r mask Hx Hs). destruct (decide (s ∈ mask)) as [|Hn]; [by left|right].
  assert (Hn' : s ∉ sigmask g) by set_solver. rewrite sigmask_spec in Hn'.
  match goal with |- ?G => destruct (decide G) as [|Hc]; [done|exfalso; apply Hn'] end.
  split_and!; [done|intros E..]; try (apply Hc; auto 12; fail).
  destruct (decide (SIGSYS g = SIGUNUSED g)); [done|]. destruct Hc. auto 12.
Qed.

(** Linux on x86: 64 signals, no SIGEMT, SIGUNUSED is SIGSYS. *)
Definition linux_signals : signals :=
  Signals (list_to_set (map Z.of_nat (seq 1 64))) 4 5 None 8 7 11 31 31 13 27.

(** There [SIGSYS], which a thread causes itself, stays blocked; and an overcommit worker
    inherits the mask of the client and has it until its [sigmask_init]. *)
Theorem signal_gaps :
  SIGSYS linux_signals ∈ sigmask_init linux_signals ∅ /\
  exists m, sig_reachable linux_signals m /\ m !! 2%nat = Some (Overcommit false, ∅).
Proof.
  split.
  - unfold sigmask_init. apply elem_of_union. right. refine (bool_decide_eq_true_1 _ _). by vm_compute.
  - exists (<[2%nat:=(Overcommit false, ∅)]> {[1%nat := (Client, ∅)]}). split; [|done].
    exists {[1%nat := (Client, ∅)]}. split.
    + intros t r mask [_ [= <- _]]%lookup_singleton_Some. done.
    + apply rtc_once. by eapply (SgOvercommit _ _ 1 2 Client ∅).
Qed.

Lemma workers_mask_signals_witness :
  let m0 : masks := {[1%nat := (Client, ∅)]} in
  let m : masks := <[2%nat:=(Manager true, sigmask_init linux_signals ∅)]> (<[2%nat:=(Manager false, ∅)]> m0) in
  sig_reachable linux_signals m /\ 15 ∈ sigmask_init linux_signals ∅.
Proof.
  intros m0 m. assert (Hr : sig_reachable linux_signals m).
  { exists m0. split.
    - intros t r mask [_ [= <- _]]%lookup_singleton_Some. done.
    - eapply rtc_l; [by apply (SgManager linux_signals m0 1 2 Client ∅)|].
      apply rtc_once. by apply SgManagerInit. }
  split; [exact Hr|].
  destruct (workers_mask_signals linux_signals m 2 (Manager true) (sigmask_init linux_signals ∅) 15 Hr) as [Hd _];
    [reflexivity|reflexivity|refine (bool_decide_eq_true_1 _ _); by vm_compute|].
  repeat destruct Hd as [Hd|Hd]; done.
Defined.
