(* ===== verification/WinManager.v ===== *)
(** * The thread pool of Windows XP

    The first half of src/windows/manager.c: work queues in one list per priority, each
    submission followed by one [QueueUserWorkItem(worker_main)], and a [worker_main] that
    scans the queues for one item.  Submitters, callbacks and the creation of queues
    interleave at the granularity of the locks: a scan holds [wqlist_mtx] for reading
    (WinSync.v), the creation of a queue holds it for writing, and one look at a queue or
    one insertion is one step, as the queue's own lock is meant to make it.  This is the
    specification of the pool; WinQueueLock.v has the locks of the queues and shows when
    the code with its locks implements it.  A callback may look at a queue before an item
    is inserted there, and no item is left behind for that. *)

From stdpp Require Import base gmap list.
From Stdlib Require Import ZArith Lia.
From S2P Require Import Prelude Types.

(** ** State *)

Inductive callback :=
| CbPromised                 (* inserted, QueueUserWorkItem not yet called *)
| CbQueued                   (* in the queue of the system's pool *)
| CbScan (rest : list nat)   (* wqlist_scan, wqlist_mtx held for reading: queues to look at *)
| CbOut (witem : option nat) (* out: pthread_rwlock_unlock(&wqlist_mtx) *)
| CbRun (witem : nat).       (* witem->func(witem->func_arg) *)

Record xp_state := Xp {
  xp_wqlist : list (list nat);       (* wqlist[], by priority; queues by number *)
  xp_items : gmap nat (list nat);    (* item_listhead of each queue *)
  xp_cbs : gmap nat callback;        (* one per submission that is not done *)
  xp_submitted : list nat;           (* history: items submitted, items executed *)
  xp_executed : list nat
}.

Definition manager_init : xp_state := Xp (replicate (Z.to_nat WORKQ_NUM_PRIOQUEUE) []) ∅ ∅ [] [].

(** The order in which [wqlist_scan] visits the queues. *)
Definition scan_order (s : xp_state) : list nat := concat (xp_wqlist s).

Definition content (s : xp_state) (q : nat) : list nat := default [] (xp_items s !! q).

(** ** Operations *)

(** [LIST_INSERT_HEAD(&wqlist[workq->queueprio], workq, wqlist_entry)] under the lock of the
    list.  (The initialisation of the queue's lock that follows is in WinQueueLock.v.) *)
Definition manager_workqueue_create (q : nat) (prio : nat) (s : xp_state) : option xp_state :=
  match xp_wqlist s !! prio with
  | None => None
  | Some l => Some (Xp (<[prio := q :: l]> (xp_wqlist s)) (<[q := []]> (xp_items s)) (xp_cbs s)
                       (xp_submitted s) (xp_executed s))
  end.

(** The critical section of [manager_workqueue_additem]; the call of QueueUserWorkItem
    that follows is the step of the promised callback. *)
Definition manager_workqueue_additem (q witem c : nat) (s : xp_state) : xp_state :=
  Xp (xp_wqlist s) (<[q := content s q ++ [witem]]> (xp_items s)) (<[c := CbPromised]> (xp_cbs s))
     (xp_submitted s ++ [witem]) (xp_executed s).

(** The body of the loop of [wqlist_scan] for one queue: the queue after it, and what the
    scan does next. *)
Definition wqlist_scan (rest : list nat) (item_listhead : list nat) : list nat * callback :=
  match item_listhead with
  | [] => ([], CbScan rest)
  | witem :: more => (more, CbOut (Some witem))
  end.

Definition set_cb (c : nat) (x : callback) (s : xp_state) : xp_state :=
  Xp (xp_wqlist s) (xp_items s) (<[c := x]> (xp_cbs s)) (xp_submitted s) (xp_executed s).
Definition end_cb (c : nat) (done : list nat) (s : xp_state) : xp_state :=
  Xp (xp_wqlist s) (xp_items s) (delete c (xp_cbs s)) (xp_submitted s) (xp_executed s ++ done).

(** One step of the callback [c], which is at [x]: up to and including [worker_main]. *)
Definition worker_main (c : nat) (x : callback) (s : xp_state) : xp_state :=
  match x with
  | CbPromised => set_cb c CbQueued s
  | CbQueued => set_cb c (CbScan (scan_order s)) s
  | CbScan [] => set_cb c (CbOut None) s
  | CbScan (q :: rest) =>
      let (l, x') := wqlist_scan rest (content s q) in
      Xp (xp_wqlist s) (<[q := l]> (xp_items s)) (<[c := x']> (xp_cbs s)) (xp_submitted s) (xp_executed s)
  | CbOut None => end_cb c [] s
  | CbOut (Some witem) => set_cb c (CbRun witem) s
  | CbRun witem => end_cb c [witem] s
  end.

(** A callback that holds [wqlist_mtx] for reading. *)
Definition holds_rdlock (x : callback) : bool := match x with CbScan _ | CbOut _ => true | _ => false end.

Inductive xp_step (s : xp_state) : xp_state -> Prop :=
| XpCreate q prio s' :
    xp_items s !! q = None -> (forall c x, xp_cbs s !! c = Some x -> holds_rdlock x = false) ->
    manager_workqueue_create q prio s = Some s' -> xp_step s s'
| XpAdditem q witem c :
    is_Some (xp_items s !! q) -> xp_cbs s !! c = None -> xp_step s (manager_workqueue_additem q witem c s)
| XpWorker c x : xp_cbs s !! c = Some x -> xp_step s (worker_main c x s).

(** ** Invariant *)

(** A callback that has not looked at the last queue before the suffix [S] of the scan
    order, and so is certain to look at some queue before [S] it has not looked at yet. *)
Definition can_reach (S : nat) (x : callback) : Z :=
  match x with
  | CbPromised | CbQueued => 1
  | CbScan r => if (S <? length r)%nat then 1 else 0
  | _ => 0
  end.

Definition load (s : xp_state) (P : list nat) : Z := lsum (fun q => Z.of_nat (length (content s q))) P.

(** Copies of an item that a callback carries. *)
Definition carries (w : nat) (x : callback) : Z :=
  match x with CbOut (Some v) | CbRun v => if decide (w = v) then 1 else 0 | _ => 0 end.
Definition queued (w : nat) (s : xp_state) : Z := lsum (fun q => occ w (content s q)) (scan_order s).

Record xp_inv (s : xp_state) : Prop := {
  xi_nodup : NoDup (scan_order s);
  xi_dom q : is_Some (xp_items s !! q) <-> q ∈ scan_order s;
  xi_suffix c r : xp_cbs s !! c = Some (CbScan r) -> exists P, scan_order s = P ++ r;
  xi_reach P S : scan_order s = P ++ S -> load s P <= msum (can_reach (length S)) (xp_cbs s);
  xi_once w : occ w (xp_submitted s) = occ w (xp_executed s) + queued w s + msum (carries w) (xp_cbs s)
}.

(** ** Lemmas *)

Lemma lsum_change f g (q : nat) P :
  NoDup P -> (forall q', q' <> q -> g q' = f q') ->
  lsum g P = lsum f P + (if decide (q ∈ P) then g q - f q else 0).
Proof.
  induction 1 as [|a P Ha _ IH]; intros Hg; simpl; [done|]. rewrite (IH Hg).
  destruct (decide (a = q)) as [->|Hne].
  - rewrite decide_False by done. rewrite decide_True by (by left). lia.
  - rewrite Hg by done. destruct (decide (q ∈ P)) as [Hi|Hi].
    + rewrite decide_True by (by right). lia.
    + rewrite decide_False; [lia|]. rewrite elem_of_cons. naive_solver.
Qed.

Lemma content_insert s q l q' cbs sub ex lists :
  content (Xp lists (<[q:=l]> (xp_items s)) cbs sub ex) q' = if decide (q = q') then l else content s q'.
Proof.
  unfold content. simpl. destruct (decide (q = q')) as [->|]; [by rewrite lookup_insert_eq|].
  by rewrite lookup_insert_ne.
Qed.

(** One queue's content changes. *)
Lemma lsum_content (f : list nat -> Z) s q l P cbs sub ex lists :
  NoDup P ->
  lsum (fun q' => f (content (Xp lists (<[q:=l]> (xp_items s)) cbs sub ex) q')) P =
  lsum (fun q' => f (content s q')) P + (if decide (q ∈ P) then f l - f (content s q) else 0).
Proof.
  intros Hn. rewrite (lsum_change (fun q' => f (content s q')) _ q);
    [|done|intros q' Hq; by rewrite content_insert, decide_False by congruence].
  rewrite content_insert. by rewrite (decide_True _ _ eq_refl).
Qed.

Lemma can_reach_01 S x : 0 <= can_reach S x <= 1.
Proof. destruct x; simpl; try destruct (_ <? _)%nat; lia. Qed.
Lemma can_reach_mono S S' x : (S' <= S)%nat -> can_reach S x <= can_reach S' x.
Proof. destruct x; simpl; try lia. destruct (Nat.ltb_spec S (length rest)), (Nat.ltb_spec S' (length rest)); lia. Qed.
Lemma carries_nonneg w x : 0 <= carries w x.
Proof. destruct x as [| | |[]|]; simpl; try destruct (decide _); lia. Qed.

Lemma dom_of_insert s q l q' : xp_inv s -> q ∈ scan_order s ->
  is_Some (<[q:=l]> (xp_items s) !! q') <-> q' ∈ scan_order s.
Proof.
  intros Hi Hq. rewrite <- (xi_dom _ Hi). destruct (decide (q = q')) as [->|Hne].
  - rewrite lookup_insert_eq. split; [intros _; by apply xi_dom|by eexists].
  - by rewrite lookup_insert_ne.
Qed.

(** ** The steps keep the invariant *)

(** A callback moves from [x] to [y] and leaves the queues alone. *)
Lemma set_cb_inv c x y s :
  xp_inv s -> xp_cbs s !! c = Some x ->
  (forall P S, scan_order s = P ++ S -> P <> [] -> can_reach (length S) x <= can_reach (length S) y) ->
  (forall r, y = CbScan r -> exists P, scan_order s = P ++ r) ->
  (forall w, carries w y = carries w x) -> xp_inv (set_cb c y s).
Proof.
  intros Hi Hx Hr Hs Hc. destruct Hi as [H1 H2 H3 H4 H5]. split; try done; simpl.
  - intros c' r [[<- ->]|[_ H]]%lookup_insert_Some; [by apply Hs|by eapply H3].
  - intros P S HP. change (load (set_cb c y s) P) with (load s P). rewrite (msum_insert _ _ _ _ _ Hx).
    destruct P as [|p P].
    + pose proof (msum_ge (can_reach (length S)) _ _ _ (fun x => proj1 (can_reach_01 _ x)) Hx).
      pose proof (can_reach_01 (length S) y). unfold load. simpl. lia.
    + specialize (H4 _ _ HP). specialize (Hr _ _ HP ltac:(done)). lia.
  - intros w. change (queued w (set_cb c y s)) with (queued w s). rewrite (msum_insert _ _ _ _ _ Hx), Hc, H5. lia.
Qed.

Lemma end_cb_inv c x done s :
  xp_inv s -> xp_cbs s !! c = Some x -> (forall S, can_reach S x = 0) ->
  (forall w, carries w x = occ w done) -> xp_inv (end_cb c done s).
Proof.
  intros Hi Hx Hr Hc. destruct Hi as [H1 H2 H3 H4 H5]. split; try done; simpl.
  - intros c' r [_ H]%lookup_delete_Some. by eapply H3.
  - intros P S HP. specialize (H4 _ _ HP). rewrite (msum_delete _ _ _ _ Hx), Hr in H4.
    change (load (end_cb c done s) P) with (load s P). lia.
  - intros w. change (queued w (end_cb c done s)) with (queued w s).
    rewrite H5, (msum_delete _ _ _ _ Hx), Hc, occ_app. lia.
Qed.

Lemma additem_inv q w c s :
  xp_inv s -> is_Some (xp_items s !! q) -> xp_cbs s !! c = None -> xp_inv (manager_workqueue_additem q w c s).
Proof.
  intros Hi Hq%(xi_dom _ Hi) Hc. pose proof (dom_of_insert s q (content s q ++ [w])) as Hd.
  split; simpl; try by apply Hi.
  - intros q'. by apply Hd.
  - intros c' r [[_ ?]|[_ H]]%lookup_insert_Some; [done|by eapply (xi_suffix _ Hi)].
  - intros P S HP. rewrite (msum_insert_new _ _ _ _ Hc). pose proof (xi_reach _ Hi _ _ HP) as H4.
    pose proof (xi_nodup _ Hi) as Hn. unfold scan_order in Hn, HP. simpl in HP. rewrite HP in Hn. apply NoDup_app in Hn as [Hn _].
    unfold load, manager_workqueue_additem. rewrite (lsum_content (fun l => Z.of_nat (length l))) by done.
    unfold load in H4. rewrite length_app. simpl. case_decide; lia.
  - intros v. rewrite occ_snoc, (xi_once _ Hi), (msum_insert_new _ _ _ _ Hc). unfold queued.
    change (scan_order (manager_workqueue_additem q w c s)) with (scan_order s). unfold manager_workqueue_additem.
    rewrite (lsum_content (occ v)) by apply Hi.
    rewrite (decide_True (P := q ∈ scan_order s)), occ_snoc by done. simpl. lia.
Qed.

Lemma create_order q prio s s' :
  manager_workqueue_create q prio s = Some s' -> scan_order s' ≡ₚ q :: scan_order s.
Proof.
  unfold manager_workqueue_create, scan_order. destruct (xp_wqlist s !! prio) as [l|] eqn:El; [|done].
  intros [= <-]. simpl. revert prio El. induction (xp_wqlist s) as [|a ls IH]; intros [|p] El; simplify_eq/=; [done|].
  rewrite (IH p El). symmetry. apply Permutation_middle.
Qed.

Lemma create_inv q prio s s' :
  xp_inv s -> xp_items s !! q = None -> (forall c x, xp_cbs s !! c = Some x -> holds_rdlock x = false) ->
  manager_workqueue_create q prio s = Some s' -> xp_inv s'.
Proof.
  intros Hi Hq Hh Hcr. pose proof (create_order _ _ _ _ Hcr) as Hp.
  assert (Hnq : (q ∉ scan_order s)) by (rewrite <- (xi_dom _ Hi), Hq; by intros [? ?]).
  assert (Hc : forall q', content s' q' = content s q' /\ (is_Some (xp_items s' !! q') <-> q = q' \/ is_Some (xp_items s !! q')) /\
                 xp_cbs s' = xp_cbs s /\ xp_submitted s' = xp_submitted s /\ xp_executed s' = xp_executed s).
  { intros q'. unfold manager_workqueue_create in Hcr. destruct (xp_wqlist s !! prio); simplify_eq/=.
    rewrite content_insert. simpl. destruct (decide (q = q')) as [->|Hne].
    - unfold content. rewrite Hq, lookup_insert_eq. naive_solver.
    - rewrite lookup_insert_ne by done. naive_solver. }
  assert (Hl : forall f P, lsum (fun q' => f (content s' q')) P = lsum (fun q' => f (content s q')) P).
  { intros f P. induction P as [|a P IH]; simpl; [done|]. rewrite IH. by rewrite (proj1 (Hc a)). }
  assert (Hz : forall f : list nat -> Z, f [] = 0 -> lsum (fun q' => f (content s q')) (q :: scan_order s) =
                 lsum (fun q' => f (content s q')) (scan_order s)).
  { intros f Hf. simpl. unfold content at 1. rewrite Hq. simpl. lia. }
  destruct (Hc q) as (_ & _ & Hcbs & Hsub & Hex). destruct Hi as [H1 H2 H3 H4 H5]. split; rewrite ?Hcbs, ?Hsub, ?Hex.
  - rewrite Hp. by apply NoDup_cons.
  - intros q'. destruct (Hc q') as (_ & -> & _). rewrite Hp, elem_of_cons, H2. naive_solver.
  - intros c r Hx. by specialize (Hh _ _ Hx).
  - intros P S HP. unfold load. rewrite (Hl (fun l => Z.of_nat (length l))).
    transitivity (load s (scan_order s)).
    { unfold load. rewrite <- (Hz (fun l => Z.of_nat (length l))) by done. rewrite <- (lsum_perm _ _ _ Hp), HP, lsum_app.
      pose proof (lsum_nonneg (fun q' => Z.of_nat (length (content s q'))) S (fun _ => Nat2Z.is_nonneg _)). lia. }
    etransitivity; [apply (H4 _ []); by rewrite app_nil_r|]. apply Z.eq_le_incl, msum_ext.
    intros c x Hx. specialize (Hh _ _ Hx). by destruct x.
  - intros w. rewrite H5. unfold queued. rewrite (Hl (occ w)), (lsum_perm _ _ _ Hp), (Hz (occ w)) by done. done.
Qed.

(** The queues before a suffix [S] contain the one a scan looks at next exactly when the
    scan is not yet at [S]. *)
Lemma next_in_prefix {A} (L P S P0 rest : list A) q :
  NoDup L -> L = P ++ S -> L = P0 ++ q :: rest -> (q ∈ P <-> (length S < length (q :: rest))%nat).
Proof.
  intros Hn -> H0. apply NoDup_app in Hn as (_ & Hd & _).
  destruct (app_eq_app _ _ _ _ H0) as [[|x l] [[-> He]|[-> He]]]; simplify_eq/=.
  - rewrite app_nil_r in *. split; [|lia]. intros Hq. destruct (Hd q Hq). by left.
  - split; [|lia]. intros Hq. destruct (Hd q ltac:(by rewrite ?app_nil_r)). by left.
  - rewrite length_app. split; [lia|]. intros _. apply elem_of_app. right. by left.
  - rewrite length_app. simpl. split; [|lia]. intros Hq. destruct (Hd q Hq). right. apply elem_of_app. right. by left.
Qed.

(** A scan that goes past an empty queue is not missed: what lies before the next queue
    lies before the empty one. *)
Lemma empty_scan_reach c q rest s P S :
  xp_inv s -> xp_cbs s !! c = Some (CbScan (q :: rest)) -> content s q = [] -> scan_order s = P ++ S ->
  load s P <= msum (can_reach (length S)) (xp_cbs s)
    - can_reach (length S) (CbScan (q :: rest)) + can_reach (length S) (CbScan rest).
Proof.
  intros Hi Hx Hc HP. destruct (xi_suffix _ Hi _ _ Hx) as [P0 H0]. simpl.
  pose proof (xi_reach _ Hi _ _ HP) as H4.
  destruct (Nat.ltb_spec (length S) (Datatypes.S (length rest))), (Nat.ltb_spec (length S) (length rest)); try lia.
  assert (He : P = P0 ++ [q] /\ S = rest).
  { apply app_inj_2; [lia|]. rewrite <- app_assoc; simpl. by rewrite <- HP. }
  destruct He as [-> ->]. unfold load. rewrite lsum_app. simpl. rewrite Hc. simpl.
  pose proof (xi_reach _ Hi _ _ H0) as H5. unfold load in H5.
  rewrite (msum_delete _ _ _ _ Hx) in H5. rewrite (msum_delete _ _ _ _ Hx). simpl in *.
  rewrite (proj2 (Nat.ltb_ge _ _) (le_n _)) in H5. rewrite (proj2 (Nat.ltb_lt _ _)) by lia.
  assert (msum (can_reach (Datatypes.S (length rest))) (delete c (xp_cbs s)) <= msum (can_reach (length rest)) (delete c (xp_cbs s))).
  { apply msum_le. intros. apply can_reach_mono. lia. }
  lia.
Qed.

Lemma scan_step_inv c q rest s l x' :
  xp_inv s -> xp_cbs s !! c = Some (CbScan (q :: rest)) -> wqlist_scan rest (content s q) = (l, x') ->
  xp_inv (Xp (xp_wqlist s) (<[q := l]> (xp_items s)) (<[c := x']> (xp_cbs s)) (xp_submitted s) (xp_executed s)).
Proof.
  intros Hi Hx Hw. destruct (xi_suffix _ Hi _ _ Hx) as [P0 H0].
  assert (Hq : q ∈ scan_order s) by (rewrite H0; apply elem_of_app; right; by left).
  pose proof (dom_of_insert s q l) as Hd.
  split; simpl; try by apply Hi.
  - intros q'. by apply Hd.
  - intros c' r [[_ ->]|[_ H]]%lookup_insert_Some; [|by eapply (xi_suffix _ Hi)].
    unfold wqlist_scan in Hw. destruct (content s q); simplify_eq. exists (P0 ++ [q]). by rewrite <- app_assoc.
  - intros P S HP. change (scan_order _) with (scan_order s) in HP.
    pose proof (next_in_prefix _ _ _ _ _ _ (xi_nodup _ Hi) HP H0) as Hpos.
    assert (Hn : NoDup P) by (pose proof (xi_nodup _ Hi) as Hn; rewrite HP in Hn; by apply NoDup_app in Hn as [? _]).
    unfold load. rewrite (lsum_content (fun l => Z.of_nat (length l))) by done. cbn beta.
    change (lsum _ P) with (load s P). rewrite (msum_insert _ _ _ _ _ Hx).
    pose proof (xi_reach _ Hi _ _ HP) as H4. unfold wqlist_scan in Hw.
    destruct (content s q) as [|w ws] eqn:Ec; simplify_eq; simpl length in *.
    + pose proof (empty_scan_reach c q rest s P S Hi Hx Ec HP). case_decide; simpl Z.of_nat; lia.
    + simpl. destruct (Nat.ltb_spec (length S) (Datatypes.S (length rest))) as [Hlt|Hge].
      * rewrite decide_True by (by apply Hpos). lia.
      * rewrite decide_False by (rewrite Hpos; lia). lia.
  - intros w. rewrite (xi_once _ Hi), (msum_insert _ _ _ _ _ Hx). unfold queued.
    change (scan_order (Xp _ _ _ _ _)) with (scan_order s). rewrite (lsum_content (occ w)) by apply Hi.
    rewrite (decide_True (P := q ∈ scan_order s)) by done. unfold wqlist_scan in Hw.
    destruct (content s q) as [|v ws]; simplify_eq; simpl carries; [lia|]. rewrite occ_cons. lia.
Qed.

Lemma worker_inv c x s : xp_inv s -> xp_cbs s !! c = Some x -> xp_inv (worker_main c x s).
Proof.
  intros Hi Hx. destruct x as [| |[|q rest]|[w|]|w]; simpl.
  - by apply (set_cb_inv _ _ _ _ Hi Hx).
  - apply (set_cb_inv _ _ _ _ Hi Hx); [|intros r [= ->]; by exists []|done].
    intros P S HP Hne. simpl. rewrite HP, length_app. destruct P; [done|]. simpl.
    destruct (Nat.ltb_spec (length S) (Datatypes.S (length P + length S))); lia.
  - apply (set_cb_inv _ _ _ _ Hi Hx); [|done..]. intros P S _ _. simpl. by destruct (length S).
  - destruct (wqlist_scan rest (content s q)) as [l x'] eqn:Ew. by eapply scan_step_inv.
  - by apply (set_cb_inv _ _ _ _ Hi Hx).
  - by apply (end_cb_inv _ _ _ _ Hi Hx).
  - apply (end_cb_inv _ _ _ _ Hi Hx); [done|]. intros v. unfold occ, lsum. simpl. lia.
Qed.

Lemma xp_reachable_inv s : rtc xp_step manager_init s -> xp_inv s.
Proof.
  assert (Hi : xp_inv manager_init).
  { split; simpl; try done; [apply NoDup_nil_2|intros q; by rewrite lookup_empty, <- not_eq_None_Some, elem_of_nil|].
    intros P S HP. symmetry in HP. apply app_eq_nil in HP as [-> _]. by rewrite msum_empty. }
  intros Hr. induction Hr as [|s0 s1 s2 Hst _ IH] in Hi |- *; [done|]. apply IH.
  destruct Hst; [by eapply create_inv|by apply additem_inv|by apply worker_inv].
Qed.

(** The atomic pool leaves no item behind, although a scan gives up after one
    pass and may have passed a queue before an item came in: there are always at least as
    many callbacks that have yet to finish their scan as items in the queues, so that once
    the callbacks are done the queues are empty and the executed items are the submitted
    ones, each once. *)
Theorem xp_no_item_left_behind s :
  rtc xp_step manager_init s ->
  load s (scan_order s) <= msum (can_reach 0) (xp_cbs s) /\
  (forall w, occ w (xp_executed s) <= occ w (xp_submitted s)) /\
  (xp_cbs s = ∅ -> (forall q, content s q = []) /\ xp_executed s ≡ₚ xp_submitted s).
Proof.
  intros Hr%xp_reachable_inv.
  assert (Hl : load s (scan_order s) <= msum (can_reach 0) (xp_cbs s)) by (apply (xi_reach _ Hr _ []); by rewrite app_nil_r).
  split_and!; [done| |].
  - intros w. rewrite (xi_once _ Hr). pose proof (msum_nonneg (carries w) (xp_cbs s) (carries_nonneg w)).
    pose proof (lsum_nonneg (fun q => occ w (content s q)) (scan_order s) (fun _ => occ_nonneg _ _)). unfold queued. lia.
  - intros He. rewrite He, msum_empty in Hl.
    assert (Hc : forall q, content s q = []).
    { intros q. destruct (decide (q ∈ scan_order s)) as [Hq|Hq].
      - pose proof (lsum_ge (fun q' => Z.of_nat (length (content s q'))) _ q (fun _ => Nat2Z.is_nonneg _) Hq) as Hg.
        cbn beta in Hg. unfold load in Hl. destruct (content s q); [done|]. simpl in Hg. lia.
      - rewrite <- (xi_dom _ Hr) in Hq. unfold content. destruct (xp_items s !! q); [|done]. destruct Hq. eauto. }
    split; [done|]. apply occ_same. intros w. rewrite (xi_once _ Hr), He, msum_empty. unfold queued.
    rewrite lsum_const0; [lia|]. intros q _. by rewrite Hc.
Qed.

(** Two queues; the callback of the first item has passed the queue of high priority when
    a second item comes in there, and takes its own; the second callback takes the other. *)
Definition ex_xp : xp_state := Xp [[1%nat]; []; [0%nat]; []; []; []] {[0%nat := []; 1%nat := []]} ∅ [5; 6]%nat [6; 5]%nat.

Lemma ex_xp_reachable : rtc xp_step manager_init ex_xp.
Proof.
  eapply rtc_l; [by eapply (XpCreate _ 0 2)|]. eapply rtc_l; [by eapply (XpCreate _ 1 0)|].
  eapply rtc_l; [apply (XpAdditem _ 0 5 0); [by exists []|done]|].
  do 3 (eapply rtc_l; [eapply (XpWorker _ 0); by vm_compute|]).
  eapply rtc_l; [apply (XpAdditem _ 1 6 1); [by exists []|done]|].
  do 5 (eapply rtc_l; [eapply (XpWorker _ 1); by vm_compute|]).
  do 3 (eapply rtc_l; [eapply (XpWorker _ 0); by vm_compute|]).
  match goal with |- rtc _ ?s _ => replace s with ex_xp by (by vm_compute) end. constructor.
Qed.

Lemma xp_no_item_left_behind_witness :
  rtc xp_step manager_init ex_xp /\ (forall q, content ex_xp q = []) /\ xp_executed ex_xp ≡ₚ xp_submitted ex_xp.
Proof.
  split; [exact ex_xp_reachable|].
  exact (proj2 (proj2 (xp_no_item_left_behind ex_xp ex_xp_reachable)) eq_refl).
Defined.
