(* ===== verification/WinQueueLock.v ===== *)
(** * The queue locks of the Windows XP pool (src/windows/manager.c)

    The pool of WinManager.v once more, with the spin lock of each queue and the memory
    accesses it is there to protect: an insertion reads the queue and writes it, and so
    does a removal.  [manager_workqueue_create] initialises the lock of its queue after it
    has put the queue on the list, and a scan may hold the lock by then.  As long as that
    [pthread_spin_init] always finds the lock free, the pool behaves like the atomic one,
    and no item is left behind; when it does not, items can be lost. *)

From stdpp Require Import base gmap list.
From Stdlib Require Import ZArith Lia.
From S2P Require Import Prelude Types WinSync WinManager.

(** ** State *)

(** Where a submission is: first in [manager_workqueue_additem], then in the callback that
    [QueueUserWorkItem] makes of it. *)
Inductive lpos :=
| SLock (q w : nat)                       (* pthread_spin_lock(&workq->mtx) *)
| SRead (q w : nat)                       (* STAILQ_INSERT_TAIL: reads the queue *)
| SWrite (q w : nat) (l : list nat)       (* and writes it *)
| SUnlock (q : nat)                       (* pthread_spin_unlock(&workq->mtx) *)
| SQueue                                  (* QueueUserWorkItem(worker_main, ...) *)
| LQueued                                 (* in the queue of the system's pool *)
| LScan (rest : list nat)                 (* wqlist_scan: pthread_spin_lock of the next queue *)
| LRead (q : nat) (rest : list nat)       (* STAILQ_EMPTY, STAILQ_FIRST *)
| LWrite (q : nat) (rest : list nat) (l : list nat)     (* STAILQ_REMOVE_HEAD *)
| LUnlock (q : nat) (rest : list nat) (witem : option nat)  (* pthread_spin_unlock(&workq->mtx) *)
| LOut (witem : option nat)               (* out: pthread_rwlock_unlock(&wqlist_mtx) *)
| LRun (witem : nat).                     (* witem->func(witem->func_arg) *)

Record lk_state := Lk {
  lk_wqlist : list (list nat);            (* wqlist[], by priority *)
  lk_items : gmap nat (list nat);         (* item_listhead of each queue *)
  lk_mtx : gmap nat Z;                    (* mtx of each queue *)
  lk_new : gset nat;                      (* queues whose creation has yet to initialise the lock *)
  lk_thr : gmap nat lpos;
  lk_submitted : list nat;                (* history: items given to manager_workqueue_additem, *)
  lk_inserted : list nat;                 (* inserted, *)
  lk_executed : list nat                  (* executed *)
}.

Definition lk_init : lk_state := Lk (replicate (Z.to_nat WORKQ_NUM_PRIOQUEUE) []) ∅ ∅ ∅ ∅ [] [] [].

Definition queue_of (q : nat) (s : lk_state) : list nat := default [] (lk_items s !! q).

(** ** Steps *)

Definition set_pos (c : nat) (x : lpos) (s : lk_state) : lk_state :=
  Lk (lk_wqlist s) (lk_items s) (lk_mtx s) (lk_new s) (<[c := x]> (lk_thr s))
     (lk_submitted s) (lk_inserted s) (lk_executed s).
Definition set_lock (q : nat) (m : Z) (s : lk_state) : lk_state :=
  Lk (lk_wqlist s) (lk_items s) (<[q := m]> (lk_mtx s)) (lk_new s) (lk_thr s)
     (lk_submitted s) (lk_inserted s) (lk_executed s).
Definition write_queue (q : nat) (l : list nat) (s : lk_state) : lk_state :=
  Lk (lk_wqlist s) (<[q := l]> (lk_items s)) (lk_mtx s) (lk_new s) (lk_thr s)
     (lk_submitted s) (lk_inserted s) (lk_executed s).
Definition note_inserted (w : nat) (s : lk_state) : lk_state :=
  Lk (lk_wqlist s) (lk_items s) (lk_mtx s) (lk_new s) (lk_thr s)
     (lk_submitted s) (lk_inserted s ++ [w]) (lk_executed s).
Definition finish (c : nat) (done : list nat) (s : lk_state) : lk_state :=
  Lk (lk_wqlist s) (lk_items s) (lk_mtx s) (lk_new s) (delete c (lk_thr s))
     (lk_submitted s) (lk_inserted s) (lk_executed s ++ done).

(** [pthread_spin_lock] and [pthread_spin_unlock] on the lock of a queue. *)
Definition lock_queue (q : nat) (s : lk_state) : option lk_state :=
  m ← lk_mtx s !! q; m ← pthread_spin_lock m; Some (set_lock q m s).
Definition unlock_queue (q : nat) (s : lk_state) : lk_state :=
  set_lock q (snd (pthread_spin_unlock (default 0 (lk_mtx s !! q)))) s.

(** The next step of the submission [c], which is at [x]; [None] while it waits for a lock. *)
Definition lk_move (c : nat) (x : lpos) (s : lk_state) : option lk_state :=
  match x with
  | SLock q w => s ← lock_queue q s; Some (set_pos c (SRead q w) s)
  | SRead q w => Some (set_pos c (SWrite q w (queue_of q s)) s)
  | SWrite q w l => Some (set_pos c (SUnlock q) (note_inserted w (write_queue q (l ++ [w]) s)))
  | SUnlock q => Some (set_pos c SQueue (unlock_queue q s))
  | SQueue => Some (set_pos c LQueued s)
  | LQueued => Some (set_pos c (LScan (concat (lk_wqlist s))) s)
  | LScan [] => Some (set_pos c (LOut None) s)
  | LScan (q :: rest) => s ← lock_queue q s; Some (set_pos c (LRead q rest) s)
  | LRead q rest =>
      match queue_of q s with
      | [] => Some (set_pos c (LUnlock q rest None) s)
      | l => Some (set_pos c (LWrite q rest l) s)
      end
  | LWrite q rest l => Some (set_pos c (LUnlock q rest (hd_error l)) (write_queue q (tail l) s))
  | LUnlock q rest None => Some (set_pos c (LScan rest) (unlock_queue q s))
  | LUnlock q rest (Some w) => Some (set_pos c (LOut (Some w)) (unlock_queue q s))
  | LOut None => Some (finish c [] s)
  | LOut (Some w) => Some (set_pos c (LRun w) s)
  | LRun w => Some (finish c [w] s)
  end.

(** Between [pthread_rwlock_rdlock] and [pthread_rwlock_unlock] of [wqlist_mtx]. *)
Definition lk_scans (x : lpos) : bool :=
  match x with LScan _ | LRead _ _ | LWrite _ _ _ | LUnlock _ _ _ | LOut _ => true | _ => false end.

(** [manager_workqueue_create] up to its last line: the queue comes with a lock that
    [pthread_workqueue_create_np] has initialised, and is listed while [wqlist_mtx] is held
    for writing. *)
Definition lk_create (q prio : nat) (s : lk_state) : option lk_state :=
  l ← lk_wqlist s !! prio;
  Some (Lk (<[prio := q :: l]> (lk_wqlist s)) (<[q := []]> (lk_items s))
           (<[q := snd (pthread_spin_init 0)]> (lk_mtx s)) ({[q]} ∪ lk_new s) (lk_thr s)
           (lk_submitted s) (lk_inserted s) (lk_executed s)).

(** Its last line, [pthread_spin_init(&workq->mtx, PTHREAD_PROCESS_PRIVATE)]. *)
Definition lk_reset (q : nat) (s : lk_state) : lk_state :=
  Lk (lk_wqlist s) (lk_items s) (<[q := snd (pthread_spin_init (default 0 (lk_mtx s !! q)))]> (lk_mtx s))
     (lk_new s ∖ {[q]}) (lk_thr s) (lk_submitted s) (lk_inserted s) (lk_executed s).

(** A submission to a queue whose creation has returned. *)
Definition lk_submit (c q w : nat) (s : lk_state) : lk_state :=
  Lk (lk_wqlist s) (lk_items s) (lk_mtx s) (lk_new s) (<[c := SLock q w]> (lk_thr s))
     (lk_submitted s ++ [w]) (lk_inserted s) (lk_executed s).

Inductive lk_cmd := KCreate (q prio : nat) | KReset (q : nat) | KSubmit (c q w : nat) | KMove (c : nat).

Definition lk_exec (k : lk_cmd) (s : lk_state) : option lk_state :=
  match k with
  | KCreate q prio =>
      if bool_decide (lk_items s !! q = None) && bool_decide (map_Forall (fun _ x => lk_scans x = false) (lk_thr s))
      then lk_create q prio s else None
  | KReset q => if bool_decide (q ∈ lk_new s) then Some (lk_reset q s) else None
  | KSubmit c q w =>
      if bool_decide (lk_thr s !! c = None) && bool_decide (is_Some (lk_items s !! q)) && bool_decide (q ∉ lk_new s)
      then Some (lk_submit c q w s) else None
  | KMove c => x ← lk_thr s !! c; lk_move c x s
  end.

(** The reset at the end of a creation finds the lock free. *)
Definition reset_free (k : lk_cmd) (s : lk_state) : bool :=
  match k with KReset q => default 0 (lk_mtx s !! q) =? 0 | _ => true end.

Definition lk_step (ok : bool) (s s' : lk_state) : Prop :=
  exists k, (ok = true -> reset_free k s = true) /\ lk_exec k s = Some s'.

(** ** Correspondence with the atomic pool *)

(** A submission counts from its insertion on; a look at a queue from its write or, when
    the queue is empty, from its read on. *)
Definition lk_abs_pos (x : lpos) : option callback :=
  match x with
  | SLock _ _ | SRead _ _ | SWrite _ _ _ => None
  | SUnlock _ | SQueue => Some CbPromised
  | LQueued => Some CbQueued
  | LScan rest => Some (CbScan rest)
  | LRead q rest | LWrite q rest _ => Some (CbScan (q :: rest))
  | LUnlock _ rest None => Some (CbScan rest)
  | LUnlock _ _ (Some w) => Some (CbOut (Some w))
  | LOut r => Some (CbOut r)
  | LRun w => Some (CbRun w)
  end.

Definition lk_abs (s : lk_state) : xp_state :=
  Xp (lk_wqlist s) (lk_items s) (omap lk_abs_pos (lk_thr s)) (lk_inserted s) (lk_executed s).

(** The queue whose lock a submission holds. *)
Definition holds_of (x : lpos) : option nat :=
  match x with
  | SRead q _ | SWrite q _ _ | SUnlock q | LRead q _ | LWrite q _ _ | LUnlock q _ _ => Some q
  | _ => None
  end.
Definition holds_q (q : nat) (x : lpos) : Z := if decide (holds_of x = Some q) then 1 else 0.

(** An item in the hands of a submitter. *)
Definition in_hand (w : nat) (x : lpos) : Z :=
  match x with SLock _ v | SRead _ v | SWrite _ v _ => if decide (w = v) then 1 else 0 | _ => 0 end.

(** What a submission knows. *)
Definition lk_knows (s : lk_state) (x : lpos) : Prop :=
  match x with
  | SLock q _ | SRead q _ => is_Some (lk_items s !! q)
  | SWrite q _ l => lk_items s !! q = Some l
  | LRead q _ => is_Some (lk_items s !! q)
  | LWrite q _ l => lk_items s !! q = Some l /\ l <> []
  | _ => True
  end.

Record lk_inv (s : lk_state) : Prop := {
  li_locks q : msum (holds_q q) (lk_thr s) = if default 0 (lk_mtx s !! q) =? 0 then 0 else 1;
  li_knows c x : lk_thr s !! c = Some x -> lk_knows s x;
  li_mtx q : is_Some (lk_mtx s !! q) -> is_Some (lk_items s !! q);
  li_hands w : occ w (lk_submitted s) = occ w (lk_inserted s) + msum (in_hand w) (lk_thr s);
  li_new q : q ∈ lk_new s -> is_Some (lk_items s !! q)
}.

Lemma holds_q_range q x : 0 <= holds_q q x <= 1.
Proof. unfold holds_q. case_decide; lia. Qed.

(** ** The lock excludes *)

Lemma lk_exclusive s c c' x x' q :
  lk_inv s -> lk_thr s !! c = Some x -> lk_thr s !! c' = Some x' -> holds_of x = Some q -> holds_of x' = Some q -> c' = c.
Proof.
  intros Hi Hx Hx' Hq Hq'. destruct (decide (c' = c)) as [|Hne]; [done|]. exfalso.
  pose proof (li_locks _ Hi q) as E. rewrite (msum_delete _ _ _ _ Hx) in E.
  assert (Hd : delete c (lk_thr s) !! c' = Some x') by by rewrite lookup_delete_ne.
  pose proof (msum_ge (holds_q q) _ _ _ (fun x => proj1 (holds_q_range q x)) Hd) as Hg.
  unfold holds_q in *. rewrite decide_True in E by done. rewrite (decide_True (P := holds_of x' = _)) in Hg by done.
  destruct (_ =? 0); lia.
Qed.

(** The holder of a lock. *)
Lemma held_nonzero s c x q : lk_inv s -> lk_thr s !! c = Some x -> holds_of x = Some q -> default 0 (lk_mtx s !! q) <> 0.
Proof.
  intros Hi Hx Hq E. pose proof (li_locks _ Hi q) as H. rewrite E in H. simpl in H.
  pose proof (msum_zero _ _ _ _ (fun x => proj1 (holds_q_range q x)) H Hx) as Hz. unfold holds_q in Hz.
  by rewrite decide_True in Hz.
Qed.

(** A submission moves on and touches nothing. *)
Lemma pos_inv c x y s :
  lk_inv s -> lk_thr s !! c = Some x -> holds_of y = holds_of x -> (forall w, in_hand w y = in_hand w x) ->
  lk_knows s y -> lk_inv (set_pos c y s).
Proof.
  intros [H1 H2 H3 H4 H5] Hx Hh Hi Hk. split; simpl; try done.
  - intros q. rewrite (msum_insert _ _ _ _ _ Hx), <- H1. unfold holds_q. rewrite Hh. lia.
  - intros c' z [[<- <-]|[_ Hz]]%lookup_insert_Some; [done|by apply (H2 c')].
  - intros w. rewrite (msum_insert _ _ _ _ _ Hx), H4, Hi. lia.
Qed.

(** It moves on and changes a lock. *)
Lemma lock_change_inv c x y q m s :
  lk_inv s -> lk_thr s !! c = Some x -> is_Some (lk_mtx s !! q) ->
  (forall r, r <> q -> (holds_of x = Some r <-> holds_of y = Some r)) -> (forall w, in_hand w y = in_hand w x) ->
  msum (holds_q q) (lk_thr s) - holds_q q x + holds_q q y = (if m =? 0 then 0 else 1) ->
  lk_knows s y -> lk_inv (set_pos c y (set_lock q m s)).
Proof.
  intros [H1 H2 H3 H4 H5] Hx Hm Hh Hi Hq Hk. split; simpl; try done.
  - intros r. rewrite (msum_insert _ _ _ _ _ Hx). destruct (decide (q = r)) as [<-|Hne].
    + by rewrite lookup_insert_eq.
    + rewrite lookup_insert_ne by done. rewrite <- H1. unfold holds_q. specialize (Hh r (not_eq_sym Hne)).
      repeat case_decide; try lia; naive_solver.
  - intros c' z [[<- <-]|[_ Hz]]%lookup_insert_Some; [done|by apply (H2 c')].
  - intros r. destruct (decide (q = r)) as [<-|Hne]; [intros _; by apply H3|]. rewrite lookup_insert_ne by done. apply H3.
  - intros w. rewrite (msum_insert _ _ _ _ _ Hx), H4, Hi. lia.
Qed.

Lemma acquire_inv c x y q s s1 :
  lk_inv s -> lk_thr s !! c = Some x -> holds_of x = None -> holds_of y = Some q -> (forall w, in_hand w y = in_hand w x) ->
  (is_Some (lk_items s !! q) -> lk_knows s y) -> lock_queue q s = Some s1 -> lk_inv (set_pos c y s1).
Proof.
  intros Hi Hx Hhx Hhy Hw Hk E. apply bind_Some in E as (m & Em & E). apply bind_Some in E as (m' & Em' & E).
  injection E as <-. unfold pthread_spin_lock in Em'. simpl in Em'. destruct (Z.eqb_spec m 0) as [->|]; [|done].
  injection Em' as <-. apply (lock_change_inv c x); try done.
  - intros r Hne. rewrite Hhx, Hhy. naive_solver.
  - rewrite (li_locks _ Hi), Em. unfold holds_q. rewrite Hhx, Hhy. by rewrite decide_False, decide_True.
  - apply Hk, (li_mtx _ Hi). by eexists.
Qed.

Lemma release_inv c x y q s :
  lk_inv s -> lk_thr s !! c = Some x -> holds_of x = Some q -> holds_of y = None -> (forall w, in_hand w y = in_hand w x) ->
  lk_knows s y -> lk_inv (set_pos c y (unlock_queue q s)).
Proof.
  intros Hi Hx Hhx Hhy Hw Hk. pose proof (held_nonzero s c x q Hi Hx Hhx) as Hz.
  apply (lock_change_inv c x); try done.
  - destruct (lk_mtx s !! q); [by eexists|done].
  - intros r Hne. rewrite Hhx, Hhy. naive_solver.
  - rewrite (li_locks _ Hi), (proj2 (Z.eqb_neq _ 0) Hz). unfold holds_q. rewrite Hhx, Hhy.
    by rewrite decide_True, decide_False.
Qed.

(** The holder of a lock writes its queue. *)
Lemma write_inv c x y q l s ins :
  lk_inv s -> lk_thr s !! c = Some x -> holds_of x = Some q -> holds_of y = Some q -> is_Some (lk_items s !! q) ->
  (forall w, occ w ins + in_hand w y = occ w (lk_inserted s) + in_hand w x) -> (forall s', lk_knows s' y) ->
  lk_inv (Lk (lk_wqlist s) (<[q := l]> (lk_items s)) (lk_mtx s) (lk_new s) (<[c := y]> (lk_thr s))
             (lk_submitted s) ins (lk_executed s)).
Proof.
  intros Hi Hx Hhx Hhy Hsome Hw Hk. pose proof Hi as [H1 H2 H3 H4 H5]. split; simpl.
  - intros r. rewrite (msum_insert _ _ _ _ _ Hx), <- H1. unfold holds_q. rewrite Hhx, Hhy. lia.
  - intros c' z [[<- <-]|[Hne Hz]]%lookup_insert_Some; [apply Hk|]. specialize (H2 c' z Hz).
    assert (Hq : forall r, is_Some (lk_items s !! r) -> is_Some (<[q := l]> (lk_items s) !! r)).
    { intros r Hr. destruct (decide (q = r)) as [<-|]; [rewrite lookup_insert_eq; by eexists|by rewrite lookup_insert_ne]. }
    assert (Hnq : holds_of z <> Some q) by (intros Hhz; apply Hne; symmetry; by apply (lk_exclusive s c c' x z q)).
    destruct z; simpl in *; try done; try (by apply Hq); rewrite lookup_insert_ne by congruence; done.
  - intros r Hr. destruct (decide (q = r)) as [<-|]; [rewrite lookup_insert_eq; by eexists|].
    rewrite lookup_insert_ne by done. by apply H3.
  - intros w. rewrite (msum_insert _ _ _ _ _ Hx), H4. specialize (Hw w). lia.
  - intros r Hr. rewrite lookup_insert_is_Some'. auto.
Qed.

Lemma finish_inv c x done s :
  lk_inv s -> lk_thr s !! c = Some x -> holds_of x = None -> (forall w, in_hand w x = 0) -> lk_inv (finish c done s).
Proof.
  intros [H1 H2 H3 H4 H5] Hx Hh Hw. split; simpl; try done.
  - intros q. rewrite <- H1, (msum_delete _ _ _ _ Hx). unfold holds_q at 2. rewrite Hh. by rewrite decide_False.
  - intros c' z [_ Hz]%lookup_delete_Some. by apply (H2 c').
  - intros w. rewrite H4, (msum_delete _ _ _ _ Hx), Hw. lia.
Qed.

Lemma hd_tail {A} (l : list A) : l <> [] -> exists w m, l = w :: m.
Proof. destruct l; [done|eauto]. Qed.

Lemma lk_move_inv c x s s' : lk_inv s -> lk_thr s !! c = Some x -> lk_move c x s = Some s' -> lk_inv s'.
Proof.
  intros Hi Hx E. pose proof (li_knows _ Hi c x Hx) as Hk.
  destruct x as [q w|q w|q w l|q| | |[|q rest]|q rest|q rest l|q rest [w|]|[w|]|w]; simpl in *.
  - apply bind_Some in E as (s1 & E & [= <-]). by apply (acquire_inv c (SLock q w) _ q s).
  - injection E as <-. apply (pos_inv c (SRead q w)); try done. simpl. unfold queue_of. by destruct Hk as [l ->].
  - injection E as <-. unfold set_pos, note_inserted, write_queue. simpl.
    apply (write_inv c (SWrite q w l) (SUnlock q)); try done.
    intros v. simpl. rewrite occ_snoc. lia.
  - injection E as <-. by apply (release_inv c (SUnlock q)).
  - injection E as <-. by apply (pos_inv c SQueue).
  - injection E as <-. by apply (pos_inv c LQueued).
  - injection E as <-. by apply (pos_inv c (LScan [])).
  - apply bind_Some in E as (s1 & E & [= <-]). by apply (acquire_inv c (LScan (q :: rest)) _ q s).
  - destruct Hk as [l Hl]. unfold queue_of in E. rewrite Hl in E. simpl in E.
    destruct l as [|w l]; injection E as <-; by apply (pos_inv c (LRead q rest)).
  - injection E as <-. destruct Hk as [Hl Hne]. unfold set_pos, write_queue. simpl.
    by apply (write_inv c (LWrite q rest l)).
  - injection E as <-. by apply (release_inv c (LUnlock q rest (Some w))).
  - injection E as <-. by apply (release_inv c (LUnlock q rest None)).
  - injection E as <-. by apply (pos_inv c (LOut (Some w))).
  - injection E as <-. by apply (finish_inv c (LOut None)).
  - injection E as <-. by apply (finish_inv c (LRun w)).
Qed.

Lemma lk_exec_inv k s s' : lk_inv s -> reset_free k s = true -> lk_exec k s = Some s' -> lk_inv s'.
Proof.
  intros Hi Hf E. destruct k as [q prio|q|c q w|c]; simpl in *.
  - case_bool_decide as Hq; [|done]. simpl in E. case_bool_decide as Hns; [|done].
    apply bind_Some in E as (l & _ & [= <-]). pose proof Hi as [H1 H2 H3 H4 H5].
    assert (Hm : lk_mtx s !! q = None).
    { destruct (lk_mtx s !! q) eqn:Em; [|done]. destruct (H3 q) as [? ?]; [by eexists|congruence]. }
    split; simpl; try done.
    + intros r. rewrite H1. destruct (decide (q = r)) as [<-|]; [by rewrite Hm, lookup_insert_eq|by rewrite lookup_insert_ne].
    + intros c x Hx. specialize (H2 c x Hx).
      destruct x; simpl in *; try done;
        (destruct (decide (q = q0)) as [<-|]; [rewrite Hq in *; naive_solver|by rewrite lookup_insert_ne]).
    + intros r. rewrite !lookup_insert_is_Some'. naive_solver.
    + intros r. rewrite lookup_insert_is_Some', elem_of_union, elem_of_singleton. naive_solver.
  - case_bool_decide; [|done]. injection E as <-. apply Z.eqb_eq in Hf. destruct Hi as [H1 H2 H3 H4 H5].
    split; simpl; try done.
    + intros r. rewrite H1. destruct (decide (q = r)) as [<-|]; [by rewrite Hf, lookup_insert_eq|by rewrite lookup_insert_ne].
    + intros r. rewrite lookup_insert_is_Some'. intros [<-|?]; auto.
    + intros r [Hr _]%elem_of_difference. by apply H5.
  - case_bool_decide as Hc; [|done]. case_bool_decide as Hq; [|done]. case_bool_decide; [|done]. injection E as <-.
    destruct Hi as [H1 H2 H3 H4 H5]. split; simpl; try done.
    + intros r. by rewrite (msum_insert_new _ _ _ _ Hc), <- H1.
    + intros c' x [[<- <-]|[_ Hx]]%lookup_insert_Some; [done|by apply (H2 c')].
    + intros v. rewrite (msum_insert_new _ _ _ _ Hc), occ_snoc, H4. simpl. lia.
  - apply bind_Some in E as (x & Hx & E). by apply (lk_move_inv c x s).
Qed.

(** A submission that moves: what the atomic pool sees of it. *)
Lemma abs_move c x y m :
  m !! c = Some x -> lk_abs_pos y = lk_abs_pos x -> omap lk_abs_pos (<[c := y]> m) = omap lk_abs_pos (m : gmap nat lpos).
Proof.
  intros Hx Hy. apply map_eq. intros k. rewrite !lookup_omap. destruct (decide (c = k)) as [<-|Hne].
  - by rewrite lookup_insert_eq, Hx.
  - by rewrite lookup_insert_ne.
Qed.

Lemma abs_put c y m b : lk_abs_pos y = Some b ->
  omap lk_abs_pos (<[c := y]> m) = <[c := b]> (omap lk_abs_pos (m : gmap nat lpos)).
Proof.
  intros Hy. apply map_eq. intros k. rewrite lookup_omap. destruct (decide (c = k)) as [<-|Hne].
  - by rewrite !lookup_insert_eq.
  - by rewrite !lookup_insert_ne, lookup_omap.
Qed.

Lemma abs_cb s c x b : lk_thr s !! c = Some x -> lk_abs_pos x = b -> xp_cbs (lk_abs s) !! c = b.
Proof. intros Hx Hb. simpl. by rewrite lookup_omap, Hx. Qed.

(** A step that the atomic pool does not see. *)
Lemma silent c x y s s1 :
  lk_thr s !! c = Some x -> lk_abs_pos y = lk_abs_pos x -> lk_wqlist s1 = lk_wqlist s -> lk_items s1 = lk_items s ->
  lk_thr s1 = lk_thr s -> lk_inserted s1 = lk_inserted s -> lk_executed s1 = lk_executed s ->
  lk_abs (set_pos c y s1) = lk_abs s.
Proof. intros Hx Hy E1 E2 E3 E4 E5. unfold lk_abs. simpl. rewrite E1, E2, E3, E4, E5. by rewrite (abs_move c x y). Qed.

Lemma lock_silent q s s1 : lock_queue q s = Some s1 ->
  lk_wqlist s1 = lk_wqlist s /\ lk_items s1 = lk_items s /\ lk_thr s1 = lk_thr s /\
  lk_inserted s1 = lk_inserted s /\ lk_executed s1 = lk_executed s.
Proof. intros (m & _ & (m' & _ & [= <-])%bind_Some)%bind_Some. done. Qed.

Lemma lk_move_sim c x s s' :
  lk_inv s -> lk_thr s !! c = Some x -> lk_move c x s = Some s' ->
  lk_abs s' = lk_abs s \/ xp_step (lk_abs s) (lk_abs s').
Proof.
  intros Hi Hx E. pose proof (li_knows _ Hi c x Hx) as Hk.
  assert (Hst : forall b, lk_abs_pos x = Some b -> lk_abs s' = worker_main c b (lk_abs s) -> xp_step (lk_abs s) (lk_abs s')).
  { intros b Hb ->. apply XpWorker. by apply (abs_cb s c x). }
  destruct x as [q w|q w|q w l|q| | |[|q rest]|q rest|q rest l|q rest [w|]|[w|]|w]; simpl in *.
  - left. apply bind_Some in E as (s1 & E%lock_silent & [= <-]). destruct_and! E. by apply (silent c (SLock q w)).
  - left. injection E as <-. by apply (silent c (SRead q w)).
  - right. injection E as <-. replace (lk_abs (set_pos _ _ _)) with (manager_workqueue_additem q w c (lk_abs s)).
    + apply XpAdditem; [by exists l|]. by apply (abs_cb s c (SWrite q w l)).
    + unfold manager_workqueue_additem, lk_abs, content. simpl. rewrite Hk. simpl.
      by rewrite (abs_put c _ _ CbPromised).
  - left. injection E as <-. by apply (silent c (SUnlock q)).
  - right. apply (Hst CbPromised eq_refl). injection E as <-. unfold lk_abs, set_cb. simpl. by rewrite (abs_put c _ _ CbQueued).
  - right. apply (Hst CbQueued eq_refl). injection E as <-. unfold lk_abs, set_cb. simpl.
    by rewrite (abs_put c _ _ (CbScan (concat (lk_wqlist s)))).
  - right. apply (Hst (CbScan []) eq_refl). injection E as <-. unfold lk_abs, set_cb. simpl.
    by rewrite (abs_put c _ _ (CbOut None)).
  - left. apply bind_Some in E as (s1 & E%lock_silent & [= <-]). destruct_and! E. by apply (silent c (LScan (q :: rest))).
  - destruct Hk as [l Hl]. unfold queue_of in E. rewrite Hl in E. simpl in E. destruct l as [|w l]; injection E as <-.
    + right. apply (Hst (CbScan (q :: rest)) eq_refl). unfold lk_abs. simpl. unfold content. simpl. rewrite Hl. simpl.
      by rewrite (abs_put c _ _ (CbScan rest)), (insert_id (lk_items s) q []).
    + left. by apply (silent c (LRead q rest)).
  - destruct Hk as [Hl (w & m & ->)%hd_tail]. right. apply (Hst (CbScan (q :: rest)) eq_refl). injection E as <-.
    unfold lk_abs. simpl. unfold content. simpl. rewrite Hl. simpl. by rewrite (abs_put c _ _ (CbOut (Some w))).
  - left. injection E as <-. by apply (silent c (LUnlock q rest (Some w))).
  - left. injection E as <-. by apply (silent c (LUnlock q rest None)).
  - right. apply (Hst (CbOut (Some w)) eq_refl). injection E as <-. unfold lk_abs, set_cb. simpl.
    by rewrite (abs_put c _ _ (CbRun w)).
  - right. apply (Hst (CbOut None) eq_refl). injection E as <-. unfold lk_abs, end_cb. simpl. by rewrite omap_delete.
  - right. apply (Hst (CbRun w) eq_refl). injection E as <-. unfold lk_abs, end_cb. simpl. by rewrite omap_delete.
Qed.

Lemma lk_exec_sim k s s' :
  lk_inv s -> lk_exec k s = Some s' -> lk_abs s' = lk_abs s \/ xp_step (lk_abs s) (lk_abs s').
Proof.
  intros Hi E. destruct k as [q prio|q|c q w|c]; simpl in *.
  - right. case_bool_decide as Hq; [|done]. simpl in E. case_bool_decide as Hns; [|done].
    apply bind_Some in E as (l & Hl & [= <-]). apply (XpCreate _ q prio); simpl; [done| |].
    + intros c b. rewrite lookup_omap. destruct (lk_thr s !! c) as [x|] eqn:Hx; [|done]. simpl. specialize (Hns c x Hx).
      destruct x as [| | | | | | | | |? ? []| |]; simpl in *; intros; simplify_eq; done.
    + unfold manager_workqueue_create. simpl. by rewrite Hl.
  - left. case_bool_decide; [|done]. by injection E as <-.
  - left. repeat (case_bool_decide; [|done]). injection E as <-. unfold lk_abs. simpl. f_equal.
    apply map_eq. intros k. rewrite !lookup_omap. destruct (decide (c = k)) as [<-|Hne].
    + rewrite lookup_insert_eq. by destruct (lk_thr s !! c).
    + by rewrite lookup_insert_ne.
  - apply bind_Some in E as (x & Hx & E). by apply (lk_move_sim c x s).
Qed.

Lemma lk_run_sim s :
  rtc (lk_step true) lk_init s -> lk_inv s /\ rtc xp_step manager_init (lk_abs s).
Proof.
  revert s. refine (rtc_ind_r _ lk_init _ _).
  - split; [|by replace (lk_abs lk_init) with manager_init by done].
    split; simpl; intros; rewrite ?msum_empty, ?lookup_empty in *; simpl; try done; set_solver.
  - intros s1 s2 _ (k & Hk & E) [Hi Hr]. split; [by apply (lk_exec_inv k s1); [|apply Hk|]|].
    destruct (lk_exec_sim k s1 s2 Hi E) as [->|Hst]; [done|]. by eapply rtc_r.
Qed.

(** ** Properties *)

(** C35.  The pool of Windows XP with the locks of its queues, provided that the
    [pthread_spin_init] at the end of each [manager_workqueue_create] finds the lock of its
    queue free (no scan is looking at the new queue at that moment): at most one submission
    or callback is between locking and unlocking a queue; every run is one of the atomic
    pool of WinManager.v; there are always at least as many callbacks that have yet to
    finish their scan as items in the queues, although a scan gives up after one pass and
    may have passed a queue before an item came in; no item is executed more often than it
    was submitted; and once the submissions and callbacks are done the queues are empty and
    the executed items are the submitted ones, each as often. *)
Theorem xp_pool_leaves_nothing s :
  rtc (lk_step true) lk_init s ->
  (forall c c' x x' q, lk_thr s !! c = Some x -> lk_thr s !! c' = Some x' ->
     holds_of x = Some q -> holds_of x' = Some q -> c' = c) /\
  rtc xp_step manager_init (lk_abs s) /\
  load (lk_abs s) (scan_order (lk_abs s)) <= msum (can_reach 0) (xp_cbs (lk_abs s)) /\
  (forall w, occ w (lk_executed s) <= occ w (lk_submitted s)) /\
  (lk_thr s = ∅ -> (forall q, queue_of q s = []) /\ lk_executed s ≡ₚ lk_submitted s).
Proof.
  intros [Hi Hr]%lk_run_sim. destruct (xp_no_item_left_behind (lk_abs s) Hr) as (H1 & H2 & H3).
  split_and!; [|done|done| |].
  - intros c c' x x' q. by apply lk_exclusive.
  - intros w. specialize (H2 w). simpl in H2. rewrite (li_hands _ Hi).
    pose proof (msum_nonneg (in_hand w) (lk_thr s)) as Hn. assert (forall x, 0 <= in_hand w x).
    { intros []; simpl; try case_decide; lia. }
    specialize (Hn ltac:(done)). lia.
  - intros He. destruct H3 as [Hc Hp]; [simpl; by rewrite He, omap_empty|]. split; [exact Hc|]. simpl in Hp.
    rewrite Hp. apply occ_same. intros w. rewrite (li_hands _ Hi), He, msum_empty. lia.
Qed.

(** ** Runs *)

Fixpoint lk_execs (ks : list lk_cmd) (s : lk_state) : option lk_state :=
  match ks with [] => Some s | k :: ks => s ← lk_exec k s; lk_execs ks s end.

Fixpoint all_free (ks : list lk_cmd) (s : lk_state) : bool :=
  match ks with
  | [] => true
  | k :: ks => reset_free k s && match lk_exec k s with Some s => all_free ks s | None => false end
  end.

Lemma lk_execs_run ok ks s s' :
  (ok = true -> all_free ks s = true) -> lk_execs ks s = Some s' -> rtc (lk_step ok) s s'.
Proof.
  revert s. induction ks as [|k ks IH]; simpl; intros s Hok; [by intros [= <-]|].
  intros (s1 & E & H)%bind_Some. rewrite E in Hok. eapply rtc_l; [|apply IH; [|done]].
  - exists k. split; [|done]. intros Ho. by apply andb_true_iff in Hok as [? _].
  - intros Ho. by apply andb_true_iff in Hok as [_ ?].
Qed.

(** Two queues; the callback of the first item has passed the queue of high priority when a
    second item comes in there. *)
Definition free_schedule : list lk_cmd :=
  [KCreate 0 2; KReset 0; KCreate 1 0; KReset 1; KSubmit 0 0 5] ++ replicate 9 (KMove 0) ++
  [KSubmit 1 1 6] ++ replicate 12 (KMove 1) ++ replicate 6 (KMove 0).
Definition ex_free : lk_state := default lk_init (lk_execs free_schedule lk_init).

Lemma xp_pool_leaves_nothing_witness :
  rtc (lk_step true) lk_init ex_free /\ (forall q, queue_of q ex_free = []) /\
  lk_executed ex_free ≡ₚ lk_submitted ex_free /\ lk_submitted ex_free = [5; 6]%nat.
Proof.
  assert (H : rtc (lk_step true) lk_init ex_free) by (apply (lk_execs_run true free_schedule); [by intros _|by vm_compute]).
  split; [exact H|].
  destruct (xp_pool_leaves_nothing ex_free H) as (_ & _ & _ & _ & He).
  assert (E : lk_thr ex_free = ∅) by by vm_compute. destruct (He E) as [H1 H2].
  split; [exact H1|]. split; [exact H2|]. by vm_compute.
Defined.

(** A callback holds the lock of queue 1 when the creation of the queue resets it; its
    unlock then takes the lock from a submitter, and a second submitter gets in. *)
Definition overlap_schedule : list lk_cmd :=
  [KCreate 0 2; KReset 0; KSubmit 0 0 5] ++ replicate 5 (KMove 0) ++
  [KCreate 1 0; KMove 0; KMove 0; KReset 1; KMove 0] ++
  [KSubmit 1 1 6; KMove 1; KMove 1; KMove 0; KSubmit 2 1 7; KMove 2; KMove 2].
Definition ex_overlap : lk_state := default lk_init (lk_execs overlap_schedule lk_init).

(** And all of them run to their end. *)
Definition lost_schedule : list lk_cmd :=
  overlap_schedule ++ [KMove 1; KMove 2; KMove 1; KMove 2] ++ replicate 6 (KMove 0) ++
  replicate 8 (KMove 1) ++ replicate 10 (KMove 2).
Definition ex_lost_item : lk_state := default lk_init (lk_execs lost_schedule lk_init).

(** Without the proviso an item can be lost: when the reset at the end of
    [manager_workqueue_create] takes the lock of the new queue from a scan, two submitters
    can be in the critical section of the queue at once, both having read it empty; and a
    state is reachable in which all submissions and callbacks are done, all queues are
    empty, and item 6 was submitted and never executed. *)
Theorem lock_reset_loses_item :
  rtc (lk_step false) lk_init ex_overlap /\
  lk_thr ex_overlap !! 1%nat = Some (SWrite 1 6 []) /\ lk_thr ex_overlap !! 2%nat = Some (SWrite 1 7 []) /\
  rtc (lk_step false) lk_init ex_lost_item /\
  lk_thr ex_lost_item = ∅ /\ lk_submitted ex_lost_item = [5; 6; 7]%nat /\ lk_executed ex_lost_item = [5; 7]%nat /\
  lk_items ex_lost_item = {[0%nat := []; 1%nat := []]}.
Proof.
  split; [apply (lk_execs_run false overlap_schedule); [done|by vm_compute]|].
  split; [by vm_compute|]. split; [by vm_compute|].
  split; [apply (lk_execs_run false lost_schedule); [done|by vm_compute]|].
  split_and!; by vm_compute.
Qed.
