(* ===== verification/WinVista.v ===== *)
(** * The thread pool of Windows Vista

    The second half of src/windows/manager.c: every work queue has a thread pool of the
    system, every item becomes a work object of it, and the system calls [worker_main] once
    for each object submitted.  The answers of the system (pools and work objects, 0 when
    it refuses) are arguments.  The entry point of src/windows/platform.c and the
    [manager_peek] of both variants are here too. *)

From stdpp Require Import base gmap list strings.
From Stdlib Require Import ZArith Lia.
From S2P Require Import Prelude Types.

(** ** Creating queues *)

Inductive tp_priority := TP_CALLBACK_PRIORITY_HIGH | TP_CALLBACK_PRIORITY_NORMAL | TP_CALLBACK_PRIORITY_LOW.

#[global] Instance tp_priority_eq_dec : EqDecision tp_priority.
Proof. solve_decision. Defined.

(** [win_callback_env] once it is initialised. *)
Record callback_env := CallbackEnv { env_pool : ptr; env_priority : tp_priority }.

(** The fields of a work queue on Vista, and the thread limit its pool was given. *)
Record vqueue := VQueue {
  v_queueprio : Z; v_overcommit : Z;
  win_callback_env : option callback_env;
  win_thread_pool : ptr;
  pool_maximum : option Z
}.

Definition manager_init : Z := 0.

Definition callback_priority (queueprio : Z) : tp_priority :=
  if queueprio =? WORKQ_HIGH_PRIOQUEUE then TP_CALLBACK_PRIORITY_LOW
  else if queueprio =? WORKQ_LOW_PRIOQUEUE then TP_CALLBACK_PRIORITY_HIGH
  else TP_CALLBACK_PRIORITY_NORMAL.

(** [pool]: what [CreateThreadpool] returned; [cpus]: [sysinfo.dwNumberOfProcessors]. *)
Definition manager_workqueue_create (pool cpus : Z) (q : vqueue) : vqueue :=
  if pool =? NULL then q
  else
    VQueue (v_queueprio q) (v_overcommit q)
      (Some (CallbackEnv pool (callback_priority (v_queueprio q)))) pool
      (if negb (v_overcommit q =? 0) then Some (u32 (cpus * 2)) else pool_maximum q).

(** ** Items *)

(** The work objects submitted and not yet run, those whose callback runs, and the history:
    items added, dropped because the system refused a work object, executed, freed. *)
Record vstate := VState {
  v_works : gmap nat nat; v_running : gmap nat nat;
  v_added : list nat; v_dropped : list nat; v_executed : list nat; v_freed : list nat
}.

(** [work]: the work object, [None] when [CreateThreadpoolWork] returned NULL. *)
Definition manager_workqueue_additem (work : option nat) (witem : nat) (s : vstate) : vstate :=
  match work with
  | None => VState (v_works s) (v_running s) (v_added s ++ [witem]) (v_dropped s ++ [witem]) (v_executed s) (v_freed s)
  | Some k => VState (<[k := witem]> (v_works s)) (v_running s) (v_added s ++ [witem]) (v_dropped s) (v_executed s) (v_freed s)
  end.

(** [worker_main], called by the system for the work object [k], up to the call of the
    item's function, and from its return on. *)
Definition worker_enter (k witem : nat) (s : vstate) : vstate :=
  VState (delete k (v_works s)) (<[k := witem]> (v_running s)) (v_added s) (v_dropped s)
    (v_executed s) (v_freed s).
Definition worker_leave (k witem : nat) (s : vstate) : vstate :=
  VState (v_works s) (delete k (v_running s)) (v_added s) (v_dropped s)
    (v_executed s ++ [witem]) (v_freed s ++ [witem]).

(** A work object in use is not handed out again before [CloseThreadpoolWork]. *)
Inductive vista_step (s : vstate) : vstate -> Prop :=
| VsAdd k witem : v_works s !! k = None -> v_running s !! k = None ->
    vista_step s (manager_workqueue_additem (Some k) witem s)
| VsRefused witem : vista_step s (manager_workqueue_additem None witem s)
| VsEnter k witem : v_works s !! k = Some witem -> v_running s !! k = None ->
    vista_step s (worker_enter k witem s)
| VsLeave k witem : v_running s !! k = Some witem -> vista_step s (worker_leave k witem s).

Definition vista_start : vstate := VState ∅ ∅ [] [] [] [].

Definition is_item (w x : nat) : Z := if decide (w = x) then 1 else 0.

Record vista_inv (s : vstate) : Prop := {
  vi_items w : occ w (v_added s) = occ w (v_dropped s) + msum (is_item w) (v_works s) +
                 msum (is_item w) (v_running s) + occ w (v_executed s);
  vi_freed : v_freed s = v_executed s
}.

Lemma vista_step_inv s s' : vista_inv s -> vista_step s s' -> vista_inv s'.
Proof.
  intros [Hi Hf] [k w Hn _|w|k w Hw Hn|k w Hr]; split; simpl; try done; try congruence; intros x; specialize (Hi x);
    rewrite ?occ_snoc; fold (is_item x w).
  - rewrite (msum_insert_new _ _ _ _ Hn). lia.
  - lia.
  - rewrite (msum_insert_new _ _ _ _ Hn), (msum_delete _ (v_works s) _ _ Hw) in *. lia.
  - rewrite (msum_delete _ (v_running s) _ _ Hr) in Hi. lia.
Qed.

(** On Vista every item added is, in every reachable state, exactly once either waiting
    in a work object, or running, or executed, or dropped because the system refused a
    work object; an item is freed exactly when it has been executed, so that a dropped one
    is neither executed nor freed. *)
Theorem vista_exactly_once s w :
  rtc vista_step vista_start s ->
  occ w (v_added s) = occ w (v_dropped s) + msum (is_item w) (v_works s) +
                      msum (is_item w) (v_running s) + occ w (v_executed s) /\
  v_freed s = v_executed s /\
  (v_works s = ∅ -> v_running s = ∅ -> v_added s ≡ₚ v_dropped s ++ v_executed s).
Proof.
  intros Hr. assert (H : vista_inv s).
  { assert (H0 : vista_inv vista_start) by by split; [intros x; simpl; rewrite !msum_empty|].
    revert H0. induction Hr as [|s0 s1 s2 Hst _ IH]; intros H0; [done|]. apply IH. by eapply vista_step_inv. }
  destruct H as [Hi Hf]. split_and!; [apply Hi|done|].
  intros Hw Hu. apply occ_same. intros x. specialize (Hi x). rewrite Hw, Hu, !msum_empty in Hi.
  rewrite occ_app. lia.
Qed.

Definition ex_vista : vstate := VState ∅ ∅ [4; 5]%nat [5]%nat [4]%nat [4]%nat.

Lemma vista_exactly_once_witness :
  rtc vista_step vista_start ex_vista /\ v_added ex_vista ≡ₚ v_dropped ex_vista ++ v_executed ex_vista.
Proof.
  assert (H : rtc vista_step vista_start ex_vista).
  { eapply rtc_l; [by apply (VsAdd _ 0 4)|]. simpl. eapply rtc_l; [apply (VsRefused _ 5)|]. simpl.
    eapply rtc_l; [by apply (VsEnter _ 0 4)|]. simpl. eapply rtc_l; [by apply (VsLeave _ 0 4)|]. simpl.
    match goal with |- rtc _ ?s _ => replace s with ex_vista by (by vm_compute) end. constructor. }
  split; [exact H|]. apply (vista_exactly_once ex_vista 4 H); reflexivity.
Defined.

(** ** Priorities *)

(** What the system's priorities mean. *)
Definition tp_rank (p : tp_priority) : Z :=
  match p with TP_CALLBACK_PRIORITY_HIGH => 2 | TP_CALLBACK_PRIORITY_NORMAL => 1 | TP_CALLBACK_PRIORITY_LOW => 0 end.

(** The callback priorities run against the queue priorities: of the queues of high,
    default and low priority, the system prefers the last one, and the others get the
    normal priority; a queue whose pool was refused keeps an uninitialised environment. *)
Theorem vista_priorities_inverted :
  tp_rank (callback_priority WORKQ_HIGH_PRIOQUEUE) < tp_rank (callback_priority WORKQ_DEFAULT_PRIOQUEUE) /\
  tp_rank (callback_priority WORKQ_DEFAULT_PRIOQUEUE) < tp_rank (callback_priority WORKQ_LOW_PRIOQUEUE) /\
  (forall p, p <> WORKQ_HIGH_PRIOQUEUE -> p <> WORKQ_LOW_PRIOQUEUE ->
     callback_priority p = TP_CALLBACK_PRIORITY_NORMAL) /\
  (forall cpus q, manager_workqueue_create NULL cpus q = q) /\
  (forall pool cpus q, pool <> NULL ->
     win_callback_env (manager_workqueue_create pool cpus q) =
       Some (CallbackEnv pool (callback_priority (v_queueprio q))) /\
     win_thread_pool (manager_workqueue_create pool cpus q) = pool).
Proof.
  split_and!; try done.
  - intros p H1 H2. unfold callback_priority. by rewrite (proj2 (Z.eqb_neq _ _) H1), (proj2 (Z.eqb_neq _ _) H2).
  - intros pool cpus q H. unfold manager_workqueue_create. by rewrite (proj2 (Z.eqb_neq _ _) H).
Qed.

(** ** Loading the library, observing the manager *)

Definition DLL_PROCESS_ATTACH : Z := 1.

(** [DllMain]: [init] is the result of [pthread_workqueue_init_np()]. *)
Definition DllMain (fdwReason init : Z) : bool :=
  if fdwReason =? DLL_PROCESS_ATTACH then negb (init <? 0) else true.

(** [manager_peek] aborts for every key. *)
Definition manager_peek (key : string) : outcome Z :=
  if bool_decide (key = "combined_idle"%string) then Aborts else Aborts.

Lemma manager_peek_aborts key : manager_peek key = Aborts.
Proof. unfold manager_peek. by destruct (bool_decide _). Qed.
