(* ===== verification/Kern.v ===== *)
(** * The kernel module (src/kern/pthread_workqueue.c)

    Loading and unloading the module as operations on what it holds in the kernel: the
    character device, the class, the device node and the collector thread.  The kernel's
    answers are arguments. *)

From stdpp Require Import base list strings.
From Stdlib Require Import ZArith Lia.
From S2P Require Import Prelude Types.

Definition PWQ_DEVICE_NAME : string := "pthread_workqueue".

(** What the module holds, with the static variables that refer to it. *)
Record module_state := ModuleState {
  chrdev : option string;        (* the name the major number is registered under *)
  class : bool;
  device : bool;
  collector : bool;              (* the thread exists and runs *)
  pwq_major : Z
}.

Definition unloaded : module_state := ModuleState None false false false 0.

(** [major]: what [register_chrdev] returned, a positive major number or an error; [err]:
    0, or the error in the pointer [kthread_create] returned. *)
Definition pwq_start (major err : Z) (s : module_state) : Z * module_state :=
  if major <? 0 then (major, ModuleState (chrdev s) (class s) (device s) (collector s) major)
  else
    let s := ModuleState (Some "pwq"%string) true true false major in
    if negb (err =? 0) then (err, s)
    else (0, ModuleState (chrdev s) (class s) (device s) true (pwq_major s)).

(** [unregister_chrdev] goes by the major number, the name is only a label. *)
Definition pwq_end (s : module_state) : module_state :=
  ModuleState None false false false (pwq_major s).

Definition pwq_open : Z := 0.
Definition pwq_release : Z := 0.

(** [pwq_collector_main]: the answers of [kthread_should_stop], one before each sleep; the
    number of sleeps. *)
Fixpoint pwq_collector_main (stops : list bool) (sleeps : Z) : outcome (Z * Z) :=
  match stops with
  | [] => Blocks
  | true :: _ => Ok (0, sleeps)
  | false :: stops => pwq_collector_main stops (sleeps + 1)
  end.

(** What a state holds. *)
Definition holds_nothing (s : module_state) : Prop :=
  chrdev s = None /\ class s = false /\ device s = false /\ collector s = false.

(** Loading the module either holds nothing (the device could not be registered), or
    holds all four resources and returns 0, which unloading releases; but when the collector
    thread cannot be created it returns the error with the character device, its class and
    node left behind, although the kernel then discards the module and never calls
    [pwq_end].  The collector stops at the first request. *)
Theorem module_lifecycle major err :
  let '(rv, s) := pwq_start major err unloaded in
  (major < 0 -> rv = major /\ holds_nothing s) /\
  (0 <= major -> err = 0 -> rv = 0 /\ chrdev s = Some "pwq"%string /\ class s = true /\ device s = true /\
     collector s = true /\ holds_nothing (pwq_end s)) /\
  (0 <= major -> err <> 0 -> rv = err /\ chrdev s <> None /\ class s = true /\ device s = true /\
     collector s = false) /\
  (forall n rest k, pwq_collector_main (replicate n false ++ true :: rest) k = Ok (0, k + Z.of_nat n)).
Proof.
  assert (Hc : forall n rest k, pwq_collector_main (replicate n false ++ true :: rest) k = Ok (0, k + Z.of_nat n)).
  { induction n as [|n IH]; intros rest k; simpl; [by rewrite Z.add_0_r|]. rewrite IH. do 2 f_equal. lia. }
  unfold pwq_start. destruct (Z.ltb_spec major 0); simpl; [by split_and!; try lia|].
  destruct (Z.eqb_spec err 0); simpl; by split_and!; try lia.
Qed.

Lemma module_lifecycle_witness :
  fst (pwq_start 250 (-12) unloaded) = -12 /\ chrdev (snd (pwq_start 250 (-12) unloaded)) <> None.
Proof.
  pose proof (module_lifecycle 250 (-12)) as H. destruct (pwq_start 250 (-12) unloaded) as [rv s]. simpl.
  destruct H as (_ & _ & H & _). destruct (H ltac:(lia) ltac:(lia)) as (H1 & H2 & _). split; [exact H1|exact H2].
Defined.
